(* ===== verification/_CoqProject ===== *)
-Q . S2P
Prelude.v
Gob.v
Labgob.v
LabgobSpec.v
Labrpc.v
LabrpcStep.v
LabrpcSpec.v
LabrpcCall.v
LabWitness.v
Raft.v
RaftStep.v
RaftPersist.v
RaftLog.v
RaftSafety.v
RaftElection.v
RaftCommit.v
RaftReplication.v
RaftCluster.v
RaftWitness.v
KVServer.v
KVSpec.v
KVExactlyOnce.v
KVWitness.v
KVClient.v
MRMaster.v
MRWorker.v
MRApps.v
MRSpec.v
MRLive.v
MRJob.v
MRAppsSpec.v
MRMain.v
MRWitness.v
PorcBitset.v
PorcChecker.v
PorcList.v
PorcSpec.v
PorcSearch.v
PorcOps.v
PorcParallel.v
PorcKv.v
PorcEvents.v
PorcVisual.v
PorcVisualSpec.v
PorcWitness.v
HarnessKV.v
HarnessKVSpec.v
HarnessRestart.v
HarnessRaft.v
HarnessRaftSpec.v
RaftDelivery.v
RaftProtocol.v
RaftSystem.v
RaftNetwork.v
RaftLogMatching.v
RaftClusterWitness.v
RaftNetworkStep.v
RaftNetworkRecv.v
RaftAgreement.v
RaftClusterSafety.v
RaftService.v
RaftAgreementWitness.v
RaftServiceWitness.v
HarnessWitness.v
