(* ===== verification/Prelude.v ===== *)
(** * Verification of lizyzzz/mit6-824

    The repository holds the programs of MIT's distributed-systems course: a Raft
    library ([src/raft]), a fault-tolerant key/value service on top of it
    ([src/kvraft]), and MapReduce ([src/mr], [src/main], [src/mrapps]), with the
    simulated network ([src/labrpc]), the encoder ([src/labgob]) and the
    linearizability checker ([src/porcupine], [src/models]) that their tests use.

    ** How the program is modelled

    Go code that can panic or wait for ever is a function into [go] (this file).
    A struct is a record with the source's field names; a method is a function on
    the record.  What runs between [Lock] and [Unlock] is one function from state
    to state, so an interleaving of goroutines is a sequence of such steps; a
    method that releases its lock is split there and its parts carry the method's
    name and a suffix.  Slices are lists with checked indexing, maps are [gmap],
    Go's [int] is [Z] (indices and terms count up from 0), and integers whose width
    matters wrap around ([wrap32], [wrap64], [uwrap32]).  Pointers that are shared
    ([Op] and [OpContext] of the key/value server) are positions in a store.
    Iteration over a Go map takes the order as an argument.  Loops are structural
    or run on fuel; the fuel is the bound the loop itself has (entries left, peers
    left, length of the list, types of the program), except for the clerk's retry
    loops, where one unit is one RPC and a result [None] says that the loop has not
    ended, and for the checker's search, whose bound [turns] is part of its theorem.

    What is not under [src/] is used through contracts: [GobCodec] (Go's
    [encoding/gob] as raft and kvraft use it) and [GobLib] (the same for values of any
    type), [JsonCodec], [SortByKey], [SortByTime] and [SortBySize] ([sort.Sort] and
    [sort.Slice]), with concrete instances that show each contract can be met.  For raft and kvraft the network is an
    argument (the result of each RPC); [Labrpc.v] models the one the tests use.  An
    application's [mapf] and [reducef] and the handlers behind labrpc are arguments.

    ** Files

    - [Prelude.v]: this file; [go], its [wp], slices, machine integers, automation.
    - [Gob.v]: the contract of the encoder.
    - Package labgob: [Labgob.v] ([labgob.go]) the walks over types and values, Encode
      and Decode; [LabgobSpec.v] what the walk over types reports.
    - Package labrpc: [Labrpc.v] ([labrpc.go]) messages, services, servers, the network
      and the pieces of processReq, dispatch and Call; [LabrpcStep.v] requests under way
      as a state machine; [LabrpcSpec.v] positive replies; [LabrpcCall.v] whole calls and
      delays; [LabWitness.v] examples for labgob and labrpc.
    - Package raft ([raft.go], [persister.go]):
      [Raft.v] data and operations (elections, votes, replication, commitment,
      snapshots, start-up); [RaftStep.v] the list of critical sections and [exec];
      [RaftPersist.v] what is saved when; [RaftLog.v] the shape of the log and
      which sections can index outside it or use a nil [leaderPtr];
      [RaftSafety.v] reachable states, crash and restart; [RaftElection.v] votes and
      majorities; [RaftCommit.v] commitment; [RaftReplication.v] the exchange of
      AppendEntries.  The cluster: [RaftSystem.v] the peers, their messages and the
      goroutines that wait for answers, with every step they take, and the [Incident]s.
      [RaftLogMatching.v], [RaftClusterSafety.v] and [RaftService.v] are its theorems
      (the last for kvraft).  They are proved through [RaftCluster.v] and
      [RaftDelivery.v] (the logs, and what is delivered from them), [RaftProtocol.v]
      (Raft as an abstract protocol on a tree of entries), [RaftNetwork.v],
      [RaftNetworkStep.v], [RaftNetworkRecv.v] (the steps without incidents keep the
      cluster connected to the protocol) and [RaftAgreement.v] (what that means).
      [RaftWitness.v], [RaftClusterWitness.v], [RaftAgreementWitness.v] and
      [RaftServiceWitness.v]: executions with three peers.
    - Package kvraft: [KVServer.v] ([server.go], [common.go]) data and operations;
      [KVSpec.v] the replicated store as a function of the committed log and the
      refinement of the servers to it; [KVExactlyOnce.v] duplicate requests;
      [KVClient.v] the clerk ([client.go]); [KVWitness.v] a Put and a Get end to end.
    - Packages mr and mrapps: [MRMaster.v] ([master.go], [rpc.go]); [MRWorker.v]
      ([worker.go], [mrsequential.go]); [MRApps.v] the applications; [MRJob.v] a job with
      its master, workers, timers and files, step by step, and its theorems, proved
      through [MRSpec.v] (jobs whose master runs its handlers whole, and their result) and
      [MRLive.v] (that they end); [MRAppsSpec.v] what the word count and the index
      compute; [MRMain.v] ([mrmaster.go], [mrworker.go]) the processes
      from their command lines on; [MRWitness.v] jobs that run to their end, and
      interleavings that go wrong.
    - Packages porcupine and models: [PorcBitset.v] ([bitset.go]); [PorcChecker.v]
      ([model.go], [checker.go], [porcupine.go]) data and operations; [PorcList.v] the
      doubly linked list on its heap; [PorcSpec.v] linearizability; [PorcSearch.v] the
      search; [PorcOps.v] timed operations; [PorcParallel.v] the partitions;
      [PorcEvents.v] histories of events; [PorcKv.v] ([models/kv.go]) the key/value model
      and its split by key; [PorcVisual.v] ([visualization.go]) the data of the page that
      shows a check; [PorcVisualSpec.v] what it shows; [PorcWitness.v] examples.
    - The test harnesses: [HarnessKV.v] ([kvraft/config.go]) connections, partitions,
      restarts of servers on a store of persisters; [HarnessKVSpec.v] partitions;
      [HarnessRestart.v] restarts; [HarnessRaft.v] ([raft/config.go]) the same for Raft
      peers, and the checks of the tests; [HarnessRaftSpec.v] what the checks accept;
      [HarnessWitness.v] examples with three servers.

    ** What the theorems show

    - C1, C2 (a peer through any interleaving, crash and restart): the log keeps its
      shape; given messages as peers send them ([op_pre] of [RaftLog.v]) the only sections
      that can panic are those of a replication goroutine that outlives the leadership,
      and building a request then does; a restart finds the term, vote, log and snapshot
      metadata of the moment of the crash.
    - C3, C4 (elections): exactly which votes are granted, whatever happens between the
      two sections of the handler; terms do not go back and votes stay, unless one of
      three steps takes them back ([takesBack]); two majorities share a peer
      ([majority_unique]).
    - C6, C7, C8 (replication): what a follower and a leader commit and deliver (a leader
      with an even number of peers counts half of them as enough), and that the back-up
      rule brings a follower in step within a bounded number of exchanges, when the
      follower's snapshot is not ahead ([snapshot_ahead_stuck] shows what happens then).
    - The cluster, C27, C28, C5, C29, C21, C39.  [sysExec] of [RaftSystem.v] has every step
      of the peers, with messages lost, duplicated, delayed and reordered.  It notes an
      incident when the program does what the safety of Raft rests on not happening, and
      the theorems say what they exclude.  C27 and C28 (Log Matching; the index and term
      that [Start] returned name its entry for ever; also [command_index_counts]) exclude
      that a term is won twice, that a peer sends a snapshot when it has stopped leading,
      and that a request contradicts a snapshot.  C5, C29, C21 and C39 (State Machine
      Safety; one winner per term and Leader Completeness; the services agree; what
      [KVSpec.v] assumes of Raft) exclude all incidents, and an even number of peers.
      [void_vote_breaks_matching] and [delayed_request_loses_commit] are executions of
      the same cluster with one incident, in which the conclusions fail: the code does not
      ensure the conditions.
    - C9 to C15 (the service): every server's store is the committed log's, through
      redelivery, snapshots installed over older state, and any handlers; nothing
      panics; a waiting handler is woken; Get and Put/Append answer what the log
      says; requests are executed exactly once as long as no client's numbers go
      back along the log ([late_copies_run_twice] shows why that is needed).
    - C16, C18 (the clerk): it finds the leader in one round over the servers,
      and numbers its requests in order.
    - C20, C23, C24, C26 (MapReduce): when the master is done the output files hold the
      sequential program's result, also when a map task emits its pairs in another order
      each time it is run; for the word count and the index this is spelled out from the
      bytes of the input files; and from every state a job can get into, the master's
      timers and one worker bring it to its end.  Two incidents are excluded, that a
      reduce task is handed out while the files of a map task are still being added, and
      that an error of Rename or Fprintf is ignored ([map_report_race] and
      [ignored_rename_loses_output] show them) ([job_from_command_lines] runs
      a job from the command lines of its two processes).
    - C35, and the theorems [two_leaders_in_one_term], [vote_in_newer_term],
      [void_vote_breaks_matching], [delayed_request_loses_commit], [late_copies_run_twice], [Get_stuck_on_lost_server], [map_report_race] and
      [no_keys_never_done]: executions in which the code does not do what it should (two
      leaders in a term, a committed command that is replaced, a check that never ends, a request executed
      twice, a clerk that is stuck, a race and a missing wake-up in the MapReduce master).
    - C30 to C37 (the checker): the search ends within [turns] turns and decides
      linearizability; what it reports are linearizations; the answers for the partitions
      are combined correctly in every order of arrival and with timeouts; the split of a
      key/value history by key is sound and complete, so the check that the kvraft tests
      use is exact, except that it waits for ever on the empty history, and on no other (C35).
    - C22 (the page): it can be drawn from whatever a check returned, and shows it.
    - C25, C38 (the network): bounds on what it adds to the time of a call; a positive
      reply is one execution by a server that was not deleted before the handler had
      returned; over a reliable network a call is a call of the handler ([reliable_call]).
    - C17, C19 (the harnesses): the partition of the kvraft tests isolates the leader
      with a minority ([partition_isolates]); a restarted server gets what was saved before it was stopped,
      whatever its old instance still writes; the Raft tests' readers accept exactly the
      deliveries that agree and come in order.
    - C40 (the encoder's warnings): every lower-case field of every type that is sent is
      reported, once, and the walk ends on recursive types.

    The link between the packages: [KVSpec.v] assumes of Raft what [deliverable],
    [log_ok] and [ownEntry] say (commands are delivered in log order, a command
    index is used once, an entry with the index and term that [Start] returned is
    the one [Start] made); C39 derives this for a cluster whose commands are the
    service's requests, in its executions without incidents, with the request of a message as an object of the server's
    store.  What remains an assumption there is the content of snapshot messages, which C10
    relates to the servers' states.

    ** What is not modelled

    Logging, sockets and how plugins are loaded, the tests themselves, real time in raft,
    kvraft and mr (a timeout may happen at any time), the HTML and JavaScript of
    [visualization.go] (a constant) and the unused example RPC of mr ([call],
    [CallExample]).  The copies of a function that differ in its type only
    ([sendAppendEntriesWithTimeOut] and the like, [nparallel] of rtiming.go) are modelled
    once.  The entries of an AppendEntries request are those of the log when the request is
    built; the program encodes the slice after it has released the lock (raft.go:787), which
    is a data race.  The table of letters above U+00FF that [unicode.IsLetter] uses is an argument. *)

From stdpp Require Export prelude list gmap strings.
From stdpp Require Import sorting.
From Stdlib Require Export Strings.Byte.
From Stdlib Require Import Ascii Sorting.Sorted.

#[global] Open Scope Z_scope.

(** ** Outcomes of Go code

    A piece of Go code either returns, panics (index out of range, nil
    dereference, close of a closed channel) or waits for ever on a channel
    operation that no other goroutine completes. *)

Inductive go (A : Type) : Type :=
| Ret (a : A)
| Panic
| Block.

Arguments Ret {A} a.
Arguments Panic {A}.
Arguments Block {A}.

#[export] Instance go_ret : MRet go := λ A a, Ret a.
#[export] Instance go_bind : MBind go := λ A B f m,
  match m with
  | Ret a => f a
  | Panic => Panic
  | Block => Block
  end.

#[export] Instance go_fmap : FMap go := λ A B f m,
  match m with
  | Ret a => Ret (f a)
  | Panic => Panic
  | Block => Block
  end.

(** [wp m Q]: the code does not panic, and what it returns satisfies [Q]. *)
Definition wp {A} (m : go A) (Q : A → Prop) : Prop :=
  match m with
  | Ret a => Q a
  | Panic => False
  | Block => True
  end.

Lemma wp_ret {A} (a : A) Q : Q a → wp (Ret a) Q.
Proof. done. Qed.

Lemma wp_bind {A B} (m : go A) (f : A → go B) Q :
  wp m (λ a, wp (f a) Q) → wp (m ≫= f) Q.
Proof. by destruct m. Qed.

Lemma wp_fmap {A B} (f : A → B) (m : go A) Q : wp m (λ a, Q (f a)) → wp (f <$> m) Q.
Proof. by destruct m. Qed.

Lemma wp_mono {A} (m : go A) (P Q : A → Prop) :
  wp m P → (∀ a, P a → Q a) → wp m Q.
Proof. destruct m; simpl; auto. Qed.

Lemma wp_elim {A} (m : go A) Q : wp m Q → m ≠ Panic ∧ ∀ a, m = Ret a → Q a.
Proof. destruct m; simpl; naive_solver. Qed.

Lemma go_bind_Ret_inv {A B} (m : go A) (f : A → go B) b :
  m ≫= f = Ret b → ∃ a, m = Ret a ∧ f a = Ret b.
Proof. destruct m; simpl; [eauto | done | done]. Qed.

Lemma go_fmap_Ret_inv {A B} (f : A → B) (m : go A) b :
  f <$> m = Ret b → ∃ a, m = Ret a ∧ b = f a.
Proof. destruct m; simpl; [|done|done]. intros [= <-]. eauto. Qed.

(** ** Slices

    A slice is a list; the index is a Go [int].  Every access is checked. *)

Section slices.
Context {A : Type}.
Implicit Types (l : list A) (i n : Z) (x : A).

(** [len(l)] *)
Definition len l : Z := Z.of_nat (length l).

(** [l[i]] *)
Definition idx l i : go A :=
  if 0 <=? i then
    match l !! Z.to_nat i with
    | Some x => Ret x
    | None => Panic
    end
  else Panic.

(** [l[i] = x] *)
Definition upd l i x : go (list A) :=
  if (0 <=? i) && (i <? len l) then Ret (<[Z.to_nat i := x]> l) else Panic.

(** [l[:n]] *)
Definition slice_to l n : go (list A) :=
  if (0 <=? n) && (n <=? len l) then Ret (take (Z.to_nat n) l) else Panic.

(** [l[n:]] *)
Definition slice_from l n : go (list A) :=
  if (0 <=? n) && (n <=? len l) then Ret (drop (Z.to_nat n) l) else Panic.

(** [dst := make([]A, n); copy(dst, src)], with [z] the zero value *)
Definition make_copy z n l : go (list A) :=
  if 0 <=? n then
    Ret (take (Z.to_nat n) l ++ replicate (Z.to_nat n - length l)%nat z)
  else Panic.

Lemma idx_Ret l i x :
  idx l i = Ret x ↔ 0 ≤ i ∧ l !! Z.to_nat i = Some x.
Proof.
  unfold idx. destruct (Z.leb_spec 0 i) as [Hi|Hi]; [|split; [done | lia]].
  destruct (l !! Z.to_nat i); split; intros; destruct_and?; by simplify_eq.
Qed.

Lemma idx_total l i : 0 ≤ i < len l → ∃ x, idx l i = Ret x.
Proof.
  intros Hi. destruct (lookup_lt_is_Some_2 l (Z.to_nat i)) as [x Hx];
    [unfold len in *; lia|]. exists x. apply idx_Ret. split; [lia|done].
Qed.

Lemma idx_Panic l i : idx l i = Panic ↔ i < 0 ∨ len l ≤ i.
Proof.
  unfold idx, len. destruct (Z.leb_spec 0 i).
  - destruct (l !! Z.to_nat i) eqn:E.
    + apply lookup_lt_Some in E. split; [done | lia].
    + apply lookup_ge_None in E. split; [lia | done].
  - split; [lia | done].
Qed.

Lemma slice_to_Ret l n : 0 ≤ n ≤ len l → slice_to l n = Ret (take (Z.to_nat n) l).
Proof. intros. unfold slice_to. case_match; [done | lia]. Qed.

Lemma slice_to_inv l n r :
  slice_to l n = Ret r → 0 ≤ n ≤ len l ∧ r = take (Z.to_nat n) l.
Proof. unfold slice_to. case_match; intros; simplify_eq. split; [lia | done]. Qed.

Lemma slice_from_Ret l n : 0 ≤ n ≤ len l → slice_from l n = Ret (drop (Z.to_nat n) l).
Proof. intros. unfold slice_from. case_match; [done | lia]. Qed.

Lemma slice_from_inv l n r :
  slice_from l n = Ret r → 0 ≤ n ≤ len l ∧ r = drop (Z.to_nat n) l.
Proof. unfold slice_from. case_match; intros; simplify_eq. split; [lia | done]. Qed.

Lemma upd_Ret l i x : 0 ≤ i < len l → upd l i x = Ret (<[Z.to_nat i := x]> l).
Proof. intros. unfold upd. case_match; [done | lia]. Qed.

Lemma upd_inv l i x r :
  upd l i x = Ret r → 0 ≤ i < len l ∧ r = <[Z.to_nat i := x]> l.
Proof. unfold upd. case_match; intros; simplify_eq. split; [lia | done]. Qed.

Lemma make_copy_exact z l : make_copy z (len l) l = Ret l.
Proof.
  unfold make_copy, len. rewrite Nat2Z.id, Nat.sub_diag, take_ge, app_nil_r by lia.
  by rewrite (proj2 (Z.leb_le _ _)) by lia.
Qed.

Lemma len_app l1 l2 : len (l1 ++ l2) = len l1 + len l2.
Proof. unfold len. rewrite length_app. lia. Qed.

Lemma len_nonneg l : 0 ≤ len l.
Proof. unfold len. lia. Qed.

Lemma wp_idx l i Q :
  0 ≤ i < len l → (∀ x, l !! Z.to_nat i = Some x → Q x) → wp (idx l i) Q.
Proof.
  intros Hi HQ. destruct (idx_total l i Hi) as [x Hx]. rewrite Hx. simpl.
  apply HQ. by apply idx_Ret.
Qed.

Lemma wp_upd l i x Q : 0 ≤ i < len l → Q (<[Z.to_nat i := x]> l) → wp (upd l i x) Q.
Proof. intros. by rewrite upd_Ret. Qed.

Lemma wp_slice_to l n Q : 0 ≤ n ≤ len l → Q (take (Z.to_nat n) l) → wp (slice_to l n) Q.
Proof. intros. by rewrite slice_to_Ret. Qed.

Lemma wp_slice_from l n Q :
  0 ≤ n ≤ len l → Q (drop (Z.to_nat n) l) → wp (slice_from l n) Q.
Proof. intros. by rewrite slice_from_Ret. Qed.
End slices.

(** ** Strings *)

(** Go's [<=] on strings *)
Definition strLe (a b : string) : Prop := String.leb a b = true.

Lemma ascii_compare_trans a b c :
  Ascii.compare a b = Lt → Ascii.compare b c = Lt → Ascii.compare a c = Lt.
Proof. unfold Ascii.compare. rewrite !N.compare_lt_iff. lia. Qed.

Lemma leb_trans s1 s2 s3 :
  String.leb s1 s2 = true → String.leb s2 s3 = true → String.leb s1 s3 = true.
Proof.
  unfold String.leb. revert s2 s3. induction s1 as [|a s1 IH]; intros [|b s2] [|c s3]; simpl; try done.
  destruct (Ascii.compare a b) eqn:E1; [| |done]; destruct (Ascii.compare b c) eqn:E2; try done.
  - apply Ascii.compare_eq_iff in E1, E2. subst.
    rewrite (proj2 (N.compare_eq_iff _ _) eq_refl : Ascii.compare c c = Eq). apply IH.
  - apply Ascii.compare_eq_iff in E1. subst. by rewrite E2.
  - apply Ascii.compare_eq_iff in E2. subst. by rewrite E1.
  - by rewrite (ascii_compare_trans _ _ _ E1 E2).
Qed.

#[export] Instance strLe_dec a b : Decision (strLe a b) := decide (_ = true).
#[export] Instance strLe_total : Total strLe.
Proof. intros a b. apply String.leb_total. Qed.
#[export] Instance strLe_trans : Transitive strLe.
Proof. intros a b c. apply leb_trans. Qed.
#[export] Instance strLe_antisymm : AntiSymm (=) strLe.
Proof. intros a b. apply String.leb_antisym. Qed.

(** [sort.Strings]: strings have one sorted order *)
Definition sort_Strings (l : list string) : list string := merge_sort strLe l.

Lemma sort_Strings_perm l l' : l ≡ₚ l' → sort_Strings l = sort_Strings l'.
Proof.
  intros Hp. apply (StronglySorted_unique strLe).
  - apply (StronglySorted_merge_sort strLe).
  - apply (StronglySorted_merge_sort strLe).
  - unfold sort_Strings. by rewrite !(merge_sort_Permutation strLe).
Qed.

(** ** Filtered lists *)

(** the place of an element of a filtered list *)
Lemma filter_split {A} (P : A → Prop) `{!∀ x, Decision (P x)} l R1 x R2 :
  filter P l = R1 ++ x :: R2 →
  ∃ L1 L2, l = L1 ++ x :: L2 ∧ R1 = filter P L1 ∧ R2 = filter P L2.
Proof.
  revert R1. induction l as [|y l IH]; intros R1 E; [by destruct R1|].
  rewrite filter_cons in E. destruct (decide (P y)) as [Hy|Hy].
  - destruct R1 as [|z R1]; injection E as -> E.
    + subst R2. exists [], l. by rewrite filter_nil.
    + destruct (IH R1 E) as (L1 & L2 & -> & -> & ->). exists (z :: L1), L2.
      by rewrite filter_cons, decide_True.
  - destruct (IH R1 E) as (L1 & L2 & -> & -> & ->). exists (y :: L1), L2.
    by rewrite filter_cons, decide_False.
Qed.

Lemma filter_ext_in {A} (P Q : A → Prop) `{!∀ x, Decision (P x)} `{!∀ x, Decision (Q x)}
    (l : list A) :
  (∀ x, x ∈ l → P x ↔ Q x) → filter P l = filter Q l.
Proof.
  induction l as [|x l IH]; intros Hl; [done|]. rewrite !filter_cons.
  rewrite IH by (intros y Hy; apply Hl; by right).
  rewrite (decide_ext (P x) (Q x)); [done|]. apply Hl. by left.
Qed.

Lemma filter_none {A} (P : A → Prop) `{!∀ x, Decision (P x)} (l : list A) :
  Forall (λ x, ¬ P x) l → filter P l = [].
Proof. induction 1; [done|]. by rewrite filter_cons, decide_False. Qed.

Lemma filter_all {A} (P : A → Prop) `{!∀ x, Decision (P x)} (l : list A) :
  Forall P l → filter P l = l.
Proof. induction 1 as [|x l Hx _ IH]; [done|]. by rewrite filter_cons, decide_True, IH. Qed.

(** two elements are dropped from a list without duplicates *)
Lemma filter_two {A} (P : A → Prop) `{!∀ x, Decision (P x)} (l1 l2 l3 : list A) x z :
  NoDup (l1 ++ x :: l2 ++ z :: l3) → ¬ P x → ¬ P z →
  (∀ c, c ∈ l1 ++ x :: l2 ++ z :: l3 → c ≠ x → c ≠ z → P c) →
  filter P (l1 ++ x :: l2 ++ z :: l3) = l1 ++ l2 ++ l3.
Proof.
  intros Hnd Hx Hz HP. apply NoDup_app in Hnd as (_ & Hd1 & Hnd).
  apply NoDup_cons in Hnd as [Hn1 Hnd]. apply NoDup_app in Hnd as (_ & Hd2 & Hnd).
  apply NoDup_cons in Hnd as [Hn2 _].
  repeat setoid_rewrite elem_of_app in HP; repeat setoid_rewrite elem_of_cons in HP.
  repeat setoid_rewrite elem_of_app in HP; repeat setoid_rewrite elem_of_cons in HP.
  rewrite elem_of_app, elem_of_cons in Hn1.
  rewrite filter_app, filter_cons, decide_False, filter_app, filter_cons, decide_False by done.
  rewrite !filter_all; [done|..]; apply Forall_forall; intros c Hc; apply HP; try tauto; intros ->.
  - tauto.
  - done.
  - tauto.
  - apply (Hd2 _ Hc). constructor.
  - apply (Hd1 _ Hc). constructor.
  - apply (Hd1 _ Hc). rewrite elem_of_cons, elem_of_app, elem_of_cons. tauto.
Qed.

(** ** Machine integers *)

(** conversion to int32, int64, uint32 and uint64: wrap around *)
Definition wrap32 (z : Z) : Z := (z + 2 ^ 31) mod 2 ^ 32 - 2 ^ 31.
Definition wrap64 (z : Z) : Z := (z + 2 ^ 63) mod 2 ^ 64 - 2 ^ 63.
Definition uwrap32 (z : Z) : Z := z mod 2 ^ 32.
Definition uwrap64 (z : Z) : Z := z mod 2 ^ 64.

Lemma wrap32_id z : - 2 ^ 31 ≤ z < 2 ^ 31 → wrap32 z = z.
Proof. intros. unfold wrap32. rewrite Z.mod_small by lia. lia. Qed.

Lemma wrap64_id z : - 2 ^ 63 ≤ z < 2 ^ 63 → wrap64 z = z.
Proof. intros. unfold wrap64. rewrite Z.mod_small by lia. lia. Qed.

(** ** Automation *)

Create HintDb go.
Create Rewrite HintDb go.
#[export] Hint Resolve len_nonneg : go.
#[export] Hint Rewrite @len_app : go.

(** [go_step H] takes one step of the evaluation [H : m = Ret r]: the bind, the
    test or the match at its head. *)
Ltac go_step H :=
  lazymatch type of H with
  | mbind _ _ = Ret _ =>
      let a := fresh "a" in let E := fresh "E" in
      apply go_bind_Ret_inv in H as (a & E & H); cbv beta in H
  | fmap _ _ = Ret _ =>
      let a := fresh "a" in let E := fresh "E" in
      apply go_fmap_Ret_inv in H as (a & E & H)
  | Ret _ = Ret _ => injection H as H
  | Panic = Ret _ => discriminate H
  | Block = Ret _ => discriminate H
  | (let x := _ in _) = Ret _ => cbv zeta in H
  | (if decide ?P then _ else _) = Ret _ => destruct (decide P)
  | (if ?b then _ else _) = Ret _ => let E := fresh "E" in destruct b eqn:E
  | (match ?x with _ => _ end) = Ret _ => let E := fresh "E" in destruct x eqn:E
  end.

(** all the steps of [H], and of the sub-evaluations it gives *)
Ltac go_steps H := repeat go_step H; simpl in *; subst.

(** forward reasoning with a lemma about an evaluation, wherever it applies *)
Tactic Notation "fwd" uconstr(lem) :=
  match goal with H : _ = Ret _ |- _ => apply lem in H end.

(** Decide the boolean tests of the goal and the hypotheses. *)
Ltac bool_split :=
  repeat match goal with
  | H : context [?a <=? ?b] |- _ => destruct (Z.leb_spec a b)
  | H : context [?a <? ?b] |- _ => destruct (Z.ltb_spec a b)
  | H : context [?a =? ?b] |- _ => destruct (Z.eqb_spec a b)
  | |- context [?a <=? ?b] => destruct (Z.leb_spec a b)
  | |- context [?a <? ?b] => destruct (Z.ltb_spec a b)
  | |- context [?a =? ?b] => destruct (Z.eqb_spec a b)
  end.
