(* ===== verification/Gob.v ===== *)
(** * Serialization interface

    [labgob] wraps Go's [encoding/gob].  The programs use it as a stream of
    values: [Encode] appends one value to a byte buffer, [Decode] reads the next
    one.  [GobCodec A] is that contract for the values of type [A]; the clients
    (package raft, package kvraft) are verified against the interface.  The
    instances below come from stdpp's [Countable] and show that the contract
    can be met; they are not gob's wire format. *)

From S2P Require Import Prelude.

Abbreviation bytes := (list byte).

Class GobCodec (A : Type) := {
  gob_encode : A → bytes;
  gob_decode : bytes → option (A * bytes);
  (** a value written to a stream is read back, and the rest of the stream is
      left for the next [Decode] *)
  gob_roundtrip a rest : gob_decode (gob_encode a ++ rest) = Some (a, rest);
  (** every value takes at least one byte *)
  gob_nonempty a : gob_encode a ≠ [];
}.

Create Rewrite HintDb gob.
#[export] Hint Rewrite @gob_roundtrip : gob.

(** A map is decoded into the variable that is there: entries of the stream are
    added to the existing map, a key that is not in the stream stays. *)
Definition gob_decode_map {K V} `{Countable K} `{!GobCodec (gmap K V)}
    (m : gmap K V) (bs : bytes) : gmap K V * bytes :=
  match gob_decode bs with
  | Some (m', rest) => (m' ∪ m, rest)
  | None => (m, bs)
  end.

(** ** A concrete codec *)
Module CountableCodec.

Fixpoint pos_bytes (p : positive) : bytes :=
  match p with
  | xO p => x00 :: pos_bytes p
  | xI p => x01 :: pos_bytes p
  | xH => [x02]
  end.

Fixpoint bytes_pos (bs : bytes) : option (positive * bytes) :=
  match bs with
  | x00 :: bs => '(p, rest) ← bytes_pos bs; Some (xO p, rest)
  | x01 :: bs => '(p, rest) ← bytes_pos bs; Some (xI p, rest)
  | x02 :: bs => Some (xH, bs)
  | _ => None
  end.

Lemma bytes_pos_bytes p rest : bytes_pos (pos_bytes p ++ rest) = Some (p, rest).
Proof. induction p as [p IH|p IH|]; simpl; [by rewrite IH | by rewrite IH | done]. Qed.

#[export] Program Instance countable_codec {A} `{Countable A} : GobCodec A := {|
  gob_encode a := pos_bytes (encode a);
  gob_decode bs :=
    match bytes_pos bs with
    | Some (p, rest) => a ← decode p; Some (a, rest)
    | None => None
    end
|}.
Next Obligation. intros. simpl. by rewrite bytes_pos_bytes, decode_encode. Qed.
Next Obligation. intros A ? ? a. simpl. by destruct (encode a). Qed.

End CountableCodec.
