(* ===== verification/Labgob.v ===== *)
(** * Package labgob: the encoder with its warnings

    [labgob.go] wraps [encoding/gob].  Before it encodes or decodes a value it walks
    over the value's type and complains about fields that gob would ignore, once for
    every type; before it decodes it warns about variables that are not zero.
    Go's types can refer to themselves, so the types of a program are a table and a
    type is an index into it.  [encoding/gob] itself is the class [GobLib]. *)

From S2P Require Import Prelude Gob.

(** ** What the package sees of package reflect *)

Inductive Kind :=
| Bool | Int | Int8 | Int16 | Int32 | Int64 | Uint | Uint8 | Uint16 | Uint32 | Uint64
| Uintptr | Float32 | Float64 | Complex64 | Complex128 | Array | Chan | Func | Interface
| Map | Ptr | Slice | String | Struct | UnsafePointer.

#[export] Instance Kind_eq_dec : EqDecision Kind.
Proof. solve_decision. Defined.

Record Field := mkField { f_Name : string; f_Type : nat }.

(** [Elem] and [Key] panic for the kinds that have none *)
Record rtype := mkType {
  t_Name : string;
  t_Kind : Kind;
  t_Fields : list Field;
  t_Elem : option nat;
  t_Key : option nat;
}.

Inductive scalar :=
| SBool (b : bool)
| SInt (z : Z)
| SFloat32 (bits : Z)
| SFloat64 (bits : Z)
| SString (s : string).

(** a value with the index of its type; an interface holds one value or none, and what
    is in slices, maps, channels and functions is a list *)
#[warnings="-register-all"]
Inductive value :=
| VScalar (t : nat) (s : scalar)
| VStruct (t : nat) (fields : list value)
| VPtr (t : nat) (target : option value)
| VOther (t : nat) (content : list value).

Definition typeOf (v : value) : nat :=
  match v with
  | VScalar t _ | VStruct t _ | VPtr t _ | VOther t _ => t
  end.

(** [reflect.DeepEqual] with the zero value; floating point has two zeros *)
Definition isZero (s : scalar) : bool :=
  match s with
  | SBool b => negb b
  | SInt z => z =? 0
  | SFloat32 bits => (bits =? 0) || (bits =? 2 ^ 31)
  | SFloat64 bits => (bits =? 0) || (bits =? 2 ^ 63)
  | SString s => String.eqb s EmptyString
  end.

(** ** Package gob

    [gobEncode] gives the bytes of a value, or an error; [gobDecode] reads bytes into a
    variable and says whether it succeeded.  A value that gob can send whole
    ([gobSendable]) and that is read into a zero variable of its type comes back. *)
Class GobLib := {
  zeroOf : nat → value; (* [reflect.New] *)
  gobEncode : value → option bytes;
  gobDecode : value → bytes → value * bool;
  gobSendable : value → Prop;
  zeroOf_type t : typeOf (zeroOf t) = t;
  gob_sends v : gobSendable v →
    ∃ bs, gobEncode v = Some bs ∧ gobDecode (zeroOf (typeOf v)) bs = (v, true);
}.

(** ** The package's state *)

Inductive Line :=
| LowerCase (field type : string)
| NonDefault (what : string).

#[export] Instance Line_eq_dec : EqDecision Line.
Proof. solve_decision. Defined.

(** [checked] and [errorCount], and the lines printed so far *)
Record Lab := mkLab { checked : gset nat; errorCount : Z; out : list Line }.

Definition labInit : Lab := mkLab ∅ 0 [].

Definition setChecked (t : nat) (st : Lab) : Lab :=
  mkLab ({[t]} ∪ checked st) (errorCount st) (out st).

Section labgob.
(** the types of the program; which letters outside ASCII are capitals *)
Context (types : list rtype) (upperUnicode : string → bool).
Implicit Types (t u : nat) (st : Lab).

(** [unicode.IsUpper] of the first rune *)
Definition IsUpper (name : string) : bool :=
  match name with
  | EmptyString => false
  | String.String c _ =>
      let b := Ascii.N_of_ascii c in
      if (b <? 128)%N then (65 <=? b)%N && (b <=? 90)%N else upperUnicode name
  end.

Definition typeAt t : go rtype :=
  match types !! t with
  | Some ty => Ret ty
  | None => Panic
  end.

Definition typeRef (t : option nat) : go nat :=
  match t with
  | Some t => Ret t
  | None => Panic
  end.

Definition complain (field type : string) st : Lab :=
  mkLab (checked st) (errorCount st + 1) (out st ++ [LowerCase field type]).

(** the fields of a struct, with [checkType] as an argument *)
Fixpoint checkFields (check : nat → Lab → go Lab) (name : string) (fs : list Field) st : go Lab :=
  match fs with
  | [] => Ret st
  | f :: fs =>
      let st := if IsUpper (f_Name f) then st else complain (f_Name f) name st in
      st ← check (f_Type f) st;
      checkFields check name fs st
  end.

Fixpoint checkType (fuel : nat) t st : go Lab :=
  match fuel with
  | O => Block
  | S fuel =>
      ty ← typeAt t;
      if decide (t ∈ checked st) then Ret st
      else
      let st := setChecked t st in
      match t_Kind ty with
      | Struct => checkFields (checkType fuel) (t_Name ty) (t_Fields ty) st
      | Slice | Array | Ptr => e ← typeRef (t_Elem ty); checkType fuel e st
      | Map =>
          e ← typeRef (t_Elem ty);
          st ← checkType fuel e st;
          k ← typeRef (t_Key ty);
          checkType fuel k st
      | _ => Ret st
      end
  end.

(** no path without repetition is longer than the table *)
Definition typeFuel : nat := S (length types).

(** [reflect.TypeOf(nil)] is nil, and has no [Kind] *)
Definition checkValue (v : option value) st : go Lab :=
  match v with
  | Some v => checkType typeFuel (typeOf v) st
  | None => Panic
  end.

Definition isScalar (k : Kind) : bool :=
  match k with
  | Bool | Int | Int8 | Int16 | Int32 | Int64 | Uint | Uint8 | Uint16 | Uint32 | Uint64
  | Uintptr | Float32 | Float64 | String => true
  | _ => false
  end.

Definition warn (what : string) st : Lab :=
  mkLab (checked st) (errorCount st + 1)
        (if errorCount st <? 1 then out st ++ [NonDefault what] else out st).

(** [value.Field(i)] for all i *)
Fixpoint defaultFields (check : value → string → Lab → go Lab) (name : string)
    (fs : list Field) (vs : list value) st : go Lab :=
  match fs, vs with
  | [], _ => Ret st
  | f :: fs, vv :: vs =>
      let name1 := if String.eqb name EmptyString then f_Name f
                   else String.append (String.append name ".") (f_Name f) in
      st ← check vv name1 st;
      defaultFields check name fs vs st
  | _ :: _, [] => Panic
  end.

(** [depth] grows, so the fuel left is at most [4 - depth] *)
Fixpoint checkDefault1 (fuel : nat) (v : value) (depth : Z) (name : string) st : go Lab :=
  if 3 <? depth then Ret st
  else
  match fuel with
  | O => Block
  | S fuel =>
      ty ← typeAt (typeOf v);
      match v with
      | VStruct _ vs =>
          if decide (t_Kind ty = Struct) then
            defaultFields (λ vv name1, checkDefault1 fuel vv (depth + 1) name1) name
              (t_Fields ty) vs st
          else Panic
      | VPtr _ target =>
          if decide (t_Kind ty = Ptr) then
            match target with
            | None => Ret st
            | Some vv => checkDefault1 fuel vv (depth + 1) name st
            end
          else Panic
      | VScalar _ s =>
          if isScalar (t_Kind ty) then
            if isZero s then Ret st
            else Ret (warn (if String.eqb name EmptyString then t_Name ty else name) st)
          else Panic
      | VOther _ _ => Ret st
      end
  end.

Definition checkDefault (v : option value) st : go Lab :=
  match v with
  | None => Ret st
  | Some v => checkDefault1 3 v 1 EmptyString st
  end.

Context `{!GobLib}.

(** the buffer that the encoder writes to, and whether there was no error *)
Definition Encode (e : option value) (buf : bytes) st : go (bytes * bool * Lab) :=
  st ← checkValue e st;
  Ret (match e ≫= gobEncode with
       | Some bs => (buf ++ bs, true, st)
       | None => (buf, false, st)
       end).

(** [e] is a pointer (its type is [t]) to a variable; the variable after reading *)
Definition Decode t (var : value) (buf : bytes) st : go (value * bool * Lab) :=
  let e := VPtr t (Some var) in
  st ← checkValue (Some e) st;
  st ← checkDefault (Some e) st;
  let '(v, ok) := gobDecode var buf in
  Ret (v, ok, st).

Definition labRegister (v : option value) st : go Lab := checkValue v st.
End labgob.
