(* ===== verification/LabgobSpec.v ===== *)
(** * Package labgob: what the walk over a type reports

    [checkType] reaches every type that a value of the type can contain, ends although
    types may refer to themselves, and reports the lower-case fields of a struct once,
    however often values of it are sent. *)

From stdpp Require Import relations.
From S2P Require Import Prelude Gob Labgob.

Section walk.
Context (types : list rtype) (upperUnicode : string → bool).
Implicit Types (t u : nat) (st : Lab).

(** the types that the walk looks at next *)
Definition parts (ty : rtype) : list nat :=
  match t_Kind ty with
  | Struct => f_Type <$> t_Fields ty
  | Slice | Array | Ptr => option_list (t_Elem ty)
  | Map => option_list (t_Elem ty) ++ option_list (t_Key ty)
  | _ => []
  end.

Definition contains t u : Prop := ∃ ty, types !! t = Some ty ∧ u ∈ parts ty.

(** a type that [t] is made of *)
Definition madeOf : nat → nat → Prop := rtc contains.

(** a table as package reflect gives it *)
Record table_ok : Prop := {
  tb_closed : ∀ t u, contains t u → (u < length types)%nat;
  tb_elem : ∀ t ty, types !! t = Some ty →
    t_Kind ty ∈ [Slice; Array; Ptr; Map] → is_Some (t_Elem ty);
  tb_key : ∀ t ty, types !! t = Some ty → t_Kind ty = Map → is_Some (t_Key ty);
}.

(** the complaints about the fields of a struct *)
Definition fieldLines (name : string) (fs : list Field) : list Line :=
  (λ f, LowerCase (f_Name f) name) <$> filter (λ f, IsUpper upperUnicode (f_Name f) = false) fs.

Definition complaints t : list Line :=
  match types !! t with
  | Some ty => if decide (t_Kind ty = Struct) then fieldLines (t_Name ty) (t_Fields ty) else []
  | None => []
  end.

(** ** One call

    From [roots], with complaints [extra] about the type that is being looked at: the
    types [new] are looked at, with all their parts. *)
Definition visited (roots : list nat) (extra : list Line) st st' : Prop :=
  ∃ new lines,
    NoDup new ∧ (∀ u, u ∈ new → u ∉ checked st)
    ∧ checked st' = checked st ∪ list_to_set new
    ∧ out st' = out st ++ lines ∧ lines ≡ₚ extra ++ (new ≫= complaints)
    ∧ errorCount st' = errorCount st + len lines
    ∧ (∀ u, u ∈ new → ∃ r, r ∈ roots ∧ madeOf r u)
    ∧ (∀ u c, u ∈ new → contains u c → c ∈ checked st')
    ∧ (∀ r, r ∈ roots → r ∈ checked st').

Lemma visited_nil st : visited [] [] st st.
Proof.
  exists [], []. split_and!; try done; try set_solver; try by rewrite app_nil_r.
  - constructor.
  - unfold len. simpl. lia.
Qed.

Lemma visited_app r1 r2 e1 e2 st1 st2 st3 :
  visited r1 e1 st1 st2 → visited r2 e2 st2 st3 → visited (r1 ++ r2) (e1 ++ e2) st1 st3.
Proof.
  intros (n1 & l1 & Hn1 & Hd1 & Hc1 & Ho1 & Hl1 & Hk1 & Hr1 & Hp1 & Hi1)
         (n2 & l2 & Hn2 & Hd2 & Hc2 & Ho2 & Hl2 & Hk2 & Hr2 & Hp2 & Hi2).
  exists (n1 ++ n2), (l1 ++ l2). split_and!.
  - apply NoDup_app. split_and!; [done| |done]. intros u Hu Hu2. apply (Hd2 u Hu2).
    rewrite Hc1. set_solver.
  - intros u [Hu|Hu]%elem_of_app; [by apply Hd1|]. intros Hu'. apply (Hd2 u Hu). rewrite Hc1. set_solver.
  - rewrite Hc2, Hc1, list_to_set_app_L. set_solver.
  - by rewrite Ho2, Ho1, app_assoc.
  - rewrite Hl1, Hl2, bind_app. solve_Permutation.
  - rewrite Hk2, Hk1, len_app. lia.
  - intros u [Hu|Hu]%elem_of_app.
    + destruct (Hr1 u Hu) as (r & ? & ?). exists r. rewrite elem_of_app. tauto.
    + destruct (Hr2 u Hu) as (r & ? & ?). exists r. rewrite elem_of_app. tauto.
  - intros u c [Hu|Hu]%elem_of_app Hc; [|by eapply Hp2]. rewrite Hc2.
    apply elem_of_union_l. by eapply Hp1.
  - intros r [Hr|Hr]%elem_of_app; [|by apply Hi2]. rewrite Hc2. apply elem_of_union_l. by apply Hi1.
Qed.

(** a type that was looked at before *)
Lemma visited_again t st : t ∈ checked st → visited [t] [] st st.
Proof.
  intros Ht. exists [], []. split_and!; try done; try set_solver; try by rewrite app_nil_r.
  - constructor.
  - unfold len. simpl. lia.
Qed.

(** a type that was not *)
Lemma visited_root t ty st st' :
  t ∉ checked st → types !! t = Some ty →
  visited (parts ty) (complaints t) (setChecked t st) st' → visited [t] [] st st'.
Proof.
  intros Ht Hty (new & lines & Hn & Hd & Hc & Ho & Hl & Hk & Hr & Hp & Hi). simpl in *.
  exists (t :: new), lines. split_and!.
  - constructor; [|done]. intros Hin. apply (Hd t Hin). set_solver.
  - intros u [->|Hu]%elem_of_cons; [done|]. apply Hd in Hu. set_solver.
  - rewrite Hc. simpl. set_solver.
  - done.
  - by rewrite Hl.
  - done.
  - intros u [->|Hu]%elem_of_cons; [exists t; split; [set_solver|done]|].
    destruct (Hr u Hu) as (r & Hr' & Hru). exists t. split; [set_solver|].
    eapply rtc_l; [|done]. by exists ty.
  - intros u c [->|Hu]%elem_of_cons Hcu; [|by eapply Hp].
    destruct Hcu as (ty' & Hty' & Hcu). rewrite Hty in Hty'. injection Hty' as <-. by apply Hi.
  - intros r ->%list_elem_of_singleton. rewrite Hc. set_solver.
Qed.

(** the number of types that were not looked at *)
Definition unseen st : nat := length (filter (λ t, t ∉ checked st) (seq 0 (length types))).

Lemma filter_length_mono {A} (P Q : A → Prop) `{!∀ x, Decision (P x)} `{!∀ x, Decision (Q x)} l :
  (∀ x, P x → Q x) → (length (filter P l) ≤ length (filter Q l))%nat.
Proof.
  intros HPQ. induction l as [|x l IH]; [done|]. rewrite !filter_cons.
  destruct (decide (P x)), (decide (Q x)); simpl; try lia. naive_solver.
Qed.

Lemma unseen_mono st st' : checked st ⊆ checked st' → (unseen st' ≤ unseen st)%nat.
Proof. intros Hs. apply filter_length_mono. set_solver. Qed.

Lemma unseen_visited roots extra st st' : visited roots extra st st' → (unseen st' ≤ unseen st)%nat.
Proof. intros (new & lines & _ & _ & Hc & _). apply unseen_mono. rewrite Hc. set_solver. Qed.

Lemma unseen_mark t st :
  t ∉ checked st → (t < length types)%nat → (unseen (setChecked t st) < unseen st)%nat.
Proof.
  intros Ht Hlt. unfold unseen. destruct (list_elem_of_split (seq 0 (length types)) t) as (l1 & l2 & ->).
  { apply elem_of_seq. lia. }
  rewrite !filter_app, !filter_cons, !length_app.
  rewrite (decide_False (P := t ∉ checked (setChecked t st))) by (simpl; set_solver).
  rewrite (decide_True (P := t ∉ checked st)) by done. simpl.
  assert (∀ l, (length (filter (λ u, u ∉ {[t]} ∪ checked st) l)
                ≤ length (filter (λ u, u ∉ checked st) l))%nat) as Hm
    by (intros l; apply filter_length_mono; set_solver).
  pose proof (Hm l1). pose proof (Hm l2). lia.
Qed.

Hypothesis Htable : table_ok.

(** the fields of a struct, when [check] does what it should *)
Lemma checkFields_ok check (P : Lab → Prop) name fs st :
  (∀ roots extra s s', P s → visited roots extra s s' → P s') →
  (∀ t s, P s → t ∈ f_Type <$> fs → ∃ s', check t s = Ret s' ∧ visited [t] [] s s') →
  P st →
  ∃ st', checkFields upperUnicode check name fs st = Ret st'
    ∧ visited (f_Type <$> fs) (fieldLines name fs) st st'.
Proof.
  intros HP. revert st. induction fs as [|f fs IH]; intros st Hcheck Hst; simpl.
  { exists st. split; [done|apply visited_nil]. }
  set (st1 := if IsUpper upperUnicode (f_Name f) then st else complain (f_Name f) name st).
  assert (visited [] (fieldLines name [f]) st st1) as H1.
  { unfold fieldLines, st1. rewrite filter_cons, filter_nil.
    destruct (IsUpper _ _) eqn:E; [apply visited_nil|].
    exists [], [LowerCase (f_Name f) name]. split_and!; try done; try set_solver. constructor. }
  destruct (Hcheck (f_Type f) st1) as (st2 & -> & H2); [by eapply HP|by left|]. simpl.
  destruct (IH st2) as (st3 & -> & H3).
  - intros t s Hs Ht. apply Hcheck; [done|by right].
  - eapply HP, H2. by eapply HP.
  - exists st3. split; [done|].
    pose proof (visited_app _ _ _ _ _ _ _ H1 (visited_app _ _ _ _ _ _ _ H2 H3)) as H.
    simpl in H. replace (fieldLines name (f :: fs)) with (fieldLines name [f] ++ fieldLines name fs).
    + done.
    + unfold fieldLines. by rewrite <-fmap_app, <-filter_app.
Qed.

Lemma checkType_ok fuel t st :
  (t < length types)%nat → (unseen st < fuel)%nat →
  ∃ st', checkType types upperUnicode fuel t st = Ret st' ∧ visited [t] [] st st'.
Proof.
  revert t st. induction fuel as [|fuel IH]; intros t st Ht Hf; [lia|]. simpl.
  destruct (lookup_lt_is_Some_2 types t Ht) as [ty Hty]. unfold typeAt. rewrite Hty. simpl.
  destruct (decide (t ∈ checked st)) as [Hin|Hin].
  { exists st. split; [done|by apply visited_again]. }
  assert (∀ u s, (unseen s < fuel)%nat → u ∈ parts ty →
    ∃ s', checkType types upperUnicode fuel u s = Ret s' ∧ visited [u] [] s s') as Hrec.
  { intros u s Hs Hu. apply IH; [|done]. apply (tb_closed Htable t). by exists ty. }
  assert (unseen (setChecked t st) < fuel)%nat as Hst1.
  { pose proof (unseen_mark t st Hin Ht). lia. }
  assert (∀ roots extra s s', (unseen s < fuel)%nat → visited roots extra s s' → (unseen s' < fuel)%nat)
    as Hmono by (intros ???? Hs Hv; apply unseen_visited in Hv; lia).
  pose proof (visited_root t ty st) as Hroot. pose proof (tb_elem Htable t ty Hty) as Helem.
  pose proof (tb_key Htable t ty Hty) as Hkey. unfold complaints in Hroot. rewrite Hty in Hroot.
  assert (∀ e, t_Elem ty = Some e → parts ty = [e] → t_Kind ty ≠ Struct → ∃ st',
    checkType types upperUnicode fuel e (setChecked t st) = Ret st' ∧ visited [t] [] st st') as Hone.
  { intros e He Hp Hk. destruct (Hrec e (setChecked t st)) as (st' & E & Hv); [done|rewrite Hp; by left|].
    exists st'. split; [done|]. apply Hroot; [done..|]. rewrite Hp, decide_False; done. }
  unfold parts in *. destruct (t_Kind ty) eqn:Hk.
  all: try by (exists (setChecked t st); split; [done|]; apply Hroot; [done..|]; apply visited_nil).
  all: try (destruct Helem as [e He]; [rewrite !elem_of_cons; tauto|]; rewrite He in *; simpl in *;
    apply (Hone e); done).
  - destruct Helem as [e He]; [rewrite !elem_of_cons; tauto|]. destruct Hkey as [k Hkk]; [done|].
    rewrite He, Hkk in *. simpl in *.
    destruct (Hrec e (setChecked t st)) as (st1 & -> & Hv1); [done|by left|]. simpl.
    destruct (Hrec k st1) as (st2 & -> & Hv2); [by eapply Hmono|right; by left|].
    exists st2. split; [done|]. apply Hroot; [done..|]. apply (visited_app [e] [k] [] [] _ st1); done.
  - destruct (checkFields_ok (checkType types upperUnicode fuel) (λ s, (unseen s < fuel)%nat)
      (t_Name ty) (t_Fields ty) (setChecked t st) Hmono) as (st' & -> & Hv); [intros; by apply Hrec|done|].
    exists st'. split; [done|]. apply Hroot; [done..|]. by rewrite decide_True.
Qed.
(** ** A program's life *)

(** values sent one after the other *)
Fixpoint checkValues (vs : list value) st : go Lab :=
  match vs with
  | [] => Ret st
  | v :: vs => st ← checkValue types upperUnicode (Some v) st; checkValues vs st
  end.

Lemma unseen_bound st : (unseen st < typeFuel types)%nat.
Proof.
  unfold unseen, typeFuel. rewrite <-(length_seq (length types) 0) at 2.
  apply Nat.lt_succ_r, length_filter.
Qed.

Lemma checkValues_ok vs st :
  (∀ v, v ∈ vs → (typeOf v < length types)%nat) →
  ∃ st', checkValues vs st = Ret st' ∧ visited (typeOf <$> vs) [] st st'.
Proof.
  revert st. induction vs as [|v vs IH]; intros st Hvs; cbn [checkValues checkValue].
  { exists st. split; [done|apply visited_nil]. }
  destruct (checkType_ok (typeFuel types) (typeOf v) st) as (st1 & -> & H1);
    [apply Hvs; by left|apply unseen_bound|]. simpl.
  destruct (IH st1) as (st2 & -> & H2); [intros w Hw; apply Hvs; by right|].
  exists st2. split; [done|]. by apply (visited_app [typeOf v] _ [] [] _ st1).
Qed.

Lemma madeOf_closed (C : gset nat) t u :
  (∀ x c, x ∈ C → contains x c → c ∈ C) → t ∈ C → madeOf t u → u ∈ C.
Proof. intros HC Ht. induction 1 as [|x y z Hxy _ IH]; [done|]. apply IH. by eapply HC. Qed.

(** C40: However often values are encoded, and although types may refer to themselves,
    the walk of labgob over their types ends and reports every lower-case field of
    every struct type that the values can contain, once: the types it has marked are
    exactly those that the sent types are made of, the lines it has printed are their
    complaints, and [errorCount] counts them. *)
Theorem labgob_reports vs :
  (∀ v, v ∈ vs → (typeOf v < length types)%nat) →
  ∃ st new, checkValues vs labInit = Ret st
    ∧ NoDup new ∧ (∀ u, u ∈ new ↔ ∃ v, v ∈ vs ∧ madeOf (typeOf v) u)
    ∧ checked st = list_to_set new ∧ out st ≡ₚ new ≫= complaints
    ∧ errorCount st = len (out st).
Proof.
  intros Hvs. destruct (checkValues_ok vs labInit Hvs)
    as (st & E & new & lines & Hn & _ & Hc & Ho & Hl & Hk & Hr & Hp & Hi).
  simpl in *. rewrite union_empty_l_L in Hc. exists st, new. split_and!; try done.
  - intros u. split.
    + intros Hu. destruct (Hr u Hu) as (r & (v & -> & Hv)%list_elem_of_fmap & Hru). by exists v.
    + intros (v & Hv & Hu). rewrite <-(elem_of_list_to_set (C := gset nat)), <-Hc.
      apply (madeOf_closed (checked st) (typeOf v)); [|by apply Hi, list_elem_of_fmap_2|done].
      intros x c Hx. rewrite Hc, elem_of_list_to_set in Hx. by apply Hp.
  - by rewrite Ho.
  - rewrite Hk, Ho. lia.
Qed.
End walk.

(** ** Encoding and decoding

    Apart from the lines it prints, labgob does what gob does. *)

Lemma Encode_gob types upper `{!GobLib} v buf st r :
  Encode types upper (Some v) buf st = Ret r →
  r.1 = match gobEncode v with Some bs => (buf ++ bs, true) | None => (buf, false) end.
Proof. intros E. unfold Encode in E. go_step E. go_step E. subst r. simpl. by destruct (gobEncode v). Qed.

Lemma Decode_gob types upper `{!GobLib} t var buf st r :
  Decode types upper t var buf st = Ret r → r.1 = gobDecode var buf.
Proof.
  intros E. unfold Decode in E. do 2 go_step E. destruct (gobDecode var buf) as [v ok].
  by injection E as <-.
Qed.
