(* ===== verification/Labrpc.v ===== *)
(** * Package labrpc: the simulated network

    [labrpc.go]: clients send requests through named ends; the network looks up the
    server an end is connected to, calls its dispatcher in a goroutine, and may lose,
    delay or refuse what it carries.  Names are [interface{}] values, here any countable
    type, and nil is [None].  A [*Server] is a position in the store of servers.  Random
    numbers and the values that handlers return are arguments.  A method that sleeps or
    waits is split there ([processReq], [Call], [dispatch]).  [log.Fatalf] ends the
    program, as a panic does. *)

From Stdlib Require Import Strings.Ascii.
From S2P Require Import Prelude Gob Labgob.

(** ** Messages, services and servers *)

Record reqMsg (Name : Type) := mkReqMsg {
  endname : Name;
  svcMeth : string;
  argsType : nat;
  args : bytes;
}.
Arguments mkReqMsg {Name}.
Arguments endname {Name}.
Arguments svcMeth {Name}.
Arguments argsType {Name}.
Arguments args {Name}.

Record replyMsg := mkReplyMsg { rep_ok : bool; rep_reply : bytes }.

(** [reflect.Method]; [In] starts with the receiver *)
Record Method := mkMethod {
  m_Name : string;
  m_PkgPath : string;
  m_In : list nat;
  m_NumOut : Z;
}.

Record Service := mkService { svc_name : string; svc_methods : gmap string Method }.

Record Server := mkServer { services : gmap string Service; srv_count : Z }.

Definition MakeServer : Server := mkServer ∅ 0.

Definition AddService (svc : Service) (rs : Server) : Server :=
  mkServer (<[svc_name svc := svc]> (services rs)) (srv_count rs).

Definition Server_GetCount (rs : Server) : Z := srv_count rs.

Section reflection.
Context (types : list rtype).

(** the condition of [MakeService]: is the method unsuitable for a handler? *)
Definition unsuitable (method : Method) : go bool :=
  if negb (String.eqb (m_PkgPath method) EmptyString) then Ret true
  else if negb (len (m_In method) =? 3) then Ret true
  else
    in2 ← idx (m_In method) 2;
    ty ← typeAt types in2;
    if decide (t_Kind ty = Ptr) then Ret (negb (m_NumOut method =? 0)) else Ret true.

Fixpoint serviceMethods (all : list Method) (methods : gmap string Method)
    : go (gmap string Method) :=
  match all with
  | [] => Ret methods
  | method :: all =>
      bad ← unsuitable method;
      serviceMethods all (if bad : bool then methods else <[m_Name method := method]> methods)
  end.

(** [name] and [all]: the name of the receiver's type and its methods *)
Definition MakeService (name : string) (all : list Method) : go Service :=
  methods ← serviceMethods all ∅; Ret (mkService name methods).
End reflection.

(** [strings.LastIndex(s, sep)] for one character; [-1]: it is not there *)
Fixpoint lastIndex (sep : Ascii.ascii) (s : string) (i found : Z) : Z :=
  match s with
  | EmptyString => found
  | String.String c s => lastIndex sep s (i + 1) (if Ascii.eqb c sep then i else found)
  end.

Definition LastIndex (s : string) (sep : Ascii.ascii) : Z := lastIndex sep s 0 (-1).

(** [s[:n]] and [s[n:]] *)
Definition str_to (s : string) (n : Z) : go string :=
  if (0 <=? n) && (n <=? Z.of_nat (String.length s))
  then Ret (String.substring 0 (Z.to_nat n) s) else Panic.
Definition str_from (s : string) (n : Z) : go string :=
  if (0 <=? n) && (n <=? Z.of_nat (String.length s))
  then Ret (String.substring (Z.to_nat n) (String.length s - Z.to_nat n) s) else Panic.

Section dispatch.
Context {Name : Type} (types : list rtype) `{!GobLib}.
Implicit Types (req : reqMsg Name).

(** [Server.dispatch] up to [Unlock]: the service and the method's name *)
Definition Server_dispatch req (rs : Server) : go (Server * Service * string) :=
  let rs := mkServer (services rs) (srv_count rs + 1) in
  let dot := LastIndex (svcMeth req) "."%char in
  serviceName ← str_to (svcMeth req) dot;
  methodName ← str_from (svcMeth req) (dot + 1);
  match services rs !! serviceName with
  | Some service => Ret (rs, service, methodName)
  | None => Panic
  end.

(** [Service.dispatch] up to the call of the method: the argument and the space for
    the reply.  [function.Call] panics when the argument has another type. *)
Definition Service_dispatch_call (svc : Service) (methname : string) req : go (value * value) :=
  match svc_methods svc !! methname with
  | Some method =>
      let '(args, _) := gobDecode (zeroOf (argsType req)) (args req) in
      in2 ← idx (m_In method) 2;
      ty ← typeAt types in2;
      replyType ← typeRef (t_Elem ty);
      let replyv := zeroOf replyType in
      in1 ← idx (m_In method) 1;
      if (in1 =? argsType req)%nat then Ret (args, replyv) else Panic
  | None => Panic
  end.

(** and after it; an error of the encoder is not looked at *)
Definition Service_dispatch_reply (replyv : value) : replyMsg :=
  mkReplyMsg true (default [] (gobEncode replyv)).

(** [Call] up to the send *)
Definition Call_request (e : Name) (meth : string) (a : value) : reqMsg Name :=
  mkReqMsg e meth (typeOf a) (default [] (gobEncode a)).

(** and after the reply has come: the result, and the variable that [reply] points to *)
Definition Call_reply (var : value) (rep : replyMsg) : go (bool * value) :=
  if rep_ok rep then
    let '(v, ok) := gobDecode var (rep_reply rep) in
    if ok : bool then Ret (true, v) else Panic
  else Ret (false, var).
End dispatch.

(** ** The network *)

Record ClientEnd (Name : Type) := mkClientEnd { ce_endname : Name }.
Arguments mkClientEnd {Name}.
Arguments ce_endname {Name}.

Section network.
Context {Name : Type} `{Countable Name}.

(** [done] is true when the channel is closed; [endCh] is the set of the requests that
    wait to be received (below) *)
Record Network := mkNetwork {
  reliable : bool;
  longDelays : bool;
  longReordering : bool;
  ends : gmap Name (ClientEnd Name);
  enabled : gmap Name bool;
  servers : gmap Name (option nat);
  connections : gmap Name (option Name);
  done : bool;
  count : Z; (* int32 *)
  sentBytes : Z; (* bytes, int64 *)
}.
Implicit Types (rn : Network).

Definition MakeNetwork : Network := mkNetwork true false false ∅ ∅ ∅ ∅ false 0 0.

(** the body of the goroutine that receives requests *)
Definition receiveReq (xreq : reqMsg Name) rn : Network :=
  mkNetwork (reliable rn) (longDelays rn) (longReordering rn) (ends rn) (enabled rn)
    (servers rn) (connections rn) (done rn)
    (wrap32 (count rn + 1)) (wrap64 (sentBytes rn + wrap64 (len (args xreq)))).

(** closing a closed channel panics *)
Definition Cleanup rn : go Network :=
  if done rn then Panic
  else Ret (mkNetwork (reliable rn) (longDelays rn) (longReordering rn) (ends rn) (enabled rn)
              (servers rn) (connections rn) true (count rn) (sentBytes rn)).

Definition Reliable (yes : bool) rn : Network :=
  mkNetwork yes (longDelays rn) (longReordering rn) (ends rn) (enabled rn)
    (servers rn) (connections rn) (done rn) (count rn) (sentBytes rn).

Definition LongReordering (yes : bool) rn : Network :=
  mkNetwork (reliable rn) (longDelays rn) yes (ends rn) (enabled rn)
    (servers rn) (connections rn) (done rn) (count rn) (sentBytes rn).

Definition LongDelays (yes : bool) rn : Network :=
  mkNetwork (reliable rn) yes (longReordering rn) (ends rn) (enabled rn)
    (servers rn) (connections rn) (done rn) (count rn) (sentBytes rn).

(** [rn.enabled[endname]], [rn.connections[endname]], [rn.servers[servername]] *)
Definition enabledAt rn (e : Name) : bool := default false (enabled rn !! e).
Definition connectionAt rn (e : Name) : option Name := default None (connections rn !! e).
Definition serverAt rn (s : Name) : option nat := default None (servers rn !! s).

Record EndInfo := mkEndInfo {
  i_enabled : bool;
  i_servername : option Name;
  i_server : option nat;
  i_reliable : bool;
  i_longreordering : bool;
}.

Definition readEndnameInfo rn (e : Name) : EndInfo :=
  let servername := connectionAt rn e in
  mkEndInfo (enabledAt rn e) servername
    (match servername with Some s => serverAt rn s | None => None end)
    (reliable rn) (longReordering rn).

Definition isServerDead rn (e servername : Name) (server : option nat) : bool :=
  if bool_decide (enabledAt rn e = false) || negb (bool_decide (serverAt rn servername = server))
  then true else false.

Definition MakeEnd (e : Name) rn : go (ClientEnd Name * Network) :=
  match ends rn !! e with
  | Some _ => Panic
  | None =>
      let ce := mkClientEnd e in
      Ret (ce, mkNetwork (reliable rn) (longDelays rn) (longReordering rn)
                 (<[e := ce]> (ends rn)) (<[e := false]> (enabled rn)) (servers rn)
                 (<[e := None]> (connections rn)) (done rn) (count rn) (sentBytes rn))
  end.

Definition setServer (servername : Name) (rs : option nat) rn : Network :=
  mkNetwork (reliable rn) (longDelays rn) (longReordering rn) (ends rn) (enabled rn)
    (<[servername := rs]> (servers rn)) (connections rn) (done rn) (count rn) (sentBytes rn).

Definition AddServer (servername : Name) (rs : nat) rn : Network :=
  setServer servername (Some rs) rn.

Definition DeleteServer (servername : Name) rn : Network := setServer servername None rn.

Definition Connect (e servername : Name) rn : Network :=
  mkNetwork (reliable rn) (longDelays rn) (longReordering rn) (ends rn) (enabled rn)
    (servers rn) (<[e := Some servername]> (connections rn)) (done rn) (count rn) (sentBytes rn).

Definition Enable (e : Name) (yes : bool) rn : Network :=
  mkNetwork (reliable rn) (longDelays rn) (longReordering rn) (ends rn) (<[e := yes]> (enabled rn))
    (servers rn) (connections rn) (done rn) (count rn) (sentBytes rn).

(** a nil server panics *)
Definition GetCount (servername : Name) (store : list Server) rn : go Z :=
  match serverAt rn servername ≫= (store !!.) with
  | Some svr => Ret (Server_GetCount svr)
  | None => Panic
  end.

Definition GetTotalCount rn : Z := count rn.
Definition GetTotalBytes rn : Z := sentBytes rn.

(** [atomic.AddInt64(&rn.bytes, int64(len(reply.reply)))] *)
Definition addBytes (n : Z) rn : Network :=
  mkNetwork (reliable rn) (longDelays rn) (longReordering rn) (ends rn) (enabled rn)
    (servers rn) (connections rn) (done rn) (count rn) (wrap64 (sentBytes rn + wrap64 n)).

(** ** processReq *)

(** [enabled && servername != nil && server != nil] *)
Definition deliverTo (info : EndInfo) : option (Name * nat) :=
  if i_enabled info then
    match i_servername info, i_server info with
    | Some s, Some p => Some (s, p)
    | _, _ => None
    end
  else None.

(** [rand.Int() % 27] milliseconds, before an unreliable delivery *)
Definition shortDelay (info : EndInfo) (r : Z) : Z :=
  if i_reliable info then 0 else Z.rem r 27.

(** the test that drops a request, and later a reply *)
Definition dropped (info : EndInfo) (r : Z) : bool :=
  negb (i_reliable info) && (Z.rem r 1000 <? 100).

(** milliseconds until the failure of a request that reaches no server *)
Definition lostDelay rn (r : Z) : Z :=
  if longDelays rn then Z.rem r 7000 else Z.rem r 100.

(** the random numbers of the end of [processReq]: [rand.Int()], [rand.Intn(900)],
    [rand.Intn(2000)], and [rand.Intn(1 + rand.Intn(2000))] *)
Record Rolls := mkRolls { roll_drop : Z; roll_reorder : Z; roll_range : Z; roll_ms : Z }.

Definition failure : replyMsg := mkReplyMsg false [].

(** a failure, or the reply is sent now, or by a timer *)
Inductive Answer :=
| Refuse
| Now (r : replyMsg)
| Later (ms : Z) (r : replyMsg).

(** the end: [reply] is [None] when [replyOK] is false *)
Definition processReq_finish rn (e : Name) (target : Name * nat) (info : EndInfo)
    (reply : option replyMsg) (roll : Rolls) : Answer :=
  let serverDead := isServerDead rn e target.1 (Some target.2) in
  match reply with
  | None => Refuse
  | Some reply =>
      if serverDead : bool then Refuse
      else if dropped info (roll_drop roll) then Refuse
      else if i_longreordering info && (roll_reorder roll <? 600) then
        Later (200 + roll_ms roll) reply
      else Now reply
  end.
End network.

Arguments Network Name {_ _}.
Arguments EndInfo : clear implicits.
