(* ===== verification/LabrpcStep.v ===== *)
(** * Package labrpc: requests under way

    A request is handled by two goroutines, [processReq] and the one that calls the
    dispatcher, while others change the network.  [Request] holds what the two have in
    hand; a step is what one goroutine does between two waits.  A step that cannot be
    taken gives [Block]. *)

From S2P Require Import Prelude Gob Labgob Labrpc.

Section step.
Context {Name : Type} `{Countable Name} (types : list rtype) `{!GobLib}.

(** where [processReq] is, and what [Call] has *)
Inductive Phase :=
| Queued (* sent by [Call], not received *)
| Started
| Unreachable
| Ready
| Waiting (* in the loop around [select] *)
| Finishing
| FailTimer (ms : Z)
| ReplyTimer (ms : Z) (r : replyMsg)
| Returned (r : replyMsg).

(** where the goroutine with [server.dispatch(req)] is *)
Inductive Handler :=
| HNone
| HStarting (server : nat)
| HRunning (args replyv : value) (* in the method *)
| HDone (r : replyMsg) (* sending to [ech] *)
| HTaken (r : replyMsg).

(** [rq_ms] adds up the milliseconds that [processReq] slept, that its polls took and
    that its timers waited *)
Record Request := mkRequest {
  rq_req : reqMsg Name;
  rq_phase : Phase;
  rq_info : option (EndInfo Name);
  rq_reply : option replyMsg;
  rq_handler : Handler;
  rq_ms : Z;
}.

(** [serving]: the goroutine of [MakeNetwork] runs *)
Record World := mkWorld {
  net : Network Name;
  serving : bool;
  store : list Server;
  requests : gmap nat Request;
}.

Inductive Admin :=
| AMakeEnd (e : Name)
| AAddServer (s : Name) (p : nat)
| ADeleteServer (s : Name)
| AConnect (e s : Name)
| AEnable (e : Name) (yes : bool)
| AReliable (yes : bool)
| ALongReordering (yes : bool)
| ALongDelays (yes : bool)
| ACleanup.

Inductive ReqEvent :=
| RReceive
| RCancel
| RRead
| RLost (r : Z)
| RDeliver (r1 r2 : Z)
| RDispatch
| RReturn (v : value)
| RPoll
| RCollect
| RDrain
| RFinish (roll : Rolls)
| RTimer.

Inductive Event :=
| EAdmin (a : Admin)
| EStop
| EMakeServer
| EAddService (p : nat) (svc : Service)
| ECall (id : nat) (e : Name) (meth : string) (a : value)
| EReq (id : nat) (a : ReqEvent).

Definition admin (a : Admin) (rn : Network Name) : go (Network Name) :=
  match a with
  | AMakeEnd e => snd <$> MakeEnd e rn
  | AAddServer s p => Ret (AddServer s p rn)
  | ADeleteServer s => Ret (DeleteServer s rn)
  | AConnect e s => Ret (Connect e s rn)
  | AEnable e yes => Ret (Enable e yes rn)
  | AReliable yes => Ret (Reliable yes rn)
  | ALongReordering yes => Ret (LongReordering yes rn)
  | ALongDelays yes => Ret (LongDelays yes rn)
  | ACleanup => Cleanup rn
  end.

Implicit Types (rq : Request) (w : World) (rn : Network Name).

Definition newRequest (req : reqMsg Name) : Request := mkRequest req Queued None None HNone 0.

Definition setPhase (ph : Phase) rq : Request :=
  mkRequest (rq_req rq) ph (rq_info rq) (rq_reply rq) (rq_handler rq) (rq_ms rq).
Definition setInfo (info : EndInfo Name) rq : Request :=
  mkRequest (rq_req rq) (rq_phase rq) (Some info) (rq_reply rq) (rq_handler rq) (rq_ms rq).
Definition setReply (r : option replyMsg) rq : Request :=
  mkRequest (rq_req rq) (rq_phase rq) (rq_info rq) r (rq_handler rq) (rq_ms rq).
Definition setHandler (h : Handler) rq : Request :=
  mkRequest (rq_req rq) (rq_phase rq) (rq_info rq) (rq_reply rq) h (rq_ms rq).
Definition sleep (ms : Z) rq : Request :=
  mkRequest (rq_req rq) (rq_phase rq) (rq_info rq) (rq_reply rq) (rq_handler rq) (rq_ms rq + ms).

(** the goroutine of [processReq] (and the timers it starts) *)
Definition processReq (serving : bool) (a : ReqEvent) rq rn : go (Request * Network Name) :=
  let e := endname (rq_req rq) in
  match rq_phase rq, rq_info rq, a with
  | Queued, None, RReceive =>
      if serving then Ret (setPhase Started rq, receiveReq (rq_req rq) rn) else Block
  | Queued, None, RCancel =>
      if done rn then Ret (setPhase (Returned failure) rq, rn) else Block
  | Started, None, RRead =>
      let info := readEndnameInfo rn e in
      Ret (setPhase (if deliverTo info is Some _ then Ready else Unreachable) (setInfo info rq), rn)
  | Unreachable, Some _, RLost r => Ret (setPhase (FailTimer (lostDelay rn r)) rq, rn)
  | Ready, Some info, RDeliver r1 r2 =>
      let rq := sleep (shortDelay info r1) rq in
      if dropped info r2 then Ret (setPhase (Returned failure) rq, rn)
      else
        match deliverTo info with
        | Some (_, p) => Ret (setPhase Waiting (setHandler (HStarting p) rq), rn)
        | None => Panic
        end
  | Waiting, Some info, RPoll =>
      match deliverTo info with
      | Some (s, p) =>
          let rq := sleep 100 rq in
          if isServerDead rn e s (Some p) then Ret (setPhase Finishing rq, rn) else Ret (rq, rn)
      | None => Panic
      end
  | Waiting, Some info, RCollect =>
      match rq_handler rq with
      | HDone r => Ret (setPhase Finishing (setReply (Some r) (setHandler (HTaken r) rq)), rn)
      | _ => Block
      end
  | Finishing, Some info, RFinish roll =>
      match deliverTo info with
      | Some target =>
          match processReq_finish rn e target info (rq_reply rq) roll with
          | Refuse => Ret (setPhase (Returned failure) rq, rn)
          | Now r => Ret (setPhase (Returned r) rq, addBytes (len (rep_reply r)) rn)
          | Later ms r => Ret (setPhase (ReplyTimer ms r) rq, rn)
          end
      | None => Panic
      end
  | FailTimer ms, _, RTimer => Ret (setPhase (Returned failure) (sleep ms rq), rn)
  | ReplyTimer ms r, _, RTimer =>
      Ret (setPhase (Returned r) (sleep ms rq), addBytes (len (rep_reply r)) rn)
  | _, _, _ => Block
  end.

(** the goroutine with the dispatcher: into the method, and out of it *)
Definition dispatch (a : ReqEvent) rq (store : list Server) : go (Request * list Server) :=
  match rq_handler rq, a with
  | HStarting p, RDispatch =>
      rs ← idx store (Z.of_nat p);
      '(rs, svc, methname) ← Server_dispatch (rq_req rq) rs;
      '(args, replyv) ← Service_dispatch_call types svc methname (rq_req rq);
      Ret (setHandler (HRunning args replyv) rq, <[p := rs]> store)
  | HRunning args replyv, RReturn v =>
      if (typeOf v =? typeOf replyv)%nat
      then Ret (setHandler (HDone (Service_dispatch_reply v)) rq, store) else Block
  | HDone r, RDrain =>
      match rq_phase rq, rq_reply rq with
      | Waiting, _ => Block
      | _, None => Ret (setHandler (HTaken r) rq, store)
      | _, Some _ => Block
      end
  | _, _ => Block
  end.

Definition reqStep (a : ReqEvent) rq w : go (Request * Network Name * list Server) :=
  match a with
  | RDispatch | RReturn _ | RDrain =>
      '(rq, store) ← dispatch a rq (store w); Ret (rq, net w, store)
  | _ => '(rq, rn) ← processReq (serving w) a rq (net w); Ret (rq, rn, store w)
  end.

Definition step w (ev : Event) : go World :=
  match ev with
  | EAdmin a => rn ← admin a (net w); Ret (mkWorld rn (serving w) (store w) (requests w))
  | EStop => if done (net w) then Ret (mkWorld (net w) false (store w) (requests w)) else Block
  | EMakeServer => Ret (mkWorld (net w) (serving w) (store w ++ [MakeServer]) (requests w))
  | EAddService p svc =>
      rs ← idx (store w) (Z.of_nat p);
      Ret (mkWorld (net w) (serving w) (<[p := AddService svc rs]> (store w)) (requests w))
  | ECall id e meth a =>
      match requests w !! id with
      | Some _ => Block
      | None => Ret (mkWorld (net w) (serving w) (store w)
                       (<[id := newRequest (Call_request e meth a)]> (requests w)))
      end
  | EReq id a =>
      match requests w !! id with
      | Some rq =>
          '(rq, rn, st) ← reqStep a rq w;
          Ret (mkWorld rn (serving w) st (<[id := rq]> (requests w)))
      | None => Block
      end
  end.

Fixpoint run w (evs : list Event) : go World :=
  match evs with
  | [] => Ret w
  | ev :: evs => w ← step w ev; run w evs
  end.

Definition world0 : World := mkWorld MakeNetwork true [] ∅.

(** ** Runs *)

Lemma run_app w evs1 evs2 : run w (evs1 ++ evs2) = w' ← run w evs1; run w' evs2.
Proof. revert w. induction evs1 as [|ev evs1 IH]; intros w; simpl; [done|]. by destruct (step w ev); simpl. Qed.

Lemma run_snoc w evs ev : run w (evs ++ [ev]) = w' ← run w evs; step w' ev.
Proof. rewrite run_app. destruct (run w evs); simpl; [|done..]. by destruct (step _ _). Qed.

Lemma run_take w evs k w' : run w evs = Ret w' → ∃ wk, run w (take k evs) = Ret wk ∧ run wk (drop k evs) = Ret w'.
Proof.
  intros E. rewrite <-(take_drop k evs), run_app in E. apply go_bind_Ret_inv in E as (wk & E1 & E2).
  by exists wk.
Qed.
End step.

Arguments Request : clear implicits.
Arguments World Name {_ _}.
Arguments Event : clear implicits.
Arguments Admin : clear implicits.
