(* ===== verification/LabrpcSpec.v ===== *)
(** * Package labrpc: what a positive reply means

    A reply that says [ok] comes from one execution of the method by a server that was
    registered under its name from the moment at which the request was routed to the
    moment of the reply, which is what the tests need when they replace a server and
    its stable storage. *)

From S2P Require Import Prelude Gob Labgob Labrpc LabrpcStep.

Section spec.
Context {Name : Type} `{Countable Name} (types : list rtype) `{!GobLib}.
Implicit Types (w : World Name) (evs : list (Event Name)) (rn : Network Name)
  (rq : Request Name) (id p : nat) (s e : Name).

Local Abbreviation run := (run types).
Local Abbreviation step := (step types).

(** ** Servers under their names *)

Lemma serverAt_set s s' r rn :
  serverAt (setServer s' r rn) s = if decide (s' = s) then r else serverAt rn s.
Proof.
  unfold serverAt. simpl. case_decide as Hs; [subst; by rewrite lookup_insert_eq|by rewrite lookup_insert_ne].
Qed.

Lemma processReq_servers sv a rq rn rq' rn' :
  processReq sv a rq rn = Ret (rq', rn') →
  servers rn' = servers rn ∧ rq_req rq' = rq_req rq.
Proof. intros E. unfold processReq in E. repeat case_match; simplify_eq; done. Qed.

Lemma step_server w ev w' s p :
  step w ev = Ret w' → serverAt (net w') s = Some p →
  serverAt (net w) s = Some p ∨ ev = EAdmin (AAddServer s p).
Proof.
  intros E Hs. destruct ev as [a| | |q svc|id e meth a|id a]; simpl in E.
  - go_step E. injection E as <-. simpl in *. destruct a; simpl in E0; simplify_eq; try by left.
    + go_step E0. subst. left. unfold MakeEnd in E. case_match; by simplify_eq.
    + unfold AddServer in Hs. rewrite serverAt_set in Hs. case_decide; [|by left].
      subst. simplify_eq. by right.
    + unfold DeleteServer in Hs. rewrite serverAt_set in Hs. case_decide; [done|by left].
    + left. unfold Cleanup in E0. case_match; by simplify_eq.
  - case_match; simplify_eq. by left.
  - simplify_eq. by left.
  - go_step E. simplify_eq. by left.
  - case_match; simplify_eq. by left.
  - case_match; [|done]. go_step E. destruct a0 as [[rq' rn'] st']. simplify_eq. simpl in *. left.
    unfold reqStep in E0. destruct a; go_step E0;
      match goal with a : _ * _ |- _ => destruct a end; simplify_eq/=; try done.
    all: match goal with E : processReq _ _ _ _ = _ |- _ => apply processReq_servers in E as [E _] end.
    all: unfold serverAt in *; congruence.
Qed.

(** a server that was not registered and is, was added in between *)
Lemma run_server w evs w' s p :
  run w evs = Ret w' → serverAt (net w') s = Some p →
  serverAt (net w) s = Some p ∨ EAdmin (AAddServer s p) ∈ evs.
Proof.
  revert w. induction evs as [|ev evs IH]; intros w E Hs; simpl in E; [simplify_eq; by left|].
  go_step E. destruct (IH a E Hs) as [Ha|Hin]; [|right; by right].
  destruct (step_server _ _ _ _ _ E0 Ha) as [?| ->]; [by left|right; by left].
Qed.

(** no [*Server] is added twice: the callers make a new one for every [AddServer] *)
Definition addedOnce evs : Prop :=
  ∀ i j s s' p, evs !! i = Some (EAdmin (AAddServer s p)) →
    evs !! j = Some (EAdmin (AAddServer s' p)) → i = j.

Lemma registered_between evs i k j wi wk wj s p :
  addedOnce evs → (i ≤ k ≤ j)%nat →
  run world0 (take i evs) = Ret wi → run world0 (take k evs) = Ret wk →
  run world0 (take j evs) = Ret wj →
  serverAt (net wi) s = Some p → serverAt (net wj) s = Some p → serverAt (net wk) s = Some p.
Proof.
  intros Hadd Hikj Hi Hk Hj Hsi Hsj.
  assert (take j evs = take k evs ++ drop k (take j evs)) as Hsplit.
  { rewrite <-(take_drop k (take j evs)) at 1. by rewrite take_take, Nat.min_l by lia. }
  rewrite Hsplit, run_app, Hk in Hj. simpl in Hj.
  destruct (run_server _ _ _ _ _ Hj Hsj) as [?|Hin2]; [done|exfalso].
  destruct (run_server _ _ _ _ _ Hi Hsi) as [?|Hin1]; [done|].
  apply list_elem_of_lookup_1 in Hin1 as [a Ha]. apply lookup_take_Some in Ha as [Ha Hai].
  apply list_elem_of_lookup_1 in Hin2 as [b Hb]. rewrite lookup_drop in Hb.
  apply lookup_take_Some in Hb as [Hb _]. specialize (Hadd _ _ _ _ _ Ha Hb). lia.
Qed.
(** ** The history of a request *)

(** event [i] is the look-up of the end, and [info] what it gave *)
Definition readAt evs id rq (info : EndInfo Name) (i : nat) : Prop :=
  ∃ wi, evs !! i = Some (EReq id RRead) ∧ run world0 (take i evs) = Ret wi
    ∧ readEndnameInfo (net wi) (endname (rq_req rq)) = info.

(** after [i] the method was called, and returned [r] at [h] *)
Definition executedAt evs id (i : nat) (r : replyMsg) (h : nat) : Prop :=
  ∃ d v, (i < d < h)%nat ∧ evs !! d = Some (EReq id RDispatch)
    ∧ evs !! h = Some (EReq id (RReturn v)) ∧ r = Service_dispatch_reply v.

(** event [j], after the method returned, found the server alive *)
Definition completedAt evs id rq (info : EndInfo Name) (i : nat) (r : replyMsg) (j : nat) : Prop :=
  ∃ h roll wj s p, executedAt evs id i r h ∧ (h < j)%nat
    ∧ evs !! j = Some (EReq id (RFinish roll)) ∧ run world0 (take j evs) = Ret wj
    ∧ deliverTo info = Some (s, p)
    ∧ isServerDead (net wj) (endname (rq_req rq)) s (Some p) = false.

Definition once evs (ev : Event Name) : Prop :=
  ∀ i j, evs !! i = Some ev → evs !! j = Some ev → i = j.

Definition handlerOK evs id (i : nat) (h : Handler) : Prop :=
  match h with
  | HNone | HStarting _ => EReq id RDispatch ∉ evs
  | HRunning _ _ => once evs (EReq id RDispatch)
      ∧ ∃ d, (i < d)%nat ∧ evs !! d = Some (EReq id RDispatch)
  | HDone r | HTaken r => once evs (EReq id RDispatch) ∧ ∃ h, executedAt evs id i r h
  end.

Definition phaseOK evs id rq (info : EndInfo Name) (i : nat) : Prop :=
  match rq_phase rq with
  | Waiting => rq_reply rq = None
  | Finishing => ∀ r, rq_reply rq = Some r → rq_handler rq = HTaken r
  | Returned r | ReplyTimer _ r => rep_ok r = true → ∃ j, completedAt evs id rq info i r j
  | FailTimer _ => True
  | _ => rq_handler rq = HNone ∧ rq_reply rq = None
  end.

Definition requestOK evs id rq : Prop :=
  match rq_info rq with
  | None => rq_handler rq = HNone ∧ rq_reply rq = None ∧ (EReq id RDispatch ∉ evs)
      ∧ match rq_phase rq with
        | Returned r | ReplyTimer _ r => rep_ok r = false
        | _ => True
        end
  | Some info => ∃ i, readAt evs id rq info i ∧ handlerOK evs id i (rq_handler rq)
      ∧ phaseOK evs id rq info i
  end.

Definition worldOK evs w : Prop :=
  (∀ id, requests w !! id = None → ∀ a, EReq id a ∉ evs)
  ∧ ∀ id rq, requests w !! id = Some rq → requestOK evs id rq.

(** ** The history grows *)

Lemma take_snoc evs ev i : (i < length evs)%nat → take i (evs ++ [ev]) = take i evs.
Proof. intros Hi. by rewrite take_app_le by lia. Qed.

Lemma readAt_snoc evs ev id rq info i : readAt evs id rq info i → readAt (evs ++ [ev]) id rq info i.
Proof.
  intros (wi & Hi & Hr & ?). exists wi. apply lookup_lt_Some in Hi as Hlt.
  rewrite take_snoc by done. split_and!; [by apply lookup_app_l_Some|done..].
Qed.

Lemma executedAt_snoc evs ev id i r h : executedAt evs id i r h → executedAt (evs ++ [ev]) id i r h.
Proof.
  intros (d & v & Hd & H1 & H2 & Hr). exists d, v.
  split_and!; [lia|lia|by apply lookup_app_l_Some..|done].
Qed.

Lemma completedAt_snoc evs ev id rq info i r j :
  completedAt evs id rq info i r j → completedAt (evs ++ [ev]) id rq info i r j.
Proof.
  intros (h & roll & wj & s & p & He & Hlt & Hj & Hr & Ht & Hd). exists h, roll, wj, s, p.
  apply lookup_lt_Some in Hj as Hlen. rewrite take_snoc by done.
  split_and!; [by apply executedAt_snoc|done|by apply lookup_app_l_Some|done..].
Qed.

Lemma once_snoc evs ev ev' : once evs ev → ev ≠ ev' → once (evs ++ [ev']) ev.
Proof.
  intros Ho Hne i j Hi Hj. apply lookup_app_Some in Hi as [Hi|[_ Hi]], Hj as [Hj|[_ Hj]].
  - by apply Ho.
  - destruct (_ - _)%nat; simplify_eq/=.
  - destruct (_ - _)%nat; simplify_eq/=.
  - destruct (i - _)%nat; simplify_eq/=.
Qed.

Lemma handlerOK_snoc evs ev id i h :
  handlerOK evs id i h → ev ≠ EReq id RDispatch → handlerOK (evs ++ [ev]) id i h.
Proof.
  intros Hh Hne. destruct h; simpl in *.
  1-2: rewrite elem_of_app, list_elem_of_singleton; intros [?|?]; congruence.
  - destruct Hh as [Ho (d & Hd & Hev)]. split; [by apply once_snoc|].
    exists d. split; [done|by apply lookup_app_l_Some].
  - destruct Hh as [Ho (d & Hd)]. split; [by apply once_snoc|]. exists d. by apply executedAt_snoc.
  - destruct Hh as [Ho (d & Hd)]. split; [by apply once_snoc|]. exists d. by apply executedAt_snoc.
Qed.

Lemma phaseOK_snoc evs ev id rq info i : phaseOK evs id rq info i → phaseOK (evs ++ [ev]) id rq info i.
Proof.
  unfold phaseOK. destruct (rq_phase rq); try done; intros Hp Hok; destruct (Hp Hok) as [j Hj];
    exists j; by apply completedAt_snoc.
Qed.

Lemma requestOK_snoc evs ev id rq :
  requestOK evs id rq → ev ≠ EReq id RDispatch → requestOK (evs ++ [ev]) id rq.
Proof.
  unfold requestOK. destruct (rq_info rq) as [info|].
  - intros (i & Hr & Hh & Hp) Hne. exists i.
    split_and!; [by apply readAt_snoc|by apply handlerOK_snoc|by apply phaseOK_snoc].
  - intros (? & ? & Hin & ?) Hne. split_and!; try done.
    rewrite elem_of_app, list_elem_of_singleton. intros [?|?]; congruence.
Qed.

(** ** Every step keeps it *)

(** where a request is routed *)
Lemma route_read rn e s p :
  deliverTo (readEndnameInfo rn e) = Some (s, p) →
  enabledAt rn e = true ∧ connectionAt rn e = Some s ∧ serverAt rn s = Some p.
Proof. unfold deliverTo, readEndnameInfo. simpl. intros E. by repeat case_match; simplify_eq. Qed.

Lemma isServerDead_false rn e s q :
  isServerDead rn e s q = false → enabledAt rn e = true ∧ serverAt rn s = q.
Proof.
  unfold isServerDead. intros E. case_match; [done|]. destruct (enabledAt rn e); [|done].
  split; [done|]. simpl in *. by case_bool_decide.
Qed.

Lemma here evs (ev : Event Name) w :
  run world0 evs = Ret w →
  (evs ++ [ev]) !! length evs = Some ev ∧ run world0 (take (length evs) (evs ++ [ev])) = Ret w.
Proof. intros Hr. rewrite take_app_length. split; [by apply list_lookup_middle|done]. Qed.

(** the reply is sent only if the server is alive *)
Lemma finish_alive rn e target info reply roll :
  match processReq_finish rn e target info reply roll with
  | Refuse => True
  | Now r | Later _ r => reply = Some r ∧ isServerDead rn e target.1 (Some target.2) = false
  end.
Proof. unfold processReq_finish. by repeat case_match; simplify_eq. Qed.

(** what [RFinish] establishes *)
Lemma finish_completed evs id rq info target roll w i r :
  run world0 evs = Ret w → deliverTo info = Some target →
  handlerOK (evs ++ [EReq id (RFinish roll)]) id i (HTaken r) →
  isServerDead (net w) (endname (rq_req rq)) target.1 (Some target.2) = false →
  ∃ j, completedAt (evs ++ [EReq id (RFinish roll)]) id rq info i r j.
Proof.
  intros Hrun Ht [_ (h & Hex)] Hdead. destruct (here evs (EReq id (RFinish roll)) w Hrun) as [Hl Hw].
  destruct target as [s p]. exists (length evs), h, roll, w, s, p. split_and!; try done.
  destruct Hex as (d & v & _ & _ & Hh & _).
  destruct (decide (h = length evs)) as [->|Hne]; [rewrite Hl in Hh; done|].
  apply lookup_lt_Some in Hh. rewrite length_app in Hh. simpl in Hh. lia.
Qed.

Lemma process_ok evs id a rq w sv rq' rn' :
  run world0 evs = Ret w → requestOK evs id rq →
  processReq sv a rq (net w) = Ret (rq', rn') → requestOK (evs ++ [EReq id a]) id rq'.
Proof.
  intros Hrun Hok E. destruct (here evs (EReq id a) w Hrun) as [Hlast Hw].
  assert (EReq (Name:=Name) id a ≠ EReq id RDispatch) as Hne.
  { intros [= ->]. unfold processReq in E. repeat case_match; done. }
  pose proof (requestOK_snoc _ _ _ _ Hok Hne) as Hok'. clear Hok. unfold processReq in E.
  destruct rq as [req ph info reply hd ms]. simpl in E. unfold requestOK in Hok' |- *. simpl in Hok'.
  destruct ph as [| | | | | |tm|tm tr|tr], info as [info|], a; try done; simpl in Hok'.
  - case_match; simplify_eq. done.
  - case_match; simplify_eq. by destruct Hok' as (? & ? & ? & _).
  - destruct Hok' as (-> & -> & Hin & _). injection E as <- <-. simpl. exists (length evs).
    split_and!; [by exists w|done|]. unfold phaseOK. simpl. by destruct (deliverTo _).
  - destruct Hok' as (i & Hr & Hh & Hp). injection E as <- <-. by exists i.
  - destruct Hok' as (i & Hr & Hh & Hp). unfold phaseOK in Hp. simpl in *.
    destruct Hp as [-> ->]. repeat case_match; simplify_eq/=; by exists i.
  - destruct Hok' as (i & Hr & Hh & Hp). unfold phaseOK in Hp. simpl in Hp. subst reply.
    repeat case_match; simplify_eq/=; exists i; split_and!; try done; intros r' [=].
  - destruct Hok' as (i & Hr & Hh & Hp). case_match; simplify_eq/=. exists i.
    split; [done|split; [done|]]. by intros r' [= <-].
  - destruct Hok' as (i & Hr & Hh & Hp). unfold phaseOK in Hp. simpl in Hp.
    destruct (deliverTo info) as [target|] eqn:Ht; [|done].
    pose proof (finish_alive (net w) (endname req) target info reply roll) as Hal.
    assert (∀ r, reply = Some r → isServerDead (net w) (endname req) target.1 (Some target.2) = false →
      ∃ j, completedAt (evs ++ [EReq id (RFinish roll)]) id
        (mkRequest req Finishing (Some info) reply hd ms) info i r j) as Hdone.
    { intros r Hre Hd. eapply finish_completed; [done..| |done]. by rewrite <-(Hp r). }
    destruct (processReq_finish _ _ _ _ _ _) as [|r|tm r]; simplify_eq/=; exists i; [done|..];
      destruct Hal as [Hre Hd]; split_and!; try done; intros _; by apply Hdone.
  - destruct Hok' as (i & Hr & Hh & Hp). simplify_eq/=. by exists i.
  - destruct Hok' as (-> & -> & Hin & _). by simplify_eq/=.
  - destruct Hok' as (i & Hr & Hh & Hp). simplify_eq/=. by exists i.
  - destruct Hok' as (-> & -> & Hin & ?). by simplify_eq/=.
Qed.

Lemma dispatch_ok evs id a rq w rq' st' :
  run world0 evs = Ret w → requestOK evs id rq →
  dispatch types a rq (store w) = Ret (rq', st') → requestOK (evs ++ [EReq id a]) id rq'.
Proof.
  intros Hrun Hok E. destruct (here evs (EReq id a) w Hrun) as [Hlast Hw].
  unfold dispatch in E. destruct rq as [req ph info reply hd ms]. simpl in E.
  destruct hd as [|q|ar rv|r|r], a; try done; unfold requestOK in Hok; simpl in Hok;
    (destruct info as [info|]; [|by destruct Hok as [? _]]); destruct Hok as (i & Hr & Hh & Hp).
  - apply go_bind_Ret_inv in E as (rs & _ & E). apply go_bind_Ret_inv in E as ([[rs' svc] meth] & _ & E).
    apply go_bind_Ret_inv in E as ([ar rv] & _ & E). simplify_eq/=.
    exists i. apply (readAt_snoc _ (EReq id RDispatch)) in Hr as Hr'. split; [done|]. split.
    + split.
      * assert (∀ k, (evs ++ [EReq id RDispatch]) !! k = Some (EReq id RDispatch) → k = length evs) as Hk.
        { intros k [Hk|[Hge Hk]]%lookup_app_Some; [by apply list_elem_of_lookup_2 in Hk|].
          apply list_lookup_singleton_Some in Hk. lia. }
        intros k k' ->%Hk ->%Hk. done.
      * exists (length evs). split; [|done]. destruct Hr as (? & Hi & _). by eapply lookup_lt_Some.
    + apply (phaseOK_snoc _ (EReq id RDispatch)) in Hp. unfold phaseOK in *. simpl in *.
      destruct ph; try done; try naive_solver.
  - case_match; simplify_eq/=. exists i. split; [by apply (readAt_snoc _ (EReq id (RReturn v))) in Hr|].
    destruct Hh as [Ho (d & Hd & Hev)]. split.
    + split; [by apply once_snoc|]. exists (length evs), d, v. apply lookup_lt_Some in Hev as Hlt.
      split_and!; [done|done|by apply lookup_app_l_Some|done|done].
    + apply (phaseOK_snoc _ (EReq id (RReturn v))) in Hp. unfold phaseOK in *. simpl in *.
      destruct ph; try done; naive_solver.
  - assert (rq' = mkRequest req ph (Some info) reply (HTaken r) ms) as -> by (repeat case_match; by simplify_eq/=).
    exists i. split; [by apply (readAt_snoc _ (EReq id RDrain)) in Hr|].
    split; [by apply (handlerOK_snoc _ (EReq id RDrain) id i (HTaken r))|].
    apply (phaseOK_snoc _ (EReq id RDrain)) in Hp. unfold phaseOK in *. simpl in *.
    destruct ph; try done; naive_solver.
Qed.

Lemma world_step_ok evs w ev w' :
  run world0 evs = Ret w → worldOK evs w → step w ev = Ret w' → worldOK (evs ++ [ev]) w'.
Proof.
  intros Hrun [Hnone Hsome] E.
  assert (∀ id, (∀ a, ev ≠ EReq id a) → ∀ rq, requests w !! id = Some rq → requestOK (evs ++ [ev]) id rq)
    as Hframe by (intros id Hne rq Hrq; apply requestOK_snoc; [by apply Hsome|apply Hne]).
  assert (∀ id, (∀ a, ev ≠ EReq id a) → requests w !! id = None → ∀ a, EReq id a ∉ evs ++ [ev]) as Hframe'.
  { intros id Hne Hid a. rewrite elem_of_app, list_elem_of_singleton. intros [?|?]; [by eapply Hnone|].
    by eapply Hne. }
  destruct ev as [a| | |q svc|id e meth a|id a]; simpl in E.
  1-4: assert (requests w' = requests w) as Hreq by (repeat case_match; try go_step E; by simplify_eq/=).
  1-4: split; intros id; rewrite Hreq; [by apply Hframe'|by apply Hframe].
  - destruct (requests w !! id) eqn:Hid; simplify_eq/=. split; intros id'; simpl.
    + intros [Hne ?]%lookup_insert_None. by apply Hframe'.
    + intros rq [[<- <-]|[Hne ?]]%lookup_insert_Some; [|by apply Hframe].
      split_and!; try done. by apply (Hframe' id).
  - destruct (requests w !! id) as [rq|] eqn:Hid; [|done].
    apply go_bind_Ret_inv in E as ([[rq' rn'] st'] & E & Ew). simplify_eq/=. split; intros id'; simpl.
    + intros [? Hne]%lookup_insert_None. apply Hframe'; [congruence|done].
    + intros rq0 [[<- <-]|[Hne ?]]%lookup_insert_Some; [|apply Hframe; [congruence|done]].
      specialize (Hsome id rq Hid). unfold reqStep in E.
      destruct a; apply go_bind_Ret_inv in E as ([rq1 x] & E & Ex); simplify_eq/=;
        (by eapply process_ok) || (by eapply dispatch_ok).
Qed.

Lemma run_ok evs w : run world0 evs = Ret w → worldOK evs w.
Proof.
  revert w. induction evs as [|ev evs IH] using rev_ind; intros w E.
  { simpl in E. simplify_eq. split; [set_solver|]. intros id rq Hid. unfold world0 in Hid. simpl in Hid. by rewrite lookup_empty in Hid. }
  rewrite run_snoc in E. go_step E. eapply world_step_ok; [done|by apply IH|done].
Qed.

(** C38: A positive reply is one execution of the method by a live server: when [Call]
    gets a reply with [ok] and no server object is registered twice, the request was
    routed (event [i]) to the server that its enabled end was connected to, the method
    was called once (event [d]) and returned (event [h]), the reply encodes what it
    returned, and afterwards (event [j]) the end was enabled; from [i] to [j] the server
    was registered under its name without interruption, so no [DeleteServer] came before
    the method had returned. *)
Theorem positive_reply evs w id rq r :
  run world0 evs = Ret w → addedOnce evs →
  requests w !! id = Some rq → rq_phase rq = Returned r → rep_ok r = true →
  ∃ i d h j s p v roll wi wj, (i < d < h)%nat ∧ (h < j)%nat
    ∧ evs !! i = Some (EReq id RRead) ∧ evs !! d = Some (EReq id RDispatch)
    ∧ evs !! h = Some (EReq id (RReturn v)) ∧ evs !! j = Some (EReq id (RFinish roll))
    ∧ once evs (EReq id RDispatch) ∧ r = Service_dispatch_reply v
    ∧ run world0 (take i evs) = Ret wi ∧ run world0 (take j evs) = Ret wj
    ∧ enabledAt (net wi) (endname (rq_req rq)) = true
    ∧ enabledAt (net wj) (endname (rq_req rq)) = true
    ∧ connectionAt (net wi) (endname (rq_req rq)) = Some s
    ∧ ∀ k wk, (i ≤ k ≤ j)%nat → run world0 (take k evs) = Ret wk → serverAt (net wk) s = Some p.
Proof.
  intros Hrun Hadd Hrq Hph Hok. destruct (run_ok evs w Hrun) as [_ Hall]. specialize (Hall id rq Hrq).
  unfold requestOK in Hall. destruct (rq_info rq) as [info|].
  2: { rewrite Hph in Hall. destruct Hall as (_ & _ & _ & ?). congruence. }
  destruct Hall as (i & (wi & Hi & Hwi & Hread) & Hh & Hp). unfold phaseOK in Hp. rewrite Hph in Hp.
  destruct (Hp Hok) as (j & h & roll & wj & s & p & Hex & Hhj & Hj & Hwj & Ht & Hdead).
  assert (once evs (EReq id RDispatch)) as Hone.
  { destruct Hex as (d & v & _ & Hd & _). apply list_elem_of_lookup_2 in Hd.
    destruct (rq_handler rq); simpl in Hh; naive_solver. }
  destruct Hex as (d & v & Hidh & Hd & Hev & Hr).
  destruct (route_read (net wi) (endname (rq_req rq)) s p) as (He & Hc & Hs); [by rewrite Hread|].
  apply isServerDead_false in Hdead as [He' Hs'].
  exists i, d, h, j, s, p, v, roll, wi, wj. split_and!; try done; try lia.
  intros k wk Hk Hwk. by eapply (registered_between evs i k j wi wk wj).
Qed.
End spec.
