(* ===== verification/LabrpcCall.v ===== *)
(** * Package labrpc: calls from beginning to end

    A call over a reliable network is a call of the method, and what the network adds to
    the time of a call is bounded. *)

From Stdlib Require Import Strings.Ascii.
From S2P Require Import Prelude Gob Labgob Labrpc LabrpcStep.

(** ** The name of a method *)

Fixpoint noDot (s : string) : bool :=
  match s with
  | EmptyString => true
  | String.String c s => negb (Ascii.eqb c "."%char) && noDot s
  end.

Lemma lastIndex_noDot s i found : noDot s = true → lastIndex "."%char s i found = found.
Proof.
  revert i found. induction s as [|c s IH]; intros i found Hs; simpl in *; [done|].
  apply andb_true_iff in Hs as [Hc Hs]. apply negb_true_iff in Hc. rewrite Hc. by apply IH.
Qed.

Lemma lastIndex_app s1 s2 i found :
  noDot s2 = true →
  lastIndex "."%char (String.append s1 (String.String "."%char s2)) i found
  = i + Z.of_nat (String.length s1).
Proof.
  intros Hs2. revert i found. induction s1 as [|c s1 IH]; intros i found; simpl.
  - rewrite lastIndex_noDot by done. lia.
  - rewrite IH. lia.
Qed.

Lemma substring_all s : String.substring 0 (String.length s) s = s.
Proof. induction s as [|c s IH]; simpl; [done|]. by rewrite IH. Qed.

Lemma substring_left s1 s2 : String.substring 0 (String.length s1) (String.append s1 s2) = s1.
Proof. induction s1 as [|c s1 IH]; simpl; [by destruct s2|]. by rewrite IH. Qed.

Lemma substring_right s1 s2 n :
  String.substring (String.length s1 + n) (String.length s2 - n) (String.append s1 s2)
  = String.substring n (String.length s2 - n) s2.
Proof. induction s1 as [|c s1 IH]; simpl; [done|]. exact IH. Qed.

Lemma append_length s1 s2 : String.length (String.append s1 s2) = (String.length s1 + String.length s2)%nat.
Proof. induction s1 as [|c s1 IH]; simpl; [done|]. by rewrite IH. Qed.

(** "Raft.AppendEntries" *)
Definition methodPath (serviceName methodName : string) : string :=
  String.append serviceName (String.String "."%char methodName).

Lemma split_path sn mn :
  noDot mn = true →
  LastIndex (methodPath sn mn) "."%char = Z.of_nat (String.length sn)
  ∧ str_to (methodPath sn mn) (Z.of_nat (String.length sn)) = Ret sn
  ∧ str_from (methodPath sn mn) (Z.of_nat (String.length sn) + 1) = Ret mn.
Proof.
  intros Hmn. unfold LastIndex, str_to, str_from, methodPath.
  rewrite lastIndex_app by done. split; [lia|]. rewrite append_length. simpl String.length.
  rewrite !(proj2 (andb_true_iff _ _)) by (split; apply Z.leb_le; lia). split; f_equal.
  - by rewrite Nat2Z.id, substring_left.
  - replace (Z.to_nat (Z.of_nat (String.length sn) + 1)) with (String.length sn + 1)%nat by lia.
    replace (String.length sn + S (String.length mn) - (String.length sn + 1))%nat
      with (String.length (String.String "."%char mn) - 1)%nat by (simpl; lia).
    rewrite substring_right. simpl. rewrite Nat.sub_0_r. apply substring_all.
Qed.

Section calls.
Context {Name : Type} `{Countable Name} (types : list rtype) `{!GobLib}.
Implicit Types (w : World Name) (evs : list (Event Name)) (rn : Network Name)
  (rq : Request Name) (id p : nat) (s e : Name).

Local Abbreviation run := (run types).
Local Abbreviation step := (step types).

(** ** A call over a reliable network *)

(** the end [e] leads to server [p], which has the method with argument type [ta] and
    reply type [tr] *)
Record served w e p (sn mn : string) (ta tr : nat) : Prop := {
  sd_serving : serving w = true;
  sd_enabled : enabledAt (net w) e = true;
  sd_server : connectionAt (net w) e ≫= serverAt (net w) = Some p;
  sd_method : ∃ rs svc method t0 tp ty, store w !! p = Some rs ∧ services rs !! sn = Some svc
    ∧ svc_methods svc !! mn = Some method ∧ m_In method = [t0; ta; tp]
    ∧ types !! tp = Some ty ∧ t_Elem ty = Some tr;
  sd_name : noDot mn = true;
}.

(** the steps of a call that meets no obstacle *)
Definition callEvents id e (meth : string) (a : value) (r1 r2 : Z) : list (Event Name) :=
  [ECall id e meth a; EReq id RReceive; EReq id RRead; EReq id (RDeliver r1 r2);
   EReq id RDispatch].
Definition returnEvents id (v : value) (roll : Rolls) : list (Event Name) :=
  [EReq id (RReturn v); EReq id RCollect; EReq id (RFinish roll)].

Lemma read_served w e p sn mn ta tr :
  served w e p sn mn ta tr →
  ∃ s, deliverTo (readEndnameInfo (net w) e) = Some (s, p)
    ∧ isServerDead (net w) e s (Some p) = false.
Proof.
  intros Hs. pose proof (sd_server _ _ _ _ _ _ _ Hs) as Hp.
  apply bind_Some in Hp as (s & Hc & Hp). exists s. unfold deliverTo, readEndnameInfo, isServerDead.
  simpl. rewrite (sd_enabled _ _ _ _ _ _ _ Hs), Hc, Hp. split; [done|]. by rewrite bool_decide_eq_false_2, bool_decide_eq_true_2.
Qed.

(** the dispatcher finds the method and decodes the argument *)
Lemma dispatch_served w e p sn mn a tr rq :
  served w e p sn mn (typeOf a) tr → gobSendable a →
  rq_req rq = Call_request e (methodPath sn mn) a → rq_handler rq = HStarting p →
  ∃ st, dispatch types RDispatch rq (store w) = Ret (setHandler (HRunning a (zeroOf tr)) rq, st).
Proof.
  intros Hs Ha Hreq Hh. destruct (sd_method _ _ _ _ _ _ _ Hs)
    as (rs & svc & method & t0 & tp & ty & Hrs & Hsvc & Hm & Hin & Hty & Htr).
  destruct (split_path sn mn (sd_name _ _ _ _ _ _ _ Hs)) as (Hd & Ht & Hf).
  destruct (gob_sends a Ha) as (bs & Hbs & Hdec).
  unfold dispatch. rewrite Hh, (proj2 (idx_Ret _ _ rs)) by (rewrite Nat2Z.id; split; [lia|done]).
  unfold Server_dispatch. rewrite Hreq. simpl. rewrite Hd, Ht. simpl. rewrite Hf. simpl. rewrite Hsvc. simpl.
  unfold Service_dispatch_call, Call_request. simpl. rewrite Hm, Hbs. simpl. rewrite Hdec, Hin.
  unfold idx. simpl. unfold typeAt. rewrite Hty. simpl. rewrite Htr. simpl.
  rewrite Nat.eqb_refl. by eexists.
Qed.

(** one step of the request, in a world in which it is the last that was changed *)
Lemma run_req rn sv st reqs id rq a evs rq' rn' st' :
  reqStep types a rq (mkWorld rn sv st (<[id := rq]> reqs)) = Ret (rq', rn', st') →
  run (mkWorld rn sv st (<[id := rq]> reqs)) (EReq id a :: evs)
  = run (mkWorld rn' sv st' (<[id := rq']> reqs)) evs.
Proof.
  intros E. cbn [LabrpcStep.run LabrpcStep.step requests]. rewrite lookup_insert_eq, E. simpl.
  by rewrite insert_insert_eq.
Qed.

Lemma run_call w id e meth a evs :
  requests w !! id = None →
  run w (ECall id e meth a :: evs)
  = run (mkWorld (net w) (serving w) (store w)
           (<[id := newRequest (Call_request e meth a)]> (requests w))) evs.
Proof. intros Hid. cbn [LabrpcStep.run LabrpcStep.step]. by rewrite Hid. Qed.

(** A call over a reliable network is a call of the method: when the end is enabled
    and connected to a server with the method, then whatever the random numbers, the
    steps of the call can be taken, the method gets the caller's argument, and once it
    returns [v], [Call] returns true with [v] in the (zero) reply variable, and the
    network has added no delay. *)
Theorem reliable_call w id e p sn mn a v tr r1 r2 roll :
  served w e p sn mn (typeOf a) tr → reliable (net w) = true → longReordering (net w) = false →
  requests w !! id = None → gobSendable a → gobSendable v → typeOf v = tr →
  ∃ w1 w2 rq1 rq2 r,
    run w (callEvents id e (methodPath sn mn) a r1 r2) = Ret w1
    ∧ requests w1 !! id = Some rq1 ∧ rq_handler rq1 = HRunning a (zeroOf tr)
    ∧ run w1 (returnEvents id v roll) = Ret w2
    ∧ requests w2 !! id = Some rq2 ∧ rq_phase rq2 = Returned r
    ∧ Call_reply (zeroOf tr) r = Ret (true, v) ∧ rq_ms rq2 = 0.
Proof.
  intros Hs Hrel Hre Hid Ha Hv Htv.
  destruct (read_served _ _ _ _ _ _ _ Hs) as (s & Hto & Hdead).
  set (req := Call_request e (methodPath sn mn) a).
  set (info := readEndnameInfo (net w) e) in *.
  set (rqW := mkRequest req Waiting (Some info) None (HStarting p) 0).
  destruct (dispatch_served w e p sn mn a tr rqW Hs Ha eq_refl eq_refl) as [st Hd].
  set (rq1 := setHandler (HRunning a (zeroOf tr)) rqW).
  assert (run w (callEvents id e (methodPath sn mn) a r1 r2)
    = Ret (mkWorld (receiveReq req (net w)) (serving w) st (<[id := rq1]> (requests w)))) as Hrun1.
  { unfold callEvents. rewrite run_call by done.
    erewrite run_req; [|simpl; rewrite (sd_serving _ _ _ _ _ _ _ Hs); reflexivity].
    rewrite (run_req _ _ _ _ _ _ _ _ (mkRequest req Ready (Some info) None HNone 0)
      (receiveReq req (net w)) (store w)) by (unfold reqStep, processReq; simpl;
        change (readEndnameInfo _ e) with info; by rewrite Hto).
    rewrite (run_req _ _ _ _ _ _ _ _ rqW (receiveReq req (net w)) (store w))
      by (unfold reqStep, processReq, dropped, shortDelay; simpl; by rewrite Hrel, Hto).
    by rewrite (run_req _ _ _ _ _ _ _ _ rq1 (receiveReq req (net w)) st) by (simpl; by rewrite Hd). }
  destruct (gob_sends v Hv) as (bs & Hbs & Hdec). rewrite Htv in Hdec.
  set (r := Service_dispatch_reply v).
  set (rqF := mkRequest req Finishing (Some info) (Some r) (HTaken r) 0).
  assert (run (mkWorld (receiveReq req (net w)) (serving w) st (<[id := rq1]> (requests w)))
      (returnEvents id v roll)
    = Ret (mkWorld (addBytes (len (rep_reply r)) (receiveReq req (net w))) (serving w) st
        (<[id := setPhase (Returned r) rqF]> (requests w)))) as Hrun2.
  { unfold returnEvents.
    rewrite (run_req _ _ _ _ _ _ _ _ (setHandler (HDone r) rqW) (receiveReq req (net w)) st)
      by (unfold reqStep, dispatch; simpl; by rewrite zeroOf_type, Htv, Nat.eqb_refl).
    rewrite (run_req _ _ _ _ _ _ _ _ rqF (receiveReq req (net w)) st) by done.
    erewrite run_req; [done|]. simpl. unfold processReq. simpl. rewrite Hto.
    unfold processReq_finish, dropped. simpl.
    change (isServerDead (receiveReq req (net w)) e s (Some p)) with (isServerDead (net w) e s (Some p)).
    by rewrite Hdead, Hrel, Hre. }
  eexists _, _, rq1, (setPhase (Returned r) rqF), r.
  split_and!; [exact Hrun1|by apply lookup_insert_eq|done|exact Hrun2|by apply lookup_insert_eq|done| |done].
  unfold Call_reply, r, Service_dispatch_reply. simpl. by rewrite Hbs; simpl; rewrite Hdec.
Qed.

(** ** Delays *)

(** what package rand gives *)
Definition rollsOK (ev : Event Name) : Prop :=
  match ev with
  | EReq _ (RLost r) => 0 ≤ r
  | EReq _ (RDeliver r1 r2) => 0 ≤ r1 ∧ 0 ≤ r2
  | EReq _ (RFinish roll) =>
      0 ≤ roll_drop roll ∧ 0 ≤ roll_reorder roll < 900
      ∧ 0 ≤ roll_range roll < 2000 ∧ 0 ≤ roll_ms roll < 1 + roll_range roll
  | _ => True
  end.

(** how often the request has waited 100 ms for its handler *)
Definition isPoll id (ev : Event Name) : bool :=
  match ev with
  | EReq id' RPoll => (id' =? id)%nat
  | _ => false
  end.
Definition polls evs id : Z := len (List.filter (isPoll id) evs).

Lemma polls_snoc evs ev id : polls (evs ++ [ev]) id = polls evs id + (if isPoll id ev then 1 else 0).
Proof. unfold polls. rewrite List.filter_app, len_app. simpl. by destruct (isPoll id ev). Qed.

Definition sleepBound (info : EndInfo Name) : Z := if i_reliable info then 0 else 26.
Definition reorderBound (info : EndInfo Name) : Z := if i_longreordering info then 2199 else 0.

(** what a request may have waited when it is answered *)
Definition delayBound (info : option (EndInfo Name)) (n : Z) : Z :=
  match info with
  | None => 0
  | Some info =>
      match deliverTo info with
      | None => 6999
      | Some _ => sleepBound info + 100 * n + reorderBound info
      end
  end.

Definition delayOK (n : Z) rq : Prop :=
  match rq_phase rq, rq_info rq with
  | (Queued | Started), None => rq_ms rq = 0
  | Unreachable, Some info => deliverTo info = None ∧ rq_ms rq = 0
  | Ready, Some info => is_Some (deliverTo info) ∧ rq_ms rq = 0
  | (Waiting | Finishing), Some info =>
      is_Some (deliverTo info) ∧ 0 ≤ rq_ms rq ≤ sleepBound info + 100 * n
  | FailTimer ms, Some info => deliverTo info = None ∧ rq_ms rq = 0 ∧ 0 ≤ ms ≤ 6999
  | ReplyTimer ms _, Some info =>
      is_Some (deliverTo info) ∧ 0 ≤ rq_ms rq ≤ sleepBound info + 100 * n
      ∧ 0 ≤ ms ≤ reorderBound info
  | Returned _, info => 0 ≤ rq_ms rq ≤ delayBound info n
  | _, _ => False
  end.

Lemma delayOK_mono n n' rq : n ≤ n' → delayOK n rq → delayOK n' rq.
Proof.
  intros Hn. unfold delayOK, delayBound.
  destruct (rq_phase rq), (rq_info rq); try done; try (intros; destruct_and?; split_and?; done || lia).
  destruct (deliverTo _); lia.
Qed.

Lemma sleepBound_nonneg info : 0 ≤ sleepBound info ≤ 26.
Proof. unfold sleepBound. destruct (i_reliable info); lia. Qed.

Lemma reorderBound_nonneg info : 0 ≤ reorderBound info.
Proof. unfold reorderBound. destruct (i_longreordering info); lia. Qed.

Lemma lostDelay_bound rn r : 0 ≤ r → 0 ≤ lostDelay rn r ≤ 6999.
Proof.
  intros Hr. unfold lostDelay. pose proof (Z.rem_bound_pos r 7000). pose proof (Z.rem_bound_pos r 100).
  destruct (longDelays rn); lia.
Qed.

Lemma shortDelay_bound info r : 0 ≤ r → 0 ≤ shortDelay info r ≤ sleepBound info.
Proof.
  intros Hr. unfold shortDelay, sleepBound. pose proof (Z.rem_bound_pos r 27).
  destruct (i_reliable info); lia.
Qed.

Lemma finish_later rn e target info reply roll id ms r :
  rollsOK (EReq id (RFinish roll)) →
  processReq_finish rn e target info reply roll = Later ms r → 0 ≤ ms ≤ reorderBound info.
Proof.
  intros Hroll E. unfold processReq_finish in E. simpl in Hroll. unfold reorderBound.
  destruct (i_longreordering info); repeat case_match; simplify_eq/=; lia.
Qed.

Lemma process_delay sv a rq rn rq' rn' id n :
  rollsOK (EReq id a) → 0 ≤ n → delayOK n rq → processReq sv a rq rn = Ret (rq', rn') →
  delayOK (n + (if isPoll id (EReq id a) then 1 else 0)) rq'.
Proof.
  intros Hroll Hn Hd E. destruct rq as [req ph info reply hd ms]. unfold processReq in E. unfold delayOK in Hd.
  simpl in Hd, E. destruct ph as [| | | | | |tm|tm tr|tr], info as [info|], a; try done;
    simpl; rewrite ?Nat.eqb_refl.
  all: try (pose proof (sleepBound_nonneg info); pose proof (reorderBound_nonneg info)).
  - case_match; simplify_eq. done.
  - case_match; simplify_eq. done.
  - injection E as <- <-. unfold delayOK. simpl.
    destruct (deliverTo (readEndnameInfo rn (endname req))) eqn:Ht; simpl; split; by eauto.
  - injection E as <- <-. destruct Hd as [Ht ->]. split_and!; [done|done|by apply lostDelay_bound..].
  - destruct Hd as [[[s p] Ht] ->]. destruct Hroll as [Hr1 _].
    pose proof (shortDelay_bound info _ Hr1). rewrite Ht in E.
    case_match; simplify_eq/=; unfold delayOK; simpl; rewrite Ht; split_and?; eauto; lia.
  - destruct Hd as [[[s p] Ht] Hms]. rewrite Ht in E.
    case_match; simplify_eq/=; unfold delayOK; simpl; rewrite Ht; split_and?; eauto; lia.
  - case_match; simplify_eq/=. unfold delayOK. simpl. by rewrite Z.add_0_r.
  - destruct Hd as [[[s p] Ht] Hms]. rewrite Ht in E.
    destruct (processReq_finish _ _ _ _ _ _) as [|r|tm r] eqn:Hf; simplify_eq/=; unfold delayOK; simpl;
      rewrite Ht; try lia.
    apply (finish_later _ _ _ _ _ _ id) in Hf; [|done]. split_and!; [by eauto|lia..].
  - injection E as <- <-. destruct Hd as (Ht & -> & ?). unfold delayOK. simpl. rewrite Ht. lia.
  - injection E as <- <-. destruct Hd as ([[s p] Ht] & ? & ?). unfold delayOK. simpl. rewrite Ht. lia.
Qed.

Lemma dispatch_delay a rq st rq' st' n :
  delayOK n rq → dispatch types a rq st = Ret (rq', st') → delayOK n rq'.
Proof.
  intros Hd E. assert (∃ h, rq' = setHandler h rq) as [h ->].
  { unfold dispatch in E. destruct (rq_handler rq), a; try done.
    - apply go_bind_Ret_inv in E as (? & _ & E). apply go_bind_Ret_inv in E as ([[??] ?] & _ & E).
      apply go_bind_Ret_inv in E as ([??] & _ & E). simplify_eq. by eexists.
    - case_match; simplify_eq; by eexists.
    - repeat case_match; simplify_eq; by eexists. }
  exact Hd.
Qed.

Lemma polls_nonneg evs id : 0 ≤ polls evs id.
Proof. apply len_nonneg. Qed.

Lemma run_delay evs w id rq :
  Forall rollsOK evs → run world0 evs = Ret w → requests w !! id = Some rq → delayOK (polls evs id) rq.
Proof.
  revert w rq. induction evs as [|ev evs IH] using rev_ind; intros w rq Hroll E Hrq.
  { simpl in E. simplify_eq; done || (unfold world0 in Hrq; simpl in Hrq; by rewrite lookup_empty in Hrq). }
  apply Forall_app in Hroll as [Hroll Hev]. rewrite Forall_singleton in Hev.
  rewrite run_snoc in E. apply go_bind_Ret_inv in E as (w0 & E0 & E). specialize (IH w0).
  rewrite polls_snoc.
  assert (∀ rq, requests w0 !! id = Some rq →
    delayOK (polls evs id + (if isPoll id ev then 1 else 0)) rq) as Hold.
  { intros rq0 Hrq0. eapply delayOK_mono; [|by eapply IH]. case_match; lia. }
  destruct ev as [a| | |q svc|id' e meth a|id' a]; simpl in E.
  1-4: assert (requests w = requests w0) as Hreq by (repeat case_match; try go_step E; by simplify_eq/=).
  1-4: rewrite Hreq in Hrq; by apply Hold.
  - destruct (requests w0 !! id') eqn:Hid; simplify_eq/=.
    apply lookup_insert_Some in Hrq as [[<- <-]|[_ ?]]; [done|by apply Hold].
  - destruct (requests w0 !! id') as [rq0|] eqn:Hid; [|done].
    apply go_bind_Ret_inv in E as ([[rq' rn'] st'] & E & Ew). simplify_eq/=.
    apply lookup_insert_Some in Hrq as [[<- <-]|[_ ?]]; [|by apply Hold].
    pose proof (polls_nonneg evs id') as Hp. specialize (IH rq0 Hroll E0 Hid). unfold reqStep in E.
    destruct a; apply go_bind_Ret_inv in E as ([rq1 x] & E & Ex); simplify_eq/=;
      lazymatch type of E with
      | processReq _ ?a _ _ = _ => exact (process_delay _ a _ _ _ _ id' _ Hev Hp IH E)
      | _ => rewrite Z.add_0_r; by eapply dispatch_delay
      end.
Qed.

(** C25: What the network adds to the time of a call is bounded: a request that reaches
    no server fails within 7 seconds; any other is answered within the time that its
    method takes (in steps of 100 ms, [polls]) plus at most 26 ms on an unreliable
    network and at most 2199 ms with long reordering; a reliable network without
    reordering adds nothing. *)
Theorem call_delay evs w id rq r :
  Forall rollsOK evs → run world0 evs = Ret w → requests w !! id = Some rq →
  rq_phase rq = Returned r → 0 ≤ rq_ms rq ≤ delayBound (rq_info rq) (polls evs id).
Proof.
  intros Hroll E Hrq Hph. pose proof (run_delay evs w id rq Hroll E Hrq) as Hd.
  unfold delayOK in Hd. by rewrite Hph in Hd.
Qed.
End calls.
