(* ===== verification/LabWitness.v ===== *)
(** * Packages labgob and labrpc: examples

    A codec for integers, a table with a type that refers to itself, and a call from a
    client to a server over a network with one end. *)

From S2P Require Import Prelude Gob Labgob LabgobSpec Labrpc LabrpcStep LabrpcSpec LabrpcCall.

(** ** A codec *)

Definition encodeInt (v : value) : option bytes :=
  match v with
  | VScalar _ (SInt z) => Some (CountableCodec.pos_bytes (encode z))
  | _ => None
  end.

Definition decodeInt (var : value) (bs : bytes) : value * bool :=
  match CountableCodec.bytes_pos bs ≫= λ '(p, _), decode p with
  | Some z => (VScalar (typeOf var) (SInt z), true)
  | None => (var, false)
  end.

#[export] Program Instance intGob : GobLib := {|
  zeroOf t := VScalar t (SInt 0);
  gobEncode := encodeInt;
  gobDecode := decodeInt;
  gobSendable v := ∃ t z, v = VScalar t (SInt z);
|}.
Next Obligation. done. Qed.
Next Obligation.
  intros v (t & z & ->). exists (CountableCodec.pos_bytes (encode z)). split; [done|].
  unfold decodeInt. rewrite <-(app_nil_r (CountableCodec.pos_bytes _)), CountableCodec.bytes_pos_bytes.
  cbv beta iota delta [mbind option_bind]. by rewrite decode_encode.
Qed.

(** ** Types *)

Definition upper0 (name : string) : bool := false.

(** [int], [*int], [struct Node { Value int; next *Node }] and [*Node] *)
Definition table : list rtype :=
  [mkType "int" Int [] None None; mkType "" Ptr [] (Some 0%nat) None;
   mkType "Node" Struct [mkField "Value" 0; mkField "next" 3] None None;
   mkType "" Ptr [] (Some 2%nat) None].

Lemma table_is_ok : table_ok table.
Proof.
  split.
  - intros [|[|[|[|t]]]] u (ty & Hty & Hu); simplify_eq/=; unfold parts in Hu; simpl in Hu;
      rewrite ?elem_of_cons, ?elem_of_nil in Hu; destruct_or?; subst; simpl; lia || done.
  - intros [|[|[|[|t]]]] ty Hty Hk; simplify_eq/=; try (by eexists);
      rewrite !elem_of_cons, elem_of_nil in Hk; naive_solver.
  - intros [|[|[|[|t]]]] ty Hty Hk; simplify_eq/=.
Defined.

Definition aNode : value := VStruct 2 [VScalar 0 (SInt 1); VPtr 3 None].

Lemma labgob_reports_witness :
  ∃ st new, checkValues table upper0 [aNode; aNode] labInit = Ret st
    ∧ NoDup new ∧ (∀ u, u ∈ new ↔ ∃ v, v ∈ [aNode; aNode] ∧ madeOf table (typeOf v) u)
    ∧ checked st = list_to_set new ∧ out st ≡ₚ new ≫= complaints table upper0
    ∧ errorCount st = len (out st).
Proof.
  apply (labgob_reports table upper0 table_is_ok [aNode; aNode]).
  intros v Hv. rewrite !elem_of_cons, elem_of_nil in Hv. destruct_or?; subst; simpl; lia || done.
Defined.

(** two values, one complaint *)
Example node_lines :
  (λ st, (out st, errorCount st)) <$> checkValues table upper0 [aNode; aNode] labInit
  = Ret ([LowerCase "next" "Node"], 1).
Proof. vm_compute. reflexivity. Qed.

(** ** A network *)

Definition counter : Service :=
  mkService "Counter" {["Add" := mkMethod "Add" "" [2%nat; 0%nat; 1%nat] 0]}.

(** end 1 leads to server 7 *)
Definition setUp : list (Event nat) :=
  [EMakeServer; EAddService 0 counter; EAdmin (AAddServer 7%nat 0); EAdmin (AMakeEnd 1%nat);
   EAdmin (AConnect 1%nat 7%nat); EAdmin (AEnable 1%nat true)].

Definition arg : value := VScalar 0 (SInt 5).
Definition res : value := VScalar 0 (SInt 6).
Definition rolls : Rolls := mkRolls 50 100 3 2.

Definition theCall : list (Event nat) :=
  callEvents 0 1%nat (methodPath "Counter" "Add") arg 30 50 ++ returnEvents 0 res rolls.

Definition worldAfter (evs : list (Event nat)) : World nat :=
  match run table world0 evs with
  | Ret w => w
  | _ => world0
  end.

Definition requestAfter (evs : list (Event nat)) : Request nat :=
  default (newRequest (mkReqMsg 0%nat EmptyString 0 [])) (requests (worldAfter evs) !! 0%nat).

Lemma setUp_served : served table (worldAfter setUp) 1%nat 0 "Counter" "Add" 0 0.
Proof.
  split; try (vm_compute; reflexivity).
  exists (mkServer {["Counter" := counter]} 0), counter,
    (mkMethod "Add" "" [2%nat; 0%nat; 1%nat] 0), 2%nat, 1%nat, (mkType "" Ptr [] (Some 0%nat) None).
  split_and!; vm_compute; reflexivity.
Defined.

Lemma reliable_call_witness :
  ∃ w1 w2 rq1 rq2 r,
    run table (worldAfter setUp) (callEvents 0 1%nat (methodPath "Counter" "Add") arg 30 50) = Ret w1
    ∧ requests w1 !! 0%nat = Some rq1 ∧ rq_handler rq1 = HRunning arg (zeroOf 0)
    ∧ run table w1 (returnEvents 0 res rolls) = Ret w2
    ∧ requests w2 !! 0%nat = Some rq2 ∧ rq_phase rq2 = Returned r
    ∧ Call_reply (zeroOf 0) r = Ret (true, res) ∧ rq_ms rq2 = 0.
Proof.
  apply (reliable_call table (worldAfter setUp) 0 1%nat 0 "Counter" "Add" arg res 0 30 50 rolls).
  - exact setUp_served.
  - vm_compute. reflexivity.
  - vm_compute. reflexivity.
  - vm_compute. reflexivity.
  - by exists 0%nat, 5.
  - by exists 0%nat, 6.
  - reflexivity.
Defined.

(** on an unreliable network with long reordering the same call takes longer *)
Definition slowSetUp : list (Event nat) :=
  setUp ++ [EAdmin (AReliable false); EAdmin (ALongReordering true)].
Definition slowCall : list (Event nat) :=
  slowSetUp ++ callEvents 0 1%nat (methodPath "Counter" "Add") arg 30 150
  ++ [EReq 0 RPoll] ++ returnEvents 0 res (mkRolls 150 100 3 2) ++ [EReq 0 RTimer].

Lemma call_delay_witness :
  0 ≤ rq_ms (requestAfter slowCall)
    ≤ delayBound (rq_info (requestAfter slowCall)) (polls slowCall 0).
Proof.
  apply (call_delay table slowCall (worldAfter slowCall) 0 (requestAfter slowCall)
    (Service_dispatch_reply res)).
  - repeat constructor; simpl; lia.
  - vm_compute. reflexivity.
  - vm_compute. reflexivity.
  - vm_compute. reflexivity.
Defined.

(** 3 ms before the delivery, one poll, 202 ms of reordering; the bound is 2325 *)
Example slow_ms : (rq_ms (requestAfter slowCall), polls slowCall 0) = (305, 1).
Proof. vm_compute. reflexivity. Qed.

Lemma calls_once : addedOnce (setUp ++ theCall).
Proof.
  assert (∀ i s p, (setUp ++ theCall) !! i = Some (EAdmin (AAddServer s p)) → i = 2%nat) as Hk.
  { intros i s p Hi. do 14 (destruct i as [|i]; [by simplify_eq/=|]). done. }
  intros i j s s' p ->%Hk ->%Hk. reflexivity.
Defined.

Lemma positive_reply_witness :
  ∃ i d h j s p v roll wi wj, (i < d < h)%nat ∧ (h < j)%nat
    ∧ (setUp ++ theCall) !! i = Some (EReq 0 RRead)
    ∧ (setUp ++ theCall) !! d = Some (EReq 0 RDispatch)
    ∧ (setUp ++ theCall) !! h = Some (EReq 0 (RReturn v))
    ∧ (setUp ++ theCall) !! j = Some (EReq 0 (RFinish roll))
    ∧ once (setUp ++ theCall) (EReq 0 RDispatch)
    ∧ Service_dispatch_reply res = Service_dispatch_reply v
    ∧ run table world0 (take i (setUp ++ theCall)) = Ret wi
    ∧ run table world0 (take j (setUp ++ theCall)) = Ret wj
    ∧ enabledAt (net wi) (endname (rq_req (requestAfter (setUp ++ theCall)))) = true
    ∧ enabledAt (net wj) (endname (rq_req (requestAfter (setUp ++ theCall)))) = true
    ∧ connectionAt (net wi) (endname (rq_req (requestAfter (setUp ++ theCall)))) = Some s
    ∧ ∀ k wk, (i ≤ k ≤ j)%nat → run table world0 (take k (setUp ++ theCall)) = Ret wk →
        serverAt (net wk) s = Some p.
Proof.
  apply (positive_reply table (setUp ++ theCall) (worldAfter (setUp ++ theCall)) 0
    (requestAfter (setUp ++ theCall)) (Service_dispatch_reply res)).
  - vm_compute. reflexivity.
  - exact calls_once.
  - vm_compute. reflexivity.
  - vm_compute. reflexivity.
  - reflexivity.
Defined.

(** a server that is deleted before its method returns gives no positive reply *)
Example deleted_server :
  rq_phase (requestAfter (setUp
    ++ callEvents 0 1%nat (methodPath "Counter" "Add") arg 30 50
    ++ [EAdmin (ADeleteServer 7%nat)] ++ returnEvents 0 res rolls))
  = Returned failure.
Proof. vm_compute. reflexivity. Qed.
