(* ===== verification/Raft.v ===== *)
(** * Package raft: data and operations

    One definition per struct of [src/raft/raft.go] and [src/raft/persister.go]
    and one per function or critical section.  A function that releases [rf.mu]
    and takes it again (or that waits for an RPC) is split where the lock is
    released: [RequestVote_read]/[RequestVote_grant],
    [doAppendEntriesRPC_args]/[doAppendEntriesRPC_reply], and so on.  What runs
    with the lock held is one function from the state to the state, so an
    interleaving of goroutines is a sequence of such steps.

    Conventions: Go's [int] is [Z] (terms and indices start at 0 and grow by
    one per election or entry, far from 2^63); a nil pointer or interface is
    [None]; a send on the unbuffered [applyChan] appends to the list of messages
    sent; [heartBeatCh] (capacity 8) is the number of buffered signals and a send
    on the full buffer gives [Block]; a [go] statement appends to [goroutines];
    [DPrintf] has no effect ([Debug = 0]). *)

From S2P Require Import Prelude Gob.

(** ** Persister (persister.go) *)

Record Persister := mkPersister { raftstate : bytes; snapshot : bytes }.

Definition MakePersister : Persister := mkPersister [] [].
Definition Copy (ps : Persister) : Persister := mkPersister (raftstate ps) (snapshot ps).
Definition SaveRaftState (state : bytes) (ps : Persister) : Persister :=
  mkPersister state (snapshot ps).
Definition ReadRaftState (ps : Persister) : bytes := raftstate ps.
Definition RaftStateSize (ps : Persister) : Z := len (raftstate ps).
Definition SaveStateAndSnapshot (state snap : bytes) (ps : Persister) : Persister :=
  mkPersister state snap.
Definition ReadSnapshot (ps : Persister) : bytes := snapshot ps.
Definition SnapshotSize (ps : Persister) : Z := len (snapshot ps).

(** ** Data (raft.go) *)

(** The message sent to the service on [applyChan]: a committed command when
    [CommandValid], a snapshot otherwise. *)
Record ApplyMsg (Cmd : Type) := mkApplyMsg {
  am_CommandValid : bool;
  am_Command : option Cmd;
  am_CommandIndex : Z;
  am_LogIndex : Z;
  am_Snapshot : bytes;
  am_LastIncludedIndex : Z;
  am_LastIncludedTerm : Z;
  am_LastIncludedCmdIndex : Z;
}.
Arguments mkApplyMsg {Cmd}.
Arguments am_CommandValid {Cmd}.
Arguments am_Command {Cmd}.
Arguments am_CommandIndex {Cmd}.
Arguments am_LogIndex {Cmd}.
Arguments am_Snapshot {Cmd}.
Arguments am_LastIncludedIndex {Cmd}.
Arguments am_LastIncludedTerm {Cmd}.
Arguments am_LastIncludedCmdIndex {Cmd}.

Record LogEntry (Cmd : Type) := mkLogEntry {
  LogTerm : Z;
  LogIndex : Z;
  Command : option Cmd;
  CommandIndex : Z;
  IsInternalLog : bool;
}.
Arguments mkLogEntry {Cmd}.
Arguments LogTerm {Cmd}.
Arguments LogIndex {Cmd}.
Arguments Command {Cmd}.
Arguments CommandIndex {Cmd}.
Arguments IsInternalLog {Cmd}.

(** the zero value of the struct *)
Definition zeroLogEntry {Cmd} : LogEntry Cmd := mkLogEntry 0 0 None 0 false.

#[export] Instance LogEntry_eq_dec {Cmd} `{EqDecision Cmd} : EqDecision (LogEntry Cmd).
Proof. solve_decision. Defined.

#[export] Program Instance LogEntry_countable {Cmd} `{Countable Cmd} :
    Countable (LogEntry Cmd) :=
  inj_countable'
    (λ e, (LogTerm e, LogIndex e, Command e, CommandIndex e, IsInternalLog e))
    (λ '(t, i, c, ci, b), mkLogEntry t i c ci b) _.
Next Obligation. by intros Cmd ? ? []. Qed.

Record Leader := mkLeader { nextIndexs : list Z; matchIndexs : list Z }.

Inductive Role := FOLLOWER | CANDICATE | LEADER.

#[export] Instance Role_eq_dec : EqDecision Role.
Proof. solve_decision. Defined.

(** the goroutines a Raft peer starts *)
Inductive Goroutine :=
| GoTimeOutToElection
| GoStartElection
| GoHeartBeatToServer (peerIndex : Z).

Record Raft (Cmd : Type) := mkRaft {
  peers : Z; (* [len(rf.peers)] *)
  persister : Persister; (* stable storage *)
  me : Z; (* this peer's index into peers[] *)
  dead : Z; (* set by Kill() *)
  currentTerm : Z;
  votedFor : Z; (* -1: no vote *)
  logs : list (LogEntry Cmd); (* logs[0] is the sentinel *)
  lastIncludedIndex : Z;
  lastIncludedTerm : Z;
  lastIncludedCmdIndex : Z;
  commitIndex : Z;
  lastApplied : Z;
  applyChan : list (ApplyMsg Cmd); (* messages sent, oldest first *)
  role : Role;
  timeOutMS : Z;
  heartBeatCnt : Z;
  heartBeatCh : Z; (* signals in the buffer *)
  leaderPtr : option Leader; (* nil: None *)
  goroutines : list Goroutine; (* go statements executed, oldest first *)
}.
Arguments mkRaft {Cmd}.
Arguments peers {Cmd}.
Arguments persister {Cmd}.
Arguments me {Cmd}.
Arguments dead {Cmd}.
Arguments currentTerm {Cmd}.
Arguments votedFor {Cmd}.
Arguments logs {Cmd}.
Arguments lastIncludedIndex {Cmd}.
Arguments lastIncludedTerm {Cmd}.
Arguments lastIncludedCmdIndex {Cmd}.
Arguments commitIndex {Cmd}.
Arguments lastApplied {Cmd}.
Arguments applyChan {Cmd}.
Arguments role {Cmd}.
Arguments timeOutMS {Cmd}.
Arguments heartBeatCnt {Cmd}.
Arguments heartBeatCh {Cmd}.
Arguments leaderPtr {Cmd}.
Arguments goroutines {Cmd}.

(** ** Field updates *)

Section setters.
Context {Cmd : Type}.

Definition set_persister v (rf : Raft Cmd) : Raft Cmd :=
  mkRaft
    (peers rf) v (me rf) (dead rf) (currentTerm rf) (votedFor rf) (logs rf)
    (lastIncludedIndex rf) (lastIncludedTerm rf) (lastIncludedCmdIndex rf)
    (commitIndex rf) (lastApplied rf) (applyChan rf) (role rf) (timeOutMS rf)
    (heartBeatCnt rf) (heartBeatCh rf) (leaderPtr rf) (goroutines rf).
Definition set_dead v (rf : Raft Cmd) : Raft Cmd :=
  mkRaft
    (peers rf) (persister rf) (me rf) v (currentTerm rf) (votedFor rf) (logs rf)
    (lastIncludedIndex rf) (lastIncludedTerm rf) (lastIncludedCmdIndex rf)
    (commitIndex rf) (lastApplied rf) (applyChan rf) (role rf) (timeOutMS rf)
    (heartBeatCnt rf) (heartBeatCh rf) (leaderPtr rf) (goroutines rf).
Definition set_currentTerm v (rf : Raft Cmd) : Raft Cmd :=
  mkRaft
    (peers rf) (persister rf) (me rf) (dead rf) v (votedFor rf) (logs rf)
    (lastIncludedIndex rf) (lastIncludedTerm rf) (lastIncludedCmdIndex rf)
    (commitIndex rf) (lastApplied rf) (applyChan rf) (role rf) (timeOutMS rf)
    (heartBeatCnt rf) (heartBeatCh rf) (leaderPtr rf) (goroutines rf).
Definition set_votedFor v (rf : Raft Cmd) : Raft Cmd :=
  mkRaft
    (peers rf) (persister rf) (me rf) (dead rf) (currentTerm rf) v (logs rf)
    (lastIncludedIndex rf) (lastIncludedTerm rf) (lastIncludedCmdIndex rf)
    (commitIndex rf) (lastApplied rf) (applyChan rf) (role rf) (timeOutMS rf)
    (heartBeatCnt rf) (heartBeatCh rf) (leaderPtr rf) (goroutines rf).
Definition set_logs v (rf : Raft Cmd) : Raft Cmd :=
  mkRaft
    (peers rf) (persister rf) (me rf) (dead rf) (currentTerm rf) (votedFor rf) v
    (lastIncludedIndex rf) (lastIncludedTerm rf) (lastIncludedCmdIndex rf)
    (commitIndex rf) (lastApplied rf) (applyChan rf) (role rf) (timeOutMS rf)
    (heartBeatCnt rf) (heartBeatCh rf) (leaderPtr rf) (goroutines rf).
Definition set_lastIncludedIndex v (rf : Raft Cmd) : Raft Cmd :=
  mkRaft
    (peers rf) (persister rf) (me rf) (dead rf) (currentTerm rf) (votedFor rf)
    (logs rf) v (lastIncludedTerm rf) (lastIncludedCmdIndex rf) (commitIndex rf)
    (lastApplied rf) (applyChan rf) (role rf) (timeOutMS rf) (heartBeatCnt rf)
    (heartBeatCh rf) (leaderPtr rf) (goroutines rf).
Definition set_lastIncludedTerm v (rf : Raft Cmd) : Raft Cmd :=
  mkRaft
    (peers rf) (persister rf) (me rf) (dead rf) (currentTerm rf) (votedFor rf)
    (logs rf) (lastIncludedIndex rf) v (lastIncludedCmdIndex rf) (commitIndex rf)
    (lastApplied rf) (applyChan rf) (role rf) (timeOutMS rf) (heartBeatCnt rf)
    (heartBeatCh rf) (leaderPtr rf) (goroutines rf).
Definition set_lastIncludedCmdIndex v (rf : Raft Cmd) : Raft Cmd :=
  mkRaft
    (peers rf) (persister rf) (me rf) (dead rf) (currentTerm rf) (votedFor rf)
    (logs rf) (lastIncludedIndex rf) (lastIncludedTerm rf) v (commitIndex rf)
    (lastApplied rf) (applyChan rf) (role rf) (timeOutMS rf) (heartBeatCnt rf)
    (heartBeatCh rf) (leaderPtr rf) (goroutines rf).
Definition set_commitIndex v (rf : Raft Cmd) : Raft Cmd :=
  mkRaft
    (peers rf) (persister rf) (me rf) (dead rf) (currentTerm rf) (votedFor rf)
    (logs rf) (lastIncludedIndex rf) (lastIncludedTerm rf) (lastIncludedCmdIndex rf) v
    (lastApplied rf) (applyChan rf) (role rf) (timeOutMS rf) (heartBeatCnt rf)
    (heartBeatCh rf) (leaderPtr rf) (goroutines rf).
Definition set_lastApplied v (rf : Raft Cmd) : Raft Cmd :=
  mkRaft
    (peers rf) (persister rf) (me rf) (dead rf) (currentTerm rf) (votedFor rf)
    (logs rf) (lastIncludedIndex rf) (lastIncludedTerm rf) (lastIncludedCmdIndex rf)
    (commitIndex rf) v (applyChan rf) (role rf) (timeOutMS rf) (heartBeatCnt rf)
    (heartBeatCh rf) (leaderPtr rf) (goroutines rf).
Definition set_applyChan v (rf : Raft Cmd) : Raft Cmd :=
  mkRaft
    (peers rf) (persister rf) (me rf) (dead rf) (currentTerm rf) (votedFor rf)
    (logs rf) (lastIncludedIndex rf) (lastIncludedTerm rf) (lastIncludedCmdIndex rf)
    (commitIndex rf) (lastApplied rf) v (role rf) (timeOutMS rf) (heartBeatCnt rf)
    (heartBeatCh rf) (leaderPtr rf) (goroutines rf).
Definition set_role v (rf : Raft Cmd) : Raft Cmd :=
  mkRaft
    (peers rf) (persister rf) (me rf) (dead rf) (currentTerm rf) (votedFor rf)
    (logs rf) (lastIncludedIndex rf) (lastIncludedTerm rf) (lastIncludedCmdIndex rf)
    (commitIndex rf) (lastApplied rf) (applyChan rf) v (timeOutMS rf) (heartBeatCnt rf)
    (heartBeatCh rf) (leaderPtr rf) (goroutines rf).
Definition set_heartBeatCnt v (rf : Raft Cmd) : Raft Cmd :=
  mkRaft
    (peers rf) (persister rf) (me rf) (dead rf) (currentTerm rf) (votedFor rf)
    (logs rf) (lastIncludedIndex rf) (lastIncludedTerm rf) (lastIncludedCmdIndex rf)
    (commitIndex rf) (lastApplied rf) (applyChan rf) (role rf) (timeOutMS rf) v
    (heartBeatCh rf) (leaderPtr rf) (goroutines rf).
Definition set_heartBeatCh v (rf : Raft Cmd) : Raft Cmd :=
  mkRaft
    (peers rf) (persister rf) (me rf) (dead rf) (currentTerm rf) (votedFor rf)
    (logs rf) (lastIncludedIndex rf) (lastIncludedTerm rf) (lastIncludedCmdIndex rf)
    (commitIndex rf) (lastApplied rf) (applyChan rf) (role rf) (timeOutMS rf)
    (heartBeatCnt rf) v (leaderPtr rf) (goroutines rf).
Definition set_leaderPtr v (rf : Raft Cmd) : Raft Cmd :=
  mkRaft
    (peers rf) (persister rf) (me rf) (dead rf) (currentTerm rf) (votedFor rf)
    (logs rf) (lastIncludedIndex rf) (lastIncludedTerm rf) (lastIncludedCmdIndex rf)
    (commitIndex rf) (lastApplied rf) (applyChan rf) (role rf) (timeOutMS rf)
    (heartBeatCnt rf) (heartBeatCh rf) v (goroutines rf).
Definition set_goroutines v (rf : Raft Cmd) : Raft Cmd :=
  mkRaft
    (peers rf) (persister rf) (me rf) (dead rf) (currentTerm rf) (votedFor rf)
    (logs rf) (lastIncludedIndex rf) (lastIncludedTerm rf) (lastIncludedCmdIndex rf)
    (commitIndex rf) (lastApplied rf) (applyChan rf) (role rf) (timeOutMS rf)
    (heartBeatCnt rf) (heartBeatCh rf) (leaderPtr rf) v.

End setters.

(** ** RPC messages *)

Record RequestVoteArgs := mkRequestVoteArgs {
  CandicateTerm : Z;
  CandicateId : Z;
  LastLogIndex : Z;
  LastLogTerm : Z;
}.

Record RequestVoteReply := mkRequestVoteReply {
  rv_FollowerTerm : Z;
  VoteGranted : bool;
}.

(** [Entries = None] is the nil slice of a heartbeat. *)
Record AppendEntriesArgs (Cmd : Type) := mkAppendEntriesArgs {
  LeaderTerm : Z;
  LeaderId : Z;
  PrevLogIndex : Z;
  PrevLogTerm : Z;
  Entries : option (list (LogEntry Cmd));
  LeaderCommit : Z;
}.
Arguments mkAppendEntriesArgs {Cmd}.
Arguments LeaderTerm {Cmd}.
Arguments LeaderId {Cmd}.
Arguments PrevLogIndex {Cmd}.
Arguments PrevLogTerm {Cmd}.
Arguments Entries {Cmd}.
Arguments LeaderCommit {Cmd}.

Record AppendEntriesReply := mkAppendEntriesReply {
  ae_FollowerTerm : Z;
  Success : bool;
  Xterm : Z;
  Xindex : Z;
  Xlen : Z;
}.

Record InstallSnapshotArgs := mkInstallSnapshotArgs {
  is_Term : Z;
  is_LeaderId : Z;
  is_LastIncludedIndex : Z;
  is_LastIncludedTerm : Z;
  is_LastIncludedCmdIndex : Z;
  is_Offset : Z;
  is_Data : bytes;
  is_Done : bool;
}.

Record InstallSnapshotReply := mkInstallSnapshotReply { isr_Term : Z }.

(** What [send...WithTimeOut] gives its caller: the RPC goroutine's result
    [taskDone] when it comes before the deadline. *)
Inductive RpcResult (R : Type) :=
| TimedOut
| Lost
| Replied (r : R).
Arguments TimedOut {R}.
Arguments Lost {R}.
Arguments Replied {R} r.

(** [taskDone] is [None] when the context's deadline comes first, otherwise the
    result of [Call] with the reply it filled in; the value is the pair
    [(timeOut, ok)] and the reply. *)
Definition sendWithTimeOut {R} (taskDone : option (bool * R)) : RpcResult R :=
  match taskDone with
  | Some (true, reply) => Replied reply
  | Some (false, _) => Lost
  | None => TimedOut
  end.

(** the values [RequestVote] keeps while the lock is released *)
Record VoteView := mkVoteView {
  vv_curRole : Role;
  vv_curTerm : Z;
  vv_lastLogIdx : Z;
  vv_lastLogTerm : Z;
}.

(** the events and outcomes of the election goroutines *)
Inductive VoteDecision :=
| KeepWaiting (getVote : Z)
| Win
| StepDown (term : Z).

Inductive ElectionEvent :=
| ElectionTicker
| ElectionVote (reply : RequestVoteReply)
| ElectionHeartBeat.

Inductive ElectionNext :=
| NextRound
| Counting (getVote : Z)
| ElectionOver.

Inductive TimerEvent :=
| TimerTick
| TimerHeartBeat
| TimerQuit.

(** ** Operations *)

Section operations.
Context {Cmd : Type} `{!GobCodec Z} `{!GobCodec (list (LogEntry Cmd))}.
Abbreviation Raft := (Raft Cmd).
Abbreviation LogEntry := (LogEntry Cmd).

Implicit Types rf : Raft.

Definition GetState rf : Z * bool :=
  (currentTerm rf, bool_decide (role rf = LEADER)).

Definition encodeRaftState rf : bytes :=
  gob_encode (currentTerm rf) ++ gob_encode (votedFor rf) ++ gob_encode (logs rf) ++
  gob_encode (lastIncludedIndex rf) ++ gob_encode (lastIncludedTerm rf) ++
  gob_encode (lastIncludedCmdIndex rf).

Definition persist rf : Raft :=
  set_persister (SaveRaftState (encodeRaftState rf) (persister rf)) rf.

(** A value that does not decode leaves every field as it was. *)
Definition readPersist (data : bytes) rf : Raft :=
  if len data <? 1 then rf else
  match
    '(term, d) ← gob_decode data;
    '(vote, d) ← gob_decode d;
    '(ls, d) ← gob_decode d;
    '(lii, d) ← gob_decode d;
    '(lit, d) ← gob_decode d;
    '(lic, d) ← gob_decode d;
    Some (term, vote, ls, lii, lit, lic)
  with
  | Some (term, vote, ls, lii, lit, lic) =>
      set_lastIncludedCmdIndex lic (set_lastIncludedTerm lit (set_lastIncludedIndex lii
        (set_logs ls (set_votedFor vote (set_currentTerm term rf)))))
  | None => rf
  end.

Definition logIndex2LogPos rf (logIndex : Z) : Z := logIndex - lastIncludedIndex rf.

Definition getLastLog rf : go LogEntry := idx (logs rf) (len (logs rf) - 1).

Definition goStmt (g : Goroutine) rf : Raft := set_goroutines (goroutines rf ++ [g]) rf.

(** [rf.heartBeatCh <- true] on the channel of capacity 8 *)
Definition sendHeartBeat rf : go Raft :=
  if heartBeatCh rf <? 8 then Ret (set_heartBeatCh (heartBeatCh rf + 1) rf) else Block.

(** [rf.applyChan <- msg] *)
Definition sendApply (msg : ApplyMsg Cmd) rf : Raft :=
  set_applyChan (applyChan rf ++ [msg]) rf.

Definition becomeFollower (newTerm : Z) rf : Raft :=
  let rf := set_leaderPtr None (set_votedFor (-1) (set_currentTerm newTerm rf)) in
  let rf :=
    if decide (role rf = FOLLOWER) then rf
    else goStmt GoTimeOutToElection (set_role FOLLOWER (set_heartBeatCnt 0 rf)) in
  persist rf.

(** [for i := range rf.peers { if i == rf.me { continue }; go rf.HeartBeatToServer(i) }] *)
Definition startHeartBeats rf : Raft :=
  fold_left
    (λ rf (i : nat),
      if Z.of_nat i =? me rf then rf else goStmt (GoHeartBeatToServer (Z.of_nat i)) rf)
    (seq 0 (Z.to_nat (peers rf))) rf.

Definition becomeLeader rf : go Raft :=
  last ← getLastLog rf;
  let rf := set_role LEADER rf in
  let rf := set_leaderPtr (Some (mkLeader
    (replicate (Z.to_nat (peers rf)) (LogIndex last + 1))
    (replicate (Z.to_nat (peers rf)) 0))) rf in
  let noOpLog := mkLogEntry (currentTerm rf) (LogIndex last + 1) None
                            (CommandIndex last) true in
  let rf := set_logs (logs rf ++ [noOpLog]) rf in
  Ret (startHeartBeats (persist rf)).

(** *** RequestVote *)

Definition RequestVote_read (args : RequestVoteArgs) rf : go (Raft * VoteView) :=
  let rf := if currentTerm rf <? CandicateTerm args
            then becomeFollower (CandicateTerm args) rf else rf in
  last ← getLastLog rf;
  Ret (rf, mkVoteView (role rf) (currentTerm rf) (LogIndex last) (LogTerm last)).

(** the candidate's log is behind ours *)
Definition logBehind (args : RequestVoteArgs) (v : VoteView) : bool :=
  (LastLogTerm args <? vv_lastLogTerm v)
  || ((LastLogTerm args =? vv_lastLogTerm v) && (LastLogIndex args <? vv_lastLogIdx v)).

Definition RequestVote_grant (args : RequestVoteArgs) (v : VoteView) rf
    : go (Raft * RequestVoteReply) :=
  let refused := mkRequestVoteReply (vv_curTerm v) false in
  if CandicateTerm args <? vv_curTerm v then Ret (rf, refused)
  else if logBehind args v then Ret (rf, refused)
  else match vv_curRole v with
       | FOLLOWER =>
           if (votedFor rf =? -1) || (votedFor rf =? CandicateId args) then
             let rf := set_votedFor (CandicateId args) rf in
             rf ← sendHeartBeat rf;
             Ret (persist rf, mkRequestVoteReply (vv_curTerm v) true)
           else Ret (rf, refused)
       | CANDICATE | LEADER => Ret (rf, refused)
       end.

(** *** AppendEntries *)

(** [for i := 1; i <= logPos; i++ { if rf.logs[i].LogTerm == xterm { ... break } }];
    [n] is the number of positions left, [logPos - i + 1]. *)
Fixpoint firstIndexOfTerm (ls : list LogEntry) (xterm : Z) (n : nat) (i : Z) : go Z :=
  match n with
  | O => Ret 0
  | S n =>
      e ← idx ls i;
      if LogTerm e =? xterm then Ret (LogIndex e)
      else firstIndexOfTerm ls xterm n (i + 1)
  end.

Definition commandMsg (e : LogEntry) : ApplyMsg Cmd :=
  mkApplyMsg true (Command e) (CommandIndex e) (LogIndex e) [] 0 0 0.

(** send the entry with log index [i] to the service unless it is internal *)
Definition applyEntry (i : Z) rf : go Raft :=
  e ← idx (logs rf) (logIndex2LogPos rf i);
  Ret (if IsInternalLog e then rf else sendApply (commandMsg e) rf).

(** [for ; i <= args.LeaderCommit && i <= rf.getLastLog().LogIndex; i++ { ... }]
    with [n] iterations at most *)
Fixpoint followerCommit (leaderCommit : Z) (n : nat) (i : Z) rf : go Raft :=
  match n with
  | O => Ret rf
  | S n =>
      last ← getLastLog rf;
      if (i <=? leaderCommit) && (i <=? LogIndex last) then
        rf ← applyEntry i rf;
        followerCommit leaderCommit n (i + 1) (set_lastApplied i (set_commitIndex i rf))
      else Ret rf
  end.

Definition AppendEntries_commit (args : AppendEntriesArgs Cmd) rf : go Raft :=
  if commitIndex rf <? LeaderCommit args then
    followerCommit (LeaderCommit args) (Z.to_nat (LeaderCommit args - commitIndex rf))
      (commitIndex rf + 1) rf
  else Ret rf.

(** the check of the entries against the log (the [if args.Entries != nil] block)
    and, when they are taken, the update of the commit index; [term] is
    [reply.FollowerTerm] *)
Definition AppendEntries_entries (term : Z) (args : AppendEntriesArgs Cmd)
    (es : list LogEntry) rf : go (Raft * AppendEntriesReply) :=
  if PrevLogIndex args <? lastIncludedIndex rf then
    Ret (rf, mkAppendEntriesReply term false (-1) 0 0)
  else
  last ← getLastLog rf;
  if PrevLogIndex args <=? LogIndex last then
    let logPos := logIndex2LogPos rf (PrevLogIndex args) in
    e ← idx (logs rf) logPos;
    if LogTerm e =? PrevLogTerm args then
      kept ← slice_to (logs rf) (logPos + 1);
      let rf := persist (set_logs (kept ++ es) rf) in
      rf ← AppendEntries_commit args rf;
      Ret (rf, mkAppendEntriesReply term true 0 0 0)
    else
      xindex ← firstIndexOfTerm (logs rf) (LogTerm e) (Z.to_nat logPos) 1;
      kept ← slice_to (logs rf) logPos;
      Ret (persist (set_logs kept rf),
           mkAppendEntriesReply term false (LogTerm e) xindex 0)
  else
    Ret (rf, mkAppendEntriesReply term false (-1) 0 (LogIndex last)).

Definition AppendEntries (args : AppendEntriesArgs Cmd) rf : go (Raft * AppendEntriesReply) :=
  let role0 := role rf in
  if LeaderTerm args <? currentTerm rf then
    Ret (rf, mkAppendEntriesReply (currentTerm rf) false 0 0 0)
  else
  let rf := becomeFollower (LeaderTerm args) rf in
  let term := currentTerm rf in
  rf ← (match role0 with FOLLOWER | CANDICATE => sendHeartBeat rf | LEADER => Ret rf end);
  match Entries args with
  | Some es => AppendEntries_entries term args es rf
  | None =>
      rf ← AppendEntries_commit args rf;
      Ret (rf, mkAppendEntriesReply term true 0 0 0)
  end.

(** *** Election *)

(** one round of [StartElection]'s outer loop up to the unlock: [None] when the
    server is leader already, otherwise the arguments of the round's RPCs *)
Definition StartElection_begin rf : go (option (Raft * RequestVoteArgs)) :=
  if decide (role rf = LEADER) then Ret None else
  let rf := set_votedFor (me rf) (set_role CANDICATE
              (set_currentTerm (currentTerm rf + 1) rf)) in
  let rf := persist rf in
  last ← getLastLog rf;
  Ret (Some (rf, mkRequestVoteArgs (currentTerm rf) (me rf)
                   (LogIndex last) (LogTerm last))).

(** the loop test of a vote-request goroutine started in [term] *)
Definition voteRequest_continues (term : Z) rf : bool :=
  bool_decide (role rf = CANDICATE) && (currentTerm rf =? term).

(** the threshold of the votes and of the replicas: more than half of the peers
    when their number is odd, half of them when it is even *)
Definition majority rf : Z := Z.quot (peers rf + 1) 2.

(** a reply from [voteCh], looked at without the lock *)
Definition StartElection_count (getVote : Z) (reply : RequestVoteReply) rf : VoteDecision :=
  if VoteGranted reply then
    let getVote := getVote + 1 in
    if majority rf <=? getVote then Win else KeepWaiting getVote
  else if currentTerm rf <? rv_FollowerTerm reply then StepDown (rv_FollowerTerm reply)
  else KeepWaiting getVote.

(** what the decision does once the lock is taken *)
Definition StartElection_decide (d : VoteDecision) rf : go Raft :=
  match d with
  | KeepWaiting _ => Ret rf
  | Win => becomeLeader rf
  | StepDown term => Ret (becomeFollower term rf)
  end.

Definition killed rf : bool := dead rf =? 1.

(** [<-rf.heartBeatCh] *)
Definition recvHeartBeat rf : go Raft :=
  if 0 <? heartBeatCh rf then Ret (set_heartBeatCh (heartBeatCh rf - 1) rf) else Block.

(** one turn of the [select] of [StartElection] *)
Definition StartElection_select (getVote : Z) (ev : ElectionEvent) rf
    : go (Raft * ElectionNext) :=
  match ev with
  | ElectionTicker => Ret (rf, if killed rf then ElectionOver else NextRound)
  | ElectionVote reply =>
      let d := StartElection_count getVote reply rf in
      rf ← StartElection_decide d rf;
      Ret (rf, match d with
               | KeepWaiting getVote => Counting getVote
               | Win | StepDown _ => ElectionOver
               end)
  | ElectionHeartBeat => rf ← recvHeartBeat rf; Ret (rf, ElectionOver)
  end.

(** one turn of the [select] of [TimeOutToElection]; [false]: the goroutine ends *)
Definition TimeOutToElection (ev : TimerEvent) rf : go (Raft * bool) :=
  match ev with
  | TimerTick =>
      if killed rf then Ret (rf, false)
      else if 0 <? heartBeatCnt rf then Ret (set_heartBeatCnt 0 rf, true)
      else Ret (goStmt GoStartElection rf, true)
  | TimerHeartBeat =>
      rf ← recvHeartBeat rf;
      Ret (set_heartBeatCnt (wrap32 (heartBeatCnt rf + 1)) rf, true)
  | TimerQuit => Ret (rf, false)
  end.

(** *** The leader's side of replication *)

(** [rf.leaderPtr], dereferenced *)
Definition leader rf : go Leader :=
  match leaderPtr rf with
  | Some l => Ret l
  | None => Panic
  end.

Definition setNextIndex (peerIndex v : Z) rf : go Raft :=
  l ← leader rf;
  ns ← upd (nextIndexs l) peerIndex v;
  Ret (set_leaderPtr (Some (mkLeader ns (matchIndexs l))) rf).

Definition setMatchIndex (peerIndex v : Z) rf : go Raft :=
  l ← leader rf;
  ms ← upd (matchIndexs l) peerIndex v;
  Ret (set_leaderPtr (Some (mkLeader (nextIndexs l) ms)) rf).

(** the test of one turn of [HeartBeatToServer]: [None] ends the goroutine,
    [Some true] sends a snapshot, [Some false] sends entries *)
Definition HeartBeatToServer (peerIndex : Z) rf : go (option bool) :=
  if killed rf then Ret None
  else if decide (role rf = LEADER) then
    l ← leader rf;
    n ← idx (nextIndexs l) peerIndex;
    Ret (Some (n <=? lastIncludedIndex rf))
  else Ret None.

(** the first critical section of [doAppendEntriesRPC]; [None]: the entries are
    compressed, nothing is sent.  The entries are those of the moment in which the
    section ends: in the code [args.Entries] aliases [rf.logs] and [Call] encodes it
    after the unlock, which is the same value unless in between the peer steps down
    and overwrites these positions in place. *)
Definition doAppendEntriesRPC_args (peerIndex : Z) rf : go (option (AppendEntriesArgs Cmd)) :=
  last ← getLastLog rf;
  l ← leader rf;
  next ← idx (nextIndexs l) peerIndex;
  if next <=? LogIndex last then
    if next <=? lastIncludedIndex rf then Ret None
    else
      let logPos := logIndex2LogPos rf next in
      prev ← idx (logs rf) (logPos - 1);
      es ← slice_from (logs rf) logPos;
      Ret (Some (mkAppendEntriesArgs (currentTerm rf) (me rf) (LogIndex prev)
                   (LogTerm prev) (Some es) (commitIndex rf)))
  else
    Ret (Some (mkAppendEntriesArgs (currentTerm rf) (me rf) (-1) (-1) None
                 (commitIndex rf))).

(** the count of replicas that hold index [i]; [n] peers left, from peer [j] *)
Fixpoint countReplicas (ms : list Z) (peerIndex self i : Z) (n : nat) (j cnt : Z) : go Z :=
  match n with
  | O => Ret cnt
  | S n =>
      if (j =? peerIndex) || (j =? self) then
        countReplicas ms peerIndex self i n (j + 1) cnt
      else
        m ← idx ms j;
        countReplicas ms peerIndex self i n (j + 1) (if i <=? m then cnt + 1 else cnt)
  end.

(** [for k := rf.commitIndex + 1; k <= i; k++ { ... }], [n] entries left *)
Fixpoint leaderApply (n : nat) (k : Z) rf : go Raft :=
  match n with
  | O => Ret rf
  | S n => rf ← applyEntry k rf; leaderApply n (k + 1) rf
  end.

(** [for i > rf.commitIndex && rf.logs[iPos].LogTerm == rf.currentTerm { ... }];
    [n] is [i - commitIndex] *)
Fixpoint leaderCommit (peerIndex : Z) (n : nat) (i : Z) rf : go Raft :=
  match n with
  | O => Ret rf
  | S n =>
      e ← idx (logs rf) (logIndex2LogPos rf i);
      if LogTerm e =? currentTerm rf then
        l ← leader rf;
        cnt ← countReplicas (matchIndexs l) peerIndex (me rf) i (Z.to_nat (peers rf)) 0 2;
        if majority rf <=? cnt then
          rf ← leaderApply (Z.to_nat (i - commitIndex rf)) (commitIndex rf + 1) rf;
          Ret (set_lastApplied i (set_commitIndex i rf))
        else leaderCommit peerIndex n (i - 1) rf
      else Ret rf
  end.

(** the search for [Xterm] from the last entry down: the new [nextIndex], if the
    loop sets one; [n] entries left *)
Fixpoint findXterm (reply : AppendEntriesReply) (n : nat) (i : Z) rf : go (option Z) :=
  match n with
  | O => Ret None
  | S n =>
      e ← idx (logs rf) (logIndex2LogPos rf i);
      if LogTerm e =? Xterm reply then Ret (Some (i + 1))
      else if LogTerm e <? Xterm reply then Ret (Some (Xindex reply))
      else findXterm reply n (i - 1) rf
  end.

(** the follower took the entries [es] *)
Definition replicationSucceeded (peerIndex : Z) (es : list LogEntry) rf : go Raft :=
  lastE ← idx es (len es - 1);
  let i := LogIndex lastE in
  rf ← setNextIndex peerIndex (i + 1) rf;
  rf ← setMatchIndex peerIndex i rf;
  if commitIndex rf <? i then
    leaderCommit peerIndex (Z.to_nat (i - commitIndex rf)) i rf
  else Ret rf.

(** the follower's log conflicts: back [nextIndexs[peerIndex]] up *)
Definition backUp (peerIndex : Z) (reply : AppendEntriesReply) rf : go Raft :=
  if Xterm reply =? -1 then setNextIndex peerIndex (Xlen reply + 1) rf
  else
    last ← getLastLog rf;
    first ← idx (logs rf) 0;
    next ← findXterm reply (Z.to_nat (LogIndex last - LogIndex first + 1)) (LogIndex last) rf;
    match next with
    | Some v => setNextIndex peerIndex v rf
    | None => Ret rf
    end.

(** the rest of [doAppendEntriesRPC], once the RPC is over; the second component
    is the time it sleeps, in milliseconds *)
Definition doAppendEntriesRPC_reply (peerIndex : Z) (args : AppendEntriesArgs Cmd)
    (result : RpcResult AppendEntriesReply) rf : go (Raft * Z) :=
  match result with
  | TimedOut => Ret (rf, 10)
  | Lost => Ret (rf, 0)
  | Replied reply =>
      if Success reply then
        if decide (currentTerm rf = LeaderTerm args) then
          match Entries args with
          | Some es => rf ← replicationSucceeded peerIndex es rf; Ret (rf, 0)
          | None =>
              l ← leader rf;
              next ← idx (nextIndexs l) peerIndex;
              last ← getLastLog rf;
              Ret (rf, if next <=? LogIndex last then 0 else 100)
          end
        else Ret (rf, 0)
      else if LeaderTerm args <? ae_FollowerTerm reply then
        Ret (becomeFollower (ae_FollowerTerm reply) rf, 0)
      else if decide (currentTerm rf = LeaderTerm args) then
        rf ← backUp peerIndex reply rf; Ret (rf, 0)
      else Ret (rf, 0)
  end.

Definition doInstallSnapshotRPC_args rf : InstallSnapshotArgs :=
  mkInstallSnapshotArgs (currentTerm rf) (me rf) (lastIncludedIndex rf)
    (lastIncludedTerm rf) (lastIncludedCmdIndex rf) 0 (ReadSnapshot (persister rf)) true.

Definition doInstallSnapshotRPC_reply (peerIndex : Z) (args : InstallSnapshotArgs)
    (result : RpcResult InstallSnapshotReply) rf : go (Raft * Z) :=
  match result with
  | TimedOut | Lost => Ret (rf, 10)
  | Replied reply =>
      if decide (currentTerm rf = is_Term args) then
        if currentTerm rf <? isr_Term reply then
          Ret (becomeFollower (isr_Term reply) rf, 0)
        else
          rf ← setNextIndex peerIndex (is_LastIncludedIndex args + 1) rf;
          rf ← setMatchIndex peerIndex (is_LastIncludedIndex args) rf;
          Ret (rf, 0)
      else Ret (rf, 0)
  end.

(** *** The service's interface *)

Definition Start (command : Cmd) rf : go (Raft * (Z * Z * bool)) :=
  if killed rf then Ret (rf, (-1, -1, true))
  else if decide (role rf = LEADER) then
    last ← getLastLog rf;
    let cmdIndex := CommandIndex last + 1 in
    let term := currentTerm rf in
    let newLog := mkLogEntry term (LogIndex last + 1) (Some command) cmdIndex false in
    Ret (persist (set_logs (logs rf ++ [newLog]) rf), (cmdIndex, term, true))
  else Ret (rf, (-1, -1, false)).

Definition Kill rf : Raft := set_dead 1 rf.

Definition ExceedLogSize (logSize : Z) rf : bool :=
  logSize <=? RaftStateSize (persister rf).

(** *** Snapshots *)

Definition snapshotMsg rf : ApplyMsg Cmd :=
  mkApplyMsg false None 0 0 (ReadSnapshot (persister rf))
    (lastIncludedIndex rf) (lastIncludedTerm rf) (lastIncludedCmdIndex rf).

Definition installSnapshotToApplication rf : Raft :=
  let msg := snapshotMsg rf in
  sendApply msg (set_commitIndex (lastIncludedIndex rf)
                  (set_lastApplied (lastIncludedIndex rf) rf)).

Definition sentinel (term index cmdIndex : Z) : LogEntry :=
  mkLogEntry term index None cmdIndex true.

(** the log that [InstallSnapshot] leaves *)
Definition InstallSnapshot_logs (args : InstallSnapshotArgs) rf : go (list LogEntry) :=
  let fresh := [sentinel (is_LastIncludedTerm args) (is_LastIncludedIndex args)
                         (is_LastIncludedCmdIndex args)] in
  last ← getLastLog rf;
  if is_LastIncludedIndex args <? LogIndex last then
    let pos := logIndex2LogPos rf (is_LastIncludedIndex args) in
    e ← idx (logs rf) pos;
    if LogTerm e =? is_LastIncludedTerm args then
      rest ← slice_from (logs rf) pos;
      afterLog ← make_copy zeroLogEntry (LogIndex last - is_LastIncludedIndex args + 1) rest;
      e0 ← idx afterLog 0;
      upd afterLog 0 (mkLogEntry (LogTerm e0) (LogIndex e0) None (CommandIndex e0) true)
    else Ret fresh
  else Ret fresh.

Definition InstallSnapshot (args : InstallSnapshotArgs) rf
    : go (Raft * InstallSnapshotReply) :=
  let reply := mkInstallSnapshotReply (currentTerm rf) in
  if is_Term args <? currentTerm rf then Ret (rf, reply)
  else
  let rf := if currentTerm rf <? is_Term args then becomeFollower (is_Term args) rf else rf in
  if is_LastIncludedIndex args <=? lastIncludedIndex rf then Ret (rf, reply)
  else
  ls ← InstallSnapshot_logs args rf;
  let rf := set_logs ls rf in
  let rf := set_lastIncludedCmdIndex (is_LastIncludedCmdIndex args)
              (set_lastIncludedTerm (is_LastIncludedTerm args)
                (set_lastIncludedIndex (is_LastIncludedIndex args) rf)) in
  let rf := set_persister (SaveStateAndSnapshot (encodeRaftState rf) (is_Data args)
                             (persister rf)) rf in
  Ret (installSnapshotToApplication rf, reply).

Definition TakeSnapshot (snap : bytes) (lastIncluded : Z) rf : go Raft :=
  if lastIncluded <=? lastIncludedIndex rf then Ret rf
  else
  let pos := logIndex2LogPos rf lastIncluded in
  e ← idx (logs rf) pos;
  let rf := set_lastIncludedCmdIndex (CommandIndex e) (set_lastIncludedTerm (LogTerm e) rf) in
  afterLog ← slice_from (logs rf) pos;
  e0 ← idx afterLog 0;
  afterLog ← upd afterLog 0
    (mkLogEntry (LogTerm e0) (LogIndex e0) None (CommandIndex e0) (IsInternalLog e0));
  let rf := set_lastIncludedIndex lastIncluded (set_logs afterLog rf) in
  Ret (set_persister (SaveStateAndSnapshot (encodeRaftState rf) snap (persister rf)) rf).

(** *** Start-up *)

Definition zeroRaft (npeers self : Z) (ps : Persister) : Raft :=
  mkRaft npeers ps self 0 0 (-1) [] 0 0 0 0 0 [] FOLLOWER (wrap32 (200 + self * 50))
    0 0 None [].

Definition Make (npeers self : Z) (ps : Persister) : Raft :=
  let rf := readPersist (ReadRaftState ps) (zeroRaft npeers self ps) in
  let rf :=
    if len (logs rf) =? 0 then
      set_logs [sentinel (lastIncludedTerm rf) (lastIncludedIndex rf)
                         (lastIncludedCmdIndex rf)] rf
    else rf in
  goStmt GoTimeOutToElection (installSnapshotToApplication rf).

End operations.
