(* ===== verification/RaftStep.v ===== *)
(** * Package raft: the atomic steps of a server and their invariants

    [RaftOp] lists the critical sections of a Raft peer, [exec] runs one.  Any
    interleaving of the peer's goroutines, RPC handlers and service calls is a
    sequence of these steps.  [raft_wf] is the well-formedness of the in-memory
    state, [durable] relates it to what the persister holds. *)

From S2P Require Import Prelude Gob Raft.

Inductive RaftOp (Cmd : Type) :=
| OpRequestVote_read (args : RequestVoteArgs)
| OpRequestVote_grant (args : RequestVoteArgs) (v : VoteView)
| OpAppendEntries (args : AppendEntriesArgs Cmd)
| OpInstallSnapshot (args : InstallSnapshotArgs)
| OpTakeSnapshot (snap : bytes) (lastIncluded : Z)
| OpStart (command : Cmd)
| OpKill
| OpElectionBegin
| OpElectionDecide (d : VoteDecision)
| OpElectionHeartBeat
| OpTimer (ev : TimerEvent)
| OpHeartBeat (peerIndex : Z)
| OpAppendArgs (peerIndex : Z)
| OpAppendReply (peerIndex : Z) (args : AppendEntriesArgs Cmd)
    (result : RpcResult AppendEntriesReply)
| OpSnapshotReply (peerIndex : Z) (args : InstallSnapshotArgs)
    (result : RpcResult InstallSnapshotReply).
Arguments OpRequestVote_read {Cmd}.
Arguments OpRequestVote_grant {Cmd}.
Arguments OpAppendEntries {Cmd}.
Arguments OpInstallSnapshot {Cmd}.
Arguments OpTakeSnapshot {Cmd}.
Arguments OpStart {Cmd}.
Arguments OpKill {Cmd}.
Arguments OpElectionBegin {Cmd}.
Arguments OpElectionDecide {Cmd}.
Arguments OpElectionHeartBeat {Cmd}.
Arguments OpTimer {Cmd}.
Arguments OpHeartBeat {Cmd}.
Arguments OpAppendArgs {Cmd}.
Arguments OpAppendReply {Cmd}.
Arguments OpSnapshotReply {Cmd}.

Section step.
Context {Cmd : Type} `{!GobCodec Z} `{!GobCodec (list (LogEntry Cmd))}.
Implicit Types (rf : Raft Cmd) (ls es : list (LogEntry Cmd)).

Definition exec (op : RaftOp Cmd) rf : go (Raft Cmd) :=
  match op with
  | OpRequestVote_read args => fst <$> RequestVote_read args rf
  | OpRequestVote_grant args v => fst <$> RequestVote_grant args v rf
  | OpAppendEntries args => fst <$> AppendEntries args rf
  | OpInstallSnapshot args => fst <$> InstallSnapshot args rf
  | OpTakeSnapshot snap li => TakeSnapshot snap li rf
  | OpStart command => fst <$> Start command rf
  | OpKill => Ret (Kill rf)
  | OpElectionBegin => (λ o, from_option fst rf o) <$> StartElection_begin rf
  | OpElectionDecide d => StartElection_decide d rf
  | OpElectionHeartBeat => recvHeartBeat rf
  | OpTimer ev => fst <$> TimeOutToElection ev rf
  | OpHeartBeat peer => (λ _, rf) <$> HeartBeatToServer peer rf
  | OpAppendArgs peer => (λ _, rf) <$> doAppendEntriesRPC_args peer rf
  | OpAppendReply peer args result => fst <$> doAppendEntriesRPC_reply peer args result rf
  | OpSnapshotReply peer args result => fst <$> doInstallSnapshotRPC_reply peer args result rf
  end.

(** a run of steps, stopping at the first that does not return *)
Fixpoint run (ops : list (RaftOp Cmd)) rf : go (Raft Cmd) :=
  match ops with
  | [] => Ret rf
  | op :: ops => rf ← exec op rf; run ops rf
  end.

End step.
