(* ===== verification/RaftPersist.v ===== *)
(** * Package raft: durability

    Every critical section that changes the persistent state saves it before it
    ends, so a peer that restarts from its persister comes back with the term,
    vote, log and snapshot metadata it had. *)

From S2P Require Import Prelude Gob Raft RaftStep.

Section persist.
Context {Cmd : Type} `{!GobCodec Z} `{!GobCodec (list (LogEntry Cmd))}.
Implicit Types rf : Raft Cmd.

(** the fields that Figure 2 of the paper and the snapshots make persistent *)
Definition pstate rf :=
  (currentTerm rf, votedFor rf, logs rf,
   lastIncludedIndex rf, lastIncludedTerm rf, lastIncludedCmdIndex rf).

Lemma pstate_inv rf rf' :
  pstate rf = pstate rf' →
  currentTerm rf = currentTerm rf' ∧ votedFor rf = votedFor rf' ∧ logs rf = logs rf'
  ∧ lastIncludedIndex rf = lastIncludedIndex rf'
  ∧ lastIncludedTerm rf = lastIncludedTerm rf'
  ∧ lastIncludedCmdIndex rf = lastIncludedCmdIndex rf'.
Proof. unfold pstate. by intros [= -> -> -> -> -> ->]. Qed.

Definition saved rf : Prop := raftstate (persister rf) = encodeRaftState rf.

(** the state of a peer that never saved anything *)
Definition pristine rf : Prop :=
  raftstate (persister rf) = [] ∧ pstate rf = (0, -1, [sentinel 0 0 0], 0, 0, 0).

Definition durable rf : Prop := saved rf ∨ pristine rf.

(** neither the persistent fields nor the saved bytes nor the role change *)
Definition frame rf rf' : Prop :=
  pstate rf' = pstate rf ∧ raftstate (persister rf') = raftstate (persister rf)
  ∧ role rf' = role rf.

#[export] Instance frame_preorder : PreOrder frame.
Proof. split; unfold frame; [by intros ? | intros ??? (? & ? & ?) (? & ? & ?); split_and!; congruence]. Qed.

Lemma frame_saved rf rf' : frame rf rf' → saved rf → saved rf'.
Proof.
  intros (Hp & Hr & _) Hs. unfold saved, encodeRaftState, pstate in *. simplify_eq.
  rewrite Hr, Hs. unfold encodeRaftState. congruence.
Qed.

Lemma frame_durable rf rf' : frame rf rf' → durable rf → durable rf'.
Proof.
  intros Hf [Hs|[Hr Hp]]; [left; by eapply frame_saved|right].
  destruct Hf as (Hp' & Hr' & _). split; congruence.
Qed.

Lemma saved_persist rf : saved (persist rf).
Proof. done. Qed.

Lemma saved_becomeFollower t rf : saved (becomeFollower t rf).
Proof. unfold becomeFollower. destruct (decide _); apply saved_persist. Qed.

Lemma frame_sendHeartBeat rf rf' : sendHeartBeat rf = Ret rf' → frame rf rf'.
Proof. unfold sendHeartBeat. intros H. by go_steps H. Qed.

Lemma frame_recvHeartBeat rf rf' : recvHeartBeat rf = Ret rf' → frame rf rf'.
Proof. unfold recvHeartBeat. intros H. by go_steps H. Qed.

Lemma frame_applyEntry i rf rf' : applyEntry i rf = Ret rf' → frame rf rf'.
Proof. unfold applyEntry. intros H. go_steps H. by case_match. Qed.

Lemma frame_followerCommit lc n i rf rf' :
  followerCommit lc n i rf = Ret rf' → frame rf rf'.
Proof.
  revert i rf. induction n as [|n IH]; simpl; intros i rf H; go_steps H; try done.
  apply IH in H. fwd frame_applyEntry. by etrans.
Qed.

Lemma frame_leaderApply n k rf rf' : leaderApply n k rf = Ret rf' → frame rf rf'.
Proof.
  revert k rf. induction n as [|n IH]; simpl; intros k rf H; go_steps H; [done|].
  etrans; [by eapply frame_applyEntry | by eapply IH].
Qed.

Lemma frame_leaderCommit peer n i rf rf' :
  leaderCommit peer n i rf = Ret rf' → frame rf rf'.
Proof.
  revert i. induction n as [|n IH]; simpl; intros i H; go_steps H; try done.
  - by fwd frame_leaderApply.
  - by eapply IH.
Qed.

Lemma frame_setNextIndex peer v rf rf' : setNextIndex peer v rf = Ret rf' → frame rf rf'.
Proof. unfold setNextIndex. intros H. by go_steps H. Qed.

Lemma frame_setMatchIndex peer v rf rf' : setMatchIndex peer v rf = Ret rf' → frame rf rf'.
Proof. unfold setMatchIndex. intros H. by go_steps H. Qed.

Lemma frame_replicationSucceeded peer es rf rf' :
  replicationSucceeded peer es rf = Ret rf' → frame rf rf'.
Proof.
  unfold replicationSucceeded. intros H.
  go_steps H; fwd frame_setNextIndex; fwd frame_setMatchIndex.
  - fwd frame_leaderCommit. etrans; [eassumption|]. by etrans.
  - by etrans.
Qed.

Lemma frame_backUp peer reply rf rf' : backUp peer reply rf = Ret rf' → frame rf rf'.
Proof.
  unfold backUp. intros H. go_steps H; try done; by eapply frame_setNextIndex.
Qed.

Lemma frame_startHeartBeats rf : frame rf (startHeartBeats rf).
Proof.
  unfold startHeartBeats. generalize (seq 0 (Z.to_nat (peers rf))) as ps.
  intros ps. revert rf. induction ps as [|i ps IH]; simpl; intros rf; [done|].
  etrans; [|apply IH]. by case_match.
Qed.

Lemma saved_becomeLeader rf rf' : becomeLeader rf = Ret rf' → saved rf'.
Proof.
  unfold becomeLeader. intros H. go_steps H.
  eapply frame_saved; [apply frame_startHeartBeats|done].
Qed.

Lemma frame_AppendEntries_commit args rf rf' :
  AppendEntries_commit args rf = Ret rf' → frame rf rf'.
Proof.
  unfold AppendEntries_commit. intros H. go_steps H; [by eapply frame_followerCommit|done].
Qed.

Create HintDb raft.
#[local] Hint Resolve saved_persist saved_becomeFollower saved_becomeLeader
  frame_sendHeartBeat frame_recvHeartBeat frame_AppendEntries_commit
  frame_replicationSucceeded frame_backUp frame_saved : raft.

Lemma AppendEntries_saves args rf rf' reply :
  AppendEntries args rf = Ret (rf', reply) → frame rf rf' ∨ saved rf'.
Proof.
  unfold AppendEntries, AppendEntries_entries. intros H. cbv zeta in H. go_step H; [by go_steps H; left|].
  go_step H.
  assert (saved a) as Hs.
  { destruct (role rf); try (by go_steps E0);
      (eapply frame_saved; [by eapply frame_sendHeartBeat | apply saved_becomeFollower]). }
  clear E0. right. go_steps H; eauto with raft.
Qed.

#[local] Ltac saves := simpl; first [by left | by right | eauto with raft].

Lemma exec_saves op rf rf' : exec op rf = Ret rf' → frame rf rf' ∨ saved rf'.
Proof.
  destruct op; simpl; intros H; try go_step H; subst.
  - unfold RequestVote_read in *. go_steps E. case_match; saves.
  - unfold RequestVote_grant in *. go_steps E; saves.
  - destruct a. eapply AppendEntries_saves; eauto.
  - unfold InstallSnapshot in *. go_steps E; try case_match; saves.
  - unfold TakeSnapshot in *. go_steps H; saves.
  - unfold Start in *. go_steps E; saves.
  - saves.
  - unfold StartElection_begin in *. go_steps E; saves.
  - destruct d; simpl in *; go_steps H; saves.
  - left. by eapply frame_recvHeartBeat.
  - left. destruct ev; simpl in *; go_steps E; try done. by fwd frame_recvHeartBeat.
  - saves.
  - saves.
  - unfold doAppendEntriesRPC_reply in *. go_steps E; saves.
  - unfold doInstallSnapshotRPC_reply in *. go_steps E; try saves.
    fwd frame_setNextIndex. fwd frame_setMatchIndex. left. by etrans.
Qed.

(** *** Recovery *)

Lemma readPersist_encode rf rf0 :
  let rf' := readPersist (encodeRaftState rf) rf0 in
  pstate rf' = pstate rf ∧ persister rf' = persister rf0 ∧ leaderPtr rf' = leaderPtr rf0
  ∧ role rf' = role rf0.
Proof.
  simpl. unfold readPersist.
  assert (1 ≤ len (encodeRaftState rf)) as Hl.
  { unfold encodeRaftState. pose proof (gob_nonempty (currentTerm rf)).
    destruct (gob_encode (currentTerm rf)); [done|]. unfold len. simpl. lia. }
  destruct (Z.ltb_spec (len (encodeRaftState rf)) 1); [lia|].
  unfold encodeRaftState. repeat (rewrite gob_roundtrip; simpl).
  rewrite <-(app_nil_r (gob_encode (lastIncludedCmdIndex rf))).
  by rewrite gob_roundtrip.
Qed.

Lemma Make_saved rf n self :
  saved rf → logs rf ≠ [] → pstate (Make n self (persister rf)) = pstate rf.
Proof.
  intros Hs Hl. unfold Make, ReadRaftState. rewrite Hs.
  destruct (readPersist_encode rf (zeroRaft n self (persister rf))) as [Hp _].
  assert (logs (readPersist (encodeRaftState rf) (zeroRaft n self (persister rf))) = logs rf)
    as Hlogs by (unfold pstate in Hp; by simplify_eq).
  rewrite Hlogs. unfold len. destruct (logs rf) eqn:E; [done|]. simpl.
  exact Hp.
Qed.

Lemma Make_pristine rf n self :
  pristine rf → pstate (Make n self (persister rf)) = pstate rf.
Proof.
  intros [Hr Hp]. rewrite Hp. unfold Make, ReadRaftState. by rewrite Hr.
Qed.

Lemma Make_durable n self : durable (Make n self MakePersister).
Proof. by right. Qed.

Lemma run_durable ops rf rf' : run ops rf = Ret rf' → durable rf → durable rf'.
Proof.
  revert rf. induction ops as [|op ops IH]; simpl; intros rf H Hd; go_steps H; [done|].
  eapply IH; [done|]. fwd exec_saves. destruct E; [by eapply frame_durable|by left].
Qed.

End persist.
