(* ===== verification/RaftLog.v ===== *)
(** * Package raft: the shape of the log

    [logs[i]] carries the log index [lastIncludedIndex + i], [logs[0]] is the
    sentinel of the last snapshot, and exactly a leader has a [leaderPtr].  Every
    step keeps this, and under the conditions in which the program takes it no
    step indexes outside the log or dereferences a nil [leaderPtr]. *)

From S2P Require Import Prelude Gob Raft RaftStep.

Section indexed.
Context {Cmd : Type}.
Implicit Types (ls es : list (LogEntry Cmd)) (e : LogEntry Cmd) (start : Z).

(** consecutive log indices from [start] *)
Definition indexed start ls : Prop :=
  ∀ i e, ls !! i = Some e → LogIndex e = start + Z.of_nat i.

Lemma indexed_nil start : indexed start [].
Proof. by intros i e. Qed.

Lemma indexed_app start ls es :
  indexed start ls → indexed (start + len ls) es → indexed start (ls ++ es).
Proof.
  intros H1 H2 i e [Hi|[Hlen Hi]]%lookup_app_Some; [by apply H1|].
  apply H2 in Hi. unfold len in *. lia.
Qed.

Lemma indexed_app_inv start ls es :
  indexed start (ls ++ es) → indexed start ls ∧ indexed (start + len ls) es.
Proof.
  intros H. split.
  - intros i e Hi. apply H. by apply lookup_app_l_Some.
  - intros i e Hi. specialize (H (length ls + i)%nat e).
    rewrite lookup_app_r in H by lia. replace (length ls + i - length ls)%nat with i in H by lia.
    unfold len. rewrite H by done. lia.
Qed.

Lemma indexed_take n start ls : indexed start ls → indexed start (take n ls).
Proof. intros H i e [Hi _]%lookup_take_Some. by apply H. Qed.

Lemma indexed_drop n start ls :
  indexed start ls → indexed (start + Z.of_nat n) (drop n ls).
Proof. intros H i e Hi. rewrite lookup_drop in Hi. apply H in Hi. lia. Qed.

Lemma indexed_singleton e : indexed (LogIndex e) [e].
Proof. intros [|i] e'; simpl; intros; simplify_eq; lia. Qed.

Lemma indexed_replace_head e e' start ls :
  LogIndex e' = LogIndex e → indexed start (e :: ls) → indexed start (e' :: ls).
Proof.
  intros He H [|i] e1; simpl; intros; simplify_eq.
  - rewrite He. by apply (H 0%nat).
  - by apply (H (S i)).
Qed.

(** the last entry of a non-empty log *)
Lemma indexed_last start ls :
  indexed start ls → ls ≠ [] →
  ∃ e, last ls = Some e ∧ idx ls (len ls - 1) = Ret e ∧ LogIndex e = start + len ls - 1.
Proof.
  intros H Hne. destruct (last_is_Some ls) as [_ Hl]. destruct (Hl Hne) as [e He].
  exists e. split; [done|]. rewrite last_lookup in He.
  assert (0 < length ls)%nat by (destruct ls; simpl; [done|lia]).
  split; [|rewrite (H _ _ He); unfold len; lia].
  apply idx_Ret. unfold len. split; [lia|].
  by replace (Z.to_nat (Z.of_nat (length ls) - 1)) with (pred (length ls)) by lia.
Qed.
End indexed.

Section wf.
Context {Cmd : Type} `{!GobCodec Z} `{!GobCodec (list (LogEntry Cmd))}.
Implicit Types (rf : Raft Cmd) (es : list (LogEntry Cmd)).

Record raft_wf rf : Prop := {
  wf_nonempty : logs rf ≠ [];
  wf_indexed : indexed (lastIncludedIndex rf) (logs rf);
  wf_sentinel : ∀ e, logs rf !! 0%nat = Some e → LogTerm e = lastIncludedTerm rf;
  wf_commit : lastIncludedIndex rf ≤ commitIndex rf;
  wf_peers : 0 ≤ peers rf;
  wf_leader :
    match role rf with
    | LEADER => ∃ l, leaderPtr rf = Some l
                     ∧ len (nextIndexs l) = peers rf ∧ len (matchIndexs l) = peers rf
    | FOLLOWER | CANDICATE => leaderPtr rf = None
    end;
}.

(** the index of the last entry *)
Definition lastLogIndex rf : Z := lastIncludedIndex rf + len (logs rf) - 1.

(** What the messages and indices given to a step satisfy:
    - the entries of an AppendEntries carry consecutive indices after
      [PrevLogIndex], and an AppendEntries that starts at the follower's snapshot
      carries the snapshot's term;
    - the service takes a snapshot up to an index that is committed and in the log;
    - a replication goroutine has an index of [peers[]], and the entries that a
      reply of the leader's term is about are not empty and in the leader's log.
    Nothing is asked of the role of the peer: see [leads]. *)
Definition op_pre (op : RaftOp Cmd) rf : Prop :=
  match op with
  | OpAppendEntries args =>
      ∀ es, Entries args = Some es →
        indexed (PrevLogIndex args + 1) es
        ∧ (PrevLogIndex args = lastIncludedIndex rf → PrevLogTerm args = lastIncludedTerm rf)
  | OpTakeSnapshot _ li => li ≤ commitIndex rf ∧ li ≤ lastLogIndex rf
  | OpHeartBeat peer | OpAppendArgs peer => 0 ≤ peer < peers rf
  | OpAppendReply peer args (Replied _) =>
      0 ≤ peer < peers rf
      ∧ (currentTerm rf = LeaderTerm args → role rf = LEADER →
         ∀ es, Entries args = Some es →
           es ≠ [] ∧ indexed (PrevLogIndex args + 1) es
           ∧ PrevLogIndex args + len es ≤ lastLogIndex rf)
  | OpSnapshotReply peer _ (Replied _) => 0 ≤ peer < peers rf
  | _ => True
  end.

(** The peer still leads when a replication goroutine uses [rf.leaderPtr]: the
    goroutine tests the role in [HeartBeatToServer], releases the lock, and takes
    it again in [doAppendEntriesRPC]; after the RPC it tests the term, not the
    role.  The program does not ensure this. *)
Definition leads (op : RaftOp Cmd) rf : Prop :=
  match op with
  | OpAppendArgs _ => role rf = LEADER
  | OpAppendReply _ args (Replied _) => currentTerm rf = LeaderTerm args → role rf = LEADER
  | OpSnapshotReply _ args (Replied _) => currentTerm rf = is_Term args → role rf = LEADER
  | _ => True
  end.

Lemma wp_getLastLog rf Q :
  raft_wf rf → (∀ e, last (logs rf) = Some e → LogIndex e = lastLogIndex rf → Q e) →
  wp (getLastLog rf) Q.
Proof.
  intros [Hne Hix _ _ _ _] HQ. destruct (indexed_last _ _ Hix Hne) as (e & Hl & He & Hi).
  unfold getLastLog. rewrite He. simpl. by apply HQ.
Qed.

(** an index between the snapshot and the last entry *)
Lemma wp_logAt rf i Q :
  raft_wf rf → lastIncludedIndex rf ≤ i ≤ lastLogIndex rf →
  (∀ e, logs rf !! Z.to_nat (i - lastIncludedIndex rf) = Some e → LogIndex e = i → Q e) →
  wp (idx (logs rf) (logIndex2LogPos rf i)) Q.
Proof.
  unfold lastLogIndex, logIndex2LogPos. intros Hwf Hi HQ.
  apply wp_idx; [lia|]. intros e He. apply HQ; [done|].
  apply (wf_indexed _ Hwf) in He. lia.
Qed.

(** [raft_wf] depends on these fields only *)
Lemma raft_wf_ext rf rf' :
  logs rf' = logs rf → lastIncludedIndex rf' = lastIncludedIndex rf →
  lastIncludedTerm rf' = lastIncludedTerm rf → commitIndex rf' = commitIndex rf →
  peers rf' = peers rf → role rf' = role rf → leaderPtr rf' = leaderPtr rf →
  raft_wf rf → raft_wf rf'.
Proof.
  intros E1 E2 E3 E4 E5 E6 E7 []. split; rewrite ?E1, ?E2, ?E3, ?E4, ?E5, ?E6, ?E7; auto.
Qed.

Lemma becomeFollower_fields t rf :
  let rf' := becomeFollower t rf in
  currentTerm rf' = t ∧ votedFor rf' = -1 ∧ role rf' = FOLLOWER ∧ leaderPtr rf' = None
  ∧ logs rf' = logs rf ∧ lastIncludedIndex rf' = lastIncludedIndex rf
  ∧ lastIncludedTerm rf' = lastIncludedTerm rf
  ∧ lastIncludedCmdIndex rf' = lastIncludedCmdIndex rf
  ∧ commitIndex rf' = commitIndex rf ∧ lastApplied rf' = lastApplied rf
  ∧ applyChan rf' = applyChan rf ∧ peers rf' = peers rf ∧ me rf' = me rf
  ∧ heartBeatCh rf' = heartBeatCh rf ∧ snapshot (persister rf') = snapshot (persister rf).
Proof. simpl. unfold becomeFollower. by destruct (decide _) as [E|E]; repeat split. Qed.

Lemma becomeFollower_wf t rf : raft_wf rf → raft_wf (becomeFollower t rf).
Proof.
  intros [].
  destruct (becomeFollower_fields t rf) as (?&?&Hr&Hl&E1&E2&E3&?&E4&?&?&E5&?).
  split; rewrite ?Hr, ?Hl, ?E1, ?E2, ?E3, ?E4, ?E5; auto.
Qed.


Create HintDb wf.
#[local] Hint Resolve becomeFollower_wf : wf.

#[local] Ltac same_wf := eapply raft_wf_ext; [..|eassumption]; done.

Lemma wp_sendHeartBeat rf (Q : Raft Cmd → Prop) :
  Q (set_heartBeatCh (heartBeatCh rf + 1) rf) → wp (sendHeartBeat rf) Q.
Proof. unfold sendHeartBeat. by case_match. Qed.

Lemma wp_recvHeartBeat rf (Q : Raft Cmd → Prop) :
  Q (set_heartBeatCh (heartBeatCh rf - 1) rf) → wp (recvHeartBeat rf) Q.
Proof. unfold recvHeartBeat. by case_match. Qed.

(** [applyEntry] sends at most one message and changes nothing else *)
Lemma wp_applyEntry i rf (Q : Raft Cmd → Prop) :
  raft_wf rf → lastIncludedIndex rf ≤ i ≤ lastLogIndex rf →
  (∀ msgs, Q (set_applyChan (applyChan rf ++ msgs) rf)) → wp (applyEntry i rf) Q.
Proof.
  intros Hwf Hi HQ. apply wp_bind, wp_logAt; [done..|]. intros e _ _. simpl.
  destruct (IsInternalLog e); [|apply HQ].
  specialize (HQ []). rewrite app_nil_r in HQ. by destruct rf.
Qed.

Lemma wp_followerCommit lc n i rf :
  raft_wf rf → lastIncludedIndex rf < i → wp (followerCommit lc n i rf) raft_wf.
Proof.
  revert i rf. induction n as [|n IH]; intros i rf Hwf Hi; simpl; [done|].
  apply wp_bind, wp_getLastLog; [done|]. intros e _ He.
  destruct ((i <=? lc) && (i <=? LogIndex e)) eqn:Ei; [|done].
  apply wp_bind, wp_applyEntry; [done|lia|]. intros msgs.
  apply IH; simpl; [|lia]. destruct Hwf. split; simpl; auto; lia.
Qed.

Lemma wp_AppendEntries_commit args rf :
  raft_wf rf → wp (AppendEntries_commit args rf) raft_wf.
Proof.
  intros Hwf. unfold AppendEntries_commit. case_match; [|done].
  apply wp_followerCommit; [done|]. pose proof (wf_commit _ Hwf). lia.
Qed.

Lemma wp_firstIndexOfTerm (ls : list (LogEntry Cmd)) xterm n i :
  0 ≤ i → i + Z.of_nat n ≤ len ls →
  wp (firstIndexOfTerm ls xterm n i) (λ _, True).
Proof.
  revert i. induction n as [|n IH]; intros i Hi Hn; simpl; [done|].
  apply wp_bind, wp_idx; [lia|]. intros e _. case_match; [done|]. apply IH; lia.
Qed.

Lemma wf_keep rf ls :
  raft_wf rf → ls ≠ [] → indexed (lastIncludedIndex rf) ls →
  ls !! 0%nat = logs rf !! 0%nat → raft_wf (set_logs ls rf).
Proof. intros [] ? ? E. split; simpl; auto. intros e. rewrite E. auto. Qed.

Lemma wf_persist rf : raft_wf rf → raft_wf (persist rf).
Proof. intros. same_wf. Qed.

(** the log of a follower that accepts [es] after index [prev] *)
Lemma wf_accept rf prev es :
  raft_wf rf → lastIncludedIndex rf ≤ prev ≤ lastLogIndex rf → indexed (prev + 1) es →
  raft_wf (set_logs (take (Z.to_nat (logIndex2LogPos rf prev + 1)) (logs rf) ++ es) rf).
Proof.
  unfold logIndex2LogPos, lastLogIndex. intros Hwf Hp Hes.
  pose proof (wf_nonempty _ Hwf) as Hne. pose proof (wf_indexed _ Hwf) as Hix.
  apply wf_keep; [done|..].
  - destruct (logs rf); [done|].
    replace (Z.to_nat _) with (S (Z.to_nat (prev - lastIncludedIndex rf))) by lia. done.
  - apply indexed_app; [by apply indexed_take|].
    replace (_ + len _) with (prev + 1); [done|]. unfold len in *. rewrite length_take. lia.
  - rewrite lookup_app_l; [rewrite lookup_take_lt; [done|lia]|].
    rewrite length_take. destruct (logs rf); simpl; [done|lia].
Qed.

Lemma wf_truncate rf prev :
  raft_wf rf → lastIncludedIndex rf < prev →
  raft_wf (set_logs (take (Z.to_nat (logIndex2LogPos rf prev)) (logs rf)) rf).
Proof.
  unfold logIndex2LogPos. intros Hwf Hp. pose proof (wf_nonempty _ Hwf).
  apply wf_keep; [done|..].
  - destruct (logs rf); [done|].
    replace (Z.to_nat _) with (S (Z.to_nat (prev - lastIncludedIndex rf - 1))) by lia. done.
  - apply indexed_take, wf_indexed, Hwf.
  - apply lookup_take_lt. lia.
Qed.

Lemma wp_AppendEntries args rf :
  raft_wf rf → op_pre (OpAppendEntries args) rf →
  wp (AppendEntries args rf) (λ r, raft_wf (fst r)).
Proof.
  intros Hwf Hpre. unfold AppendEntries, AppendEntries_entries. cbv zeta. case_match; [done|].
  pose proof (becomeFollower_wf (LeaderTerm args) _ Hwf) as Hwf1.
  destruct (becomeFollower_fields (LeaderTerm args) rf) as (_&_&_&_&_&El&Et&_).
  simpl in El, Et. set (rf1 := becomeFollower _ _) in *.
  assert (∀ rf2 Q, raft_wf rf2 → lastIncludedIndex rf2 = lastIncludedIndex rf →
    lastIncludedTerm rf2 = lastIncludedTerm rf →
    (∀ rf2, raft_wf rf2 → lastIncludedIndex rf2 = lastIncludedIndex rf →
      lastIncludedTerm rf2 = lastIncludedTerm rf → Q rf2) →
    wp (match role rf with FOLLOWER | CANDICATE => sendHeartBeat rf2 | LEADER => Ret rf2 end) Q)
    as Hsend.
  { intros rf2 Q Hwf2 ? ? HQ.
    destruct (role rf); try (by apply HQ); apply wp_sendHeartBeat, HQ; try done; same_wf. }
  apply wp_bind, Hsend; [done..|]. clear Hsend Hwf1 El Et. intros rf2 Hwf2 El Et.
  destruct (Entries args) as [es|] eqn:Ees.
  2: { apply wp_bind. eapply wp_mono; [by apply wp_AppendEntries_commit|done]. }
  destruct (Hpre es Ees) as [Hes Hsn].
  destruct (Z.ltb_spec (PrevLogIndex args) (lastIncludedIndex rf2)); [done|].
  apply wp_bind, wp_getLastLog; [done|]. intros e _ He.
  destruct (Z.leb_spec (PrevLogIndex args) (LogIndex e)); [|done].
  apply wp_bind, wp_logAt; [done|lia|]. intros e1 Hlk He1.
  unfold lastLogIndex, logIndex2LogPos in *.
  destruct (Z.eqb_spec (LogTerm e1) (PrevLogTerm args)).
  - apply wp_bind, wp_slice_to; [lia|].
    apply wp_bind. eapply wp_mono; [apply wp_AppendEntries_commit|done].
    apply wf_persist, wf_accept; try done. unfold lastLogIndex. lia.
  - apply wp_bind. eapply wp_mono; [apply wp_firstIndexOfTerm; lia|]. intros xi _.
    apply wp_bind, wp_slice_to; [lia|]. simpl.
    apply wf_persist, wf_truncate; [done|].
    destruct (decide (PrevLogIndex args = lastIncludedIndex rf)) as [Heq|]; [|lia].
    rewrite Heq, El, Z.sub_diag in Hlk. apply (wf_sentinel _ Hwf2) in Hlk.
    rewrite Hsn in * by done. congruence.
Qed.


Lemma wp_RequestVote_read args rf :
  raft_wf rf → wp (RequestVote_read args rf) (λ r, raft_wf (fst r)).
Proof.
  intros Hwf. unfold RequestVote_read. cbv zeta.
  assert (raft_wf (if currentTerm rf <? CandicateTerm args
                   then becomeFollower (CandicateTerm args) rf else rf))
    by (case_match; auto with wf).
  apply wp_bind, wp_getLastLog; done.
Qed.

Lemma wp_RequestVote_grant args v rf :
  raft_wf rf → wp (RequestVote_grant args v rf) (λ r, raft_wf (fst r)).
Proof.
  intros Hwf. unfold RequestVote_grant. repeat case_match; try done.
  apply wp_bind, wp_sendHeartBeat. simpl. apply wf_persist. same_wf.
Qed.

Lemma wf_logAt_pos rf i e :
  raft_wf rf → lastIncludedIndex rf ≤ i →
  logs rf !! Z.to_nat (i - lastIncludedIndex rf) = Some e → LogIndex e = i.
Proof. intros Hwf ? He. apply (wf_indexed _ Hwf) in He. lia. Qed.

Lemma drop_head {A} (l : list A) n x :
  l !! n = Some x → drop n l = x :: drop (S n) l.
Proof. intros. by rewrite (drop_S _ x). Qed.

(** the log kept after a snapshot at [i]: the entry at [i] becomes the sentinel *)
Lemma indexed_compact rf i e e' :
  raft_wf rf → lastIncludedIndex rf ≤ i →
  logs rf !! Z.to_nat (i - lastIncludedIndex rf) = Some e → LogIndex e' = LogIndex e →
  indexed i (<[0%nat := e']> (drop (Z.to_nat (i - lastIncludedIndex rf)) (logs rf))).
Proof.
  intros Hwf Hi He Hix. rewrite (drop_head _ _ _ He). simpl.
  apply (indexed_replace_head e); [done|]. rewrite <-(drop_head _ _ _ He).
  replace i with (lastIncludedIndex rf + Z.of_nat (Z.to_nat (i - lastIncludedIndex rf))) at 1
    by lia.
  apply indexed_drop, wf_indexed, Hwf.
Qed.

Lemma wp_TakeSnapshot snap li rf :
  raft_wf rf → op_pre (OpTakeSnapshot snap li) rf → wp (TakeSnapshot snap li rf) raft_wf.
Proof.
  intros Hwf [Hc Hl]. unfold TakeSnapshot.
  destruct (Z.leb_spec li (lastIncludedIndex rf)); [done|]. cbv zeta.
  apply wp_bind, wp_logAt; [done|lia|]. intros e He Hie. simpl.
  unfold lastLogIndex, logIndex2LogPos in *.
  apply wp_bind, wp_slice_from; [lia|].
  rewrite (drop_head _ _ _ He). simpl.
  pose proof (indexed_compact rf li e (mkLogEntry (LogTerm e) (LogIndex e) None
    (CommandIndex e) (IsInternalLog e)) Hwf ltac:(lia) He eq_refl) as Hix.
  rewrite (drop_head _ _ _ He) in Hix. destruct Hwf.
  split; simpl; try done. intros e0 [= <-]. done.
Qed.

Lemma wp_InstallSnapshot_logs args rf :
  raft_wf rf → lastIncludedIndex rf < is_LastIncludedIndex args →
  wp (InstallSnapshot_logs args rf) (λ ls,
    ls ≠ [] ∧ indexed (is_LastIncludedIndex args) ls
    ∧ ∀ e, ls !! 0%nat = Some e → LogTerm e = is_LastIncludedTerm args).
Proof.
  intros Hwf Hi. unfold InstallSnapshot_logs. cbv zeta.
  assert (∀ t i c, indexed (Cmd:=Cmd) i [sentinel t i c]) as Hsen
    by (intros; apply (indexed_singleton (sentinel t i c))).
  apply wp_bind, wp_getLastLog; [done|]. intros l _ Hl.
  destruct (Z.ltb_spec (is_LastIncludedIndex args) (LogIndex l)) as [Hlt|];
    [|by split_and!; [..|intros ? [= <-]]].
  apply wp_bind, wp_logAt; [done|lia|]. intros e He Hie.
  destruct (Z.eqb_spec (LogTerm e) (is_LastIncludedTerm args)) as [Ht|];
    [|by split_and!; [..|intros ? [= <-]]].
  unfold lastLogIndex, logIndex2LogPos in *.
  apply wp_bind, wp_slice_from; [lia|].
  replace (_ - _ + 1) with
    (len (drop (Z.to_nat (is_LastIncludedIndex args - lastIncludedIndex rf)) (logs rf)))
    by (unfold len in *; rewrite length_drop; lia).
  rewrite make_copy_exact. simpl. rewrite (drop_head _ _ _ He). simpl.
  split_and!; [done| |by intros ? [= <-]].
  pose proof (indexed_compact rf (is_LastIncludedIndex args) e (mkLogEntry (LogTerm e) (LogIndex e) None
    (CommandIndex e) true) Hwf ltac:(lia) He eq_refl) as Hix.
  by rewrite (drop_head _ _ _ He) in Hix.
Qed.

Lemma wp_InstallSnapshot args rf :
  raft_wf rf → wp (InstallSnapshot args rf) (λ r, raft_wf (fst r)).
Proof.
  intros Hwf. unfold InstallSnapshot. cbv zeta. case_match; [done|].
  match goal with |- wp (if _ <=? lastIncludedIndex ?r then _ else _) _ =>
    assert (raft_wf r) as Hwf1 by (case_match; auto with wf);
    generalize dependent r end.
  intros rf1 [].
  destruct (Z.leb_spec (is_LastIncludedIndex args) (lastIncludedIndex rf1)); [by split|].
  apply wp_bind. eapply wp_mono; [by apply wp_InstallSnapshot_logs|].
  intros ls (Hne & Hix & Ht). split; simpl; auto. lia.
Qed.

Lemma startHeartBeats_wf rf : raft_wf rf → raft_wf (startHeartBeats rf).
Proof.
  unfold startHeartBeats. generalize (seq 0 (Z.to_nat (peers rf))). intros ps.
  revert rf. induction ps as [|p ps IH]; simpl; intros rf Hwf; [done|].
  apply IH. case_match; [done|]. same_wf.
Qed.

Lemma wp_becomeLeader rf : raft_wf rf → wp (becomeLeader rf) raft_wf.
Proof.
  intros Hwf. unfold becomeLeader. apply wp_bind, wp_getLastLog; [done|].
  intros e He Hi. cbv zeta. apply startHeartBeats_wf, wf_persist.
  pose proof (wf_nonempty _ Hwf). pose proof (wf_peers _ Hwf).
  unfold lastLogIndex in *. destruct Hwf. split; simpl; auto.
  - by destruct (logs rf).
  - apply indexed_app; [done|]. replace (_ + len _) with (LogIndex e + 1) by lia.
    apply (indexed_singleton (mkLogEntry _ (LogIndex e + 1) _ _ _)).
  - destruct (logs rf); [done|exact wf_sentinel0].
  - eexists. split; [done|]. simpl. unfold len. rewrite !length_replicate. lia.
Qed.

Lemma wp_StartElection_begin rf :
  raft_wf rf → wp (StartElection_begin rf) (λ o, raft_wf (from_option fst rf o)).
Proof.
  intros Hwf. unfold StartElection_begin. case_decide; [done|]. cbv zeta.
  match goal with |- wp (mbind _ (getLastLog ?r)) _ => assert (raft_wf r) as Hwf1 end.
  { destruct Hwf. split; simpl; auto. by destruct (role rf). }
  apply wp_bind, wp_getLastLog; [done|]. intros e _ _. exact Hwf1.
Qed.

Lemma wp_leader rf Q :
  raft_wf rf → role rf = LEADER →
  (∀ l, leaderPtr rf = Some l → len (nextIndexs l) = peers rf →
        len (matchIndexs l) = peers rf → Q l) →
  wp (leader rf) Q.
Proof.
  intros Hwf Hr HQ. pose proof (wf_leader _ Hwf) as Hl. rewrite Hr in Hl.
  destruct Hl as (l & Hl & ? & ?). unfold leader. rewrite Hl. by apply HQ.
Qed.

Lemma wf_set_leader rf l' :
  raft_wf rf → role rf = LEADER → len (nextIndexs l') = peers rf →
  len (matchIndexs l') = peers rf → raft_wf (set_leaderPtr (Some l') rf).
Proof. intros [] Hr ? ?. split; simpl; auto. rewrite Hr. eauto. Qed.

Lemma wp_setNextIndex peer v rf (Q : Raft Cmd → Prop) :
  raft_wf rf → role rf = LEADER → 0 ≤ peer < peers rf →
  (∀ l, raft_wf (set_leaderPtr (Some l) rf) → Q (set_leaderPtr (Some l) rf)) →
  wp (setNextIndex peer v rf) Q.
Proof.
  intros Hwf Hr Hp HQ. apply wp_bind, wp_leader; [done..|]. intros l Hl Hn Hm.
  apply wp_bind, wp_upd; [lia|]. apply HQ, wf_set_leader; try done.
  unfold len in *. simpl. by rewrite length_insert.
Qed.

Lemma wp_setMatchIndex peer v rf (Q : Raft Cmd → Prop) :
  raft_wf rf → role rf = LEADER → 0 ≤ peer < peers rf →
  (∀ l, raft_wf (set_leaderPtr (Some l) rf) → Q (set_leaderPtr (Some l) rf)) →
  wp (setMatchIndex peer v rf) Q.
Proof.
  intros Hwf Hr Hp HQ. apply wp_bind, wp_leader; [done..|]. intros l Hl Hn Hm.
  apply wp_bind, wp_upd; [lia|]. apply HQ, wf_set_leader; try done.
  unfold len in *. simpl. by rewrite length_insert.
Qed.


Lemma wp_countReplicas ms peer self i n j cnt :
  0 ≤ j → j + Z.of_nat n ≤ len ms →
  wp (countReplicas ms peer self i n j cnt) (λ _, True).
Proof.
  revert j cnt. induction n as [|n IH]; intros j cnt Hj Hn; simpl; [done|].
  case_match; [apply IH; lia|]. apply wp_bind, wp_idx; [lia|]. intros m _. apply IH; lia.
Qed.

Lemma wp_leaderApply n k rf :
  raft_wf rf → lastIncludedIndex rf < k → k + Z.of_nat n - 1 ≤ lastLogIndex rf →
  wp (leaderApply n k rf) (λ rf', ∃ msgs, rf' = set_applyChan (applyChan rf ++ msgs) rf).
Proof.
  revert k rf. induction n as [|n IH]; intros k rf Hwf Hk Hn; simpl.
  { exists []. rewrite app_nil_r. by destruct rf. }
  apply wp_bind, wp_applyEntry; [done|lia|]. intros msgs.
  eapply wp_mono; [apply IH|].
  - same_wf.
  - simpl. lia.
  - unfold lastLogIndex in *. simpl. lia.
  - intros rf' [msgs' ->]. exists (msgs ++ msgs'). simpl. by rewrite app_assoc.
Qed.

Lemma wp_leaderCommit peer n i rf :
  raft_wf rf → role rf = LEADER → commitIndex rf = i - Z.of_nat n →
  i ≤ lastLogIndex rf → wp (leaderCommit peer n i rf) raft_wf.
Proof.
  intros Hwf Hr. revert i. induction n as [|n IH]; intros i Hc Hi; simpl; [done|].
  pose proof (wf_commit _ Hwf). pose proof (wf_peers _ Hwf).
  apply wp_bind, wp_logAt; [done|lia|]. intros e _ _. case_match; [|done].
  apply wp_bind, wp_leader; [done..|]. intros l Hl Hn Hm.
  apply wp_bind. eapply wp_mono; [apply wp_countReplicas; lia|]. intros cnt _.
  case_match; [|apply IH; lia].
  apply wp_bind. eapply wp_mono; [apply wp_leaderApply; [done|lia|lia]|].
  intros rf' [msgs ->]. destruct Hwf. split; simpl; auto. lia.
Qed.

Lemma wp_replicationSucceeded peer start es rf :
  raft_wf rf → role rf = LEADER → 0 ≤ peer < peers rf →
  es ≠ [] → indexed (start + 1) es → start + len es ≤ lastLogIndex rf →
  wp (replicationSucceeded peer es rf) raft_wf.
Proof.
  intros Hwf Hr Hp Hne Hix Hl. unfold replicationSucceeded.
  destruct (indexed_last _ _ Hix Hne) as (e & _ & -> & He). simpl.
  apply wp_bind, wp_setNextIndex; [done..|]. intros l1 Hwf1.
  apply wp_bind, wp_setMatchIndex; [done..|]. intros l2 Hwf2.
  case_match; [|done]. apply wp_leaderCommit; try done.
  - simpl in *. lia.
  - unfold lastLogIndex in *. simpl in *. lia.
Qed.

Lemma wp_findXterm reply n i rf :
  raft_wf rf → i ≤ lastLogIndex rf → Z.of_nat n = i - lastIncludedIndex rf + 1 →
  wp (findXterm reply n i rf) (λ _, True).
Proof.
  intros Hwf. revert i. induction n as [|n IH]; intros i Hi Hn; simpl; [done|].
  apply wp_bind, wp_logAt; [done|lia|]. intros e _ _.
  case_match; [done|]. case_match; [done|]. apply IH; lia.
Qed.

Lemma wp_backUp peer reply rf :
  raft_wf rf → role rf = LEADER → 0 ≤ peer < peers rf →
  wp (backUp peer reply rf) raft_wf.
Proof.
  intros Hwf Hr Hp. unfold backUp. case_match; [by apply wp_setNextIndex|].
  assert (0 < len (logs rf)).
  { pose proof (wf_nonempty _ Hwf). unfold len. destruct (logs rf); simpl; [done|lia]. }
  apply wp_bind, wp_getLastLog; [done|]. intros e _ He.
  apply wp_bind, wp_idx; [lia|]. intros e0 He0. apply (wf_indexed _ Hwf) in He0.
  apply wp_bind. eapply wp_mono; [apply wp_findXterm; [done|lia|]|].
  - unfold lastLogIndex in *. lia.
  - intros [v|] _; [by apply wp_setNextIndex|done].
Qed.

Lemma wp_doAppendEntriesRPC_args peer rf :
  raft_wf rf → op_pre (OpAppendArgs peer) rf → role rf = LEADER →
  wp (doAppendEntriesRPC_args peer rf) (λ _, True).
Proof.
  intros Hwf Hp Hr. simpl in Hp. unfold doAppendEntriesRPC_args.
  apply wp_bind, wp_getLastLog; [done|]. intros e _ He.
  apply wp_bind, wp_leader; [done..|]. intros l Hl Hn Hm.
  apply wp_bind, wp_idx; [lia|]. intros next _.
  destruct (Z.leb_spec next (LogIndex e)); [|done].
  destruct (Z.leb_spec next (lastIncludedIndex rf)); [done|]. cbv zeta.
  unfold lastLogIndex, logIndex2LogPos in *.
  apply wp_bind, wp_idx; [lia|]. intros prev _. by apply wp_bind, wp_slice_from; [lia|].
Qed.

Lemma wp_doAppendEntriesRPC_reply peer args result rf :
  raft_wf rf → op_pre (OpAppendReply peer args result) rf →
  leads (OpAppendReply peer args result) rf →
  wp (doAppendEntriesRPC_reply peer args result rf) (λ r, raft_wf (fst r)).
Proof.
  intros Hwf Hpre Hld. destruct result as [| |reply]; [done..|].
  destruct Hpre as [Hp Hpre]. simpl in Hld.
  simpl. destruct (Success reply).
  - case_decide as Ht; [|done]. pose proof (Hld Ht) as Hr. pose proof (Hpre Ht Hr) as Hes. case_match.
    + destruct (Hes _ eq_refl) as (? & ? & ?).
      apply wp_bind. by eapply wp_mono; [eapply wp_replicationSucceeded|].
    + apply wp_bind, wp_leader; [done..|]. intros l Hl Hn Hm.
      apply wp_bind, wp_idx; [lia|]. intros next _. by apply wp_bind, wp_getLastLog.
  - case_match; [by apply becomeFollower_wf|]. case_decide as Ht; [|done].
    apply wp_bind. by eapply wp_mono; [apply wp_backUp; [..|apply Hld|]|].
Qed.

Lemma wp_doInstallSnapshotRPC_reply peer args result rf :
  raft_wf rf → op_pre (OpSnapshotReply peer args result) rf →
  leads (OpSnapshotReply peer args result) rf →
  wp (doInstallSnapshotRPC_reply peer args result rf) (λ r, raft_wf (fst r)).
Proof.
  intros Hwf Hp Hr. destruct result as [| |reply]; [done..|].
  simpl in *. case_decide as Ht; [|done]. specialize (Hr Ht).
  case_match; [by apply becomeFollower_wf|].
  apply wp_bind, wp_setNextIndex; [done..|]. intros l1 Hwf1.
  by apply wp_bind, wp_setMatchIndex.
Qed.

Lemma wp_exec op rf : raft_wf rf → op_pre op rf → leads op rf → wp (exec op rf) raft_wf.
Proof.
  intros Hwf Hpre Hld. destruct op; simpl exec; try apply wp_fmap.
  - by apply wp_RequestVote_read.
  - by apply wp_RequestVote_grant.
  - by apply wp_AppendEntries.
  - by apply wp_InstallSnapshot.
  - by apply wp_TakeSnapshot.
  - unfold Start. case_match; [done|]. case_decide; [|done].
    apply wp_bind, wp_getLastLog; [done|]. intros e _ He. apply wf_persist, wf_keep; [done|..].
    + by destruct (logs rf).
    + apply indexed_app; [apply wf_indexed, Hwf|]. unfold lastLogIndex in He.
      replace (_ + len _) with (LogIndex e + 1) by lia.
      apply (indexed_singleton (mkLogEntry _ (LogIndex e + 1) _ _ _)).
    + pose proof (wf_nonempty _ Hwf). by destruct (logs rf).
  - simpl. same_wf.
  - by apply wp_StartElection_begin.
  - destruct d; simpl; [done|by apply wp_becomeLeader|by apply becomeFollower_wf].
  - apply wp_recvHeartBeat. same_wf.
  - destruct ev; simpl; repeat case_match; try done; try same_wf.
    apply wp_bind, wp_recvHeartBeat. same_wf.
  - unfold HeartBeatToServer. repeat case_match; try done.
    apply wp_bind, wp_leader; [done..|]. intros l Hl Hn Hm.
    by apply wp_bind, wp_idx; [simpl in Hpre; lia|].
  - by eapply wp_mono; [apply wp_doAppendEntriesRPC_args|].
  - by apply wp_doAppendEntriesRPC_reply.
  - by apply wp_doInstallSnapshotRPC_reply.
Qed.

Lemma leader_nil rf : raft_wf rf → role rf ≠ LEADER → leader rf = Panic.
Proof.
  intros Hwf Hr. pose proof (wf_leader _ Hwf). unfold leader.
  by destruct (role rf); [rewrite H..|].
Qed.

(** A step whose peer does not lead any more, though it should, panics, or it
    leaves the state as it is or steps down. *)
Lemma exec_not_leading op rf rf' :
  raft_wf rf → ¬ leads op rf → exec op rf = Ret rf' →
  rf' = rf ∨ ∃ t, rf' = becomeFollower t rf.
Proof.
  intros Hwf Hn H.
  assert (role rf ≠ LEADER) as Hr by (intros Hr; apply Hn; destruct op; simpl; try done; by case_match).
  pose proof (leader_nil rf Hwf Hr) as Hl.
  assert (∀ peer v, setNextIndex peer v rf = Panic) as Hs
    by (intros; unfold setNextIndex; by rewrite Hl).
  destruct op; try (by destruct Hn); simpl in H; go_step H.
  - by left.
  - unfold doAppendEntriesRPC_reply, replicationSucceeded, backUp in *.
    go_steps E; try (by rewrite ?Hl, ?Hs in *); eauto.
    all: go_steps E3; try (by rewrite ?Hl, ?Hs in *); eauto.
  - unfold doInstallSnapshotRPC_reply in *. go_steps E; eauto; by rewrite Hs in *.
Qed.

#[export] Instance leads_dec op rf : Decision (leads op rf).
Proof. destruct op; simpl; try apply _; case_match; apply _. Defined.

(** Every step that returns keeps the shape, whether the peer leads or not. *)
Lemma exec_wf op rf rf' :
  raft_wf rf → op_pre op rf → exec op rf = Ret rf' → raft_wf rf'.
Proof.
  intros Hwf Hpre E. destruct (decide (leads op rf)) as [Hld|Hld].
  - by apply (wp_elim _ _ (wp_exec op rf Hwf Hpre Hld)).
  - destruct (exec_not_leading op rf rf' Hwf Hld E) as [->|[t ->]]; auto with wf.
Qed.

Lemma Make_wf n self : 0 ≤ n → raft_wf (Make n self MakePersister : Raft Cmd).
Proof.
  intros Hn. split; try done; simpl; try lia.
  - by intros [|i] e [= <-].
  - by intros e [= <-].
Qed.

End wf.
