(* ===== verification/RaftSafety.v ===== *)
(** * Package raft: the reachable states of a peer

    [reachable] closes the initial state under the atomic steps (taken under
    [op_pre]) and under crash and restart from the persister. *)

From S2P Require Import Prelude Gob Raft RaftStep RaftPersist RaftLog.

Section reachable.
Context {Cmd : Type} `{!GobCodec Z} `{!GobCodec (list (LogEntry Cmd))}.
Implicit Types rf : Raft Cmd.

Inductive reachable (n self : Z) : Raft Cmd → Prop :=
| reach_init : reachable n self (Make n self MakePersister)
| reach_step rf op rf' :
    reachable n self rf → op_pre op rf → exec op rf = Ret rf' → reachable n self rf'
| reach_restart rf :
    reachable n self rf → reachable n self (Make n self (Copy (persister rf))).

Lemma readPersist_frame data rf :
  let rf' := readPersist data rf in
  persister rf' = persister rf ∧ peers rf' = peers rf ∧ me rf' = me rf
  ∧ role rf' = role rf ∧ leaderPtr rf' = leaderPtr rf.
Proof. simpl. unfold readPersist. by repeat case_match. Qed.

Lemma Make_volatile n self ps :
  let rf := Make (Cmd:=Cmd) n self ps in
  role rf = FOLLOWER ∧ leaderPtr rf = None ∧ peers rf = n
  ∧ persister rf = ps ∧ commitIndex rf = lastIncludedIndex rf
  ∧ lastApplied rf = lastIncludedIndex rf.
Proof.
  unfold Make. simpl.
  pose proof (readPersist_frame (ReadRaftState ps) (zeroRaft n self ps))
    as (Hps & Hn & _ & Hr & Hl).
  by case_match.
Qed.

Lemma Make_restart n self rf :
  durable rf → logs rf ≠ [] →
  let rf' := Make n self (Copy (persister rf)) in pstate rf' = pstate rf ∧ durable rf'.
Proof.
  intros Hd Hl. assert (Copy (persister rf) = persister rf) as -> by by destruct rf as [? []].
  destruct (Make_volatile n self (persister rf)) as (_ & _ & _ & Hp & _).
  destruct Hd as [Hs|Hs].
  - pose proof (Make_saved rf n self Hs Hl) as E. split; [done|]. left. unfold saved.
    apply pstate_inv in E as (Ect & Ev & El & Ei & Et & Ec).
    unfold encodeRaftState. by rewrite Hp, Hs, Ect, Ev, El, Ei, Et, Ec.
  - pose proof (Make_pristine rf n self Hs) as E. split; [done|]. right.
    destruct Hs as [Hs1 Hs2]. split; congruence.
Qed.

Lemma Make_restart_wf n self rf :
  0 ≤ n → durable rf → raft_wf rf → raft_wf (Make n self (Copy (persister rf))).
Proof.
  intros Hn Hd Hwf. destruct (Make_volatile n self (Copy (persister rf)))
    as (Hr & Hl & Hp & _ & Hc & _).
  destruct (Make_restart n self rf Hd (wf_nonempty _ Hwf)) as [Hps _].
  apply pstate_inv in Hps as (_ & _ & El & Ei & Et & _). destruct Hwf.
  split; rewrite ?Hr, ?Hl, ?Hp, ?Hc, ?El, ?Ei, ?Et; auto; lia.
Qed.

Lemma reachable_inv n self rf :
  0 ≤ n → reachable n self rf → raft_wf rf ∧ durable rf.
Proof.
  intros Hn Hrf. induction Hrf as [|rf op rf' _ [Hwf Hd] Hpre E|rf _ [Hwf Hd]].
  - split; [by apply Make_wf|apply Make_durable].
  - split.
    + by eapply exec_wf.
    + destruct (exec_saves _ _ _ E); [by eapply frame_durable|by left].
  - split; [by apply Make_restart_wf|].
    by apply (Make_restart n self rf Hd (wf_nonempty _ Hwf)).
Qed.


(** C2: Whenever a peer crashes between two critical sections and restarts from
    its persister, it comes back as a follower with the term, vote, log and
    snapshot metadata it had, and with its commit index at the snapshot. *)
Theorem crash_recovery n self rf :
  0 ≤ n → reachable n self rf →
  let rf' := Make n self (Copy (persister rf)) in
  pstate rf' = pstate rf ∧ role rf' = FOLLOWER ∧ commitIndex rf' = lastIncludedIndex rf
  ∧ lastApplied rf' = lastIncludedIndex rf ∧ persister rf' = persister rf.
Proof.
  intros Hn Hrf. destruct (reachable_inv _ _ _ Hn Hrf) as [Hwf Hd]. cbv zeta.
  destruct (Make_volatile n self (Copy (persister rf))) as (Hr & _ & _ & Hp & Hc & Ha).
  destruct (Make_restart n self rf Hd (wf_nonempty _ Hwf)) as [Hps _].
  pose proof (pstate_inv _ _ Hps) as (_ & _ & _ & Hi & _).
  assert (Copy (persister rf) = persister rf) by by destruct rf as [? []].
  split_and!; congruence.
Qed.

End reachable.
