(* ===== verification/RaftElection.v ===== *)
(** * Package raft: elections

    What [RequestVote] grants, which steps make a peer forget its vote, and which
    sets of votes the test [getVote >= (len(rf.peers)+1)/2] accepts.  The handler
    releases the lock between its two critical sections: its theorem lets any
    state stand in between. *)

From S2P Require Import Prelude Gob Raft RaftStep RaftPersist RaftLog RaftSafety.

Section votes.
Context {Cmd : Type} `{!GobCodec Z} `{!GobCodec (list (LogEntry Cmd))}.
Implicit Types rf : Raft Cmd.

(** the log of the candidate is at least as up to date as ours *)
Definition upToDate (args : RequestVoteArgs) rf : Prop :=
  ∃ e, last (logs rf) = Some e ∧
    (LogTerm e < LastLogTerm args
     ∨ (LogTerm e = LastLogTerm args ∧ LogIndex e ≤ LastLogIndex args)).

Lemma last_idx {A} (l : list A) x : idx l (len l - 1) = Ret x ↔ last l = Some x.
Proof.
  rewrite idx_Ret, last_lookup. unfold len. destruct l as [|y l].
  - simpl. split; [lia|done].
  - replace (Z.to_nat _) with (pred (length (y :: l))) by (simpl; lia).
    split; [by intros [_ ?]|]. intros ?. split; [simpl; lia|done].
Qed.

Lemma logBehind_spec args rf e v :
  last (logs rf) = Some e → vv_lastLogIdx v = LogIndex e → vv_lastLogTerm v = LogTerm e →
  logBehind args v = false ↔ upToDate args rf.
Proof.
  intros He Hi Ht. unfold logBehind, upToDate. rewrite Hi, Ht. split.
  - intros Hb. exists e. split; [done|]. lia.
  - intros (e' & He' & Hc). rewrite He in He'. simplify_eq. lia.
Qed.

Lemma sendHeartBeat_inv rf rf' :
  sendHeartBeat rf = Ret rf' → rf' = set_heartBeatCh (heartBeatCh rf + 1) rf.
Proof. unfold sendHeartBeat. by case_match; intros [= <-]. Qed.

Lemma RequestVote_read_inv args rf rf1 v :
  RequestVote_read args rf = Ret (rf1, v) →
  ∃ e, last (logs rf) = Some e ∧ vv_lastLogIdx v = LogIndex e ∧ vv_lastLogTerm v = LogTerm e
    ∧ vv_curTerm v = currentTerm rf1 ∧ vv_curRole v = role rf1
    ∧ (currentTerm rf < CandicateTerm args ∧ rf1 = becomeFollower (CandicateTerm args) rf
       ∨ CandicateTerm args ≤ currentTerm rf ∧ rf1 = rf).
Proof.
  unfold RequestVote_read. cbv zeta. intros H. go_step H. apply last_idx in E.
  injection H as <- <-. simpl. exists a. split_and!; try done; revert E.
  - case_match; [|done]. by destruct (becomeFollower_fields (CandicateTerm args) rf)
      as (_ & _ & _ & _ & -> & _).
  - intros _. destruct (Z.ltb_spec (currentTerm rf) (CandicateTerm args)); auto.
Qed.

(** C3: [RequestVote] runs in two critical sections, the first in state [rf], the
    second in any state [rf2] that other handlers and goroutines may have left.
    The vote is granted exactly when in the first section the candidate's term was
    not behind, its log was at least as up to date as the voter's, and the voter
    followed (or joined the candidate's newer term), and in the second section the
    vote was free or already the candidate's.  A granted vote is recorded and saved
    before the answer, in the term of the second section: the candidate's term if
    the term has not changed in between.  A refusal changes nothing. *)
Theorem RequestVote_granted args rf rf1 v rf2 rf' reply :
  RequestVote_read args rf = Ret (rf1, v) →
  RequestVote_grant args v rf2 = Ret (rf', reply) →
  (VoteGranted reply = true ↔
     currentTerm rf ≤ CandicateTerm args ∧ upToDate args rf
     ∧ (currentTerm rf < CandicateTerm args ∨ role rf = FOLLOWER)
     ∧ (votedFor rf2 = -1 ∨ votedFor rf2 = CandicateId args))
  ∧ (VoteGranted reply = true →
     votedFor rf' = CandicateId args ∧ currentTerm rf' = currentTerm rf2 ∧ saved rf'
     ∧ (currentTerm rf2 = currentTerm rf1 → currentTerm rf' = CandicateTerm args))
  ∧ (VoteGranted reply = false → rf' = rf2).
Proof.
  intros (e & He & Hi & Ht & Hct & Hcr & Hrf1)%RequestVote_read_inv H.
  pose proof (logBehind_spec args rf e v He Hi Ht) as Hb.
  unfold RequestVote_grant in H. rewrite Hct, Hcr in H.
  assert (currentTerm rf1 ≤ CandicateTerm args ↔ currentTerm rf ≤ CandicateTerm args) as Hle.
  { destruct Hrf1 as [[? ->]|[? ->]]; [|done].
    destruct (becomeFollower_fields (CandicateTerm args) rf) as (-> & _). lia. }
  assert (currentTerm rf1 ≤ CandicateTerm args → currentTerm rf1 = CandicateTerm args) as Heq.
  { destruct Hrf1 as [[? ->]|[? ->]]; [|lia].
    by destruct (becomeFollower_fields (CandicateTerm args) rf) as (-> & _). }
  assert (role rf1 = FOLLOWER ↔ currentTerm rf < CandicateTerm args ∨ role rf = FOLLOWER) as Hr.
  { destruct Hrf1 as [[? ->]|[? ->]].
    - destruct (becomeFollower_fields (CandicateTerm args) rf) as (_ & _ & -> & _). tauto.
    - split; [by right|]. intros [?|?]; [lia|done]. }
  rewrite <-Hle, <-Hb, <-Hr. go_steps H; try fwd sendHeartBeat_inv; subst; simpl in *;
    intuition (first [done | congruence | lia]).
Qed.

(** *** One vote per term *)

#[local] Opaque becomeFollower startHeartBeats.

(** The steps that call [becomeFollower] with a term that is not greater than the
    current one: [AppendEntries] from a leader of the current term, and a late
    reply in [StartElection] or [doAppendEntriesRPC]. *)
Definition takesBack (op : RaftOp Cmd) rf : Prop :=
  match op with
  | OpAppendEntries args => LeaderTerm args = currentTerm rf
  | OpElectionDecide (StepDown term) => term ≤ currentTerm rf
  | OpAppendReply _ args (Replied reply) =>
      Success reply = false ∧ LeaderTerm args < ae_FollowerTerm reply ≤ currentTerm rf
  | _ => False
  end.

#[export] Instance takesBack_dec op rf : Decision (takesBack op rf).
Proof. destruct op; simpl; try apply _; case_match; apply _. Defined.

(** the term grows, or it stays and a vote that was cast stays *)
Definition keepsVote rf rf' : Prop :=
  currentTerm rf < currentTerm rf'
  ∨ (currentTerm rf' = currentTerm rf ∧ (votedFor rf = -1 ∨ votedFor rf' = votedFor rf)).

Lemma frame_keepsVote rf rf' : frame rf rf' → keepsVote rf rf'.
Proof. intros [(Ht & Hv & _)%pstate_inv _]. right. auto. Qed.

Lemma becomeFollower_keepsVote t rf :
  currentTerm rf < t → keepsVote rf (becomeFollower t rf).
Proof.
  intros. left. by destruct (becomeFollower_fields t rf) as (-> & _).
Qed.

Lemma becomeLeader_keepsVote rf rf' : becomeLeader rf = Ret rf' → keepsVote rf rf'.
Proof.
  unfold becomeLeader. intros H. go_steps H.
  destruct (frame_startHeartBeats (persist (set_logs (logs rf ++
    [mkLogEntry (currentTerm rf) (LogIndex a + 1) None (CommandIndex a) true])
    (set_leaderPtr (Some (mkLeader (replicate (Z.to_nat (peers rf)) (LogIndex a + 1))
       (replicate (Z.to_nat (peers rf)) 0))) (set_role LEADER rf)))))
    as [(Ht & Hv & _)%pstate_inv _].
  right. rewrite Ht, Hv. auto.
Qed.

(** the commit loops and [set_logs] leave the vote alone *)
Lemma AppendEntries_keepsVote args rf rf' reply :
  AppendEntries args rf = Ret (rf', reply) → LeaderTerm args ≠ currentTerm rf →
  keepsVote rf rf'.
Proof.
  unfold AppendEntries, AppendEntries_entries. intros H Hne. cbv zeta in H. go_step H; [by go_steps H; right; auto|].
  go_step H. left.
  assert (currentTerm a = LeaderTerm args) as Ht.
  { destruct (becomeFollower_fields (LeaderTerm args) rf) as (<- & _).
    destruct (role rf); try fwd sendHeartBeat_inv; go_steps E0; by subst. }
  clear E0. assert (∀ rf1, AppendEntries_commit args rf1 = Ret rf' →
    currentTerm rf1 = LeaderTerm args → currentTerm rf < currentTerm rf') as Hc.
  { intros rf1 [(Ht1 & _)%pstate_inv _]%frame_AppendEntries_commit ?. lia. }
  go_steps H; simpl in *; try lia; eapply Hc; eauto.
Qed.

Lemma exec_keepsVote op rf rf' : exec op rf = Ret rf' → ¬ takesBack op rf → keepsVote rf rf'.
Proof.
  assert (∀ rf, keepsVote rf rf) as Hrefl by (intros; right; auto).
  destruct op; simpl; intros H Hr; try go_step H; subst.
  - unfold RequestVote_read in *. go_steps E. case_match; [|done].
    apply becomeFollower_keepsVote. lia.
  - unfold RequestVote_grant in *. go_steps E; try done. fwd sendHeartBeat_inv. subst.
    right. simpl. split; [done|]. lia.
  - destruct a. by eapply AppendEntries_keepsVote.
  - unfold InstallSnapshot in *. go_steps E; try done; case_match; try done;
      destruct (becomeFollower_fields (is_Term args) rf) as (Ht & _);
      try (left; simpl; lia); right; simpl; auto.
  - unfold TakeSnapshot in *. go_steps H; [done|]. right. auto.
  - unfold Start in *. go_steps E; try done. right. auto.
  - right. auto.
  - unfold StartElection_begin in *. go_steps E; [done|]. left. simpl. lia.
  - destruct d; simpl in *; go_steps H; [done| |apply becomeFollower_keepsVote; lia].
    by eapply becomeLeader_keepsVote; unfold becomeLeader; simpl.
  - by apply frame_keepsVote, frame_recvHeartBeat.
  - apply frame_keepsVote. destruct ev; simpl in *; go_steps E; try done.
    by fwd frame_recvHeartBeat.
  - done.
  - done.
  - unfold doAppendEntriesRPC_reply in *. go_steps E; try done.
    + by eapply frame_keepsVote, frame_replicationSucceeded.
    + apply becomeFollower_keepsVote. apply Z.nle_gt. intros ?. apply Hr. split; [done|lia].
    + by eapply frame_keepsVote, frame_backUp.
  - unfold doInstallSnapshotRPC_reply in *. go_steps E; try done.
    + apply becomeFollower_keepsVote. lia.
    + apply frame_keepsVote. fwd frame_setNextIndex. fwd frame_setMatchIndex. by etrans.
Qed.

Lemma AppendEntries_takesBack args rf rf' reply :
  AppendEntries args rf = Ret (rf', reply) → LeaderTerm args = currentTerm rf →
  currentTerm rf' = currentTerm rf ∧ votedFor rf' = -1.
Proof.
  unfold AppendEntries, AppendEntries_entries. intros H Heq. cbv zeta in H.
  destruct (Z.ltb_spec (LeaderTerm args) (currentTerm rf)); [lia|]. go_step H.
  assert (currentTerm a = currentTerm rf ∧ votedFor a = -1) as Ha.
  { destruct (becomeFollower_fields (LeaderTerm args) rf) as (Ht & Hv & _).
    destruct (role rf); try fwd sendHeartBeat_inv; go_steps E; subst; simpl; by rewrite Ht, Hv. }
  clear E. assert (∀ rf1, AppendEntries_commit args rf1 = Ret rf' →
    currentTerm rf1 = currentTerm rf ∧ votedFor rf1 = -1 →
    currentTerm rf' = currentTerm rf ∧ votedFor rf' = -1) as Hc.
  { intros rf1 [(Ht1 & Hv1 & _)%pstate_inv _]%frame_AppendEntries_commit ?. by rewrite Ht1, Hv1. }
  go_steps H; simpl in *; try done; eapply Hc; eauto.
Qed.

(** such a step forgets the vote, and does not raise the term *)
Lemma takesBack_forgets op rf rf' :
  exec op rf = Ret rf' → takesBack op rf →
  currentTerm rf' ≤ currentTerm rf ∧ votedFor rf' = -1.
Proof.
  destruct op as [ | |args| | | | | |[| |t]| | | | |peer args [| |reply]|];
    intros H Hb; simpl in Hb; try done.
  - simpl in H. go_step H. destruct a. subst rf'. simpl.
    by destruct (AppendEntries_takesBack _ _ _ _ E Hb) as [-> ->].
  - injection H as <-. destruct (becomeFollower_fields t rf) as (-> & -> & _). done.
  - destruct Hb as [Hs Hb]. simpl in H. go_step H. rewrite Hs in E.
    destruct (Z.ltb_spec (LeaderTerm args) (ae_FollowerTerm reply)); [|lia].
    go_steps E. simpl. destruct (becomeFollower_fields (ae_FollowerTerm reply) rf) as (-> & -> & _). lia.
Qed.

(** one critical section, or a crash and restart from the persister *)
Inductive peerStep (n self : Z) : relation (Raft Cmd) :=
| peer_exec op rf rf' : op_pre op rf → exec op rf = Ret rf' → peerStep n self rf rf'
| peer_restart rf : peerStep n self rf (Make n self (Copy (persister rf))).

Lemma peerStep_reachable n self rf rf' :
  reachable n self rf → peerStep n self rf rf' → reachable n self rf'.
Proof.
  intros Hr Hs. destruct Hs as [op r r' Hpre E|r]; [|by apply reach_restart].
  by apply (reach_step n self r op r').
Qed.

Lemma peerStep_keepsVote n self rf rf' :
  0 ≤ n → reachable n self rf → peerStep n self rf rf' →
  keepsVote rf rf' ∨ ∃ op, exec op rf = Ret rf' ∧ takesBack op rf.
Proof.
  intros Hn Hr Hs. destruct Hs as [op rf rf' Hpre E|rf].
  - destruct (decide (takesBack op rf)); [by right; exists op|left; by eapply exec_keepsVote].
  - left. destruct (reachable_inv _ _ _ Hn Hr) as [Hwf Hd].
    destruct (Make_restart n self rf Hd (wf_nonempty _ Hwf)) as [(Ht & Hv & _)%pstate_inv _].
    right. rewrite Ht, Hv. auto.
Qed.

(** C4: From any reachable state of a peer, through any sequence of its critical
    sections, crashes and restarts: the term does not go back, and a vote cast in a
    term stays the peer's vote as long as it is in that term -- unless on the way
    the peer takes one of the three steps of [takesBack] (an AppendEntries from a
    leader of the current term, or a reply with a term that is not greater than the
    current one), and such a step forgets the vote without raising the term. *)
Theorem vote_once n self rf rf' :
  0 ≤ n → reachable n self rf → rtc (peerStep n self) rf rf' →
  (currentTerm rf ≤ currentTerm rf'
   ∧ (currentTerm rf' = currentTerm rf → votedFor rf ≠ -1 → votedFor rf' = votedFor rf))
  ∨ ∃ op rf1 rf2, rtc (peerStep n self) rf rf1 ∧ exec op rf1 = Ret rf2
      ∧ rtc (peerStep n self) rf2 rf' ∧ takesBack op rf1
      ∧ currentTerm rf2 ≤ currentTerm rf1 ∧ votedFor rf2 = -1.
Proof.
  intros Hn Hr. induction 1 as [rf|rf rf1 rf2 H1 H2 IH]; [by left|].
  destruct (peerStep_keepsVote _ _ _ _ Hn Hr H1) as [Hk|(op & E & Hb)].
  - destruct IH as [[IHt IHv]|(op & r1 & r2 & ? & ? & ? & ? & ?)];
      [by eapply peerStep_reachable|left|].
    + destruct Hk as [Hlt|[Heq [Hv|Hv]]]; split; intros; lia.
    + right. exists op, r1, r2. split_and!; try naive_solver. by eapply rtc_l.
  - right. exists op, rf, rf1. destruct (takesBack_forgets _ _ _ E Hb). split_and!; done.
Qed.

End votes.

(** *** Quorums *)

Section quorum.
Implicit Types (n : Z) (votes : Z → Z).

(** the peers that voted for [c] *)
Definition votesFor (c n : Z) votes : list Z :=
  filter (λ j, votes j = c) (seqZ 0 n).

Lemma votesFor_disjoint c d n votes :
  c ≠ d → (length (votesFor c n votes) + length (votesFor d n votes) ≤ Z.to_nat n)%nat.
Proof.
  intros Hne. rewrite <-(length_seqZ 0 n). unfold votesFor.
  induction (seqZ 0 n) as [|j l IH]; simpl; [lia|].
  rewrite !filter_cons. repeat case_decide; simpl; lia.
Qed.

(** In a cluster with an odd number of peers the test
    [getVote >= (len(rf.peers)+1)/2] is a majority: when every peer has one vote,
    two candidates cannot both pass it. *)
Theorem majority_unique {Cmd} (rf : Raft Cmd) votes c d :
  0 ≤ peers rf → Z.odd (peers rf) = true →
  majority rf ≤ len (votesFor c (peers rf) votes) →
  majority rf ≤ len (votesFor d (peers rf) votes) →
  c = d.
Proof.
  unfold majority, len. intros Hn Hodd Hc Hd. destruct (decide (c = d)) as [|Hne]; [done|].
  pose proof (votesFor_disjoint c d (peers rf) votes Hne) as Hsum.
  apply Zodd_bool_iff in Hodd. apply Zodd_ex in Hodd as [m Hm].
  rewrite Hm in *. replace (2 * m + 1 + 1) with ((m + 1) * 2) in * by lia.
  rewrite Z.quot_mul in * by lia. lia.
Qed.
End quorum.

(** ** Executions of three peers *)
Module Witness.
Import CountableCodec.

Definition peer (i : Z) : Raft Z := Make 3 i MakePersister.

(** peer [c] starts a round and [v] receives its request and votes or refuses *)
Definition round (c : Raft Z) : go (Raft Z * RequestVoteArgs) :=
  o ← StartElection_begin c;
  match o with Some r => Ret r | None => Panic end.

Definition count (c : Raft Z) (reply : RequestVoteReply) : go (Raft Z) :=
  fst <$> StartElection_select 1 (ElectionVote reply) c.

(** [v] runs both critical sections of its handler without another one in between *)
Definition vote (args : RequestVoteArgs) (v : Raft Z) : go (Raft Z * RequestVoteReply) :=
  '(v, view) ← RequestVote_read args v;
  RequestVote_grant args view v.

(** Peers 0 and 1 stand in term 3; peer 2 votes for 0, which wins; 0's first
    AppendEntries does not match 2's log but clears 2's vote; 2 votes for 1 too. *)
Definition twoLeaders : go (Raft Z * Raft Z) :=
  '(s0, a0) ← round (peer 0);
  '(s2, r) ← vote a0 (peer 2);
  s0 ← count s0 r;
  '(s1, _) ← round (peer 1);
  '(s1, a1) ← round s1;
  '(s0, _) ← vote a1 s0;
  '(s0, a0) ← round s0;
  '(s1, a1) ← round s1;
  '(s2, r) ← vote a0 s2;
  s0 ← count s0 r;
  o ← doAppendEntriesRPC_args 2 s0;
  '(s2, _) ← (match o with Some a => AppendEntries a s2 | None => Panic end);
  '(_, r) ← vote a1 s2;
  s1 ← count s1 r;
  Ret (s0, s1).

(** Votes alone do not keep two peers from leading in one term: in a cluster of
    three, an AppendEntries of the current term clears the vote of a follower that
    has already voted, it votes again, and two peers are leader in term 3. *)
Theorem two_leaders_in_one_term :
  ∃ s0 s1, twoLeaders = Ret (s0, s1) ∧ GetState s0 = (3, true) ∧ GetState s1 = (3, true).
Proof. eexists _, _. split; [vm_compute; reflexivity|by vm_compute]. Qed.

(** Peer 2 reads peer 0's request of term 1, joins term 2 for peer 1's request, and
    then records and grants the vote for peer 0 in term 2. *)
Definition lateGrant : go (Raft Z * RequestVoteReply) :=
  '(_, a0) ← round (peer 0);
  '(s1, _) ← round (peer 1);
  '(_, a1) ← round s1;
  '(s2, v) ← RequestVote_read a0 (peer 2);
  '(s2, _) ← RequestVote_read a1 s2;
  RequestVote_grant a0 v s2.

(** The lock is free between the sections of [RequestVote]: a vote for a candidate
    of term 1 is recorded and granted in term 2. *)
Theorem vote_in_newer_term :
  ∃ s2 reply, lateGrant = Ret (s2, reply) ∧ VoteGranted reply = true
    ∧ currentTerm s2 = 2 ∧ votedFor s2 = 0.
Proof. eexists _, _. split; [vm_compute; reflexivity|by vm_compute]. Qed.

End Witness.
