(* ===== verification/RaftCommit.v ===== *)
(** * Package raft: commitment

    What a follower and a leader commit, and which messages they send to the
    service when they do. *)

From S2P Require Import Prelude Gob Raft RaftStep RaftPersist RaftLog.

Lemma count_eq_NoDup (l : list Z) c :
  NoDup l → c ∈ l → length (List.filter (λ k, k =? c) l) = 1%nat.
Proof.
  assert (∀ l : list Z, c ∉ l → List.filter (λ k, k =? c) l = []) as Hno.
  { clear. induction l as [|x l IH]; [done|]. intros [Hx Hl]%not_elem_of_cons. simpl.
    destruct (Z.eqb_spec x c); [by subst|auto]. }
  induction 1 as [|x l Hx Hnd IH]; [by intros ?%elem_of_nil|].
  intros [->|Hc]%elem_of_cons; simpl.
  - by rewrite Z.eqb_refl, Hno.
  - destruct (Z.eqb_spec x c); [by subst|auto].
Qed.

Section commit.
Context {Cmd : Type} `{!GobCodec Z} `{!GobCodec (list (LogEntry Cmd))}.
Implicit Types (rf : Raft Cmd) (es : list (LogEntry Cmd)).

(** the entry with log index [i] *)
Definition entryAt rf (i : Z) : option (LogEntry Cmd) :=
  if lastIncludedIndex rf <=? i then logs rf !! Z.to_nat (i - lastIncludedIndex rf) else None.

(** the entries with log index in [(lo, hi]] *)
Definition entriesBetween rf (lo hi : Z) : list (LogEntry Cmd) :=
  take (Z.to_nat (hi - lo)) (drop (Z.to_nat (lo + 1 - lastIncludedIndex rf)) (logs rf)).

(** the messages of the entries that carry a command of the service *)
Definition commandMsgs es : list (ApplyMsg Cmd) :=
  commandMsg <$> filter (λ e, IsInternalLog e = false) es.

Lemma commandMsgs_app es1 es2 : commandMsgs (es1 ++ es2) = commandMsgs es1 ++ commandMsgs es2.
Proof. unfold commandMsgs. by rewrite filter_app, fmap_app. Qed.

Lemma commandMsgs_cons e es : commandMsgs (e :: es) = commandMsgs [e] ++ commandMsgs es.
Proof. apply (commandMsgs_app [e]). Qed.

Lemma entriesBetween_nil rf lo hi : hi ≤ lo → entriesBetween rf lo hi = [].
Proof. intros. unfold entriesBetween. by replace (Z.to_nat (hi - lo)) with 0%nat by lia. Qed.

Lemma entriesBetween_cons rf lo hi e :
  lastIncludedIndex rf ≤ lo → lo < hi →
  logs rf !! Z.to_nat (lo + 1 - lastIncludedIndex rf) = Some e →
  entriesBetween rf lo hi = e :: entriesBetween rf (lo + 1) hi.
Proof.
  intros Hlo Hhi He. unfold entriesBetween. rewrite (drop_head _ _ _ He).
  replace (Z.to_nat (hi - lo)) with (S (Z.to_nat (hi - (lo + 1)))) by lia. simpl.
  do 3 f_equal. lia.
Qed.

Lemma commandMsgs_between rf rf' lo hi lo' hi' :
  logs rf = logs rf' → lastIncludedIndex rf = lastIncludedIndex rf' → lo = lo' → hi = hi' →
  commandMsgs (entriesBetween rf lo hi) = commandMsgs (entriesBetween rf' lo' hi').
Proof. intros El Ei -> ->. unfold entriesBetween. by rewrite El, Ei. Qed.

Lemma applyEntry_spec rf i e :
  logs rf !! Z.to_nat (logIndex2LogPos rf i) = Some e → lastIncludedIndex rf ≤ i →
  applyEntry i rf = Ret (set_applyChan (applyChan rf ++ commandMsgs [e]) rf).
Proof.
  intros He Hi. unfold applyEntry, logIndex2LogPos in *.
  rewrite (proj2 (idx_Ret _ _ e)) by (split; [lia|done]). simpl.
  unfold commandMsgs. rewrite filter_cons, filter_nil. simpl.
  destruct (IsInternalLog e); simpl; [|done].
  rewrite app_nil_r. by destruct rf.
Qed.

(** [rf'] is [rf] after committing the entries [(commitIndex rf, c]] *)
Definition committed rf (c : Z) rf' : Prop :=
  commitIndex rf' = c ∧ frame rf rf' ∧ leaderPtr rf' = leaderPtr rf
  ∧ applyChan rf' = applyChan rf ++ commandMsgs (entriesBetween rf (commitIndex rf) c).

Lemma leaderApply_spec n k rf :
  raft_wf rf → lastIncludedIndex rf < k → k + Z.of_nat n - 1 ≤ lastLogIndex rf →
  leaderApply n k rf = Ret (set_applyChan
    (applyChan rf ++ commandMsgs (entriesBetween rf (k - 1) (k - 1 + Z.of_nat n))) rf).
Proof.
  revert k rf. induction n as [|n IH]; intros k rf Hwf Hk Hn.
  { simpl. rewrite entriesBetween_nil by lia. simpl. rewrite app_nil_r. by destruct rf. }
  unfold lastLogIndex in Hn.
  destruct (lookup_lt_is_Some_2 (logs rf) (Z.to_nat (k - lastIncludedIndex rf))) as [e He];
    [unfold len in Hn; lia|].
  simpl. rewrite (applyEntry_spec rf k e He) by lia. simpl. rewrite IH; simpl; [|..|].
  - f_equal. rewrite (entriesBetween_cons rf (k - 1) _ e); [|lia|lia|].
    + rewrite (commandMsgs_cons e (entriesBetween _ _ _)), app_assoc.
      unfold set_applyChan. simpl. do 2 f_equal. by apply commandMsgs_between; simpl; try lia.
    + by replace (k - 1 + 1 - _) with (k - lastIncludedIndex rf) by lia.
  - by eapply raft_wf_ext; [..|exact Hwf].
  - lia.
  - unfold lastLogIndex. simpl. lia.
Qed.

Lemma followerCommit_spec lc n i rf :
  raft_wf rf → commitIndex rf = i - 1 → lc - i + 1 ≤ Z.of_nat n →
  ∃ rf', followerCommit lc n i rf = Ret rf'
         ∧ committed rf (Z.max (commitIndex rf) (Z.min lc (lastLogIndex rf))) rf'.
Proof.
  revert i rf. induction n as [|n IH]; intros i rf Hwf Hc Hn.
  { exists rf. unfold committed. rewrite entriesBetween_nil, app_nil_r by lia.
    split_and!; try done. lia. }
  simpl. destruct (indexed_last _ _ (wf_indexed _ Hwf) (wf_nonempty _ Hwf))
    as (e & _ & Hl & Hi). unfold getLastLog. rewrite Hl. simpl.
  fold (lastLogIndex rf) in Hi. rewrite Hi. pose proof (wf_commit _ Hwf) as Hlc.
  destruct ((i <=? lc) && (i <=? lastLogIndex rf)) eqn:Hb; cycle 1.
  { exists rf. unfold committed. rewrite entriesBetween_nil, app_nil_r by lia.
    split_and!; try done. lia. }
  destruct (lookup_lt_is_Some_2 (logs rf) (Z.to_nat (i - lastIncludedIndex rf))) as [e1 He1];
    [unfold lastLogIndex, len in *; lia|].
  rewrite (applyEntry_spec rf i e1 He1) by lia. simpl.
  match goal with |- ∃ _, followerCommit _ _ _ ?r = _ ∧ _ => set (rf1 := r) end.
  assert (raft_wf rf1) as Hwf1 by (destruct Hwf; split; simpl; auto; lia).
  destruct (IH (i + 1) rf1 Hwf1 ltac:(simpl; lia) ltac:(lia)) as (rf' & E & Hc' & Hf & Hp & Ha).
  exists rf'. split; [done|]. unfold committed. unfold lastLogIndex in *. simpl in *.
  split_and!; [lia|by destruct Hf|done|]. rewrite Ha.
  rewrite (entriesBetween_cons rf (commitIndex rf) _ e1); [|lia|lia|].
  - rewrite (commandMsgs_cons e1 (entriesBetween _ _ _)), <-app_assoc.
    do 2 f_equal. by apply commandMsgs_between; simpl; try lia.
  - by replace (commitIndex rf + 1) with i by lia.
Qed.

Lemma follower_commit_committed args rf :
  raft_wf rf →
  ∃ rf', AppendEntries_commit args rf = Ret rf'
    ∧ committed rf (Z.max (commitIndex rf) (Z.min (LeaderCommit args) (lastLogIndex rf))) rf'.
Proof.
  intros Hwf. unfold AppendEntries_commit.
  destruct (Z.ltb_spec (commitIndex rf) (LeaderCommit args)).
  - apply followerCommit_spec; [done|lia..].
  - exists rf. split; [done|]. unfold committed.
    rewrite entriesBetween_nil, app_nil_r by lia. split_and!; try done. lia.
Qed.

Lemma follower_commit_total args rf :
  raft_wf rf → ∃ rf', AppendEntries_commit args rf = Ret rf' ∧ frame rf rf'.
Proof.
  intros Hwf. destruct (follower_commit_committed args rf Hwf) as (rf' & ? & _ & ? & _). eauto.
Qed.

(** C6: When a follower has dealt with the entries of an AppendEntries, its commit
    index becomes the smaller of the leader's commit index and its own last index
    (and never goes back), and it has sent to the service exactly the commands of
    the newly committed entries, in log order and each once; the log, term and vote
    are as before. *)
Theorem follower_commit args rf :
  raft_wf rf →
  ∃ rf', AppendEntries_commit args rf = Ret rf'
    ∧ committed rf (Z.max (commitIndex rf) (Z.min (LeaderCommit args) (lastLogIndex rf))) rf'.
Proof. apply follower_commit_committed. Qed.

(** *** The leader's rule *)

(** peer [k] is known to hold index [i] *)
Definition holdsIndex (ms : list Z) (i k : Z) : bool :=
  match ms !! Z.to_nat k with
  | Some m => i <=? m
  | None => false
  end.

(** the peers that hold index [i]: the leader itself and those whose match index
    has reached [i] *)
Definition holders (self : Z) (ms : list Z) (n i : Z) : list Z :=
  List.filter (λ k, (k =? self) || holdsIndex ms i k) (seqZ 0 n).

(** the peers other than [peer] and [self] among those from [j] on *)
Definition others (peer self : Z) (ms : list Z) (i j : Z) (n : nat) : list Z :=
  List.filter (λ k, negb ((k =? peer) || (k =? self)) && holdsIndex ms i k)
    (seqZ j (Z.of_nat n)).

Lemma countReplicas_spec ms peer self i n j cnt :
  0 ≤ j → j + Z.of_nat n ≤ len ms →
  countReplicas ms peer self i n j cnt = Ret (cnt + len (others peer self ms i j n)).
Proof.
  revert j cnt. induction n as [|n IH]; intros j cnt Hj Hn.
  { simpl. f_equal. unfold others, len. simpl. lia. }
  cbn [countReplicas]. unfold others. rewrite (seqZ_cons j) by lia. cbn [List.filter].
  replace (Z.pred (Z.of_nat (S n))) with (Z.of_nat n) by lia.
  replace (Z.succ j) with (j + 1) by lia. fold (others peer self ms i (j + 1) n).
  destruct ((j =? peer) || (j =? self)); simpl; [apply IH; lia|].
  destruct (idx_total ms j) as [m Hm]; [lia|]. rewrite Hm. simpl.
  apply idx_Ret in Hm as [_ Hm]. unfold holdsIndex at 1. rewrite Hm, IH by lia.
  f_equal. destruct (i <=? m); unfold len; simpl; lia.
Qed.

(** two distinct peers, and the others, make the holders *)
Lemma holders_split peer self ms i n :
  0 ≤ peer < n → 0 ≤ self < n → peer ≠ self → holdsIndex ms i peer = true →
  len (holders self ms n i) = 2 + len (others peer self ms i 0 (Z.to_nat n)).
Proof.
  intros Hp Hs Hne Hpi. unfold holders, others, len. rewrite Z2Nat.id by lia.
  assert (∀ c, 0 ≤ c < n → length (List.filter (λ k, k =? c) (seqZ 0 n)) = 1%nat) as H1.
  { intros c Hc. apply count_eq_NoDup; [apply NoDup_seqZ|]. apply elem_of_seqZ. lia. }
  set (f := λ k, (k =? self) || holdsIndex ms i k).
  set (g := λ k, negb ((k =? peer) || (k =? self)) && holdsIndex ms i k).
  set (fp := λ k, k =? peer). set (fs := λ k, k =? self).
  enough (∀ l, length (List.filter f l) = length (List.filter fp l)
    + length (List.filter fs l) + length (List.filter g l))%nat as ->
    by (subst fp fs; rewrite (H1 peer Hp), (H1 self Hs); lia).
  intros l. subst f g fp fs. clear H1. induction l as [|k l IH]; [done|]. simpl.
  destruct (Z.eqb_spec k peer) as [->|].
  - rewrite (proj2 (Z.eqb_neq peer self)), Hpi by done. simpl. lia.
  - destruct (k =? self), (holdsIndex ms i k); simpl; lia.
Qed.

(** the loop of [leaderCommit] from index [i] down to the commit index *)
Lemma leaderCommit_spec peer n i rf l :
  raft_wf rf → leaderPtr rf = Some l → role rf = LEADER →
  commitIndex rf = i - Z.of_nat n → i ≤ lastLogIndex rf →
  0 ≤ peer < peers rf → 0 ≤ me rf < peers rf → peer ≠ me rf →
  (∀ k, k ≤ i → holdsIndex (matchIndexs l) k peer = true) →
  ∃ rf' c, leaderCommit peer n i rf = Ret rf' ∧ committed rf c rf'
    ∧ commitIndex rf ≤ c ≤ i
    ∧ (commitIndex rf < c →
        (∃ e, entryAt rf c = Some e ∧ LogTerm e = currentTerm rf)
        ∧ majority rf ≤ len (holders (me rf) (matchIndexs l) (peers rf) c))
    ∧ (∀ j, c < j ≤ i →
        (∀ k e, j ≤ k ≤ i → entryAt rf k = Some e → LogTerm e = currentTerm rf) →
        len (holders (me rf) (matchIndexs l) (peers rf) j) < majority rf).
Proof.
  intros Hwf Hl Hr. revert i. induction n as [|n IH]; intros i Hc Hi Hp Hm Hne Hpm.
  { exists rf, (commitIndex rf). split; [done|]. unfold committed.
    rewrite entriesBetween_nil, app_nil_r by lia. split_and!; try done; lia. }
  pose proof (wf_commit _ Hwf). pose proof (wf_leader _ Hwf) as Hlw. rewrite Hr in Hlw.
  destruct Hlw as (l' & Hl' & _ & Hlm). assert (l' = l) as -> by congruence.
  destruct (lookup_lt_is_Some_2 (logs rf) (Z.to_nat (i - lastIncludedIndex rf))) as [e He];
    [unfold lastLogIndex, len in *; lia|].
  assert (entryAt rf i = Some e) as Hei.
  { unfold entryAt. by rewrite (proj2 (Z.leb_le _ _)) by lia. }
  simpl. unfold logIndex2LogPos.
  rewrite (proj2 (idx_Ret _ _ e)) by (split; [lia|done]). simpl.
  destruct (Z.eqb_spec (LogTerm e) (currentTerm rf)) as [Ht|Ht].
  2: { exists rf, (commitIndex rf). split; [done|]. unfold committed.
       rewrite entriesBetween_nil, app_nil_r by lia. split_and!; try done; try lia.
       intros j Hj Hall. exfalso. apply Ht. apply (Hall i); [lia|done]. }
  unfold leader. rewrite Hl. simpl. rewrite countReplicas_spec by lia. simpl.
  rewrite <-(holders_split peer (me rf)) by auto with lia.
  destruct (Z.leb_spec (majority rf) (len (holders (me rf) (matchIndexs l) (peers rf) i)))
    as [Hq|Hq].
  - rewrite leaderApply_spec by (done || lia). simpl. eexists _, i. split; [done|].
    unfold committed. simpl. split_and!; try done; try lia.
    + f_equal. apply commandMsgs_between; try done; lia.
    + eauto.
  - destruct (IH (i - 1)) as (rf' & c & E & Hcm & Hci & Hq1 & Hq2); try done; try lia.
    { intros k Hk. apply Hpm. lia. }
    exists rf', c. split_and!; try done; try lia.
    intros j Hj Hall. destruct (decide (j = i)) as [->|]; [lia|].
    apply Hq2; [lia|]. intros k e' Hk He'. apply (Hall k); [lia|done].
Qed.

(** the leader's record of peer [peer] after it acknowledged index [i] *)
Definition acknowledged (peer i : Z) (l : Leader) : Leader :=
  mkLeader (<[Z.to_nat peer := i + 1]> (nextIndexs l)) (<[Z.to_nat peer := i]> (matchIndexs l)).

Lemma replicationSucceeded_eq peer start es rf l :
  raft_wf rf → role rf = LEADER → leaderPtr rf = Some l → 0 ≤ peer < peers rf →
  es ≠ [] → indexed (start + 1) es →
  let i := start + len es in
  let rf2 := set_leaderPtr (Some (acknowledged peer i l)) rf in
  raft_wf rf2
  ∧ (∀ k, k ≤ i → holdsIndex (matchIndexs (acknowledged peer i l)) k peer = true)
  ∧ replicationSucceeded peer es rf
    = if commitIndex rf <? i then leaderCommit peer (Z.to_nat (i - commitIndex rf)) i rf2
      else Ret rf2.
Proof.
  intros Hwf Hr Hl Hp Hes Hix i rf2.
  pose proof (wf_leader _ Hwf) as Hlw. rewrite Hr in Hlw.
  destruct Hlw as (l' & Hl' & Hn & Hms). assert (l' = l) as -> by congruence.
  destruct (indexed_last _ _ Hix Hes) as (e & _ & Hidx & Hie). split_and!.
  - apply wf_set_leader; try done; unfold len in *; simpl; by rewrite length_insert.
  - intros k Hk. unfold holdsIndex. simpl.
    rewrite list_lookup_insert_eq by (unfold len in *; lia). lia.
  - unfold replicationSucceeded. rewrite Hidx. simpl.
    replace (LogIndex e) with i by lia. unfold setNextIndex, leader. rewrite Hl. simpl.
    rewrite upd_Ret by lia. simpl. unfold setMatchIndex, leader. simpl.
    by rewrite upd_Ret by lia.
Qed.

Lemma replicationSucceeded_total peer start es rf l :
  raft_wf rf → role rf = LEADER → leaderPtr rf = Some l →
  0 ≤ peer < peers rf → 0 ≤ me rf < peers rf → peer ≠ me rf →
  es ≠ [] → indexed (start + 1) es → start + len es ≤ lastLogIndex rf →
  ∃ rf', replicationSucceeded peer es rf = Ret rf' ∧ frame rf rf'
         ∧ leaderPtr rf' = Some (acknowledged peer (start + len es) l).
Proof.
  intros Hwf Hr Hl Hp Hm Hne Hes Hix Hlast.
  destruct (replicationSucceeded_eq peer start es rf l) as (Hwf2 & Hh & E); [done..|].
  cbv zeta in *. rewrite E. destruct (Z.ltb_spec (commitIndex rf) (start + len es)).
  - destruct (leaderCommit_spec peer (Z.to_nat (start + len es - commitIndex rf))
      (start + len es) _ _ Hwf2 eq_refl Hr)
      as (rf' & c & -> & (_ & ? & ? & _) & _); try done; simpl; try lia.
    exists rf'. auto.
  - eexists. done.
Qed.

(** the threshold of the code, spelled out: at least half of the peers *)
Lemma majority_le rf h : 0 ≤ peers rf → majority rf ≤ h ↔ peers rf ≤ 2 * h.
Proof.
  intros Hn. unfold majority. rewrite Z.quot_div_nonneg by lia.
  pose proof (Z.div_mod (peers rf + 1) 2). pose proof (Z.mod_pos_bound (peers rf + 1) 2). lia.
Qed.

(** C7: When a follower has acknowledged entries up to index [i], the leader records
    [i] as that follower's match index and moves its commit index forward to an
    entry of its own term that at least half of the peers (itself included) hold,
    which is more than half when their number is odd; to the greatest such entry
    reachable through entries of its term, or leaves it; and it sends to the service
    exactly the newly committed commands, in log order.  In a cluster with an even
    number of peers the code commits with exactly half of them. *)
Theorem leader_commit_rule peer start es rf l :
  raft_wf rf → role rf = LEADER → leaderPtr rf = Some l →
  0 ≤ peer < peers rf → 0 ≤ me rf < peers rf → peer ≠ me rf →
  es ≠ [] → indexed (start + 1) es → start + len es ≤ lastLogIndex rf →
  let i := start + len es in
  let ms := <[Z.to_nat peer := i]> (matchIndexs l) in
  ∃ rf' c, replicationSucceeded peer es rf = Ret rf'
    ∧ leaderPtr rf' = Some (mkLeader (<[Z.to_nat peer := i + 1]> (nextIndexs l)) ms)
    ∧ commitIndex rf' = c ∧ commitIndex rf ≤ c ≤ Z.max (commitIndex rf) i
    ∧ applyChan rf' = applyChan rf ++ commandMsgs (entriesBetween rf (commitIndex rf) c)
    ∧ (commitIndex rf < c →
        (∃ e, entryAt rf c = Some e ∧ LogTerm e = currentTerm rf)
        ∧ peers rf ≤ 2 * len (holders (me rf) ms (peers rf) c)
        ∧ (Z.odd (peers rf) = true → peers rf < 2 * len (holders (me rf) ms (peers rf) c)))
    ∧ (∀ j, c < j ≤ i →
        (∀ k e, j ≤ k ≤ i → entryAt rf k = Some e → LogTerm e = currentTerm rf) →
        2 * len (holders (me rf) ms (peers rf) j) < peers rf).
Proof.
  intros Hwf Hr Hl Hp Hm Hne Hes Hix Hlast i ms.
  destruct (replicationSucceeded_eq peer start es rf l) as (Hwf2 & Hh & E); [done..|].
  cbv zeta in *. fold i in Hwf2, Hh, E. rewrite E.
  set (rf2 := set_leaderPtr (Some (acknowledged peer i l)) rf) in *.
  destruct (Z.ltb_spec (commitIndex rf) i).
  2: { exists rf2, (commitIndex rf). split_and!; try done; try lia.
       rewrite entriesBetween_nil, app_nil_r by lia. done. }
  destruct (leaderCommit_spec peer (Z.to_nat (i - commitIndex rf)) i rf2 _ Hwf2 eq_refl Hr)
    as (rf' & c & Ec & (Hc & _ & Hlp & Ha) & Hci & Hq1 & Hq2); try done; simpl; try lia.
  simpl in *. exists rf', c. split_and!; try done; try lia.
  - intros Hlt. destruct (Hq1 Hlt) as [He Hq]. split; [done|].
    apply majority_le in Hq; [|unfold rf2; simpl; lia].
    change (peers rf ≤ 2 * len (holders (me rf) ms (peers rf) c)) in Hq. split; [done|].
    intros Ho%Zodd_bool_iff%Zodd_ex. destruct Ho. lia.
  - intros j Hj Hk. specialize (Hq2 j Hj Hk). apply Z.nle_gt. intros Hq. revert Hq2.
    apply Z.le_ngt, majority_le; unfold rf2; simpl; [lia|]. exact Hq.
Qed.
End commit.
