(* ===== verification/RaftReplication.v ===== *)
(** * Package raft: log replication between a leader and a follower

    The exchange of [doAppendEntriesRPC] and [AppendEntries]: what an accepted
    AppendEntries does to the follower's log, and that the back-up rule
    ([Xterm], [Xindex], [Xlen]) brings any follower's log into agreement with
    the leader's in a bounded number of exchanges. *)

From S2P Require Import Prelude Gob Raft RaftStep RaftPersist RaftLog RaftCommit.

Section replication.
Context {Cmd : Type} `{!GobCodec Z} `{!GobCodec (list (LogEntry Cmd))}.
Implicit Types (rf L F : Raft Cmd) (es : list (LogEntry Cmd)).

#[local] Opaque becomeFollower.

Lemma entryAt_Some rf i e :
  entryAt rf i = Some e ↔
  lastIncludedIndex rf ≤ i ∧ logs rf !! Z.to_nat (i - lastIncludedIndex rf) = Some e.
Proof.
  unfold entryAt. destruct (Z.leb_spec (lastIncludedIndex rf) i); [tauto|].
  split; [done|lia].
Qed.

Lemma entryAt_total rf i :
  lastIncludedIndex rf ≤ i ≤ lastLogIndex rf → ∃ e, entryAt rf i = Some e.
Proof.
  intros Hi. destruct (lookup_lt_is_Some_2 (logs rf) (Z.to_nat (i - lastIncludedIndex rf)))
    as [e He]; [unfold lastLogIndex, len in *; lia|].
  exists e. apply entryAt_Some. split; [lia|done].
Qed.

Lemma entryAt_bound rf i e : entryAt rf i = Some e → lastIncludedIndex rf ≤ i ≤ lastLogIndex rf.
Proof.
  intros [? H]%entryAt_Some. apply lookup_lt_Some in H. unfold lastLogIndex, len. lia.
Qed.

Lemma entryAt_idx rf i e :
  entryAt rf i = Some e → idx (logs rf) (logIndex2LogPos rf i) = Ret e.
Proof. intros [? H]%entryAt_Some. apply idx_Ret. unfold logIndex2LogPos. split; [lia|done]. Qed.

Lemma getLastLog_total rf :
  raft_wf rf → ∃ e, getLastLog rf = Ret e ∧ LogIndex e = lastLogIndex rf
                    ∧ entryAt rf (lastLogIndex rf) = Some e.
Proof.
  intros Hwf. destruct (indexed_last _ _ (wf_indexed _ Hwf) (wf_nonempty _ Hwf))
    as (e & _ & Hi & Hx). exists e. split_and!; [done..|].
  apply idx_Ret in Hi as [H0 Hi]. apply entryAt_Some. unfold lastLogIndex. split; [lia|].
  by replace (lastIncludedIndex rf + len (logs rf) - 1 - lastIncludedIndex rf)
    with (len (logs rf) - 1) by lia.
Qed.

Lemma lastLogIndex_ge rf : raft_wf rf → lastIncludedIndex rf ≤ lastLogIndex rf.
Proof.
  intros Hwf. pose proof (wf_nonempty _ Hwf). unfold lastLogIndex, len.
  destruct (logs rf); simpl; [done|lia].
Qed.

(** *** The follower's side *)

(** a follower that has heard a leader of term [t] *)
Definition greet (t : Z) F : Raft Cmd :=
  match role F with
  | LEADER => becomeFollower t F
  | FOLLOWER | CANDICATE => set_heartBeatCh (heartBeatCh F + 1) (becomeFollower t F)
  end.

Lemma greet_fields t F :
  currentTerm (greet t F) = t ∧ logs (greet t F) = logs F
  ∧ lastIncludedIndex (greet t F) = lastIncludedIndex F
  ∧ lastIncludedTerm (greet t F) = lastIncludedTerm F
  ∧ commitIndex (greet t F) = commitIndex F.
Proof.
  destruct (becomeFollower_fields t F) as (?&?&?&?&?&?&?&?&?&_).
  unfold greet. destruct (role F); simpl; auto.
Qed.

Lemma greet_wf t F : raft_wf F → raft_wf (greet t F).
Proof.
  intros Hwf%(becomeFollower_wf t). unfold greet.
  destruct (role F); try done; by eapply raft_wf_ext; [..|exact Hwf].
Qed.

Lemma AppendEntries_greet args es F :
  currentTerm F ≤ LeaderTerm args → heartBeatCh F < 8 → Entries args = Some es →
  AppendEntries args F =
  AppendEntries_entries (LeaderTerm args) args es (greet (LeaderTerm args) F).
Proof.
  intros Ht Hh Hes. unfold AppendEntries. cbv zeta.
  rewrite (proj2 (Z.ltb_ge _ _)) by lia.
  destruct (becomeFollower_fields (LeaderTerm args) F) as (E1&_&_&_&_&_&_&_&_&_&_&_&_&E2&_).
  unfold greet, sendHeartBeat. rewrite E1, E2, Hes, (proj2 (Z.ltb_lt _ _)) by lia.
  by destruct (role F).
Qed.

Lemma firstIndexOfTerm_spec (ls : list (LogEntry Cmd)) base xterm n i e :
  indexed base ls → 0 ≤ i → (0 < n)%nat →
  ls !! Z.to_nat (i + Z.of_nat n - 1) = Some e → LogTerm e = xterm →
  ∃ x, firstIndexOfTerm ls xterm n i = Ret x ∧ base + i ≤ x ≤ base + i + Z.of_nat n - 1.
Proof.
  intros Hix. revert i. induction n as [|n IH]; intros i Hi Hn He Ht; [lia|].
  pose proof (lookup_lt_Some _ _ _ He) as Hlt.
  destruct (lookup_lt_is_Some_2 ls (Z.to_nat i)) as [e0 He0]; [lia|].
  simpl. rewrite (proj2 (idx_Ret _ _ e0)) by done. simpl.
  destruct (Z.eqb_spec (LogTerm e0) xterm).
  - exists (LogIndex e0). split; [done|]. rewrite (Hix _ _ He0). lia.
  - destruct n as [|n].
    { replace (i + Z.of_nat 1 - 1) with i in He by lia. congruence. }
    destruct (IH (i + 1)) as (x & -> & Hx); [lia|lia| |done|].
    + by replace (i + 1 + Z.of_nat (S n) - 1) with (i + Z.of_nat (S (S n)) - 1) by lia.
    + exists x. split; [done|lia].
Qed.

(** *** The exchange *)

(** One turn of [HeartBeatToServer] when the RPC gets through: the leader's
    arguments, the follower's handler, the leader's handling of the reply.  The
    follower's timer goroutine has taken the earlier signals from [heartBeatCh]. *)
Definition exchange (peer : Z) L F : go (Raft Cmd * Raft Cmd) :=
  o ← doAppendEntriesRPC_args peer L;
  match o with
  | None => Ret (L, F)
  | Some args =>
      '(F, reply) ← AppendEntries args (set_heartBeatCh 0 F);
      '(L, _) ← doAppendEntriesRPC_reply peer args (Replied reply) L;
      Ret (L, F)
  end.

Fixpoint exchanges (k : nat) (peer : Z) L F : go (Raft Cmd * Raft Cmd) :=
  match k with
  | O => Ret (L, F)
  | S k => '(L, F) ← exchange peer L F; exchanges k peer L F
  end.

(** the Log Matching property between two logs: entries with the same index and
    term are preceded by the same entries *)
Definition logMatching L F : Prop :=
  ∀ i eL eF, entryAt L i = Some eL → entryAt F i = Some eF → LogTerm eL = LogTerm eF →
  ∀ j, lastIncludedIndex L < j ≤ i → entryAt F j = entryAt L j.

(** A leader [L] of its term and a follower [F] whose log [L] brings up to date,
    from [next] on: same snapshot, Log Matching, entries of the leader's term come
    from the leader, and the leader's last entry is of its term (its no-op or a
    later command). *)
Record syncing (peer next : Z) L F : Prop := {
  sy_L : raft_wf L;
  sy_F : raft_wf F;
  sy_role : role L = LEADER;
  sy_next : ∃ l, leaderPtr L = Some l ∧ nextIndexs l !! Z.to_nat peer = Some next;
  sy_peer : 0 ≤ peer < peers L ∧ 0 ≤ me L < peers L ∧ peer ≠ me L;
  sy_base : lastIncludedIndex F = lastIncludedIndex L;
  sy_baseTerm : lastIncludedTerm F = lastIncludedTerm L;
  sy_term : currentTerm F ≤ currentTerm L;
  sy_range : lastIncludedIndex L < next ≤ lastLogIndex L;
  sy_matching : logMatching L F;
  sy_nonneg : ∀ i e, entryAt F i = Some e → 0 ≤ LogTerm e;
  sy_own : ∀ i e, entryAt F i = Some e → LogTerm e = currentTerm L → entryAt L i = Some e;
  sy_top : ∀ e, entryAt L (lastLogIndex L) = Some e → LogTerm e = currentTerm L;
}.

Lemma syncing_args peer next L F :
  syncing peer next L F →
  ∃ eP, entryAt L (next - 1) = Some eP ∧
    doAppendEntriesRPC_args peer L = Ret (Some (mkAppendEntriesArgs (currentTerm L) (me L)
      (next - 1) (LogTerm eP) (Some (drop (Z.to_nat (next - lastIncludedIndex L)) (logs L)))
      (commitIndex L))).
Proof.
  intros []. destruct sy_next0 as (l & Hl & Hn).
  destruct (entryAt_total L (next - 1)) as [eP HeP]; [lia|]. exists eP. split; [done|].
  destruct (getLastLog_total L) as (e & He & Hi & _); [done|].
  unfold doAppendEntriesRPC_args, leader. rewrite He, Hl. simpl.
  rewrite (proj2 (idx_Ret _ _ next)) by (split; [lia|done]). simpl.
  rewrite Hi, (proj2 (Z.leb_le _ _)), (proj2 (Z.leb_gt _ _)) by lia.
  pose proof (entryAt_idx _ _ _ HeP) as Hidx. unfold logIndex2LogPos in *.
  replace (next - lastIncludedIndex L - 1) with (next - 1 - lastIncludedIndex L) by lia.
  rewrite Hidx. simpl. rewrite slice_from_Ret by (unfold lastLogIndex in *; lia). simpl.
  apply entryAt_Some in HeP as [? HeP]. apply (wf_indexed _ sy_L0) in HeP.
  do 4 f_equal. lia.
Qed.

(** [PrevLogIndex] is inside the follower's snapshot *)
Lemma follower_inside t args es F :
  PrevLogIndex args < lastIncludedIndex F →
  AppendEntries_entries t args es F = Ret (F, mkAppendEntriesReply t false (-1) 0 0).
Proof. intros Hb. unfold AppendEntries_entries. by rewrite (proj2 (Z.ltb_lt _ _)). Qed.

(** the follower's log does not reach [PrevLogIndex] *)
Lemma follower_short t args es F :
  raft_wf F → lastIncludedIndex F ≤ PrevLogIndex args → lastLogIndex F < PrevLogIndex args →
  AppendEntries_entries t args es F
  = Ret (F, mkAppendEntriesReply t false (-1) 0 (lastLogIndex F)).
Proof.
  intros Hwf Hb Hl. destruct (getLastLog_total F Hwf) as (e & He & Hi & _).
  unfold AppendEntries_entries. rewrite (proj2 (Z.ltb_ge _ _)), He by lia. simpl.
  by rewrite Hi, (proj2 (Z.leb_gt _ _)) by lia.
Qed.

(** the entry at [PrevLogIndex] is of another term *)
Lemma follower_conflict t args es F e :
  raft_wf F → lastIncludedIndex F < PrevLogIndex args →
  entryAt F (PrevLogIndex args) = Some e → LogTerm e ≠ PrevLogTerm args →
  ∃ x, lastIncludedIndex F < x ≤ PrevLogIndex args ∧
    AppendEntries_entries t args es F
    = Ret (persist (set_logs (take (Z.to_nat (logIndex2LogPos F (PrevLogIndex args)))
                                   (logs F)) F),
           mkAppendEntriesReply t false (LogTerm e) x 0).
Proof.
  intros Hwf Hb He Ht. pose proof (entryAt_bound _ _ _ He) as Hbd.
  destruct (getLastLog_total F Hwf) as (el & Hel & Hi & _).
  pose proof (entryAt_idx _ _ _ He) as Hidx. pose proof He as [_ Hlk]%entryAt_Some.
  unfold lastLogIndex, logIndex2LogPos in *.
  destruct (firstIndexOfTerm_spec (logs F) (lastIncludedIndex F) (LogTerm e)
    (Z.to_nat (PrevLogIndex args - lastIncludedIndex F)) 1 e) as (x & Hx & Hxr);
    [apply Hwf|lia|lia| |done|].
  { replace (Z.to_nat (1 + _ - 1))
      with (Z.to_nat (PrevLogIndex args - lastIncludedIndex F)) by lia. done. }
  exists x. split; [lia|]. unfold AppendEntries_entries, logIndex2LogPos.
  rewrite (proj2 (Z.ltb_ge _ _)), Hel by lia. simpl.
  rewrite Hi, (proj2 (Z.leb_le _ _)), Hidx by lia. simpl.
  rewrite (proj2 (Z.eqb_neq _ _)), Hx by done. simpl.
  by rewrite slice_to_Ret by lia.
Qed.

(** the entry at [PrevLogIndex] matches *)
Lemma follower_accept t args es F e :
  raft_wf F → lastIncludedIndex F ≤ PrevLogIndex args →
  entryAt F (PrevLogIndex args) = Some e → LogTerm e = PrevLogTerm args →
  indexed (PrevLogIndex args + 1) es →
  ∃ F', AppendEntries_entries t args es F = Ret (F', mkAppendEntriesReply t true 0 0 0)
    ∧ lastIncludedIndex F' = lastIncludedIndex F
    ∧ logs F' = take (Z.to_nat (logIndex2LogPos F (PrevLogIndex args) + 1)) (logs F) ++ es.
Proof.
  intros Hwf Hb He Ht Hes. pose proof (entryAt_bound _ _ _ He) as Hbd.
  destruct (getLastLog_total F Hwf) as (el & Hel & Hi & _).
  pose proof (entryAt_idx _ _ _ He) as Hidx. unfold AppendEntries_entries.
  rewrite (proj2 (Z.ltb_ge _ _)), Hel by lia. simpl.
  rewrite Hi, (proj2 (Z.leb_le _ _)), Hidx by lia. simpl.
  rewrite (proj2 (Z.eqb_eq _ _)) by done.
  rewrite slice_to_Ret by (unfold lastLogIndex, logIndex2LogPos in *; lia). simpl.
  match goal with |- context [AppendEntries_commit _ ?r] =>
    destruct (follower_commit_total args r) as (F' & E & [(_&_&El&Ei&_)%pstate_inv _]) end.
  - apply wf_persist, wf_accept; done.
  - exists F'. rewrite E. simpl in *. auto.
Qed.

(** *** The leader's side *)

Lemma findXterm_spec reply n i rf :
  raft_wf rf → i ≤ lastLogIndex rf → Z.of_nat n = i - lastIncludedIndex rf + 1 →
  ∃ o, findXterm reply n i rf = Ret o ∧
    ∀ v, o = Some v → v = Xindex reply ∨
      ∃ j e, lastIncludedIndex rf ≤ j ≤ i ∧ entryAt rf j = Some e
             ∧ LogTerm e = Xterm reply ∧ v = j + 1.
Proof.
  intros Hwf. revert i. induction n as [|n IH]; intros i Hi Hn.
  { exists None. split; [done|]. by intros v. }
  destruct (entryAt_total rf i) as [e He]; [lia|]. simpl. rewrite (entryAt_idx _ _ _ He). simpl.
  destruct (Z.eqb_spec (LogTerm e) (Xterm reply)).
  { eexists. split; [done|]. intros v [= <-]. right. exists i, e. split_and!; try done; lia. }
  destruct (Z.ltb_spec (LogTerm e) (Xterm reply)).
  { eexists. split; [done|]. intros v [= <-]. by left. }
  destruct (IH (i - 1)) as (o & Ho & Hv); [lia|lia|]. exists o. split; [done|].
  intros v Hov. destruct (Hv v Hov) as [|(j & ej & ? & ? & ? & ?)]; [by left|right].
  exists j, ej. split_and!; try done; lia.
Qed.

Definition withNext (peer v : Z) (l : Leader) rf : Raft Cmd :=
  set_leaderPtr (Some (mkLeader (<[Z.to_nat peer := v]> (nextIndexs l)) (matchIndexs l))) rf.

Lemma setNextIndex_spec peer v l rf :
  raft_wf rf → role rf = LEADER → leaderPtr rf = Some l → 0 ≤ peer < peers rf →
  setNextIndex peer v rf = Ret (withNext peer v l rf) ∧ raft_wf (withNext peer v l rf).
Proof.
  intros Hwf Hr Hl Hp. pose proof (wf_leader _ Hwf) as Hlw. rewrite Hr in Hlw.
  destruct Hlw as (l' & Hl' & Hn & Hm). assert (l' = l) as -> by congruence. split.
  - unfold setNextIndex, leader. rewrite Hl. simpl. by rewrite upd_Ret by lia.
  - apply wf_set_leader; try done. unfold len in *. simpl. by rewrite length_insert.
Qed.

Lemma syncing_withNext peer next v l L F :
  syncing peer next L F → leaderPtr L = Some l →
  lastIncludedIndex L < v ≤ lastLogIndex L → syncing peer v (withNext peer v l L) F.
Proof.
  intros Hs Hl Hv. pose proof Hs as [].
  destruct (setNextIndex_spec peer v l L) as [_ Hwf]; [done..|lia|].
  split; try done. exists (mkLeader (<[Z.to_nat peer := v]> (nextIndexs l)) (matchIndexs l)).
  split; [done|]. simpl. apply list_lookup_insert_eq.
  destruct sy_next0 as (l0 & Hl0 & Hn). assert (l0 = l) as -> by congruence.
  by apply lookup_lt_Some in Hn.
Qed.

(** the follower's log lost entries *)
Lemma syncing_sublog peer next L F F' :
  syncing peer next L F → raft_wf F' → lastIncludedIndex F' = lastIncludedIndex F →
  lastIncludedTerm F' = lastIncludedTerm F → currentTerm F' ≤ currentTerm L →
  (∀ i, i ≤ lastLogIndex F' → entryAt F' i = entryAt F i) →
  syncing peer next L F'.
Proof.
  intros [] Hwf Hi Ht Hc Hsub.
  assert (∀ i e, entryAt F' i = Some e → entryAt F i = Some e) as Hsub'.
  { intros i e He. rewrite <-Hsub; [done|]. by eapply entryAt_bound. }
  split; try done; try congruence.
  - intros i eL eF HL HF Heq j Hj. pose proof (entryAt_bound _ _ _ HF).
    rewrite Hsub by lia. eapply sy_matching0; eauto.
  - eauto.
  - eauto.
Qed.

Lemma entryAt_take rf n i :
  raft_wf rf → i < lastIncludedIndex rf + Z.of_nat n →
  entryAt (persist (set_logs (take n (logs rf)) rf)) i = entryAt rf i.
Proof.
  intros Hwf Hi. unfold entryAt. simpl. case_match; [|done]. by rewrite lookup_take_lt by lia.
Qed.

(** *** Convergence *)

(** the two logs agree above the snapshot *)
Definition synced L F : Prop :=
  lastLogIndex F = lastLogIndex L ∧
  ∀ i, lastIncludedIndex L < i → entryAt F i = entryAt L i.

Definition lag (next : Z) F : Z :=
  2 * (lastLogIndex F - lastIncludedIndex F) + (if lastLogIndex F <? next - 1 then 1 else 0).

(** the reply of a follower whose log is short or conflicts *)
Lemma leader_backs_up peer next L F args reply :
  syncing peer next L F → LeaderTerm args = currentTerm L → Success reply = false →
  ae_FollowerTerm reply = currentTerm L →
  (Xterm reply = -1 → lastIncludedIndex L ≤ Xlen reply < lastLogIndex L) →
  (Xterm reply ≠ -1 → lastIncludedIndex L < Xindex reply ≤ lastLogIndex L
                      ∧ Xterm reply ≠ currentTerm L) →
  ∃ next' L', doAppendEntriesRPC_reply peer args (Replied reply) L = Ret (L', 0)
    ∧ syncing peer next' L' F ∧ logs L' = logs L ∧ lastIncludedIndex L' = lastIncludedIndex L
    ∧ (Xterm reply = -1 → next' = Xlen reply + 1).
Proof.
  intros Hs Ht Hsucc Hft Hx1 Hx2. pose proof Hs as [].
  destruct sy_next0 as (l & Hl & Hn). simpl. rewrite Hsucc, Ht, Hft, Z.ltb_irrefl.
  rewrite decide_True by done. unfold backUp.
  assert (∀ v, setNextIndex peer v L = Ret (withNext peer v l L)) as Hset
    by (intros v; apply setNextIndex_spec; done || lia).
  destruct (Z.eqb_spec (Xterm reply) (-1)) as [Hx|Hx].
  { rewrite Hset. simpl. exists (Xlen reply + 1). eexists. split_and!; try done.
    eapply syncing_withNext; [done..|]. specialize (Hx1 Hx). lia. }
  destruct (getLastLog_total L) as (eT & HeT & HiT & HtT); [done|]. rewrite HeT. simpl.
  destruct (entryAt_total L (lastIncludedIndex L)) as [e0 He0]; [lia|].
  pose proof (entryAt_idx _ _ _ He0) as Hidx. unfold logIndex2LogPos in Hidx.
  rewrite Z.sub_diag in Hidx. rewrite Hidx. simpl.
  apply entryAt_Some in He0 as [_ He0]. apply (wf_indexed _ sy_L0) in He0.
  destruct (findXterm_spec reply (Z.to_nat (LogIndex eT - LogIndex e0 + 1)) (LogIndex eT) L)
    as (o & -> & Ho); [done|lia|lia|]. simpl.
  destruct o as [v|]; [|by exists next, L].
  rewrite Hset. simpl. exists v. eexists. split_and!; try done.
  eapply syncing_withNext; [done..|]. specialize (Hx2 Hx).
  destruct (Ho v eq_refl) as [->|(j & e & Hj & He & Hte & ->)]; [lia|].
  destruct (decide (j = lastLogIndex L)) as [->|]; [|lia].
  apply sy_top0 in He. lia.
Qed.

Lemma leader_succeeds peer next L F args es reply :
  syncing peer next L F → LeaderTerm args = currentTerm L → Success reply = true →
  Entries args = Some es → es ≠ [] → indexed next es → next + len es - 1 = lastLogIndex L →
  ∃ L' l', doAppendEntriesRPC_reply peer args (Replied reply) L = Ret (L', 0)
    ∧ frame L L' ∧ leaderPtr L' = Some l'
    ∧ matchIndexs l' !! Z.to_nat peer = Some (lastLogIndex L).
Proof.
  intros [] Ht Hsucc Hes Hne Hix Hlast. destruct sy_next0 as (l & Hl & Hn).
  simpl. rewrite Hsucc, Ht, Hes, decide_True by done.
  destruct (replicationSucceeded_total peer (next - 1) es L l)
    as (L' & -> & Hf & Hl'); try done; try lia.
  { by replace (next - 1 + 1) with next by lia. }
  simpl. eexists _, _. split_and!; [done..|].
  pose proof (wf_leader _ sy_L0) as Hlw. rewrite sy_role0 in Hlw.
  destruct Hlw as (l0 & Hl0 & _ & Hm). assert (l0 = l) as -> by congruence.
  simpl. rewrite list_lookup_insert_eq by (unfold len in *; lia). f_equal. lia.
Qed.

(** the log of a follower that accepted the leader's entries from [next] on *)
Lemma accept_synced peer next L F F' eP eF :
  syncing peer next L F →
  entryAt L (next - 1) = Some eP → entryAt F (next - 1) = Some eF → LogTerm eF = LogTerm eP →
  lastIncludedIndex F' = lastIncludedIndex F →
  logs F' = take (Z.to_nat (next - 1 - lastIncludedIndex F + 1)) (logs F)
            ++ drop (Z.to_nat (next - lastIncludedIndex L)) (logs L) →
  synced L F'.
Proof.
  intros [] HeP HeF Ht Hi Hlogs. pose proof (entryAt_bound _ _ _ HeF) as Hb.
  replace (next - 1 - lastIncludedIndex F + 1) with (next - lastIncludedIndex L) in Hlogs by lia.
  unfold synced, lastLogIndex, len in *. split.
  - rewrite Hlogs, length_app, length_take, length_drop. lia.
  - intros i Hib. unfold entryAt. rewrite Hi, sy_base0, (proj2 (Z.leb_le _ _)) by lia.
    rewrite Hlogs. destruct (decide (i < next)) as [Hin|Hin].
    + rewrite lookup_app_l by (rewrite length_take; lia). rewrite lookup_take_lt by lia.
      pose proof (sy_matching0 _ _ _ HeP HeF (eq_sym Ht) i ltac:(lia)) as E.
      unfold entryAt in E. by rewrite sy_base0, (proj2 (Z.leb_le _ _)) in E by lia.
    + rewrite lookup_app_r by (rewrite length_take; lia).
      rewrite lookup_drop, length_take. f_equal. lia.
Qed.

(** *** A follower whose snapshot is ahead *)

(** The leader has compressed nothing and the entries it would send start inside the
    follower's snapshot. *)
Record snapshotAhead (peer next : Z) L F : Prop := {
  sa_L : raft_wf L;
  sa_F : raft_wf F;
  sa_role : role L = LEADER;
  sa_next : ∃ l, leaderPtr L = Some l ∧ nextIndexs l !! Z.to_nat peer = Some next;
  sa_peer : 0 ≤ peer < peers L;
  sa_base : lastIncludedIndex L = 0;
  sa_term : currentTerm F ≤ currentTerm L;
  sa_range : 0 < next ≤ lastLogIndex L;
  sa_inside : next ≤ lastIncludedIndex F;
}.

Lemma snapshotAhead_exchange peer next L F :
  snapshotAhead peer next L F →
  ∃ L' F', exchange peer L F = Ret (L', F') ∧ snapshotAhead peer 1 L' F'
    ∧ logs L' = logs L ∧ logs F' = logs F.
Proof.
  intros []. destruct sa_next0 as (l & Hl & Hn).
  destruct (getLastLog_total L sa_L0) as (e & He & Hi & _).
  destruct (entryAt_total L (next - 1)) as [eP HeP]; [lia|].
  pose proof (entryAt_idx _ _ _ HeP) as Hidx.
  unfold exchange, doAppendEntriesRPC_args, leader. rewrite He, Hl. simpl.
  rewrite (proj2 (idx_Ret _ _ next)) by (split; [lia|done]). simpl.
  rewrite Hi, (proj2 (Z.leb_le _ _)), (proj2 (Z.leb_gt _ _)) by lia.
  unfold logIndex2LogPos in *. rewrite sa_base0 in *.
  replace (next - 0 - 1) with (next - 1 - 0) by lia. rewrite Hidx. simpl.
  rewrite slice_from_Ret by (unfold lastLogIndex in *; lia). simpl.
  set (args := mkAppendEntriesArgs _ _ _ _ _ _).
  rewrite (AppendEntries_greet args (drop (Z.to_nat (next - 0)) (logs L)))
    by (done || simpl; lia).
  destruct (greet_fields (LeaderTerm args) (set_heartBeatCh 0 F)) as (GT & GL & GI & GT' & _).
  assert (raft_wf (greet (LeaderTerm args) (set_heartBeatCh 0 F))) as Gwf
    by (apply greet_wf; by eapply raft_wf_ext; [..|exact sa_F0]).
  revert GT GL GI GT' Gwf. generalize (greet (LeaderTerm args) (set_heartBeatCh 0 F)).
  intros G GT GL GI GT' Gwf.
  apply entryAt_Some in HeP as [_ HeP]. apply (wf_indexed _ sa_L0) in HeP.
  rewrite follower_inside by (rewrite GI; simpl; lia). simpl.
  rewrite (proj2 (Z.ltb_ge _ _)), decide_True by (done || lia).
  unfold backUp, setNextIndex, leader. simpl. rewrite Hl. simpl.
  pose proof (lookup_lt_Some _ _ _ Hn).
  rewrite upd_Ret by (unfold len; lia). simpl. eexists _, _. split; [done|].
  split; [|done]. split; simpl; try done.
  - pose proof (wf_leader _ sa_L0) as Hw. rewrite sa_role0 in Hw.
    destruct Hw as (l' & Hl' & ? & ?). assert (l' = l) as -> by congruence.
    apply wf_set_leader; try done. unfold len in *. simpl. by rewrite length_insert.
  - eexists. split; [done|]. simpl. by apply list_lookup_insert_eq.
  - rewrite GT. simpl. lia.
  - unfold lastLogIndex in *. simpl. lia.
  - rewrite GI. simpl. lia.
Qed.

(** AppendEntries alone never helps such a follower: every exchange is refused and
    sends [nextIndexs[peer]] back to 1. *)
Theorem snapshot_ahead_stuck k peer next L F :
  snapshotAhead peer next L F →
  ∃ L' F', exchanges k peer L F = Ret (L', F') ∧ logs L' = logs L ∧ logs F' = logs F
    ∧ ∃ next', snapshotAhead peer next' L' F'.
Proof.
  revert next L F. induction k as [|k IH]; intros next L F Hs; simpl.
  { exists L, F. eauto. }
  destruct (snapshotAhead_exchange _ _ _ _ Hs) as (L1 & F1 & -> & Hs1 & HL & HF). simpl.
  destruct (IH _ _ _ Hs1) as (L2 & F2 & E & HL2 & HF2 & Hs2).
  exists L2, F2. split_and!; [done|congruence..|done].
Qed.

(** *** Progress *)

#[local] Opaque doAppendEntriesRPC_reply AppendEntries_entries.

(** the three outcomes of an exchange, from the follower's reply on *)
Definition progress (peer next : Z) L F F' (m : go (Raft Cmd * Z)) : Prop :=
  ∃ L' d, m = Ret (L', d) ∧ logs L' = logs L ∧ lastIncludedIndex L' = lastIncludedIndex L
    ∧ ((synced L F' ∧ ∃ l', leaderPtr L' = Some l'
                          ∧ matchIndexs l' !! Z.to_nat peer = Some (lastLogIndex L))
       ∨ ∃ next', syncing peer next' L' F' ∧ lag next' F' < lag next F).

Lemma progress_short peer next L F args :
  syncing peer next L F → LeaderTerm args = currentTerm L → lastLogIndex F < next - 1 →
  progress peer next L F F (doAppendEntriesRPC_reply peer args (Replied
    (mkAppendEntriesReply (currentTerm L) false (-1) 0 (lastLogIndex F))) L).
Proof.
  intros Hs AT Hshort. pose proof Hs as []. pose proof (lastLogIndex_ge _ sy_F0).
  destruct (leader_backs_up peer next L F args
    (mkAppendEntriesReply (currentTerm L) false (-1) 0 (lastLogIndex F)))
    as (v & L' & -> & Hs' & El & Ei & Hv); try done; simpl; try lia.
  exists L', 0. split_and!; try done. right. exists v. split; [done|].
  unfold lag. rewrite Hv by done. simpl. bool_split; lia.
Qed.

Lemma progress_accept peer next L F F' args eP eF :
  syncing peer next L F → LeaderTerm args = currentTerm L →
  Entries args = Some (drop (Z.to_nat (next - lastIncludedIndex L)) (logs L)) →
  entryAt L (next - 1) = Some eP → entryAt F (next - 1) = Some eF → LogTerm eF = LogTerm eP →
  lastIncludedIndex F' = lastIncludedIndex F →
  logs F' = take (Z.to_nat (next - 1 - lastIncludedIndex F + 1)) (logs F)
            ++ drop (Z.to_nat (next - lastIncludedIndex L)) (logs L) →
  progress peer next L F F' (doAppendEntriesRPC_reply peer args (Replied
    (mkAppendEntriesReply (currentTerm L) true 0 0 0)) L).
Proof.
  intros Hs AT AE HeP HeF Hterm HiF HlF. pose proof Hs as [].
  destruct (leader_succeeds peer next L F args _
    (mkAppendEntriesReply (currentTerm L) true 0 0 0) Hs AT eq_refl AE)
    as (L' & l' & -> & [(_&_&El&Ei&_)%pstate_inv _] & Hl' & Hm).
  - unfold lastLogIndex, len in *. intros Hd%(f_equal length). rewrite length_drop in Hd.
    simpl in Hd. lia.
  - replace next with (lastIncludedIndex L + Z.of_nat (Z.to_nat (next - lastIncludedIndex L)))
      at 1 by lia. apply indexed_drop, sy_L0.
  - unfold lastLogIndex, len in *. rewrite length_drop. lia.
  - exists L', 0. split_and!; try done. left. split; [|by exists l'].
    by eapply accept_synced.
Qed.

Lemma progress_conflict peer next L F args eP eF x :
  syncing peer next L F → LeaderTerm args = currentTerm L →
  entryAt L (next - 1) = Some eP → entryAt F (next - 1) = Some eF → LogTerm eF ≠ LogTerm eP →
  lastIncludedIndex F < next - 1 → lastIncludedIndex F < x ≤ next - 1 →
  currentTerm F = currentTerm L →
  let F' := persist (set_logs (take (Z.to_nat (logIndex2LogPos F (next - 1))) (logs F)) F) in
  progress peer next L F F' (doAppendEntriesRPC_reply peer args (Replied
    (mkAppendEntriesReply (currentTerm L) false (LogTerm eF) x 0)) L).
Proof.
  intros Hs AT HeP HeF Hterm Hb Hx GT F'. pose proof Hs as [].
  pose proof (entryAt_bound _ _ _ HeF) as HbF.
  assert (lastLogIndex F' = next - 2) as HlF'.
  { unfold lastLogIndex, len, logIndex2LogPos in *. simpl. rewrite length_take. lia. }
  assert (syncing peer next L F') as HsF.
  { eapply syncing_sublog; [exact Hs|..]; try done.
    - apply wf_persist, wf_truncate; [done|lia].
    - intros i Hi. subst F'. apply entryAt_take; [done|]. unfold logIndex2LogPos. lia. }
  assert (LogTerm eF ≠ currentTerm L) as Hne.
  { intros Heq. pose proof (sy_own0 _ _ HeF Heq). congruence. }
  pose proof (sy_nonneg0 _ _ HeF).
  destruct (leader_backs_up peer next L F' args
    (mkAppendEntriesReply (currentTerm L) false (LogTerm eF) x 0))
    as (v & L' & -> & Hs' & El & Ei & Hv); try done; simpl; try lia.
  exists L', 0. split_and!; try done. right. exists v. split; [done|].
  unfold lag. rewrite HlF'. simpl. bool_split; lia.
Qed.

Lemma greet_syncing peer next L F :
  syncing peer next L F →
  let G := greet (currentTerm L) (set_heartBeatCh 0 F) in
  syncing peer next L G ∧ currentTerm G = currentTerm L ∧ lag next G = lag next F.
Proof.
  intros Hs. pose proof Hs as []. cbv zeta.
  destruct (greet_fields (currentTerm L) (set_heartBeatCh 0 F)) as (GT & GL & GI & GT' & _).
  assert (raft_wf (greet (currentTerm L) (set_heartBeatCh 0 F))) as Gwf
    by (apply greet_wf; by eapply raft_wf_ext; [..|exact sy_F0]).
  revert GT GL GI GT' Gwf. generalize (greet (currentTerm L) (set_heartBeatCh 0 F)).
  simpl. intros G GT GL GI GT' Gwf. split_and!; [|done|].
  - eapply syncing_sublog; try done; rewrite ?GT; try done; try lia.
    intros i _. unfold entryAt. by rewrite GL, GI.
  - unfold lag, lastLogIndex. by rewrite GL, GI.
Qed.

(** the reply of the follower (after the greeting) that an exchange gets *)
Lemma follower_reply peer next L G args eP :
  syncing peer next L G → currentTerm G = currentTerm L → LeaderTerm args = currentTerm L →
  PrevLogIndex args = next - 1 → PrevLogTerm args = LogTerm eP →
  Entries args = Some (drop (Z.to_nat (next - lastIncludedIndex L)) (logs L)) →
  entryAt L (next - 1) = Some eP →
  ∃ F' reply,
    AppendEntries_entries (currentTerm L) args
      (drop (Z.to_nat (next - lastIncludedIndex L)) (logs L)) G = Ret (F', reply)
    ∧ progress peer next L G F' (doAppendEntriesRPC_reply peer args (Replied reply) L).
Proof.
  intros Hs GT AT AI AP AE HeP. pose proof Hs as [].
  destruct (decide (lastLogIndex G < next - 1)) as [Hshort|Hlong].
  { eexists _, _. split; [apply follower_short; done || lia|].
    apply progress_short; done || lia. }
  destruct (entryAt_total G (next - 1)) as [eF HeF]; [lia|].
  destruct (decide (LogTerm eF = LogTerm eP)) as [Hterm|Hterm].
  - destruct (follower_accept (currentTerm L) args
      (drop (Z.to_nat (next - lastIncludedIndex L)) (logs L)) G eF) as (F' & E & HiF & HlF);
      rewrite ?AI, ?AP; try done; try lia.
    { replace (next - 1 + 1)
        with (lastIncludedIndex L + Z.of_nat (Z.to_nat (next - lastIncludedIndex L))) by lia.
      apply indexed_drop, sy_L0. }
    eexists _, _. split; [exact E|]. unfold logIndex2LogPos in HlF. rewrite AI in HlF.
    by eapply progress_accept.
  - assert (lastIncludedIndex G < next - 1) as Hb.
    { destruct (decide (next - 1 = lastIncludedIndex G)) as [Hn|]; [|lia].
      exfalso. apply Hterm. rewrite Hn in HeF, HeP. rewrite sy_base0 in HeP.
      apply entryAt_Some in HeP as [_ HeP], HeF as [_ HeF]. rewrite Z.sub_diag in *.
      rewrite (wf_sentinel _ sy_F0 _ HeF), (wf_sentinel _ sy_L0 _ HeP). congruence. }
    destruct (follower_conflict (currentTerm L) args
      (drop (Z.to_nat (next - lastIncludedIndex L)) (logs L)) G eF) as (x & Hx & E);
      rewrite ?AI, ?AP; try done; try lia.
    eexists _, _. split; [exact E|]. rewrite AI in *. by eapply progress_conflict.
Qed.

(** one exchange *)
Lemma exchange_step peer next L F :
  syncing peer next L F →
  ∃ L' F', exchange peer L F = Ret (L', F') ∧ logs L' = logs L
    ∧ lastIncludedIndex L' = lastIncludedIndex L
    ∧ ((synced L F' ∧ ∃ l', leaderPtr L' = Some l'
                          ∧ matchIndexs l' !! Z.to_nat peer = Some (lastLogIndex L))
       ∨ ∃ next', syncing peer next' L' F' ∧ lag next' F' < lag next F).
Proof.
  intros Hs. destruct (syncing_args _ _ _ _ Hs) as (eP & HeP & Ea).
  destruct (greet_syncing _ _ _ _ Hs) as (HsG & GT & Glag). cbv zeta in *.
  unfold exchange. rewrite Ea. clear Ea. simpl.
  set (args := mkAppendEntriesArgs _ _ _ _ _ _).
  rewrite (AppendEntries_greet args (drop (Z.to_nat (next - lastIncludedIndex L)) (logs L)))
    by (done || apply Hs).
  destruct (follower_reply peer next L _ args eP HsG GT eq_refl eq_refl eq_refl eq_refl HeP)
    as (F' & reply & E & L' & d & Er & El & Ei & Hp).
  change (LeaderTerm args) with (currentTerm L). rewrite E. simpl. rewrite Er. simpl.
  rewrite <-Glag. by exists L', F'.
Qed.

Lemma synced_ext L L' F :
  logs L' = logs L → lastIncludedIndex L' = lastIncludedIndex L → synced L' F → synced L F.
Proof.
  intros El Ei. unfold synced, lastLogIndex, entryAt. by rewrite El, Ei.
Qed.

Lemma lag_nonneg next F : raft_wf F → 0 ≤ lag next F.
Proof. intros ?%lastLogIndex_ge. unfold lag. case_match; lia. Qed.


End replication.
