(* ===== verification/RaftCluster.v ===== *)
(** * Package raft: logs across a cluster

    What holds of the logs of a cluster in which a term is won at most once, snapshots are
    sent by leaders, and no request contradicts a receiver's snapshot.  [cstep] has the
    steps of such a cluster that touch logs and their messages; the peers' own steps are
    all there, whatever the messages were.  It serves the proofs: [RaftSystem.v] has the
    cluster as it runs, and [RaftLogMatching.v] shows for which of its executions these
    steps are enough.

    The invariant relates the peers to a forest: every entry ever created, with the
    term of its predecessor, by index and term.  Every log in the cluster, and every
    list of entries in a message, is a path in it. *)

From S2P Require Import Prelude Gob Raft RaftStep RaftPersist RaftLog RaftSafety.
From S2P Require Import RaftElection RaftCommit.

(** an entry and the term of its predecessor, by log index and term *)
Abbreviation Forest Cmd := (gmap (Z * Z) (LogEntry Cmd * Z)).

Section forest.
Context {Cmd : Type}.
Implicit Types (e s p : LogEntry Cmd) (ls es : list (LogEntry Cmd)).

Implicit Types F : Forest Cmd.

(** [e] stands for an entry of the forest, or for the start of the log; the head of
    a log has lost its command *)
Definition nodeOK F e : Prop :=
  (LogIndex e = 0 ∧ LogTerm e = 0 ∧ CommandIndex e = 0)
  ∨ ∃ e' tp, F !! (LogIndex e, LogTerm e) = Some (e', tp) ∧ CommandIndex e' = CommandIndex e.

(** [e'] follows [e]: the next index, a command index that counts commands, and an
    entry of the forest *)
Definition link F e e' : Prop :=
  LogIndex e' = LogIndex e + 1
  ∧ CommandIndex e' = (if IsInternalLog e' then CommandIndex e else CommandIndex e + 1)
  ∧ F !! (LogIndex e', LogTerm e') = Some (e', LogTerm e).

Definition chain F ls : Prop :=
  (∀ e, head ls = Some e → nodeOK F e)
  ∧ ∀ k e e', ls !! k = Some e → ls !! S k = Some e' → link F e e'.

Record forest_ok F (elected : gmap Z nat) : Prop := {
  fo_key : ∀ i t e tp, F !! (i, t) = Some (e, tp) →
    LogIndex e = i ∧ LogTerm e = t ∧ 1 ≤ i ∧ 0 ≤ CommandIndex e ∧ is_Some (elected !! t);
  (* within a term, command indices count the commands *)
  fo_term : ∀ i i' t e e' tp tp', F !! (i, t) = Some (e, tp) → F !! (i', t) = Some (e', tp') →
    i < i' → CommandIndex e ≤ CommandIndex e'
             ∧ (IsInternalLog e' = false → CommandIndex e < CommandIndex e');
}.

Lemma chain_nil F : chain F [].
Proof. split; [done|]. by intros k e e'. Qed.

Lemma link_node F e e' : link F e e' → nodeOK F e'.
Proof. intros (_ & _ & H). right. eauto. Qed.

Lemma chain_lookup F s ls k e :
  chain F (s :: ls) → (s :: ls) !! k = Some e →
  LogIndex e = LogIndex s + Z.of_nat k ∧ nodeOK F e ∧ CommandIndex s ≤ CommandIndex e.
Proof.
  intros [Hh Hl]. revert e. induction k as [|k IH]; intros e He.
  - simpl in He. simplify_eq. split_and!; [lia|by apply Hh|lia].
  - destruct (lookup_lt_is_Some_2 (s :: ls) k) as [e0 He0];
      [apply lookup_lt_Some in He; lia|].
    destruct (IH e0 He0) as (H1 & _ & H2). pose proof (Hl _ _ _ He0 He) as Hlk.
    split_and!; [destruct Hlk; lia|by eapply link_node|].
    destruct Hlk as (_ & H3 & _). destruct (IsInternalLog e); lia.
Qed.

Lemma chain_sub F ls k m : chain F ls → chain F (take m (drop k ls)).
Proof.
  intros Hc. destruct ls as [|s ls]; [rewrite drop_nil, take_nil; apply chain_nil|]. split.
  - intros e He. rewrite head_lookup in He.
    apply lookup_take_Some in He as [He _]. rewrite lookup_drop in He.
    by apply (chain_lookup F s ls _ _ Hc) in He as (_ & ? & _).
  - intros j e e' [He _]%lookup_take_Some [He' _]%lookup_take_Some.
    rewrite lookup_drop in He, He'. apply (proj2 Hc (k + j)%nat e e' He).
    by replace (S (k + j))%nat with (k + S j)%nat by lia.
Qed.

Lemma chain_take F ls m : chain F ls → chain F (take m ls).
Proof. intros H. by apply (chain_sub F ls 0 m) in H. Qed.

Lemma chain_drop F ls k : chain F ls → chain F (drop k ls).
Proof.
  intros H. apply (chain_sub F ls k (length ls)) in H.
  by rewrite take_ge in H by (rewrite length_drop; lia).
Qed.

(** a link depends on the place of the predecessor only *)
Lemma link_place F e1 e2 e' :
  LogIndex e1 = LogIndex e2 → LogTerm e1 = LogTerm e2 → CommandIndex e1 = CommandIndex e2 →
  link F e1 e' → link F e2 e'.
Proof. unfold link. by intros -> -> ->. Qed.

Lemma node_fun F el e1 e2 :
  forest_ok F el → nodeOK F e1 → nodeOK F e2 →
  LogIndex e1 = LogIndex e2 → LogTerm e1 = LogTerm e2 → CommandIndex e1 = CommandIndex e2.
Proof.
  intros Hf [(H1 & H2 & H3)|(a & ta & Ha & Ca)] [(H1' & H2' & H3')|(b & tb & Hb & Cb)] Hi Ht.
  - congruence.
  - apply (fo_key _ _ Hf) in Hb as (_ & _ & ? & _ & _). lia.
  - apply (fo_key _ _ Hf) in Ha as (_ & _ & ? & _ & _). lia.
  - rewrite Hi, Ht in Ha. congruence.
Qed.

(** entries that follow [p] go behind a log that ends in an entry at the same place *)
Lemma chain_join F el ls e p es :
  forest_ok F el → chain F ls → last ls = Some e → chain F (p :: es) →
  LogIndex p = LogIndex e → LogTerm p = LogTerm e → chain F (ls ++ es).
Proof.
  intros Hf Hc Hlast Hp Hi Ht. destruct ls as [|s ls]; [done|].
  assert (nodeOK F e) as Hne.
  { rewrite last_lookup in Hlast. by apply (chain_lookup F s ls _ _ Hc) in Hlast as (_ & ? & _). }
  assert (CommandIndex p = CommandIndex e) as Hci
    by (eapply node_fun; eauto; by apply Hp).
  split; [intros e0 He0; by apply Hc|]. rewrite last_lookup in Hlast.
  intros k e1 e2 H1 H2.
  destruct (decide (S k < length (s :: ls))%nat) as [Hk|Hk].
  { rewrite !lookup_app_l in * by lia. by eapply Hc. }
  rewrite (lookup_app_r _ _ (S k)) in H2 by lia.
  destruct (decide (k < length (s :: ls))%nat) as [Hk'|Hk'].
  - rewrite lookup_app_l in H1 by lia.
    assert (k = pred (length (s :: ls))) as -> by lia. rewrite Hlast in H1. simplify_eq.
    replace (S (pred (length (s :: ls))) - length (s :: ls))%nat with 0%nat in H2 by (simpl; lia).
    eapply link_place; [done..|]. by apply (proj2 Hp 0%nat).
  - rewrite lookup_app_r in H1 by lia.
    replace (S k - length (s :: ls))%nat with (S (k - length (s :: ls))) in H2 by lia.
    by apply (proj2 Hp (S (k - length (s :: ls)))).
Qed.

(** replacing the head by an entry at the same place *)
Lemma chain_head F s s' ls :
  LogIndex s' = LogIndex s → LogTerm s' = LogTerm s → CommandIndex s' = CommandIndex s →
  chain F (s :: ls) → chain F (s' :: ls).
Proof.
  intros Hi Ht Hc [Hh Hl]. split.
  - simpl. intros e [= <-]. specialize (Hh s eq_refl). unfold nodeOK in *.
    by rewrite Hi, Ht, Hc.
  - intros [|k] e e' He He'; simpl in He.
    + simplify_eq. eapply link_place; [..|by apply (Hl 0%nat)]; done.
    + by apply (Hl (S k)).
Qed.

Lemma chain_mono F F' ls : F ⊆ F' → chain F ls → chain F' ls.
Proof.
  intros Hs [Hh Hl]. split.
  - intros e [?|(e' & tp & ? & ?)]%Hh; [by left|right]. exists e', tp.
    split; [by eapply lookup_weaken|done].
  - intros k e e' He He'. destruct (Hl k e e' He He') as (? & ? & ?).
    split_and!; try done. by eapply lookup_weaken.
Qed.
Lemma node_mono F F' e : F ⊆ F' → nodeOK F e → nodeOK F' e.
Proof.
  intros Hs [?|(e' & tp & ? & ?)]; [by left|right]. exists e', tp.
  split; [by eapply lookup_weaken|done].
Qed.

Lemma node_bounds F el e :
  forest_ok F el → nodeOK F e → 0 ≤ LogIndex e ∧ 0 ≤ CommandIndex e.
Proof.
  intros Hf [(-> & _ & ->)|(e' & tp & H & <-)]; [lia|].
  apply (fo_key _ _ Hf) in H as (_ & _ & ? & ? & _). lia.
Qed.

(** *** Growth: a new entry behind [p] *)

Definition grow F p e : Forest Cmd := <[(LogIndex e, LogTerm e) := (e, LogTerm p)]> F.

Lemma grow_lookup F p e j t a tp :
  grow F p e !! (j, t) = Some (a, tp) →
  (j = LogIndex e ∧ t = LogTerm e ∧ a = e ∧ tp = LogTerm p) ∨ F !! (j, t) = Some (a, tp).
Proof. unfold grow. intros [[[= <- <-] [= <- <-]]|[_ H]]%lookup_insert_Some; auto. Qed.

(** [p] is past every entry of the term [t] *)
Definition topOf F (t : Z) p : Prop :=
  ∀ j e tp, F !! (j, t) = Some (e, tp) → j ≤ LogIndex p ∧ CommandIndex e ≤ CommandIndex p.

Definition follows p e : Prop :=
  LogIndex e = LogIndex p + 1
  ∧ CommandIndex e = if IsInternalLog e then CommandIndex p else CommandIndex p + 1.

Lemma grow_mono F p e : follows p e → topOf F (LogTerm e) p → F ⊆ grow F p e.
Proof.
  intros [Hi _] Ht. apply insert_subseteq, eq_None_not_Some. intros [[e' tp] H].
  apply Ht in H. lia.
Qed.

Lemma grow_chain F p e ls :
  chain F ls → last ls = Some p → follows p e → topOf F (LogTerm e) p →
  chain (grow F p e) (ls ++ [e]).
Proof.
  intros Hc Hl [Hi Hci] Ht. pose proof (grow_mono F p e (conj Hi Hci) Ht) as Hs.
  apply (chain_mono _ _ _ Hs) in Hc. rewrite last_lookup in Hl.
  assert (ls ≠ []) as Hne by by intros ->.
  split; [intros a Ha; apply Hc; by destruct ls|]. intros k a b Ha Hb.
  destruct (decide (S k < length ls)%nat) as [Hk|Hk].
  { rewrite !lookup_app_l in * by lia. by eapply Hc. }
  rewrite (lookup_app_r _ _ (S k)) in Hb by lia.
  apply list_lookup_singleton_Some in Hb as [Hk' <-].
  rewrite lookup_app_l in Ha by (destruct ls; simpl in *; [done|lia]).
  replace (pred (length ls)) with k in Hl by lia. simplify_eq.
  split_and!; [done|done|]. by apply lookup_insert_eq.
Qed.

Lemma grow_ok F el el' p e :
  forest_ok F el → nodeOK F p → follows p e → topOf F (LogTerm e) p →
  is_Some (el' !! LogTerm e) → el ⊆ el' → forest_ok (grow F p e) el'.
Proof.
  intros Hf Hp [Hi Hci] Ht Hel Hsub. destruct (node_bounds _ _ _ Hf Hp) as [Hb1 Hb2]. split.
  - intros i t a tp [(-> & -> & -> & ->)|Ha]%grow_lookup.
    + split_and!; try done; [lia|]. destruct (IsInternalLog e); lia.
    + apply (fo_key _ _ Hf) in Ha as (? & ? & ? & ? & [x ?]). split_and!; try done.
      exists x. by eapply lookup_weaken.
  - intros i i' t a b tp tp' [(-> & -> & -> & _)|Ha]%grow_lookup
      [(-> & ? & -> & _)|Hb]%grow_lookup Hlt; subst.
    + lia.
    + apply Ht in Hb. lia.
    + apply Ht in Ha. destruct (IsInternalLog e); [split; [lia|done]|lia].
    + by eapply (fo_term _ _ Hf).
Qed.

Lemma grow_topOf F p e t q :
  topOf F t q → t ≠ LogTerm e → topOf (grow F p e) t q.
Proof.
  intros Ht Hne j a tp [(_ & ? & _)|H]%grow_lookup; [done|by eapply Ht].
Qed.

Lemma grow_topOf_new F p e :
  follows p e → topOf F (LogTerm e) p → topOf (grow F p e) (LogTerm e) e.
Proof.
  intros [Hi Hci] Ht j a tp [(-> & _ & -> & _)|H]%grow_lookup; [lia|].
  apply Ht in H. destruct (IsInternalLog e); lia.
Qed.
End forest.

(** ** The peers *)

Section peer.
Context {Cmd : Type} `{!GobCodec Z} `{!GobCodec (list (LogEntry Cmd))}.
Implicit Types (rf : Raft Cmd) (F : Forest Cmd) (el : gmap Z nat) (i : nat).

Record peer_ok F el i rf : Prop := {
  po_chain : chain F (logs rf);
  po_head : ∃ s, head (logs rf) = Some s ∧ LogIndex s = lastIncludedIndex rf
    ∧ LogTerm s = lastIncludedTerm rf ∧ CommandIndex s = lastIncludedCmdIndex rf;
  po_durable : durable rf;
  po_leader : role rf = LEADER → el !! currentTerm rf = Some i
    ∧ ∀ p, last (logs rf) = Some p → topOf F (currentTerm rf) p;
}.

(** the steps that leave the log alone *)
Definition quiet (op : RaftOp Cmd) : bool :=
  match op with
  | OpAppendEntries _ | OpInstallSnapshot _ | OpTakeSnapshot _ _ | OpStart _
  | OpElectionDecide Win => false
  | _ => true
  end.

(** same log; a leader has been leading *)
Definition calm rf rf' : Prop :=
  (logs rf', lastIncludedIndex rf', lastIncludedTerm rf', lastIncludedCmdIndex rf')
  = (logs rf, lastIncludedIndex rf, lastIncludedTerm rf, lastIncludedCmdIndex rf)
  ∧ (role rf' = LEADER → role rf = LEADER ∧ currentTerm rf' = currentTerm rf).

#[export] Instance calm_preorder : PreOrder calm.
Proof.
  unfold calm. split; [by intros ?|]. intros a b c [E1 H1] [E2 H2].
  split; [congruence|]. intros Hc. destruct (H2 Hc) as [Hb ?]. destruct (H1 Hb).
  split; [done|congruence].
Qed.

Lemma frame_calm rf rf' : frame rf rf' → calm rf rf'.
Proof.
  intros (Hp & _ & Hr). apply pstate_inv in Hp as (Ht & _ & El & Ei & Et & Ec).
  split; [congruence|]. intros Hl. split; congruence.
Qed.

Lemma becomeFollower_calm t rf : calm rf (becomeFollower t rf).
Proof.
  destruct (becomeFollower_fields t rf) as (?&?&Hr&?&E1&E2&E3&E4&_).
  split; [congruence|]. rewrite Hr. done.
Qed.

Lemma calm_ok F el i rf rf' :
  calm rf rf' → durable rf' → peer_ok F el i rf → peer_ok F el i rf'.
Proof.
  intros [E Hr] Hd [Hc (s & Hs) _ Hl]. injection E as El Ei Et Ec. split; [..|done|].
  - by rewrite El.
  - exists s. by rewrite El, Ei, Et, Ec.
  - intros [Hlead ->]%Hr. rewrite El. by apply Hl.
Qed.

Create HintDb calm.
#[local] Hint Resolve becomeFollower_calm frame_sendHeartBeat frame_recvHeartBeat
  frame_replicationSucceeded frame_backUp : calm.

#[local] Ltac calm := simpl; first [done | by apply becomeFollower_calm | by split
  | by apply frame_calm; eauto with calm].

Lemma exec_quiet op rf rf' : quiet op = true → exec op rf = Ret rf' → calm rf rf'.
Proof.
  destruct op; simpl; intros Hq H; try done; try go_step H; subst.
  - unfold RequestVote_read in *. go_steps E. case_match; calm.
  - unfold RequestVote_grant in *. go_steps E; try calm. fwd frame_sendHeartBeat.
    match goal with H : frame _ _ |- _ => apply frame_calm in H end.
    etrans; [|by split]. etrans; [|eassumption]. by split.
  - calm.
  - unfold StartElection_begin in *. go_steps E; calm.
  - destruct d; simpl in *; go_steps H; calm.
  - calm.
  - destruct ev; simpl in *; go_steps E; try calm. fwd frame_recvHeartBeat.
    etrans; [by apply frame_calm|calm].
  - calm.
  - calm.
  - unfold doAppendEntriesRPC_reply in *. go_steps E; calm.
  - unfold doInstallSnapshotRPC_reply in *. go_steps E; try calm.
    fwd frame_setNextIndex. fwd frame_setMatchIndex. apply frame_calm. by etrans.
Qed.

(** *** A new entry *)

Lemma append_ok F el el' i rf rf' p e :
  peer_ok F el i rf → last (logs rf) = Some p → follows p e → LogTerm e = currentTerm rf →
  topOf F (currentTerm rf) p → el' !! currentTerm rf = Some i →
  pstate rf' = pstate (set_logs (logs rf ++ [e]) rf) → durable rf' →
  peer_ok (grow F p e) el' i rf'.
Proof.
  intros [Hc (s & Hs & Hs') _ _] Hp Hfo Ht Htop Hel E Hd.
  apply pstate_inv in E as (Et & _ & El & Ei & Eit & Eic). simpl in *. split; [..|done|].
  - rewrite El. apply grow_chain; [done..|by rewrite Ht].
  - exists s. rewrite El, Ei, Eit, Eic. split; [|done]. by destruct (logs rf).
  - intros _. rewrite Et, El. split; [done|]. intros q Hq. rewrite last_snoc in Hq. simplify_eq.
    rewrite <-Ht. apply grow_topOf_new; [done|by rewrite Ht].
Qed.

(** the peers that do not lead the entry's term *)
Lemma others_ok F el el' i j rf p e :
  i ≠ j → el' !! LogTerm e = Some i → el ⊆ el' → follows p e → topOf F (LogTerm e) p →
  peer_ok F el j rf → peer_ok (grow F p e) el' j rf.
Proof.
  intros Hij Hel Hsub Hfo Htop [Hc Hh Hd Hl]. split; [|done..|].
  - eapply chain_mono; [by apply grow_mono|done].
  - intros [H1 H2]%Hl. assert (el' !! currentTerm rf = Some j) by by eapply lookup_weaken.
    split; [done|]. intros q Hq. apply grow_topOf; [by apply H2|]. congruence.
Qed.

Lemma becomeLeader_append rf rf' :
  becomeLeader rf = Ret rf' →
  ∃ p e, last (logs rf) = Some p ∧ follows p e ∧ LogTerm e = currentTerm rf
    ∧ pstate rf' = pstate (set_logs (logs rf ++ [e]) rf) ∧ durable rf'.
Proof.
  intros H. pose proof (saved_becomeLeader _ _ H) as Hs. unfold becomeLeader in H. cbv zeta in H.
  go_step H. go_step H. apply last_idx in E.
  exists a. eexists. split_and!; [done|..|by left].
  3: { rewrite <-H. etrans; [apply frame_startHeartBeats|reflexivity]. }
  - by split.
  - done.
Qed.

Lemma Start_append cmd rf rf' ci t ld :
  Start cmd rf = Ret (rf', (ci, t, ld)) →
  (rf' = rf ∧ ci = -1 ∧ t = -1)
  ∨ role rf = LEADER ∧ t = currentTerm rf
    ∧ ∃ p e, last (logs rf) = Some p ∧ follows p e ∧ LogTerm e = currentTerm rf
        ∧ CommandIndex e = ci ∧ Command e = Some cmd ∧ IsInternalLog e = false
        ∧ pstate rf' = pstate (set_logs (logs rf ++ [e]) rf) ∧ durable rf'.
Proof.
  unfold Start. intros H. cbv zeta in H. repeat go_step H; simplify_eq; auto.
  right. split_and!; [done..|]. apply last_idx in E0. exists a. eexists.
  split_and!; [done|..|reflexivity|by left]; done || by split.
Qed.

(** *** AppendEntries *)

Lemma relog_ok F el i rf rf' :
  peer_ok F el i rf → role rf' ≠ LEADER → durable rf' → chain F (logs rf') →
  head (logs rf') = head (logs rf) → lastIncludedIndex rf' = lastIncludedIndex rf →
  lastIncludedTerm rf' = lastIncludedTerm rf →
  lastIncludedCmdIndex rf' = lastIncludedCmdIndex rf → peer_ok F el i rf'.
Proof.
  intros [_ (s & Hs) _ _] Hr Hd Hc Eh Ei Et Ec. split; [done| |done|done].
  exists s. by rewrite Eh, Ei, Et, Ec.
Qed.

(** where an index of the log is *)
Lemma peer_lookup F el i rf k e :
  peer_ok F el i rf → logs rf !! k = Some e →
  LogIndex e = lastIncludedIndex rf + Z.of_nat k ∧ nodeOK F e
  ∧ lastIncludedCmdIndex rf ≤ CommandIndex e.
Proof.
  intros [Hc (s & Hs & <- & _ & <-) _ _] He. destruct (logs rf) as [|s' ls]; [done|].
  injection Hs as ->. by eapply chain_lookup.
Qed.

(** the entries of a message follow its [PrevLogIndex] and [PrevLogTerm] *)
Definition entries_ok F (args : AppendEntriesArgs Cmd) : Prop :=
  ∀ es, Entries args = Some es → ∃ p, LogIndex p = PrevLogIndex args
    ∧ LogTerm p = PrevLogTerm args ∧ chain F (p :: es).

Lemma AppendEntries_entries_ok F el i t args es rf rf' reply :
  forest_ok F el → peer_ok F el i rf → role rf ≠ LEADER →
  Entries args = Some es → entries_ok F args →
  (PrevLogIndex args = lastIncludedIndex rf → PrevLogTerm args = lastIncludedTerm rf) →
  AppendEntries_entries t args es rf = Ret (rf', reply) → peer_ok F el i rf'.
Proof.
  intros Hf Hok Hr Hes Hargs Hsn H. unfold AppendEntries_entries in H. cbv zeta in H.
  go_step H; [by go_steps H|]. go_step H. go_step H; [|by go_steps H].
  go_step H. apply idx_Ret in E2 as [Hpos Hlk].
  destruct (peer_lookup _ _ _ _ _ _ Hok Hlk) as (Hi & _ & _). unfold logIndex2LogPos in *.
  go_step H; go_step H.
  - go_step H. injection H as <- <-. apply slice_to_inv in E3 as [Hb ->].
    apply frame_AppendEntries_commit in E4.
    pose proof (frame_durable _ _ E4 (or_introl (saved_persist _))) as Hd.
    destruct E4 as [(_ & _ & El & Ei & Et & Ec)%pstate_inv [_ Er]]. simpl in *.
    eapply relog_ok; try done; [congruence| |].
    + rewrite El. destruct (Hargs es Hes) as (p & Hpi & Hpt & Hch).
      eapply (chain_join F el _ a0 p); try done; [apply chain_take, Hok| |lia..].
      replace (Z.to_nat _) with (S (Z.to_nat (PrevLogIndex args - lastIncludedIndex rf))) by lia.
      by rewrite (take_S_r _ _ _ Hlk), last_snoc.
    + rewrite El, Z2Nat.inj_add by lia. rewrite Nat.add_comm. by destruct (logs rf).
  - go_step H. injection H as <- <-. apply slice_to_inv in E4 as [Hb ->].
    eapply relog_ok; try done; [by left|apply chain_take, Hok|]. simpl.
    destruct (decide (PrevLogIndex args = lastIncludedIndex rf)) as [Heq|Hne].
    + destruct (po_head _ _ _ _ Hok) as (s & Hs & _ & Hst & _). rewrite head_lookup in Hs.
      rewrite Heq, Z.sub_diag in Hlk. change (Z.to_nat 0) with 0%nat in Hlk.
      rewrite Hs in Hlk. simplify_eq. rewrite Hsn in E2 by done. lia.
    + destruct (Z.to_nat (PrevLogIndex args - lastIncludedIndex rf)) eqn:?; [lia|].
      by destruct (logs rf).
Qed.

Lemma AppendEntries_ok F el i args rf rf' reply :
  forest_ok F el → peer_ok F el i rf → entries_ok F args → op_pre (OpAppendEntries args) rf →
  AppendEntries args rf = Ret (rf', reply) → peer_ok F el i rf'.
Proof.
  intros Hf Hok Hargs Hpre H. unfold AppendEntries in H. cbv zeta in H.
  go_step H; [by go_steps H|]. go_step H.
  destruct (becomeFollower_fields (LeaderTerm args) rf) as (_&_&Hr&_&_&Hi&Ht&_).
  cbv zeta in Hr, Hi, Ht.
  assert (frame (becomeFollower (LeaderTerm args) rf) a) as Hfr
    by (destruct (role rf); [by apply frame_sendHeartBeat..|by go_steps E0]).
  clear E0. assert (peer_ok F el i a) as Hoka.
  { eapply calm_ok; [etrans; [apply becomeFollower_calm|by apply frame_calm]| |exact Hok].
    eapply frame_durable; [done|left; apply saved_becomeFollower]. }
  pose proof Hfr as [(_ & _ & _ & Ei & Et & _)%pstate_inv [_ Er]].
  destruct (Entries args) as [es|] eqn:Ees.
  - eapply AppendEntries_entries_ok; try done; [by rewrite Er, Hr|].
    rewrite Ei, Et, Hi, Ht. by apply (Hpre es).
  - go_step H. injection H as <- <-. apply frame_AppendEntries_commit in E0.
    eapply calm_ok; [by apply frame_calm| |done]. eapply frame_durable; [done|apply Hoka].
Qed.

(** *** Snapshots *)

(** the log from position [k] on, its first entry turned into a sentinel *)
Lemma compact_chain F ls k e e' :
  chain F ls → ls !! k = Some e → LogIndex e' = LogIndex e → LogTerm e' = LogTerm e →
  CommandIndex e' = CommandIndex e → chain F (<[0%nat := e']> (drop k ls)).
Proof.
  intros Hc He Hi Ht Hci. rewrite (drop_head _ _ _ He). simpl.
  eapply (chain_head F e); [done..|]. rewrite <-(drop_head _ _ _ He). by apply chain_drop.
Qed.

Lemma TakeSnapshot_ok F el i snap li rf rf' :
  peer_ok F el i rf → TakeSnapshot snap li rf = Ret rf' → peer_ok F el i rf'.
Proof.
  intros Hok H. unfold TakeSnapshot in H. cbv zeta in H. go_step H; [by go_steps H|].
  go_step H. go_step H. go_step H. go_step H. injection H as <-. simpl in *.
  apply idx_Ret in E0 as [Hpos Hlk]. apply slice_from_inv in E1 as [_ ->].
  apply idx_Ret in E2 as [_ H0]. apply upd_inv in E3 as [_ ->].
  destruct (peer_lookup _ _ _ _ _ _ Hok Hlk) as (Hi & _ & _). unfold logIndex2LogPos in *.
  change (Z.to_nat 0) with 0%nat in *. rewrite (drop_head _ _ _ Hlk) in H0. injection H0 as ->.
  pose proof (compact_chain F (logs rf) _ _ (mkLogEntry (LogTerm a1) (LogIndex a1) None
    (CommandIndex a1) (IsInternalLog a1)) (po_chain _ _ _ _ Hok) Hlk eq_refl eq_refl eq_refl) as Hc.
  split; simpl; [done| |by left|].
  - rewrite (drop_head _ _ _ Hlk). eexists. split; [done|]. simpl. split_and!; [lia|done..].
  - intros Hlead. destruct (po_leader _ _ _ _ Hok Hlead) as [Hel Htop]. split; [done|].
    intros q Hq. rewrite (drop_head _ _ _ Hlk) in Hq. simpl in Hq.
    destruct (drop (S (Z.to_nat (li - lastIncludedIndex rf))) (logs rf)) as [|y l] eqn:Ed.
    + injection Hq as <-. apply (Htop a1).
      rewrite last_lookup. apply (f_equal length) in Ed. rewrite length_drop in Ed.
      apply lookup_lt_Some in Hlk as ?. simpl in Ed. rewrite <-Hlk. f_equal. lia.
    + apply Htop. rewrite <-Hq, last_cons_cons, <-Ed, !last_lookup, lookup_drop, length_drop.
      apply (f_equal length) in Ed. rewrite length_drop in Ed. simpl in Ed. f_equal. lia.
Qed.

Definition snapshot_ok F el (m : nat * InstallSnapshotArgs) : Prop :=
  el !! is_Term m.2 = Some m.1
  ∧ nodeOK F (sentinel (is_LastIncludedTerm m.2) (is_LastIncludedIndex m.2)
                       (is_LastIncludedCmdIndex m.2)).

Lemma InstallSnapshot_logs_ok F el i args rf ls :
  forest_ok F el → peer_ok F el i rf →
  nodeOK F (sentinel (is_LastIncludedTerm args) (is_LastIncludedIndex args)
                     (is_LastIncludedCmdIndex args)) →
  InstallSnapshot_logs args rf = Ret ls →
  chain F ls ∧ ∃ s, head ls = Some s ∧ LogIndex s = is_LastIncludedIndex args
    ∧ LogTerm s = is_LastIncludedTerm args ∧ CommandIndex s = is_LastIncludedCmdIndex args.
Proof.
  intros Hf Hok Hn H. unfold InstallSnapshot_logs in H. cbv zeta in H.
  assert (∀ s, s = sentinel (is_LastIncludedTerm args) (is_LastIncludedIndex args)
                     (is_LastIncludedCmdIndex args) → chain F [s]) as Hfresh.
  { intros s ->. split; [by intros e [= <-]|]. by intros [|k] e e'. }
  go_step H. go_step H; [|injection H as <-; split; [by apply Hfresh|by eexists]].
  go_step H. go_step H; [|injection H as <-; split; [by apply Hfresh|by eexists]].
  go_step H. go_step H. go_step H.
  apply idx_Ret in E1 as [Hpos Hlk]. apply slice_from_inv in E3 as [_ ->].
  destruct (peer_lookup _ _ _ _ _ _ Hok Hlk) as (Hi & Hna & _).
  apply last_idx in E. rewrite last_lookup in E.
  destruct (peer_lookup _ _ _ _ _ _ Hok E) as (Hia & _ & _).
  apply lookup_lt_Some in E as Hlt. unfold logIndex2LogPos in *.
  replace (LogIndex a - is_LastIncludedIndex args + 1)
    with (len (drop (Z.to_nat (is_LastIncludedIndex args - lastIncludedIndex rf)) (logs rf))) in E4
    by (unfold len; rewrite length_drop; lia).
  rewrite make_copy_exact in E4. injection E4 as <-.
  apply upd_inv in H as [_ ->]. apply idx_Ret in E5 as [_ H0].
  change (Z.to_nat 0) with 0%nat in *. rewrite (drop_head _ _ _ Hlk) in H0. injection H0 as <-.
  split; [eapply compact_chain; [apply Hok|done..]|].
  rewrite (drop_head _ _ _ Hlk). eexists. split; [done|]. simpl. split_and!; [lia|lia|].
  eapply (node_fun F el a0 (sentinel (is_LastIncludedTerm args) (is_LastIncludedIndex args)
    (is_LastIncludedCmdIndex args))); try done; simpl; lia.
Qed.

Lemma InstallSnapshot_ok F el i from args rf rf' reply :
  forest_ok F el → peer_ok F el i rf → snapshot_ok F el (from, args) → i ≠ from →
  InstallSnapshot args rf = Ret (rf', reply) → peer_ok F el i rf'.
Proof.
  intros Hf Hok [Hel Hn] Hne H. unfold InstallSnapshot in H. cbv zeta in H. simpl in Hel.
  go_step H; [by go_steps H|].
  set (rf1 := if currentTerm rf <? is_Term args then becomeFollower _ _ else rf) in *.
  assert (peer_ok F el i rf1 ∧ role rf1 ≠ LEADER) as [Hok1 Hr1].
  { subst rf1. destruct (Z.ltb_spec (currentTerm rf) (is_Term args)).
    - split; [|by destruct (becomeFollower_fields (is_Term args) rf) as (_&_&->&_)].
      eapply calm_ok; [apply becomeFollower_calm|left; apply saved_becomeFollower|done].
    - split; [done|]. intros [Hl _]%(po_leader _ _ _ _ Hok).
      replace (is_Term args) with (currentTerm rf) in Hel by lia. congruence. }
  clearbody rf1. go_step H; [by go_steps H|]. go_step H. injection H as <- <-.
  destruct (InstallSnapshot_logs_ok _ _ _ _ _ _ Hf Hok1 Hn E1) as (Hc & s & Hs & ? & ? & ?).
  split; simpl; [done|by exists s|by left|done].
Qed.

Lemma restart_ok F el i n self rf :
  peer_ok F el i rf → peer_ok F el i (Make n self (Copy (persister rf))).
Proof.
  intros Hok. pose proof Hok as [Hc (s & Hs & _) Hd _].
  destruct (Make_restart n self rf Hd) as [Hp Hd']; [by intros E; rewrite E in Hs|].
  apply pstate_inv in Hp as (_ & _ & El & Ei & Et & Ec).
  destruct (Make_volatile n self (Copy (persister rf))) as (Hr & _).
  eapply relog_ok; try done; rewrite ?El; try done. by rewrite Hr.
Qed.

Lemma boot_ok F el i n self : peer_ok F el i (Make n self MakePersister).
Proof.
  split; [|by eexists|by right|done]. split; [intros e [= <-]; by left|]. by intros [|k] e e'.
Qed.
End peer.

(** ** The cluster *)

Record Cluster (Cmd : Type) := mkCluster {
  nodes : list (Raft Cmd);
  appends : list (AppendEntriesArgs Cmd); (* requests sent so far *)
  installs : list (nat * InstallSnapshotArgs); (* requests sent so far, with their sender *)
  elected : gmap Z nat; (* who won which term *)
}.
Arguments mkCluster {Cmd}.
Arguments nodes {Cmd}.
Arguments appends {Cmd}.
Arguments installs {Cmd}.
Arguments elected {Cmd}.

Section cluster.
Context {Cmd : Type} `{!GobCodec Z} `{!GobCodec (list (LogEntry Cmd))}.
Implicit Types (rf : Raft Cmd) (c : Cluster Cmd) (i j : nat) (F : Forest Cmd).

Definition setNode i rf c : Cluster Cmd :=
  mkCluster (<[i := rf]> (nodes c)) (appends c) (installs c) (elected c).

(** the steps of a peer that need no message of another peer and do not win *)
Definition ownStep (op : RaftOp Cmd) : bool :=
  match op with
  | OpAppendEntries _ | OpInstallSnapshot _ | OpElectionDecide Win => false
  | _ => true
  end.

Inductive cstep c : Cluster Cmd → Prop :=
| cs_own i rf op rf' :
    nodes c !! i = Some rf → ownStep op = true → exec op rf = Ret rf' →
    cstep c (setNode i rf' c)
| cs_win i rf rf' :
    nodes c !! i = Some rf → elected c !! currentTerm rf = None →
    exec (OpElectionDecide Win) rf = Ret rf' →
    cstep c (mkCluster (<[i := rf']> (nodes c)) (appends c) (installs c)
                       (<[currentTerm rf := i]> (elected c)))
| cs_sendEntries i rf peer args :
    nodes c !! i = Some rf → doAppendEntriesRPC_args peer rf = Ret (Some args) →
    cstep c (mkCluster (nodes c) (args :: appends c) (installs c) (elected c))
| cs_recvEntries i rf args rf' reply :
    nodes c !! i = Some rf → args ∈ appends c → op_pre (OpAppendEntries args) rf →
    AppendEntries args rf = Ret (rf', reply) →
    cstep c (setNode i rf' c)
| cs_sendSnapshot i rf :
    nodes c !! i = Some rf → role rf = LEADER →
    cstep c (mkCluster (nodes c) (appends c)
                       ((i, doInstallSnapshotRPC_args rf) :: installs c) (elected c))
| cs_recvSnapshot i from rf args rf' reply :
    nodes c !! i = Some rf → (from, args) ∈ installs c → i ≠ from →
    InstallSnapshot args rf = Ret (rf', reply) →
    cstep c (setNode i rf' c)
| cs_restart i rf :
    nodes c !! i = Some rf →
    cstep c (setNode i (Make (len (nodes c)) (Z.of_nat i) (Copy (persister rf))) c).

Definition cinit (n : nat) : Cluster Cmd :=
  mkCluster ((λ i, Make (Z.of_nat n) (Z.of_nat i) MakePersister) <$> seq 0 n) [] [] ∅.

Record cluster_ok (F : Forest Cmd) c : Prop := {
  co_forest : forest_ok F (elected c);
  co_nodes : ∀ i rf, nodes c !! i = Some rf → peer_ok F (elected c) i rf;
  co_appends : ∀ args, args ∈ appends c → entries_ok F args;
  co_installs : ∀ m, m ∈ installs c → snapshot_ok F (elected c) m;
}.

Lemma cinit_ok n : cluster_ok ∅ (cinit n).
Proof.
  split; simpl.
  - split; intros *; by rewrite lookup_empty.
  - intros i rf H. apply list_lookup_fmap_Some in H as (k & -> & _). apply boot_ok.
  - by intros args ?%elem_of_nil.
  - by intros args ?%elem_of_nil.
Qed.

Lemma setNode_ok F c i rf' :
  cluster_ok F c → peer_ok F (elected c) i rf' → cluster_ok F (setNode i rf' c).
Proof.
  intros [] Hok. split; simpl; try done.
  intros j rf [(-> & -> & _)|[_ H]]%list_lookup_insert_Some; [done|by apply co_nodes0].
Qed.

Lemma entries_mono F F' args : F ⊆ F' → entries_ok F args → entries_ok F' args.
Proof.
  intros Hs H es Hes. destruct (H es Hes) as (p & ? & ? & ?). exists p.
  split_and!; try done. by eapply chain_mono.
Qed.

Lemma snapshot_mono F F' el el' m :
  F ⊆ F' → el ⊆ el' → snapshot_ok F el m → snapshot_ok F' el' m.
Proof. intros ? ? [??]. split; [by eapply lookup_weaken|by eapply node_mono]. Qed.

(** peer [i] appends [e] to its log, in a term that it leads *)
Lemma append_cluster F c i rf rf' el' p e :
  cluster_ok F c → nodes c !! i = Some rf → elected c ⊆ el' →
  el' !! currentTerm rf = Some i → topOf F (currentTerm rf) p →
  last (logs rf) = Some p → follows p e → LogTerm e = currentTerm rf →
  pstate rf' = pstate (set_logs (logs rf ++ [e]) rf) → durable rf' →
  F ⊆ grow F p e
  ∧ cluster_ok (grow F p e) (mkCluster (<[i := rf']> (nodes c)) (appends c) (installs c) el').
Proof.
  intros [Hf Hn Ha Hi] Hrf Hsub Hel Htop Hp Hfo Ht Hps Hd. rewrite <-Ht in Htop, Hel.
  pose proof (grow_mono F p e Hfo Htop) as Hgrow. split; [done|]. split; simpl.
  - eapply grow_ok; try done. rewrite last_lookup in Hp.
    by apply (peer_lookup _ _ _ _ _ _ (Hn i rf Hrf)) in Hp as (_ & ? & _).
  - intros j rfj [(-> & -> & _)|[Hij H]]%list_lookup_insert_Some.
    + eapply append_ok; try done; [by apply Hn|by rewrite <-Ht..].
    + eapply others_ok; try done; by apply Hn.
  - intros args Hargs. eapply entries_mono; [done|by apply Ha].
  - intros m Hm. eapply snapshot_mono; [done..|by apply Hi].
Qed.

Lemma Start_cluster F c i cmd rf rf' ci t ld :
  cluster_ok F c → nodes c !! i = Some rf → Start cmd rf = Ret (rf', (ci, t, ld)) →
  ∃ F', F ⊆ F' ∧ cluster_ok F' (setNode i rf' c)
    ∧ (ci = -1 ∨ ∃ k e tp, F' !! (k, t) = Some (e, tp) ∧ CommandIndex e = ci
                         ∧ Command e = Some cmd ∧ IsInternalLog e = false).
Proof.
  intros Hok Hrf [(-> & -> & _)|(Hr & -> & p & e & Hp & Hfo & Ht & <- & Hcmd & Hint & Hps & Hd)]%Start_append.
  - exists F. split_and!; [done| |by left]. apply setNode_ok; [done|]. by apply Hok.
  - destruct (po_leader _ _ _ _ (co_nodes _ _ Hok i rf Hrf) Hr) as [Hel Htop].
    destruct (append_cluster F c i rf rf' (elected c) p e) as [Hs Hok']; try done; [by apply Htop|].
    exists (grow F p e). split_and!; [done..|]. right. exists (LogIndex e), e, (LogTerm p).
    split_and!; try done. rewrite <-Ht. apply lookup_insert_eq.
Qed.

Lemma win_cluster F c i rf rf' :
  cluster_ok F c → nodes c !! i = Some rf → elected c !! currentTerm rf = None →
  becomeLeader rf = Ret rf' →
  ∃ F', F ⊆ F' ∧ cluster_ok F' (mkCluster (<[i := rf']> (nodes c)) (appends c) (installs c)
                                 (<[currentTerm rf := i]> (elected c))).
Proof.
  intros Hok Hrf Hel (p & e & Hp & Hfo & Ht & Hps & Hd)%becomeLeader_append.
  exists (grow F p e). eapply append_cluster; try done.
  - by apply insert_subseteq.
  - apply lookup_insert_eq.
  - intros j a tp Ha. apply (fo_key _ _ (co_forest _ _ Hok)) in Ha as (_ & _ & _ & _ & [x ?]).
    congruence.
Qed.

Lemma sent_entries_ok F el i peer rf args :
  peer_ok F el i rf → doAppendEntriesRPC_args peer rf = Ret (Some args) → entries_ok F args.
Proof.
  intros Hok H. unfold doAppendEntriesRPC_args in H. cbv zeta in H.
  go_step H. go_step H. go_step H. go_step H; [|injection H as <-; by intros es].
  go_step H; [done|]. go_step H. go_step H. injection H as <-. intros es [= <-]. simpl.
  apply idx_Ret in E4 as [Hpos Hlk]. apply slice_from_inv in E5 as [_ ->].
  exists a2. split_and!; [done..|].
  replace (Z.to_nat (logIndex2LogPos rf a1)) with (S (Z.to_nat (logIndex2LogPos rf a1 - 1))) by lia.
  rewrite <-(drop_head _ _ _ Hlk). apply chain_drop, Hok.
Qed.

Lemma own_cluster F c i op rf rf' :
  cluster_ok F c → nodes c !! i = Some rf → ownStep op = true → exec op rf = Ret rf' →
  ∃ F', F ⊆ F' ∧ cluster_ok F' (setNode i rf' c).
Proof.
  intros Hok Hrf Hown H. pose proof (co_nodes _ _ Hok i rf Hrf) as Hp.
  destruct (quiet op) eqn:Hq.
  - exists F. split; [done|]. apply setNode_ok; [done|].
    eapply calm_ok; [by eapply exec_quiet| |done].
    destruct (exec_saves _ _ _ H); [eapply frame_durable; [done|apply Hp]|by left].
  - destruct op as [| | | |snap li|cmd| | |d| | | | | |]; try done; simpl in H.
    + exists F. split; [done|]. apply setNode_ok; [done|]. by eapply TakeSnapshot_ok.
    + go_step H. destruct a as [rf1 [[ci t] ld]]. simpl in H. subst.
      destruct (Start_cluster F c i cmd rf rf1 ci t ld) as (F' & ? & ? & _); eauto.
    + by destruct d.
Qed.

Lemma cstep_ok F c c' : cluster_ok F c → cstep c c' → ∃ F', F ⊆ F' ∧ cluster_ok F' c'.
Proof.
  intros Hok Hst. pose proof Hok as [Hf Hn Ha Hi].
  destruct Hst as [i rf op rf' Hrf Hown H|i rf rf' Hrf Hel H|i rf peer args Hrf H
    |i rf args rf' reply Hrf Hin Hpre H|i rf Hrf Hr|i from rf args rf' reply Hrf Hin Hne H|i rf Hrf].
  - by eapply own_cluster.
  - by eapply win_cluster.
  - exists F. split; [done|]. split; try done. simpl.
    intros args' [->|?]%elem_of_cons; [eapply sent_entries_ok; [by apply Hn|done]|by apply Ha].
  - exists F. split; [done|]. apply setNode_ok; [done|].
    eapply AppendEntries_ok; try done; [by apply Hn|by apply Ha].
  - exists F. split; [done|]. split; try done. simpl.
    intros m [->|?]%elem_of_cons; [|by apply Hi].
    destruct (Hn i rf Hrf) as [Hc (s & Hs & E1 & E2 & E3) _ Hl]. split; [by apply Hl|].
    simpl. apply Hc in Hs. unfold nodeOK in *. simpl. by rewrite <-E1, <-E2, <-E3.
  - exists F. split; [done|]. apply setNode_ok; [done|].
    eapply InstallSnapshot_ok; try done; [by apply Hn|by apply Hi].
  - exists F. split; [done|]. apply setNode_ok; [done|]. by apply restart_ok, Hn.
Qed.

Lemma csteps_ok F c c' : cluster_ok F c → rtc cstep c c' → ∃ F', F ⊆ F' ∧ cluster_ok F' c'.
Proof.
  intros Hok Hst. revert F Hok. induction Hst as [c|c c1 c2 H _ IH]; intros F Hok; [by exists F|].
  destruct (cstep_ok _ _ _ Hok H) as (F1 & Hs1 & Hok1).
  destruct (IH _ Hok1) as (F2 & Hs2 & Hok2). exists F2. split; [by etrans|done].
Qed.

(** ** What the invariant says of the logs *)

Lemma entry_place F el i rf k e :
  peer_ok F el i rf → entryAt rf k = Some e → LogIndex e = k ∧ nodeOK F e.
Proof.
  intros Hok He. unfold entryAt in He. case_match; [|done].
  apply (peer_lookup _ _ _ _ _ _ Hok) in He as (? & ? & _). split; [lia|done].
Qed.

Lemma entry_link F el i rf k e :
  peer_ok F el i rf → entryAt rf k = Some e → lastIncludedIndex rf < k →
  ∃ p, entryAt rf (k - 1) = Some p ∧ link F p e.
Proof.
  intros Hok He Hk. unfold entryAt in *. rewrite (proj2 (Z.leb_le _ _)) in He by lia.
  rewrite (proj2 (Z.leb_le _ _)) by lia. replace (Z.to_nat (k - lastIncludedIndex rf))
    with (S (Z.to_nat (k - 1 - lastIncludedIndex rf))) in He by lia.
  destruct (lookup_lt_is_Some_2 (logs rf) (Z.to_nat (k - 1 - lastIncludedIndex rf))) as [p Hp];
    [apply lookup_lt_Some in He; lia|].
  exists p. split; [done|]. by apply (proj2 (po_chain _ _ _ _ Hok) _ _ _ Hp).
Qed.

(** above both snapshots, the same index and term is the same entry behind the same term *)
Lemma entry_same F el i j rf rf' k e e' :
  peer_ok F el i rf → peer_ok F el j rf' → entryAt rf k = Some e → entryAt rf' k = Some e' →
  LogTerm e = LogTerm e' → lastIncludedIndex rf < k → lastIncludedIndex rf' < k →
  e = e' ∧ ∃ p p', entryAt rf (k - 1) = Some p ∧ entryAt rf' (k - 1) = Some p'
                   ∧ LogTerm p = LogTerm p'.
Proof.
  intros Hok Hok' He He' Ht Hk Hk'.
  destruct (entry_link _ _ _ _ _ _ Hok He Hk) as (p & Hp & _ & _ & H).
  destruct (entry_link _ _ _ _ _ _ Hok' He' Hk') as (p' & Hp' & _ & _ & H').
  destruct (entry_place _ _ _ _ _ _ Hok He) as [Hi _].
  destruct (entry_place _ _ _ _ _ _ Hok' He') as [Hi' _].
  rewrite Hi, Ht in H. rewrite Hi', H in H'. simplify_eq. split; [done|]. by exists p, p'.
Qed.

Lemma logs_agree F el i j rf rf' k e e' d :
  forest_ok F el → peer_ok F el i rf → peer_ok F el j rf' →
  entryAt rf k = Some e → entryAt rf' k = Some e' → LogTerm e = LogTerm e' →
  let m := k - Z.of_nat d in lastIncludedIndex rf ≤ m → lastIncludedIndex rf' ≤ m →
  ∃ a a', entryAt rf m = Some a ∧ entryAt rf' m = Some a' ∧ LogTerm a = LogTerm a'.
Proof.
  intros Hf Hok Hok' He He' Ht. induction d as [|d IH]; cbv zeta; intros Hm Hm'.
  { rewrite Z.sub_0_r. by exists e, e'. }
  destruct IH as (a & a' & Ha & Ha' & Hta); [lia..|].
  destruct (entry_same _ _ _ _ _ _ _ _ _ Hok Hok' Ha Ha' Hta) as (_ & p & p' & Hp & Hp' & Htp); [lia..|].
  exists p, p'. by replace (k - Z.of_nat (S d)) with (k - Z.of_nat d - 1) by lia.
Qed.

(** Log Matching: when two peers' logs have an entry with the same index and term, then
    at every earlier index that both logs still have they have an entry of the same term
    and command index, and the same entry after both snapshots. *)
Lemma logs_match n c i j rf rf' k m e e' :
  rtc cstep (cinit n) c → nodes c !! i = Some rf → nodes c !! j = Some rf' →
  entryAt rf k = Some e → entryAt rf' k = Some e' → LogTerm e = LogTerm e' →
  m ≤ k → lastIncludedIndex rf ≤ m → lastIncludedIndex rf' ≤ m →
  ∃ a a', entryAt rf m = Some a ∧ entryAt rf' m = Some a'
    ∧ LogTerm a = LogTerm a' ∧ CommandIndex a = CommandIndex a'
    ∧ (lastIncludedIndex rf < m → lastIncludedIndex rf' < m → a = a').
Proof.
  intros Hr Hrf Hrf' He He' Ht Hmk Hm Hm'.
  destruct (csteps_ok _ _ _ (cinit_ok n) Hr) as (F & _ & [Hf Hn _ _]).
  apply Hn in Hrf, Hrf'.
  destruct (logs_agree F (elected c) i j rf rf' k e e' (Z.to_nat (k - m)))
    as (a & a' & Ha & Ha' & Hta); try done; [lia..|].
  rewrite Z2Nat.id in * by lia. replace (k - (k - m)) with m in * by lia.
  exists a, a'. split_and!; try done.
  - destruct (entry_place _ _ _ _ _ _ Hrf Ha) as [Hia Hna].
    destruct (entry_place _ _ _ _ _ _ Hrf' Ha') as [Hia' Hna'].
    eapply node_fun; [done..| |done]. congruence.
  - intros Hl Hl'. by eapply (entry_same _ _ _ _ rf rf').
Qed.

(** the entries of one term are told apart by their command indices *)
Lemma command_unique F el k k' t a b tp tp' :
  forest_ok F el → F !! (k, t) = Some (a, tp) → F !! (k', t) = Some (b, tp') →
  IsInternalLog a = false → IsInternalLog b = false → CommandIndex a = CommandIndex b → a = b.
Proof.
  intros Hf Ha Hb Ia Ib Hc. destruct (Z.lt_trichotomy k k') as [Hlt|[->|Hlt]].
  - destruct (fo_term _ _ Hf _ _ _ _ _ _ _ Ha Hb Hlt) as [_ H]. specialize (H Ib). lia.
  - congruence.
  - destruct (fo_term _ _ Hf _ _ _ _ _ _ _ Hb Ha Hlt) as [_ H]. specialize (H Ia). lia.
Qed.

(** what [Start] returns names one entry *)
Lemma started_entry n c c' i j rf rf1 rf2 cmd ci t ld k e :
  rtc cstep (cinit n) c → nodes c !! i = Some rf →
  Start cmd rf = Ret (rf1, (ci, t, ld)) → rtc cstep (setNode i rf1 c) c' →
  nodes c' !! j = Some rf2 → entryAt rf2 k = Some e → lastIncludedIndex rf2 < k →
  IsInternalLog e = false → CommandIndex e = ci → LogTerm e = t →
  Command e = Some cmd.
Proof.
  intros Hr Hrf HS Hr' Hrf2 He Hk Hint Hci Ht.
  destruct (csteps_ok _ _ _ (cinit_ok n) Hr) as (F & _ & Hok).
  destruct (Start_cluster _ _ _ _ _ _ _ _ _ Hok Hrf HS) as (F1 & _ & Hok1 & Hnew).
  destruct (csteps_ok _ _ _ Hok1 Hr') as (F2 & Hs2 & [Hf Hn _ _]). apply Hn in Hrf2.
  destruct (entry_link _ _ _ _ _ _ Hrf2 He Hk) as (p & _ & _ & _ & HF).
  destruct Hnew as [->|(k0 & e0 & tp & H0 & Hci0 & <- & Hint0)].
  - apply (fo_key _ _ Hf) in HF. lia.
  - rewrite Ht in HF. apply (lookup_weaken _ _ _ _ H0) in Hs2. f_equal.
    eapply (command_unique F2); try done. congruence.
Qed.

Lemma entriesBetween_snoc rf lo hi e :
  lastIncludedIndex rf ≤ lo → lo < hi → entryAt rf hi = Some e →
  entriesBetween rf lo hi = entriesBetween rf lo (hi - 1) ++ [e].
Proof.
  intros Hlo Hhi He. unfold entryAt, entriesBetween in *. rewrite (proj2 (Z.leb_le _ _)) in He by lia.
  replace (Z.to_nat (hi - lo)) with (S (Z.to_nat (hi - 1 - lo))) by lia.
  apply take_S_r. rewrite lookup_drop, <-He. f_equal. lia.
Qed.

(** The service numbers commands, not log entries: in any peer's log, through
    leader changes, truncation, snapshots and restarts, the command index of an entry is
    that of the snapshot plus the number of commands after the snapshot up to the entry,
    so the messages for the service carry consecutive command indices. *)
Theorem command_index_counts n c i rf k e :
  rtc cstep (cinit n) c → nodes c !! i = Some rf → entryAt rf k = Some e →
  CommandIndex e = lastIncludedCmdIndex rf
                   + len (commandMsgs (entriesBetween rf (lastIncludedIndex rf) k)).
Proof.
  intros Hr Hrf He.
  destruct (csteps_ok _ _ _ (cinit_ok n) Hr) as (F & _ & [_ Hn _ _]). apply Hn in Hrf.
  assert (lastIncludedIndex rf ≤ k) as Hk by (unfold entryAt in He; case_match; [lia|done]).
  revert e He. pattern k. apply (Zlt_lower_bound_ind _ (lastIncludedIndex rf)); [|done].
  clear k Hk. intros k IH Hk e He.
  destruct (decide (k = lastIncludedIndex rf)) as [->|Hne].
  - rewrite entriesBetween_nil by lia. destruct (po_head _ _ _ _ Hrf) as (s & Hs & _ & _ & <-).
    unfold entryAt in He. rewrite Z.leb_refl, Z.sub_diag in He. rewrite head_lookup in Hs.
    change (Z.to_nat 0) with 0%nat in He. simplify_eq. unfold len. simpl. lia.
  - destruct (entry_link _ _ _ _ _ _ Hrf He) as (p & Hp & _ & Hci & _); [lia|].
    apply IH in Hp; [|lia].
    rewrite (entriesBetween_snoc rf _ k e), commandMsgs_app, len_app by (done || lia).
    unfold commandMsgs at 2. rewrite filter_cons, filter_nil.
    destruct (IsInternalLog e); unfold len in *; simpl; lia.
Qed.
End cluster.
