(* ===== verification/RaftWitness.v ===== *)
(** * Package raft: concrete executions

    A cluster of three peers with commands in [Z], run with the definitions of
    the development.  The lemmas show that the hypotheses of the theorems about
    package raft hold of states the program reaches. *)

From S2P Require Import Prelude Gob Raft RaftStep RaftPersist RaftLog RaftSafety.
From S2P Require Import RaftElection RaftCommit RaftReplication.
Import CountableCodec.

Definition boot (i : Z) : Raft Z := Make 3 i MakePersister.

(** the state after the steps [ops] of peer [i] *)
Definition after (i : Z) (ops : list (RaftOp Z)) : Raft Z :=
  match run ops (boot i) with
  | Ret rf => rf
  | _ => boot i
  end.

(** Peer 0 led term 1, stepped down to term 2 and was elected again in term 3. *)
Definition leaderOps : list (RaftOp Z) :=
  [OpElectionBegin; OpElectionDecide Win; OpElectionDecide (StepDown 2);
   OpElectionBegin; OpElectionDecide Win].

(** Peer 1 led term 2 and took a command that it did not replicate. *)
Definition followerOps : list (RaftOp Z) :=
  [OpElectionDecide (StepDown 1); OpElectionBegin; OpElectionDecide Win; OpStart 5].

Definition theLeader : Raft Z := after 0 leaderOps.
Definition theFollower : Raft Z := after 1 followerOps.

(** the steps above run under no condition *)
Definition unconditional (op : RaftOp Z) : bool :=
  match op with
  | OpElectionBegin | OpElectionDecide _ | OpStart _ | OpKill => true
  | _ => false
  end.

Lemma reachable_run ops i rf rf' :
  reachable 3 i rf → forallb unconditional ops = true → run ops rf = Ret rf' →
  reachable 3 i rf'.
Proof.
  revert rf. induction ops as [|op ops IH]; simpl; intros rf Hrf Hu E; [by simplify_eq|].
  apply andb_true_iff in Hu as [Hop Hu]. go_step E.
  eapply IH; [|done..]. eapply reach_step; [exact Hrf| |exact E0]. by destruct op.
Qed.

Lemma after_reachable i ops :
  forallb unconditional ops = true → reachable 3 i (after i ops).
Proof.
  intros Hu. unfold after. destruct (run ops (boot i)) eqn:E.
  - eapply reachable_run; [apply reach_init|done..].
  - exact (reach_init 3 i).
  - exact (reach_init 3 i).
Qed.

Lemma after_wf i ops : forallb unconditional ops = true → raft_wf (after i ops).
Proof. intros Hu. apply (reachable_inv 3 i); [lia|by apply after_reachable]. Qed.


Lemma crash_recovery_witness :
  let rf' := Make 3 1 (Copy (persister theFollower)) in
  pstate rf' = pstate theFollower ∧ role rf' = FOLLOWER.
Proof.
  destruct (crash_recovery 3 1 theFollower) as (H1 & H2 & _);
    [lia|by apply after_reachable|].
  split; [exact H1|exact H2].
Defined.

Definition voteArgs : RequestVoteArgs := mkRequestVoteArgs 4 1 2 2.

(** peer 0 is killed between the two sections of the handler, and votes *)
Definition view : VoteView := mkVoteView FOLLOWER 4 0 0.
Definition asked : Raft Z := after 0 [OpRequestVote_read voteArgs].
Definition granted : Raft Z :=
  after 0 [OpRequestVote_read voteArgs; OpKill; OpRequestVote_grant voteArgs view].

Lemma RequestVote_granted_witness :
  RequestVote_read voteArgs (boot 0) = Ret (asked, view)
  ∧ RequestVote_grant voteArgs view (Kill asked) = Ret (granted, mkRequestVoteReply 4 true)
  ∧ votedFor granted = 1 ∧ saved granted ∧ currentTerm granted = 4.
Proof.
  assert (RequestVote_read voteArgs (boot 0) = Ret (asked, view)) as H1 by by vm_compute.
  assert (RequestVote_grant voteArgs view (Kill asked)
    = Ret (granted, mkRequestVoteReply 4 true)) as H2 by by vm_compute.
  split; [exact H1|]. split; [exact H2|].
  destruct (RequestVote_granted voteArgs (boot 0) asked view (Kill asked) granted _ H1 H2)
    as (_ & H & _).
  destruct (H eq_refl) as (Hv & _ & Hs & Ht). split; [exact Hv|]. split; [exact Hs|].
  apply Ht. by vm_compute.
Defined.

(** Peer 0 votes for peer 1 in term 4, restarts, and handles the request of peer 2
    in that term, which it refuses. *)
Definition rival : RequestVoteArgs := mkRequestVoteArgs 4 2 9 9.
Definition voted : Raft Z :=
  after 0 [OpRequestVote_read voteArgs; OpRequestVote_grant voteArgs view].
Definition restarted : Raft Z := Make 3 0 (Copy (persister voted)).

Lemma rival_refused :
  ∃ rf1 rf2 reply, RequestVote_read rival restarted = Ret (rf1, view)
    ∧ RequestVote_grant rival view rf1 = Ret (rf2, reply)
    ∧ VoteGranted reply = false ∧ rtc (peerStep 3 0) voted rf2
    ∧ currentTerm rf2 = currentTerm voted.
Proof.
  eexists _, _, _. split; [vm_compute; reflexivity|]. split; [vm_compute; reflexivity|].
  split; [reflexivity|]. split; [|by vm_compute].
  eapply rtc_l; [apply peer_restart|].
  eapply rtc_l; [apply (peer_exec _ _ (OpRequestVote_read rival)); [exact I|vm_compute; reflexivity]|].
  apply rtc_once, (peer_exec _ _ (OpRequestVote_grant rival view));
    [exact I|vm_compute; reflexivity].
Qed.

Lemma voted_reachable : reachable 3 0 voted.
Proof.
  apply (reach_step 3 0 asked (OpRequestVote_grant voteArgs view)); [|exact I|by vm_compute].
  apply (reach_step 3 0 (boot 0) (OpRequestVote_read voteArgs));
    [apply reach_init|exact I|by vm_compute].
Qed.

(** the vote for peer 1 is still there; a heartbeat of term 4 would forget it *)
Lemma vote_once_witness :
  (∃ rf2, rtc (peerStep 3 0) voted rf2 ∧ votedFor voted = 1
    ∧ ((currentTerm voted ≤ currentTerm rf2
        ∧ (currentTerm rf2 = currentTerm voted → votedFor voted ≠ -1 → votedFor rf2 = votedFor voted))
       ∨ ∃ op rf1 rf3, rtc (peerStep 3 0) voted rf1 ∧ exec op rf1 = Ret rf3
          ∧ rtc (peerStep 3 0) rf3 rf2 ∧ takesBack op rf1
          ∧ currentTerm rf3 ≤ currentTerm rf1 ∧ votedFor rf3 = -1))
  ∧ takesBack (OpAppendEntries (mkAppendEntriesArgs 4 1 (-1) (-1) None 0)) voted.
Proof.
  split; [|by vm_compute].
  destruct rival_refused as (_ & rf2 & _ & _ & _ & _ & Hs & _). exists rf2.
  split; [exact Hs|]. split; [by vm_compute|].
  apply (vote_once 3 0 voted rf2); [lia|apply voted_reachable|exact Hs].
Defined.

Lemma majority_unique_witness :
  majority (boot 0) = 2 ∧ ¬ (2 ≤ len (votesFor 1 3 (λ j, if j <? 2 then 0 else 1))).
Proof.
  split; [reflexivity|]. intros H.
  pose proof (majority_unique (boot 0) (λ j, if j <? 2 then 0 else 1) 0 1) as Hu.
  discriminate Hu; [by vm_compute..|exact H].
Defined.

Definition heartbeat : AppendEntriesArgs Z := mkAppendEntriesArgs 2 0 (-1) (-1) None 7.

(** the two entries of the follower are committed, and the command is delivered *)
Lemma follower_commit_witness :
  ∃ rf', AppendEntries_commit heartbeat theFollower = Ret rf' ∧ commitIndex rf' = 2
    ∧ am_Command <$> applyChan rf' = [None; Some 5].
Proof.
  destruct (follower_commit heartbeat theFollower) as (rf' & E & Hc & _ & _ & Ha);
    [by apply after_wf|].
  exists rf'. split; [exact E|]. rewrite Hc, Ha. by vm_compute.
Defined.

(** the entries of the leader's log after the first *)
Definition sent : list (LogEntry Z) := drop 2 (logs theLeader).

Lemma leader_commit_rule_witness :
  ∃ l rf', leaderPtr theLeader = Some l ∧ replicationSucceeded 1 sent theLeader = Ret rf'
    ∧ commitIndex rf' = 2.
Proof.
  exists (mkLeader [2; 2; 2] [0; 0; 0]).
  destruct (leader_commit_rule 1 1 sent theLeader (mkLeader [2; 2; 2] [0; 0; 0]))
    as (rf' & c & E & _ & Hc & Hci & _ & _ & Hq).
  - by apply after_wf.
  - by vm_compute.
  - by vm_compute.
  - by vm_compute.
  - by vm_compute.
  - done.
  - by vm_compute.
  - intros [|[|i]] e; vm_compute; intros; by simplify_eq.
  - by vm_compute.
  - exists rf'. split; [by vm_compute|]. split; [exact E|].
    assert (1 + len sent = 2 ∧ commitIndex theLeader = 0) as [E1 E2] by by vm_compute.
    rewrite E1 in Hci, Hq. rewrite E2 in Hci. rewrite Hc.
    destruct (decide (c = 2)) as [|Hne]; [done|]. exfalso.
    assert (peers theLeader
      ≤ 2 * len (holders (me theLeader) (<[Z.to_nat 1:=2]> [0; 0; 0]) (peers theLeader) 2)) as Hm
      by by vm_compute.
    apply (Z.lt_irrefl (peers theLeader)). eapply Z.le_lt_trans; [exact Hm|].
    apply Hq; [lia|]. intros k e Hk. assert (k = 2) as -> by lia.
    assert (LogTerm <$> entryAt theLeader 2 = Some (currentTerm theLeader)) as Ht
      by by vm_compute.
    intros He. rewrite He in Ht. by injection Ht.
Defined.

Lemma three_entries (rf : Raft Z) i e :
  entryAt rf i = Some e → lastIncludedIndex rf = 0 → len (logs rf) = 3 →
  i = 0 ∨ i = 1 ∨ i = 2.
Proof. intros ?%entryAt_bound ? ?. unfold lastLogIndex in *. lia. Qed.

(** the possible indices of an entry [H : entryAt rf i = Some e] *)
Ltac entry_cases H :=
  let E := fresh "E" in
  destruct (three_entries _ _ _ H) as [E|[E|E]];
  [vm_compute; reflexivity..| subst | subst | subst].

Lemma theLeader_syncing : syncing 1 2 theLeader theFollower.
Proof.
  split.
  - by apply after_wf.
  - by apply after_wf.
  - by vm_compute.
  - eexists. split; [vm_compute; reflexivity|by vm_compute].
  - by vm_compute.
  - by vm_compute.
  - by vm_compute.
  - by vm_compute.
  - by vm_compute.
  - intros i eL eF HL HF Ht j Hj.
    entry_cases HL; vm_compute in HL, HF; simplify_eq; [|done..].
    change (lastIncludedIndex theLeader) with 0 in Hj. lia.
  - intros i e He. entry_cases He; vm_compute in He; simplify_eq; by vm_compute.
  - intros i e He Ht. entry_cases He; vm_compute in He; simplify_eq; by vm_compute in Ht.
  - intros e He. vm_compute in He. by simplify_eq.
Qed.

