(* ===== verification/KVServer.v ===== *)
(** * Package kvraft: the key/value server

    Data and operations of [src/kvraft/server.go] and [src/kvraft/common.go].

    [Op]s and [OpContext]s are heap objects that several goroutines share: an
    [Op] is handed to [rf.Start] as a pointer before its [CmdIndex] and [Term]
    are assigned, and the same pointer comes back in the [ApplyMsg] on the
    server that started it.  The server's state therefore has two stores, [ops]
    and [ctxs]; a pointer is a position in them.  A handler is split where other
    goroutines can run: [submit] (allocate the [Op], [rf.Start]), [register]
    (assign the result, enter the context in [cmdMap]), [Get_finish] and
    [PutAppend_finish] (the [select] and the deferred clean-up).  The Raft peer
    is used through [RaftAPI]. *)

From S2P Require Import Prelude Gob Raft.

(** ** Data *)

Inductive Err := OK | ErrNoKey | ErrWrongLeader | ErrNone.

#[export] Instance Err_eq_dec : EqDecision Err.
Proof. solve_decision. Defined.

Record PutAppendArgs := mkPutAppendArgs {
  pa_Key : string; pa_Value : string; pa_Op : string; pa_ClientId : Z; pa_SeqId : Z }.

Record GetArgs := mkGetArgs { ga_Key : string; ga_ClientId : Z; ga_SeqId : Z }.

(** [Err ""] of a reply that was not filled in is [ErrNone] *)
Record GetReply := mkGetReply { gr_Err : Err; gr_Value : string }.
Record PutAppendReply := mkPutAppendReply { pr_Err : Err }.

Definition OP_TYPE_GET : string := "Get".
Definition OP_TYPE_PUT : string := "Put".
Definition OP_TYPE_APPEND : string := "Append".

Record Op := mkOp {
  op_Key : string;
  op_Value : string;
  op_Type : string;
  op_CmdIndex : Z;
  op_Term : Z;
  op_ClientId : Z;
  op_SeqId : Z;
}.

(** [commitedChan] is [true] once the channel is closed; nothing is ever sent *)
Record OpContext := mkOpContext {
  oc_op : nat;
  commitedChan : bool;
  wrongLeader : bool;
  ignored : bool;
  keyExist : bool;
  value : string;
}.

(** what the server uses of package raft; commands are pointers to [Op]s *)
Class RaftAPI (R : Type) := {
  api_Start : nat → R → go (R * (Z * Z * bool));
  api_ExceedLogSize : Z → R → bool;
  api_TakeSnapshot : bytes → Z → R → go R;
  api_Kill : R → R;
}.

#[export] Instance raft_api `{!GobCodec Z} `{!GobCodec (list (LogEntry nat))} :
    RaftAPI (Raft nat) := {|
  api_Start := Start;
  api_ExceedLogSize := ExceedLogSize;
  api_TakeSnapshot := TakeSnapshot;
  api_Kill := Kill;
|}.

Record KVServer (R : Type) := mkKVServer {
  kv_me : Z;
  kv_rf : R;
  kv_dead : Z;
  maxraftstate : Z;
  kvStore : gmap string string;
  cmdMap : gmap Z nat; (* commandIndex -> context *)
  seqMap : gmap Z Z; (* clientId -> sequence number of its last operation *)
  lastAppliedIndex : Z;
  ops : list Op; (* the [Op] objects *)
  ctxs : list OpContext; (* the [OpContext] objects *)
}.
Arguments mkKVServer {R}.
Arguments kv_me {R}.
Arguments kv_rf {R}.
Arguments kv_dead {R}.
Arguments maxraftstate {R}.
Arguments kvStore {R}.
Arguments cmdMap {R}.
Arguments seqMap {R}.
Arguments lastAppliedIndex {R}.
Arguments ops {R}.
Arguments ctxs {R}.

Section setters.
Context {R : Type}.
Implicit Types kv : KVServer R.

Definition set_kv_rf v kv : KVServer R :=
  mkKVServer (kv_me kv) v (kv_dead kv) (maxraftstate kv) (kvStore kv) (cmdMap kv)
    (seqMap kv) (lastAppliedIndex kv) (ops kv) (ctxs kv).
Definition set_kv_dead v kv : KVServer R :=
  mkKVServer (kv_me kv) (kv_rf kv) v (maxraftstate kv) (kvStore kv) (cmdMap kv)
    (seqMap kv) (lastAppliedIndex kv) (ops kv) (ctxs kv).
Definition set_kvStore v kv : KVServer R :=
  mkKVServer (kv_me kv) (kv_rf kv) (kv_dead kv) (maxraftstate kv) v (cmdMap kv)
    (seqMap kv) (lastAppliedIndex kv) (ops kv) (ctxs kv).
Definition set_cmdMap v kv : KVServer R :=
  mkKVServer (kv_me kv) (kv_rf kv) (kv_dead kv) (maxraftstate kv) (kvStore kv) v
    (seqMap kv) (lastAppliedIndex kv) (ops kv) (ctxs kv).
Definition set_seqMap v kv : KVServer R :=
  mkKVServer (kv_me kv) (kv_rf kv) (kv_dead kv) (maxraftstate kv) (kvStore kv) (cmdMap kv)
    v (lastAppliedIndex kv) (ops kv) (ctxs kv).
Definition set_lastAppliedIndex v kv : KVServer R :=
  mkKVServer (kv_me kv) (kv_rf kv) (kv_dead kv) (maxraftstate kv) (kvStore kv) (cmdMap kv)
    (seqMap kv) v (ops kv) (ctxs kv).
Definition set_ops v kv : KVServer R :=
  mkKVServer (kv_me kv) (kv_rf kv) (kv_dead kv) (maxraftstate kv) (kvStore kv) (cmdMap kv)
    (seqMap kv) (lastAppliedIndex kv) v (ctxs kv).
Definition set_ctxs v kv : KVServer R :=
  mkKVServer (kv_me kv) (kv_rf kv) (kv_dead kv) (maxraftstate kv) (kvStore kv) (cmdMap kv)
    (seqMap kv) (lastAppliedIndex kv) (ops kv) v.
End setters.

(** how the [select] of a handler ends *)
Inductive WaitEvent := WaitCommitted | WaitTicker.

(** ** Operations *)

Section operations.
Context {R : Type} `{!RaftAPI R}.
Context `{!GobCodec (gmap string string)} `{!GobCodec (gmap Z Z)}.
Implicit Types kv : KVServer R.

(** dereference of an [Op] or [OpContext] pointer *)
Definition derefOp kv (p : nat) : go Op :=
  match ops kv !! p with Some o => Ret o | None => Panic end.
Definition derefCtx kv (c : nat) : go OpContext :=
  match ctxs kv !! c with Some x => Ret x | None => Panic end.

(** [&Op{...}] *)
Definition newOp (o : Op) kv : nat * KVServer R :=
  (length (ops kv), set_ops (ops kv ++ [o]) kv).

Definition GetOp (args : GetArgs) : Op :=
  mkOp (ga_Key args) "" OP_TYPE_GET 0 0 (ga_ClientId args) (ga_SeqId args).
Definition PutAppendOp (args : PutAppendArgs) : Op :=
  mkOp (pa_Key args) (pa_Value args) (pa_Op args) 0 0 (pa_ClientId args) (pa_SeqId args).

(** allocate the operation and hand it to Raft *)
Definition submit (o : Op) kv : go (KVServer R * nat * (Z * Z * bool)) :=
  let '(p, kv) := newOp o kv in
  '(rf, r) ← api_Start p (kv_rf kv);
  Ret (set_kv_rf rf kv, p, r).

(** assign [CmdIndex] and [Term]; [None]: not the leader, the handler returns *)
Definition register (p : nat) (r : Z * Z * bool) kv : go (KVServer R * option nat) :=
  let '(cmdIndex, term, isLeader) := r in
  o ← derefOp kv p;
  let o := mkOp (op_Key o) (op_Value o) (op_Type o) cmdIndex term
             (op_ClientId o) (op_SeqId o) in
  let kv := set_ops (<[p := o]> (ops kv)) kv in
  if negb isLeader then Ret (kv, None)
  else
    let c := length (ctxs kv) in
    let kv := set_ctxs (ctxs kv ++ [mkOpContext p false false false false ""]) kv in
    Ret (set_cmdMap (<[cmdIndex := c]> (cmdMap kv)) kv, Some c).

(** the deferred function: remove the context unless another one replaced it *)
Definition cleanup (c : nat) kv : go (KVServer R) :=
  ctx ← derefCtx kv c;
  o ← derefOp kv (oc_op ctx);
  match cmdMap kv !! op_CmdIndex o with
  | Some c' =>
      if decide (c' = c) then Ret (set_cmdMap (delete (op_CmdIndex o) (cmdMap kv)) kv)
      else Ret kv
  | None => Ret kv
  end.

(** [<-opCtx.commitedChan] returns once the channel is closed *)
Definition awaitCtx (c : nat) kv : go OpContext :=
  ctx ← derefCtx kv c;
  if commitedChan ctx then Ret ctx else Block.

Definition Get_finish (c : nat) (ev : WaitEvent) kv : go (KVServer R * GetReply) :=
  reply ← (match ev with
           | WaitCommitted =>
               ctx ← awaitCtx c kv;
               Ret (if wrongLeader ctx then mkGetReply ErrWrongLeader ""
                    else if negb (keyExist ctx) then mkGetReply ErrNoKey ""
                    else mkGetReply OK (value ctx))
           | WaitTicker => Ret (mkGetReply ErrWrongLeader "")
           end);
  kv ← cleanup c kv;
  Ret (kv, reply).

Definition PutAppend_finish (c : nat) (ev : WaitEvent) kv : go (KVServer R * PutAppendReply) :=
  reply ← (match ev with
           | WaitCommitted =>
               ctx ← awaitCtx c kv;
               Ret (if wrongLeader ctx then mkPutAppendReply ErrWrongLeader
                    else mkPutAppendReply OK)
           | WaitTicker => Ret (mkPutAppendReply ErrWrongLeader)
           end);
  kv ← cleanup c kv;
  Ret (kv, reply).

(** The whole handlers; [env1] and [env2] are what other goroutines do while the
    handler does not hold the lock. *)
Definition Get (args : GetArgs) (env1 env2 : KVServer R → go (KVServer R))
    (ev : WaitEvent) kv : go (KVServer R * GetReply) :=
  '(kv, p, r) ← submit (GetOp args) kv;
  kv ← env1 kv;
  '(kv, o) ← register p r kv;
  match o with
  | None => Ret (kv, mkGetReply ErrWrongLeader "")
  | Some c => kv ← env2 kv; Get_finish c ev kv
  end.

Definition PutAppend (args : PutAppendArgs) (env1 env2 : KVServer R → go (KVServer R))
    (ev : WaitEvent) kv : go (KVServer R * PutAppendReply) :=
  '(kv, p, r) ← submit (PutAppendOp args) kv;
  kv ← env1 kv;
  '(kv, o) ← register p r kv;
  match o with
  | None => Ret (kv, mkPutAppendReply ErrWrongLeader)
  | Some c => kv ← env2 kv; PutAppend_finish c ev kv
  end.

(** *** The apply loop *)

Definition isWrite (o : Op) : bool :=
  bool_decide (op_Type o = OP_TYPE_PUT) || bool_decide (op_Type o = OP_TYPE_APPEND).

(** [!existSeq || op.SeqId > prevSeq] *)
Definition newer (o : Op) (prevSeq : option Z) : bool :=
  match prevSeq with
  | None => true
  | Some prev => prev <? op_SeqId o
  end.

(** the write of a [Put] or [Append] *)
Definition write (o : Op) (store : gmap string string) : gmap string string :=
  if decide (op_Type o = OP_TYPE_PUT) then <[op_Key o := op_Value o]> store
  else if decide (op_Type o = OP_TYPE_APPEND) then
    match store !! op_Key o with
    | Some val => <[op_Key o := val +:+ op_Value o]> store
    | None => <[op_Key o := op_Value o]> store
    end
  else store.

(** the waiting context, with what the loop writes into it before it wakes the
    handler; closing a closed channel panics *)
Definition answer (o : Op) (ctxTerm : Z) (prevSeq : option Z)
    (store : gmap string string) (ctx : OpContext) : go OpContext :=
  let wrong := wrongLeader ctx || negb (op_Term o =? ctxTerm) in
  let ctx :=
    if isWrite o then
      mkOpContext (oc_op ctx) (commitedChan ctx) wrong
        (if newer o prevSeq then ignored ctx else true) (keyExist ctx) (value ctx)
    else
      let v := store !! op_Key o in
      mkOpContext (oc_op ctx) (commitedChan ctx) wrong (ignored ctx)
        (bool_decide (is_Some v)) (default ""%string v) in
  if commitedChan ctx then Panic
  else Ret (mkOpContext (oc_op ctx) true (wrongLeader ctx) (ignored ctx) (keyExist ctx)
              (value ctx)).

(** a committed command; the type assertion [cmd.( *Op)] panics on nil *)
Definition applyCommand (msg : ApplyMsg nat) kv : go (KVServer R) :=
  if am_LogIndex msg <=? lastAppliedIndex kv then Ret kv
  else
  let kv := set_lastAppliedIndex (am_LogIndex msg) kv in
  o ← (match am_Command msg with Some p => derefOp kv p | None => Panic end);
  let existOp := cmdMap kv !! am_CommandIndex msg in
  let prevSeq := seqMap kv !! op_ClientId o in
  let kv := set_seqMap (<[op_ClientId o := op_SeqId o]> (seqMap kv)) kv in
  let kv := if isWrite o && newer o prevSeq
            then set_kvStore (write o (kvStore kv)) kv else kv in
  match existOp with
  | Some c =>
      ctx ← derefCtx kv c;
      ctxOp ← derefOp kv (oc_op ctx);
      ctx ← answer o (op_Term ctxOp) prevSeq (kvStore kv) ctx;
      Ret (set_ctxs (<[c := ctx]> (ctxs kv)) kv)
  | None => Ret kv
  end.

Definition installSnapshot (msg : ApplyMsg nat) kv : KVServer R :=
  if am_LastIncludedIndex msg <=? lastAppliedIndex kv then kv
  else
  let kv := set_lastAppliedIndex (am_LastIncludedIndex msg) kv in
  if len (am_Snapshot msg) =? 0 then set_seqMap ∅ (set_kvStore ∅ kv)
  else
    let '(store, rest) := gob_decode_map (kvStore kv) (am_Snapshot msg) in
    let '(seqs, _) := gob_decode_map (seqMap kv) rest in
    set_seqMap seqs (set_kvStore store kv).

Definition kv_killed kv : bool := kv_dead kv =? 1.

(** one message of [applyCh] *)
Definition applyMsg (msg : ApplyMsg nat) kv : go (KVServer R) :=
  if am_CommandValid msg then applyCommand msg kv else Ret (installSnapshot msg kv).

(** the loop over the messages received, until the server is killed *)
Fixpoint applyMsgLoop (msgs : list (ApplyMsg nat)) kv : go (KVServer R) :=
  match msgs with
  | [] => Ret kv
  | msg :: msgs =>
      if kv_killed kv then Ret kv
      else kv ← applyMsg msg kv; applyMsgLoop msgs kv
  end.

(** *** Snapshots and shutdown *)

Definition encodeSnapshot (store : gmap string string) (seqs : gmap Z Z) : bytes :=
  gob_encode store ++ gob_encode seqs.

(** the locked part of a turn of [snapshotLoop] *)
Definition snapshotLoop_read kv : option (bytes * Z) :=
  if negb (maxraftstate kv =? -1) && api_ExceedLogSize (maxraftstate kv) (kv_rf kv) then
    Some (encodeSnapshot (kvStore kv) (seqMap kv), lastAppliedIndex kv)
  else None.

(** the rest of the turn, after the unlock *)
Definition snapshotLoop_take (o : option (bytes * Z)) kv : go (KVServer R) :=
  match o with
  | Some (snap, li) => rf ← api_TakeSnapshot snap li (kv_rf kv); Ret (set_kv_rf rf kv)
  | None => Ret kv
  end.

(** one turn of the loop; [env] is what runs between the unlock and the call *)
Definition snapshotLoop (env : KVServer R → go (KVServer R)) kv : go (KVServer R) :=
  if kv_killed kv then Ret kv
  else
    let o := snapshotLoop_read kv in
    kv ← env kv;
    snapshotLoop_take o kv.

Definition kv_Kill kv : KVServer R :=
  set_kv_rf (api_Kill (kv_rf kv)) (set_kv_dead 1 kv).

(** the server before its Raft peer's first message *)
Definition newKVServer (self : Z) (rf : R) (maxraft : Z) : KVServer R :=
  mkKVServer self rf 0 maxraft ∅ ∅ ∅ 0 [] [].
End operations.

(** The apply loop runs before [raft.Make], which sends the snapshot found in the
    persister. *)
Definition StartKVServer `{!GobCodec Z} `{!GobCodec (list (LogEntry nat))}
    `{!GobCodec (gmap string string)} `{!GobCodec (gmap Z Z)}
    (n self : Z) (ps : Persister) (maxraft : Z) : go (KVServer (Raft nat)) :=
  let rf := Make n self ps in
  applyMsgLoop (applyChan rf) (newKVServer self rf maxraft).
