(* ===== verification/KVSpec.v ===== *)
(** * Package kvraft: the replicated key/value store

    What the servers compute, in terms of the log Raft commits.  [log] is the
    sequence of committed commands; [state_at i] is the store and the table of
    sequence numbers after the commands with index up to [i].  [kvstep] is a
    server with its handlers, its apply loop, its snapshots and the RPC decoder,
    in any interleaving, fed with the messages Raft promises ([deliverable]). *)

From S2P Require Import Prelude Gob Raft KVServer.
From Stdlib Require Import Sorting.Sorted.

(** a committed command: its log index, command index and term, and the request *)
Record centry := mkCentry { ce_index : Z; ce_cmd : Z; ce_term : Z; ce_op : Op }.

(** the request an [Op] carries, without the fields assigned after [Start] *)
Definition request (o : Op) : Op :=
  mkOp (op_Key o) (op_Value o) (op_Type o) 0 0 (op_ClientId o) (op_SeqId o).

Abbreviation kstate := (gmap string string * gmap Z Z)%type.

(** the state machine: a write runs unless its client's last number is as new *)
Definition kstep (o : Op) (s : kstate) : kstate :=
  (if isWrite o && newer o (snd s !! op_ClientId o) then write o (fst s) else fst s,
   <[op_ClientId o := op_SeqId o]> (snd s)).

Definition run_ops (l : list Op) (s : kstate) : kstate := foldl (λ s o, kstep o s) s l.

Lemma kstep_request o s : kstep (request o) s = kstep o s.
Proof. done. Qed.

Lemma isWrite_request o o' : request o = request o' → isWrite o = isWrite o'.
Proof. intros [= ? ? E ? ?]. unfold isWrite. by rewrite E. Qed.

Lemma kstep_same o o' s : request o = request o' → kstep o s = kstep o' s.
Proof. intros E. by rewrite <-kstep_request, E, kstep_request. Qed.

Lemma run_ops_app l1 l2 s : run_ops (l1 ++ l2) s = run_ops l2 (run_ops l1 s).
Proof. apply foldl_app. Qed.

(** keys are never removed *)
Lemma write_dom o m : dom m ⊆ dom (write o m).
Proof. unfold write. repeat case_match; set_solver. Qed.

Lemma kstep_dom o s : dom s.1 ⊆ dom (kstep o s).1 ∧ dom s.2 ⊆ dom (kstep o s).2.
Proof.
  unfold kstep. simpl. split; [|set_solver]. case_match; [apply write_dom|done].
Qed.

Lemma run_ops_dom l s : dom s.1 ⊆ dom (run_ops l s).1 ∧ dom s.2 ⊆ dom (run_ops l s).2.
Proof.
  revert s. induction l as [|o l IH]; intros s; [done|]. simpl.
  destruct (kstep_dom o s), (IH (kstep o s)). split; by etrans.
Qed.

(** decoding over a map with fewer keys replaces it *)
Lemma union_dom_l {V} `{Countable K} (m m' : gmap K V) : dom m ⊆ dom m' → m' ∪ m = m'.
Proof.
  intros Hd. apply map_eq. intros k. rewrite lookup_union.
  destruct (m' !! k) eqn:E'; [by destruct (m !! k)|].
  destruct (m !! k) eqn:E; [|done].
  apply elem_of_dom_2, Hd, elem_of_dom in E as [? ?]. congruence.
Qed.

(** ** The committed log *)

Section log.
Context (log : list centry).

(** What Raft promises of the committed log: indices grow along it, a command
    index is used once, and indices and terms start at 1. *)
Record log_ok : Prop := {
  lo_sorted : StronglySorted (λ e f, ce_index e < ce_index f) log;
  lo_cmd : ∀ e f, e ∈ log → f ∈ log → ce_cmd e = ce_cmd f → e = f;
  lo_pos : ∀ e, e ∈ log → 0 < ce_index e ∧ 0 < ce_term e;
}.

Definition upTo (i : Z) : list centry := filter (λ e, ce_index e ≤ i) log.

Definition state_at (i : Z) : kstate := run_ops (ce_op <$> upTo i) (∅, ∅).

(** the result of [rf.Start] for request [o]: a committed entry with that index and
    term is the one [Start] made *)
Definition ownEntry (cmdIndex term : Z) (o : Op) : Prop :=
  term ≠ 0 ∧ ∀ e, e ∈ log → ce_cmd e = cmdIndex → ce_term e = term → ce_op e = request o.
End log.

(** splitting a sorted log at an index *)
Lemma upTo_split log i j :
  StronglySorted (λ e f, ce_index e < ce_index f) log → i ≤ j →
  upTo log j = upTo log i ++ filter (λ e, i < ce_index e ∧ ce_index e ≤ j) log.
Proof.
  intros Hs Hij. induction Hs as [|e l Hs IH Hall]; [done|].
  unfold upTo in *. rewrite !filter_cons.
  destruct (decide (ce_index e ≤ i)) as [Hi|Hi].
  - rewrite decide_True, decide_False by lia. simpl. by rewrite IH.
  - assert (filter (λ e, ce_index e ≤ i) l = []) as Hnil.
    { clear -Hall Hi. induction Hall as [|f l Hf _ IH]; [done|].
      rewrite filter_cons, decide_False by lia. done. }
    rewrite Hnil in *. simpl in IH. rewrite IH.
    destruct (decide (ce_index e ≤ j)); [rewrite decide_True by lia|rewrite decide_False by lia];
      done.
Qed.

(** the next entry *)
Lemma upTo_next log i e :
  log_ok log → e ∈ log → i < ce_index e →
  (∀ f, f ∈ log → i < ce_index f → ce_index e ≤ ce_index f) →
  upTo log (ce_index e) = upTo log i ++ [e].
Proof.
  intros [Hs _ _] He Hi Hnext. rewrite (upTo_split log i) by (done || lia). f_equal.
  induction Hs as [|f l Hs IH Hall]; [by apply elem_of_nil in He|].
  rewrite Forall_forall in Hall. apply elem_of_cons in He as [<-|He].
  - rewrite filter_cons, decide_True by lia. f_equal.
    clear -Hall. induction l as [|g l IH]; [done|].
    rewrite filter_cons, decide_False; [apply IH; set_solver|].
    specialize (Hall g ltac:(set_solver)). lia.
  - rewrite filter_cons, decide_False.
    + apply IH; [done|]. intros g Hg. apply Hnext. set_solver.
    + specialize (Hall e He). intros [H1 _]. specialize (Hnext f ltac:(set_solver) H1). lia.
Qed.

Lemma state_at_next log i e :
  log_ok log → e ∈ log → i < ce_index e →
  (∀ f, f ∈ log → i < ce_index f → ce_index e ≤ ce_index f) →
  state_at log (ce_index e) = kstep (ce_op e) (state_at log i).
Proof.
  intros. unfold state_at. by rewrite (upTo_next log i), fmap_app, run_ops_app.
Qed.

Lemma state_at_mono log i j :
  log_ok log → i ≤ j →
  dom (state_at log i).1 ⊆ dom (state_at log j).1
  ∧ dom (state_at log i).2 ⊆ dom (state_at log j).2.
Proof.
  intros [Hs _ _] Hij. unfold state_at. rewrite (upTo_split log i j), fmap_app, run_ops_app by done.
  apply run_ops_dom.
Qed.

Lemma state_at_0 log : log_ok log → state_at log 0 = (∅, ∅).
Proof.
  intros Hok. unfold state_at, upTo.
  assert (∀ l, l ⊆ log → filter (λ e, ce_index e ≤ 0) l = []) as E; [|by rewrite E].
  induction l as [|e l IH]; intros Hl; [done|]. rewrite filter_cons, decide_False.
  - apply IH. set_solver.
  - pose proof (lo_pos _ Hok e ltac:(set_solver)). lia.
Qed.

(** ** A server and its goroutines *)

Section system.
Context {R : Type} `{!RaftAPI R}.
Context `{!GobCodec (gmap string string)} `{!GobCodec (gmap Z Z)}.
Context (log : list centry).
Implicit Types kv : KVServer R.

(** Raft's messages: the committed commands in order (an older one may come again),
    on the starting server as the pointer given to [Start] and elsewhere as a decoded
    copy, whose [Term] is that of the entry or still 0; and snapshots of the
    state at some index. *)
Definition deliverable kv (msg : ApplyMsg nat) : Prop :=
  if am_CommandValid msg then
    ∃ e p o, e ∈ log ∧ am_LogIndex msg = ce_index e ∧ am_CommandIndex msg = ce_cmd e
      ∧ am_Command msg = Some p ∧ ops kv !! p = Some o ∧ request o = ce_op e
      ∧ (op_Term o = 0 ∨ op_Term o = ce_term e)
      ∧ ∀ f, f ∈ log → lastAppliedIndex kv < ce_index f → ce_index e ≤ ce_index f
  else
    am_LastIncludedIndex msg ≤ lastAppliedIndex kv
    ∨ am_Snapshot msg = encodeSnapshot (state_at log (am_LastIncludedIndex msg)).1
                                       (state_at log (am_LastIncludedIndex msg)).2.

(** the server and the handlers between [Start] and the registration *)
Record Sys := mkSys { srv : KVServer R; pending : list (nat * (Z * Z * bool)) }.

Inductive kvstep : Sys → Sys → Prop :=
| ks_submit kv ps o kv' p ci t lead :
    submit o kv = Ret (kv', p, (ci, t, lead)) → (lead = true → ownEntry log ci t o) →
    kvstep (mkSys kv ps) (mkSys kv' ((p, (ci, t, lead)) :: ps))
| ks_register kv ps1 ps2 p r kv' c :
    register p r kv = Ret (kv', c) →
    kvstep (mkSys kv (ps1 ++ (p, r) :: ps2)) (mkSys kv' (ps1 ++ ps2))
| ks_get kv ps c ev kv' reply :
    Get_finish c ev kv = Ret (kv', reply) → kvstep (mkSys kv ps) (mkSys kv' ps)
| ks_put kv ps c ev kv' reply :
    PutAppend_finish c ev kv = Ret (kv', reply) → kvstep (mkSys kv ps) (mkSys kv' ps)
| ks_apply kv ps msg kv' :
    kv_killed kv = false → deliverable kv msg → applyMsg msg kv = Ret kv' →
    kvstep (mkSys kv ps) (mkSys kv' ps)
| ks_decode kv ps o : kvstep (mkSys kv ps) (mkSys (snd (newOp o kv)) ps)
| ks_snapshot kv ps o kv' :
    snapshotLoop_take o kv = Ret kv' → kvstep (mkSys kv ps) (mkSys kv' ps)
| ks_kill kv ps : kvstep (mkSys kv ps) (mkSys (kv_Kill kv) ps).

Inductive kvreach : Sys → Prop :=
| kr_init self rf maxraft : kvreach (mkSys (newKVServer self rf maxraft) [])
| kr_step s s' : kvreach s → kvstep s s' → kvreach s'.

(** a context that was woken: the entry at its index was applied, and unless the
    entry was another leader's it is the request, and a read got its key's value *)
Definition answered kv (o : Op) (ctx : OpContext) : Prop :=
  ∃ e, e ∈ log ∧ ce_index e ≤ lastAppliedIndex kv ∧ ce_cmd e = op_CmdIndex o
    ∧ (wrongLeader ctx = false →
        ce_op e = request o
        ∧ (isWrite o = false →
            (state_at log (ce_index e)).1 !! op_Key o
            = (if keyExist ctx then Some (value ctx) else None))).

(** the context [ctx] of a registered handler *)
Definition ctx_ok kv (ps : list (nat * (Z * Z * bool))) (ctx : OpContext) : Prop :=
  ∃ o, ops kv !! oc_op ctx = Some o ∧ (oc_op ctx ∉ ps.*1)
    ∧ ownEntry log (op_CmdIndex o) (op_Term o) o
    ∧ (commitedChan ctx = false → wrongLeader ctx = false)
    ∧ (commitedChan ctx = true → answered kv o ctx).

Record kv_inv (s : Sys) : Prop := {
  ki_state : (kvStore (srv s), seqMap (srv s)) = state_at log (lastAppliedIndex (srv s));
  ki_cmd : ∀ ci c, cmdMap (srv s) !! ci = Some c →
    ∃ ctx o, ctxs (srv s) !! c = Some ctx ∧ ops (srv s) !! oc_op ctx = Some o
             ∧ op_CmdIndex o = ci;
  ki_ctx : ∀ c ctx, ctxs (srv s) !! c = Some ctx → ctx_ok (srv s) (pending s) ctx;
  ki_nodup : NoDup (pending s).*1;
  ki_pending : ∀ p ci t lead, (p, (ci, t, lead)) ∈ pending s →
    ∃ o, ops (srv s) !! p = Some o ∧ (lead = true → ownEntry log ci t o);
}.

(** *** Operations on the objects *)

(** [ops'] has every object of [ops], those of [p] apart, unchanged *)
Definition grows (p : option nat) (l l' : list Op) : Prop :=
  ∀ q o, l !! q = Some o → Some q ≠ p → l' !! q = Some o.

Lemma grows_refl p l : grows p l l.
Proof. by intros q o. Qed.

Lemma grows_app p l o : grows p l (l ++ [o]).
Proof. intros q o' Hq _. by apply lookup_app_l_Some. Qed.

Lemma answered_mono kv kv' o ctx :
  lastAppliedIndex kv ≤ lastAppliedIndex kv' → answered kv o ctx → answered kv' o ctx.
Proof. intros Hl (e & ? & ? & ? & ?). exists e. split_and!; try done. lia. Qed.

Lemma ctx_ok_mono kv kv' ps ps' p ctx :
  grows p (ops kv) (ops kv') → (∀ q, p = Some q → q ∈ ps.*1) →
  lastAppliedIndex kv ≤ lastAppliedIndex kv' →
  (∀ q o, ops kv !! q = Some o → q ∉ ps.*1 → q ∉ ps'.*1) →
  ctx_ok kv ps ctx → ctx_ok kv' ps' ctx.
Proof.
  intros Hg Hp Hl Hps (o & Ho & Hn & Hown & Hc1 & Hc2). exists o. split_and!; try done.
  - apply Hg; [done|]. intros E. by apply Hn, Hp.
  - by eapply Hps.
  - intros Hcl. eapply answered_mono; eauto.
Qed.

Lemma ownEntry_request ci t o o' :
  request o = request o' → ownEntry log ci t o → ownEntry log ci t o'.
Proof. intros E [H1 H2]. split; [done|]. intros. rewrite <-E. by apply H2. Qed.

Hypothesis Hlog : log_ok log.

(** steps that only allocate, or that change neither the objects nor the store *)
Lemma inv_frame kv kv' ps :
  kv_inv (mkSys kv ps) →
  kvStore kv' = kvStore kv → seqMap kv' = seqMap kv →
  lastAppliedIndex kv' = lastAppliedIndex kv → ctxs kv' = ctxs kv →
  (∀ ci c, cmdMap kv' !! ci = Some c → cmdMap kv !! ci = Some c) →
  grows None (ops kv) (ops kv') → kv_inv (mkSys kv' ps).
Proof.
  intros [Hs Hc Hx Hn Hp] E1 E2 E3 E4 Hsub Hg. simpl in *. split; simpl; rewrite ?E4; try done.
  - by rewrite E1, E2, E3.
  - intros ci c (ctx & o & ? & ? & ?)%Hsub%Hc. exists ctx, o. split_and!; auto.
  - intros c ctx H. eapply ctx_ok_mono; [exact Hg|done|lia| |by eapply Hx]. eauto.
  - intros p ci t lead (o & ? & ?)%Hp. exists o. auto.
Qed.

Lemma inv_submit kv ps o kv' p ci t lead :
  kv_inv (mkSys kv ps) → submit o kv = Ret (kv', p, (ci, t, lead)) →
  (lead = true → ownEntry log ci t o) → kv_inv (mkSys kv' ((p, (ci, t, lead)) :: ps)).
Proof.
  intros [Hs Hc Hx Hn Hp] H Hown. unfold submit in H. simpl in H. go_step H.
  destruct a as [rf r]. simplify_eq. simpl in *. clear E.
  assert (grows None (ops kv) (ops kv ++ [o])) as Hg by apply grows_app.
  assert (∀ q o', ops kv !! q = Some o' → q ≠ length (ops kv)) as Hlt
    by (intros q o' ?%lookup_lt_Some; lia).
  split; simpl; [done|..].
  - intros ci' c (ctx & o' & ? & ? & ?)%Hc. exists ctx, o'. split_and!; auto.
  - intros c ctx H. eapply ctx_ok_mono; [exact Hg|done|simpl; lia| |by eapply Hx].
    intros q o' Hq Hnq. apply not_elem_of_cons. eauto.
  - apply NoDup_cons. split; [|done]. intros ([q [[? ?] ?]] & Hq & Hin)%list_elem_of_fmap.
    destruct (Hp _ _ _ _ Hin) as (o' & Ho & _). by apply (Hlt _ _ Ho).
  - intros q ci' t' lead' [[= -> -> -> ->]|Hin]%elem_of_cons.
    + exists o. split; [|done]. by rewrite lookup_app_r, Nat.sub_diag by lia.
    + destruct (Hp _ _ _ _ Hin) as (o' & ? & ?). exists o'. auto.
Qed.

Lemma inv_register kv ps1 ps2 p r kv' c :
  kv_inv (mkSys kv (ps1 ++ (p, r) :: ps2)) → register p r kv = Ret (kv', c) →
  kv_inv (mkSys kv' (ps1 ++ ps2)).
Proof.
  intros [Hs Hc Hx Hn Hp] H. destruct r as [[ci t] lead]. simpl in *.
  destruct (Hp p ci t lead) as (o & Ho & Hown); [set_solver|].
  unfold register, derefOp in H. rewrite Ho in H. simpl in H.
  set (o' := mkOp _ _ _ _ _ _ _) in H.
  assert (request o' = request o) as Hreq by done.
  rewrite fmap_app in Hn. simpl in Hn. apply NoDup_app in Hn as (Hn1 & Hd & [Hp2 Hn2]%NoDup_cons).
  assert (p ∉ (ps1 ++ ps2).*1) as Hpn by (rewrite fmap_app; set_solver).
  assert (NoDup (ps1 ++ ps2).*1) as Hnd
    by (rewrite fmap_app; apply NoDup_app; split_and!; try done; set_solver).
  assert (grows (Some p) (ops kv) (<[p:=o']> (ops kv))) as Hg.
  { intros q oq Hq Hne. rewrite list_lookup_insert_ne; [done|congruence]. }
  assert (<[p:=o']> (ops kv) !! p = Some o') as Hlk
    by (apply list_lookup_insert_eq; by eapply lookup_lt_Some).
  assert (∀ kv', ops kv' = <[p:=o']> (ops kv) → lastAppliedIndex kv' = lastAppliedIndex kv →
    ∀ c ctx, ctxs kv !! c = Some ctx → ctx_ok kv' (ps1 ++ ps2) ctx) as Hx'.
  { intros kv2 E1 E2 c' ctx Hctx. eapply ctx_ok_mono; [| | | |by eapply Hx].
    - rewrite E1. exact Hg.
    - intros q [= <-]. rewrite fmap_app. set_solver.
    - lia.
    - intros q oq _ Hq Hin. apply Hq. rewrite fmap_app in *. set_solver. }
  assert (∀ q oq, ops kv !! q = Some oq → q ≠ p → <[p:=o']> (ops kv) !! q = Some oq) as Hold
    by (intros q oq Hq Hne; apply Hg; congruence).
  assert (∀ q ci t lead, (q, (ci, t, lead)) ∈ ps1 ++ ps2 →
    ∃ o, <[p:=o']> (ops kv) !! q = Some o ∧ (lead = true → ownEntry log ci t o)) as Hp'.
  { intros q ci' t' lead' Hin. destruct (Hp q ci' t' lead') as (oq & Hq & Hqo); [set_solver|].
    exists oq. split; [|done]. apply Hold; [done|]. intros ->. apply Hpn.
    apply list_elem_of_fmap. by eexists (p, _). }
  assert (∀ ctx, ctx_ok kv (ps1 ++ (p, (ci, t, lead)) :: ps2) ctx → oc_op ctx ≠ p) as Hcp.
  { intros ctx (? & _ & Hni & _) Heq. apply Hni. rewrite fmap_app, Heq. set_solver. }
  destruct lead; simpl in H; simplify_eq; split; simpl in *; try done.
  - intros ci' c' [[<- <-]|[Hne Hlk']]%lookup_insert_Some.
    + eexists _, o'. split; [by rewrite lookup_app_r, Nat.sub_diag by lia|]. done.
    + destruct (Hc _ _ Hlk') as (ctx & oc & ? & Hoc & ?). exists ctx, oc.
      split_and!; [by apply lookup_app_l_Some| |done]. apply Hold; [done|]. eauto.
  - intros c' ctx [Hl|[_ Hl]]%lookup_app_Some; [by eapply Hx'|].
    apply list_lookup_singleton_Some in Hl as [_ <-]. exists o'. simpl.
    split_and!; try done. by eapply ownEntry_request; [symmetry; exact Hreq|apply Hown].
  - intros ci' c' (ctx & oc & ? & Hoc & ?)%Hc. exists ctx, oc. split_and!; [done| |done].
    apply Hold; [done|]. eauto.
  - intros c' ctx Hl. by eapply Hx'.
Qed.

Lemma cleanup_inv kv ps c kv' :
  kv_inv (mkSys kv ps) → cleanup c kv = Ret kv' → kv_inv (mkSys kv' ps).
Proof.
  intros Hinv H. unfold cleanup in H. go_steps H; try done.
  eapply inv_frame; try done; [|apply grows_refl]. intros ci c'. apply lookup_delete_Some.
Qed.

(** the store after a command, whoever waits for it *)
Lemma applyCommand_state kv msg kv' :
  applyCommand msg kv = Ret kv' →
  (kv' = kv ∧ am_LogIndex msg ≤ lastAppliedIndex kv)
  ∨ ∃ p o, am_Command msg = Some p ∧ ops kv !! p = Some o
      ∧ lastAppliedIndex kv < am_LogIndex msg ∧ lastAppliedIndex kv' = am_LogIndex msg
      ∧ (kvStore kv', seqMap kv') = kstep o (kvStore kv, seqMap kv)
      ∧ cmdMap kv' = cmdMap kv ∧ ops kv' = ops kv
      ∧ match cmdMap kv !! am_CommandIndex msg with
        | None => ctxs kv' = ctxs kv
        | Some c => ∃ ctx oc ctx', ctxs kv !! c = Some ctx ∧ ops kv !! oc_op ctx = Some oc
            ∧ answer o (op_Term oc) (seqMap kv !! op_ClientId o) (kvStore kv') ctx = Ret ctx'
            ∧ ctxs kv' = <[c := ctx']> (ctxs kv)
        end.
Proof.
  unfold applyCommand, derefOp, derefCtx. intros H. destruct (Z.leb_spec (am_LogIndex msg) (lastAppliedIndex kv)).
  { simplify_eq. auto. }
  right. go_step H. destruct (am_Command msg) as [p|]; [|done]. simpl in E.
  destruct (ops kv !! p) as [o|] eqn:Ho; [|done]. injection E as <-.
  exists p, o. unfold kstep. simpl.
  simpl in H. revert H.
  destruct (isWrite o && newer o (seqMap kv !! op_ClientId o)) eqn:Ew; simpl; intros H;
    (destruct (cmdMap kv !! am_CommandIndex msg) as [c|] eqn:Ec;
     [|by simplify_eq; split_and!; simpl]).
  all: destruct (ctxs kv !! c) as [ctx|] eqn:Ectx; [|done]; simpl in H.
  all: destruct (ops kv !! oc_op ctx) as [oc|] eqn:Eoc; [|done]; simpl in H.
  all: go_step H; simplify_eq; split_and!; try done; simpl; by eauto 10.
Qed.

(** what [answer] leaves in the context *)
Lemma answer_inv o t prev store ctx ctx' :
  answer o t prev store ctx = Ret ctx' →
  commitedChan ctx = false ∧ commitedChan ctx' = true ∧ oc_op ctx' = oc_op ctx
  ∧ wrongLeader ctx' = wrongLeader ctx || negb (op_Term o =? t)
  ∧ (isWrite o = false →
      store !! op_Key o = (if keyExist ctx' then Some (value ctx') else None)).
Proof.
  unfold answer. destruct (isWrite o) eqn:Ew; simpl; intros H; go_step H; simplify_eq;
    simpl; split_and!; try done.
  intros _. by destruct (store !! op_Key o).
Qed.

Lemma kstep_read o s : isWrite o = false → (kstep o s).1 = s.1.
Proof. intros E. unfold kstep. by rewrite E. Qed.

Lemma inv_command kv ps msg kv' :
  kv_inv (mkSys kv ps) → am_CommandValid msg = true → deliverable kv msg →
  applyCommand msg kv = Ret kv' → kv_inv (mkSys kv' ps).
Proof.
  intros Hinv Hv Hd H. pose proof Hinv as [Hs Hc Hx Hn Hp]. simpl in *.
  unfold deliverable in Hd. rewrite Hv in Hd.
  destruct Hd as (e & p & o & He & Hli & Hci & Hcmd & Ho & Hreq & Hterm & Hnext).
  apply applyCommand_state in H
    as [[-> _]|(p' & o' & Hp' & Ho' & Hlt & El & Est & Ecm & Eops & Hctx)]; [done|].
  simplify_eq. rewrite Hli in *.
  assert ((kvStore kv', seqMap kv') = state_at log (ce_index e)) as Hst.
  { rewrite Est, Hs, (state_at_next log (lastAppliedIndex kv) e), <-Hreq; done. }
  assert (∀ ctx, ctx_ok kv ps ctx → ctx_ok kv' ps ctx) as Hmono.
  { intros ctx. eapply (ctx_ok_mono _ _ _ _ None); [|done|lia|done].
    rewrite Eops. apply grows_refl. }
  split; simpl; try done; [by rewrite El| | |by rewrite Eops].
  - intros ci c Hl. rewrite Ecm in Hl. destruct (Hc _ _ Hl) as (ctx & oc & Hcx & Hoc & Hoi).
    rewrite Eops. destruct (cmdMap kv !! am_CommandIndex msg) as [c1|]; [|rewrite Hctx; eauto].
    destruct Hctx as (ctx1 & oc1 & ctx1' & H1 & H2 & H3 & ->).
    destruct (decide (c = c1)) as [->|]; [|rewrite list_lookup_insert_ne by done; eauto].
    rewrite list_lookup_insert_eq by (by eapply lookup_lt_Some).
    apply answer_inv in H3 as (_ & _ & E3 & _). exists ctx1', oc. rewrite E3. by simplify_eq.
  - intros c ctx Hl. destruct (cmdMap kv !! am_CommandIndex msg) as [c1|] eqn:Ec1;
      [|apply Hmono; rewrite Hctx in Hl; eauto].
    destruct Hctx as (ctx1 & oc1 & ctx1' & H1 & H2 & H3 & Ectx). rewrite Ectx in Hl.
    destruct (decide (c = c1)) as [->|];
      [|rewrite list_lookup_insert_ne in Hl by done; apply Hmono; eauto].
    rewrite list_lookup_insert_eq in Hl by (by eapply lookup_lt_Some). simplify_eq.
    apply answer_inv in H3 as (A1 & A2 & A3 & A4 & A5).
    destruct (Hx _ _ H1) as (oc & Hoc & Hni & Hown & Hw & _).
    assert (oc1 = oc) as -> by congruence.
    exists oc. rewrite A3, A4, Eops. split_and!; try done; [congruence|]. intros _.
    destruct (Hc _ _ Ec1) as (ctx2 & oc2 & ? & ? & Hidx). simplify_eq.
    exists e. split_and!; [done|by rewrite El|congruence|].
    rewrite A4, (Hw A1). simpl. intros Heq%negb_false_iff%Z.eqb_eq.
    destruct Hown as [Hnz Hown].
    assert (ce_op e = request oc) as Eop by (apply Hown; [done|congruence|destruct Hterm; congruence]).
    split; [done|]. intros Hr.
    assert (request o = request oc) as Er by congruence.
    rewrite <-Hst. simpl. injection Er as <- _ _ _ _. apply A5.
    rewrite (isWrite_request o oc); [done|congruence].
Qed.

Lemma gob_decode_union {K V} `{Countable K} `{!GobCodec (gmap K V)} (m m' : gmap K V) rest :
  dom m ⊆ dom m' → gob_decode_map m (gob_encode m' ++ rest) = (m', rest).
Proof. intros Hd. unfold gob_decode_map. by rewrite gob_roundtrip, union_dom_l. Qed.

Lemma encodeSnapshot_nonempty store seqs : (len (encodeSnapshot store seqs) =? 0) = false.
Proof.
  unfold encodeSnapshot, len. rewrite length_app.
  pose proof (gob_nonempty store). destruct (gob_encode store); simpl; [done|lia].
Qed.

(** the state of an install, over whatever prefix the server had *)
Lemma installSnapshot_state kv msg :
  (kvStore kv, seqMap kv) = state_at log (lastAppliedIndex kv) →
  lastAppliedIndex kv < am_LastIncludedIndex msg →
  am_Snapshot msg = encodeSnapshot (state_at log (am_LastIncludedIndex msg)).1
                                   (state_at log (am_LastIncludedIndex msg)).2 →
  let kv' := installSnapshot msg kv in
  (kvStore kv', seqMap kv') = state_at log (am_LastIncludedIndex msg)
  ∧ lastAppliedIndex kv' = am_LastIncludedIndex msg.
Proof.
  intros Hs Hlt Hsnap. destruct (state_at_mono log (lastAppliedIndex kv)
    (am_LastIncludedIndex msg) Hlog ltac:(lia)) as [H1 H2].
  rewrite <-Hs in H1, H2. simpl in H1, H2.
  unfold installSnapshot. rewrite (proj2 (Z.leb_gt _ _)) by lia.
  rewrite Hsnap, encodeSnapshot_nonempty. simpl. unfold encodeSnapshot.
  rewrite gob_decode_union by done.
  rewrite <-(app_nil_r (gob_encode (state_at log _).2)), gob_decode_union by done. simpl.
  split; [symmetry; apply surjective_pairing|done].
Qed.

Lemma installSnapshot_frame kv msg :
  let kv' := installSnapshot msg kv in
  cmdMap kv' = cmdMap kv ∧ ops kv' = ops kv ∧ ctxs kv' = ctxs kv.
Proof. unfold installSnapshot, gob_decode_map. simpl. by repeat case_match. Qed.

Lemma inv_snapshot kv ps msg :
  kv_inv (mkSys kv ps) → am_CommandValid msg = false → deliverable kv msg →
  kv_inv (mkSys (installSnapshot msg kv) ps).
Proof.
  intros Hinv Hv Hd. unfold deliverable in Hd. rewrite Hv in Hd.
  destruct (Z.leb_spec (am_LastIncludedIndex msg) (lastAppliedIndex kv)) as [Hle|Hlt].
  { unfold installSnapshot. by rewrite (proj2 (Z.leb_le _ _)) by lia. }
  destruct Hd as [|Hsnap]; [lia|]. pose proof Hinv as [Hs Hc Hx Hn Hp]. simpl in *.
  destruct (installSnapshot_state kv msg Hs Hlt Hsnap) as [Est El].
  destruct (installSnapshot_frame kv msg) as (E1 & E2 & E3).
  split; simpl; rewrite ?E1, ?E2, ?E3; try done; [by rewrite El|].
  intros c ctx Hl. eapply (ctx_ok_mono _ _ _ _ None); [|done| |done|by eapply Hx].
  - rewrite E2. apply grows_refl.
  - rewrite El. lia.
Qed.

Lemma kvreach_inv s : kvreach s → kv_inv s.
Proof.
  induction 1 as [self rf maxraft|s s' _ IH Hstep].
  { split; simpl; try done; [by rewrite state_at_0|apply NoDup_nil_2|].
    intros ? ? ? ? ?%elem_of_nil. done. }
  destruct Hstep.
  - by eapply inv_submit.
  - by eapply inv_register.
  - unfold Get_finish in *. go_step H. go_step H. simplify_eq. by eapply cleanup_inv.
  - unfold PutAppend_finish in *. go_step H. go_step H. simplify_eq. by eapply cleanup_inv.
  - unfold applyMsg in *. destruct (am_CommandValid msg) eqn:Hv; [by eapply inv_command|].
    simplify_eq. by eapply inv_snapshot.
  - eapply inv_frame; try done. apply grows_app.
  - unfold snapshotLoop_take in *. destruct o as [[snap li]|]; [|by simplify_eq].
    go_step H. simplify_eq. eapply inv_frame; try done. apply grows_refl.
  - eapply inv_frame; try done. apply grows_refl.
Qed.

(** *** What a server holds *)

(** C9: Whatever handlers run, however often committed commands are delivered again,
    and whether the server got here by commands or by installing snapshots over an
    older state, its store and its table of sequence numbers are those of the
    committed log up to its last applied index. *)
Theorem replica_state s :
  kvreach s →
  (kvStore (srv s), seqMap (srv s)) = state_at log (lastAppliedIndex (srv s)).
Proof. intros Hr. apply (ki_state _ (kvreach_inv _ Hr)). Qed.

(** C10: A snapshot that one server takes brings any server that is behind into the
    same state: decoding it over the older maps leaves exactly the store and the
    sequence numbers of the first server. *)
Theorem snapshot_transfer s1 s2 snap li msg :
  kvreach s1 → kvreach s2 → snapshotLoop_read (srv s1) = Some (snap, li) →
  am_CommandValid msg = false → am_Snapshot msg = snap → am_LastIncludedIndex msg = li →
  lastAppliedIndex (srv s2) < li →
  let kv' := installSnapshot msg (srv s2) in
  kvStore kv' = kvStore (srv s1) ∧ seqMap kv' = seqMap (srv s1)
  ∧ lastAppliedIndex kv' = lastAppliedIndex (srv s1).
Proof.
  intros H1 H2 Hread Hv Hsnap Hli Hlt. apply kvreach_inv, ki_state in H1, H2.
  unfold snapshotLoop_read in Hread. case_match; [|done]. injection Hread as <- <-.
  destruct (installSnapshot_state (srv s2) msg H2) as [Est El]; rewrite Hli in *; [done| |].
  - by rewrite Hsnap, <-H1.
  - rewrite <-H1 in Est. injection Est as ? ?. cbv zeta. auto.
Qed.

(** *** Panics and wake-ups *)

Lemma applyMsg_total s msg :
  kv_inv s → deliverable (srv s) msg →
  ∃ kv', applyMsg msg (srv s) = Ret kv'
    ∧ (am_CommandValid msg = true → lastAppliedIndex (srv s) < am_LogIndex msg →
       ∀ c, cmdMap (srv s) !! am_CommandIndex msg = Some c →
       ∃ ctx, ctxs kv' !! c = Some ctx ∧ commitedChan ctx = true).
Proof.
  intros [Hs Hc Hx _ _] Hd. unfold applyMsg, deliverable in *.
  destruct (am_CommandValid msg); [|by eexists].
  destruct Hd as (e & p & o & He & Hli & Hci & Hcmd & Ho & _).
  unfold applyCommand. destruct (Z.leb_spec (am_LogIndex msg) (lastAppliedIndex (srv s))).
  { eexists. split; [done|lia]. }
  unfold derefOp, derefCtx. rewrite Hcmd. simpl. rewrite Ho. simpl.
  destruct (cmdMap (srv s) !! am_CommandIndex msg) as [c|] eqn:Ec; [|by eexists].
  destruct (Hc _ _ Ec) as (ctx & oc & Hcx & Hoc & Hidx).
  assert (commitedChan ctx = false) as Hcl.
  { destruct (commitedChan ctx) eqn:Ecl; [|done]. exfalso.
    destruct (Hx _ _ Hcx) as (oc' & Hoc' & _ & _ & _ & Hans). simplify_eq.
    destruct (Hans Ecl) as (e' & He' & Hle & Hcmd' & _).
    assert (e' = e) as -> by (apply (lo_cmd _ Hlog); [done..|congruence]). lia. }
  assert (∀ t prev store, ∃ ctx', answer o t prev store ctx = Ret ctx' ∧ commitedChan ctx' = true)
    as Ha.
  { intros. unfold answer. destruct (isWrite o); simpl; rewrite Hcl; by eexists. }
  destruct (isWrite o && newer o (seqMap (srv s) !! op_ClientId o)); simpl;
    rewrite Hcx; simpl; rewrite Hoc; simpl;
    match goal with |- context [answer o ?t ?pr ?st ctx] =>
      destruct (Ha t pr st) as (ctx' & -> & Hcl') end;
    simpl; (eexists; split; [done|]); intros _ _ c' [= <-]; exists ctx'; split; try done;
    simpl; apply list_lookup_insert_eq; by eapply lookup_lt_Some.
Qed.

Lemma cleanup_total s c ctx :
  kv_inv s → ctxs (srv s) !! c = Some ctx → ∃ kv', cleanup c (srv s) = Ret kv'.
Proof.
  intros [_ _ Hx _ _] Hcx. destruct (Hx _ _ Hcx) as (o & Ho & _).
  unfold cleanup, derefCtx, derefOp. rewrite Hcx. simpl. rewrite Ho. simpl.
  repeat case_match; eauto.
Qed.

(** C11: Nothing panics: the apply loop finds every object it dereferences and never
    closes a channel twice, a handler that got its index from Raft can always
    register, and a registered handler can always end and clean up, by timeout or
    when its channel is closed. *)
Theorem kv_no_panic s :
  kvreach s →
  (∀ msg, deliverable (srv s) msg → ∃ kv', applyMsg msg (srv s) = Ret kv')
  ∧ (∀ p r, (p, r) ∈ pending s → ∃ kv' c, register p r (srv s) = Ret (kv', c))
  ∧ (∀ c ctx ev, ctxs (srv s) !! c = Some ctx →
       (ev = WaitCommitted → commitedChan ctx = true) →
       (∃ kv' reply, Get_finish c ev (srv s) = Ret (kv', reply))
       ∧ (∃ kv' reply, PutAppend_finish c ev (srv s) = Ret (kv', reply))).
Proof.
  intros Hinv%kvreach_inv. split_and!.
  - intros msg Hd. destruct (applyMsg_total s msg Hinv Hd) as (kv' & ? & _). eauto.
  - intros p [[ci t] lead] Hin. destruct (ki_pending _ Hinv _ _ _ _ Hin) as (o & Ho & _).
    unfold register, derefOp. rewrite Ho. simpl. case_match; eauto.
  - intros c ctx ev Hcx Hev. destruct (cleanup_total s c ctx Hinv Hcx) as (kv' & E).
    unfold Get_finish, PutAppend_finish, awaitCtx, derefCtx.
    destruct ev; rewrite ?Hcx; simpl; rewrite ?(Hev eq_refl); simpl; rewrite E; eauto 10.
Qed.

(** C12: When a committed command reaches the apply loop for the first time, the
    handler that waits at its command index is woken: its channel is closed by the
    time the loop is done with the message. *)
Theorem waiting_handler_woken s msg c :
  kvreach s → deliverable (srv s) msg → am_CommandValid msg = true →
  lastAppliedIndex (srv s) < am_LogIndex msg →
  cmdMap (srv s) !! am_CommandIndex msg = Some c →
  ∃ kv' ctx, applyMsg msg (srv s) = Ret kv' ∧ ctxs kv' !! c = Some ctx
    ∧ commitedChan ctx = true.
Proof.
  intros Hinv%kvreach_inv Hd Hv Hlt Hc.
  destruct (applyMsg_total s msg Hinv Hd) as (kv' & E & Hw).
  destruct (Hw Hv Hlt c Hc) as (ctx & ? & ?). eauto.
Qed.

(** *** What the handlers answer *)

Lemma awaited_answered s c ctx :
  kv_inv s → awaitCtx c (srv s) = Ret ctx →
  ctxs (srv s) !! c = Some ctx
  ∧ ∃ o, ops (srv s) !! oc_op ctx = Some o ∧ answered (srv s) o ctx.
Proof.
  intros Hinv H. unfold awaitCtx, derefCtx in H. destruct (ctxs (srv s) !! c) as [x|] eqn:E; [|done].
  simpl in H. go_step H; [|done]. simplify_eq. split; [done|].
  destruct (ki_ctx _ Hinv _ _ E) as (o & Ho & _ & _ & _ & Ha). eauto.
Qed.

(** C13: A [Get] that answers [OK] with a value, or [ErrNoKey], has been committed and
    applied: the request is an entry of the committed log, and the answer is what the
    key holds in the state of the log at that entry. *)
Theorem Get_linearized s c ctx o ev kv' reply :
  kvreach s → ctxs (srv s) !! c = Some ctx → ops (srv s) !! oc_op ctx = Some o →
  op_Type o = OP_TYPE_GET → Get_finish c ev (srv s) = Ret (kv', reply) →
  gr_Err reply ≠ ErrWrongLeader →
  ∃ e, e ∈ log ∧ ce_op e = request o ∧ ce_index e ≤ lastAppliedIndex (srv s)
    ∧ match (state_at log (ce_index e)).1 !! op_Key o with
      | Some v => reply = mkGetReply OK v
      | None => reply = mkGetReply ErrNoKey ""
      end.
Proof.
  intros Hinv%kvreach_inv Hcx Ho Ht H Hne. unfold Get_finish in H. go_step H. go_step H.
  simplify_eq. destruct ev; simpl in E; [|by simplify_eq].
  go_step E. destruct (awaited_answered s c _ Hinv E1) as (Hcx' & o' & Ho' & Ha).
  assert (a = ctx ∧ o' = o) as [-> ->] by (split; congruence).
  destruct Ha as (e & He & Hle & _ & Hw).
  destruct (wrongLeader ctx) eqn:Ew; [by simplify_eq|]. destruct (Hw eq_refl) as [Eop Hv].
  exists e. split_and!; try done. rewrite Hv by (unfold isWrite; by rewrite Ht).
  simplify_eq. by destruct (keyExist ctx).
Qed.

(** the store after a write whose number is new, spelled out *)
Lemma kstep_new o s :
  (∀ n, s.2 !! op_ClientId o = Some n → n < op_SeqId o) →
  (op_Type o = OP_TYPE_PUT → (kstep o s).1 = <[op_Key o := op_Value o]> s.1)
  ∧ (op_Type o = OP_TYPE_APPEND →
     (kstep o s).1 = <[op_Key o := default ""%string (s.1 !! op_Key o) +:+ op_Value o]> s.1).
Proof.
  intros Hn. assert (newer o (s.2 !! op_ClientId o) = true) as Hnew.
  { unfold newer. destruct (s.2 !! op_ClientId o) as [n|]; [|done].
    apply Z.ltb_lt. by apply Hn. }
  unfold kstep, write, isWrite. rewrite Hnew.
  split; intros Ht; rewrite Ht; simpl; [done|]. by destruct (s.1 !! op_Key o).
Qed.

Lemma kstep_stale o s n :
  s.2 !! op_ClientId o = Some n → op_SeqId o ≤ n → (kstep o s).1 = s.1.
Proof.
  intros E Hle. unfold kstep, newer. rewrite E, (proj2 (Z.ltb_ge _ _)) by done.
  by rewrite andb_false_r.
Qed.

(** C14: A [Put] or [Append] that answers [OK] is an entry of the committed log within
    what the server has applied.  If its number is newer than the last one of its
    client at that point of the log, the entry executes it: a [Put] sets the key to
    the value, an [Append] appends the value to what the key held (nothing, if it was
    absent), and no other key changes; otherwise the entry leaves the store as it is
    (the request was executed before, or its client has gone on).  The server's
    store is the one of the log up to its last applied index. *)
Theorem PutAppend_committed s c ctx o ev kv' :
  kvreach s → ctxs (srv s) !! c = Some ctx → ops (srv s) !! oc_op ctx = Some o →
  PutAppend_finish c ev (srv s) = Ret (kv', mkPutAppendReply OK) →
  ∃ e, e ∈ upTo log (lastAppliedIndex kv') ∧ ce_op e = request o
    ∧ (let before := state_at log (ce_index e - 1) in
       let after := state_at log (ce_index e) in
       ((∀ n, before.2 !! op_ClientId o = Some n → n < op_SeqId o) →
          (op_Type o = OP_TYPE_PUT → after.1 = <[op_Key o := op_Value o]> before.1)
          ∧ (op_Type o = OP_TYPE_APPEND →
             after.1 = <[op_Key o :=
                          default ""%string (before.1 !! op_Key o) +:+ op_Value o]> before.1))
       ∧ (∀ n, before.2 !! op_ClientId o = Some n → op_SeqId o ≤ n → after.1 = before.1)
       ∧ after.2 !! op_ClientId o = Some (op_SeqId o))
    ∧ kvStore kv' = (state_at log (lastAppliedIndex kv')).1.
Proof.
  intros Hinv%kvreach_inv Hcx Ho H. unfold PutAppend_finish in H. go_step H. go_step H.
  simplify_eq. destruct ev; simpl in E; [|by simplify_eq].
  go_step E. destruct (awaited_answered s c _ Hinv E1) as (Hcx' & o' & Ho' & Ha).
  assert (a = ctx ∧ o' = o) as [-> ->] by (split; congruence).
  destruct Ha as (e & He & Hle & _ & Hw).
  destruct (wrongLeader ctx) eqn:Ew; [done|]. destruct (Hw eq_refl) as [Eop _].
  assert (kvStore kv' = kvStore (srv s) ∧ lastAppliedIndex kv' = lastAppliedIndex (srv s))
    as [-> ->] by (unfold cleanup in E0; by go_steps E0).
  exists e. split_and!; [by apply list_elem_of_filter|done| |by rewrite <-(ki_state _ Hinv)].
  rewrite (state_at_next log (ce_index e - 1) e), Eop by (done || intros; lia).
  cbv zeta. split_and!.
  - intros Hn. apply (kstep_new (request o)), Hn.
  - intros n Hn. by apply (kstep_stale (request o)).
  - unfold kstep. simpl. apply lookup_insert_eq.
Qed.
End system.
