(* ===== verification/KVExactlyOnce.v ===== *)
(** * Package kvraft: exactly-once execution, and concrete executions

    A clerk numbers its requests and sends a request again until it is answered,
    so the committed log may hold a request several times.  The table of sequence
    numbers makes the store execute it once, as long as each client's numbers
    never go back along the log. *)

From S2P Require Import Prelude Gob Raft RaftStep KVServer KVSpec.
From Stdlib Require Import Sorting.Sorted.

Section exactly_once.
Implicit Types (o : Op) (l : list Op) (seen : list (Z * Z)) (s : kstate).

(** the identity of a request *)
Definition requestId o : Z * Z := (op_ClientId o, op_SeqId o).

(** the requests of [l], each at its first occurrence *)
Fixpoint executed seen l : list Op :=
  match l with
  | [] => []
  | o :: l =>
      if decide (requestId o ∈ seen) then executed seen l
      else o :: executed (requestId o :: seen) l
  end.

(** the store without sequence numbers *)
Definition plain (l : list Op) (m : gmap string string) : gmap string string :=
  foldl (λ m o, write o m) m l.

(** along the log, the numbers of a client do not go back *)
Definition inClientOrder l : Prop :=
  StronglySorted (λ o o', op_ClientId o = op_ClientId o' → op_SeqId o ≤ op_SeqId o') l.

Lemma write_read o m : isWrite o = false → write o m = m.
Proof.
  unfold isWrite, write. intros [H1 H2]%orb_false_iff.
  apply bool_decide_eq_false in H1, H2. by rewrite !decide_False.
Qed.

(** the table holds the newest number of each client seen *)
Definition tableOf (seqs : gmap Z Z) seen : Prop :=
  (∀ c m, seqs !! c = Some m → (c, m) ∈ seen)
  ∧ ∀ c n, (c, n) ∈ seen → ∃ m, seqs !! c = Some m ∧ n ≤ m.

Lemma tableOf_insert seqs seen o :
  tableOf seqs seen → (∀ m, seqs !! op_ClientId o = Some m → m ≤ op_SeqId o) →
  tableOf (<[op_ClientId o := op_SeqId o]> seqs) (requestId o :: seen).
Proof.
  intros [H1 H2] Hm. split.
  - intros c m [[<- <-]|[_ H]]%lookup_insert_Some; [by left|]. right. by apply H1.
  - intros c n [[= -> ->]|Hin]%elem_of_cons; [exists (op_SeqId o); by rewrite lookup_insert_eq|].
    destruct (H2 _ _ Hin) as (m & Hc & Hle).
    destruct (decide (c = op_ClientId o)) as [->|Hne].
    + exists (op_SeqId o). rewrite lookup_insert_eq. split; [done|]. specialize (Hm _ Hc). lia.
    + exists m. by rewrite lookup_insert_ne.
Qed.

Lemma tableOf_newer seqs seen o :
  tableOf seqs seen → (∀ m, seqs !! op_ClientId o = Some m → m ≤ op_SeqId o) →
  newer o (seqs !! op_ClientId o) = negb (bool_decide (requestId o ∈ seen)).
Proof.
  intros [H1 H2] Hm. unfold newer.
  destruct (seqs !! op_ClientId o) as [m|] eqn:E; case_bool_decide as Hin; try done.
  - destruct (H2 _ _ Hin) as (m' & ? & ?). simplify_eq. apply Z.ltb_ge. lia.
  - apply Z.ltb_lt. specialize (Hm m eq_refl). apply H1 in E.
    destruct (decide (m = op_SeqId o)) as [->|]; [done|lia].
  - destruct (H2 _ _ Hin) as (m' & ? & ?). congruence.
Qed.

(** a repeated identity adds nothing *)
Lemma tableOf_again seqs seen o :
  requestId o ∈ seen → tableOf seqs (requestId o :: seen) → tableOf seqs seen.
Proof.
  intros Hin [H1 H2]. split; [|intros; apply H2; by right].
  intros c m [->|?]%H1%elem_of_cons; done.
Qed.

Lemma run_ops_executed l : ∀ s seen,
  inClientOrder l → tableOf s.2 seen →
  (∀ o m, o ∈ l → s.2 !! op_ClientId o = Some m → m ≤ op_SeqId o) →
  (run_ops l s).1 = plain (executed seen l) s.1.
Proof.
  induction l as [|o l IH]; intros s seen Hs Ht Hm; [done|].
  apply StronglySorted_inv in Hs as [Hs Hall]. rewrite Forall_forall in Hall.
  assert (∀ m, s.2 !! op_ClientId o = Some m → m ≤ op_SeqId o) as Hmo
    by (intros m; apply Hm; set_solver).
  assert (∀ o' m, o' ∈ l → (kstep o s).2 !! op_ClientId o' = Some m → m ≤ op_SeqId o') as Hm'.
  { intros o' m Ho'. simpl. intros [[Hc <-]|[_ Hl]]%lookup_insert_Some; [by apply Hall|].
    apply Hm; [set_solver|done]. }
  pose proof (tableOf_insert _ _ _ Ht Hmo) as Ht'.
  pose proof (tableOf_newer _ _ _ Ht Hmo) as Hn.
  change (run_ops (o :: l) s) with (run_ops l (kstep o s)). simpl executed.
  destruct (decide (requestId o ∈ seen)) as [Hin|Hin].
  - rewrite (IH _ seen); [|done|by eapply tableOf_again|done].
    f_equal. unfold kstep. simpl. by rewrite Hn, bool_decide_true, andb_false_r.
  - rewrite (IH _ (requestId o :: seen)) by done. simpl. f_equal. unfold kstep. simpl.
    rewrite Hn, bool_decide_false, andb_true_r by done.
    case_match; [done|]. by rewrite write_read.
Qed.

Lemma executed_spec l : ∀ seen,
  (∀ o, o ∈ executed seen l → o ∈ l ∧ requestId o ∉ seen)
  ∧ NoDup (requestId <$> executed seen l)
  ∧ ∀ o, o ∈ l → requestId o ∉ seen → ∃ o', o' ∈ executed seen l ∧ requestId o' = requestId o.
Proof.
  induction l as [|o l IH]; intros seen; simpl.
  { split_and!; [by intros ? ?%elem_of_nil|apply NoDup_nil_2|by intros ? ?%elem_of_nil]. }
  case_decide as Hin.
  - destruct (IH seen) as (H1 & H2 & H3). split_and!; [|done|].
    + intros o' [? ?]%H1. set_solver.
    + intros o' [->|Ho']%elem_of_cons Hn; [done|]. by apply H3.
  - destruct (IH (requestId o :: seen)) as (H1 & H2 & H3). split_and!.
    + intros o' [->|[? Hn]%H1]%elem_of_cons; [split; [by left|done]|].
      apply not_elem_of_cons in Hn as [_ Hn]. split; [by right|done].
    + apply NoDup_cons. split; [|done]. intros (o' & Heq & [_ Hn]%H1)%list_elem_of_fmap.
      apply not_elem_of_cons in Hn as [Hn _]. congruence.
    + intros o' [->|Ho']%elem_of_cons Hn; [exists o; split; [by left|done]|].
      destruct (decide (requestId o' = requestId o)) as [Heq|Hne];
        [exists o; split; [by left|done]|].
      destruct (H3 o' Ho') as (o2 & ? & ?); [by apply not_elem_of_cons|].
      exists o2. split; [by right|done].
Qed.

(** the commands applied so far keep the clients' order *)
Lemma inClientOrder_upTo log i :
  inClientOrder (ce_op <$> log) → inClientOrder (ce_op <$> upTo log i).
Proof.
  unfold inClientOrder, upTo. induction log as [|e l IH]; [done|]. simpl.
  intros [Hs Hall]%StronglySorted_inv. rewrite filter_cons. case_decide; [|by apply IH].
  simpl. apply SSorted_cons; [by apply IH|]. rewrite Forall_forall in *.
  intros o (f & -> & Hf)%list_elem_of_fmap. apply Hall.
  apply list_elem_of_filter in Hf as [_ Hf]. apply list_elem_of_fmap. eauto.
Qed.

(** C15: If no client's sequence numbers go back along the committed log, every
    server's store is the result of executing each distinct request applied so far
    exactly once, at its first place in the log: repeated requests have no effect. *)
Theorem exactly_once {R} `{!RaftAPI R} `{!GobCodec (gmap string string)}
    `{!GobCodec (gmap Z Z)} log (sys : Sys (R:=R)) :
  log_ok log → kvreach log sys → inClientOrder (ce_op <$> log) →
  let applied := ce_op <$> upTo log (lastAppliedIndex (srv sys)) in
  kvStore (srv sys) = plain (executed [] applied) ∅
  ∧ NoDup (requestId <$> executed [] applied)
  ∧ ∀ o, o ∈ applied → ∃ o', o' ∈ executed [] applied ∧ requestId o' = requestId o.
Proof.
  intros Hlog Hr Hord applied. destruct (executed_spec applied []) as (_ & Hnd & Hall).
  split_and!; [|done|].
  - pose proof (ki_state _ _ (kvreach_inv _ Hlog _ Hr)) as Hst.
    unfold state_at in Hst. fold applied in Hst. apply (f_equal fst) in Hst. simpl in Hst.
    rewrite Hst. apply run_ops_executed; [by apply inClientOrder_upTo| |done].
    split; [done|by intros ? ? ?%elem_of_nil].
  - intros o Ho. apply Hall; [done|apply not_elem_of_nil].
Qed.
End exactly_once.

(** ** Repeated requests out of order

    [seqMap[op.ClientId] = op.SeqId] also runs for an older request.  A late copy
    of request 1 after request 2 takes the table back to 1, and a late copy of
    request 2 then runs again. *)
Section late.
Import CountableCodec.

Definition append (seq : Z) (v : string) : Op := mkOp "k" v OP_TYPE_APPEND 0 0 7 seq.

(** the committed command at index [i]: the request at position [p] of the store *)
Definition lateMsg (i : Z) (p : nat) : ApplyMsg nat := mkApplyMsg true (Some p) i i [] 0 0 0.

Definition lateServer : KVServer unit :=
  set_ops [append 1 "a"; append 2 "b"] (newKVServer 0 tt (-1)).

(** When late copies of requests 1 and 2 come in the order 1, 2, 1, 2 along the
    log, the apply loop executes request 2 twice: the key holds ["abb"] although
    the two requests append ["a"] and ["b"]. *)
Theorem late_copies_run_twice :
  ∃ kv, applyMsgLoop [lateMsg 1 0; lateMsg 2 1; lateMsg 3 0; lateMsg 4 1] lateServer = Ret kv
    ∧ kvStore kv !! "k"%string = Some "abb"%string
    ∧ plain (executed [] [append 1 "a"; append 2 "b"; append 1 "a"; append 2 "b"]) ∅
        !! "k"%string = Some "ab"%string.
Proof. eexists. split; [vm_compute; reflexivity|]. by vm_compute. Qed.
End late.
