(* ===== verification/KVWitness.v ===== *)
(** * Package kvraft: a concrete execution

    A server on the leader of a cluster of three runs a [Put] and a [Get] of one
    client from the RPC to the answer, with the Raft peer of [Raft.v] behind it. *)

From S2P Require Import Prelude Gob Raft RaftStep KVServer KVSpec KVExactlyOnce.
From Stdlib Require Import Sorting.Sorted.
Import CountableCodec.

Definition fromRet {A} (d : A) (m : go A) : A := match m with Ret a => a | _ => d end.

(** peer 0 after it won the election of term 1 *)
Definition leader0 : Raft nat :=
  let rf := Make 3 0 MakePersister in
  fromRet rf (run [OpElectionBegin; OpElectionDecide Win] rf).

Definition putArgs : PutAppendArgs := mkPutAppendArgs "x" "1" OP_TYPE_PUT 7 1.
Definition getArgs : GetArgs := mkGetArgs "x" 7 2.

(** the committed log: the leader's no-op has index 1 *)
Definition theLog : list centry :=
  [mkCentry 2 1 1 (request (PutAppendOp putArgs)); mkCentry 3 2 1 (request (GetOp getArgs))].

Definition commandAt (logIndex cmdIndex : Z) (p : nat) : ApplyMsg nat :=
  mkApplyMsg true (Some p) cmdIndex logIndex [] 0 0 0.

(** the server after the Put and the Get were submitted and registered *)
Definition kv0 : KVServer (Raft nat) := newKVServer 0 leader0 1.
Definition kv1 : KVServer (Raft nat) :=
  (fromRet (kv0, 0%nat, (0, 0, false)) (submit (PutAppendOp putArgs) kv0)).1.1.
Definition kv2 : KVServer (Raft nat) := (fromRet (kv1, None) (register 0 (1, 1, true) kv1)).1.
Definition kv3 : KVServer (Raft nat) :=
  (fromRet (kv2, 0%nat, (0, 0, false)) (submit (GetOp getArgs) kv2)).1.1.
Definition kv4 : KVServer (Raft nat) := (fromRet (kv3, None) (register 1 (2, 1, true) kv3)).1.

(** the two commands are applied *)
Definition kv5 : KVServer (Raft nat) := fromRet kv4 (applyMsg (commandAt 2 1 0) kv4).
Definition kv6 : KVServer (Raft nat) := fromRet kv5 (applyMsg (commandAt 3 2 1) kv5).

#[local] Opaque kv0 kv1 kv2 kv3 kv4 kv5 kv6.

Lemma theLog_cases e : e ∈ theLog → e = mkCentry 2 1 1 (request (PutAppendOp putArgs))
                                    ∨ e = mkCentry 3 2 1 (request (GetOp getArgs)).
Proof. unfold theLog. set_solver. Qed.

Ltac log_cases H := apply theLog_cases in H as [?|?]; subst.

Lemma theLog_ok : log_ok theLog.
Proof.
  split.
  - repeat constructor.
  - intros e f He Hf. log_cases He; log_cases Hf; done.
  - intros e He. log_cases He; done.
Qed.

Lemma own_put : ownEntry theLog 1 1 (PutAppendOp putArgs).
Proof. split; [done|]. intros e He. log_cases He; done. Qed.

Lemma own_get : ownEntry theLog 2 1 (GetOp getArgs).
Proof. split; [done|]. intros e He. log_cases He; done. Qed.

Lemma reach4 : kvreach theLog (mkSys kv4 []).
Proof.
  eapply kr_step; [|apply (ks_register theLog kv3 [] [] 1 (2, 1, true) kv4 (Some 1%nat));
                     vm_compute; reflexivity].
  eapply kr_step; [|apply (ks_submit theLog kv2 [] (GetOp getArgs) kv3 1 2 1 true);
                     [vm_compute; reflexivity|intros _; apply own_get]].
  eapply kr_step; [|apply (ks_register theLog kv1 [] [] 0 (1, 1, true) kv2 (Some 0%nat));
                     vm_compute; reflexivity].
  eapply kr_step; [|apply (ks_submit theLog kv0 [] (PutAppendOp putArgs) kv1 0 1 1 true);
                     [vm_compute; reflexivity|intros _; apply own_put]].
  exact (kr_init theLog 0 leader0 1).
Qed.

Lemma deliver_put : deliverable theLog kv4 (commandAt 2 1 0).
Proof.
  exists (mkCentry 2 1 1 (request (PutAppendOp putArgs))), 0%nat.
  exists (mkOp "x" "1" OP_TYPE_PUT 1 1 7 1). split_and!; try done.
  - left.
  - by right.
  - intros f Hf. log_cases Hf; done.
Qed.

Lemma deliver_get : deliverable theLog kv5 (commandAt 3 2 1).
Proof.
  exists (mkCentry 3 2 1 (request (GetOp getArgs))), 1%nat.
  exists (mkOp "x" "" OP_TYPE_GET 2 1 7 2). split_and!; try done.
  - right. left.
  - by right.
  - intros f Hf. log_cases Hf; by vm_compute.
Qed.

Lemma reach6 : kvreach theLog (mkSys kv6 []).
Proof.
  eapply kr_step; [|apply (ks_apply theLog kv5 [] (commandAt 3 2 1) kv6);
    [by vm_compute|exact deliver_get|vm_compute; reflexivity]].
  eapply kr_step; [|apply (ks_apply theLog kv4 [] (commandAt 2 1 0) kv5);
    [by vm_compute|exact deliver_put|vm_compute; reflexivity]].
  exact reach4.
Qed.

(** the store is the one of the whole log *)
Lemma replica_state_witness : (kvStore kv6, seqMap kv6) = state_at theLog (lastAppliedIndex kv6).
Proof.
  pose proof (replica_state theLog theLog_ok (mkSys kv6 []) reach6) as H.
  cbn [srv] in H. exact H.
Defined.

Lemma kv6_values :
  kvStore kv6 !! "x"%string = Some "1"%string ∧ seqMap kv6 !! 7 = Some 2
  ∧ lastAppliedIndex kv6 = 3.
Proof. by vm_compute. Qed.

Definition theSnapshot : bytes := encodeSnapshot (kvStore kv6) (seqMap kv6).
Definition snapshotAt3 : ApplyMsg nat := mkApplyMsg false None 0 0 theSnapshot 3 1 2.

(** a server that has applied nothing installs the snapshot of [kv6] *)
Lemma snapshot_transfer_witness : kvStore (installSnapshot snapshotAt3 kv0) = kvStore kv6.
Proof.
  refine (proj1 (snapshot_transfer theLog theLog_ok (mkSys kv6 []) (mkSys kv0 [])
    theSnapshot 3 snapshotAt3 reach6 (kr_init theLog 0 leader0 1) _ eq_refl eq_refl eq_refl _));
    vm_compute; reflexivity.
Defined.

Lemma kv_no_panic_witness : ∃ kv', applyMsg (commandAt 2 1 0) kv4 = Ret kv'.
Proof.
  exact (proj1 (kv_no_panic theLog theLog_ok (mkSys kv4 []) reach4) (commandAt 2 1 0) deliver_put).
Defined.

Lemma waiting_handler_woken_witness :
  ∃ kv' ctx, applyMsg (commandAt 2 1 0) kv4 = Ret kv' ∧ ctxs kv' !! 0%nat = Some ctx
    ∧ commitedChan ctx = true.
Proof.
  apply (waiting_handler_woken theLog theLog_ok (mkSys kv4 []) (commandAt 2 1 0) 0 reach4
    deliver_put); vm_compute; reflexivity.
Defined.

(** the Get answers the value of the Put *)
Lemma Get_linearized_witness :
  ∃ kv' e, Get_finish 1 WaitCommitted kv6 = Ret (kv', mkGetReply OK "1")
    ∧ e ∈ theLog ∧ ce_op e = request (GetOp getArgs).
Proof.
  destruct (Get_linearized theLog theLog_ok (mkSys kv6 []) 1
    (mkOpContext 1 true false false true "1") (mkOp "x" "" OP_TYPE_GET 2 1 7 2) WaitCommitted
    (fromRet (kv6, mkGetReply OK "") (Get_finish 1 WaitCommitted kv6)).1 (mkGetReply OK "1")
    reach6) as (e & He & Hop & _).
  - by vm_compute.
  - by vm_compute.
  - done.
  - vm_compute. reflexivity.
  - done.
  - eexists _, e. split; [vm_compute; reflexivity|]. split; [exact He|exact Hop].
Defined.

(** the Put has set the key: it is the first entry of the log *)
Lemma PutAppend_committed_witness :
  ∃ kv' e, PutAppend_finish 0 WaitCommitted kv6 = Ret (kv', mkPutAppendReply OK)
    ∧ e ∈ upTo theLog (lastAppliedIndex kv') ∧ ce_op e = request (PutAppendOp putArgs)
    ∧ (state_at theLog (ce_index e)).1
      = <["x"%string := "1"%string]> (state_at theLog (ce_index e - 1)).1.
Proof.
  set (kv' := (fromRet (kv6, mkPutAppendReply OK) (PutAppend_finish 0 WaitCommitted kv6)).1).
  destruct (PutAppend_committed theLog theLog_ok (mkSys kv6 []) 0
    (mkOpContext 0 true false false false "") (mkOp "x" "1" OP_TYPE_PUT 1 1 7 1) WaitCommitted
    kv' reach6) as (e & He & Hop & Heff & _).
  - by vm_compute.
  - by vm_compute.
  - vm_compute. reflexivity.
  - exists kv', e. split; [vm_compute; reflexivity|]. split; [exact He|]. split; [exact Hop|].
    cbv zeta in Heff. destruct Heff as [Heff _].
    apply list_elem_of_filter in He as [_ He]. log_cases He; [|discriminate Hop].
    refine (proj1 (Heff _) eq_refl). intros n Hn. by vm_compute in Hn.
Defined.

Lemma exactly_once_witness :
  kvStore kv6
  = plain (executed [] (ce_op <$> upTo theLog (lastAppliedIndex kv6))) ∅.
Proof.
  refine (proj1 (exactly_once theLog (mkSys kv6 []) theLog_ok reach6 _)).
  apply SSorted_cons; [repeat constructor|].
  apply Forall_cons. split; [by vm_compute|constructor].
Defined.
