(* ===== verification/KVClient.v ===== *)
(** * Package kvraft: the clerk

    [src/kvraft/client.go].  The servers and the network are a function
    [cluster]: what the [k]-th RPC of the call gives when it goes to server [i].
    The retry loops run on fuel, one unit per RPC; [None] as the result means that
    the loop has not ended after that many RPCs.  The third component of a result
    lists the RPCs made: the server called and the arguments passed to [Call]. *)

From S2P Require Import Prelude Gob Raft KVServer KVSpec KVExactlyOnce.
From Stdlib Require Import Sorting.Sorted.

Record Clerk := mkClerk {
  ck_servers : Z; (* [len(ck.servers)] *)
  leaderIndex : Z;
  clientId : Z;
  seqId : Z;
}.

(** [bigx] is what [rand.Int(rand.Reader, 2^62)] gave *)
Definition nrand (bigx : Z) : Z := wrap64 bigx.

Definition MakeClerk (servers bigx timeStamp : Z) : Clerk :=
  mkClerk servers 0 (wrap64 (nrand bigx + timeStamp)) 0.

Definition currentLeader (ck : Clerk) : Z := leaderIndex ck.

(** [%] by zero panics *)
Definition changeLeader (ck : Clerk) : go Clerk :=
  if ck_servers ck =? 0 then Panic
  else Ret (mkClerk (ck_servers ck) (Z.rem (leaderIndex ck + 1) (ck_servers ck))
              (clientId ck) (seqId ck)).

(** [atomic.AddInt64(&ck.seqId, 1)] *)
Definition nextSeq (ck : Clerk) : Clerk * Z :=
  let s := wrap64 (seqId ck + 1) in
  (mkClerk (ck_servers ck) (leaderIndex ck) (clientId ck) s, s).

(** the RPC to server [i], with a record of it: [ck.servers[server]] panics out of
    range *)
Definition callServer {A B} (ck : Clerk) (cluster : nat → Z → A → RpcResult B) (k : nat)
    (i : Z) (args : A) : go (RpcResult B * (Z * A)) :=
  if (0 <=? i) && (i <? ck_servers ck) then Ret (cluster k i args, (i, args)) else Panic.

Lemma StronglySorted_impl {A} (P Q : A → A → Prop) l :
  (∀ x y, P x y → Q x y) → StronglySorted P l → StronglySorted Q l.
Proof.
  intros HPQ. induction 1 as [|x l _ IH Hall]; constructor; [done|].
  eapply Forall_impl; [exact Hall|auto].
Qed.

Section loops.
Context (getRPC : nat → Z → GetArgs → RpcResult GetReply).
Context (putRPC : nat → Z → PutAppendArgs → RpcResult PutAppendReply).
Implicit Types ck : Clerk.

Fixpoint Get_loop (fuel k : nat) (args : GetArgs) ck : go (Clerk * option string * list (Z * GetArgs)) :=
  match fuel with
  | O => Ret (ck, None, [])
  | S fuel =>
      let i := currentLeader ck in
      '(r, c) ← callServer ck getRPC k i args;
      let again ck :=
        '(ck, v, called) ← Get_loop fuel (S k) args ck; Ret (ck, v, c :: called) in
      match r with
      | TimedOut => again ck
      | Lost => again ck
      | Replied reply =>
          match gr_Err reply with
          | OK => Ret (ck, Some (gr_Value reply), [c])
          | ErrNoKey => Ret (ck, Some ""%string, [c])
          | ErrWrongLeader => ck ← changeLeader ck; again ck
          | ErrNone => again ck
          end
      end
  end.

Definition clerk_Get (fuel : nat) (key : string) ck
    : go (Clerk * option string * list (Z * GetArgs)) :=
  let '(ck, s) := nextSeq ck in
  Get_loop fuel 0 (mkGetArgs key (clientId ck) s) ck.

Fixpoint PutAppend_loop (fuel k : nat) (args : PutAppendArgs) ck
    : go (Clerk * option unit * list (Z * PutAppendArgs)) :=
  match fuel with
  | O => Ret (ck, None, [])
  | S fuel =>
      let i := currentLeader ck in
      '(r, c) ← callServer ck putRPC k i args;
      let again ck :=
        '(ck, v, called) ← PutAppend_loop fuel (S k) args ck; Ret (ck, v, c :: called) in
      match r with
      | TimedOut => again ck
      | Lost => ck ← changeLeader ck; again ck
      | Replied reply =>
          match pr_Err reply with
          | OK => Ret (ck, Some tt, [c])
          | ErrWrongLeader => ck ← changeLeader ck; again ck
          | ErrNoKey | ErrNone => again ck
          end
      end
  end.

Definition clerk_PutAppend (fuel : nat) (key val op : string) ck
    : go (Clerk * option unit * list (Z * PutAppendArgs)) :=
  let '(ck, s) := nextSeq ck in
  PutAppend_loop fuel 0 (mkPutAppendArgs key val op (clientId ck) s) ck.

Definition Put (fuel : nat) (key val : string) ck
    : go (Clerk * option unit * list (Z * PutAppendArgs)) :=
  clerk_PutAppend fuel key val "Put" ck.

Definition Append (fuel : nat) (key val : string) ck
    : go (Clerk * option unit * list (Z * PutAppendArgs)) :=
  clerk_PutAppend fuel key val "Append" ck.

(** the clerk's leader index is one of its servers *)
Definition clerk_wf ck : Prop := 0 ≤ leaderIndex ck < ck_servers ck.

Lemma changeLeader_wf ck : clerk_wf ck →
  ∃ ck', changeLeader ck = Ret ck' ∧ clerk_wf ck' ∧ ck_servers ck' = ck_servers ck
    ∧ clientId ck' = clientId ck ∧ seqId ck' = seqId ck
    ∧ leaderIndex ck' = (leaderIndex ck + 1) mod ck_servers ck.
Proof.
  unfold clerk_wf, changeLeader. intros H. rewrite (proj2 (Z.eqb_neq _ _)) by lia.
  eexists. split; [done|]. simpl. rewrite Z.rem_mod_nonneg by lia.
  split_and!; try done; apply Z.mod_pos_bound; lia.
Qed.

Lemma callServer_wf {A B} ck (cluster : nat → Z → A → RpcResult B) k args :
  clerk_wf ck → callServer ck cluster k (currentLeader ck) args
                = Ret (cluster k (leaderIndex ck) args, (leaderIndex ck, args)).
Proof.
  unfold clerk_wf, callServer, currentLeader. intros H.
  by rewrite (proj2 (Z.leb_le _ _)), (proj2 (Z.ltb_lt _ _)) by lia.
Qed.

(** the distance, around the ring of servers, from the clerk's leader to [j] *)
Definition hops ck (j : Z) : Z := (j - leaderIndex ck) mod ck_servers ck.

Lemma hops_step ck ck' j :
  clerk_wf ck → 0 ≤ j < ck_servers ck → leaderIndex ck ≠ j →
  ck_servers ck' = ck_servers ck →
  leaderIndex ck' = (leaderIndex ck + 1) mod ck_servers ck → hops ck' j = hops ck j - 1.
Proof.
  unfold clerk_wf, hops. intros Hwf Hj Hne -> ->. rewrite Zminus_mod_idemp_r.
  set (n := ck_servers ck) in *. set (i := leaderIndex ck) in *.
  destruct (decide (i < j)).
  - rewrite !Z.mod_small by lia. lia.
  - rewrite <-(Z_mod_plus_full (j - (i + 1)) 1 n), <-(Z_mod_plus_full (j - i) 1 n).
    rewrite !Z.mod_small by lia. lia.
Qed.

Lemma hops_bound ck j : clerk_wf ck → 0 ≤ hops ck j < ck_servers ck.
Proof. unfold clerk_wf, hops. intros. apply Z.mod_pos_bound. lia. Qed.

Lemma hops_0 ck j : clerk_wf ck → 0 ≤ j < ck_servers ck → hops ck j = 0 → leaderIndex ck = j.
Proof.
  unfold clerk_wf, hops. intros Hwf Hj H. set (n := ck_servers ck) in *.
  destruct (decide (leaderIndex ck ≤ j)).
  - rewrite Z.mod_small in H by lia. lia.
  - rewrite <-(Z_mod_plus_full _ 1 n), Z.mod_small in H by lia. lia.
Qed.

(** *** Finding the leader *)

Lemma PutAppend_loop_reaches args j : ∀ fuel k ck,
  clerk_wf ck → 0 ≤ j < ck_servers ck → hops ck j < Z.of_nat fuel →
  (∀ k, putRPC k j args = Replied (mkPutAppendReply OK)) →
  (∀ k i, i ≠ j → putRPC k i args = Lost
                  ∨ putRPC k i args = Replied (mkPutAppendReply ErrWrongLeader)) →
  ∃ ck' called, PutAppend_loop fuel k args ck = Ret (ck', Some tt, called)
    ∧ leaderIndex ck' = j ∧ len called = hops ck j + 1.
Proof.
  induction fuel as [|fuel IH]; intros k ck Hwf Hj Hh Hok Hother.
  { pose proof (hops_bound ck j Hwf). lia. }
  simpl. rewrite callServer_wf by done. simpl.
  destruct (decide (leaderIndex ck = j)) as [Heq|Hne].
  { rewrite Heq, Hok. simpl. exists ck. eexists. split_and!; try done.
    unfold hops. by rewrite Heq, Z.sub_diag, Z.mod_0_l by (unfold clerk_wf in *; lia). }
  destruct (changeLeader_wf ck Hwf) as (ck' & E & Hwf' & Hs & _ & _ & Hl).
  pose proof (hops_step ck ck' j Hwf Hj Hne Hs Hl) as Hstep.
  destruct (IH (S k) ck') as (ck2 & called & E2 & Hl2 & Hc); [done|by rewrite Hs|lia|done..|].
  exists ck2, ((leaderIndex ck, args) :: called).
  destruct (Hother k (leaderIndex ck) Hne) as [->| ->]; simpl; rewrite E; simpl; rewrite E2;
    (split; [done|]); (split; [done|]); unfold len in *; simpl; lia.
Qed.

Lemma Get_loop_reaches args j reply v : ∀ fuel k ck,
  clerk_wf ck → 0 ≤ j < ck_servers ck → hops ck j < Z.of_nat fuel →
  (∀ k, getRPC k j args = Replied reply) →
  (reply = mkGetReply OK v ∨ (reply = mkGetReply ErrNoKey "" ∧ v = ""%string)) →
  (∀ k i, i ≠ j → getRPC k i args = Replied (mkGetReply ErrWrongLeader "")) →
  ∃ ck' called, Get_loop fuel k args ck = Ret (ck', Some v, called)
    ∧ leaderIndex ck' = j ∧ len called = hops ck j + 1.
Proof.
  induction fuel as [|fuel IH]; intros k ck Hwf Hj Hh Hok Hv Hother.
  { pose proof (hops_bound ck j Hwf). lia. }
  simpl. rewrite callServer_wf by done. simpl.
  destruct (decide (leaderIndex ck = j)) as [Heq|Hne].
  { rewrite Heq, Hok. exists ck, [(j, args)].
    assert (hops ck j = 0) as -> by (unfold hops; rewrite Heq, Z.sub_diag;
      apply Z.mod_0_l; unfold clerk_wf in *; lia).
    by destruct Hv as [->|[-> ->]]. }
  destruct (changeLeader_wf ck Hwf) as (ck' & E & Hwf' & Hs & _ & _ & Hl).
  pose proof (hops_step ck ck' j Hwf Hj Hne Hs Hl) as Hstep.
  destruct (IH (S k) ck') as (ck2 & called & E2 & Hl2 & Hc); [done|by rewrite Hs|lia|done..|].
  exists ck2, ((leaderIndex ck, args) :: called).
  rewrite Hother by done. simpl. rewrite E. simpl. rewrite E2.
  split; [done|]. split; [done|]. unfold len in *. simpl. lia.
Qed.

(** C16: When one server answers [OK] and the others either are not reached or say
    they are not the leader, [Put] and [Append] return after at most [len(servers)]
    RPCs, and the clerk remembers the leader. *)
Theorem PutAppend_finds_leader key val op ck j :
  clerk_wf ck → 0 ≤ j < ck_servers ck →
  (∀ k args, putRPC k j args = Replied (mkPutAppendReply OK)) →
  (∀ k i args, i ≠ j → putRPC k i args = Lost
                       ∨ putRPC k i args = Replied (mkPutAppendReply ErrWrongLeader)) →
  ∃ ck' called,
    clerk_PutAppend (Z.to_nat (ck_servers ck)) key val op ck = Ret (ck', Some tt, called)
    ∧ leaderIndex ck' = j ∧ len called ≤ ck_servers ck.
Proof.
  intros Hwf Hj Hok Hother. unfold clerk_PutAppend, nextSeq. simpl.
  set (ck1 := mkClerk _ _ _ _). pose proof (hops_bound ck1 j Hwf) as Hb. simpl in Hb.
  destruct (PutAppend_loop_reaches (mkPutAppendArgs key val op (clientId ck)
    (wrap64 (seqId ck + 1))) j (Z.to_nat (ck_servers ck)) 0 ck1)
    as (ck' & called & E & Hl & Hc); auto; [lia|].
  exists ck', called. split_and!; [done|done|lia].
Qed.

(** When the leader answers a [Get] and every other server says it is not the
    leader, [Get] returns the leader's value (the empty string for a missing key)
    after at most [len(servers)] RPCs. *)
Theorem Get_finds_leader key ck j reply v :
  clerk_wf ck → 0 ≤ j < ck_servers ck →
  (∀ k args, getRPC k j args = Replied reply) →
  (reply = mkGetReply OK v ∨ (reply = mkGetReply ErrNoKey "" ∧ v = ""%string)) →
  (∀ k i args, i ≠ j → getRPC k i args = Replied (mkGetReply ErrWrongLeader "")) →
  ∃ ck' called, clerk_Get (Z.to_nat (ck_servers ck)) key ck = Ret (ck', Some v, called)
    ∧ leaderIndex ck' = j ∧ len called ≤ ck_servers ck.
Proof.
  intros Hwf Hj Hok Hv Hother. unfold clerk_Get, nextSeq. simpl.
  set (ck1 := mkClerk _ _ _ _). pose proof (hops_bound ck1 j Hwf) as Hb. simpl in Hb.
  destruct (Get_loop_reaches (mkGetArgs key (clientId ck) (wrap64 (seqId ck + 1))) j reply v
    (Z.to_nat (ck_servers ck)) 0 ck1) as (ck' & called & E & Hl & Hc); auto; [lia|].
  exists ck', called. split_and!; [done|done|lia].
Qed.

(** A server that is not reached keeps the clerk: when the RPCs to the server it
    took for the leader get no answer, [Get] calls that server for ever. *)
Theorem Get_stuck_on_lost_server args : ∀ fuel k ck,
  clerk_wf ck → (∀ k, getRPC k (leaderIndex ck) args = Lost) →
  Get_loop fuel k args ck = Ret (ck, None, replicate fuel (leaderIndex ck, args)).
Proof.
  induction fuel as [|fuel IH]; intros k ck Hwf Hl; [done|].
  simpl. rewrite callServer_wf by done. simpl. rewrite Hl. by rewrite IH.
Qed.

(** *** A client's session *)

Inductive ClientCall :=
| CallGet (key : string)
| CallPut (key val : string)
| CallAppend (key val : string).

(** one call: whether it returned, and the operations that the servers make of the
    arguments of its RPCs *)
Definition call (fuel : nat) (c : ClientCall) ck : go (Clerk * bool * list Op) :=
  match c with
  | CallGet key =>
      '(ck, r, called) ← clerk_Get fuel key ck;
      Ret (ck, bool_decide (is_Some r), GetOp <$> called.*2)
  | CallPut key val =>
      '(ck, r, called) ← Put fuel key val ck;
      Ret (ck, bool_decide (is_Some r), PutAppendOp <$> called.*2)
  | CallAppend key val =>
      '(ck, r, called) ← Append fuel key val ck;
      Ret (ck, bool_decide (is_Some r), PutAppendOp <$> called.*2)
  end.

(** The calls of a client, one after the other, and the requests of all their
    RPCs; the client waits for a call to return before it makes the next. *)
Fixpoint session (fuel : nat) (calls : list ClientCall) ck : go (Clerk * list Op) :=
  match calls with
  | [] => Ret (ck, [])
  | c :: calls =>
      '(ck, done, sent) ← call fuel c ck;
      if (done : bool) then '(ck, rest) ← session fuel calls ck; Ret (ck, sent ++ rest)
      else Ret (ck, sent)
  end.

(** a retry loop keeps the clerk's identity and number, and passes [args] every time *)
Definition loop_ok {A B} (args : A) ck (m : go (Clerk * B * list (Z * A))) : Prop :=
  ∃ ck' r called, m = Ret (ck', r, called)
    ∧ clerk_wf ck' ∧ clientId ck' = clientId ck ∧ seqId ck' = seqId ck
    ∧ Forall (λ c, c.2 = args) called.

Lemma loop_ok_again {A B} (args : A) ck ck1 i (m : go (Clerk * B * list (Z * A))) :
  loop_ok args ck1 m → clientId ck1 = clientId ck → seqId ck1 = seqId ck →
  loop_ok args ck ('(ck, v, called) ← m; Ret (ck, v, (i, args) :: called)).
Proof.
  intros (ck' & r & called & -> & ? & ? & ? & Hc) ? ?. simpl.
  eexists _, _, _. split_and!; [done..|congruence|congruence|]. by constructor.
Qed.

Lemma Get_loop_frame args : ∀ fuel k ck,
  clerk_wf ck → loop_ok args ck (Get_loop fuel k args ck).
Proof.
  induction fuel as [|fuel IH]; intros k ck Hwf.
  { by eexists _, _, _. }
  simpl. rewrite callServer_wf by done. simpl.
  destruct (changeLeader_wf ck Hwf) as (ck1 & E & Hwf1 & _ & Hc1 & Hs1 & _).
  destruct (getRPC k (leaderIndex ck) args) as [| |reply];
    [by eapply loop_ok_again; [apply IH|..]..|].
  destruct (gr_Err reply); rewrite ?E; simpl; try (by eapply loop_ok_again; [apply IH|..]).
  all: eexists _, _, _; split_and!; try done; by repeat constructor.
Qed.

Lemma PutAppend_loop_frame args : ∀ fuel k ck,
  clerk_wf ck → loop_ok args ck (PutAppend_loop fuel k args ck).
Proof.
  induction fuel as [|fuel IH]; intros k ck Hwf.
  { by eexists _, _, _. }
  simpl. rewrite callServer_wf by done. simpl.
  destruct (changeLeader_wf ck Hwf) as (ck1 & E & Hwf1 & _ & Hc1 & Hs1 & _).
  destruct (putRPC k (leaderIndex ck) args) as [| |reply]; [| |destruct (pr_Err reply)];
    rewrite ?E; simpl; try (by eapply loop_ok_again; [apply IH|..]).
  eexists _, _, _. split_and!; try done. by repeat constructor.
Qed.

Lemma nextSeq_wf ck : clerk_wf ck → clerk_wf (nextSeq ck).1.
Proof. done. Qed.

(** all requests of a call are the same one, with the clerk's next number *)
Lemma call_frame fuel c ck :
  clerk_wf ck → ∃ ck' b sent o, call fuel c ck = Ret (ck', b, sent)
    ∧ clerk_wf ck' ∧ clientId ck' = clientId ck ∧ seqId ck' = wrap64 (seqId ck + 1)
    ∧ Forall (λ o', o' = o) sent
    ∧ op_ClientId o = clientId ck ∧ op_SeqId o = wrap64 (seqId ck + 1).
Proof.
  intros Hwf%nextSeq_wf.
  destruct c as [key|key val|key val]; simpl; unfold Put, Append, clerk_Get, clerk_PutAppend, nextSeq.
  1: set (args := mkGetArgs key _ _);
     destruct (Get_loop_frame args fuel 0 _ Hwf) as (ck' & r & called & E & ? & ? & ? & Hc);
     exists ck', (bool_decide (is_Some r)), (GetOp <$> called.*2), (GetOp args).
  2,3: set (args := mkPutAppendArgs key _ _ _ _);
     destruct (PutAppend_loop_frame args fuel 0 _ Hwf) as (ck' & r & called & E & ? & ? & ? & Hc);
     exists ck', (bool_decide (is_Some r)), (PutAppendOp <$> called.*2), (PutAppendOp args).
  all: simpl in E |- *; rewrite E; split_and!; try done.
  all: rewrite !Forall_fmap; eapply Forall_impl; [exact Hc|]; intros [? ?]; simpl; by intros ->.
Qed.

Lemma Forall_same_sorted {A} (R : A → A → Prop) o l :
  R o o → Forall (λ o', o' = o) l → StronglySorted R l.
Proof.
  intros HR. induction 1 as [|x l -> Hl IH]; [constructor|]. constructor; [done|].
  eapply Forall_impl; [exact Hl|]. by intros ? ->.
Qed.

Lemma StronglySorted_app_2 {A} (R : A → A → Prop) l1 l2 :
  StronglySorted R l1 → StronglySorted R l2 → (∀ x y, x ∈ l1 → y ∈ l2 → R x y) →
  StronglySorted R (l1 ++ l2).
Proof.
  intros H1 H2. induction H1 as [|x l1 _ IH Hall]; intros H; [done|]. simpl. constructor.
  - apply IH. intros y z Hy. apply H. by right.
  - rewrite Forall_app. split; [done|]. apply Forall_forall. intros y Hy. apply H; [by left|done].
Qed.

Lemma session_ids fuel calls : ∀ ck,
  clerk_wf ck → - 2 ^ 63 ≤ seqId ck → seqId ck + Z.of_nat (length calls) < 2 ^ 63 →
  ∃ ck' sent, session fuel calls ck = Ret (ck', sent)
    ∧ Forall (λ o, op_ClientId o = clientId ck
        ∧ seqId ck < op_SeqId o ≤ seqId ck + Z.of_nat (length calls)) sent
    ∧ StronglySorted (λ o o', op_SeqId o < op_SeqId o' ∨ o = o') sent.
Proof.
  induction calls as [|c calls IH]; intros ck Hwf Hlo Hhi.
  { exists ck, []. split_and!; [done|constructor..]. }
  simpl in Hhi. destruct (call_frame fuel c ck Hwf)
    as (ck1 & b & sent & o & E & Hwf1 & Hc & Hs & Hsent & Hoc & Hos).
  rewrite wrap64_id in Hs, Hos by lia.
  pose proof (Forall_same_sorted (λ o o', op_SeqId o < op_SeqId o' ∨ o = o') o sent
    (or_intror eq_refl) Hsent) as Hsort1.
  simpl. rewrite E. simpl. destruct b.
  2: { eexists _, _. split; [done|]. split; [|done].
       eapply Forall_impl; [exact Hsent|]. intros ? ->. simpl. lia. }
  destruct (IH ck1 Hwf1 ltac:(lia) ltac:(lia)) as (ck' & rest & -> & Hids & Hsort). simpl.
  eexists _, _. split; [done|]. split.
  - apply Forall_app. split; (eapply Forall_impl; [eassumption|]).
    + intros ? ->. simpl. lia.
    + intros o' [? ?]. rewrite Hc, Hs in *. simpl in *. split; [done|lia].
  - apply StronglySorted_app_2; [done..|]. rewrite Forall_forall in Hids, Hsent.
    intros x y ->%Hsent Hy%Hids. lia.
Qed.

(** C18: Whatever the servers answer and however often a call is retried, a client's
    session never panics.  The requests are those of the arguments that the clerk
    passes to [Call]: all carry its client id and a number between the clerk's last
    one and the last one plus the number of calls, a later call has a larger number
    than every RPC of an earlier one, and all RPCs of a call carry the same request,
    so along the requests sent the numbers never go back. *)
Theorem session_numbers fuel calls ck :
  clerk_wf ck → - 2 ^ 63 ≤ seqId ck → seqId ck + Z.of_nat (length calls) < 2 ^ 63 →
  ∃ ck' sent, session fuel calls ck = Ret (ck', sent)
    ∧ Forall (λ o, op_ClientId o = clientId ck
        ∧ seqId ck < op_SeqId o ≤ seqId ck + Z.of_nat (length calls)) sent
    ∧ StronglySorted (λ o o', op_SeqId o < op_SeqId o' ∨ o = o') sent
    ∧ inClientOrder sent.
Proof.
  intros Hwf Hlo Hhi. destruct (session_ids fuel calls ck Hwf Hlo Hhi)
    as (ck' & sent & E & Hids & Hs).
  exists ck', sent. split_and!; [done..|].
  eapply StronglySorted_impl; [|exact Hs]. intros o o' [?| ->] _; lia.
Qed.
End loops.

(** A clerk's id is the sum of its random number and its time stamp: for a
    random number below 2^62 and a time stamp of this age of the world the addition
    does not wrap around, so the id is not negative. *)
Lemma MakeClerk_id servers bigx timeStamp :
  0 ≤ bigx < 2 ^ 62 → 0 ≤ timeStamp < 2 ^ 62 →
  clientId (MakeClerk servers bigx timeStamp) = bigx + timeStamp.
Proof. intros. simpl. unfold nrand. by rewrite (wrap64_id bigx), wrap64_id by lia. Qed.

(** ** A concrete session: three servers, the third one leads *)
Module ClerkWitness.

Definition putRPC (k : nat) (i : Z) (args : PutAppendArgs) : RpcResult PutAppendReply :=
  if i =? 2 then Replied (mkPutAppendReply OK)
  else if i =? 1 then Lost else Replied (mkPutAppendReply ErrWrongLeader).

Definition getRPC (k : nat) (i : Z) (args : GetArgs) : RpcResult GetReply :=
  if i =? 2 then Replied (mkGetReply OK "v") else Replied (mkGetReply ErrWrongLeader "").

Definition clerk0 : Clerk := MakeClerk 3 1000 1700000000000.

Lemma clerk0_wf : clerk_wf clerk0.
Proof. by vm_compute. Qed.

Lemma PutAppend_finds_leader_witness :
  ∃ ck' called, clerk_PutAppend putRPC 3 "x" "v" "Put" clerk0 = Ret (ck', Some tt, called)
    ∧ leaderIndex ck' = 2.
Proof.
  destruct (PutAppend_finds_leader putRPC "x" "v" "Put" clerk0 2 clerk0_wf)
    as (ck' & called & E & Hl & _).
  - by vm_compute.
  - done.
  - intros k i args Hi. unfold putRPC. rewrite (proj2 (Z.eqb_neq _ _)) by done.
    destruct (i =? 1); auto.
  - exists ck', called. split; [exact E|exact Hl].
Defined.

Lemma Get_finds_leader_witness :
  ∃ ck' called, clerk_Get getRPC 3 "x" clerk0 = Ret (ck', Some "v"%string, called)
    ∧ leaderIndex ck' = 2.
Proof.
  destruct (Get_finds_leader getRPC "x" clerk0 2 (mkGetReply OK "v") "v" clerk0_wf)
    as (ck' & called & E & Hl & _).
  - by vm_compute.
  - done.
  - by left.
  - intros k i args Hi. unfold getRPC. by rewrite (proj2 (Z.eqb_neq _ _)) by done.
  - exists ck', called. split; [exact E|exact Hl].
Defined.

(** no server answers *)
Lemma Get_stuck_on_lost_server_witness :
  clerk_Get (λ _ _ _, Lost) 100 "x" clerk0
  = Ret (mkClerk 3 0 1700000001000 1, None, replicate 100 (0, mkGetArgs "x" 1700000001000 1)).
Proof.
  exact (Get_stuck_on_lost_server (λ _ _ _, Lost) (mkGetArgs "x" 1700000001000 1) 100 0
    (mkClerk 3 0 1700000001000 1) (conj (Z.le_refl 0) eq_refl) (λ _, eq_refl)).
Defined.

(** the Put takes three RPCs and the Get one: sequence numbers 1, 1, 1, 2 *)
Lemma session_numbers_witness :
  ∃ ck' sent, session getRPC putRPC 3 [CallPut "x" "v"; CallGet "x"] clerk0 = Ret (ck', sent)
    ∧ inClientOrder sent ∧ op_SeqId <$> sent = [1; 1; 1; 2].
Proof.
  destruct (session_numbers getRPC putRPC 3 [CallPut "x" "v"; CallGet "x"] clerk0 clerk0_wf)
    as (ck' & sent & E & _ & _ & Ho); [by vm_compute|by vm_compute|].
  exists ck', sent. split; [exact E|]. split; [exact Ho|].
  vm_compute in E. by injection E as _ <-.
Defined.
End ClerkWitness.
