(* ===== verification/MRMaster.v ===== *)
(** * Package mr: the master

    Data and RPC handlers of [src/mr/master.go] and [src/mr/rpc.go].  A handler
    is split where it releases a lock: [GetTask_map]/[GetTask_reduce],
    [TaskFinished_map]/[TaskFinished_addReduce].  Go iterates over a map in an
    unspecified order, so the loops take the order as an argument (a list of the
    map's entries). *)

From Stdlib Require Import Ascii.
From stdpp Require Import pretty.
From S2P Require Import Prelude.

Definition NO_TASK : Z := 0.
Definition MAP_TASK : Z := 1.
Definition REDUCE_TASK : Z := 2.
Definition MAP_TASK_FAIL : Z := -1.
Definition REDUCE_TASK_FAIL : Z := -2.
Definition SLEEP_TASK : Z := 3.

(** ** Messages (rpc.go) *)

Record AssignTask := mkAssignTask { at_FileName : string; at_TaskId : Z }.

Record FinishTask := mkFinishTask {
  ft_FileName : string; ft_TaskId : Z; BucketNums : list Z }.

Record TaskResponse := mkTaskResponse {
  TaskType : Z; tr_Tasks : list AssignTask; TimeSleep : Z; tr_NReduce : Z }.

Record FinishedRequest := mkFinishedRequest { FinishedType : Z; fr_Tasks : list FinishTask }.

Record FinishedResponse := mkFinishedResponse { CanExit : bool }.

Record Master := mkMaster {
  isReduceDone : bool;
  isMapDone : bool;
  nReduce : Z;
  mapTask : gmap string Z; (* task number, negated once handed out *)
  reduceTask : gmap string Z; (* bucket of the file, negated once handed out *)
  reduceBucket : gmap Z bool; (* unfinished buckets: false once handed out *)
  timeOutSec : Z;
}.

Definition set_isReduceDone v m : Master :=
  mkMaster v (isMapDone m) (nReduce m) (mapTask m) (reduceTask m) (reduceBucket m) (timeOutSec m).
Definition set_isMapDone v m : Master :=
  mkMaster (isReduceDone m) v (nReduce m) (mapTask m) (reduceTask m) (reduceBucket m)
    (timeOutSec m).
Definition set_mapTask v m : Master :=
  mkMaster (isReduceDone m) (isMapDone m) (nReduce m) v (reduceTask m) (reduceBucket m)
    (timeOutSec m).
Definition set_reduceTask v m : Master :=
  mkMaster (isReduceDone m) (isMapDone m) (nReduce m) (mapTask m) v (reduceBucket m)
    (timeOutSec m).
Definition set_reduceBucket v m : Master :=
  mkMaster (isReduceDone m) (isMapDone m) (nReduce m) (mapTask m) (reduceTask m) v
    (timeOutSec m).

(** ** File names *)

(** [strconv.Itoa] *)
Definition Itoa (z : Z) : string := pretty z.

Definition digit (c : Ascii.ascii) : option Z :=
  let n := Z.of_nat (Ascii.nat_of_ascii c) - 48 in
  if (0 <=? n) && (n <=? 9) then Some n else None.

Fixpoint atoi_digits (acc : Z) (s : string) : option Z :=
  match s with
  | EmptyString => Some acc
  | String c s => d ← digit c; atoi_digits (acc * 10 + d) s
  end.

(** [strconv.Atoi] with the error dropped: 0 for a string that is not a number, the
    nearest int for one that does not fit *)
Definition Atoi (s : string) : Z :=
  let clamp z := Z.max (- 2 ^ 63) (Z.min z (2 ^ 63 - 1)) in
  match s with
  | EmptyString => 0
  | String "+"%char EmptyString | String "-"%char EmptyString => 0
  | String "+"%char s => clamp (default 0 (atoi_digits 0 s))
  | String "-"%char s => clamp (- default 0 (atoi_digits 0 s))
  | s => clamp (default 0 (atoi_digits 0 s))
  end.

(** what follows the last [c] *)
Fixpoint afterLast (c : Ascii.ascii) (s : string) : option string :=
  match s with
  | EmptyString => None
  | String d s =>
      match afterLast c s with
      | Some r => Some r
      | None => if decide (d = c) then Some s else None
      end
  end.

Definition StrToNumber (str : string) : Z := Atoi (default str (afterLast "-"%char str)).

Definition NumberToStr (X Y : Z) : string := "mr-" +:+ Itoa X +:+ "-" +:+ Itoa Y.

(** ** Handlers *)

(** [for filename, num := range m.mapTask { if num > 0 { ...; break } }] *)
Fixpoint firstReady (order : list (string * Z)) : option (string * Z) :=
  match order with
  | [] => None
  | (f, num) :: order => if 0 <? num then Some (f, num) else firstReady order
  end.

(** The part of [GetTask] under [mapTaskLock]; a [go m.recoverRequest(tasks)] runs
    for the tasks handed out. *)
Definition GetTask_map (order : list (string * Z)) m : Master * list AssignTask :=
  if isMapDone m then (m, [])
  else match firstReady order with
       | Some (f, num) =>
           (set_mapTask (<[f := - num]> (mapTask m)) m, [mkAssignTask f num])
       | None => (m, [])
       end.

(** [number]: the first bucket that is to be handed out, or -1 *)
Fixpoint firstBucket (order : list (Z * bool)) : Z :=
  match order with
  | [] => -1
  | (num, flag) :: order => if (flag : bool) then num else firstBucket order
  end.

Fixpoint filesOf (number : Z) (order : list (string * Z)) : list AssignTask :=
  match order with
  | [] => []
  | (f, num) :: order =>
      if num =? number then mkAssignTask f num :: filesOf number order
      else filesOf number order
  end.

Definition assignReduce (tasks : list AssignTask) (m : gmap string Z) : gmap string Z :=
  foldl (λ m t, <[at_FileName t := - at_TaskId t]> m) m tasks.

(** the part under [reduceTaskLock] *)
Definition GetTask_reduce (buckets : list (Z * bool)) (files : list (string * Z)) m
    : Master * list AssignTask :=
  let number := firstBucket buckets in
  if 0 <? number then
    let tasks := filesOf number files in
    (set_reduceTask (assignReduce tasks (reduceTask m))
       (set_reduceBucket (<[number := false]> (reduceBucket m)) m), tasks)
  else (m, []).

(** The whole handler; [env] is what other handlers do between its two parts, and the
    orders are those in which the maps are ranged over. *)
Definition GetTask (mapOrder : gmap string Z → list (string * Z)) (env : Master → Master)
    (buckets : gmap Z bool → list (Z * bool)) (files : gmap string Z → list (string * Z)) m
    : Master * TaskResponse :=
  let '(m, mapTasks) := GetTask_map (mapOrder (mapTask m)) m in
  let m := env m in
  match mapTasks with
  | _ :: _ => (m, mkTaskResponse MAP_TASK mapTasks 0 (nReduce m))
  | [] =>
      let '(m, tasks) :=
        if isMapDone m then GetTask_reduce (buckets (reduceBucket m)) (files (reduceTask m)) m
        else (m, []) in
      match tasks with
      | _ :: _ => (m, mkTaskResponse REDUCE_TASK tasks 0 (nReduce m))
      | [] => (m, mkTaskResponse NO_TASK [] 3 (nReduce m))
      end
  end.

(** [case MAP_TASK], under [mapTaskLock]; [false]: the map phase is over and the
    report is ignored *)
Definition TaskFinished_map (tasks : list FinishTask) m : Master * bool :=
  if isMapDone m then (m, false)
  else
    let m := set_mapTask (foldl (λ mt t, delete (ft_FileName t) mt) (mapTask m) tasks) m in
    (if decide (mapTask m = ∅) then set_isMapDone true m else m, true).

(** the intermediate files of a report, with their buckets *)
Definition reported (tasks : list FinishTask) : list (string * Z) :=
  t ← tasks; (λ b, (NumberToStr (ft_TaskId t) b, b)) <$> BucketNums t.

(** ... and under [reduceTaskLock] *)
Definition TaskFinished_addReduce (tasks : list FinishTask) m : Master :=
  set_reduceTask (foldl (λ rt r, <[fst r := snd r]> rt) (reduceTask m) (reported tasks))
    (set_reduceBucket (foldl (λ rb r, <[snd r := true]> rb) (reduceBucket m)
                             (reported tasks)) m).

(** [case REDUCE_TASK] *)
Definition TaskFinished_reduce (tasks : list FinishTask) m : go Master :=
  t0 ← idx tasks 0;
  let m := set_reduceBucket (delete (ft_TaskId t0) (reduceBucket m)) m in
  let m := set_reduceTask (foldl (λ rt t, delete (ft_FileName t) rt) (reduceTask m) tasks) m in
  Ret (if decide (reduceTask m = ∅) then set_isReduceDone true m else m).

(** [case MAP_TASK_FAIL] *)
Definition TaskFinished_mapFail (tasks : list FinishTask) m : Master :=
  if isMapDone m then m
  else set_mapTask (foldl (λ mt t, <[ft_FileName t := ft_TaskId t]> mt) (mapTask m) tasks) m.

(** [case REDUCE_TASK_FAIL] *)
Definition TaskFinished_reduceFail (tasks : list FinishTask) m : go Master :=
  t0 ← idx tasks 0;
  let m := set_reduceBucket (<[ft_TaskId t0 := true]> (reduceBucket m)) m in
  Ret (set_reduceTask
         (foldl (λ rt t, <[ft_FileName t := ft_TaskId t]> rt) (reduceTask m) tasks) m).

(** The whole handler; [env1] is what other handlers do between the two parts of the
    report of a map task, [env2] what they do before the answer is read from
    [isReduceDone]. *)
Definition TaskFinished (env1 env2 : Master → Master) (req : FinishedRequest) m
    : go (Master * FinishedResponse) :=
  let tasks := fr_Tasks req in
  m ← (if FinishedType req =? MAP_TASK then
         let '(m, taken) := TaskFinished_map tasks m in
         Ret (if (taken : bool) then TaskFinished_addReduce tasks (env1 m) else m)
       else if FinishedType req =? REDUCE_TASK then TaskFinished_reduce tasks m
       else if FinishedType req =? MAP_TASK_FAIL then Ret (TaskFinished_mapFail tasks m)
       else if FinishedType req =? REDUCE_TASK_FAIL then TaskFinished_reduceFail tasks m
       else Ret m);
  let m := env2 m in
  Ret (m, mkFinishedResponse (isReduceDone m)).

(** [recoverRequest] after its sleep *)
Definition recoverRequest (tasks : list AssignTask) (taskType : Z) m : go Master :=
  if taskType =? MAP_TASK then
    Ret (if existsb (λ t, bool_decide (is_Some (mapTask m !! at_FileName t))) tasks
         then set_mapTask
                (foldl (λ mt t, <[at_FileName t := at_TaskId t]> mt) (mapTask m) tasks) m
         else m)
  else if taskType =? REDUCE_TASK then
    t0 ← idx tasks 0;
    Ret (match reduceBucket m !! at_TaskId t0 with
         | Some _ =>
             set_reduceTask
               (foldl (λ rt t, <[at_FileName t := at_TaskId t]> rt) (reduceTask m) tasks)
               (set_reduceBucket (<[at_TaskId t0 := true]> (reduceBucket m)) m)
         | None => m
         end)
  else Ret m.

Definition Done m : bool := isReduceDone m.

(** [for idx, file := range files { m.mapTask[file] = idx + 1 }] *)
Fixpoint numberFiles (i : Z) (files : list string) (mt : gmap string Z) : gmap string Z :=
  match files with
  | [] => mt
  | f :: files => numberFiles (i + 1) files (<[f := i + 1]> mt)
  end.

Definition MakeMaster (files : list string) (n : Z) : Master :=
  mkMaster false false n (numberFiles 0 files ∅) ∅ ∅ 10.

(** ** File names do not collide *)

Definition noDash (s : string) : Prop := afterLast "-"%char s = None.

Lemma noDash_cons c s : c ≠ "-"%char → noDash s → noDash (String c s).
Proof. intros Hc Hs. unfold noDash in *. simpl. by rewrite Hs, decide_False. Qed.

Lemma noDash_inv c s : noDash (String c s) → c ≠ "-"%char ∧ noDash s.
Proof.
  unfold noDash. simpl. destruct (afterLast "-"%char s); [done|]. case_decide; done.
Qed.

Lemma pretty_char_digit (x : N) :
  (x < 10)%N → digit (pretty_N_char x) = Some (Z.of_N x) ∧ pretty_N_char x ≠ "-"%char.
Proof.
  intros Hx. assert (x ∈ (N.of_nat <$> seq 0 10)) as Hin.
  { apply list_elem_of_fmap. exists (N.to_nat x). rewrite elem_of_seq. lia. }
  simpl in Hin. set_unfold in Hin. naive_solver.
Qed.

Lemma pretty_go_spec (x : N) s :
  (noDash s → noDash (pretty_N_go x s))
  ∧ atoi_digits 0 (pretty_N_go x s) = atoi_digits (Z.of_N x) s.
Proof.
  revert s. induction (N.lt_wf_0 x) as [x _ IH]. intros s.
  destruct (decide (0 < x)%N) as [Hx|Hx].
  - rewrite pretty_N_go_step by done.
    assert (x mod 10 < 10)%N as Hm by (apply N.mod_lt; lia).
    destruct (pretty_char_digit _ Hm) as [Hd Hc].
    destruct (IH (x `div` 10)%N ltac:(apply N.div_lt; lia) (String (pretty_N_char (x mod 10)) s))
      as [H1 H2].
    split; [intros Hs; by apply H1, noDash_cons|]. rewrite H2. simpl. rewrite Hd. simpl.
    f_equal. rewrite N2Z.inj_div, N2Z.inj_mod.
    pose proof (Z.div_mod (Z.of_N x) 10). lia.
  - assert (x = 0%N) as -> by lia. rewrite pretty_N_go_0. done.
Qed.

Lemma Itoa_pos z : 0 < z → ∃ p, Itoa z = pretty_N_go (N.pos p) "" ∧ z = Z.pos p.
Proof. destruct z as [|p|p]; [lia| |lia]. intros _. exists p. done. Qed.

Lemma Itoa_noDash z : 0 ≤ z → noDash (Itoa z).
Proof.
  intros Hz. destruct (decide (z = 0)) as [->|]; [done|].
  destruct (Itoa_pos z) as (p & -> & _); [lia|]. by apply pretty_go_spec.
Qed.

Lemma Atoi_digits s n : atoi_digits 0 s = Some n → 0 ≤ n < 2 ^ 63 → Atoi s = n.
Proof.
  intros H Hn. assert (Z.max (- 2 ^ 63) (Z.min n (2 ^ 63 - 1)) = n) as Hclamp by lia.
  destruct s as [|c s]; [by injection H|].
  destruct c as [[] [] [] [] [] [] [] []]; try discriminate H; unfold Atoi; by rewrite H.
Qed.

Lemma Atoi_Itoa z : 0 ≤ z < 2 ^ 63 → Atoi (Itoa z) = z.
Proof.
  intros Hz. destruct (decide (z = 0)) as [->|]; [done|].
  destruct (Itoa_pos z) as (p & -> & ->); [lia|]. apply Atoi_digits; [|done].
  by rewrite (proj2 (pretty_go_spec _ _)).
Qed.

Lemma afterLast_app s r : noDash r → afterLast "-"%char (s +:+ "-" +:+ r) = Some r.
Proof.
  intros Hr. induction s as [|c s IH].
  - unfold noDash in Hr. change (afterLast "-"%char (String "-"%char r) = Some r).
    cbn [afterLast]. by rewrite Hr.
  - change (afterLast "-"%char (String c (s +:+ "-" +:+ r)) = Some r).
    cbn [afterLast]. by rewrite IH.
Qed.

Lemma dash_split a b r r' :
  noDash a → noDash b → a +:+ "-" +:+ r = b +:+ "-" +:+ r' → a = b ∧ r = r'.
Proof.
  revert b. induction a as [|c a IH]; intros [|d b] Ha Hb H; simpl in H.
  - by injection H.
  - injection H as <- _. by apply noDash_inv in Hb as [? _].
  - injection H as -> _. by apply noDash_inv in Ha as [? _].
  - injection H as -> H. apply noDash_inv in Ha as [_ Ha], Hb as [_ Hb].
    by destruct (IH b Ha Hb H) as [-> ->].
Qed.

Lemma NumberToStr_inj X Y X' Y' :
  0 ≤ X → 0 ≤ X' → NumberToStr X Y = NumberToStr X' Y' → X = X' ∧ Y = Y'.
Proof.
  intros HX HX' H. unfold NumberToStr in H. simpl in H. injection H as H.
  apply (dash_split (Itoa X) (Itoa X')) in H as [H1 H2]; [|by apply Itoa_noDash..].
  unfold Itoa in *. split; by apply (inj pretty).
Qed.

(** The master reads the bucket back from the name of an intermediate file, and
    two intermediate files of different tasks or buckets have different names. *)
Theorem intermediate_names X Y X' Y' :
  0 ≤ X → 0 ≤ X' → 0 ≤ Y < 2 ^ 63 →
  StrToNumber (NumberToStr X Y) = Y
  ∧ (NumberToStr X Y = NumberToStr X' Y' → X = X' ∧ Y = Y').
Proof.
  intros HX HX' HY. split; [|by apply NumberToStr_inj].
  unfold StrToNumber, NumberToStr.
  assert (afterLast "-"%char ("mr-" +:+ Itoa X +:+ "-" +:+ Itoa Y) = Some (Itoa Y)) as ->.
  { change ("mr-" +:+ Itoa X +:+ "-" +:+ Itoa Y)
      with (("mr-" +:+ Itoa X) +:+ "-" +:+ Itoa Y).
    apply afterLast_app, Itoa_noDash. lia. }
  by apply Atoi_Itoa.
Qed.

Lemma intermediate_names_witness :
  StrToNumber (NumberToStr 7 10) = 10 ∧ NumberToStr 7 10 ≠ NumberToStr 71 0.
Proof.
  destruct (intermediate_names 7 10 71 0) as [H1 H2]; [lia..|].
  split; [exact H1|]. intros H. destruct (H2 H) as [E _]. discriminate E.
Defined.
