(* ===== verification/MRWorker.v ===== *)
(** * Package mr: the worker, and the sequential program

    [src/mr/worker.go] and the sequential [src/main/mrsequential.go].  The directory
    the workers share is a map from file names to contents; a file is written under a temporary name and renamed,
    so it appears with its whole content.  [encoding/json] and [sort.Sort] are used
    through their contracts ([JsonCodec], [SortByKey]); [mapf] and [reducef] are
    the application's functions; [io] says what the file system does with each file
    ([ioFate]).  The code looks at the errors of [Open], [ReadAll], [CreateTemp] and
    [Write], but not at those of [Fprintf] and [Rename]. *)

From Stdlib Require Import Ascii Sorting.Sorted.
From S2P Require Import Prelude MRMaster.

Record KeyValue := mkKeyValue { Key : string; Value : string }.

#[export] Instance KeyValue_eq_dec : EqDecision KeyValue.
Proof. solve_decision. Defined.

#[export] Instance KeyValue_countable : Countable KeyValue.
Proof.
  refine (inj_countable' (λ kv, (Key kv, Value kv)) (λ '(k, v), mkKeyValue k v) _).
  by intros [].
Defined.

(** The contract of [json.Marshal] and [json.Unmarshal] on [[]KeyValue]; the strings
    of a [json_valid] value are valid UTF-8. *)
Class JsonCodec := {
  json_Marshal : list KeyValue → string;
  json_Unmarshal : string → option (list KeyValue);
  json_valid : KeyValue → Prop;
  json_roundtrip l : Forall json_valid l → json_Unmarshal (json_Marshal l) = Some l;
}.

(** [ByKey.Less] *)
Definition Less (a b : KeyValue) : bool := String.ltb (Key a) (Key b).

(** [sort.Sort(ByKey(l))]: a permutation of [l] in the order of the keys; the order
    of equal keys is not specified *)
Definition keyLe (a b : KeyValue) : Prop := String.leb (Key a) (Key b) = true.
Class SortByKey := {
  sort_Sort : list KeyValue → list KeyValue;
  sort_perm l : sort_Sort l ≡ₚ l;
  sort_sorted l : StronglySorted keyLe (sort_Sort l);
}.

(** ** The partition of keys into buckets *)

(** one byte of [fnv.New32a] *)
Definition fnv_step (h : Z) (c : ascii) : Z :=
  uwrap32 (Z.lxor h (Z.of_N (N_of_ascii c)) * 16777619).

Fixpoint fnv_write (h : Z) (s : string) : Z :=
  match s with
  | EmptyString => h
  | String c s => fnv_write (fnv_step h c) s
  end.

(** [int(h.Sum32() & 0x7fffffff)] *)
Definition ihash (key : string) : Z := Z.land (fnv_write 2166136261 key) 2147483647.

(** [ihash(key) % nReduce + 1] *)
Definition bucketOf (n : Z) (key : string) : Z := Z.rem (ihash key) n + 1.

(** What happens to a file: all calls succeed; [Open], [ReadAll], [CreateTemp] or (in
    [doMap]) [Write] fails; the temporary file is written but [Rename] fails; or the
    writes are cut short and [content] is what the file gets. *)
Inductive ioFate := Written | Refused | NotRenamed | Cut (content : string).

#[export] Instance ioFate_eq_dec : EqDecision ioFate.
Proof. solve_decision. Defined.

(** ** Operations *)

Abbreviation FS := (gmap string string).

Section worker.
Context `{!JsonCodec} `{!SortByKey}.
Context (mapf : string → string → list KeyValue).
Context (reducef : string → list string → string).
Implicit Types (fs : FS) (l : list KeyValue).

(** the loop that fills [regionMap]; the division panics for no buckets *)
Fixpoint regions (n : Z) l (rm : gmap Z (list KeyValue)) : go (gmap Z (list KeyValue)) :=
  match l with
  | [] => Ret rm
  | kv :: l =>
      if n =? 0 then Panic
      else
        let Y := bucketOf n (Key kv) in
        regions n l (<[Y := default [] (rm !! Y) ++ [kv]]> rm)
  end.

(** [os.Open] and [io.ReadAll] *)
Definition readFile (io : string → ioFate) fs (name : string) : option string :=
  match io name with
  | Refused => None
  | _ => fs !! name
  end.

(** the loop over [regionMap] in the order [order]: the directory and the bucket
    numbers, [None] if a file could not be written; the result of [Rename] is ignored *)
Fixpoint writeRegions (io : string → ioFate) (X : Z) (order : list (Z * list KeyValue))
    (fs : FS) (nums : list Z) : FS * option (list Z) :=
  match order with
  | [] => (fs, Some nums)
  | (Y, kvs) :: order =>
      let oname := NumberToStr X Y in
      match io oname with
      | Refused | Cut _ => (fs, None)
      | Written => writeRegions io X order (<[oname := json_Marshal kvs]> fs) (nums ++ [Y])
      | NotRenamed => writeRegions io X order fs (nums ++ [Y])
      end
  end.

(** The loop of [doMap] over the tasks; [iter] gives the order of the range over each
    task's [regionMap]. *)
Fixpoint doMap (io : string → ioFate)
    (iter : AssignTask → gmap Z (list KeyValue) → list (Z * list KeyValue))
    (n : Z) (tasks : list AssignTask) (fs : FS) (finished : list FinishTask)
    : go (FS * option (list FinishTask)) :=
  match tasks with
  | [] => Ret (fs, Some finished)
  | task :: tasks =>
      match readFile io fs (at_FileName task) with
      | None => Ret (fs, None)
      | Some content =>
          rm ← regions n (mapf (at_FileName task) content) ∅;
          let '(fs, nums) := writeRegions io (at_TaskId task) (iter task rm) fs [] in
          match nums with
          | None => Ret (fs, None)
          | Some nums =>
              doMap io iter n tasks fs
                (finished ++ [mkFinishTask (at_FileName task) (at_TaskId task) nums])
          end
      end
  end.

(** the loop of [doReduce] that reads the files *)
Fixpoint readAll (io : string → ioFate) (tasks : list AssignTask) (fs : FS) (l : list KeyValue)
    (finished : list FinishTask) : option (list KeyValue * list FinishTask) :=
  match tasks with
  | [] => Some (l, finished)
  | task :: tasks =>
      content ← readFile io fs (at_FileName task);
      kvs ← json_Unmarshal content;
      readAll io tasks fs (l ++ kvs)
        (finished ++ [mkFinishTask (at_FileName task) (at_TaskId task) [at_TaskId task]])
  end.

(** the entries at the head of [l] with key [k], and the rest *)
Fixpoint span (k : string) l : list KeyValue * list KeyValue :=
  match l with
  | kv :: l' =>
      if decide (Key kv = k) then let '(a, b) := span k l' in (kv :: a, b) else ([], l)
  | [] => ([], [])
  end.

(** [fmt.Fprintf(f, "%v %v\n", key, output)] *)
Definition line (k : string) (values : list string) : string :=
  k +:+ " " +:+ reducef k values +:+ String "010"%char EmptyString.

(** the loop over the groups of equal keys: [rest] is [keyVals[i:]]; [fuel] bounds
    the groups *)
Fixpoint reduceLoop (fuel : nat) (rest : list KeyValue) : list string :=
  match fuel, rest with
  | S fuel, kv :: l =>
      let '(same, l) := span (Key kv) l in
      line (Key kv) (Value kv :: (Value <$> same)) :: reduceLoop fuel l
  | _, _ => []
  end.

Definition outputOf (keyVals : list KeyValue) : list string :=
  let sorted := sort_Sort keyVals in reduceLoop (length sorted) sorted.

Definition outName (Y : Z) : string := "mr-out-" +:+ Itoa (Y - 1).

Definition concatLines (ls : list string) : string := foldr String.append EmptyString ls.

(** the results of [Fprintf] and [Rename] are ignored *)
Definition doReduce (io : string → ioFate) (tasks : list AssignTask) fs
    : go (FS * option (list FinishTask)) :=
  match readAll io tasks fs [] [] with
  | None => Ret (fs, None)
  | Some (keyVals, finished) =>
      t0 ← idx tasks 0;
      let oname := outName (at_TaskId t0) in
      Ret (match io oname with
           | Refused => (fs, None)
           | Written => (<[oname := concatLines (outputOf keyVals)]> fs, Some finished)
           | NotRenamed => (fs, Some finished)
           | Cut content => (<[oname := content]> fs, Some finished)
           end)
  end.

(** the switch of [DoWork]: what the worker does for a response and reports *)
Definition DoWork_switch (io : string → ioFate)
    (iter : AssignTask → gmap Z (list KeyValue) → list (Z * list KeyValue))
    (task : TaskResponse) fs : go (FS * FinishedRequest) :=
  if TaskType task =? MAP_TASK then
    '(fs, finished) ← doMap io iter (tr_NReduce task) (tr_Tasks task) fs [];
    Ret (fs, match finished with
             | Some ts => mkFinishedRequest MAP_TASK ts
             | None => mkFinishedRequest MAP_TASK_FAIL []
             end)
  else if TaskType task =? REDUCE_TASK then
    '(fs, finished) ← doReduce io (tr_Tasks task) fs;
    Ret (fs, match finished with
             | Some ts => mkFinishedRequest REDUCE_TASK ts
             | None => mkFinishedRequest REDUCE_TASK_FAIL []
             end)
  else Ret (fs, mkFinishedRequest SLEEP_TASK []).

(** what happens to a call: no connection, lost on the way there, its answer lost, or
    answered *)
Inductive rpcFate := NoDial | CallLost | ReplyLost | Answered.

(** The call of a handler of the master, [None] for an error; a panic of the handler
    takes the master down. *)
Definition callFuncWithName {A} (fate : rpcFate) (handler : Master → go (Master * A)) (m : Master)
    : go (Master * option A) :=
  match fate with
  | NoDial | CallLost => Ret (m, None)
  | ReplyLost => '(m, _) ← handler m; Ret (m, None)
  | Answered => '(m, reply) ← handler m; Ret (m, Some reply)
  end.

(** one round of a worker: its calls, what happens to its files, and the orders in which
    the master and the worker range over their maps *)
Record Round := mkRound {
  ro_get : rpcFate;
  ro_finish : rpcFate;
  ro_io : string → ioFate;
  ro_map : gmap string Z → list (string * Z);
  ro_buckets : gmap Z bool → list (Z * bool);
  ro_files : gmap string Z → list (string * Z);
  ro_iter : AssignTask → gmap Z (list KeyValue) → list (Z * list KeyValue);
}.

(** a whole [DoWork], when no other worker calls the master meanwhile; [true]: it
    returns an error *)
Definition DoWork (r : Round) (m : Master) fs : go (Master * FS * bool) :=
  '(m, task) ← callFuncWithName (ro_get r)
                 (λ m, Ret (GetTask (ro_map r) id (ro_buckets r) (ro_files r) m)) m;
  match task with
  | None => Ret (m, fs, true)
  | Some task =>
      '(fs, finishStatus) ← DoWork_switch (ro_io r) (ro_iter r) task fs;
      '(m, finishResponse) ← callFuncWithName (ro_finish r) (TaskFinished id id finishStatus) m;
      match finishResponse with
      | None => Ret (m, fs, true)
      | Some resp => Ret (m, fs, CanExit resp)
      end
  end.

(** the loop of [Worker] over the rounds [rs]; [false]: it has not returned *)
Fixpoint Worker (rs : list Round) (m : Master) fs : go (Master * FS * bool) :=
  match rs with
  | [] => Ret (m, fs, false)
  | r :: rs =>
      '(m, fs, err) ← DoWork r m fs;
      if (err : bool) then Ret (m, fs, true) else Worker rs m fs
  end.

(** [mrsequential.go]: [None] when a file cannot be opened *)
Fixpoint mapFiles (files : list string) fs (intermediate : list KeyValue)
    : option (list KeyValue) :=
  match files with
  | [] => Some intermediate
  | f :: files =>
      content ← fs !! f;
      mapFiles files fs (intermediate ++ mapf f content)
  end.

Definition mrsequential (files : list string) fs : option (list string) :=
  outputOf <$> mapFiles files fs [].

End worker.

(** ** The result, independent of order and buckets *)

Section reduce_spec.
Context `{!SortByKey} (reducef : string → list string → string).
Implicit Types l : list KeyValue.

Definition keysOf l : gset string := list_to_set (Key <$> l).

Definition valuesOf (k : string) l : list string := Value <$> filter (λ kv, Key kv = k) l.

(** one line per distinct key *)
Definition reduceSpec l : list string :=
  (λ k, line reducef k (valuesOf k l)) <$> elements (keysOf l).

Lemma span_spec k l a b :
  span k l = (a, b) → l = a ++ b ∧ Forall (λ kv, Key kv = k) a
  ∧ ∀ kv b', b = kv :: b' → Key kv ≠ k.
Proof.
  revert a b. induction l as [|kv l IH]; intros a b; simpl.
  { intros [= <- <-]. split_and!; [done|constructor|done]. }
  case_decide as Hk.
  - destruct (span k l) as [a' b']. intros [= <- <-].
    destruct (IH _ _ eq_refl) as (-> & Ha & Hb). split_and!; [done|by constructor|done].
  - intros [= <- <-]. split_and!; [done|constructor|]. by intros ? ? [= <- _].
Qed.

(** behind a run of [k] in a sorted list, [k] does not come again *)
Lemma span_sorted kv l a b :
  StronglySorted keyLe (kv :: l) → span (Key kv) l = (a, b) →
  StronglySorted keyLe b ∧ Forall (λ kv', Key kv' ≠ Key kv) b.
Proof.
  intros [Hs Hall]%StronglySorted_inv (-> & Ha & Hb)%span_spec.
  assert (StronglySorted keyLe b) as Hsb.
  { clear -Hs. induction a as [|x a IH]; [done|]. simpl in Hs.
    by apply StronglySorted_inv in Hs as [? _]; auto. }
  split; [done|]. destruct b as [|kv1 b]; [constructor|].
  apply StronglySorted_inv in Hsb as [_ Hle]. specialize (Hb kv1 b eq_refl).
  apply Forall_app in Hall as [_ Hall]. apply Forall_cons in Hall as [Hk1 _].
  constructor; [done|]. eapply Forall_impl; [exact Hle|]. intros kv2 H2 Heq.
  apply Hb. unfold keyLe in *. apply String.leb_antisym; [|done]. by rewrite <-Heq.
Qed.

Lemma reduceLoop_spec fuel l :
  StronglySorted keyLe l → (length l ≤ fuel)%nat → reduceLoop reducef fuel l ≡ₚ reduceSpec l.
Proof.
  revert l. induction fuel as [|fuel IH]; intros [|kv l] Hs Hf; simpl in *; try done; [lia|].
  destruct (span (Key kv) l) as [a b] eqn:E.
  destruct (span_sorted _ _ _ _ Hs E) as [Hsb Hb]. apply span_spec in E as (-> & Ha & _).
  rewrite length_app in Hf. rewrite IH by (done || lia). unfold reduceSpec.
  assert (keysOf (kv :: a ++ b) = {[Key kv]} ∪ keysOf b) as ->.
  { unfold keysOf. simpl. rewrite fmap_app, list_to_set_app_L.
    assert (list_to_set (Key <$> a) ⊆@{gset string} {[Key kv]}); [|set_solver].
    intros k (kv' & -> & Hin)%elem_of_list_to_set%list_elem_of_fmap.
    rewrite Forall_forall in Ha. rewrite (Ha _ Hin). set_solver. }
  assert (Key kv ∉ keysOf b) as Hni.
  { intros (kv' & Heq & Hin)%elem_of_list_to_set%list_elem_of_fmap.
    rewrite Forall_forall in Hb. by apply (Hb _ Hin). }
  rewrite elements_union_singleton by done. simpl.
  assert (valuesOf (Key kv) (kv :: a ++ b) = Value kv :: (Value <$> a)) as ->.
  { unfold valuesOf. rewrite filter_cons, decide_True, filter_app by done.
    rewrite (filter_all _ a), (filter_none _ b) by done. by rewrite app_nil_r. }
  f_equiv. apply Permutation_refl'. apply list_fmap_ext. intros i k Hk. f_equal.
  apply list_elem_of_lookup_2, elem_of_elements in Hk.
  assert (k ≠ Key kv) as Hne by (by intros ->).
  unfold valuesOf. rewrite filter_cons, decide_False, filter_app by congruence.
  rewrite (filter_none _ a); [done|]. eapply Forall_impl; [exact Ha|]. simpl. congruence.
Qed.

Lemma outputOf_spec l : outputOf reducef l ≡ₚ reduceSpec (sort_Sort l).
Proof. apply reduceLoop_spec; [apply sort_sorted|done]. Qed.
End reduce_spec.

