(* ===== verification/MRApps.v ===== *)
(** * Package mrapps: the applications

    The Map and Reduce functions of [src/mrapps]: word count ([wc.go]), inverted index
    ([indexer.go]), the applications that test crashes ([crash.go], [nocrash.go]) and
    those that test parallelism ([mtiming.go], [rtiming.go]).  Strings are their bytes;
    [range] decodes UTF-8 as Go does.  Above U+00FF, [unicode.IsLetter] is a table of
    the Unicode standard, an argument of the model ([letters]). *)

From Stdlib Require Import Ascii Sorting.Sorted.
From stdpp Require Import sorting.
From S2P Require Import Prelude MRMaster MRWorker.

(** ** Runes *)

Definition byteZ (c : ascii) : Z := Z.of_N (N_of_ascii c).
Definition byteIn (lo hi x : Z) : bool := (lo <=? x) && (x <=? hi).

(** [utf8.RuneError], the rune of a byte that starts no encoding *)
Definition RuneError : Z := 0xFFFD.

Definition lowBits (b : Z) (k : Z) : Z := Z.land b (Z.ones k).
Definition joinBits (hi lo : Z) : Z := Z.lor (Z.shiftl hi 6) (lowBits lo 6).

(** [utf8.DecodeRune]: the first rune and the number of its bytes; surrogates, overlong
    encodings and runes above U+10FFFF are errors of width 1 *)
Definition DecodeRune (bs : list ascii) : Z * nat :=
  let cont := byteIn 0x80 0xBF in
  match byteZ <$> bs with
  | [] => (RuneError, 0%nat)
  | b0 :: bs =>
      if b0 <? 0x80 then (b0, 1%nat)
      else if byteIn 0xC2 0xDF b0 then
        match bs with
        | b1 :: _ => if cont b1 then (joinBits (lowBits b0 5) b1, 2%nat) else (RuneError, 1%nat)
        | _ => (RuneError, 1%nat)
        end
      else if byteIn 0xE0 0xEF b0 then
        let lo := if b0 =? 0xE0 then 0xA0 else 0x80 in
        let hi := if b0 =? 0xED then 0x9F else 0xBF in
        match bs with
        | b1 :: b2 :: _ =>
            if byteIn lo hi b1 && cont b2
            then (joinBits (joinBits (lowBits b0 4) b1) b2, 3%nat) else (RuneError, 1%nat)
        | _ => (RuneError, 1%nat)
        end
      else if byteIn 0xF0 0xF4 b0 then
        let lo := if b0 =? 0xF0 then 0x90 else 0x80 in
        let hi := if b0 =? 0xF4 then 0x8F else 0xBF in
        match bs with
        | b1 :: b2 :: b3 :: _ =>
            if byteIn lo hi b1 && cont b2 && cont b3
            then (joinBits (joinBits (joinBits (lowBits b0 3) b1) b2) b3, 4%nat)
            else (RuneError, 1%nat)
        | _ => (RuneError, 1%nat)
        end
      else (RuneError, 1%nat)
  end.

(** a rune and its bytes *)
Abbreviation chunk := (Z * list ascii)%type.

(** [for _, r := range s]; [skip] bytes belong to the rune before *)
Fixpoint range (skip : nat) (bs : list ascii) : list chunk :=
  match bs with
  | [] => []
  | c :: bs' =>
      match skip with
      | S skip => range skip bs'
      | O => let '(r, w) := DecodeRune bs in (r, take w bs) :: range (w - 1) bs'
      end
  end.

Definition runes (s : string) : list chunk := range 0 (String.list_ascii_of_string s).
Definition text (cs : list chunk) : string := String.string_of_list_ascii (mjoin cs.*2).

(** ** Words *)

Section words.
(** [unicode.IsLetter] above U+00FF *)
Context (letters : Z → bool).

Definition IsLetter (r : Z) : bool :=
  if r <=? 0xFF then
    byteIn 65 90 r || byteIn 97 122 r || (r =? 0xAA) || (r =? 0xB5) || (r =? 0xBA)
    || byteIn 0xC0 0xD6 r || byteIn 0xD8 0xF6 r || byteIn 0xF8 0xFF r
  else letters r.

(** the end of a run of runes that are not separators *)
Definition flush (cur : list chunk) : list string :=
  match cur with [] => [] | _ => [text cur] end.

(** the maximal runs of runes that are not separators; [cur] is the current one *)
Fixpoint fields (sep : Z → bool) (cur cs : list chunk) : list string :=
  match cs with
  | [] => flush cur
  | c :: cs => if sep (fst c) then flush cur ++ fields sep [] cs else fields sep (cur ++ [c]) cs
  end.

(** [strings.FieldsFunc] *)
Definition FieldsFunc (s : string) (sep : Z → bool) : list string := fields sep [] (runes s).

(** *** wc.go *)

Definition wc_Map (filename contents : string) : list KeyValue :=
  let words := FieldsFunc contents (λ r, negb (IsLetter r)) in
  foldl (λ kva w, kva ++ [mkKeyValue w "1"]) [] words.

(** *** indexer.go *)

(** the set [m] of words; [order] is the order of the range over it *)
Definition indexer_Map (order : gset string → list string) (document value : string)
    : list KeyValue :=
  let words := FieldsFunc value (λ x, negb (IsLetter x)) in
  let m := foldl (λ m w, {[w]} ∪ m) (∅ : gset string) words in
  foldl (λ res w, res ++ [mkKeyValue w document]) [] (order m).
End words.

Definition wc_Reduce (key : string) (values : list string) : string := Itoa (len values).

(** [strings.Join] *)
Definition Join (l : list string) (sep : string) : string := String.concat sep l.

(** [fmt.Sprintf("%d %s", len(values), strings.Join(values, ","))] after the sort *)
Definition indexer_Reduce (key : string) (values : list string) : string :=
  let values := sort_Strings values in
  Itoa (len values) +:+ " " +:+ Join values ",".

(** *** crash.go and nocrash.go *)

(** what [maybeCrash] does to the process *)
Inductive fate := Exit | Sleep (ms : Z) | Continue.

(** [rr] and [ms] are the random numbers, below 1000 and 10000 *)
Definition crash_maybeCrash (rr ms : Z) : fate :=
  if rr <? 330 then Exit else if rr <? 660 then Sleep ms else Continue.
Definition nocrash_maybeCrash (rr : Z) : fate :=
  if false && (rr <? 500) then Exit else Continue.

(** the code after [maybeCrash]: [None] when the process is gone *)
Definition survive {A} (f : fate) (a : A) : option A :=
  match f with Exit => None | _ => Some a end.

Definition slen (s : string) : Z := Z.of_nat (String.length s).

Definition crash_kva (filename contents : string) : list KeyValue :=
  let kva := [] in
  let kva := kva ++ [mkKeyValue "a" filename] in
  let kva := kva ++ [mkKeyValue "b" (Itoa (slen filename))] in
  let kva := kva ++ [mkKeyValue "c" (Itoa (slen contents))] in
  kva ++ [mkKeyValue "d" "xyzzy"].

(** the sorted copy [vv], joined *)
Definition joinSorted (values : list string) : string := Join (sort_Strings values) " ".

Definition crash_Map (rr ms : Z) (filename contents : string) : option (list KeyValue) :=
  survive (crash_maybeCrash rr ms) (crash_kva filename contents).
Definition crash_Reduce (rr ms : Z) (key : string) (values : list string) : option string :=
  survive (crash_maybeCrash rr ms) (joinSorted values).
Definition nocrash_Map (rr : Z) (filename contents : string) : option (list KeyValue) :=
  survive (nocrash_maybeCrash rr) (crash_kva filename contents).
Definition nocrash_Reduce (rr : Z) (key : string) (values : list string) : option string :=
  survive (nocrash_maybeCrash rr) (joinSorted values).

(** *** mtiming.go and rtiming.go *)

(** What [nparallel] sees of the operating system: its process id, whether the calls
    succeed, the listing of the directory, the processes that are alive, and what the
    other workers do to the directory while it sleeps. *)
Record ProcEnv := mkProcEnv {
  Getpid : Z;
  WriteFile_ok : bool;
  Open_ok : bool;
  Readdirnames : FS → option (list string);
  alive : Z → bool; (* syscall.Kill(xpid, 0) == nil *)
  meanwhile : FS → FS;
  Remove_ok : bool;
}.

Definition workerFile (phase : string) (pid : Z) : string :=
  "mr-worker-" +:+ phase +:+ "-" +:+ Itoa pid.

Section nparallel.
(** [fmt.Sscanf(name, "mr-worker-<phase>-%d", &xpid)]: the number, if there is one *)
Context (scan : string → string → option Z).

Definition countAlive (env : ProcEnv) (phase : string) (names : list string) : Z :=
  foldl (λ ret name,
           match scan phase name with
           | Some xpid => if alive env xpid then ret + 1 else ret
           | None => ret
           end) 0 names.

Definition nparallel (env : ProcEnv) (phase : string) (fs : FS) : go (FS * Z) :=
  let myfilename := workerFile phase (Getpid env) in
  if WriteFile_ok env then
    let fs := <[myfilename := "x"]> fs in
    if Open_ok env then
      match Readdirnames env fs with
      | None => Panic
      | Some names =>
          let ret := countAlive env phase names in
          let fs := meanwhile env fs in
          if Remove_ok env then Ret (delete myfilename fs, ret) else Panic
      end
    else Panic
  else Panic.

(** [ts] is the time, printed with [%.1f] *)
Definition mtiming_Map (env : ProcEnv) (ts : string) (filename contents : string) (fs : FS)
    : go (FS * list KeyValue) :=
  '(fs, n) ← nparallel env "map" fs;
  Ret (fs, [mkKeyValue ("times-" +:+ Itoa (Getpid env)) ts;
            mkKeyValue ("parallel-" +:+ Itoa (Getpid env)) (Itoa n)]).

Definition rtiming_Reduce (env : ProcEnv) (key : string) (values : list string) (fs : FS)
    : go (FS * string) :=
  '(fs, n) ← nparallel env "reduce" fs;
  Ret (fs, Itoa n).
End nparallel.

Definition mtiming_Reduce (key : string) (values : list string) : string := joinSorted values.

Definition rtiming_Map (filename contents : string) : list KeyValue :=
  (λ k, mkKeyValue k "1") <$> ["a"; "b"; "c"; "d"; "e"; "f"; "g"; "h"; "i"; "j"].

(** ** Facts *)

(** the Reduce functions do not depend on the order in which values arrive *)
Lemma wc_Reduce_perm k vs vs' : vs ≡ₚ vs' → wc_Reduce k vs = wc_Reduce k vs'.
Proof. intros Hp. unfold wc_Reduce, len. by rewrite Hp. Qed.

Lemma indexer_Reduce_perm k vs vs' : vs ≡ₚ vs' → indexer_Reduce k vs = indexer_Reduce k vs'.
Proof. intros Hp. unfold indexer_Reduce. by rewrite (sort_Strings_perm vs vs'). Qed.

Lemma joinSorted_perm vs vs' : vs ≡ₚ vs' → joinSorted vs = joinSorted vs'.
Proof. intros Hp. unfold joinSorted. by rewrite (sort_Strings_perm vs vs'). Qed.

Lemma foldl_snoc_map {A B} (f : A → B) l acc : foldl (λ r x, r ++ [f x]) acc l = acc ++ (f <$> l).
Proof.
  revert acc. induction l as [|x l IH]; intros acc; simpl; [by rewrite app_nil_r|].
  by rewrite IH, <-app_assoc.
Qed.

Lemma filter_fmap {A B} (P : B → Prop) `{!∀ b, Decision (P b)} (f : A → B) (l : list A) :
  filter P (f <$> l) = f <$> filter (λ a, P (f a)) l.
Proof.
  induction l as [|a l IH]; [done|]. rewrite fmap_cons, !filter_cons, IH. by case_decide.
Qed.

Lemma foldl_union_set (l : list string) (m : gset string) :
  foldl (λ m w, {[w]} ∪ m) m l = list_to_set l ∪ m.
Proof. revert m. induction l as [|x l IH]; intros m; simpl; [set_solver|]. rewrite IH. set_solver. Qed.

(** *** Decoding *)

Lemma DecodeRune_width bs r w :
  bs ≠ [] → DecodeRune bs = (r, w) → (1 ≤ w ≤ length bs)%nat.
Proof.
  intros Hne H. unfold DecodeRune in H.
  destruct bs as [|c0 [|c1 [|c2 [|c3 bs]]]]; simpl in *; repeat case_match; simplify_eq; lia.
Qed.

(** the runes carry the bytes of the string, each once and in order *)
Lemma range_bytes skip bs : (skip ≤ length bs)%nat → mjoin (range skip bs).*2 = drop skip bs.
Proof.
  revert skip. induction bs as [|c bs IH]; intros [|skip] Hs; cbn [range length] in *;
    try done; [|apply IH; lia].
  destruct (DecodeRune (c :: bs)) as [r w] eqn:E. apply DecodeRune_width in E as [Hw1 Hw2]; [|done].
  change (take w (c :: bs) ++ mjoin (range (w - 1) bs).*2 = c :: bs).
  destruct w as [|w]; [lia|]. cbn [length] in Hw2.
  rewrite IH by lia. replace (S w - 1)%nat with w by lia. simpl. by rewrite take_drop.
Qed.

Lemma runes_text s : text (runes s) = s.
Proof.
  unfold text, runes. rewrite range_bytes by lia. apply String.string_of_list_ascii_of_string.
Qed.

(** *** Words and separators *)

(** [split_at sep l words]: [l] is separators, then a word up to the next separator or
    the end, and so on; [words] are the words *)
Inductive split_at (sep : Z → bool) : list chunk → list string → Prop :=
| sp_end g : Forall (λ c, sep (fst c) = true) g → split_at sep g []
| sp_word g w rest words :
    Forall (λ c, sep (fst c) = true) g →
    w ≠ [] → Forall (λ c, sep (fst c) = false) w →
    (∀ c rest', rest = c :: rest' → sep (fst c) = true) →
    split_at sep rest words → split_at sep (g ++ w ++ rest) (text w :: words).

Lemma split_at_sep sep c l words :
  sep (fst c) = true → split_at sep l words → split_at sep (c :: l) words.
Proof.
  intros Hc [g Hg|g w rest ws Hg]; [by constructor; constructor|].
  apply (sp_word sep (c :: g)); [by constructor|done..].
Qed.

Lemma fields_split sep cs : ∀ cur,
  Forall (λ c, sep (fst c) = false) cur → split_at sep (cur ++ cs) (fields sep cur cs).
Proof.
  assert (∀ cur rest words, Forall (λ c, sep (fst c) = false) cur →
    (∀ c rest', rest = c :: rest' → sep (fst c) = true) →
    split_at sep rest words → split_at sep (cur ++ rest) (flush cur ++ words)) as Hflush.
  { intros [|c cur] rest words Hcur Hrest Hs; [done|]. by apply (sp_word sep [] (c :: cur)). }
  induction cs as [|c cs IH]; intros cur Hcur; simpl.
  { rewrite <-(app_nil_r (flush cur)). apply Hflush; [done|done|by constructor]. }
  destruct (sep (fst c)) eqn:Hc.
  - apply Hflush; [done|by intros ? ? [= <- <-]|]. apply split_at_sep; [done|].
    by apply (IH []).
  - rewrite (cons_middle c cur cs), app_assoc. apply IH.
    apply Forall_app. by split; [|constructor].
Qed.

(** a run ends at one place *)
Lemma run_unique {A} (P : A → Prop) (l1 l2 r1 r2 : list A) :
  l1 ++ r1 = l2 ++ r2 → Forall P l1 → Forall P l2 →
  (∀ x r, r1 = x :: r → ¬ P x) → (∀ x r, r2 = x :: r → ¬ P x) → l1 = l2 ∧ r1 = r2.
Proof.
  revert l2. induction l1 as [|x l1 IH]; intros [|y l2] H H1 H2 E1 E2; simpl in *.
  - done.
  - exfalso. apply Forall_cons in H2 as [Hy _]. by eapply E1.
  - exfalso. apply Forall_cons in H1 as [Hx _]. by eapply E2.
  - injection H as -> H. apply Forall_cons in H1 as [_ H1], H2 as [_ H2].
    by destruct (IH l2 H H1 H2 E1 E2) as [-> ->].
Qed.

(** a text has one list of words *)
Lemma split_at_unique sep l ws1 : split_at sep l ws1 → ∀ ws2, split_at sep l ws2 → ws1 = ws2.
Proof.
  assert (∀ g w rest g' : list chunk, w ≠ [] → Forall (λ c, sep (fst c) = false) w →
    g' = g ++ w ++ rest → Forall (λ c, sep (fst c) = true) g' → False) as Hno.
  { intros g [|c w] rest g' Hw Hf -> Ht; [done|].
    rewrite !Forall_app, !Forall_cons in *. destruct_and?. congruence. }
  induction 1 as [g Hg|g w rest ws Hg Hw Hl Hr Hs IH]; intros ws2 H2.
  - destruct H2 as [|g' w' rest' ws' Hg' Hw' Hl' Hr' Hs']; [done|]. exfalso. by eapply Hno.
  - inversion H2 as [g1 Hg1 E|g' w' rest' ws' Hg' Hw' Hl' Hr' Hs' E]; subst.
    { exfalso. by eapply Hno. }
    assert (∀ u v : list chunk, u ≠ [] → Forall (λ c, sep (fst c) = false) u →
      ∀ x r, u ++ v = x :: r → ¬ sep (fst x) = true) as Hhead.
    { intros [|c u] v Hne Hu x r H; [done|]. simplify_eq/=.
      apply Forall_cons in Hu as [-> _]. done. }
    destruct (run_unique (λ c, sep (fst c) = true) g' g (w' ++ rest') (w ++ rest)) as [-> E'];
      try done; [by apply Hhead..|].
    destruct (run_unique (λ c, sep (fst c) = false) w' w rest' rest) as [-> ->]; try done.
    + intros x r Hx. by rewrite (Hr' _ _ Hx).
    + intros x r Hx. by rewrite (Hr _ _ Hx).
    + f_equal. by apply IH.
Qed.

(** [FieldsFunc] returns the words of the string *)
Lemma FieldsFunc_split s sep : split_at sep (runes s) (FieldsFunc s sep).
Proof. by apply (fields_split sep (runes s) []). Qed.

(** *** The applications *)

Lemma wc_Map_words letters f c :
  wc_Map letters f c
  = (λ w, mkKeyValue w "1") <$> FieldsFunc c (λ r, negb (IsLetter letters r)).
Proof. unfold wc_Map. by rewrite foldl_snoc_map. Qed.

Lemma indexer_Map_words letters order f c :
  (∀ m, order m ≡ₚ elements m) →
  indexer_Map letters order f c
  ≡ₚ (λ w, mkKeyValue w f) <$> elements (list_to_set (C := gset string)
        (FieldsFunc c (λ r, negb (IsLetter letters r)))).
Proof.
  intros Hord. unfold indexer_Map. rewrite foldl_snoc_map, foldl_union_set, Hord.
  by rewrite (right_id_L ∅ (∪)).
Qed.

(** a crashing application computes what the other one does, or takes its process down *)
Lemma crash_same rr ms rr' :
  (∀ f c kva, crash_Map rr ms f c = Some kva → nocrash_Map rr' f c = Some kva)
  ∧ (∀ k vs r, crash_Reduce rr ms k vs = Some r → nocrash_Reduce rr' k vs = Some r)
  ∧ (rr < 330 ↔ ∀ f c, crash_Map rr ms f c = None).
Proof.
  unfold crash_Map, crash_Reduce, nocrash_Map, nocrash_Reduce, crash_maybeCrash,
    nocrash_maybeCrash, survive. simpl.
  destruct (Z.ltb_spec rr 330); [split_and!; naive_solver|].
  destruct (rr <? 660); split_and!; try done; (split; [lia|]; intros Hn; by specialize (Hn "" "")).
Qed.

(** a timing application that returns has counted itself *)
Lemma countAlive_pos scan env phase names name pid :
  name ∈ names → scan phase name = Some pid → alive env pid = true →
  1 ≤ countAlive scan env phase names.
Proof.
  intros Hin Hs Ha. unfold countAlive.
  set (f := λ ret name, match scan phase name with
                        | Some xpid => if alive env xpid then ret + 1 else ret
                        | None => ret
                        end).
  assert (∀ l z, z ≤ foldl f z l) as Hmono.
  { induction l as [|x l IH]; intros z; simpl; [lia|]. etrans; [|apply IH].
    unfold f. repeat case_match; lia. }
  apply list_elem_of_split in Hin as (l1 & l2 & ->). rewrite foldl_app. simpl.
  etrans; [|apply Hmono]. unfold f at 1. rewrite Hs, Ha. specialize (Hmono l1 0). lia.
Qed.

Lemma nparallel_counts_itself scan env phase fs fs' n :
  (∀ pid, scan phase (workerFile phase pid) = Some pid) →
  (∀ fs names, Readdirnames env fs = Some names → ∀ f, is_Some (fs !! f) → f ∈ names) →
  alive env (Getpid env) = true →
  nparallel scan env phase fs = Ret (fs', n) → 1 ≤ n ∧ fs' !! workerFile phase (Getpid env) = None.
Proof.
  intros Hscan Hnames Hal H. unfold nparallel in H. repeat case_match; simplify_eq.
  split; [|by rewrite lookup_delete_eq].
  eapply countAlive_pos; [|apply Hscan|exact Hal].
  eapply Hnames; [done|]. rewrite lookup_insert_eq. eauto.
Qed.
