(* ===== verification/MRSpec.v ===== *)
(** * Package mr: a job whose reports are handled at once

    The proof device behind [MRJob.v].  [astep] are the steps of a job (master, any
    number of workers, shared directory) in which the two parts of the report of a map
    task run one after the other and the errors that the workers ignore do not happen.
    Workers may be slow, crash half-way through writing their files, repeat a task that
    the master handed out again, emit its pairs in another order then, and report late;
    the timers of [recoverRequest] may fire at any time.  [MRJob.v] has the steps of the
    program, and shows which of its executions are executions of this job. *)

From Stdlib Require Import Ascii Sorting.Sorted.
From S2P Require Import Prelude MRMaster MRWorker.

(** ** Order and buckets do not matter *)

Section result.
Context (reducef : string → list string → string).
Hypothesis reducef_perm : ∀ k vs vs', vs ≡ₚ vs' → reducef k vs = reducef k vs'.
Implicit Types l : list KeyValue.

Lemma reduceSpec_perm l l' : l ≡ₚ l' → reduceSpec reducef l = reduceSpec reducef l'.
Proof.
  intros Hp. unfold reduceSpec.
  assert (keysOf l = keysOf l') as ->.
  { unfold keysOf. apply set_eq. intros k. rewrite !elem_of_list_to_set. by rewrite Hp. }
  apply list_fmap_ext. intros i k _. unfold line. f_equal. f_equal. f_equal.
  apply reducef_perm. unfold valuesOf. by rewrite Hp.
Qed.

Lemma outputOf_perm `{!SortByKey} l l' :
  l ≡ₚ l' → outputOf reducef l ≡ₚ reduceSpec reducef l'.
Proof.
  intros Hp. etrans; [apply outputOf_spec|]. apply Permutation_refl', reduceSpec_perm.
  etrans; [apply sort_perm|done].
Qed.

(** the entries of bucket [Y] *)
Definition bucket (n Y : Z) l : list KeyValue := filter (λ kv, bucketOf n (Key kv) = Y) l.

Lemma bucketOf_range n k : 0 < n → 1 ≤ bucketOf n k ≤ n.
Proof.
  intros Hn. unfold bucketOf.
  assert (0 ≤ ihash k) by (unfold ihash; apply Z.land_nonneg; right; lia).
  pose proof (Z.rem_bound_pos (ihash k) n). lia.
Qed.

Lemma valuesOf_bucket n k l : valuesOf k (bucket n (bucketOf n k) l) = valuesOf k l.
Proof.
  unfold valuesOf, bucket. f_equal. rewrite list_filter_filter.
  apply list_filter_iff. intros kv. naive_solver.
Qed.

Lemma keysOf_bucket n Y k l : k ∈ keysOf (bucket n Y l) ↔ k ∈ keysOf l ∧ bucketOf n k = Y.
Proof.
  unfold keysOf, bucket. rewrite !elem_of_list_to_set, !list_elem_of_fmap.
  setoid_rewrite list_elem_of_filter. naive_solver.
Qed.

Lemma join_cons {A} (xs : list A) (xss : list (list A)) : mjoin (xs :: xss) = xs ++ mjoin xss.
Proof. done. Qed.

(** a list of keys split by bucket *)
Lemma split_by_bucket {A} (g : A → Z) (lo : Z) (m : nat) (xs : list A) :
  (∀ x, x ∈ xs → lo ≤ g x < lo + Z.of_nat m) →
  mjoin ((λ Y, filter (λ x, g x = Y) xs) <$> seqZ lo (Z.of_nat m)) ≡ₚ xs.
Proof.
  revert lo xs. induction m as [|m IH]; intros lo xs Hr.
  { destruct xs as [|x xs]; [done|]. specialize (Hr x ltac:(set_solver)). lia. }
  rewrite (seqZ_cons lo), fmap_cons, join_cons by lia.
  replace (Z.pred (Z.of_nat (S m))) with (Z.of_nat m) by lia.
  assert (mjoin ((λ Y, filter (λ x, g x = Y) xs) <$> seqZ (Z.succ lo) (Z.of_nat m))
    = mjoin ((λ Y, filter (λ x, g x = Y) (filter (λ x, g x ≠ lo) xs))
               <$> seqZ (Z.succ lo) (Z.of_nat m))) as ->.
  { f_equal. apply list_fmap_ext. intros i Y HY. rewrite list_filter_filter.
    apply list_elem_of_lookup_2, elem_of_seqZ in HY.
    apply list_filter_iff. intros x. naive_solver lia. }
  rewrite IH; [apply filter_app_complement|].
  intros x [Hx Hin]%list_elem_of_filter. specialize (Hr x Hin). lia.
Qed.

(** the lines of all buckets are the lines of the whole *)
Lemma reduceSpec_buckets n l :
  0 < n →
  mjoin ((λ Y, reduceSpec reducef (bucket n Y l)) <$> seqZ 1 n) ≡ₚ reduceSpec reducef l.
Proof.
  intros Hn. unfold reduceSpec at 2.
  rewrite <-(split_by_bucket (bucketOf n) 1 (Z.to_nat n) (elements (keysOf l))).
  2: { intros k _. pose proof (bucketOf_range n k Hn). lia. }
  rewrite Z2Nat.id by lia. generalize (seqZ 1 n). intros Ys.
  induction Ys as [|Y Ys IH]; [done|].
  rewrite !fmap_cons, !join_cons, fmap_app, IH. f_equiv.
  unfold reduceSpec.
  assert (elements (keysOf (bucket n Y l))
    ≡ₚ filter (λ k, bucketOf n k = Y) (elements (keysOf l))) as Hel.
  { apply NoDup_Permutation; [apply NoDup_elements|apply NoDup_filter, NoDup_elements|].
    intros k. rewrite list_elem_of_filter, !elem_of_elements, keysOf_bucket. tauto. }
  rewrite <-Hel. apply Permutation_refl', list_fmap_ext. intros i k Hk. f_equal.
  apply list_elem_of_lookup_2, elem_of_elements, keysOf_bucket in Hk as [_ <-].
  apply valuesOf_bucket.
Qed.
End result.

(** ** The job *)

Section job.
Context {JC : JsonCodec} {SK : SortByKey}.
Context (mapf : string → string → list KeyValue).
Context (reducef : string → list string → string).
Context (files : list string) (fs0 : FS) (n : Z).
Implicit Types (fs : FS) (X Y : Z).

(** what map task [X] (numbered from 1) emits, and its part for bucket [Y] *)
Definition kvsOf X : list KeyValue :=
  if 1 <=? X then
    match files !! Z.to_nat (X - 1) with
    | Some f => mapf f (default ""%string (fs0 !! f))
    | None => []
    end
  else [].
Definition region X Y : list KeyValue := bucket n Y (kvsOf X).

(** everything the map tasks emit *)
Definition emitted : list KeyValue := mjoin (kvsOf <$> seqZ 1 (len files)).

(** the map tasks that emit something for bucket [Y] *)
Definition needed Y : list Z := filter (λ X, region X Y ≠ []) (seqZ 1 (len files)).

(** A job the program is meant for: at least one bucket, different input files that
    exist and do not have the name of an intermediate or output file, and emitted
    strings that JSON can carry. *)
Record job_ok : Prop := {
  jo_buckets : 0 < n;
  jo_nodup : NoDup files;
  jo_present : ∀ f, f ∈ files → is_Some (fs0 !! f);
  jo_names : ∀ f, f ∈ files → (∀ X Y, f ≠ NumberToStr X Y) ∧ (∀ Y, f ≠ outName Y);
  jo_valid : ∀ X, Forall json_valid (kvsOf X);
}.

Definition fileOf X (f : string) : Prop := 1 ≤ X ∧ files !! Z.to_nat (X - 1) = Some f.

Lemma region_fileOf X Y : region X Y ≠ [] → ∃ f, fileOf X f.
Proof.
  unfold region, kvsOf, fileOf. destruct (Z.leb_spec 1 X); [|done].
  destruct (files !! Z.to_nat (X - 1)) as [f|]; [eauto|done].
Qed.

Lemma fileOf_range X f : fileOf X f → 1 ≤ X ≤ len files.
Proof. intros [? ?%lookup_lt_Some]. unfold len. lia. Qed.

Lemma elem_of_needed X Y : X ∈ needed Y ↔ region X Y ≠ [].
Proof.
  unfold needed. rewrite list_elem_of_filter, elem_of_seqZ. split; [tauto|].
  intros H. split; [done|]. destruct (region_fileOf _ _ H) as (f & Hf%fileOf_range). lia.
Qed.

Lemma needed_NoDup Y : NoDup (needed Y).
Proof. apply NoDup_filter, NoDup_seqZ. Qed.

(** the files of a bucket carry the bucket *)
Lemma needed_join Y : mjoin ((λ X, region X Y) <$> needed Y) = bucket n Y emitted.
Proof.
  unfold needed, emitted, region. generalize (seqZ 1 (len files)). intros Xs.
  induction Xs as [|X Xs IH]; [done|].
  rewrite filter_cons, fmap_cons, join_cons. unfold bucket in *. rewrite filter_app.
  case_decide as Hd; rewrite ?fmap_cons, ?join_cons, IH; [done|].
  by rewrite Hd.
Qed.

Lemma emitted_files :
  emitted = mjoin ((λ f, mapf f (default ""%string (fs0 !! f))) <$> files).
Proof.
  unfold emitted. f_equal. apply list_eq. intros i.
  rewrite !list_lookup_fmap. destruct (files !! i) as [f|] eqn:E.
  - pose proof (lookup_lt_Some _ _ _ E). rewrite lookup_seqZ_lt by (unfold len; lia).
    unfold kvsOf. simpl. rewrite (proj2 (Z.leb_le _ _)) by lia.
    replace (Z.to_nat (1 + Z.of_nat i - 1)) with i by lia. by rewrite E.
  - apply lookup_ge_None in E. rewrite lookup_seqZ_ge by (unfold len; lia). done.
Qed.

Lemma mapFiles_emitted : job_ok → mapFiles mapf files fs0 [] = Some emitted.
Proof.
  intros Hok. unfold emitted.
  enough (∀ k l acc, drop k files = l →
    mapFiles mapf l fs0 acc = Some (acc ++ mjoin (kvsOf <$> seqZ (Z.of_nat k + 1) (len l)))) as H
    by (apply (H 0%nat files []); done).
  intros k l. revert k. induction l as [|f l IH]; intros k acc Hl.
  { simpl. by rewrite app_nil_r. }
  assert (files !! k = Some f) as Hf.
  { rewrite <-(Nat.add_0_r k), <-lookup_drop, Hl. done. }
  destruct (jo_present Hok f) as [c Hc]; [by eapply list_elem_of_lookup_2|].
  assert (drop (S k) files = l) as Hl' by (by rewrite <-Nat.add_1_r, <-drop_drop, Hl).
  simpl. rewrite Hc. simpl. rewrite (IH (S k)) by done. f_equal.
  rewrite (seqZ_cons (Z.of_nat k + 1)) by (unfold len; simpl; lia).
  rewrite fmap_cons, join_cons, <-app_assoc. f_equal. f_equal.
  - unfold kvsOf. rewrite (proj2 (Z.leb_le _ _)) by lia.
    replace (Z.to_nat (Z.of_nat k + 1 - 1)) with k by lia. by rewrite Hf, Hc.
  - do 3 f_equal; unfold len; simpl; lia.
Qed.

(** ** Names *)

Lemma outName_ne X Y Y' : 0 ≤ X → outName Y' ≠ NumberToStr X Y.
Proof.
  intros HX H. unfold outName, NumberToStr in H. simpl in H. injection H as H.
  apply (dash_split "out" (Itoa X) (Itoa (Y' - 1)) (Itoa Y)) in H as [H _];
    [|done|by apply Itoa_noDash].
  destruct (decide (X = 0)) as [->|]; [done|].
  destruct (Itoa_pos X) as (p & E & _); [lia|]. rewrite E in H.
  pose proof (proj2 (pretty_go_spec (N.pos p) "")) as Hd. by rewrite <-H in Hd.
Qed.

Lemma outName_inj Y Y' : outName Y = outName Y' → Y = Y'.
Proof.
  unfold outName, Itoa. intros H. apply (inj (String.append _)), pretty.pretty_Z_inj in H. lia.
Qed.

(** ** Workers *)

Lemma regions_spec l : ∀ rm, 0 < n →
  ∃ rm', regions n l rm = Ret rm' ∧
    ∀ Y, rm' !! Y = match bucket n Y l with
                    | [] => rm !! Y
                    | r => Some (default [] (rm !! Y) ++ r)
                    end.
Proof.
  induction l as [|kv l IH]; intros rm Hn; [by exists rm|].
  simpl. rewrite (proj2 (Z.eqb_neq _ _)) by lia.
  destruct (IH (<[bucketOf n (Key kv) := default [] (rm !! bucketOf n (Key kv)) ++ [kv]]> rm) Hn)
    as (rm' & E & H).
  exists rm'. split; [done|]. intros Y. rewrite H. unfold bucket. rewrite filter_cons.
  case_decide as Hd; [subst|by rewrite lookup_insert_ne].
  rewrite lookup_insert_eq. simpl. destruct (filter _ l); [done|]. by rewrite <-app_assoc.
Qed.

(** every error is one that the worker looks at *)
Definition honest (io : string → ioFate) : Prop := ∀ f, io f = Written ∨ io f = Refused.

Lemma writeRegions_spec io X order : ∀ fs nums fs' r,
  honest io → 0 ≤ X → NoDup order.*1 → writeRegions io X order fs nums = (fs', r) →
  (∀ name, fs' !! name = fs !! name
     ∨ ∃ Y kvs, (Y, kvs) ∈ order ∧ name = NumberToStr X Y
                ∧ fs' !! name = Some (json_Marshal kvs))
  ∧ ∀ ns, r = Some ns → ns = nums ++ order.*1
     ∧ ∀ Y kvs, (Y, kvs) ∈ order → fs' !! NumberToStr X Y = Some (json_Marshal kvs).
Proof.
  induction order as [|[Y kvs] order IH]; intros fs nums fs' r Hio HX Hnd H; simpl in *.
  { simplify_eq. split; [auto|]. intros ns [= <-]. rewrite app_nil_r. split; [done|].
    by intros ? ? ?%elem_of_nil. }
  apply NoDup_cons in Hnd as [Hni Hnd]. 
  destruct (Hio (NumberToStr X Y)) as [Ei|Ei]; rewrite Ei in H.
  2: { simplify_eq. split; [auto|done]. }
  destruct (IH _ _ _ _ Hio HX Hnd H) as [H1 H2].
  assert (fs' !! NumberToStr X Y = Some (json_Marshal kvs)) as HY.
  { destruct (H1 (NumberToStr X Y)) as [->|(Y' & kvs' & Hin & Heq & _)];
      [by rewrite lookup_insert_eq|].
    apply NumberToStr_inj in Heq as [_ <-]; [|done..].
    exfalso. apply Hni, list_elem_of_fmap. by exists (Y, kvs'). }
  split.
  - intros name. destruct (H1 name) as [Heq|(Y' & kvs' & Hin & ? & ?)].
    + destruct (decide (name = NumberToStr X Y)) as [->|Hne].
      * right. exists Y, kvs. split_and!; [by left|done|done].
      * left. by rewrite Heq, lookup_insert_ne.
    + right. exists Y', kvs'. split_and!; [by right|done|done].
  - intros ns Hns. destruct (H2 ns Hns) as [-> H3]. rewrite <-app_assoc. split; [done|].
    intros Y' kvs' [[= -> ->]|Hin]%elem_of_cons; [done|by apply H3].
Qed.

Hypothesis Hok : job_ok.

(** a run of the map function: it may emit its pairs in another order each time (a
    Go map is ranged over in a random order) *)
Definition mapRun (mapf' : string → string → list KeyValue) : Prop :=
  ∀ f c, mapf' f c ≡ₚ mapf f c.

(** the intermediate file of [X] and [Y] is there *)
Definition stored fs X Y : Prop :=
  ∃ kvs, fs !! NumberToStr X Y = Some (json_Marshal kvs) ∧ kvs ≡ₚ region X Y.

(** the output file of bucket [Y] holds its lines *)
Definition outGood fs Y : Prop :=
  ∃ ls, fs !! outName Y = Some (concatLines ls)
        ∧ ls ≡ₚ reduceSpec reducef (bucket n Y emitted).

(** the changes a worker makes to the directory: files of a map task or an output *)
Definition dirStep fs fs' : Prop :=
  ∀ name, fs' !! name = fs !! name
    ∨ (∃ X Y, 1 ≤ X ∧ name = NumberToStr X Y ∧ stored fs' X Y)
    ∨ (∃ Y, name = outName Y ∧ outGood fs' Y).

Lemma dirStep_stored fs fs' X Y : dirStep fs fs' → 1 ≤ X → stored fs X Y → stored fs' X Y.
Proof.
  intros Hd HX Hs. unfold stored.
  destruct (Hd (NumberToStr X Y)) as [->|[(X' & Y' & HX' & Heq & Hs')|(Y' & Heq & _)]]; [done| |].
  - apply NumberToStr_inj in Heq as [-> ->]; [done|lia..].
  - symmetry in Heq. apply outName_ne in Heq; [done|lia].
Qed.

Lemma dirStep_out fs fs' Y : dirStep fs fs' → outGood fs Y → outGood fs' Y.
Proof.
  intros Hd Hg. destruct (Hd (outName Y)) as [Heq|[(X' & Y' & HX' & Heq & _)|(Y' & Heq & Hg')]].
  - destruct Hg as (ls & ? & ?). exists ls. by rewrite Heq.
  - apply outName_ne in Heq; [done|lia].
  - by apply outName_inj in Heq as ->.
Qed.

Lemma dirStep_input fs fs' f : dirStep fs fs' → f ∈ files → fs' !! f = fs !! f.
Proof.
  intros Hd Hf. destruct (jo_names Hok f Hf) as [Hn Ho].
  destruct (Hd f) as [->|[(X' & Y' & HX' & Heq & _)|(Y' & Heq & _)]]; [done| |].
  - by apply Hn in Heq.
  - by apply Ho in Heq.
Qed.

(** a finished map task: its files are there and it reports its buckets *)
Definition mapReport fs (ts : list FinishTask) : Prop :=
  ∃ X f nums, ts = [mkFinishTask f X nums] ∧ fileOf X f
    ∧ (∀ Y, Y ∈ nums ↔ region X Y ≠ []) ∧ (∀ Y, region X Y ≠ [] → stored fs X Y).

Lemma doMap_ok mapf' io iter X f fs fs' r :
  mapRun mapf' → honest io → (∀ t rm, iter t rm ≡ₚ map_to_list rm) → fileOf X f →
  fs !! f = fs0 !! f →
  doMap mapf' io iter n [mkAssignTask f X] fs [] = Ret (fs', r) →
  dirStep fs fs' ∧ (∀ ts, r = Some ts → mapReport fs' ts).
Proof.
  intros Hrun Hio Hiter [HX Hf] Hfs H. destruct (jo_present Hok f) as [c Hc];
    [by eapply list_elem_of_lookup_2|]. simpl in H. unfold readFile in H.
  destruct (Hio f) as [Ei|Ei]; rewrite Ei in H.
  2: { simplify_eq. split; [by left|done]. }
  rewrite Hfs, Hc in H. simpl in H.
  destruct (regions_spec (mapf' f c) ∅ (jo_buckets Hok)) as (rm & E & Hrm).
  rewrite E in H. simpl in H.
  assert (∀ Y, bucket n Y (mapf' f c) ≡ₚ region X Y) as Hreg.
  { intros Y. unfold region, kvsOf. rewrite (proj2 (Z.leb_le 1 X) HX), Hf, Hc. simpl.
    unfold bucket. by rewrite (Hrun f c). }
  assert (∀ Y kvs, (Y, kvs) ∈ iter (mkAssignTask f X) rm
                   ↔ kvs = bucket n Y (mapf' f c) ∧ kvs ≠ []) as Hin.
  { intros Y kvs. rewrite (Hiter _ rm), elem_of_map_to_list, Hrm, lookup_empty. simpl.
    destruct (bucket n Y (mapf' f c)) as [|kv l]; simpl; naive_solver. }
  assert (∀ Y, region X Y ≠ [] ↔ bucket n Y (mapf' f c) ≠ []) as Hne.
  { intros Y. specialize (Hreg Y). split; intros H1 H2; rewrite H2 in Hreg.
    - by apply Permutation_nil_l in Hreg.
    - by apply Permutation_nil_r in Hreg. }
  assert (NoDup (iter (mkAssignTask f X) rm).*1) as Hnd
    by (rewrite (Hiter _ rm); apply NoDup_fst_map_to_list).
  destruct (writeRegions io X (iter (mkAssignTask f X) rm) fs []) as [fs1 r1] eqn:Ew.
  destruct (writeRegions_spec io X _ fs [] fs1 r1 Hio ltac:(lia) Hnd Ew) as [Hd Hr].
  assert (dirStep fs fs1) as Hd1.
  { intros name. destruct (Hd name) as [|(Y & kvs & Hi & -> & Hl)]; [by left|right; left].
    apply Hin in Hi as [-> _]. exists X, Y. split_and!; [lia|done|]. eexists; eauto. }
  destruct r1 as [nums|]; simplify_eq; [|done]. split; [done|]. intros ts [= <-].
  destruct (Hr nums eq_refl) as [-> Hst]. exists X, f, (iter (mkAssignTask f X) rm).*1.
  split_and!; [done|done| |].
  - intros Y. rewrite list_elem_of_fmap, Hne. split.
    + intros ([Y' kvs] & -> & Hi). apply Hin in Hi as [-> ?]. done.
    + intros HY. exists (Y, bucket n Y (mapf' f c)). split; [done|]. by apply Hin.
  - intros Y HY%Hne. eexists. split; [by apply Hst, Hin|done].
Qed.

(** the files of bucket [Y], in some order *)
Definition bucketTasks Y (tasks : list AssignTask) : Prop :=
  needed Y ≠ [] ∧ ∃ Xs, Xs ≡ₚ needed Y
    ∧ tasks = (λ X, mkAssignTask (NumberToStr X Y) Y) <$> Xs.

(** a finished reduce task: its output is there *)
Definition reduceReport fs (ts : list FinishTask) : Prop :=
  ∃ Y Xs, needed Y ≠ [] ∧ Xs ≡ₚ needed Y ∧ outGood fs Y
    ∧ ts = (λ X, mkFinishTask (NumberToStr X Y) Y [Y]) <$> Xs.

Lemma readAll_spec io Y Xs fs : ∀ l fin,
  (∀ X, X ∈ Xs → stored fs X Y) → (∀ X, X ∈ Xs → io (NumberToStr X Y) = Written) →
  ∃ kvs, readAll io ((λ X, mkAssignTask (NumberToStr X Y) Y) <$> Xs) fs l fin
    = Some (l ++ kvs, fin ++ ((λ X, mkFinishTask (NumberToStr X Y) Y [Y]) <$> Xs))
    ∧ kvs ≡ₚ mjoin ((λ X, region X Y) <$> Xs).
Proof.
  induction Xs as [|X Xs IH]; intros l fin Hs Hio; simpl; [exists []; by rewrite !app_nil_r|].
  destruct (Hs X) as (kvs & Hst & Hp); [by left|].
  assert (Forall json_valid kvs) as Hv.
  { rewrite Hp. apply Forall_forall. intros kv [_ Hin]%list_elem_of_filter.
    pose proof (jo_valid Hok X) as Hv. rewrite Forall_forall in Hv. by apply Hv. }
  unfold readFile at 1. rewrite (Hio X), Hst by (by left). simpl.
  rewrite json_roundtrip by done. simpl.
  destruct (IH (l ++ kvs) (fin ++ [mkFinishTask (NumberToStr X Y) Y [Y]])) as (kvs' & E & Hp');
    [intros X' HX'; apply Hs; by right|intros X' HX'; apply Hio; by right|].
  exists (kvs ++ kvs'). rewrite <-!app_assoc in E. split; [exact E|]. by rewrite Hp, Hp'.
Qed.

Hypothesis reducef_perm : ∀ k vs vs', vs ≡ₚ vs' → reducef k vs = reducef k vs'.

(** a file that cannot be read ends the task *)
Lemma readAll_refused io Y Xs fs : ∀ l fin,
  (∃ X, X ∈ Xs ∧ io (NumberToStr X Y) = Refused) →
  readAll io ((λ X, mkAssignTask (NumberToStr X Y) Y) <$> Xs) fs l fin = None.
Proof.
  induction Xs as [|X Xs IH]; intros l fin (X' & Hin & HX'); [by apply elem_of_nil in Hin|].
  simpl. apply elem_of_cons in Hin as [->|Hin]; [unfold readFile; by rewrite HX'|].
  destruct (readFile io fs _); simpl; [|done]. destruct (json_Unmarshal _); simpl; [|done].
  apply IH. eauto.
Qed.

Lemma doReduce_ok io Y tasks fs fs' r :
  honest io → bucketTasks Y tasks → (∀ X, region X Y ≠ [] → stored fs X Y) →
  doReduce reducef io tasks fs = Ret (fs', r) →
  dirStep fs fs' ∧ (∀ ts, r = Some ts → reduceReport fs' ts).
Proof.
  intros Hio (Hne & Xs & Hp & ->) Hst H. unfold doReduce in H.
  destruct (decide (Exists (λ X, io (NumberToStr X Y) = Refused) Xs)) as [Hex|Hall].
  { apply Exists_exists in Hex. rewrite readAll_refused in H by done. simplify_eq.
    split; [by left|done]. }
  destruct (readAll_spec io Y Xs fs [] []) as (kvs & Er & Hkvs);
    [intros X HX; apply Hst; rewrite Hp in HX; by apply elem_of_needed| |].
  { intros X HX. destruct (Hio (NumberToStr X Y)) as [|Hr]; [done|]. destruct Hall.
    apply Exists_exists. eauto. }
  rewrite Er in H. clear Er.
  assert (∃ t, idx ((λ X, mkAssignTask (NumberToStr X Y) Y) <$> Xs) 0 = Ret t
               ∧ at_TaskId t = Y) as (t & Et & Ht).
  { destruct Xs as [|X0 Xs]; [by apply Permutation_nil_l in Hp|by eexists]. }
  rewrite Et in H. simpl in H. rewrite Ht in H. clear t Et Ht.
  assert (kvs ≡ₚ bucket n Y emitted) as Hb
    by (rewrite <-needed_join, Hkvs; by rewrite Hp).
  destruct (Hio (outName Y)) as [Ei|Ei]; rewrite Ei in H; simplify_eq.
  2: { split; [intros name; by left|done]. }
  match goal with |- dirStep fs ?f ∧ _ => assert (outGood f Y) as Hg end.
  { eexists. split; [by rewrite lookup_insert_eq|].
    apply outputOf_perm; [done|]. by rewrite <-Hb. }
  split.
  - intros name. destruct (decide (name = outName Y)) as [->|]; [eauto|].
    left. by rewrite lookup_insert_ne.
  - intros ts [= <-]. by exists Y, Xs.
Qed.

(** ** The steps of a job *)

(** the master, the directory, the tasks handed out so far and the reports sent *)
Record Job := mkJob {
  ms : Master; dir : FS; assigned : list (Z * list AssignTask); reports : list FinishedRequest }.

Definition handOut (ty : Z) (tasks : list AssignTask) (a : list (Z * list AssignTask)) :=
  match tasks with [] => a | _ => (ty, tasks) :: a end.

Inductive astep : Job → Job → Prop :=
| as_getMap m d a rs order m' tasks :
    order ≡ₚ map_to_list (mapTask m) → GetTask_map order m = (m', tasks) →
    astep (mkJob m d a rs) (mkJob m' d (handOut MAP_TASK tasks a) rs)
| as_getReduce m d a rs buckets order m' tasks :
    isMapDone m = true → buckets ≡ₚ map_to_list (reduceBucket m) →
    order ≡ₚ map_to_list (reduceTask m) → GetTask_reduce buckets order m = (m', tasks) →
    astep (mkJob m d a rs) (mkJob m' d (handOut REDUCE_TASK tasks a) rs)
| as_work m d a rs ty tasks mapf' io iter d' req :
    (ty, tasks) ∈ a → mapRun mapf' → honest io → (∀ t rm, iter t rm ≡ₚ map_to_list rm) →
    DoWork_switch mapf' reducef io iter (mkTaskResponse ty tasks 0 (nReduce m)) d = Ret (d', req) →
    astep (mkJob m d a rs) (mkJob m d' a (req :: rs))
| as_report m d a rs req m' resp :
    req ∈ rs → TaskFinished id id req m = Ret (m', resp) →
    astep (mkJob m d a rs) (mkJob m' d a rs)
| as_recover m d a rs ty tasks m' :
    (ty, tasks) ∈ a → recoverRequest tasks ty m = Ret m' →
    astep (mkJob m d a rs) (mkJob m' d a rs).

Inductive areach : Job → Prop :=
| ar_init : areach (mkJob (MakeMaster files n) fs0 [] [])
| ar_step j j' : areach j → astep j j' → areach j'.

(** *** The invariant *)

Record master_inv (m : Master) (d : FS) : Prop := {
  i_n : nReduce m = n;
  i_input : ∀ f, f ∈ files → d !! f = fs0 !! f;
  i_map : ∀ f v, mapTask m !! f = Some v → ∃ X, fileOf X f ∧ (v = X ∨ v = - X);
  (* a map task that is gone has left its files, and until the map phase ends their
     reduce tasks wait to be handed out *)
  i_mapped : ∀ X f, fileOf X f → mapTask m !! f = None → ∀ Y, region X Y ≠ [] →
    stored d X Y ∧ (isMapDone m = false →
      is_Some (reduceTask m !! NumberToStr X Y));
  i_done : isMapDone m = true → mapTask m = ∅;
  i_task : ∀ name v, reduceTask m !! name = Some v →
    ∃ X Y b, name = NumberToStr X Y ∧ region X Y ≠ [] ∧ (v = Y ∨ v = - Y)
             ∧ reduceBucket m !! Y = Some b ∧ (b = true → v = Y);
  i_bucket : ∀ Y b, reduceBucket m !! Y = Some b →
    needed Y ≠ [] ∧ (isMapDone m = false → b = true);
  (* in the reduce phase a bucket is unfinished with all its files, or finished *)
  i_phase : isMapDone m = true → ∀ Y, needed Y ≠ [] →
    (is_Some (reduceBucket m !! Y)
     ∧ ∀ X, region X Y ≠ [] → is_Some (reduceTask m !! NumberToStr X Y))
    ∨ (reduceBucket m !! Y = None ∧ outGood d Y);
  i_reduceDone : isReduceDone m = true → isMapDone m = true ∧ reduceTask m = ∅;
}.

Definition assigned_ok (m : Master) (ty : Z) (tasks : list AssignTask) : Prop :=
  (ty = MAP_TASK ∧ ∃ X f, tasks = [mkAssignTask f X] ∧ fileOf X f)
  ∨ (ty = REDUCE_TASK ∧ isMapDone m = true ∧ ∃ Y, bucketTasks Y tasks).

Definition report_ok (m : Master) (d : FS) (req : FinishedRequest) : Prop :=
  (FinishedType req = MAP_TASK ∧ mapReport d (fr_Tasks req))
  ∨ (FinishedType req = REDUCE_TASK ∧ isMapDone m = true ∧ reduceReport d (fr_Tasks req))
  ∨ (FinishedType req ≠ MAP_TASK ∧ FinishedType req ≠ REDUCE_TASK ∧ fr_Tasks req = []).

Record mr_inv (j : Job) : Prop := {
  j_master : master_inv (ms j) (dir j);
  j_assigned : ∀ ty tasks, (ty, tasks) ∈ assigned j → assigned_ok (ms j) ty tasks;
  j_report : ∀ req, req ∈ reports j → report_ok (ms j) (dir j) req;
}.

(** folds over the maps *)
Lemma foldl_insert_lookup {A K V} `{Countable K} (kf : A → K) (vf : A → V) l (m : gmap K V) k :
  (∃ t, t ∈ l ∧ kf t = k ∧ foldl (λ m t, <[kf t := vf t]> m) m l !! k = Some (vf t))
  ∨ ((∀ t, t ∈ l → kf t ≠ k) ∧ foldl (λ m t, <[kf t := vf t]> m) m l !! k = m !! k).
Proof.
  revert m. induction l as [|t l IH]; intros m; simpl.
  { right. split; [by intros ? ?%elem_of_nil|done]. }
  destruct (IH (<[kf t := vf t]> m)) as [(t' & ? & ? & ?)|[Hn ->]].
  { left. exists t'. split_and!; [by right|done|done]. }
  destruct (decide (kf t = k)) as [<-|Hne].
  - left. exists t. rewrite lookup_insert_eq. split_and!; [by left|done|done].
  - right. rewrite lookup_insert_ne by done. split; [|done].
    by intros t' [->|?]%elem_of_cons; auto.
Qed.

Lemma foldl_delete_lookup {A K V} `{Countable K} (kf : A → K) l (m : gmap K V) k :
  ((∃ t, t ∈ l ∧ kf t = k) ∧ foldl (λ m t, delete (kf t) m) m l !! k = None)
  ∨ ((∀ t, t ∈ l → kf t ≠ k) ∧ foldl (λ m t, delete (kf t) m) m l !! k = m !! k).
Proof.
  revert m. induction l as [|t l IH]; intros m; simpl.
  { right. split; [by intros ? ?%elem_of_nil|done]. }
  destruct (IH (delete (kf t) m)) as [[(t' & ? & ?) ?]|[Hn ->]].
  { left. split; [|done]. exists t'. split; [by right|done]. }
  destruct (decide (kf t = k)) as [<-|Hne].
  - left. rewrite lookup_delete_eq. split; [|done]. exists t. split; [by left|done].
  - right. rewrite lookup_delete_ne by done. split; [|done].
    by intros t' [->|?]%elem_of_cons; auto.
Qed.

Lemma needed_range Y : needed Y ≠ [] → 1 ≤ Y ≤ n.
Proof.
  intros Hne. destruct (needed Y) as [|X Xs] eqn:E; [done|].
  assert (region X Y ≠ []) as Hr by (apply elem_of_needed; rewrite E; by left).
  unfold region, bucket in Hr. destruct (filter _ (kvsOf X)) as [|kv l] eqn:Ef; [done|].
  assert (kv ∈ kv :: l) as Hin by (by left). rewrite <-Ef in Hin.
  apply list_elem_of_filter in Hin as [<- _].
  by apply (bucketOf_range n (Key kv) (jo_buckets Hok)).
Qed.

Lemma needed_pos Y : needed Y ≠ [] → 0 < Y.
Proof. intros ?%needed_range. lia. Qed.

Lemma region_needed X Y : region X Y ≠ [] → needed Y ≠ [].
Proof. intros H%elem_of_needed E. rewrite E in H. by apply elem_of_nil in H. Qed.

Lemma region_pos X Y : region X Y ≠ [] → 1 ≤ X.
Proof. intros (f & H & _)%region_fileOf. done. Qed.

(** reports and assignments stay good *)
Lemma assigned_mono m m' ty tasks :
  (isMapDone m = true → isMapDone m' = true) → assigned_ok m ty tasks → assigned_ok m' ty tasks.
Proof. unfold assigned_ok. naive_solver. Qed.

Lemma report_mono m m' d d' req :
  (isMapDone m = true → isMapDone m' = true) → dirStep d d' →
  report_ok m d req → report_ok m' d' req.
Proof.
  intros Hm Hd [[Ht (X & f & nums & ? & Hf & ? & Hs)]|[(Ht & ? & Y & Xs & ? & ? & ? & ?)|?]].
  - left. split; [done|]. exists X, f, nums. split_and!; try done.
    intros Y HY. eapply dirStep_stored; [done|apply Hf|auto].
  - right; left. split_and!; auto. exists Y, Xs. split_and!; try done. by eapply dirStep_out.
  - by right; right.
Qed.

Lemma dirStep_refl d : dirStep d d.
Proof. intros name. by left. Qed.

Lemma inv_master_step j m' :
  mr_inv j → (isMapDone (ms j) = true → isMapDone m' = true) → master_inv m' (dir j) →
  mr_inv (mkJob m' (dir j) (assigned j) (reports j)).
Proof.
  intros [H1 H2 H3] Hm H. split; simpl; [done| |].
  - intros ty tasks Hin. eapply assigned_mono; eauto.
  - intros req Hin. eapply report_mono; eauto using dirStep_refl.
Qed.

(** *** Start *)

Lemma numberFiles_lookup : ∀ l i mt f v,
  numberFiles i l mt !! f = Some v →
  mt !! f = Some v ∨ ∃ k, l !! k = Some f ∧ v = i + Z.of_nat k + 1.
Proof.
  induction l as [|g l IH]; intros i mt f v; simpl; [auto|].
  intros [H|(k & Hk & ->)]%IH.
  - apply lookup_insert_Some in H as [[<- <-]|[_ ?]]; [|auto].
    right. exists 0%nat. split; [done|lia].
  - right. exists (S k). split; [done|lia].
Qed.

Lemma numberFiles_None : ∀ l i mt f, numberFiles i l mt !! f = None → (f ∉ l) ∧ mt !! f = None.
Proof.
  induction l as [|g l IH]; intros i mt f; simpl; [intros; split; [apply not_elem_of_nil|done]|].
  intros [H1 H2]%IH. apply lookup_insert_None in H2 as [H2 H3].
  split; [|done]. apply not_elem_of_cons. auto.
Qed.

Lemma inv_init : mr_inv (mkJob (MakeMaster files n) fs0 [] []).
Proof.
  split; simpl; [|by intros ? ? ?%elem_of_nil|by intros ? ?%elem_of_nil].
  split; simpl; try done.
  - intros f v [?|(k & Hk & ->)]%numberFiles_lookup; [done|].
    exists (Z.of_nat k + 1). split; [|left; lia]. split; [lia|].
    by replace (Z.to_nat (Z.of_nat k + 1 - 1)) with k by lia.
  - intros X f [_ Hf] [Hni _]%numberFiles_None. by apply list_elem_of_lookup_2 in Hf.
Qed.

(** *** Handing out *)

Lemma firstReady_spec order f num :
  firstReady order = Some (f, num) → (f, num) ∈ order ∧ 0 < num.
Proof.
  induction order as [|[g k] order IH]; simpl; [done|].
  destruct (Z.ltb_spec 0 k).
  - intros [= -> ->]. split; [by left|done].
  - intros [? ?]%IH. split; [by right|done].
Qed.

Lemma inv_getMap m d a rs order m' tasks :
  mr_inv (mkJob m d a rs) → order ≡ₚ map_to_list (mapTask m) →
  GetTask_map order m = (m', tasks) → mr_inv (mkJob m' d (handOut MAP_TASK tasks a) rs).
Proof.
  intros Hinv Hord H. unfold GetTask_map in H.
  destruct (isMapDone m) eqn:Hdone; [by simplify_eq|].
  destruct (firstReady order) as [[f num]|] eqn:Ef; [|by simplify_eq]. simplify_eq.
  apply firstReady_spec in Ef as [Hin Hpos]. rewrite Hord in Hin.
  apply elem_of_map_to_list in Hin. pose proof Hinv as [Hm Ha _]. simpl in *.
  destruct (i_map _ _ Hm _ _ Hin) as (X & HX & HXn). pose proof (proj1 HX).
  assert (num = X) as -> by lia.
  destruct (inv_master_step _ (set_mapTask (<[f := - X]> (mapTask m)) m) Hinv) as [H1 H2 H3];
    simpl; [done| |].
  - destruct Hm. split; simpl; try done.
    + intros g v [[<- <-]|[_ Hg]]%lookup_insert_Some; [|by apply i_map0]. exists X. auto.
    + intros X' g Hg [Hn Hne]%lookup_insert_None. by eapply i_mapped0.
    + congruence.
  - split; simpl; [done| |done].
    intros ty ts [[= -> ->]|Hts]%elem_of_cons; [|by apply H2]. left. split; [done|]. eauto.
Qed.

Lemma firstBucket_spec order :
  0 < firstBucket order → (firstBucket order, true) ∈ order.
Proof.
  induction order as [|[g k] order IH]; simpl; [lia|].
  destruct k; [by left|]. intros. right. auto.
Qed.

Lemma elem_of_filesOf Y order t :
  t ∈ filesOf Y order ↔ at_TaskId t = Y ∧ (at_FileName t, Y) ∈ order.
Proof.
  induction order as [|[f k] order IH]; simpl.
  { split; [by intros ?%elem_of_nil|by intros [_ ?%elem_of_nil]]. }
  destruct (Z.eqb_spec k Y) as [->|Hne]; rewrite !elem_of_cons, ?IH.
  - destruct t as [g k]. simpl. naive_solver.
  - naive_solver.
Qed.

Lemma filesOf_NoDup Y order : NoDup order.*1 → NoDup (filesOf Y order).
Proof.
  induction order as [|[f k] order IH]; simpl; [intros _; apply NoDup_nil_2|].
  intros [Hni Hnd]%NoDup_cons. destruct (k =? Y); [|by apply IH].
  apply NoDup_cons. split; [|by apply IH]. rewrite elem_of_filesOf. simpl.
  intros [-> Hin]. apply Hni, list_elem_of_fmap. by exists (f, Y).
Qed.

(** the files handed out for a bucket are all its files *)
Lemma filesOf_bucket m d Y order :
  master_inv m d → isMapDone m = true → reduceBucket m !! Y = Some true →
  order ≡ₚ map_to_list (reduceTask m) → bucketTasks Y (filesOf Y order).
Proof.
  intros Hm Hdone Hb Hord. pose proof (proj1 (i_bucket _ _ Hm _ _ Hb)) as Hne.
  split; [done|]. pose proof (needed_pos _ Hne) as HY.
  assert (filesOf Y order ≡ₚ (λ X, mkAssignTask (NumberToStr X Y) Y) <$> needed Y) as Hp.
  { apply NoDup_Permutation.
    - apply filesOf_NoDup. rewrite Hord. apply NoDup_fst_map_to_list.
    - apply NoDup_fmap_2_strong; [|apply needed_NoDup].
      intros X X' HX%elem_of_needed%region_pos HX'%elem_of_needed%region_pos Heq.
      apply (f_equal at_FileName) in Heq. cbn [at_FileName] in Heq.
      by apply NumberToStr_inj in Heq as [-> _]; [|lia..].
    - intros [f k]. rewrite elem_of_filesOf, Hord, elem_of_map_to_list, list_elem_of_fmap.
      simpl. split.
      + intros [-> Hf]. destruct (i_task _ _ Hm _ _ Hf) as (X & Y' & b & -> & Hr & Hv & Hb' & _).
        pose proof (needed_pos _ (region_needed _ _ Hr)).
        assert (Y = Y') as <- by lia. exists X. split; [done|]. by apply elem_of_needed.
      + intros (X & [= -> ->] & HX%elem_of_needed). split; [done|].
        destruct (i_phase _ _ Hm Hdone Y Hne) as [[_ Hall]|[Hn _]]; [|congruence].
        destruct (Hall X HX) as [v Hv]. pose proof (region_pos _ _ HX).
        destruct (i_task _ _ Hm _ _ Hv) as (X' & Y' & b & Heq & Hr%region_pos & _ & Hb' & Hbv).
        apply NumberToStr_inj in Heq as [<- <-]; [|lia..].
        rewrite Hv. f_equal. apply Hbv. congruence. }
  apply Permutation_map_inv in Hp as (Xs & -> & Hxs). by exists Xs.
Qed.

Lemma inv_getReduce m d a rs buckets order m' tasks :
  mr_inv (mkJob m d a rs) → isMapDone m = true →
  buckets ≡ₚ map_to_list (reduceBucket m) → order ≡ₚ map_to_list (reduceTask m) →
  GetTask_reduce buckets order m = (m', tasks) →
  mr_inv (mkJob m' d (handOut REDUCE_TASK tasks a) rs).
Proof.
  intros Hinv Hdone Hbs Hord H. unfold GetTask_reduce in H.
  destruct (Z.ltb_spec 0 (firstBucket buckets)) as [Hpos|]; [|by simplify_eq].
  apply firstBucket_spec in Hpos. set (Y := firstBucket buckets) in *.
  rewrite Hbs in Hpos. apply elem_of_map_to_list in Hpos.
  pose proof Hinv as [Hm Ha _]. simpl in *.
  pose proof (filesOf_bucket m d Y order Hm Hdone Hpos Hord) as Hbt.
  injection H as <- <-. unfold assignReduce.
  set (tasks := filesOf Y order) in *. clearbody tasks Y.
  match goal with |- mr_inv (mkJob ?m' _ _ _) =>
    destruct (inv_master_step _ m' Hinv) as [H1 H2 H3]; simpl; [done| |] end.
  - destruct Hm. split; simpl; try done.
    + intros X f Hf Hn Y' Hr. destruct (i_mapped0 X f Hf Hn Y' Hr). split; congruence.
    + intros name v. destruct (foldl_insert_lookup at_FileName (λ t, - at_TaskId t) tasks
        (reduceTask m) name) as [(t & Ht & <- & ->)|[Hn ->]].
      * intros [= <-]. destruct Hbt as (_ & Xs & Hxs & ->).
        apply list_elem_of_fmap in Ht as (X & -> & HX). rewrite Hxs in HX. simpl.
        exists X, Y, false. rewrite lookup_insert_eq.
        split_and!; [done|by apply elem_of_needed|auto|done|done].
      * intros (X & Y' & b & -> & Hr & Hv & Hb & Hbv)%i_task0. exists X, Y', b.
        split_and!; try done. destruct (decide (Y' = Y)) as [->|];
          [|by rewrite lookup_insert_ne]. exfalso.
        destruct Hbt as (_ & Xs & Hxs & ->).
        apply (Hn (mkAssignTask (NumberToStr X Y) Y)); [|done].
        apply list_elem_of_fmap. exists X. split; [done|]. rewrite Hxs. by apply elem_of_needed.
    + intros Y' b [[<- <-]|[_ Hb]]%lookup_insert_Some; [|by apply i_bucket0].
      split; [|congruence]. by eapply i_bucket0.
    + intros _ Y' HY'. destruct (i_phase0 Hdone Y' HY') as [[Hb Hall]|[Hb Hg]].
      * left. split; [destruct (decide (Y' = Y)) as [->|];
          [rewrite lookup_insert_eq; eauto|by rewrite lookup_insert_ne]|].
        intros X Hr. destruct (foldl_insert_lookup at_FileName (λ t, - at_TaskId t) tasks
          (reduceTask m) (NumberToStr X Y')) as [(t & _ & _ & ->)|[_ ->]]; [eauto|auto].
      * right. split; [|done]. rewrite lookup_insert_ne; [done|]. intros ->. congruence.
    + intros Hrd. destruct (i_reduceDone0 Hrd) as [_ Hempty]. exfalso.
      destruct (i_phase0 Hdone Y (proj1 Hbt)) as [[_ Hall]|[? _]]; [|congruence].
      destruct (needed Y) as [|X Xs] eqn:E; [by apply (proj1 Hbt)|].
      destruct (Hall X) as [v Hv]; [apply elem_of_needed; rewrite E; by left|].
      by rewrite Hempty in Hv.
  - destruct tasks as [|t tasks]; simpl; [by split|].
    split; simpl; [done| |done].
    intros ty ts [[= -> ->]|Hts]%elem_of_cons; [|by apply H2]. right. eauto.
Qed.

(** *** Working *)

Lemma inv_work m d a rs ty tasks mapf' io iter d' req :
  mr_inv (mkJob m d a rs) → (ty, tasks) ∈ a → mapRun mapf' → honest io →
  (∀ t rm, iter t rm ≡ₚ map_to_list rm) →
  DoWork_switch mapf' reducef io iter (mkTaskResponse ty tasks 0 (nReduce m)) d = Ret (d', req) →
  mr_inv (mkJob m d' a (req :: rs)).
Proof.
  intros [Hm Ha Hr] Hin Hrun Hio Hiter H. simpl in *. rewrite (i_n _ _ Hm) in H.
  assert (dirStep d d' ∧ report_ok m d' req) as [Hd Hreq].
  { destruct (Ha _ _ Hin) as [(-> & X & f & -> & Hf)|(-> & Hdone & Y & Hbt)];
      unfold DoWork_switch in H; simpl in H; go_step H; destruct a0 as [d1 fin]; simplify_eq.
    - destruct (doMap_ok mapf' io iter X f d d' fin Hrun Hio Hiter Hf) as [Hd Hfin]; [|done|].
      { apply (i_input _ _ Hm). by eapply list_elem_of_lookup_2, (proj2 Hf). }
      split; [done|]. destruct fin as [ts|]; [left|right; right]; split; try done. by apply Hfin.
    - destruct (doReduce_ok io Y tasks d d' fin Hio Hbt) as [Hd Hfin]; [|done|].
      { intros X HX. destruct (region_fileOf _ _ HX) as [f Hf].
        apply (i_mapped _ _ Hm X f Hf); [|done]. by rewrite (i_done _ _ Hm Hdone). }
      split; [done|]. destruct fin as [ts|]; [right; left|right; right]; split; try done.
      split; [done|]. by apply Hfin. }
  split; simpl; [|done|].
  - destruct Hm. split; try done.
    + intros f Hf. rewrite (dirStep_input _ _ _ Hd Hf). auto.
    + intros X f Hf Hn Y Hrg. destruct (i_mapped0 X f Hf Hn Y Hrg). split; [|done].
      eapply dirStep_stored; [done|apply Hf|done].
    + intros Hdone Y HY. destruct (i_phase0 Hdone Y HY) as [?|[? ?]]; [by left|right].
      split; [done|]. by eapply dirStep_out.
  - intros req' [->|Hin']%elem_of_cons; [done|]. eapply report_mono; eauto.
Qed.

(** *** Reports *)

(** the reduce tasks that the report of map task [X] adds *)
Lemma addReduce_lookup X f nums m :
  (∀ Y, Y ∈ nums ↔ region X Y ≠ []) →
  let m' := TaskFinished_addReduce [mkFinishTask f X nums] m in
  (∀ name,
     (∃ Y, name = NumberToStr X Y ∧ region X Y ≠ [] ∧ reduceTask m' !! name = Some Y)
     ∨ ((∀ Y, region X Y ≠ [] → NumberToStr X Y ≠ name)
        ∧ reduceTask m' !! name = reduceTask m !! name))
  ∧ ∀ Y, reduceBucket m' !! Y
         = if decide (region X Y ≠ []) then Some true else reduceBucket m !! Y.
Proof.
  intros Hnums. unfold TaskFinished_addReduce. simpl.
  set (rep := reported [mkFinishTask f X nums]).
  assert (∀ r, r ∈ rep ↔ ∃ Y, r = (NumberToStr X Y, Y) ∧ region X Y ≠ []) as Hrep.
  { intros r. unfold rep, reported. simpl. rewrite app_nil_r, list_elem_of_fmap.
    setoid_rewrite Hnums. naive_solver. }
  split.
  - intros name. destruct (foldl_insert_lookup fst snd rep (reduceTask m) name)
      as [(r & (Y & -> & Hr)%Hrep & <- & E)|[Hn E]]; [left; by exists Y|right].
    split; [|done]. intros Y Hr. apply (Hn (NumberToStr X Y, Y)), Hrep. eauto.
  - intros Y. destruct (foldl_insert_lookup snd (λ _, true) rep (reduceBucket m) Y)
      as [(r & (Y' & -> & Hr)%Hrep & <- & E)|[Hn E]]; [by rewrite decide_True|].
    case_decide as Hd; [|done]. exfalso. apply (Hn (NumberToStr X Y, Y)); [|done].
    apply Hrep. eauto.
Qed.

(** the master after that report *)
Lemma master_mapReport m d X f nums :
  master_inv m d → isMapDone m = false → fileOf X f →
  (∀ Y, Y ∈ nums ↔ region X Y ≠ []) → (∀ Y, region X Y ≠ [] → stored d X Y) →
  master_inv (TaskFinished_addReduce [mkFinishTask f X nums]
                (TaskFinished_map [mkFinishTask f X nums] m).1) d.
Proof.
  intros Hm Hnd Hf Hnums Hst. unfold TaskFinished_map. rewrite Hnd. simpl.
  set (mt := delete f (mapTask m)). set (m1 := if decide _ then _ else _).
  assert (reduceTask m1 = reduceTask m ∧ reduceBucket m1 = reduceBucket m ∧ mapTask m1 = mt
    ∧ nReduce m1 = n ∧ isReduceDone m1 = isReduceDone m
    ∧ (isMapDone m1 = true ↔ mt = ∅)) as (E1 & E2 & E3 & E4 & E5 & E6).
  { subst m1. pose proof (i_n _ _ Hm). case_decide; simpl; rewrite ?Hnd; split_and!; try done;
      naive_solver. }
  destruct (addReduce_lookup X f nums m1 Hnums) as [HT HB]. rewrite E1 in HT. rewrite E2 in HB.
  set (m2 := TaskFinished_addReduce _ m1) in *.
  assert (isMapDone m2 = isMapDone m1 ∧ mapTask m2 = mt ∧ nReduce m2 = n
    ∧ isReduceDone m2 = isReduceDone m) as (F1 & F2 & F3 & F4) by (by split_and!).
  clearbody m2. destruct Hm.
  assert (∀ name v, reduceTask m2 !! name = Some v →
    ∃ X Y, name = NumberToStr X Y ∧ region X Y ≠ [] ∧ v = Y ∧ reduceBucket m2 !! Y = Some true)
    as Htask.
  { intros name v Hv. destruct (HT name) as [(Y & -> & Hr & E)|[_ E]]; rewrite E in Hv.
    - simplify_eq. exists X, v. rewrite HB, decide_True by done. done.
    - destruct (i_task0 _ _ Hv) as (X' & Y' & b & -> & Hr & Hvv & Hb & Hbv).
      exists X', Y'. rewrite HB. destruct (i_bucket0 _ _ Hb) as [_ Hbt].
      specialize (Hbt Hnd). subst b. rewrite Hb. split_and!; auto. by case_decide. }
  assert (∀ X' f', fileOf X' f' → mt !! f' = None → ∀ Y, region X' Y ≠ [] →
    stored d X' Y ∧ is_Some (reduceTask m2 !! NumberToStr X' Y)) as Hmapped.
  { intros X' f' Hf' Hn Y Hr.
    destruct (HT (NumberToStr X' Y)) as [(Y' & Heq & HrY & ->)|[Hno ->]].
    - pose proof (region_pos _ _ Hr). pose proof (proj1 Hf).
      apply NumberToStr_inj in Heq as [-> ->]; [|lia..]. eauto.
    - assert (f' ≠ f) as Hff.
      { intros ->. destruct Hf as [? Hf], Hf' as [? Hf'].
        pose proof (NoDup_lookup _ _ _ _ (jo_nodup Hok) Hf Hf').
        assert (X' = X) as -> by lia. by apply (Hno Y Hr). }
      unfold mt in Hn. rewrite lookup_delete_ne in Hn by done.
      destruct (i_mapped0 X' f' Hf' Hn Y Hr) as [? Ht]. auto. }
  split; rewrite ?F2, ?F3; try done.
  - intros g v [_ Hg]%lookup_delete_Some. by apply i_map0.
  - intros X' f' Hf' Hn Y Hr. destruct (Hmapped X' f' Hf' Hn Y Hr). auto.
  - rewrite F1. apply E6.
  - intros name v (X' & Y & -> & Hr & -> & Hb)%Htask. exists X', Y, true. auto 10.
  - intros Y b. rewrite HB. case_decide as Hd.
    + intros [= <-]. split; [by eapply region_needed|done].
    + intros Hb. destruct (i_bucket0 _ _ Hb). auto.
  - rewrite F1. intros Hdone%E6 Y HY. left.
    assert (∀ X', region X' Y ≠ [] → is_Some (reduceTask m2 !! NumberToStr X' Y)) as Hall.
    { intros X' Hr. destruct (region_fileOf _ _ Hr) as [f' Hf'].
      apply (Hmapped X' f' Hf'); [by rewrite Hdone|done]. }
    split; [|done]. destruct (needed Y) as [|X' Xs] eqn:E; [done|].
    assert (region X' Y ≠ []) as Hr by (apply elem_of_needed; rewrite E; by left).
    destruct (Hall X' Hr) as [v (X2 & Y2 & Heq & Hr2 & _ & Hb)%Htask].
    pose proof (region_pos _ _ Hr). pose proof (region_pos _ _ Hr2).
    apply NumberToStr_inj in Heq as [_ <-]; [|lia..]. eauto.
  - rewrite F4. intros [? _]%i_reduceDone0. congruence.
Qed.

(** the master after the report of the reduce task of bucket [Y] *)
Lemma master_reduceReport m d Y Xs m' :
  master_inv m d → isMapDone m = true → needed Y ≠ [] → Xs ≡ₚ needed Y → outGood d Y →
  TaskFinished_reduce ((λ X, mkFinishTask (NumberToStr X Y) Y [Y]) <$> Xs) m = Ret m' →
  master_inv m' d ∧ isMapDone m' = true.
Proof.
  intros Hm Hdone Hne Hp Hg H. unfold TaskFinished_reduce in H.
  assert (∃ t, idx ((λ X, mkFinishTask (NumberToStr X Y) Y [Y]) <$> Xs) 0 = Ret t
               ∧ ft_TaskId t = Y) as (t & Et & Ht).
  { destruct Xs as [|X0 Xs]; [by apply Permutation_nil_l in Hp|by eexists]. }
  rewrite Et in H. simpl in H. rewrite Ht in H. clear t Et Ht.
  set (ts := (λ X, mkFinishTask (NumberToStr X Y) Y [Y]) <$> Xs) in *.
  set (rt := foldl (λ rt t, delete (ft_FileName t) rt) (reduceTask m) ts) in *.
  assert (∀ name v, rt !! name = Some v → reduceTask m !! name = Some v
    ∧ ∀ X, region X Y ≠ [] → NumberToStr X Y ≠ name) as Hrt.
  { intros name v Hv. unfold rt in Hv.
    destruct (foldl_delete_lookup ft_FileName ts (reduceTask m) name) as [[_ E]|[Hn E]];
      rewrite E in Hv; [done|]. split; [done|]. intros X Hr.
    apply (Hn (mkFinishTask (NumberToStr X Y) Y [Y])). apply list_elem_of_fmap.
    exists X. split; [done|]. rewrite Hp. by apply elem_of_needed. }
  assert (∀ X' Y', Y' ≠ Y → 0 ≤ X' → rt !! NumberToStr X' Y' = reduceTask m !! NumberToStr X' Y')
    as Hother.
  { intros X' Y' HneY HX'. unfold rt.
    destruct (foldl_delete_lookup ft_FileName ts (reduceTask m) (NumberToStr X' Y'))
      as [[(t & Ht & Heq) _]|[_ E]]; [|done]. exfalso.
    apply list_elem_of_fmap in Ht as (X & -> & HX). rewrite Hp in HX.
    apply elem_of_needed, region_pos in HX. cbn [ft_FileName] in Heq.
    apply NumberToStr_inj in Heq as [_ ?]; [done|lia..]. }
  clearbody rt. destruct Hm.
  assert (master_inv (set_reduceTask rt (set_reduceBucket (delete Y (reduceBucket m)) m)) d) as Hm1.
  { split; simpl; try done.
    - intros X f Hf Hn Y' Hr. destruct (i_mapped0 X f Hf Hn Y' Hr). split; congruence.
    - intros name v [Hv Hn]%Hrt. destruct (i_task0 _ _ Hv) as (X & Y' & b & -> & Hr & ? & Hb & ?).
      exists X, Y', b. split_and!; try done. rewrite lookup_delete_ne; [done|].
      intros ->. by apply (Hn X Hr).
    - intros Y' b [_ Hb]%lookup_delete_Some. by apply i_bucket0.
    - intros _ Y' HY'. destruct (decide (Y' = Y)) as [->|HneY].
      { right. by rewrite lookup_delete_eq. }
      rewrite lookup_delete_ne by done.
      destruct (i_phase0 Hdone Y' HY') as [[? Hall]|?]; [left|by right].
      split; [done|]. intros X Hr. pose proof (region_pos _ _ Hr). rewrite Hother by (done || lia).
      auto.
    - intros [_ He]%i_reduceDone0. split; [done|]. apply map_empty. intros name.
      destruct (rt !! name) as [v|] eqn:Ev; [|done]. apply Hrt in Ev as [Ev _].
      by rewrite He in Ev. }
  injection H as <-. case_decide as He; [|done]. simpl in He. subst rt.
  split; [|done]. destruct Hm1. by split.
Qed.

Lemma inv_report m d a rs req m' resp :
  mr_inv (mkJob m d a rs) → req ∈ rs → TaskFinished id id req m = Ret (m', resp) →
  mr_inv (mkJob m' d a rs).
Proof.
  intros Hinv Hin H. pose proof Hinv as [Hm _ Hr]. simpl in *.
  unfold TaskFinished in H. go_step H. simplify_eq.
  destruct (Hr _ Hin) as [[Ht (X & f & nums & Ets & Hf & Hn & Hst)]
    |[(Ht & Hdone & Y & Xs & Hne & Hp & Hg & Ets)|(Hn1 & Hn2 & Ets)]].
  - rewrite Ht in E. simpl in E. rewrite Ets in E.
    destruct (isMapDone m) eqn:Hd.
    { unfold TaskFinished_map in E. rewrite Hd in E. by simplify_eq. }
    pose proof (master_mapReport m d X f nums Hm Hd Hf Hn Hst) as Hm'.
    destruct (TaskFinished_map _ m) as [m1 taken] eqn:Em.
    assert (taken = true) as ->.
    { unfold TaskFinished_map in Em. rewrite Hd in Em. by simplify_eq. }
    simplify_eq. apply (inv_master_step _ _ Hinv); [simpl; congruence|done].
  - rewrite Ht in E. simpl in E. rewrite Ets in E.
    destruct (master_reduceReport m d Y Xs m' Hm Hdone Hne Hp Hg E) as [Hm' Hd'].
    by apply (inv_master_step _ _ Hinv).
  - rewrite (proj2 (Z.eqb_neq _ _) Hn1), (proj2 (Z.eqb_neq _ _) Hn2), Ets in E.
    go_steps E; try done. unfold TaskFinished_mapFail. destruct (isMapDone m); [done|].
    by replace (set_mapTask _ m) with m by by destruct m.
Qed.

(** *** Timers *)

Lemma inv_recover m d a rs ty tasks m' :
  mr_inv (mkJob m d a rs) → (ty, tasks) ∈ a → recoverRequest tasks ty m = Ret m' →
  mr_inv (mkJob m' d a rs).
Proof.
  intros Hinv Hin H. pose proof Hinv as [Hm Ha _]. simpl in *. unfold recoverRequest in H.
  destruct (Ha _ _ Hin) as [(-> & X & f & -> & Hf)|(-> & Hdone & Y & Hne & Xs & Hp & ->)];
    simpl in H.
  - rewrite orb_false_r in H. case_bool_decide as Hs; simplify_eq; [|done].
    apply (inv_master_step _ _ Hinv); [done|]. destruct Hm. split; simpl; try done.
    + intros g v [[<- <-]|[_ Hg]]%lookup_insert_Some; [|by apply i_map0]. exists X. auto.
    + intros X' g Hg [Hn Hne]%lookup_insert_None. by eapply i_mapped0.
    + intros Hd. rewrite (i_done0 Hd) in Hs. by destruct Hs.
  - assert (∃ t, idx ((λ X, mkAssignTask (NumberToStr X Y) Y) <$> Xs) 0 = Ret t
                 ∧ at_TaskId t = Y) as (t & Et & Ht).
    { destruct Xs as [|X0 Xs]; [by apply Permutation_nil_l in Hp|by eexists]. }
    rewrite Et in H. simpl in H. rewrite Ht in H. clear t Et Ht.
    destruct (reduceBucket m !! Y) as [b|] eqn:Eb; simplify_eq; [|done].
    apply (inv_master_step _ _ Hinv); [done|]. destruct Hm.
    set (ts := (λ X, mkAssignTask (NumberToStr X Y) Y) <$> Xs).
    pose proof (foldl_insert_lookup at_FileName at_TaskId ts (reduceTask m)) as HT.
    assert (∀ t, t ∈ ts ↔ ∃ X, t = mkAssignTask (NumberToStr X Y) Y ∧ region X Y ≠ []) as Hts.
    { intros t. unfold ts. rewrite list_elem_of_fmap. setoid_rewrite Hp.
      setoid_rewrite elem_of_needed. done. }
    split; simpl; try done.
    + intros X f Hf Hn Y' Hr. destruct (i_mapped0 X f Hf Hn Y' Hr). split; congruence.
    + intros name v. destruct (HT name) as [(t & (X & -> & Hr)%Hts & <- & ->)|[Hn ->]].
      * intros [= <-]. exists X, Y, true. rewrite lookup_insert_eq. simpl. auto 10.
      * intros (X & Y' & b' & -> & Hr & ? & ? & ?)%i_task0. exists X, Y', b'.
        split_and!; try done. rewrite lookup_insert_ne; [done|]. intros ->.
        apply (Hn (mkAssignTask (NumberToStr X Y') Y')); [|done]. apply Hts. eauto.
    + intros Y' b' [[<- <-]|[_ Hb]]%lookup_insert_Some; [auto|by apply i_bucket0].
    + intros _ Y' HY'. destruct (decide (Y' = Y)) as [->|HneY].
      * left. rewrite lookup_insert_eq. split; [eauto|]. intros X Hr.
        destruct (HT (NumberToStr X Y)) as [(t & _ & _ & ->)|[Hn _]]; [eauto|].
        exfalso. apply (Hn (mkAssignTask (NumberToStr X Y) Y)); [|done]. apply Hts. eauto.
      * rewrite lookup_insert_ne by done.
        destruct (i_phase0 Hdone Y' HY') as [[? Hall]|?]; [left|by right].
        split; [done|]. intros X Hr.
        destruct (HT (NumberToStr X Y')) as [(t & _ & _ & ->)|[_ ->]]; [eauto|auto].
    + intros Hrd. destruct (i_reduceDone0 Hrd) as [_ He]. exfalso.
      destruct (i_phase0 Hdone Y Hne) as [[_ Hall]|[? _]]; [|congruence].
      destruct (needed Y) as [|X Xs'] eqn:E; [done|].
      destruct (Hall X) as [v Hv]; [apply elem_of_needed; rewrite E; by left|].
      by rewrite He in Hv.
Qed.

Lemma areach_inv j : areach j → mr_inv j.
Proof.
  induction 1 as [|j j' _ IH Hstep]; [apply inv_init|]. destruct Hstep.
  - by eapply inv_getMap.
  - by eapply inv_getReduce.
  - by eapply inv_work.
  - by eapply inv_report.
  - by eapply inv_recover.
Qed.

(** the output of a bucket: the file, or nothing for a bucket without keys *)
Definition bucketOutput (d : FS) Y (out : list string) : Prop :=
  if decide (bucket n Y emitted = []) then out = []
  else d !! outName Y = Some (concatLines out).

(** the output files of a finished job hold the lines of everything emitted *)
Lemma done_lines j :
  areach j → Done (ms j) = true →
  ∃ outs, Forall2 (bucketOutput (dir j)) (seqZ 1 n) outs
    ∧ mjoin outs ≡ₚ reduceSpec reducef emitted.
Proof.
  intros [Hm _ _]%areach_inv Hd. destruct (i_reduceDone _ _ Hm Hd) as [Hdone He].
  assert (∀ Y, ∃ ls, bucketOutput (dir j) Y ls
    ∧ ls ≡ₚ reduceSpec reducef (bucket n Y emitted)) as Hex.
  { intros Y. unfold bucketOutput. case_decide as HY; [exists []; by rewrite HY|].
    assert (needed Y ≠ []) as Hne by (intros E; apply HY; by rewrite <-needed_join, E).
    destruct (i_phase _ _ Hm Hdone Y Hne) as [[_ Hall]|[_ (ls & ? & ?)]]; [|eauto].
    destruct (needed Y) as [|X Xs] eqn:E; [done|].
    destruct (Hall X) as [v Hv]; [apply elem_of_needed; rewrite E; by left|].
    by rewrite He in Hv. }
  assert (∀ Ys, ∃ outs, Forall2 (bucketOutput (dir j)) Ys outs
    ∧ mjoin outs ≡ₚ mjoin ((λ Y, reduceSpec reducef (bucket n Y emitted)) <$> Ys))
    as Houts.
  { induction Ys as [|Y Ys (outs & IH1 & IH2)]; [exists []; by split|].
    destruct (Hex Y) as (ls & H1 & H2). exists (ls :: outs). split; [by constructor|].
    rewrite fmap_cons, !join_cons. by rewrite H2, IH2. }
  destruct (Houts (seqZ 1 n)) as (outs & H1 & H2). exists outs. split; [done|].
  by rewrite H2, (reduceSpec_buckets reducef reducef_perm n emitted (jo_buckets Hok)).
Qed.

(** without a key there is no reduce task to finish *)
Lemma no_keys_not_done j : emitted = [] → areach j → Done (ms j) = false.
Proof.
  intros He. assert (∀ Y, needed Y = []) as Hno.
  { intros Y. destruct (needed Y) as [|X Xs] eqn:E; [done|].
    assert (region X Y ≠ []) as Hr by (apply elem_of_needed; rewrite E; by left).
    pose proof (needed_join Y) as Hj. rewrite He, E, fmap_cons, join_cons in Hj.
    by apply app_eq_nil in Hj as [? _]. }
  induction 1 as [|j j' Hreach IH Hstep]; [done|]. apply areach_inv in Hreach as [_ Ha Hr].
  unfold Done in *. destruct Hstep; simpl in *.
  - unfold GetTask_map in *. repeat case_match; by simplify_eq.
  - unfold GetTask_reduce in *. repeat case_match; by simplify_eq.
  - done.
  - unfold TaskFinished in *. go_step H0. simplify_eq.
    destruct (Hr _ H) as [[Ht _]|[(_ & _ & Y & ? & Hne & _)|(_ & _ & Ets)]].
    + rewrite Ht in E. simpl in E. unfold TaskFinished_map in E. repeat case_match; by simplify_eq.
    + by rewrite Hno in Hne.
    + rewrite Ets in E. unfold TaskFinished_map, TaskFinished_mapFail in E.
      repeat case_match; by simplify_eq.
  - unfold recoverRequest in *. go_steps H0; try done; repeat case_match; by simplify_eq.
Qed.
End job.
