(* ===== verification/MRLive.v ===== *)
(** * Package mr: a job whose reports are handled at once comes to its end

    Workers crash and reports are lost, but the master hands a task out again when its
    timer fires.  This file shows that this is enough, for the job of [MRSpec.v]: once
    the timers of the tasks handed out have fired, one worker that keeps running
    finishes the job within one round per task.  [MRJob.v] carries it over to the steps
    of the program. *)

From S2P Require Import Prelude MRMaster MRWorker MRSpec.

(** the timers of all tasks handed out fire, one after the other *)
Fixpoint fireTimers (a : list (Z * list AssignTask)) (m : Master) : go Master :=
  match a with
  | [] => Ret m
  | (ty, tasks) :: a => m ← recoverRequest tasks ty m; fireTimers a m
  end.

(** a round in which the calls are answered and files can be written *)
Record healthy (r : Round) : Prop := {
  h_get : ro_get r = Answered;
  h_finish : ro_finish r = Answered;
  h_io : ∀ f, ro_io r f = Written;
  h_map : ∀ mt, ro_map r mt ≡ₚ map_to_list mt;
  h_buckets : ∀ rb, ro_buckets r rb ≡ₚ map_to_list rb;
  h_files : ∀ rt, ro_files r rt ≡ₚ map_to_list rt;
  h_iter : ∀ t rm, ro_iter r t rm ≡ₚ map_to_list rm;
}.

Section live.
Context {JC : JsonCodec} {SK : SortByKey}.
Context (mapf : string → string → list KeyValue).
Context (reducef : string → list string → string).
Context (files : list string) (fs0 : FS) (n : Z).
Context (Hok : job_ok mapf files fs0 n).
Context (reducef_perm : ∀ k vs vs', vs ≡ₚ vs' → reducef k vs = reducef k vs').
Context (Hkeys : emitted mapf files fs0 ≠ []).
Implicit Types (m : Master) (d : FS).

Abbreviation fileOf := (fileOf files).
Abbreviation region := (region mapf files fs0 n).
Abbreviation needed := (needed mapf files fs0 n).
Abbreviation bucketTasks := (bucketTasks mapf files fs0 n).
Abbreviation reach := (areach mapf reducef files fs0 n).
Abbreviation minv := (master_inv mapf reducef files fs0 n).

(** ** Nothing is forgotten *)

(** every task that is handed out has its timer among [a] *)
Record pending (a : list (Z * list AssignTask)) m : Prop := {
  pe_map : ∀ f v, mapTask m !! f = Some v →
    0 < v ∨ (MAP_TASK, [mkAssignTask f (- v)]) ∈ a;
  pe_bucket : ∀ Y b, reduceBucket m !! Y = Some b →
    b = true ∨ ∃ tasks, bucketTasks Y tasks ∧ (REDUCE_TASK, tasks) ∈ a;
}.

(** a phase that is not over has tasks left *)
Record unfinished m : Prop := {
  un_map : isMapDone m = false → mapTask m ≠ ∅;
  un_reduce : isMapDone m = true → isReduceDone m = false → reduceTask m ≠ ∅;
}.

(** some map task emits something *)
Lemma some_region : ∃ X Y, region X Y ≠ [].
Proof.
  destruct (emitted mapf files fs0) as [|kv l] eqn:E; [done|].
  assert (bucket n (bucketOf n (Key kv)) (emitted mapf files fs0) ≠ []) as Hb.
  { rewrite E. unfold bucket. rewrite filter_cons, decide_True; done. }
  rewrite <-needed_join in Hb. exists (default 0 (head (needed (bucketOf n (Key kv))))), (bucketOf n (Key kv)).
  destruct (needed (bucketOf n (Key kv))) as [|X Xs] eqn:EX; [done|]. simpl.
  apply elem_of_needed. rewrite EX. by left.
Qed.

Lemma insert_ne_empty {K V} `{Countable K} (mp : gmap K V) k : is_Some (mp !! k) → mp ≠ ∅.
Proof. intros [v Hv] ->. by rewrite lookup_empty in Hv. Qed.

(** *** Effects of the handlers *)

Lemma mapReport_effect m X f nums :
  isMapDone m = false → (∀ Y, Y ∈ nums ↔ region X Y ≠ []) →
  let m' := TaskFinished_addReduce [mkFinishTask f X nums]
              (TaskFinished_map [mkFinishTask f X nums] m).1 in
  mapTask m' = delete f (mapTask m)
  ∧ isMapDone m' = bool_decide (mapTask m' = ∅)
  ∧ isReduceDone m' = isReduceDone m ∧ nReduce m' = nReduce m
  ∧ (∀ Y, reduceBucket m' !! Y = if decide (region X Y ≠ []) then Some true else reduceBucket m !! Y)
  ∧ (∀ name, is_Some (reduceTask m !! name) → is_Some (reduceTask m' !! name))
  ∧ (∀ Y, region X Y ≠ [] → is_Some (reduceTask m' !! NumberToStr X Y)).
Proof.
  intros Hnd Hnums. unfold TaskFinished_map. rewrite Hnd. cbn [fst foldl].
  set (m1 := if decide _ then _ else _). cbn zeta.
  destruct (addReduce_lookup mapf files fs0 n X f nums m1 Hnums) as [HT HB].
  assert (mapTask m1 = delete f (mapTask m) ∧ isMapDone m1 = bool_decide (mapTask m1 = ∅)
    ∧ isReduceDone m1 = isReduceDone m ∧ nReduce m1 = nReduce m
    ∧ reduceBucket m1 = reduceBucket m ∧ reduceTask m1 = reduceTask m)
    as (E1 & E2 & E3 & E4 & E5 & E6).
  { subst m1. case_decide; simpl in *; split_and!; try done.
    - by rewrite bool_decide_eq_true_2.
    - by rewrite bool_decide_eq_false_2. }
  rewrite E5 in HB. rewrite E6 in HT. split_and!; try done.
  - intros name Hs. destruct (HT name) as [(Y & _ & _ & ->)|[_ ->]]; eauto.
  - intros Y Hr. destruct (HT (NumberToStr X Y)) as [(Y' & _ & _ & ->)|[Hn _]]; [eauto|].
    by apply (Hn Y) in Hr.
Qed.

Lemma bucketTasks_head Y tasks :
  bucketTasks Y tasks → ∃ t, idx tasks 0 = Ret t ∧ at_TaskId t = Y.
Proof.
  intros (Hne & [|X Xs] & Hp & ->); [by apply Permutation_nil_l in Hp|by eexists].
Qed.

Lemma bucketTasks_inj Y Y' tasks : bucketTasks Y tasks → bucketTasks Y' tasks → Y = Y'.
Proof.
  intros (t & E & <-)%bucketTasks_head (t' & E' & <-)%bucketTasks_head. congruence.
Qed.

Lemma foldl_insert_nonempty {A K V} `{Countable K} (kf : A → K) (vf : A → V) l (mp : gmap K V) :
  mp ≠ ∅ → foldl (λ mp t, <[kf t := vf t]> mp) mp l ≠ ∅.
Proof.
  revert mp. induction l as [|t l IH]; intros mp Hne; [done|]. apply IH, insert_non_empty.
Qed.

Lemma live_mapReport a m d X f nums :
  minv m d → isMapDone m = false → fileOf X f → (∀ Y, Y ∈ nums ↔ region X Y ≠ []) →
  pending a m →
  let m' := TaskFinished_addReduce [mkFinishTask f X nums]
              (TaskFinished_map [mkFinishTask f X nums] m).1 in
  pending a m' ∧ unfinished m'.
Proof.
  intros Hm Hnd Hf Hnums [Hp1 Hp2].
  destruct (mapReport_effect m X f nums Hnd Hnums) as (E1 & E2 & E3 & _ & E5 & E6 & E7).
  set (m' := TaskFinished_addReduce _ _) in *. clearbody m'. cbn zeta. split; split.
  - rewrite E1. intros g v [_ Hg]%lookup_delete_Some. auto.
  - intros Y b. rewrite E5. destruct (decide (region X Y ≠ [])); [|apply Hp2].
    intros [= <-]. by left.
  - rewrite E2. by intros ?%bool_decide_eq_false_1.
  - rewrite E2. intros He%bool_decide_eq_true_1 _. destruct some_region as (X0 & Y0 & Hr).
    destruct (region_fileOf _ _ _ _ _ _ Hr) as [f0 Hf0].
    apply (insert_ne_empty _ (NumberToStr X0 Y0)).
    destruct (decide (f0 = f)) as [->|Hne].
    + destruct Hf as [? Hf], Hf0 as [? Hf0].
      pose proof (NoDup_lookup _ _ _ _ (jo_nodup _ _ _ _ Hok) Hf Hf0).
      assert (X0 = X) as -> by lia. by apply E7.
    + apply E6. apply (i_mapped _ _ _ _ _ _ _ Hm X0 f0 Hf0); [|done|done].
      rewrite <-(lookup_delete_ne _ f) by done. by rewrite <-E1, He.
Qed.

Lemma live_reduceReport a m tasks m' :
  TaskFinished_reduce tasks m = Ret m' → isMapDone m = true → pending a m →
  pending a m' ∧ unfinished m' ∧ (∃ t, idx tasks 0 = Ret t
    ∧ reduceBucket m' = delete (ft_TaskId t) (reduceBucket m))
  ∧ isMapDone m' = true ∧ mapTask m' = mapTask m.
Proof.
  intros H Hd [Hp1 Hp2]. unfold TaskFinished_reduce in H. go_step H. rename a0 into t.
  assert (∀ m1, m' = (if decide (reduceTask m1 = ∅) then set_isReduceDone true m1 else m1) →
    isMapDone m1 = true → pending a m1 →
    pending a m' ∧ unfinished m' ∧ reduceBucket m' = reduceBucket m1
    ∧ isMapDone m' = true ∧ mapTask m' = mapTask m1) as Hend.
  { intros m1 -> Hd1 [Hq1 Hq2]. destruct (decide (reduceTask m1 = ∅));
      (split; [split; [exact Hq1|exact Hq2]|]);
      (split; [split; simpl; congruence|by split_and!]). }
  injection H as H. symmetry in H. destruct (Hend (set_reduceTask _ (set_reduceBucket _ m)) H Hd) as (Ha & Hb & Hc & Hd' & He).
  { split; simpl; [done|]. intros Y b [_ Hb]%lookup_delete_Some. auto. }
  split_and!; try done. exists t. done.
Qed.

Lemma live_recover a m ty tasks m' :
  assigned_ok mapf files fs0 n m ty tasks → recoverRequest tasks ty m = Ret m' →
  pending ((ty, tasks) :: a) m → unfinished m →
  pending a m' ∧ unfinished m' ∧ size (mapTask m') = size (mapTask m).
Proof.
  intros Has H [Hp1 Hp2] [Hu1 Hu2]. unfold recoverRequest in H.
  destruct Has as [(-> & X & f & -> & HX & _)|(-> & Hdone & Y & Hb)]; simpl in H.
  - assert (∀ Y b, reduceBucket m !! Y = Some b →
      b = true ∨ ∃ ts, bucketTasks Y ts ∧ (REDUCE_TASK, ts) ∈ a) as Hp2'.
    { intros Y b [->|(ts & ? & [[=]|?]%elem_of_cons)]%Hp2; [by left|eauto]. }
    rewrite orb_false_r in H. case_bool_decide as Hs; simplify_eq.
    + split; [split; simpl; [|done]|].
      * intros g v [[<- <-]|[Hne Hg]]%lookup_insert_Some; [left; lia|].
        destruct (Hp1 _ _ Hg) as [?|[[= -> _]|?]%elem_of_cons]; [by left|done|by right].
      * split; [split; simpl; [|done]; intros _; apply insert_non_empty|].
        simpl. by apply map_size_insert_Some.
    + split; [split; [|done]|done]. intros g v Hg.
      destruct (Hp1 _ _ Hg) as [?|[[= -> _]|?]%elem_of_cons]; [by left| |by right].
      destruct Hs. eauto.
  - destruct (bucketTasks_head _ _ Hb) as (t & Et & Ht). rewrite Et in H. simpl in H.
    rewrite Ht in H.
    assert (∀ f v, mapTask m !! f = Some v →
      0 < v ∨ (MAP_TASK, [mkAssignTask f (- v)]) ∈ a) as Hp1'.
    { intros f v [?|[[=]|?]%elem_of_cons]%Hp1; auto. }
    destruct (reduceBucket m !! Y) as [b|] eqn:Eb; simplify_eq.
    + split; [split; simpl; [done|]|].
      * intros Y' b' [[<- <-]|[Hne Hb']]%lookup_insert_Some; [by left|].
        destruct (Hp2 _ _ Hb') as [->|(ts & Hts & [[= ->]|?]%elem_of_cons)]; [by left| |eauto].
        destruct Hne. by eapply bucketTasks_inj.
      * split; [split; simpl; [done|]|done]. intros H1 H2.
        apply (foldl_insert_nonempty at_FileName at_TaskId), Hu2; done.
    + split; [split; [done|]|done]. intros Y' b' Hb'.
      destruct (Hp2 _ _ Hb') as [->|(ts & Hts & [[= ->]|?]%elem_of_cons)]; [by left| |eauto].
      by rewrite (bucketTasks_inj _ _ _ Hb Hts), Hb' in Eb.
Qed.

Lemma live_getMap a m order m' tasks :
  order ≡ₚ map_to_list (mapTask m) → GetTask_map order m = (m', tasks) →
  pending a m → unfinished m → pending (handOut MAP_TASK tasks a) m' ∧ unfinished m'.
Proof.
  intros Hord H Hp Hu. unfold GetTask_map in H.
  destruct (isMapDone m) eqn:Hd; [by simplify_eq|].
  destruct (firstReady order) as [[f num]|] eqn:Ef; [|by simplify_eq]. simplify_eq.
  destruct Hp as [Hp1 Hp2], Hu as [Hu1 Hu2].
  split; [split; simpl|split; simpl; [|congruence]].
  - intros g v [[<- <-]|[_ Hg]]%lookup_insert_Some.
    + right. rewrite Z.opp_involutive. by left.
    + destruct (Hp1 _ _ Hg); [by left|right; by right].
  - intros Y b [->|(ts & ? & ?)]%Hp2; [by left|right]. exists ts. split; [done|by right].
  - intros _. apply insert_non_empty.
Qed.

Lemma live_getReduce a m d buckets order m' tasks :
  minv m d → isMapDone m = true → buckets ≡ₚ map_to_list (reduceBucket m) →
  order ≡ₚ map_to_list (reduceTask m) → GetTask_reduce buckets order m = (m', tasks) →
  pending a m → unfinished m → pending (handOut REDUCE_TASK tasks a) m' ∧ unfinished m'.
Proof.
  intros Hm Hdone Hbs Hord H Hp Hu. unfold GetTask_reduce in H.
  destruct (Z.ltb_spec 0 (firstBucket buckets)) as [Hpos|]; [|by simplify_eq].
  apply firstBucket_spec in Hpos. generalize dependent (firstBucket buckets). intros Y H Hpos.
  rewrite Hbs in Hpos. apply elem_of_map_to_list in Hpos.
  pose proof (filesOf_bucket _ _ _ _ _ Hok m d Y order Hm Hdone Hpos Hord) as Hbt.
  simplify_eq. destruct Hp as [Hp1 Hp2], Hu as [Hu1 Hu2].
  assert (handOut REDUCE_TASK (filesOf Y order) a = (REDUCE_TASK, filesOf Y order) :: a) as ->.
  { destruct (bucketTasks_head _ _ Hbt) as (t & Et & _). by destruct (filesOf Y order). }
  split; [split; simpl|split; simpl; [done|]].
  - intros f v [?|?]%Hp1; [by left|right; by right].
  - intros Y' b [[<- <-]|[_ Hb]]%lookup_insert_Some.
    + right. eexists. split; [exact Hbt|by left].
    + destruct (Hp2 _ _ Hb) as [->|(ts & ? & ?)]; [by left|right]. exists ts.
      split; [done|by right].
  - intros H1 H2. apply (foldl_insert_nonempty at_FileName (λ t, - at_TaskId t)). by apply Hu2.
Qed.

Lemma live_report m d a rs req m' resp :
  mr_inv mapf reducef files fs0 n (mkJob m d a rs) → req ∈ rs → TaskFinished id id req m = Ret (m', resp) →
  pending a m → unfinished m → pending a m' ∧ unfinished m'.
Proof.
  intros [Hm _ Hr] Hin H Hp Hu. simpl in *. unfold TaskFinished in H. go_step H. simplify_eq.
  destruct (Hr _ Hin) as [[Ht (X & f & nums & Ets & Hf & Hn & Hst)]
    |[(Ht & Hdone & _)|(Hn1 & Hn2 & Ets)]].
  - rewrite Ht in E. simpl in E. rewrite Ets in E. destruct (isMapDone m) eqn:Hd.
    { unfold TaskFinished_map in E. rewrite Hd in E. by simplify_eq. }
    pose proof (live_mapReport a m d X f nums Hm Hd Hf Hn Hp) as Hlive.
    destruct (TaskFinished_map _ m) as [m1 taken] eqn:Em.
    assert (taken = true) as ->.
    { unfold TaskFinished_map in Em. rewrite Hd in Em. by simplify_eq. }
    by simplify_eq.
  - rewrite Ht in E. simpl in E.
    by destruct (live_reduceReport a _ _ _ E Hdone Hp) as (? & ? & _).
  - rewrite (proj2 (Z.eqb_neq _ _) Hn1), (proj2 (Z.eqb_neq _ _) Hn2), Ets in E.
    go_steps E; try done. unfold TaskFinished_mapFail. destruct (isMapDone m); [done|].
    by replace (set_mapTask _ m) with m by by destruct m.
Qed.

Lemma live_init : pending [] (MakeMaster files n) ∧ unfinished (MakeMaster files n).
Proof.
  split; split; simpl; try done.
  - intros f v [?|(k & _ & ->)]%numberFiles_lookup; [done|left; lia].
  - intros _ He. destruct some_region as (X & Y & Hr).
    destruct (region_fileOf _ _ _ _ _ _ Hr) as [f [_ Hf]].
    destruct (numberFiles_None files 0 ∅ f) as [Hni _]; [by rewrite He|].
    by apply list_elem_of_lookup_2 in Hf.
Qed.

Lemma areach_live j : reach j → pending (assigned j) (ms j) ∧ unfinished (ms j).
Proof.
  induction 1 as [|j j' Hreach [Hp Hu] Hstep]; [apply live_init|].
  apply (areach_inv _ _ _ _ _ Hok reducef_perm) in Hreach as Hinv.
  pose proof Hinv as [Hm Ha Hr]. destruct Hstep; simpl in *.
  - by eapply live_getMap.
  - by eapply live_getReduce.
  - done.
  - by eapply live_report.
  - destruct (live_recover a m ty tasks m') as (? & ? & _); auto.
    destruct Hp as [Hp1 Hp2]. split.
    + intros f v [?|?]%Hp1; [by left|right; by right].
    + intros Y b [?|(ts & ? & ?)]%Hp2; [by left|right]. exists ts. split; [done|by right].
Qed.

(** after the timers nothing is handed out *)
Lemma fireTimers_idle m d a rs : ∀ a1,
  reach (mkJob m d a rs) → (∀ x, x ∈ a1 → x ∈ a) → pending a1 m → unfinished m →
  ∃ m', fireTimers a1 m = Ret m' ∧ reach (mkJob m' d a rs) ∧ pending [] m' ∧ unfinished m'
    ∧ size (mapTask m') = size (mapTask m).
Proof.
  intros a1. revert m. induction a1 as [|[ty tasks] a1 IH]; intros m Hreach Hsub Hp Hu; simpl.
  { by exists m. }
  apply (areach_inv _ _ _ _ _ Hok reducef_perm) in Hreach as Hinv.
  pose proof Hinv as [Hm Ha Hr]. simpl in *.
  assert ((ty, tasks) ∈ a) as Hin by (apply Hsub; by left).
  specialize (Ha _ _ Hin).
  assert (∃ m1, recoverRequest tasks ty m = Ret m1) as [m1 E].
  { unfold recoverRequest. destruct Ha as [(-> & X & f & -> & _)|(-> & _ & Y & Hb)]; simpl; [eauto|].
    destruct (bucketTasks_head _ _ Hb) as (t & -> & _). simpl. eauto. }
  destruct (live_recover a1 m ty tasks m1 Ha E Hp Hu) as (Hp1 & Hu1 & Hs1).
  destruct (IH m1) as (m' & E' & ? & ? & ? & Hs'); [|by intros x Hx; apply Hsub; right|done|done|].
  { eapply ar_step; [exact Hreach|]. by eapply as_recover. }
  exists m'. rewrite E. split_and!; try done. by rewrite Hs'.
Qed.

(** ** One round of a worker *)

Context (mapf' : string → string → list KeyValue) (Hrun : mapRun mapf mapf').

Lemma order_nonempty {K V} `{Countable K} (mp : gmap K V) order :
  order ≡ₚ map_to_list mp → mp ≠ ∅ → order ≠ [].
Proof. intros Hp Hne ->. by apply Permutation_nil_l, eq_sym, map_to_list_empty_iff in Hp. Qed.

Lemma firstReady_some order :
  order ≠ [] → (∀ f v, (f, v) ∈ order → 0 < v) → is_Some (firstReady order).
Proof.
  destruct order as [|[f v] order]; [done|]. intros _ Hpos. simpl.
  rewrite (proj2 (Z.ltb_lt _ _)); [eauto|]. apply (Hpos f). by left.
Qed.

Lemma firstBucket_some order :
  order ≠ [] → (∀ Y b, (Y, b) ∈ order → b = true ∧ 0 < Y) → 0 < firstBucket order.
Proof.
  destruct order as [|[Y b] order]; [done|]. intros _ H. simpl.
  destruct (H Y b) as [-> ?]; [by left|done].
Qed.

Lemma writeRegions_total io X order : ∀ fs nums,
  (∀ f, io f = Written) → ∃ fs' ns, writeRegions io X order fs nums = (fs', Some ns).
Proof.
  induction order as [|[Y kvs] order IH]; intros fs nums Hio; simpl; [eauto|].
  rewrite Hio. by apply IH.
Qed.

Lemma doMap_total io iter X f d :
  (∀ g, io g = Written) → fileOf X f → d !! f = fs0 !! f →
  ∃ d' nums, doMap mapf' io iter n [mkAssignTask f X] d [] = Ret (d', Some [mkFinishTask f X nums]).
Proof.
  intros Hio [_ Hf] Hd. destruct (jo_present _ _ _ _ Hok f) as [c Hc];
    [by eapply list_elem_of_lookup_2|].
  simpl. unfold readFile. rewrite Hio, Hd, Hc.
  destruct (regions_spec n (mapf' f c) ∅ (jo_buckets _ _ _ _ Hok)) as (rm & -> & _). simpl.
  destruct (writeRegions_total io X (iter (mkAssignTask f X) rm) d [] Hio) as (d' & ns & ->).
  eauto.
Qed.

Lemma doReduce_total io Y tasks d :
  (∀ g, io g = Written) → bucketTasks Y tasks →
  (∀ X, region X Y ≠ [] → stored mapf files fs0 n d X Y) →
  ∃ d' t ts, doReduce reducef io tasks d = Ret (d', Some (t :: ts)) ∧ ft_TaskId t = Y.
Proof.
  intros Hio Hb Hst. destruct (bucketTasks_head _ _ Hb) as (t & Et & Ht).
  destruct Hb as (Hne & Xs & Hp & ->). unfold doReduce.
  destruct (readAll_spec _ _ _ _ Hok io Y Xs d [] []) as (kvs & -> & _); [|done|].
  { intros X HX. apply Hst. rewrite Hp in HX. by apply elem_of_needed in HX. }
  rewrite Et. simpl. rewrite Ht, Hio.
  destruct Xs as [|X Xs]; [by apply Permutation_nil_l in Hp|]. by eexists _, _, _.
Qed.

(** the rounds that are left *)
Definition measure m : nat :=
  (size (mapTask m) + if isMapDone m then size (reduceBucket m) else Z.to_nat n)%nat.

Lemma buckets_bound m d : minv m d → (size (reduceBucket m) ≤ Z.to_nat n)%nat.
Proof.
  intros Hm. rewrite <-length_map_to_list, <-(length_fmap fst), <-(length_seqZ 1 n).
  apply submseteq_length, NoDup_submseteq; [apply NoDup_fst_map_to_list|].
  intros Y ([Y' b] & -> & Hb%elem_of_map_to_list)%list_elem_of_fmap.
  apply elem_of_seqZ. simpl. destruct (i_bucket _ _ _ _ _ _ _ Hm _ _ Hb) as [Hne _].
  pose proof (needed_range _ _ _ _ Hok _ Hne). lia.
Qed.

Lemma DoWork_answered r m d m1 task d' req m' resp :
  healthy r →
  GetTask (ro_map r) id (ro_buckets r) (ro_files r) m
    = (m1, task) →
  DoWork_switch mapf' reducef (ro_io r) (ro_iter r) task d = Ret (d', req) →
  TaskFinished id id req m1 = Ret (m', resp) →
  DoWork mapf' reducef r m d = Ret (m', d', CanExit resp).
Proof.
  intros Hh EG EW ET. unfold DoWork, callFuncWithName.
  by rewrite (h_get _ Hh), EG, (h_finish _ Hh); simpl; rewrite EW; simpl; rewrite ET.
Qed.

(** a round goes from [m] to [m'] *)
Definition round (r : Round) m d m' : Prop :=
  ∃ d' a' rs', DoWork mapf' reducef r m d = Ret (m', d', isReduceDone m')
    ∧ reach (mkJob m' d' a' rs') ∧ pending [] m'
    ∧ (isReduceDone m = true → m' = m)
    ∧ (isReduceDone m = false → (measure m' < measure m)%nat).

(** a worker that asks in the map phase gets a task *)
Lemma idle_getMap r m d a rs :
  healthy r → reach (mkJob m d a rs) → pending [] m → isMapDone m = false →
  ∃ f X, mapTask m !! f = Some X ∧ fileOf X f
    ∧ GetTask_map (ro_map r (mapTask m)) m
      = (set_mapTask (<[f := - X]> (mapTask m)) m, [mkAssignTask f X]).
Proof.
  intros Hh Hreach [Hp1 _] Hnd. pose proof (h_map _ Hh (mapTask m)) as Hmo.
  assert (∀ f v, mapTask m !! f = Some v → 0 < v) as Hpos.
  { intros f v [?|?%elem_of_nil]%Hp1; done. }
  destruct (areach_live _ Hreach) as [_ [Hne _]]. specialize (Hne Hnd). simpl in Hne.
  destruct (areach_inv _ _ _ _ _ Hok reducef_perm _ Hreach) as [Hm _ _]. simpl in Hm.
  assert (is_Some (firstReady (ro_map r (mapTask m)))) as [[f X] Ef].
  { apply firstReady_some; [by eapply order_nonempty|].
    intros f v. rewrite Hmo, elem_of_map_to_list. apply Hpos. }
  destruct (firstReady_spec _ _ _ Ef) as [Hin HX]. rewrite Hmo in Hin.
  apply elem_of_map_to_list in Hin. exists f, X.
  destruct (i_map _ _ _ _ _ _ _ Hm _ _ Hin) as (X' & Hf & HX'). pose proof (proj1 Hf).
  assert (X = X') as <- by lia. split_and!; [done|done|].
  unfold GetTask_map. by rewrite Hnd, Ef.
Qed.

(** a task is done and its report arrives *)
Lemma work_report r m d a rs ty tasks d' req m' resp :
  healthy r → reach (mkJob m d ((ty, tasks) :: a) rs) →
  DoWork_switch mapf' reducef (ro_io r) (ro_iter r) (mkTaskResponse ty tasks 0 (nReduce m)) d
    = Ret (d', req) →
  TaskFinished id id req m = Ret (m', resp) →
  report_ok mapf reducef files fs0 n m d' req
  ∧ reach (mkJob m' d' ((ty, tasks) :: a) (req :: rs)) ∧ minv m' d'.
Proof.
  intros Hh R1 EW ET.
  assert (reach (mkJob m d' ((ty, tasks) :: a) (req :: rs))) as R2.
  { eapply ar_step; [exact R1|]. eapply as_work; [by left|exact Hrun|by left; apply Hh|apply Hh|exact EW]. }
  assert (reach (mkJob m' d' ((ty, tasks) :: a) (req :: rs))) as R3.
  { eapply ar_step; [exact R2|]. eapply as_report; [by left|exact ET]. }
  destruct (areach_inv _ _ _ _ _ Hok reducef_perm _ R2) as [_ _ Hr].
  destruct (areach_inv _ _ _ _ _ Hok reducef_perm _ R3) as [Hm' _ _].
  split_and!; [apply Hr; by left|done|done].
Qed.

Lemma round_map r m d a rs :
  healthy r → reach (mkJob m d a rs) → pending [] m → isMapDone m = false → ∃ m', round r m d m'.
Proof.
  intros Hh Hreach Hp Hnd. destruct (idle_getMap r m d a rs) as (f & X & Hin & Hf & EG); try done.
  destruct (areach_inv _ _ _ _ _ Hok reducef_perm _ Hreach) as [Hm _ _]. simpl in Hm.
  set (m1 := set_mapTask (<[f := - X]> (mapTask m)) m) in *.
  pose proof (ar_step _ _ _ _ _ _ _ Hreach
    (as_getMap _ _ m d a rs _ m1 _ (h_map _ Hh _) EG)) as R1. simpl in R1.
  destruct (doMap_total (ro_io r) (ro_iter r) X f d (h_io _ Hh) Hf) as (d' & nums & ED).
  { apply (i_input _ _ _ _ _ _ _ Hm). by eapply list_elem_of_lookup_2, (proj2 Hf). }
  set (req := mkFinishedRequest MAP_TASK [mkFinishTask f X nums]).
  assert (DoWork_switch mapf' reducef (ro_io r) (ro_iter r)
            (mkTaskResponse MAP_TASK [mkAssignTask f X] 0 (nReduce m1)) d = Ret (d', req)) as EW.
  { unfold DoWork_switch. change (nReduce m1) with (nReduce m).
    rewrite (i_n _ _ _ _ _ _ _ Hm). cbn -[doMap]. by rewrite ED. }
  set (m' := TaskFinished_addReduce [mkFinishTask f X nums]
               (TaskFinished_map [mkFinishTask f X nums] m1).1).
  assert (TaskFinished id id req m1 = Ret (m', mkFinishedResponse (isReduceDone m'))) as ET.
  { unfold TaskFinished. cbn -[TaskFinished_map TaskFinished_addReduce]. subst m'.
    unfold TaskFinished_map. change (isMapDone m1) with (isMapDone m). by rewrite Hnd. }
  destruct (work_report r m1 d a rs _ _ d' req m' _ Hh R1 EW ET) as (Hreq & R3 & Hm').
  destruct (mapReport_effect m1 X f nums Hnd) as (E1 & E2 & E3 & _ & E5 & _ & _).
  { destruct Hreq as [[_ (X' & f' & nums' & Ets & _ & H & _)]|[[H _]|[H _]]];
      [|discriminate H|by destruct H]. simpl in Ets. by simplify_eq. }
  fold m' in E1, E2, E3, E5. clearbody m'.
  change (mapTask m1) with (<[f := - X]> (mapTask m)) in E1. rewrite delete_insert_eq in E1.
  exists m'. eexists d', _, _. split; [|split; [exact R3|split; [split|split]]].
  - refine (DoWork_answered r m d m1 _ d' req m' _ Hh _ EW ET). unfold GetTask. by rewrite EG.
  - intros g v. rewrite E1. intros [_ Hg]%lookup_delete_Some. by apply Hp.
  - intros Y b. rewrite E5. destruct (decide (region X Y ≠ [])); [intros [= <-]; by left|].
    apply Hp.
  - intros Hd. destruct (i_reduceDone _ _ _ _ _ _ _ Hm Hd). congruence.
  - intros _. unfold measure. rewrite Hnd. pose proof (buckets_bound _ _ Hm').
    assert (size (mapTask m) ≠ 0%nat) by (apply map_size_non_empty_iff, (insert_ne_empty _ f); eauto).
    rewrite E1, map_size_delete_Some by eauto. destruct (isMapDone m'); lia.
Qed.

(** a worker that asks in the reduce phase gets a bucket *)
Lemma idle_getReduce r m d a rs :
  healthy r → reach (mkJob m d a rs) → pending [] m → isMapDone m = true → isReduceDone m = false →
  ∃ Y m1 tasks, reduceBucket m !! Y = Some true ∧ bucketTasks Y tasks
    ∧ GetTask_reduce (ro_buckets r (reduceBucket m)) (ro_files r (reduceTask m)) m = (m1, tasks)
    ∧ mapTask m1 = mapTask m ∧ isMapDone m1 = true
    ∧ reduceBucket m1 = <[Y := false]> (reduceBucket m).
Proof.
  intros Hh Hreach [_ Hp2] Hd Hnr. pose proof (h_buckets _ Hh (reduceBucket m)) as Hbs.
  destruct (areach_live _ Hreach) as [_ [_ Hne]]. specialize (Hne Hd Hnr). simpl in Hne.
  destruct (areach_inv _ _ _ _ _ Hok reducef_perm _ Hreach) as [Hm _ _]. simpl in Hm.
  assert (∀ Y b, reduceBucket m !! Y = Some b → b = true ∧ 0 < Y) as Hall.
  { intros Y b Hb. split.
    - by destruct (Hp2 _ _ Hb) as [|(ts & _ & ?%elem_of_nil)].
    - by eapply needed_pos, (i_bucket _ _ _ _ _ _ _ Hm). }
  assert (0 < firstBucket (ro_buckets r (reduceBucket m))) as Hpos.
  { apply firstBucket_some.
    - eapply order_nonempty; [done|]. apply map_choose in Hne as (name & v & Hv).
      destruct (i_task _ _ _ _ _ _ _ Hm _ _ Hv) as (X & Y & b & _ & _ & _ & Hb & _).
      apply (insert_ne_empty _ Y). eauto.
    - intros Y b. rewrite Hbs, elem_of_map_to_list. apply Hall. }
  pose proof (firstBucket_spec _ Hpos) as Hin. unfold GetTask_reduce.
  rewrite (proj2 (Z.ltb_lt _ _) Hpos). clear Hpos. generalize dependent (firstBucket (ro_buckets r (reduceBucket m))).
  intros Y Hin. rewrite Hbs in Hin. apply elem_of_map_to_list in Hin. eexists Y, _, _.
  split_and!; [done| |done..].
  by eapply (filesOf_bucket _ _ _ _ _ Hok m d Y); [exact Hm|exact Hd|exact Hin|apply Hh].
Qed.

Lemma round_reduce r m d a rs :
  healthy r → reach (mkJob m d a rs) → pending [] m → isMapDone m = true → isReduceDone m = false →
  ∃ m', round r m d m'.
Proof.
  intros Hh Hreach Hp Hd Hnr.
  destruct (idle_getReduce r m d a rs Hh Hreach Hp Hd Hnr)
    as (Y & m1 & tasks & HY & Hbt & EG & F1 & F2 & F3).
  destruct (areach_inv _ _ _ _ _ Hok reducef_perm _ Hreach) as [Hm _ _]. simpl in Hm.
  pose proof (i_done _ _ _ _ _ _ _ Hm Hd) as Hmt.
  pose proof (ar_step _ _ _ _ _ _ _ Hreach
    (as_getReduce _ _ m d a rs _ _ m1 _ Hd (h_buckets _ Hh _) (h_files _ Hh _) EG)) as R1.
  assert (∃ t0 ts0, tasks = t0 :: ts0) as (t0 & ts0 & ->).
  { destruct (bucketTasks_head _ _ Hbt) as (t & Et & _). destruct tasks; [done|eauto]. }
  simpl in R1.
  destruct (doReduce_total (ro_io r) Y (t0 :: ts0) d (h_io _ Hh) Hbt) as (d' & t & ts & ED & Ht).
  { intros X HX. destruct (region_fileOf _ _ _ _ _ _ HX) as [f Hf].
    apply (i_mapped _ _ _ _ _ _ _ Hm X f Hf); [by rewrite Hmt|done]. }
  set (req := mkFinishedRequest REDUCE_TASK (t :: ts)).
  assert (DoWork_switch mapf' reducef (ro_io r) (ro_iter r)
            (mkTaskResponse REDUCE_TASK (t0 :: ts0) 0 (nReduce m1)) d = Ret (d', req)) as EW.
  { unfold DoWork_switch. cbn -[doReduce]. by rewrite ED. }
  assert (∃ m', TaskFinished_reduce (t :: ts) m1 = Ret m') as [m' ER] by (eexists; reflexivity).
  assert (TaskFinished id id req m1 = Ret (m', mkFinishedResponse (isReduceDone m'))) as ET.
  { unfold TaskFinished. cbn -[TaskFinished_reduce]. by rewrite ER. }
  destruct (work_report r m1 d a rs _ _ d' req m' _ Hh R1 EW ET) as (_ & R3 & Hm').
  destruct (areach_live _ R1) as [Hp1 _]. simpl in Hp1.
  destruct (live_reduceReport _ m1 _ m' ER F2 Hp1) as (_ & _ & (t' & [= <-] & E1) & E2 & E3).
  rewrite Ht, F3, delete_insert_eq in E1. rewrite F1 in E3.
  exists m'. eexists d', _, _. split; [|split; [exact R3|split; [split|split]]].
  - refine (DoWork_answered r m d m1 _ d' req m' _ Hh _ EW ET). unfold GetTask, GetTask_map.
    rewrite Hd. cbv beta iota zeta delta [id]. by rewrite Hd, EG.
  - rewrite E3. apply Hp.
  - intros Y' b. rewrite E1. intros [_ Hb]%lookup_delete_Some. by apply Hp in Hb.
  - congruence.
  - intros _. unfold measure. rewrite Hd, E2, E3, E1, Hmt, map_size_delete_Some by eauto.
    assert (size (reduceBucket m) ≠ 0%nat) by (apply map_size_non_empty_iff, (insert_ne_empty _ Y); eauto).
    rewrite map_size_empty. lia.
Qed.

(** a worker that asks when everything is done is told to exit *)
Lemma round_done r m d a rs :
  healthy r → reach (mkJob m d a rs) → pending [] m → isReduceDone m = true → ∃ m', round r m d m'.
Proof.
  intros Hh Hreach Hp Hrd.
  destruct (areach_inv _ _ _ _ _ Hok reducef_perm _ Hreach) as [Hm _ _]. simpl in Hm.
  destruct (i_reduceDone _ _ _ _ _ _ _ Hm Hrd) as [Hd He].
  assert (reduceBucket m = ∅) as Hb.
  { apply map_empty. intros Y. destruct (reduceBucket m !! Y) as [b|] eqn:Eb; [|done]. exfalso.
    destruct (i_bucket _ _ _ _ _ _ _ Hm _ _ Eb) as [Hne _].
    destruct (i_phase _ _ _ _ _ _ _ Hm Hd Y Hne) as [[_ Hall]|[? _]]; [|congruence].
    destruct (needed Y) as [|X Xs] eqn:E; [done|].
    destruct (Hall X) as [v Hv]; [apply elem_of_needed; rewrite E; by left|]. by rewrite He in Hv. }
  assert (ro_buckets r (reduceBucket m) = []) as Hbs.
  { apply Permutation_nil_r. rewrite (h_buckets _ Hh), Hb. by rewrite map_to_list_empty. }
  exists m, d, a, rs. split_and!; [|done|done|done|congruence].
  refine (DoWork_answered r m d m (mkTaskResponse NO_TASK [] 3 (nReduce m)) d
            (mkFinishedRequest SLEEP_TASK []) m (mkFinishedResponse (isReduceDone m)) Hh _ _ _); try done.
  unfold GetTask, GetTask_map, GetTask_reduce. rewrite Hd. cbv beta iota zeta delta [id]. by rewrite Hd, Hbs.
Qed.

Lemma one_round r m d a rs :
  healthy r → reach (mkJob m d a rs) → pending [] m → ∃ m', round r m d m'.
Proof.
  intros Hh Hreach Hp. destruct (isReduceDone m) eqn:Hr; [by eapply round_done|].
  destruct (isMapDone m) eqn:Hd; [by eapply round_reduce|by eapply round_map].
Qed.

(** a job that is not done has a round left *)
Lemma measure_pos m d a rs :
  reach (mkJob m d a rs) → isReduceDone m = false → (1 ≤ measure m)%nat.
Proof.
  intros Hreach Hr. pose proof (jo_buckets _ _ _ _ Hok).
  destruct (areach_live _ Hreach) as [_ [_ Hu]]. simpl in Hu.
  destruct (areach_inv _ _ _ _ _ Hok reducef_perm _ Hreach) as [Hm _ _]. simpl in Hm.
  unfold measure. destruct (isMapDone m); [|lia]. specialize (Hu eq_refl Hr).
  apply map_choose in Hu as (name & v & Hv).
  destruct (i_task _ _ _ _ _ _ _ Hm _ _ Hv) as (X & Y & b & _ & _ & _ & Hb & _).
  assert (size (reduceBucket m) ≠ 0%nat) by (apply map_size_non_empty_iff, (insert_ne_empty _ Y); eauto).
  lia.
Qed.

Lemma Worker_returns rounds : ∀ m d a rs,
  Forall healthy rounds → reach (mkJob m d a rs) → pending [] m →
  (1 ≤ length rounds)%nat → (measure m ≤ length rounds)%nat →
  ∃ m' d' a' rs', Worker mapf' reducef rounds m d = Ret (m', d', true)
    ∧ Done m' = true ∧ reach (mkJob m' d' a' rs').
Proof.
  induction rounds as [|r rounds IH]; intros m d a rs Hall Hreach Hp H1 Hm; simpl in *; [lia|].
  apply Forall_cons in Hall as [Hh Hall].
  destruct (one_round r m d a rs Hh Hreach Hp) as (m1 & d1 & a1 & rs1 & -> & R1 & Hp1 & Hsame & Hdec).
  simpl. destruct (isReduceDone m1) eqn:Hd1; [by eexists _, _, _, _|].
  destruct (isReduceDone m) eqn:Hd; [by rewrite Hsame, Hd in Hd1|].
  pose proof (measure_pos _ _ _ _ R1 Hd1). specialize (Hdec eq_refl).
  eapply IH; [done|exact R1|done|lia..].
Qed.

(** after the timers, one worker is enough *)
Lemma worker_finishes j rounds :
  reach j → Forall healthy rounds →
  (size (mapTask (ms j)) + Z.to_nat n ≤ length rounds)%nat →
  ∃ m m' d' outs lines,
    fireTimers (assigned j) (ms j) = Ret m
    ∧ Worker mapf' reducef rounds m (dir j) = Ret (m', d', true) ∧ Done m' = true
    ∧ Forall2 (bucketOutput mapf files fs0 n d') (seqZ 1 n) outs
    ∧ mrsequential mapf reducef files fs0 = Some lines ∧ mjoin outs ≡ₚ lines.
Proof.
  intros Hreach Hall Hlen. destruct j as [m d a rs]. simpl in *.
  destruct (areach_live _ Hreach) as [Hp Hu]. simpl in *.
  destruct (fireTimers_idle m d a rs a) as (m1 & E1 & R1 & Hp1 & Hu1 & Hs); [done..|].
  destruct (areach_inv _ _ _ _ _ Hok reducef_perm _ R1) as [Hm1 _ _]. simpl in Hm1.
  pose proof (buckets_bound _ _ Hm1). pose proof (jo_buckets _ _ _ _ Hok).
  destruct (Worker_returns rounds m1 d a rs Hall R1 Hp1) as (m' & d' & a' & rs' & EW & Hd & R2).
  { lia. }
  { unfold measure. destruct (isMapDone m1); lia. }
  destruct (done_lines _ _ _ _ _ Hok reducef_perm _ R2 Hd) as (outs & H1 & H2).
  exists m1, m', d', outs, (outputOf reducef (emitted mapf files fs0)). split_and!; try done.
  - unfold mrsequential. by rewrite (mapFiles_emitted _ _ _ _ Hok).
  - rewrite H2. symmetry. by apply outputOf_perm.
Qed.
End live.
