(* ===== verification/MRJob.v ===== *)
(** * Package mr: jobs

    A job is a master, any number of workers, and the shared directory.  Each step is
    what one goroutine does with one lock held, or the work of a worker on one task:
    [GetTask] is two steps ([mr_getMap], [mr_getReduce]), the report of a map task is
    two ([mr_reportMap], [mr_addReduce]), so another handler can run between them.
    Workers may be slow, crash half-way through writing their files, repeat a task that
    the master handed out again, emit its pairs in another order then, and report late;
    the timers of [recoverRequest] may fire at any time; and the file system may fail
    in any way ([ioFate]), also where the worker does not look.

    Two things make the program lose output without noticing, and a run keeps a list
    of them: a bucket is handed out while the report of a map task is half handled
    ([HandedOutEarly]), and a worker ignores an error of [Fprintf] or [Rename]
    ([IgnoredError]).  A run without either is a run of the job of [MRSpec.v], in which
    a report is handled at once ([run_atomic]). *)

From Stdlib Require Import Ascii Sorting.Sorted.
From S2P Require Import Prelude MRMaster MRWorker MRSpec MRLive.

Inductive Incident := HandedOutEarly | IgnoredError.

(** [adding]: the reports of map tasks whose second part has not run yet *)
Record Run := mkRun {
  job : Job; adding : list (list FinishTask); incidents : list Incident }.

(** ** Half-handled reports *)

(** their second parts, one after the other *)
Definition finishAdding (ad : list (list FinishTask)) (m : Master) : Master :=
  foldl (λ m tasks, TaskFinished_addReduce tasks m) m ad.

Lemma foldl_insert_perm {A K V} `{Countable K} (kf : A → K) (vf : A → V) l l' (mp : gmap K V) :
  l ≡ₚ l' → (∀ t t', t ∈ l → t' ∈ l → kf t = kf t' → vf t = vf t') →
  foldl (λ mp t, <[kf t := vf t]> mp) mp l = foldl (λ mp t, <[kf t := vf t]> mp) mp l'.
Proof.
  intros Hp Hf. apply map_eq. intros k.
  destruct (foldl_insert_lookup kf vf l mp k) as [(t & Ht & Hk & E)|[Hn E]],
    (foldl_insert_lookup kf vf l' mp k) as [(t' & Ht' & Hk' & E')|[Hn' E']]; rewrite E, E'.
  - f_equal. apply Hf; [done|by rewrite Hp|congruence].
  - exfalso. rewrite Hp in Ht. by apply (Hn' t).
  - exfalso. rewrite <-Hp in Ht'. by apply (Hn t').
  - done.
Qed.

Lemma foldl_insert_perm' {A K V} `{Countable K} (kf : A → K) (v : V) l l' (mp : gmap K V) :
  l ≡ₚ l' →
  foldl (λ mp t, <[kf t := v]> mp) mp l = foldl (λ mp t, <[kf t := v]> mp) mp l'.
Proof. intros Hp. by apply (foldl_insert_perm kf (λ _, v)). Qed.

Lemma finishAdding_eq ad m :
  finishAdding ad m
  = set_reduceTask (foldl (λ rt r, <[fst r := snd r]> rt) (reduceTask m) (ad ≫= reported))
      (set_reduceBucket (foldl (λ rb r, <[snd r := true]> rb) (reduceBucket m) (ad ≫= reported)) m).
Proof.
  revert m. induction ad as [|tasks ad IH]; intros m; [by destruct m|].
  unfold finishAdding in *. simpl. rewrite IH. simpl. by rewrite !foldl_app.
Qed.

Lemma finishAdding_fields ad m :
  mapTask (finishAdding ad m) = mapTask m ∧ isMapDone (finishAdding ad m) = isMapDone m
  ∧ isReduceDone (finishAdding ad m) = isReduceDone m ∧ nReduce (finishAdding ad m) = nReduce m.
Proof. by rewrite finishAdding_eq. Qed.

Lemma finishAdding_mapTask ad m v :
  finishAdding ad (set_mapTask v m) = set_mapTask v (finishAdding ad m).
Proof. by rewrite !finishAdding_eq. Qed.

Lemma finishAdding_mapDone ad m v :
  finishAdding ad (set_isMapDone v m) = set_isMapDone v (finishAdding ad m).
Proof. by rewrite !finishAdding_eq. Qed.

(** in any order, when a file name says its bucket *)
Definition functional (l : list (string * Z)) : Prop :=
  ∀ r r', r ∈ l → r' ∈ l → r.1 = r'.1 → r.2 = r'.2.

Lemma finishAdding_perm ad ad' m :
  ad ≡ₚ ad' → functional (ad ≫= reported) → finishAdding ad m = finishAdding ad' m.
Proof.
  intros Hp Hf. rewrite !finishAdding_eq.
  assert ((ad ≫= reported) ≡ₚ (ad' ≫= reported)) as Hr by (by rewrite Hp).
  f_equal; [by apply (foldl_insert_perm fst snd)|]. f_equal. by apply foldl_insert_perm'.
Qed.

(** *** The map phase does not see them *)

Lemma GetTask_map_adding ad order m m' tasks :
  GetTask_map order m = (m', tasks) →
  GetTask_map order (finishAdding ad m) = (finishAdding ad m', tasks).
Proof.
  unfold GetTask_map. destruct (finishAdding_fields ad m) as (E1 & E2 & _).
  rewrite E1, E2. intros H. repeat case_match; simplify_eq; try done.
  by rewrite finishAdding_mapTask.
Qed.

Lemma TaskFinished_map_adding ad tasks m m' taken :
  TaskFinished_map tasks m = (m', taken) →
  TaskFinished_map tasks (finishAdding ad m) = (finishAdding ad m', taken).
Proof.
  unfold TaskFinished_map. destruct (finishAdding_fields ad m) as (E1 & E2 & _).
  rewrite E1, E2. cbv zeta. intros H. destruct (isMapDone m); [by simplify_eq|].
  rewrite <-finishAdding_mapTask. destruct (finishAdding_fields ad
    (set_mapTask (foldl (λ mt t, delete (ft_FileName t) mt) (mapTask m) tasks) m)) as (E3 & _).
  rewrite E3. case_decide; simplify_eq; by rewrite ?finishAdding_mapDone.
Qed.

Lemma recoverRequest_adding ad tasks m m' :
  recoverRequest tasks MAP_TASK m = Ret m' →
  recoverRequest tasks MAP_TASK (finishAdding ad m) = Ret (finishAdding ad m').
Proof.
  unfold recoverRequest. simpl. destruct (finishAdding_fields ad m) as (E1 & _). rewrite E1.
  intros [= <-]. case_match; [by rewrite finishAdding_mapTask|done].
Qed.

(** ** The steps *)

Section job.
Context {JC : JsonCodec} {SK : SortByKey}.
Context (mapf : string → string → list KeyValue).
Context (reducef : string → list string → string).
Context (files : list string) (fs0 : FS) (n : Z).
Implicit Types r : Run.

Inductive mrstep : Run → Run → Prop :=
| mr_getMap m d a rs ad inc order m' tasks :
    order ≡ₚ map_to_list (mapTask m) → GetTask_map order m = (m', tasks) →
    mrstep (mkRun (mkJob m d a rs) ad inc)
           (mkRun (mkJob m' d (handOut MAP_TASK tasks a) rs) ad inc)
| mr_getReduce m d a rs ad inc buckets order m' tasks :
    isMapDone m = true → buckets ≡ₚ map_to_list (reduceBucket m) →
    order ≡ₚ map_to_list (reduceTask m) → GetTask_reduce buckets order m = (m', tasks) →
    mrstep (mkRun (mkJob m d a rs) ad inc)
           (mkRun (mkJob m' d (handOut REDUCE_TASK tasks a) rs) ad
              (if decide (ad = []) then inc
               else if 0 <? firstBucket buckets then HandedOutEarly :: inc else inc))
| mr_work m d a rs ad inc ty tasks mapf' io iter d' req :
    (ty, tasks) ∈ a → mapRun mapf mapf' → (∀ t rm, iter t rm ≡ₚ map_to_list rm) →
    DoWork_switch mapf' reducef io iter (mkTaskResponse ty tasks 0 (nReduce m)) d = Ret (d', req) →
    honest io →
    mrstep (mkRun (mkJob m d a rs) ad inc) (mkRun (mkJob m d' a (req :: rs)) ad inc)
| mr_workIgnoring m d a rs ad inc ty tasks mapf' io iter d' req :
    (ty, tasks) ∈ a → mapRun mapf mapf' → (∀ t rm, iter t rm ≡ₚ map_to_list rm) →
    DoWork_switch mapf' reducef io iter (mkTaskResponse ty tasks 0 (nReduce m)) d = Ret (d', req) →
    mrstep (mkRun (mkJob m d a rs) ad inc)
           (mkRun (mkJob m d' a (req :: rs)) ad (IgnoredError :: inc))
| mr_reportMap m d a rs ad inc req m' taken :
    req ∈ rs → FinishedType req = MAP_TASK → TaskFinished_map (fr_Tasks req) m = (m', taken) →
    mrstep (mkRun (mkJob m d a rs) ad inc)
           (mkRun (mkJob m' d a rs) (if (taken : bool) then fr_Tasks req :: ad else ad) inc)
| mr_addReduce m d a rs ad1 tasks ad2 inc :
    mrstep (mkRun (mkJob m d a rs) (ad1 ++ tasks :: ad2) inc)
           (mkRun (mkJob (TaskFinished_addReduce tasks m) d a rs) (ad1 ++ ad2) inc)
| mr_report m d a rs ad inc req m' resp :
    req ∈ rs → FinishedType req ≠ MAP_TASK → TaskFinished id id req m = Ret (m', resp) →
    mrstep (mkRun (mkJob m d a rs) ad inc) (mkRun (mkJob m' d a rs) ad inc)
| mr_recover m d a rs ad inc ty tasks m' :
    (ty, tasks) ∈ a → recoverRequest tasks ty m = Ret m' →
    mrstep (mkRun (mkJob m d a rs) ad inc) (mkRun (mkJob m' d a rs) ad inc).

Inductive mrreach : Run → Prop :=
| mrr_init : mrreach (mkRun (mkJob (MakeMaster files n) fs0 [] []) [] [])
| mrr_step r r' : mrreach r → mrstep r r' → mrreach r'.

(** ** Runs without incidents *)

Hypothesis Hok : job_ok mapf files fs0 n.
Hypothesis reducef_perm : ∀ k vs vs', vs ≡ₚ vs' → reducef k vs = reducef k vs'.

(** the job in which the half-handled reports are finished *)
Definition finished r : Job :=
  mkJob (finishAdding (adding r) (ms (job r))) (dir (job r)) (assigned (job r)) (reports (job r)).

Record atomic_inv r : Prop := {
  at_reach : areach mapf reducef files fs0 n (finished r);
  at_adding : ∀ tasks, tasks ∈ adding r →
    ∃ req, req ∈ reports (job r) ∧ FinishedType req = MAP_TASK ∧ fr_Tasks req = tasks;
  at_assigned : adding r ≠ [] → ∀ ty tasks, (ty, tasks) ∈ assigned (job r) → ty = MAP_TASK;
  at_reports : adding r ≠ [] → ∀ req, req ∈ reports (job r) → FinishedType req ≠ REDUCE_TASK;
}.

Lemma incidents_mono r r' : mrstep r r' → incidents r' = [] → incidents r = [].
Proof. intros []; simpl; try done. by repeat case_match. Qed.

Lemma finished_inv r : atomic_inv r → mr_inv mapf reducef files fs0 n (finished r).
Proof. intros [Hr _ _ _]. by apply areach_inv. Qed.

(** the reports have the names of the map tasks' files *)
Lemma adding_functional r ts :
  atomic_inv r → (∀ tasks, tasks ∈ ts → ∃ req, req ∈ reports (job r)
    ∧ FinishedType req = MAP_TASK ∧ fr_Tasks req = tasks) →
  functional (ts ≫= reported).
Proof.
  intros Hat Hts. destruct (finished_inv _ Hat) as [_ _ Hrep]. simpl in Hrep.
  assert (∀ x, x ∈ ts ≫= reported → ∃ X, 1 ≤ X ∧ x.1 = NumberToStr X x.2) as Hnames.
  { intros x (tasks & Hx & Hin)%list_elem_of_bind.
    destruct (Hts _ Hin) as (req & Hreq & Hty & <-).
    destruct (Hrep _ Hreq) as [[_ (X & f & nums & Ets & Hf & _)]|[[H _]|[H _]]]; [|by rewrite Hty in H..].
    rewrite Ets in Hx. unfold reported in Hx. simpl in Hx. rewrite app_nil_r in Hx.
    apply list_elem_of_fmap in Hx as (b & -> & _). exists X. split; [apply Hf|done]. }
  intros x x' (X & HX & Ex)%Hnames (X' & HX' & Ex')%Hnames E. rewrite Ex, Ex' in E.
  by apply NumberToStr_inj in E as [_ ->]; [|lia..].
Qed.

Lemma finished_nil j inc : finished (mkRun j [] inc) = j.
Proof. by destruct j. Qed.

(** while a report is half handled, the other reports change nothing *)
Lemma report_idle r req m' resp :
  atomic_inv r → adding r ≠ [] → req ∈ reports (job r) → FinishedType req ≠ MAP_TASK →
  TaskFinished id id req (ms (job r)) = Ret (m', resp) → m' = ms (job r).
Proof.
  intros Hat Hne Hin Hty H. destruct (finished_inv _ Hat) as [_ _ Hrep].
  destruct (Hrep _ Hin) as [[? _]|[[H2 _]|(_ & _ & Ets)]]; [done|by apply (at_reports _ Hat Hne) in H2|].
  unfold TaskFinished in H. rewrite (proj2 (Z.eqb_neq _ _) Hty), Ets in H.
  rewrite (proj2 (Z.eqb_neq _ _) (at_reports _ Hat Hne _ Hin)) in H.
  go_step H. simplify_eq. go_steps E; try done. unfold TaskFinished_mapFail.
  by destruct (isMapDone _), (ms (job r)).
Qed.

(** a worker on a map task reports a map task, or a failure *)
Lemma map_work_report mapf' io iter tasks k d d' req :
  DoWork_switch mapf' reducef io iter (mkTaskResponse MAP_TASK tasks 0 k) d = Ret (d', req) →
  FinishedType req ≠ REDUCE_TASK.
Proof.
  unfold DoWork_switch. simpl. intros H. go_step H. destruct a as [d1 [ts|]]; by simplify_eq.
Qed.

(** *** Every step keeps it *)

Lemma atomic_getMap m d a rs ad inc order m' tasks :
  atomic_inv (mkRun (mkJob m d a rs) ad inc) →
  order ≡ₚ map_to_list (mapTask m) → GetTask_map order m = (m', tasks) →
  atomic_inv (mkRun (mkJob m' d (handOut MAP_TASK tasks a) rs) ad inc).
Proof.
  intros [Hr Had Has Hrp] Hord H. split; simpl in *; try done.
  - eapply ar_step; [exact Hr|]. eapply as_getMap; [|by apply GetTask_map_adding].
    destruct (finishAdding_fields ad m) as (E & _). simpl. by rewrite E.
  - intros Hne ty ts Hin. destruct tasks as [|t tasks]; simpl in Hin; [by eapply Has|].
    apply elem_of_cons in Hin as [[= -> _]|Hin]; [done|by eapply Has].
Qed.

Lemma atomic_getReduce m d a rs ad inc buckets order m' tasks :
  atomic_inv (mkRun (mkJob m d a rs) ad inc) → isMapDone m = true →
  buckets ≡ₚ map_to_list (reduceBucket m) → order ≡ₚ map_to_list (reduceTask m) →
  GetTask_reduce buckets order m = (m', tasks) →
  ad = [] ∨ ¬ 0 < firstBucket buckets →
  atomic_inv (mkRun (mkJob m' d (handOut REDUCE_TASK tasks a) rs) ad inc).
Proof.
  intros Hat Hd Hbs Hord H [->|Hno].
  - destruct Hat as [Hr Had Has Hrp]. rewrite finished_nil in Hr.
    split; simpl in *; try done. rewrite finished_nil.
    eapply ar_step; [exact Hr|]. by eapply as_getReduce.
  - unfold GetTask_reduce in H. rewrite (proj2 (Z.ltb_nlt _ _) Hno) in H. by simplify_eq.
Qed.

Lemma atomic_work m d a rs ad inc ty tasks mapf' io iter d' req :
  atomic_inv (mkRun (mkJob m d a rs) ad inc) →
  (ty, tasks) ∈ a → mapRun mapf mapf' → (∀ t rm, iter t rm ≡ₚ map_to_list rm) →
  DoWork_switch mapf' reducef io iter (mkTaskResponse ty tasks 0 (nReduce m)) d = Ret (d', req) →
  honest io → atomic_inv (mkRun (mkJob m d' a (req :: rs)) ad inc).
Proof.
  intros [Hr Had Has Hrp] Hin Hrun Hiter H Hio. simpl in *.
  destruct (finishAdding_fields ad m) as (_ & _ & _ & En). split; simpl; try done.
  - eapply ar_step; [exact Hr|]. eapply as_work; try done. simpl. by rewrite En.
  - intros ts (rq & ? & ?)%Had. exists rq. split; [by right|done].
  - intros Hne rq [->|Hq]%elem_of_cons; [|by apply Hrp].
    rewrite (Has Hne _ _ Hin) in H. by eapply map_work_report.
Qed.

Lemma atomic_reportMap m d a rs ad inc req m' taken :
  atomic_inv (mkRun (mkJob m d a rs) ad inc) →
  req ∈ rs → FinishedType req = MAP_TASK → TaskFinished_map (fr_Tasks req) m = (m', taken) →
  atomic_inv (mkRun (mkJob m' d a rs) (if (taken : bool) then fr_Tasks req :: ad else ad) inc).
Proof.
  intros Hat Hin Hty H. pose proof Hat as [Hr Had Has Hrp]. simpl in *.
  pose proof (TaskFinished_map_adding ad _ _ _ _ H) as HM.
  destruct taken.
  2: { unfold TaskFinished_map in H. destruct (isMapDone m); by simplify_eq. }
  assert (isMapDone m = false) as Hnd.
  { unfold TaskFinished_map in H. destruct (isMapDone m); [by simplify_eq|done]. }
  destruct (finishAdding_fields ad m) as (_ & Ed & _). rewrite Hnd in Ed.
  destruct (finished_inv _ Hat) as [_ Ha Hrep]. simpl in Ha, Hrep.
  assert (finishAdding (fr_Tasks req :: ad) m'
    = TaskFinished_addReduce (fr_Tasks req) (finishAdding ad m')) as Eadd.
  { rewrite (finishAdding_perm _ (ad ++ [fr_Tasks req])).
    - unfold finishAdding. by rewrite foldl_app.
    - by rewrite Permutation_cons_append.
    - eapply (adding_functional _ _ Hat). intros ts [->|Hts]%elem_of_cons; [eauto|by apply Had]. }
  split; simpl.
  - unfold finished. cbn [adding job ms dir assigned reports]. rewrite Eadd. eapply ar_step; [exact Hr|]. simpl.
    eapply as_report; [exact Hin|].
    unfold TaskFinished. rewrite Hty. simpl. by rewrite HM.
  - intros ts [->|Hts]%elem_of_cons; [eauto|by apply Had].
  - intros _ ty ts Hts. destruct (Ha _ _ Hts) as [[? _]|(_ & Hd & _)]; [done|congruence].
  - intros _ rq Hrq Hred. destruct (Hrep _ Hrq) as [[Hm _]|[(_ & Hd & _)|(_ & ? & _)]];
      [by rewrite Hm in Hred|congruence|done].
Qed.

Lemma atomic_addReduce m d a rs ad1 tasks ad2 inc :
  atomic_inv (mkRun (mkJob m d a rs) (ad1 ++ tasks :: ad2) inc) →
  atomic_inv (mkRun (mkJob (TaskFinished_addReduce tasks m) d a rs) (ad1 ++ ad2) inc).
Proof.
  intros Hat. pose proof Hat as [Hr Had Has Hrp]. simpl in *. split; simpl.
  - unfold finished in *. simpl in *.
    rewrite (finishAdding_perm _ (tasks :: ad1 ++ ad2)) in Hr; [done| |].
    + symmetry. apply Permutation_middle.
    + by eapply (adding_functional _ _ Hat).
  - intros ts Hts. apply Had. set_solver.
  - intros _ ty ts. apply Has. by destruct ad1.
  - intros _ rq. apply Hrp. by destruct ad1.
Qed.

Lemma atomic_report m d a rs ad inc req m' resp :
  atomic_inv (mkRun (mkJob m d a rs) ad inc) → req ∈ rs → FinishedType req ≠ MAP_TASK →
  TaskFinished id id req m = Ret (m', resp) →
  atomic_inv (mkRun (mkJob m' d a rs) ad inc).
Proof.
  intros Hat Hin Hty H. destruct (decide (ad = [])) as [->|Hne].
  - destruct Hat as [Hr Had Has Hrp]. rewrite finished_nil in Hr. split; try done.
    rewrite finished_nil. eapply ar_step; [exact Hr|]. by eapply as_report.
  - pose proof (report_idle _ req m' resp Hat Hne Hin Hty H) as E. simpl in E. by subst.
Qed.

Lemma atomic_recover m d a rs ad inc ty tasks m' :
  atomic_inv (mkRun (mkJob m d a rs) ad inc) → (ty, tasks) ∈ a →
  recoverRequest tasks ty m = Ret m' → atomic_inv (mkRun (mkJob m' d a rs) ad inc).
Proof.
  intros [Hr Had Has Hrp] Hin H. simpl in *. split; simpl; try done.
  eapply ar_step; [exact Hr|]. eapply as_recover; [exact Hin|]. simpl.
  destruct (decide (ad = [])) as [->|Hne]; [done|].
  rewrite (Has Hne _ _ Hin) in *. by apply recoverRequest_adding.
Qed.

Lemma run_atomic r : mrreach r → incidents r = [] → atomic_inv r.
Proof.
  induction 1 as [|r r' Hreach IH Hstep]; intros Hinc.
  { split; simpl; try done; [apply ar_init|by intros ? ?%elem_of_nil]. }
  specialize (IH (incidents_mono _ _ Hstep Hinc)). destruct Hstep; simpl in Hinc.
  - by eapply atomic_getMap.
  - destruct (decide (ad = [])); [by eapply atomic_getReduce; eauto|].
    destruct (Z.ltb_spec 0 (firstBucket buckets)); [done|].
    eapply atomic_getReduce; eauto. right. lia.
  - by eapply atomic_work.
  - done.
  - by eapply atomic_reportMap.
  - by apply atomic_addReduce.
  - by eapply atomic_report.
  - by eapply atomic_recover.
Qed.

(** ** Results *)

Lemma run_done_lines r :
  mrreach r → incidents r = [] → Done (ms (job r)) = true →
  ∃ outs, Forall2 (bucketOutput mapf files fs0 n (dir (job r))) (seqZ 1 n) outs
    ∧ mjoin outs ≡ₚ reduceSpec reducef (emitted mapf files fs0).
Proof.
  intros Hr Hinc Hd. pose proof (at_reach _ (run_atomic _ Hr Hinc)) as Ha.
  apply (done_lines _ _ _ _ _ Hok reducef_perm _ Ha). unfold Done, finished. simpl.
  by destruct (finishAdding_fields (adding r) (ms (job r))) as (_ & _ & -> & _).
Qed.

(** C20: When the master says the job is done, the output files hold the result of
    the sequential program: the output file of every bucket that got a key is there,
    and the lines of all of them together are, up to order, the lines that
    mrsequential prints, however often tasks were repeated, lost and reported late.
    Conditions: the job is well formed ([job_ok]), [reducef] does not depend on the
    order of the values, and in the run no bucket was handed out while the report of a
    map task was half handled, and no error of [Fprintf] or [Rename] was ignored. *)
Theorem mapreduce_correct r :
  mrreach r → incidents r = [] → Done (ms (job r)) = true →
  ∃ outs lines,
    Forall2 (bucketOutput mapf files fs0 n (dir (job r))) (seqZ 1 n) outs
    ∧ mrsequential mapf reducef files fs0 = Some lines
    ∧ mjoin outs ≡ₚ lines.
Proof.
  intros Hreach Hinc Hd. destruct (run_done_lines r Hreach Hinc Hd) as (outs & H1 & H2).
  exists outs, (outputOf reducef (emitted mapf files fs0)). split_and!; [done| |].
  - unfold mrsequential. by rewrite (mapFiles_emitted _ _ _ _ Hok).
  - rewrite H2. symmetry. by apply outputOf_perm.
Qed.

(** A job whose map tasks emit nothing has no reduce task, and the master never
    says it is done. *)
Theorem no_keys_never_done r :
  emitted mapf files fs0 = [] → mrreach r → incidents r = [] → Done (ms (job r)) = false.
Proof.
  intros He Hr Hinc. pose proof (at_reach _ (run_atomic _ Hr Hinc)) as Ha.
  apply (no_keys_not_done _ _ _ _ _ Hok reducef_perm _ He) in Ha. unfold Done, finished in *.
  simpl in Ha. by destruct (finishAdding_fields (adding r) (ms (job r))) as (_ & _ & <- & _).
Qed.

Hypothesis Hkeys : emitted mapf files fs0 ≠ [].

(** C26: When the map tasks emit anything at all, and however the job has got where it
    is (workers that crashed, were slow or lost their connection, tasks handed out
    several times, reports half handled): when the handlers that are half-way through a
    report have gone on and the timers of the tasks handed out have fired, a worker
    whose calls and files work, and with which no other worker interferes, returns from
    its loop after at most one round per unfinished map task and one per bucket; the
    master is done then, and the output files hold the sequential program's result.
    Conditions as for C20: [job_ok], an order-independent [reducef], and no incident so
    far. *)
Theorem worker_finishes_job mapf' r rounds :
  mapRun mapf mapf' → mrreach r → incidents r = [] → Forall healthy rounds →
  (size (mapTask (ms (job r))) + Z.to_nat n ≤ length rounds)%nat →
  ∃ m m' d' outs lines,
    fireTimers (assigned (job r)) (finishAdding (adding r) (ms (job r))) = Ret m
    ∧ Worker mapf' reducef rounds m (dir (job r)) = Ret (m', d', true) ∧ Done m' = true
    ∧ Forall2 (bucketOutput mapf files fs0 n d') (seqZ 1 n) outs
    ∧ mrsequential mapf reducef files fs0 = Some lines ∧ mjoin outs ≡ₚ lines.
Proof.
  intros Hrun Hr Hinc Hall Hlen.
  apply (worker_finishes mapf reducef files fs0 n Hok reducef_perm Hkeys mapf' Hrun (finished r)).
  - exact (at_reach _ (run_atomic _ Hr Hinc)).
  - done.
  - unfold finished. simpl.
    by destruct (finishAdding_fields (adding r) (ms (job r))) as (-> & _).
Qed.
End job.
