(* ===== verification/MRAppsSpec.v ===== *)
(** * Package mrapps: what the jobs compute

    The word count and the inverted index, run by the master and any number of workers
    over the shared directory, end to end: from the bytes of the input files to the
    lines of the output files. *)

From Stdlib Require Import Ascii.
From stdpp Require Import sorting.
From S2P Require Import Prelude MRMaster MRWorker MRApps MRSpec MRJob.

(** ** The results, from the input files *)

(** [docs] are the files with their words: a word is a run of letters of the decoded text
    between other runes ([split_at]) *)
Definition readAs (letters : Z → bool) (files : list string) (fs0 : FS)
    (docs : list (string * list string)) : Prop :=
  docs.*1 = files
  ∧ Forall (λ d, split_at (λ r, negb (IsLetter letters r))
                   (runes (default ""%string (fs0 !! d.1))) d.2) docs.

Section results.
Context (docs : list (string * list string)).

(** all words, each as often as it occurs *)
Definition allWords : list string := mjoin docs.*2.

Definition occurrences (w : string) : Z := len (filter (λ v, v = w) allWords).

(** the files a word occurs in *)
Definition documents (w : string) : list string := (filter (λ d, w ∈ d.2) docs).*1.

Definition outLine (w r : string) : string := w +:+ " " +:+ r +:+ String "010"%char EmptyString.

(** one line per word: the number of its occurrences *)
Definition wc_result : list string :=
  (λ w, outLine w (Itoa (occurrences w))) <$> elements (list_to_set (C := gset string) allWords).

(** one line per word: how many files have it, and which, in the order of their names *)
Definition index_result : list string :=
  (λ w, outLine w (Itoa (len (documents w)) +:+ " " +:+ Join (sort_Strings (documents w)) ","))
    <$> elements (list_to_set (C := gset string) allWords).
End results.

Section emitted.
Context (letters : Z → bool) (fs0 : FS).

(** the words of a file as the applications find them *)
Definition fileWords (f : string) : list string :=
  FieldsFunc (default ""%string (fs0 !! f)) (λ r, negb (IsLetter letters r)).

Lemma fileWords_docs files : readAs letters files fs0 ((λ f, (f, fileWords f)) <$> files).
Proof.
  split; [by rewrite <-list_fmap_compose, list_fmap_id|].
  apply Forall_fmap, Forall_true. intros f. apply FieldsFunc_split.
Qed.

Lemma readAs_inv files docs :
  readAs letters files fs0 docs → docs = (λ f, (f, fileWords f)) <$> files.
Proof.
  intros [<- Hall]. rewrite <-list_fmap_compose, <-(list_fmap_id docs) at 1.
  apply list_fmap_ext. intros i [f ws] Hi. simpl. f_equal.
  rewrite Forall_lookup in Hall. eapply split_at_unique; [by apply (Hall i (f, ws))|].
  apply FieldsFunc_split.
Qed.

Abbreviation docsOf files := ((λ f, (f, fileWords f)) <$> files).

Lemma allWords_files files : allWords (docsOf files) = mjoin (fileWords <$> files).
Proof. unfold allWords. by rewrite <-list_fmap_compose. Qed.

(** what the map tasks of a word count emit *)
Lemma wc_emitted files :
  emitted (wc_Map letters) files fs0 = (λ w, mkKeyValue w "1") <$> allWords (docsOf files).
Proof.
  rewrite emitted_files, allWords_files. induction files as [|f l IH]; [done|].
  rewrite !fmap_cons, !join_cons, fmap_app, IH, wc_Map_words. done.
Qed.

Lemma wc_reduceSpec files :
  reduceSpec wc_Reduce (emitted (wc_Map letters) files fs0) = wc_result (docsOf files).
Proof.
  rewrite wc_emitted. unfold reduceSpec, wc_result, keysOf, occurrences.
  generalize (allWords (docsOf files)). intros words. rewrite <-list_fmap_compose. simpl.
  replace (Key ∘ (λ w, mkKeyValue w "1") <$> words) with words
    by (by rewrite <-(list_fmap_id words) at 1).
  apply list_fmap_ext. intros i w _. unfold line, outLine, wc_Reduce, valuesOf, len.
  do 5 f_equal. by rewrite length_fmap, filter_fmap, length_fmap.
Qed.

(** what the map tasks of an index emit *)
Lemma index_values files (w : string) :
  valuesOf w (emitted (indexer_Map letters elements) files fs0) ≡ₚ documents (docsOf files) w.
Proof.
  rewrite emitted_files. unfold documents. induction files as [|f l IH]; [done|].
  rewrite !fmap_cons, join_cons, filter_cons. unfold valuesOf in *.
  rewrite filter_app, fmap_app, IH, indexer_Map_words by done. fold (fileWords f).
  rewrite filter_fmap, <-list_fmap_compose. simpl.
  set (S := list_to_set (C := gset string) (fileWords f)).
  assert (filter (λ a, a = w) (elements S) ≡ₚ if decide (w ∈ fileWords f) then [w] else []) as ->.
  { apply NoDup_Permutation.
    - apply NoDup_filter, NoDup_elements.
    - case_decide; [apply NoDup_singleton|apply NoDup_nil_2].
    - intros v. rewrite list_elem_of_filter, elem_of_elements. unfold S.
      rewrite elem_of_list_to_set. case_decide; rewrite ?list_elem_of_singleton, ?elem_of_nil;
        naive_solver. }
  by case_decide.
Qed.

Lemma index_keys files :
  keysOf (emitted (indexer_Map letters elements) files fs0)
  = list_to_set (allWords (docsOf files)).
Proof.
  rewrite emitted_files, allWords_files. induction files as [|f l IH]; [done|].
  rewrite !fmap_cons, !join_cons. unfold keysOf in *.
  rewrite fmap_app, !list_to_set_app_L, IH. f_equal. apply set_eq. intros w.
  rewrite !elem_of_list_to_set, indexer_Map_words, <-list_fmap_compose by done.
  rewrite list_elem_of_fmap. setoid_rewrite elem_of_elements.
  setoid_rewrite elem_of_list_to_set. simpl. unfold fileWords. naive_solver.
Qed.

Lemma index_reduceSpec files :
  reduceSpec indexer_Reduce (emitted (indexer_Map letters elements) files fs0)
  = index_result (docsOf files).
Proof.
  unfold reduceSpec, index_result. rewrite index_keys. apply list_fmap_ext. intros i w _.
  unfold line, outLine. rewrite (indexer_Reduce_perm w _ _ (index_values files w)).
  unfold indexer_Reduce, len, sort_Strings. by rewrite (merge_sort_Permutation strLe) at 1.
Qed.
End emitted.

(** a worker may range over the set of words in any order *)
Lemma indexer_mapRun letters order :
  (∀ m, order m ≡ₚ elements m) → mapRun (indexer_Map letters elements) (indexer_Map letters order).
Proof. intros Hord f c. by rewrite !indexer_Map_words. Qed.

(** ** The jobs *)

Section jobs.
Context {JC : JsonCodec} {SK : SortByKey}.
Context (letters : Z → bool) (files : list string) (fs0 : FS) (n : Z).
Context (docs : list (string * list string)) (Hdocs : readAs letters files fs0 docs).

(** C23: When the master of a word-count job says it is done, the output files hold
    exactly one line for every word of the input files (a word is a maximal run of
    letters of the decoded text), with the number of its occurrences in all of them;
    however often tasks were lost, repeated and reported late.  Conditions: the job is
    well formed ([job_ok]), no bucket was handed out while the report of a map task was
    half handled, and no error of [Fprintf] or [Rename] was ignored. *)
Theorem wc_job (Hok : job_ok (wc_Map letters) files fs0 n) r :
  mrreach (wc_Map letters) wc_Reduce files fs0 n r → incidents r = [] →
  Done (ms (job r)) = true →
  ∃ outs, Forall2 (bucketOutput (wc_Map letters) files fs0 n (dir (job r))) (seqZ 1 n) outs
    ∧ mjoin outs ≡ₚ wc_result docs.
Proof.
  intros Hr Hinc Hd. rewrite (readAs_inv _ _ _ _ Hdocs), <-wc_reduceSpec.
  by apply (run_done_lines _ _ _ _ _ Hok wc_Reduce_perm).
Qed.

(** C24: When the master of an index job says it is done, the output files hold exactly
    one line for every word of the input files: the number of the files that contain it
    and their names, sorted, each once; in whatever order the map tasks range over their
    sets of words.  Conditions: as for the word count. *)
Theorem index_job (Hok : job_ok (indexer_Map letters elements) files fs0 n) r :
  mrreach (indexer_Map letters elements) indexer_Reduce files fs0 n r → incidents r = [] →
  Done (ms (job r)) = true →
  ∃ outs, Forall2 (bucketOutput (indexer_Map letters elements) files fs0 n (dir (job r)))
            (seqZ 1 n) outs
    ∧ mjoin outs ≡ₚ index_result docs.
Proof.
  intros Hr Hinc Hd. rewrite (readAs_inv _ _ _ _ Hdocs), <-index_reduceSpec.
  by apply (run_done_lines _ _ _ _ _ Hok indexer_Reduce_perm).
Qed.
End jobs.
