(* ===== verification/MRMain.v ===== *)
(** * Package main: the processes of a MapReduce job

    [mrmaster.go] and [mrworker.go] from their command lines on.  Plugins are an argument:
    what [plugin.Open] and [Lookup] find.  The polling loop of the master's process takes
    the states that [Done] looks at, one per second. *)

From S2P Require Import Prelude MRMaster MRWorker MRSpec MRLive MRJob.

(** a process that has ended with a message ([os.Exit], [log.Fatalf] without the time it
    prints), or has got as far as [a] *)
Inductive process (A : Type) : Type :=
| Exited (code : Z) (stderr : string)
| Running (a : A).
Arguments Exited {A}.
Arguments Running {A}.

(** ** mrmaster.go *)

Definition newline : string := String (Ascii.ascii_of_nat 10) "".

(** [main] up to the loop *)
Definition mrmaster_main (osArgs : list string) : process Master :=
  if len osArgs <? 2 then Exited 1 ("Usage: mrmaster inputfiles..." +:+ newline)
  else Running (MakeMaster (drop 1 osArgs) 10).

(** [for m.Done() == false { time.Sleep(time.Second) }; time.Sleep(time.Second)]: the
    seconds until the process ends; [None]: it has not ended *)
Fixpoint mrmaster_wait (polled : list Master) : option nat :=
  match polled with
  | [] => None
  | m :: polled => if Done m then Some 1%nat else S <$> mrmaster_wait polled
  end.

(** ** mrworker.go *)

(** what a plugin exports under a name *)
Inductive Symbol :=
| MapSymbol (mapf : string → string → list KeyValue)
| ReduceSymbol (reducef : string → list string → string)
| OtherSymbol.

Abbreviation Plugin := (string → option Symbol).

Section worker.
Context (plugin_Open : string → option Plugin).
Context `{!JsonCodec} `{!SortByKey}.

(** the type assertions panic *)
Definition loadPlugin (filename : string)
    : go (process ((string → string → list KeyValue) * (string → list string → string))) :=
  match plugin_Open filename with
  | None => Ret (Exited 1 ("cannot load plugin " +:+ filename))
  | Some p =>
      match p "Map" with
      | None => Ret (Exited 1 ("cannot find Map in " +:+ filename))
      | Some xmapf =>
          mapf ← (if xmapf is MapSymbol f then Ret f else Panic);
          match p "Reduce" with
          | None => Ret (Exited 1 ("cannot find Reduce in " +:+ filename))
          | Some xreducef =>
              reducef ← (if xreducef is ReduceSymbol f then Ret f else Panic);
              Ret (Running (mapf, reducef))
          end
      end
  end.

(** [main] with the rounds of [Worker] *)
Definition mrworker_main (osArgs : list string) (rounds : list Round) (m : Master) (fs : FS)
    : go (process (Master * FS * bool)) :=
  match osArgs with
  | [_; so] =>
      p ← loadPlugin so;
      match p with
      | Exited code msg => Ret (Exited code msg)
      | Running (mapf, reducef) => Running <$> Worker mapf reducef rounds m fs
      end
  | _ => Ret (Exited 1 ("Usage: mrworker xxx.so" +:+ newline))
  end.

(** ** The job *)

(** the process ends one second after the first poll that finds the job done *)
Lemma mrmaster_wait_done polled m k :
  polled !! k = Some m → Done m = true → (∀ i m', (i < k)%nat → polled !! i = Some m' → Done m' = false) →
  mrmaster_wait polled = Some (S k).
Proof.
  revert k. induction polled as [|p polled IH]; intros k Hk Hd Hbefore; [done|]. simpl.
  destruct k as [|k]; [simpl in Hk; by simplify_eq; rewrite Hd|].
  rewrite (Hbefore 0%nat p) by (done || lia). rewrite (IH k); [done..|].
  intros i m' Hi Hm'. apply (Hbefore (S i)); [lia|done].
Qed.

Lemma mrmaster_wait_inv polled k :
  mrmaster_wait polled = Some k → ∃ m, polled !! pred k = Some m ∧ Done m = true.
Proof.
  revert k. induction polled as [|p polled IH]; intros k Hk; simpl in *; [done|].
  destruct (Done p) eqn:Hd; [injection Hk as <-; by exists p|].
  destruct (mrmaster_wait polled) as [k'|] eqn:E; [|done]. injection Hk as <-.
  destruct (IH k' eq_refl) as (m & Hm & Hdm). destruct k' as [|k']; [|by exists m].
  by destruct polled as [|q polled]; simpl in E; [|destruct (Done q), (mrmaster_wait polled)].
Qed.

Section job.
Context (prog so : string) (files : list string) (fs0 : FS).
Context (mapf : string → string → list KeyValue) (reducef : string → list string → string).
Context (Hok : job_ok mapf files fs0 10).
Context (reducef_perm : ∀ k vs vs', vs ≡ₚ vs' → reducef k vs = reducef k vs').

(** in runs without incidents the master's process ends only when the output is there *)
Theorem mrmaster_ends_with_output (runs : list Run) k :
  (∀ r, r ∈ runs → mrreach mapf reducef files fs0 10 r ∧ incidents r = []) →
  mrmaster_wait ((λ r, ms (job r)) <$> runs) = Some k →
  ∃ r outs lines, r ∈ runs ∧ Forall2 (bucketOutput mapf files fs0 10 (dir (job r))) (seqZ 1 10) outs
    ∧ mrsequential mapf reducef files fs0 = Some lines ∧ mjoin outs ≡ₚ lines.
Proof.
  intros Hall Hw. destruct (mrmaster_wait_inv _ _ Hw) as (m & Hm & Hd).
  apply list_lookup_fmap_Some in Hm as (j & -> & Hj). apply list_elem_of_lookup_2 in Hj.
  destruct (Hall j Hj) as [Hr Hinc].
  destruct (run_done_lines _ _ _ _ _ Hok reducef_perm j Hr Hinc Hd) as (outs & H1 & H2).
  exists j, outs, (outputOf reducef (emitted mapf files fs0)). split_and!; try done.
  - unfold mrsequential. by rewrite (mapFiles_emitted _ _ _ _ Hok).
  - rewrite H2. symmetry. by apply outputOf_perm.
Qed.

(** no more map tasks than files *)
Lemma numberFiles_size i l : ∀ mt, (size (numberFiles i l mt) ≤ size mt + length l)%nat.
Proof.
  revert i. induction l as [|f l IH]; intros i mt; simpl; [lia|].
  etrans; [apply IH|]. destruct (mt !! f) eqn:E.
  - rewrite map_size_insert_Some by (by eexists). lia.
  - rewrite map_size_insert_None by done. lia.
Qed.

(** a job from its two command lines: one worker finishes it, the master's process ends
    two seconds after it looks, and the output is that of the sequential program *)
Theorem job_from_command_lines (p : Plugin) rounds :
  plugin_Open so = Some p → p "Map" = Some (MapSymbol mapf) → p "Reduce" = Some (ReduceSymbol reducef) →
  files ≠ [] → emitted mapf files fs0 ≠ [] → Forall healthy rounds → (length files + 10 ≤ length rounds)%nat →
  ∃ m m' d' outs lines,
    mrmaster_main (prog :: files) = Running m
    ∧ mrworker_main [prog; so] rounds m fs0 = Ret (Running (m', d', true))
    ∧ mrmaster_wait [m; m'] = Some 2%nat
    ∧ Forall2 (bucketOutput mapf files fs0 10 d') (seqZ 1 10) outs
    ∧ mrsequential mapf reducef files fs0 = Some lines ∧ mjoin outs ≡ₚ lines.
Proof.
  intros Hp Hm Hr Hne Hkeys Hall Hlen. set (m := MakeMaster files 10).
  pose proof (ar_init mapf reducef files fs0 10) as R0.
  destruct (areach_live mapf reducef files fs0 10 Hok reducef_perm Hkeys _ R0) as [Hpe _]. simpl in Hpe.
  assert (size (mapTask m) ≤ length files)%nat as Hsize
    by exact (numberFiles_size 0 files ∅).
  destruct (Worker_returns mapf reducef files fs0 10 Hok reducef_perm Hkeys mapf (λ f c, Permutation_refl _) rounds m fs0 [] [])
    as (m' & d' & a' & rs' & EW & Hd & R1); [done..|lia|change (size (mapTask m) + 10 ≤ length rounds)%nat; lia|].
  destruct (done_lines _ _ _ _ _ Hok reducef_perm _ R1 Hd) as (outs & H1 & H2).
  exists m, m', d', outs, (outputOf reducef (emitted mapf files fs0)). split_and!; try done.
  - unfold mrmaster_main. rewrite (proj2 (Z.ltb_ge _ _)); [done|]. unfold len. simpl.
    destruct files; [done|simpl; lia].
  - simpl. unfold loadPlugin. rewrite Hp, Hm. simpl. rewrite Hr. simpl. by rewrite EW.
  - simpl. by rewrite Hd.
  - unfold mrsequential. by rewrite (mapFiles_emitted _ _ _ _ Hok).
  - rewrite H2. symmetry. by apply outputOf_perm.
Qed.
End job.
End worker.
