(* ===== verification/MRWitness.v ===== *)
(** * Package mr: concrete jobs

    Instances of the JSON and sorting contracts, a job that runs to its end, and
    executions in which two handlers interleave or a reduce task fails. *)

From Stdlib Require Import Ascii Sorting.Sorted.
From stdpp Require Import sorting.
From S2P Require Import Prelude MRMaster MRWorker MRApps MRSpec MRLive MRJob MRAppsSpec.

(** ** The contracts can be met *)

Fixpoint pos_string (p : positive) : string :=
  match p with
  | xO p => String "0" (pos_string p)
  | xI p => String "1" (pos_string p)
  | xH => EmptyString
  end.

Fixpoint string_pos (s : string) : positive :=
  match s with
  | String c s => if decide (c = "0"%char) then xO (string_pos s) else xI (string_pos s)
  | EmptyString => xH
  end.

Lemma string_pos_string p : string_pos (pos_string p) = p.
Proof. induction p as [p IH|p IH|]; simpl; by rewrite ?IH. Qed.

#[export] Program Instance countable_json : JsonCodec := {|
  json_Marshal l := pos_string (encode l);
  json_Unmarshal s := decode (string_pos s);
  json_valid _ := True;
|}.
Next Obligation. intros l _. simpl. by rewrite string_pos_string, decode_encode. Qed.

#[export] Instance keyLe_dec a b : Decision (keyLe a b) := decide (_ = true).
#[export] Instance keyLe_total : Total keyLe.
Proof. intros a b. apply String.leb_total. Qed.
#[export] Instance keyLe_trans : Transitive keyLe.
Proof. intros a b c. apply leb_trans. Qed.

#[export] Program Instance merge_sort_byKey : SortByKey := {| sort_Sort := merge_sort keyLe |}.
Next Obligation. intros l. apply merge_sort_Permutation. Qed.
Next Obligation. intros l. apply (StronglySorted_merge_sort keyLe). Qed.

(** ** Driving a job *)

Section drive.
Context (mapf : string → string → list KeyValue) (reducef : string → list string → string).
Context (files : list string) (fs0 : FS) (n : Z).
Implicit Types r : Run.

Abbreviation reach := (mrreach mapf reducef files fs0 n).

Definition anyIter (t : AssignTask) (rm : gmap Z (list KeyValue)) := map_to_list rm.

(** a worker asks for a map task, or for a reduce task *)
Definition getMap r : Run :=
  let j := job r in
  let '(m, ts) := GetTask_map (map_to_list (mapTask (ms j))) (ms j) in
  mkRun (mkJob m (dir j) (handOut MAP_TASK ts (assigned j)) (reports j)) (adding r) (incidents r).
Definition getReduce r : Run :=
  let j := job r in
  if isMapDone (ms j) then
    let buckets := map_to_list (reduceBucket (ms j)) in
    let '(m, ts) := GetTask_reduce buckets (map_to_list (reduceTask (ms j))) (ms j) in
    mkRun (mkJob m (dir j) (handOut REDUCE_TASK ts (assigned j)) (reports j)) (adding r)
      (if decide (adding r = []) then incidents r
       else if 0 <? firstBucket buckets then HandedOutEarly :: incidents r else incidents r)
  else r.

(** the task handed out last is done with the file system [io] *)
Definition workWith (io : string → ioFate) (inc : list Incident) r : Run :=
  let j := job r in
  match assigned j with
  | (ty, ts) :: _ =>
      match DoWork_switch mapf reducef io anyIter
              (mkTaskResponse ty ts 0 (nReduce (ms j))) (dir j) with
      | Ret (d, req) => mkRun (mkJob (ms j) d (assigned j) (req :: reports j)) (adding r) inc
      | _ => r
      end
  | [] => r
  end.
Definition work r : Run := workWith (λ _, Written) (incidents r) r.

(** the report sent last arrives, its first part; and the second part of the last one *)
Definition report1 r : Run :=
  let j := job r in
  match reports j with
  | req :: _ =>
      if decide (FinishedType req = MAP_TASK) then
        let '(m, taken) := TaskFinished_map (fr_Tasks req) (ms j) in
        mkRun (mkJob m (dir j) (assigned j) (reports j))
          (if (taken : bool) then fr_Tasks req :: adding r else adding r) (incidents r)
      else match TaskFinished id id req (ms j) with
           | Ret (m, _) => mkRun (mkJob m (dir j) (assigned j) (reports j)) (adding r) (incidents r)
           | _ => r
           end
  | [] => r
  end.
Definition report2 r : Run :=
  let j := job r in
  match adding r with
  | tasks :: ad =>
      mkRun (mkJob (TaskFinished_addReduce tasks (ms j)) (dir j) (assigned j) (reports j)) ad
        (incidents r)
  | [] => r
  end.
Definition report r : Run := report2 (report1 r).

(** the timer of the task handed out last *)
Definition recover r : Run :=
  let j := job r in
  match assigned j with
  | (ty, ts) :: _ =>
      match recoverRequest ts ty (ms j) with
      | Ret m => mkRun (mkJob m (dir j) (assigned j) (reports j)) (adding r) (incidents r)
      | _ => r
      end
  | [] => r
  end.

Lemma reach_getMap r : reach r → reach (getMap r).
Proof.
  intros H. eapply mrr_step; [exact H|]. destruct r as [[m d a rs] ad inc]. unfold getMap. simpl.
  destruct (GetTask_map _ m) eqn:E. by eapply mr_getMap.
Qed.

Lemma reach_getReduce r : reach r → reach (getReduce r).
Proof.
  intros H. destruct r as [[m d a rs] ad inc]. unfold getReduce. simpl.
  destruct (isMapDone m) eqn:Hd; [|done]. eapply mrr_step; [exact H|].
  destruct (GetTask_reduce _ _ m) eqn:E. by eapply mr_getReduce.
Qed.

Lemma reach_work r : reach r → reach (work r).
Proof.
  intros H. destruct r as [[m d [|[ty ts] a] rs] ad inc]; [done|]. unfold work, workWith. simpl.
  destruct (DoWork_switch _ _ _ _ _ d) as [[d' req]| |] eqn:E; [|done|done].
  eapply mrr_step; [exact H|].
  eapply mr_work; [by left| | |exact E|by left]; by intros ? ?.
Qed.

(** ... with errors that the worker ignores *)
Lemma reach_workWith io r :
  reach r → reach (workWith io (IgnoredError :: incidents r) r).
Proof.
  intros H. destruct r as [[m d [|[ty ts] a] rs] ad inc]; [done|]. unfold workWith. simpl.
  destruct (DoWork_switch _ _ _ _ _ d) as [[d' req]| |] eqn:E; [|done|done].
  eapply mrr_step; [exact H|]. eapply mr_workIgnoring; [by left| | |exact E]; by intros ? ?.
Qed.

Lemma reach_report1 r : reach r → reach (report1 r).
Proof.
  intros H. destruct r as [[m d a [|req rs]] ad inc]; [done|]. unfold report1. simpl.
  case_decide as Hty.
  - destruct (TaskFinished_map _ m) as [m' taken] eqn:E.
    eapply mrr_step; [exact H|]. eapply mr_reportMap; [by left|done..].
  - destruct (TaskFinished id id req m) as [[m' resp]| |] eqn:E; [|done|done].
    eapply mrr_step; [exact H|]. eapply mr_report; [by left|done|exact E].
Qed.

Lemma reach_report2 r : reach r → reach (report2 r).
Proof.
  intros H. destruct r as [[m d a rs] [|tasks ad] inc]; [done|]. unfold report2. simpl.
  eapply mrr_step; [exact H|]. apply (mr_addReduce _ _ m d a rs [] tasks ad inc).
Qed.

Lemma reach_report r : reach r → reach (report r).
Proof. intros. by apply reach_report2, reach_report1. Qed.

Lemma reach_recover r : reach r → reach (recover r).
Proof.
  intros H. destruct r as [[m d [|[ty ts] a] rs] ad inc]; [done|]. unfold recover. simpl.
  destruct (recoverRequest ts ty m) as [m'| |] eqn:E; [|done|done].
  eapply mrr_step; [exact H|]. by eapply mr_recover; [by left|exact E].
Qed.
End drive.

(** ** A job with two files and two buckets *)

(** every file emits its content and ["a"] *)
Definition map1 (f c : string) : list KeyValue := [mkKeyValue c "1"; mkKeyValue "a" "1"].
Definition inputs : list string := ["in1"; "in2"].
Definition dir0 : FS := <["in1" := "a"]> (<["in2" := "b"]> ∅).

Definition start (n : Z) (d : FS) : Run := mkRun (mkJob (MakeMaster inputs n) d [] []) [] [].
Definition job0 : Run := start 2 dir0.

(** both map tasks, one of them handed out twice; then the reduce tasks *)
Definition mapTurn (r : Run) : Run := report (work map1 wc_Reduce (getMap r)).
Definition reduceTurn (r : Run) : Run := report (work map1 wc_Reduce (getReduce r)).
Definition job1 : Run := mapTurn (mapTurn (recover (getMap job0))).
Definition job2 : Run := reduceTurn (reduceTurn (recover (getReduce job1))).

Lemma job2_reach : mrreach map1 wc_Reduce inputs dir0 2 job2.
Proof.
  apply reach_report, reach_work, reach_getReduce, reach_report, reach_work, reach_getReduce,
    reach_recover, reach_getReduce.
  apply reach_report, reach_work, reach_getMap, reach_report, reach_work, reach_getMap,
    reach_recover, reach_getMap.
  apply mrr_init.
Qed.

Lemma noDash_in f : f ∈ inputs →
  (∀ X Y, f ≠ NumberToStr X Y) ∧ (∀ Y, f ≠ outName Y).
Proof. unfold inputs. intros H. set_unfold in H. destruct H as [->|[->|[]]]; by split. Qed.

Lemma job_ok0 : job_ok map1 inputs dir0 2.
Proof.
  split.
  - lia.
  - apply (bool_decide_unpack _). by vm_compute.
  - intros f Hf. unfold inputs in Hf. set_unfold in Hf.
    destruct Hf as [->|[->|[]]]; by eexists.
  - apply noDash_in.
  - intros X. apply Forall_forall. done.
Qed.

(** the lines are those of the sequential program *)
Lemma mapreduce_correct_witness :
  Done (ms (job job2)) = true
  ∧ ∃ outs lines, Forall2 (bucketOutput map1 inputs dir0 2 (dir (job job2))) (seqZ 1 2) outs
      ∧ mrsequential map1 wc_Reduce inputs dir0 = Some lines ∧ mjoin outs ≡ₚ lines.
Proof.
  split; [vm_compute; reflexivity|].
  apply (mapreduce_correct map1 wc_Reduce inputs dir0 2 job_ok0 wc_Reduce_perm job2 job2_reach);
    vm_compute; reflexivity.
Defined.

(** a worker took the first task and never came back: another one finishes the job *)
Definition soundRound : Round :=
  mkRound Answered Answered (λ _, Written) map_to_list map_to_list map_to_list anyIter.

Lemma soundRound_healthy k : Forall healthy (repeat soundRound k).
Proof. induction k; constructor; [by split|done]. Qed.

(** a report is half handled, the next task was taken and never came back *)
Definition stalled : Run := getMap (report1 (work map1 wc_Reduce (getMap job0))).

Lemma worker_finishes_job_witness :
  ∃ m m' d' outs lines,
    fireTimers (assigned (job stalled)) (finishAdding (adding stalled) (ms (job stalled))) = Ret m
    ∧ Worker map1 wc_Reduce (repeat soundRound 4) m (dir (job stalled)) = Ret (m', d', true)
    ∧ Done m' = true
    ∧ Forall2 (bucketOutput map1 inputs dir0 2 d') (seqZ 1 2) outs
    ∧ mrsequential map1 wc_Reduce inputs dir0 = Some lines ∧ mjoin outs ≡ₚ lines.
Proof.
  apply (worker_finishes_job map1 wc_Reduce inputs dir0 2 job_ok0 wc_Reduce_perm).
  - vm_compute. discriminate.
  - by intros ? ?.
  - apply reach_getMap, reach_report1, reach_work, reach_getMap, mrr_init.
  - vm_compute. reflexivity.
  - apply soundRound_healthy.
  - vm_compute. lia.
Defined.

(** ** A word count and an index *)

(** U+00E9 is a letter, the byte FF starts no rune, U+20AC is not a letter *)
Definition text1 : string := "caf" +:+ String "195"%char (String "169"%char "-a b2a").
Definition text2 : string :=
  String "255"%char "b" +:+ String "226"%char (String "130"%char (String "172"%char "a")).
Definition noLetters (r : Z) : bool := false.
Definition dir1 : FS := <["in1" := text1]> (<["in2" := text2]> ∅).

(** a job from beginning to end: two map and two reduce tasks *)
Definition runJob mapf reducef : Run :=
  let mapTurn r := report (work mapf reducef (getMap r)) in
  let reduceTurn r := report (work mapf reducef (getReduce r)) in
  reduceTurn (reduceTurn (mapTurn (mapTurn (start 2 dir1)))).

Lemma runJob_reach mapf reducef : mrreach mapf reducef inputs dir1 2 (runJob mapf reducef).
Proof.
  apply reach_report, reach_work, reach_getReduce, reach_report, reach_work, reach_getReduce.
  apply reach_report, reach_work, reach_getMap, reach_report, reach_work, reach_getMap.
  apply mrr_init.
Qed.

Lemma job_ok1 mapf : job_ok mapf inputs dir1 2.
Proof.
  destruct job_ok0 as [H1 H2 _ H4 _]. split; try done.
  - intros f Hf. unfold inputs in Hf. set_unfold in Hf. destruct Hf as [->|[->|[]]]; by eexists.
  - intros X. by apply Forall_forall.
Qed.

Definition cafe : string := "caf" +:+ String "195"%char (String "169"%char "").
Definition docs1 : list (string * list string) :=
  [("in1", [cafe; "a"; "b"; "a"]); ("in2", ["b"; "a"])].

Lemma docs1_read : readAs noLetters inputs dir1 docs1.
Proof. exact (fileWords_docs noLetters dir1 inputs). Defined.

Lemma wc_job_witness :
  ∃ outs, Forall2 (bucketOutput (wc_Map noLetters) inputs dir1 2
                     (dir (job (runJob (wc_Map noLetters) wc_Reduce)))) (seqZ 1 2) outs
    ∧ mjoin outs ≡ₚ wc_result docs1.
Proof.
  apply (wc_job noLetters inputs dir1 2 docs1 docs1_read (job_ok1 _)); [apply runJob_reach|..];
    vm_compute; reflexivity.
Defined.

Lemma index_job_witness :
  ∃ outs, Forall2 (bucketOutput (indexer_Map noLetters elements) inputs dir1 2
                     (dir (job (runJob (indexer_Map noLetters elements) indexer_Reduce)))) (seqZ 1 2) outs
    ∧ mjoin outs ≡ₚ index_result docs1.
Proof.
  apply (index_job noLetters inputs dir1 2 docs1 docs1_read (job_ok1 _)); [apply runJob_reach|..];
    vm_compute; reflexivity.
Defined.

(** what the two jobs print *)
Example wc_result1 :
  wc_result docs1
  ≡ₚ [outLine "a" "3"; outLine "b" "2"; outLine cafe "1"].
Proof. apply (bool_decide_unpack _). by vm_compute. Qed.

Example index_result1 :
  index_result docs1
  ≡ₚ [outLine "a" "2 in1,in2"; outLine "b" "2 in1,in2";
      outLine cafe "1 in1"].
Proof. apply (bool_decide_unpack _). by vm_compute. Qed.

(** ** A job without keys *)

Lemma job_ok_nothing : job_ok (λ _ _, []) inputs dir0 2.
Proof.
  destruct job_ok0 as [H1 H2 H3 H4 _]. split; try done.
  intros X. apply Forall_forall. done.
Qed.

Lemma no_keys_never_done_witness :
  Done (ms (job (getMap job0))) = false.
Proof.
  apply (no_keys_never_done (λ _ _, []) wc_Reduce inputs dir0 2 job_ok_nothing wc_Reduce_perm).
  - vm_compute. reflexivity.
  - apply reach_getMap, mrr_init.
  - vm_compute. reflexivity.
Defined.

(** ** Runs with incidents *)

(** Another worker's [GetTask] runs between the two parts of the last map task's
    report: it gets the bucket without the last task's file, finishes it, and the
    master is done. *)
Definition raceJob : Run :=
  let r := mapTurn (start 1 dir0) in
  let r := report1 (work map1 wc_Reduce (getMap r)) in
  report2 (report1 (work map1 wc_Reduce (getReduce r))).

Lemma raceJob_reach : mrreach map1 wc_Reduce inputs dir0 1 raceJob.
Proof.
  apply reach_report2, reach_report1, reach_work, reach_getReduce.
  apply reach_report1, reach_work, reach_getMap, reach_report, reach_work, reach_getMap, mrr_init.
Qed.

(** When another worker asks for a task between the two parts of the report of
    the last map task, the job ends with an output that is not the sequential one. *)
Theorem map_report_race :
  mrreach map1 wc_Reduce inputs dir0 1 raceJob ∧ incidents raceJob = [HandedOutEarly]
  ∧ Done (ms (job raceJob)) = true
  ∧ (concatLines <$> mrsequential map1 wc_Reduce inputs dir0) ≠ dir (job raceJob) !! outName 1.
Proof.
  split; [exact raceJob_reach|]. split; [vm_compute; reflexivity|].
  split; [vm_compute; reflexivity|]. vm_compute. discriminate.
Qed.

(** the output file of the only bucket is not renamed *)
Definition lostOutput : Run :=
  let r := getReduce (mapTurn (mapTurn (start 1 dir0))) in
  report (workWith map1 wc_Reduce
    (λ f, if decide (f = outName 1) then NotRenamed else Written) (IgnoredError :: incidents r) r).

(** A worker ignores that [Rename] failed: the master is done, and there is no output. *)
Theorem ignored_rename_loses_output :
  mrreach map1 wc_Reduce inputs dir0 1 lostOutput ∧ incidents lostOutput = [IgnoredError]
  ∧ Done (ms (job lostOutput)) = true ∧ dir (job lostOutput) !! outName 1 = None.
Proof.
  split; [|vm_compute; by split_and!].
  apply reach_report, reach_workWith, reach_getReduce.
  apply reach_report, reach_work, reach_getMap, reach_report, reach_work, reach_getMap, mrr_init.
Qed.

(** A reduce task that cannot write its output reports a failure without tasks,
    and the report makes the master panic. *)
Theorem reduce_failure_panics :
  ∃ ts d req, assigned (job (getReduce job1)) !! 0%nat = Some (REDUCE_TASK, ts)
    ∧ DoWork_switch map1 wc_Reduce (λ _, Refused) anyIter (mkTaskResponse REDUCE_TASK ts 0 2)
        (dir (job job1)) = Ret (d, req)
    ∧ TaskFinished id id req (ms (job (getReduce job1))) = Panic.
Proof.
  eexists _, _, _. split; [vm_compute; reflexivity|].
  split; [vm_compute; reflexivity|]. vm_compute. reflexivity.
Qed.
