(* ===== verification/PorcBitset.v ===== *)
(** * Package porcupine: bit sets

    [bitset.go]: a set of small numbers as a slice of 64-bit words.  The slice is
    changed in place by [set] and [clear]; the model returns the changed slice.  A
    slice is never changed through a second reference (the checker clones before it
    stores one). *)

From S2P Require Import Prelude.

Abbreviation bitset := (list Z).

Definition newBitset (bits : Z) : bitset :=
  let extra := if bits mod 64 =? 0 then 0 else 1 in
  let chunks := bits / 64 + extra in
  replicate (Z.to_nat chunks) 0.

Definition clone (b : bitset) : bitset := b.

Definition bitsetIndex (pos : Z) : Z * Z := (pos / 64, pos mod 64).

Definition bitset_set (pos : Z) (b : bitset) : go bitset :=
  let '(major, minor) := bitsetIndex pos in
  w ← idx b major;
  upd b major (Z.lor w (uwrap64 (Z.shiftl 1 minor))).

Definition bitset_clear (pos : Z) (b : bitset) : go bitset :=
  let '(major, minor) := bitsetIndex pos in
  w ← idx b major;
  upd b major (Z.ldiff w (uwrap64 (Z.shiftl 1 minor))).

Definition bitset_get (pos : Z) (b : bitset) : go bool :=
  let '(major, minor) := bitsetIndex pos in
  w ← idx b major;
  Ret (negb (Z.land w (uwrap64 (Z.shiftl 1 minor)) =? 0)).

(** [bits.OnesCount64] *)
Definition OnesCount64 (v : Z) : Z :=
  len (List.filter (Z.testbit v) (seqZ 0 64)).

Definition popcnt (b : bitset) : Z := fold_left (λ total v, total + OnesCount64 v) b 0.

Definition hash (b : bitset) : Z := fold_left (λ h v, Z.lxor h v) b (uwrap64 (popcnt b)).

(** [for i := range b { if b[i] != b2[i] { return false } }] *)
Fixpoint equals_loop (b b2 : bitset) : bool :=
  match b, b2 with
  | v :: b, v2 :: b2 => if v =? v2 then equals_loop b b2 else false
  | _, _ => true
  end.

Definition equals (b b2 : bitset) : bool :=
  if len b =? len b2 then equals_loop b b2 else false.

(** ** The set that a bitset stands for *)

Definition member (b : bitset) (pos : Z) : bool :=
  match b !! Z.to_nat (pos / 64) with
  | Some w => Z.testbit w (pos mod 64)
  | None => false
  end.

(** [pos] is within the words of [b] *)
Definition inRange (b : bitset) (pos : Z) : Prop := 0 ≤ pos < 64 * len b.

Lemma bit_shift n : 0 ≤ n < 64 → uwrap64 (Z.shiftl 1 n) = 2 ^ n.
Proof.
  intros Hn. rewrite Z.shiftl_1_l. apply Z.mod_small. split; [lia|].
  apply Z.pow_lt_mono_r; lia.
Qed.

Lemma pos_div b pos : inRange b pos → 0 ≤ pos / 64 < len b ∧ 0 ≤ pos mod 64 < 64.
Proof.
  intros [H1 H2]. split; [|apply Z.mod_pos_bound; lia].
  split; [apply Z.div_pos; lia|]. apply Z.div_lt_upper_bound; lia.
Qed.

Lemma same_pos p q : p / 64 = q / 64 → p mod 64 = q mod 64 → p = q.
Proof. intros H1 H2. rewrite (Z.div_mod p 64), (Z.div_mod q 64) by lia. congruence. Qed.

(** the words other than the one at [pos] stay, and that one changes at one bit *)
Lemma member_update b pos q w w' (v : bool) :
  inRange b pos → 0 ≤ q → b !! Z.to_nat (pos / 64) = Some w →
  (∀ k, 0 ≤ k → Z.testbit w' k = if k =? pos mod 64 then v else Z.testbit w k) →
  member (<[Z.to_nat (pos / 64) := w']> b) q = if q =? pos then v else member b q.
Proof.
  intros Hr Hq Hw Hbit. destruct (pos_div b pos Hr) as [Hd Hm]. unfold member.
  assert (0 ≤ q / 64) by (apply Z.div_pos; lia).
  destruct (decide (q / 64 = pos / 64)) as [E|E].
  - rewrite E, list_lookup_insert_eq, Hw by (unfold len in *; lia).
    rewrite Hbit by (apply Z.mod_pos_bound; lia).
    destruct (Z.eqb_spec (q mod 64) (pos mod 64)), (Z.eqb_spec q pos); subst; try done.
    destruct n. by apply same_pos.
  - rewrite list_lookup_insert_ne by lia. destruct (Z.eqb_spec q pos); [by subst|done].
Qed.

Lemma set_spec b pos :
  inRange b pos →
  ∃ b', bitset_set pos b = Ret b' ∧ len b' = len b
    ∧ ∀ q, 0 ≤ q → member b' q = if q =? pos then true else member b q.
Proof.
  intros Hr. destruct (pos_div b pos Hr) as [Hd Hm]. unfold bitset_set, bitsetIndex.
  destruct (idx_total b (pos / 64)) as [w Hw]; [done|]. rewrite Hw. simpl.
  apply idx_Ret in Hw as [_ Hw]. rewrite upd_Ret by done. rewrite bit_shift by done.
  eexists. split_and!; [done|unfold len; by rewrite length_insert|].
  intros q Hq. eapply member_update; [done..|]. intros k Hk.
  rewrite Z.lor_spec, Z.pow2_bits_eqb by lia.
  destruct (Z.eqb_spec (pos mod 64) k), (Z.eqb_spec k (pos mod 64)),
    (Z.testbit w k); done || lia.
Qed.

Lemma clear_spec b pos :
  inRange b pos →
  ∃ b', bitset_clear pos b = Ret b' ∧ len b' = len b
    ∧ ∀ q, 0 ≤ q → member b' q = if q =? pos then false else member b q.
Proof.
  intros Hr. destruct (pos_div b pos Hr) as [Hd Hm]. unfold bitset_clear, bitsetIndex.
  destruct (idx_total b (pos / 64)) as [w Hw]; [done|]. rewrite Hw. simpl.
  apply idx_Ret in Hw as [_ Hw]. rewrite upd_Ret by done. rewrite bit_shift by done.
  eexists. split_and!; [done|unfold len; by rewrite length_insert|].
  intros q Hq. eapply member_update; [done..|]. intros k Hk.
  rewrite Z.ldiff_spec, Z.pow2_bits_eqb by lia.
  destruct (Z.eqb_spec (pos mod 64) k), (Z.eqb_spec k (pos mod 64)),
    (Z.testbit w k); done || lia.
Qed.

Lemma get_spec b pos : inRange b pos → bitset_get pos b = Ret (member b pos).
Proof.
  intros Hr. destruct (pos_div b pos Hr) as [Hd Hm]. unfold bitset_get, bitsetIndex, member.
  destruct (idx_total b (pos / 64)) as [w Hw]; [done|]. rewrite Hw. simpl.
  apply idx_Ret in Hw as [_ ->]. rewrite bit_shift by done. f_equal.
  destruct (Z.eqb_spec (Z.land w (2 ^ (pos mod 64))) 0) as [E|E]; simpl.
  - apply (f_equal (λ z, Z.testbit z (pos mod 64))) in E.
    rewrite Z.land_spec, Z.pow2_bits_true, andb_true_r, Z.bits_0 in E by lia. done.
  - destruct (Z.testbit w (pos mod 64)) eqn:Hbit; [done|]. destruct E.
    apply Z.bits_inj'. intros k Hk. rewrite Z.land_spec, Z.pow2_bits_eqb, Z.bits_0 by lia.
    destruct (Z.eqb_spec (pos mod 64) k); [subst; by rewrite Hbit|by rewrite andb_false_r].
Qed.

(** clearing a bit that was set restores the slice *)
Lemma clear_set b b' pos :
  inRange b pos → member b pos = false → bitset_set pos b = Ret b' → bitset_clear pos b' = Ret b.
Proof.
  intros Hr Hnot. destruct (pos_div b pos Hr) as [Hd Hm]. unfold bitset_set, bitset_clear, bitsetIndex.
  destruct (idx_total b (pos / 64)) as [w Hw]; [done|]. rewrite Hw. simpl.
  apply idx_Ret in Hw as [_ Hw]. unfold member in Hnot. rewrite Hw in Hnot.
  rewrite upd_Ret by done. intros [= <-]. rewrite bit_shift by done.
  rewrite (proj2 (idx_Ret _ _ (Z.lor w (2 ^ (pos mod 64)))))
    by (rewrite list_lookup_insert_eq by (unfold len in *; lia); split; [lia|done]).
  simpl. rewrite upd_Ret by (unfold len in *; rewrite length_insert; lia).
  rewrite list_insert_insert_eq. f_equal.
  replace (Z.ldiff _ _) with w; [by apply list_insert_id|].
  apply Z.bits_inj'. intros k Hk. rewrite Z.ldiff_spec, Z.lor_spec, Z.pow2_bits_eqb by lia.
  destruct (Z.eqb_spec (pos mod 64) k); subst; [rewrite Hnot; done|].
  by rewrite orb_false_r, andb_true_r.
Qed.

Lemma newBitset_spec n :
  0 ≤ n → (∀ q, 0 ≤ q < n → inRange (newBitset n) q) ∧ ∀ q, member (newBitset n) q = false.
Proof.
  intros Hn. unfold newBitset. split.
  - intros q Hq. unfold inRange, len. rewrite length_replicate.
    pose proof (Z.div_mod n 64). pose proof (Z.mod_pos_bound n 64).
    assert (0 ≤ n / 64) by (apply Z.div_pos; lia). destruct (Z.eqb_spec (n mod 64) 0); lia.
  - intros q. unfold member. destruct (replicate _ _ !! _) eqn:E; [|done].
    apply lookup_replicate in E as [-> _]. apply Z.testbit_0_l.
Qed.

Lemma equals_spec b b2 : equals b b2 = true ↔ b = b2.
Proof.
  unfold equals, len. destruct (Z.eqb_spec (Z.of_nat (length b)) (Z.of_nat (length b2))) as [E|E].
  - apply Nat2Z.inj in E. revert b2 E. induction b as [|v b IH]; intros [|v2 b2] E; try done.
    simpl. injection E as E. specialize (IH b2 E). destruct (Z.eqb_spec v v2) as [->|Hv].
    + rewrite IH. split; [by intros ->|by intros [= ->]].
    + split; [done|by intros [= ? _]].
  - split; [done|]. by intros ->.
Qed.
