(* ===== verification/PorcChecker.v ===== *)
(** * Package porcupine: the linearizability checker, data and operations

    [model.go], [checker.go] and [porcupine.go].  An [interface{}] value is an
    [option V] (nil is [None]) and a state of the checked system is an [St].  The
    linked list of calls and returns lives on a heap, a list of nodes with pointers
    into it, and is changed in place by [lift] and [unlift].  [sort.Sort] is an
    argument, because it promises a sorted permutation and nothing about the order
    of equal times.  A loop that does not end within its fuel gives [Block]. *)

From Stdlib Require Import Sorting.Sorted.
From S2P Require Import Prelude PorcBitset.

Abbreviation any V := (option V).
Abbreviation ptr := (option nat).

(** ** model.go *)

Record Operation (V : Type) := mkOperation {
  op_ClientId : Z;
  op_Input : any V;
  op_Call : Z;
  op_Output : any V;
  op_Return : Z;
}.
Arguments mkOperation {V}.
Arguments op_ClientId {V}.
Arguments op_Input {V}.
Arguments op_Call {V}.
Arguments op_Output {V}.
Arguments op_Return {V}.

(** Go: [type EventKind bool] and [type entryKind bool], false for calls *)
Inductive kind := callKind | returnKind.

#[export] Instance kind_eq_dec : EqDecision kind.
Proof. solve_decision. Defined.

Record Event (V : Type) := mkEvent {
  ev_ClientId : Z;
  ev_Kind : kind;
  ev_Value : any V;
  ev_Id : Z;
}.
Arguments mkEvent {V}.
Arguments ev_ClientId {V}.
Arguments ev_Kind {V}.
Arguments ev_Value {V}.
Arguments ev_Id {V}.

(** a nil function is [None]; the two functions for the visualization are left out *)
Record Model (V St : Type) := mkModel {
  Partition : option (list (Operation V) → list (list (Operation V)));
  PartitionEvent : option (list (Event V) → list (list (Event V)));
  Init : St;
  Step : St → any V → any V → bool * St;
  Equal : option (St → St → bool);
}.
Arguments mkModel {V St}.
Arguments Partition {V St}.
Arguments PartitionEvent {V St}.
Arguments Init {V St}.
Arguments Step {V St}.
Arguments Equal {V St}.

Inductive CheckResult := Unknown | Ok | Illegal.

#[export] Instance CheckResult_eq_dec : EqDecision CheckResult.
Proof. solve_decision. Defined.

(** calling a nil function panics *)
Definition call {A B} (f : option (A → A → B)) (x y : A) : go B :=
  match f with
  | Some f => Ret (f x y)
  | None => Panic
  end.

(** ** checker.go: data *)

Record entry (V : Type) := mkEntry {
  e_kind : kind;
  e_value : any V;
  e_id : Z;
  e_time : Z;
  e_clientId : Z;
}.
Arguments mkEntry {V}.
Arguments e_kind {V}.
Arguments e_value {V}.
Arguments e_id {V}.
Arguments e_time {V}.
Arguments e_clientId {V}.

Record node (V : Type) := mkNode {
  n_value : any V;
  n_match : ptr; (* the return of a call, nil in a return *)
  n_id : Z;
  n_next : ptr;
  n_prev : ptr;
}.
Arguments mkNode {V}.
Arguments n_value {V}.
Arguments n_match {V}.
Arguments n_id {V}.
Arguments n_next {V}.
Arguments n_prev {V}.

Record cacheEntry (St : Type) := mkCacheEntry { c_linearized : bitset; c_state : St }.
Arguments mkCacheEntry {St}.
Arguments c_linearized {St}.
Arguments c_state {St}.

Record callsEntry (St : Type) := mkCallsEntry { cl_entry : nat; cl_state : St }.
Arguments mkCallsEntry {St}.
Arguments cl_entry {St}.
Arguments cl_state {St}.

(** the variables of [checkSingle]; [seqs] holds the slices that [longest] points to *)
Record Search (V St : Type) := mkSearch {
  heap : list (node V);
  cur : ptr; (* entry *)
  linearized : bitset;
  cache : gmap Z (list (cacheEntry St));
  calls : list (callsEntry St);
  state : St;
  longest : list ptr;
  seqs : list (list Z);
}.
Arguments mkSearch {V St}.
Arguments heap {V St}.
Arguments cur {V St}.
Arguments linearized {V St}.
Arguments cache {V St}.
Arguments calls {V St}.
Arguments state {V St}.
Arguments longest {V St}.
Arguments seqs {V St}.

(** ** The linked list *)

Section list.
Context {V : Type}.
Implicit Types (h : list (node V)) (nd : node V) (es : list (entry V)).

(** reading through a pointer *)
Definition load h (p : ptr) : go (node V) :=
  match p ≫= (h !!.) with
  | Some nd => Ret nd
  | None => Panic
  end.

Definition set_next (v : ptr) nd : node V :=
  mkNode (n_value nd) (n_match nd) (n_id nd) v (n_prev nd).
Definition set_prev (v : ptr) nd : node V :=
  mkNode (n_value nd) (n_match nd) (n_id nd) (n_next nd) v.

(** [p.next = v] and [p.prev = v] *)
Definition storeNext (p v : ptr) h : go (list (node V)) :=
  match p with
  | Some p => Ret (alter (set_next v) p h)
  | None => Panic
  end.
Definition storePrev (p v : ptr) h : go (list (node V)) :=
  match p with
  | Some p => Ret (alter (set_prev v) p h)
  | None => Panic
  end.

Definition insertBefore (n : nat) (mark : ptr) h : go (list (node V)) :=
  match mark with
  | Some m =>
      nd ← load h mark;
      let beforeMark := n_prev nd in
      h ← storePrev mark (Some n) h;
      h ← storeNext (Some n) mark h;
      match beforeMark with
      | Some _ =>
          h ← storePrev (Some n) beforeMark h;
          storeNext beforeMark (Some n) h
      | None => Ret h
      end
  | None => Ret h
  end.

(** [for n != nil { n = n.next; l++ }], on fuel *)
Fixpoint length_loop (fuel : nat) h (n : ptr) (l : Z) : go Z :=
  match n, fuel with
  | None, _ => Ret l
  | Some _, O => Block
  | Some _, S fuel => nd ← load h n; length_loop fuel h (n_next nd) (l + 1)
  end.

(** a list without a cycle has at most as many nodes as the heap *)
Definition length h (n : ptr) : go Z := length_loop (List.length h) h n 0.

(** the body of [makeLinkedEntries]' loop: [&node{...}] goes to the end of the heap *)
Definition linkEntry (elem : entry V) (s : list (node V) * gmap Z nat * ptr)
    : go (list (node V) * gmap Z nat * ptr) :=
  let '(h, match_, root) := s in
  let p := List.length h in
  match e_kind elem with
  | returnKind =>
      let h := h ++ [mkNode (e_value elem) None (e_id elem) None None] in
      let match_ := <[e_id elem := p]> match_ in
      h ← insertBefore p root h;
      Ret (h, match_, Some p)
  | callKind =>
      let h := h ++ [mkNode (e_value elem) (match_ !! e_id elem) (e_id elem) None None] in
      h ← insertBefore p root h;
      Ret (h, match_, Some p)
  end.

(** from the last entry to the first *)
Fixpoint linkEntries es : go (list (node V) * gmap Z nat * ptr) :=
  match es with
  | [] => Ret ([], ∅, None)
  | e :: es => s ← linkEntries es; linkEntry e s
  end.

(** the heap with the linked list, and its root *)
Definition makeLinkedEntries es : go (list (node V) * ptr) :=
  '(h, _, root) ← linkEntries es; Ret (h, root).

(** [p.prev.next = p.next] and [p.next.prev = p.prev] *)
Definition bypassNext (p : ptr) h : go (list (node V)) :=
  nd ← load h p; storeNext (n_prev nd) (n_next nd) h.
Definition bypassPrev (p : ptr) h : go (list (node V)) :=
  nd ← load h p; storePrev (n_next nd) (n_prev nd) h.

(** [p.prev.next = p] and [p.next.prev = p] *)
Definition rejoinNext (p : ptr) h : go (list (node V)) :=
  nd ← load h p; storeNext (n_prev nd) p h.
Definition rejoinPrev (p : ptr) h : go (list (node V)) :=
  nd ← load h p; storePrev (n_next nd) p h.

Definition lift (entry : ptr) h : go (list (node V)) :=
  h ← bypassNext entry h;
  h ← bypassPrev entry h;
  nd ← load h entry;
  let match_ := n_match nd in
  h ← bypassNext match_ h;
  md ← load h match_;
  match n_next md with
  | Some _ => bypassPrev match_ h
  | None => Ret h
  end.

Definition unlift (entry : ptr) h : go (list (node V)) :=
  nd ← load h entry;
  let match_ := n_match nd in
  h ← rejoinNext match_ h;
  md ← load h match_;
  h ← (match n_next md with Some _ => rejoinPrev match_ h | None => Ret h end);
  h ← rejoinNext entry h;
  rejoinPrev entry h.
End list.

#[global] Arguments load : simpl never.

(** ** Histories *)

(** [sort.Sort(byTime(l))] *)
Class SortByTime (V : Type) := {
  sortByTime : list (entry V) → list (entry V);
  sortByTime_perm l : sortByTime l ≡ₚ l;
  sortByTime_sorted l : StronglySorted (λ a b, e_time a ≤ e_time b) (sortByTime l);
}.

Section histories.
Context {V : Type}.

(** [byTime.Less] *)
Definition Less (a : list (entry V)) (i j : Z) : go bool :=
  x ← idx a i; y ← idx a j; Ret (e_time x <? e_time y).

(** the loop of [makeEntries], from number [id] on *)
Fixpoint operationEntries (id : Z) (history : list (Operation V)) : list (entry V) :=
  match history with
  | [] => []
  | elem :: history =>
      mkEntry callKind (op_Input elem) id (op_Call elem) (op_ClientId elem)
      :: mkEntry returnKind (op_Output elem) id (op_Return elem) (op_ClientId elem)
      :: operationEntries (id + 1) history
  end.

Definition makeEntries `{!SortByTime V} (history : list (Operation V)) : list (entry V) :=
  sortByTime (operationEntries 0 history).

(** the loop of [renumber]: [m] maps the ids seen to their new numbers *)
Fixpoint renumber_loop (m : gmap Z Z) (id : Z) (events : list (Event V)) : list (Event V) :=
  match events with
  | [] => []
  | v :: events =>
      match m !! ev_Id v with
      | Some r =>
          mkEvent (ev_ClientId v) (ev_Kind v) (ev_Value v) r :: renumber_loop m id events
      | None =>
          mkEvent (ev_ClientId v) (ev_Kind v) (ev_Value v) id
          :: renumber_loop (<[ev_Id v := id]> m) (id + 1) events
      end
  end.

Definition renumber (events : list (Event V)) : list (Event V) := renumber_loop ∅ 0 events.

(** the index is the time *)
Fixpoint convert_loop (i : Z) (events : list (Event V)) : list (entry V) :=
  match events with
  | [] => []
  | elem :: events =>
      mkEntry (ev_Kind elem) (ev_Value elem) (ev_Id elem) (wrap64 i) (ev_ClientId elem)
      :: convert_loop (i + 1) events
  end.

Definition convertEntries (events : list (Event V)) : list (entry V) := convert_loop 0 events.

Definition NoPartition (history : list (Operation V)) : list (list (Operation V)) := [history].
Definition NoPartitionEvent (history : list (Event V)) : list (list (Event V)) := [history].
End histories.

(** ** The search *)

Section search.
Context {V St : Type}.
Implicit Types (m : Model V St) (st : Search V St).

Fixpoint contains_loop m (e : cacheEntry St) (l : list (cacheEntry St)) : go bool :=
  match l with
  | [] => Ret false
  | elem :: l =>
      if equals (c_linearized e) (c_linearized elem) then
        b ← call (Equal m) (c_state e) (c_state elem);
        if b : bool then Ret true else contains_loop m e l
      else contains_loop m e l
  end.

Definition bucket (c : gmap Z (list (cacheEntry St))) (h : Z) : list (cacheEntry St) :=
  default [] (c !! h).

Definition cacheContains m (c : gmap Z (list (cacheEntry St))) (e : cacheEntry St) : go bool :=
  contains_loop m e (bucket c (hash (c_linearized e))).

(** [entry = entry.next] *)
Definition advance st : go (Search V St) :=
  nd ← load (heap st) (cur st);
  Ret (mkSearch (heap st) (n_next nd) (linearized st) (cache st) (calls st) (state st)
         (longest st) (seqs st)).

(** the branch of a call: linearize it next, unless that was tried before *)
Definition tryCall m (headEntry : nat) (p : nat) (nd : node V) st : go (Search V St) :=
  matching ← load (heap st) (n_match nd);
  let '(ok, newState) := Step m (state st) (n_value nd) (n_value matching) in
  if ok : bool then
    newLinearized ← bitset_set (n_id nd) (clone (linearized st));
    let newCacheEntry := mkCacheEntry newLinearized newState in
    contained ← cacheContains m (cache st) newCacheEntry;
    if negb contained then
      let h := hash newLinearized in
      let cache' := <[h := bucket (cache st) h ++ [newCacheEntry]]> (cache st) in
      let calls' := calls st ++ [mkCallsEntry p (state st)] in
      linearized' ← bitset_set (n_id nd) (linearized st);
      heap' ← lift (Some p) (heap st);
      hd ← load heap' (Some headEntry);
      Ret (mkSearch heap' (n_next hd) linearized' cache' calls' newState
             (longest st) (seqs st))
    else advance st
  else advance st.

(** the ids of the calls: [seq] of [checkSingle] *)
Fixpoint callIds (h : list (node V)) (cs : list (callsEntry St)) : go (list Z) :=
  match cs with
  | [] => Ret []
  | v :: cs =>
      nd ← load h (Some (cl_entry v)); ids ← callIds h cs; Ret (n_id nd :: ids)
  end.

(** [for _, v := range calls { ... longest[v.entry.id] = &seq }], where [&seq] is the
    pointer [p] into [store] *)
Fixpoint longest_loop (h : list (node V)) (store : list (list Z)) (p : nat) (callsLen : Z)
    (cs : list (callsEntry St)) (lg : list ptr) : go (list ptr) :=
  match cs with
  | [] => Ret lg
  | v :: cs =>
      nd ← load h (Some (cl_entry v));
      old ← idx lg (n_id nd);
      let better := match old ≫= (store !!.) with
                    | Some s => len s <? callsLen
                    | None => true
                    end in
      lg ← (if better then upd lg (n_id nd) (Some p) else Ret lg);
      longest_loop h store p callsLen cs lg
  end.

Definition recordLongest st : go (list ptr * list (list Z)) :=
  seq ← callIds (heap st) (calls st);
  let store := seqs st ++ [seq] in
  lg ← longest_loop (heap st) store (List.length (seqs st)) (len (calls st))
         (calls st) (longest st);
  Ret (lg, store).

(** the branch of a return: undo the last call; [None]: there is none *)
Definition backtrack (computePartial : bool) st : go (option (Search V St)) :=
  if len (calls st) =? 0 then Ret None
  else
  '(lg, sq) ← (if computePartial then recordLongest st else Ret (longest st, seqs st) : go (_ * _));
  callsTop ← idx (calls st) (len (calls st) - 1);
  let entry := Some (cl_entry callsTop) in
  nd ← load (heap st) entry;
  linearized' ← bitset_clear (n_id nd) (linearized st);
  calls' ← slice_to (calls st) (len (calls st) - 1);
  heap' ← unlift entry (heap st);
  nd ← load heap' entry;
  Ret (Some (mkSearch heap' (n_next nd) linearized' (cache st) calls' (cl_state callsTop)
               lg sq)).

(** one turn of the loop *)
Definition searchStep m (computePartial : bool) (headEntry : nat) st
    : go (option (Search V St)) :=
  nd ← load (heap st) (cur st);
  match cur st, n_match nd with
  | Some p, Some _ => st ← tryCall m headEntry p nd st; Ret (Some st)
  | _, _ => backtrack computePartial st
  end.

(** [for headEntry.next != nil { ... }] on fuel, turn [i]; [kill i] is what that turn
    reads from [*kill] *)
Fixpoint searchLoop m (computePartial : bool) (kill : nat → bool) (headEntry : nat)
    (fuel i : nat) st : go (bool * Search V St) :=
  hd ← load (heap st) (Some headEntry);
  match n_next hd, fuel with
  | None, _ => Ret (true, st)
  | Some _, O => Block
  | Some _, S fuel =>
      if kill i then Ret (false, st)
      else
        next ← searchStep m computePartial headEntry st;
        match next with
        | Some st => searchLoop m computePartial kill headEntry fuel (S i) st
        | None => Ret (false, st)
        end
  end.

(** the state before the loop, and [headEntry] *)
Definition searchInit m (history : list (entry V)) : go (nat * Z * Search V St) :=
  '(h, entry) ← makeLinkedEntries history;
  l ← length h entry;
  let n := Z.quot l 2 in
  let headEntry := List.length h in
  h ← insertBefore headEntry entry (h ++ [mkNode None None (-1) None None]);
  Ret (headEntry, n, mkSearch h entry (newBitset n) ∅ [] (Init m)
                       (replicate (Z.to_nat n) None) []).

(** the result: the verdict, and for every operation a pointer to the longest
    linearization found that includes it, with the slices pointed to *)
Definition checkSingle m (history : list (entry V)) (computePartial : bool)
    (kill : nat → bool) (fuel : nat) : go (bool * (list ptr * list (list Z))) :=
  '(headEntry, n, st) ← searchInit m history;
  '(ok, st) ← searchLoop m computePartial kill headEntry fuel 0 st;
  if ok : bool then
    seq ← callIds (heap st) (calls st);
    Ret (true, (replicate (Z.to_nat n) (Some (List.length (seqs st))), seqs st ++ [seq]))
  else Ret (false, (longest st, seqs st)).
End search.

(** ** The partitions in parallel *)

(** what [select] receives: the result of goroutine [i], or the timeout *)
Inductive Received :=
| GotResult (i : nat)
| GotTimeout.

Record linearizationInfo (V : Type) := mkInfo {
  li_history : list (list (entry V));
  li_partialLinearizations : list (list (list Z));
}.
Arguments mkInfo {V}.
Arguments li_history {V}.
Arguments li_partialLinearizations {V}.

Section parallel.
Context {V St : Type} `{!EqDecision St} `{!SortByTime V}.
Implicit Types (m : Model V St).

Definition ShallowEqual (state1 state2 : St) : bool := bool_decide (state1 = state2).

Definition fillDefault m : Model V St :=
  mkModel (Some (default NoPartition (Partition m)))
          (Some (default NoPartitionEvent (PartitionEvent m)))
          (Init m) (Step m)
          (Some (default ShallowEqual (Equal m))).

(** The loop around [select]: the value of [ok], of [timedOut] and of [count] when it
    is left.  [evs] is the order in which things arrive; without a timeout the channel
    [timeoutChan] is nil and never ready. *)
Fixpoint selectLoop (computeInfo : bool) (n timeout : Z) (result : nat → go bool)
    (evs : list Received) (ok : bool) (count : Z) : go (bool * bool * Z) :=
  match evs with
  | [] => Block
  | GotTimeout :: _ => if 0 <? timeout then Ret (ok, true, count) else Block
  | GotResult i :: evs =>
      r ← result i;
      let count := count + 1 in
      let ok := ok && r in
      if negb ok && negb computeInfo then Ret (ok, false, count)
      else if n <=? count then Ret (ok, false, count)
      else selectLoop computeInfo n timeout result evs ok count
  end.

(** the set of the linearizations that [longest[i]] points to, in some order *)
Definition partials (r : list ptr * list (list Z)) : list (list Z) :=
  omap (λ p, r.2 !! p) (remove_dups (omap id r.1)).

Fixpoint allPartials (run : nat → go (bool * (list ptr * list (list Z)))) (js : list nat)
    : go (list (list (list Z))) :=
  match js with
  | [] => Ret []
  | i :: js => r ← run i; ps ← allPartials run js; Ret (partials r.2 :: ps)
  end.

(** goroutine [i] reads [kills i] from [*kill] *)
Definition checkParallel m (history : list (list (entry V))) (computeInfo : bool)
    (timeout : Z) (fuel : nat) (kills : nat → nat → bool) (evs : list Received)
    : go (CheckResult * linearizationInfo V) :=
  let run i :=
    subhistory ← idx history (Z.of_nat i);
    checkSingle m subhistory computeInfo (kills i) fuel in
  '(ok, timedOut, _) ← selectLoop computeInfo (len history) timeout
      (λ i, fst <$> run i) evs true 0;
  info ← (if computeInfo
          then ps ← allPartials run (seq 0 (List.length history)); Ret (mkInfo history ps)
          else Ret (mkInfo [] []));
  let result := if negb ok then Illegal else if timedOut : bool then Unknown else Ok in
  Ret (result, info).

(** calling a nil function panics *)
Definition call1 {A B} (f : option (A → B)) (x : A) : go B :=
  match f with
  | Some f => Ret (f x)
  | None => Panic
  end.

Definition checkEvents m (history : list (Event V)) (verbose : bool) (timeout : Z)
    (fuel : nat) (kills : nat → nat → bool) (evs : list Received)
    : go (CheckResult * linearizationInfo V) :=
  let m := fillDefault m in
  partitions ← call1 (PartitionEvent m) history;
  checkParallel m ((λ sub, convertEntries (renumber sub)) <$> partitions) verbose timeout
    fuel kills evs.

Definition checkOperations m (history : list (Operation V)) (verbose : bool) (timeout : Z)
    (fuel : nat) (kills : nat → nat → bool) (evs : list Received)
    : go (CheckResult * linearizationInfo V) :=
  let m := fillDefault m in
  partitions ← call1 (Partition m) history;
  checkParallel m (makeEntries <$> partitions) verbose timeout fuel kills evs.

(** ** porcupine.go *)

Definition CheckOperations m history fuel kills evs : go bool :=
  '(res, _) ← checkOperations m history false 0 fuel kills evs; Ret (bool_decide (res = Ok)).

Definition CheckOperationsTimeout m history timeout fuel kills evs : go CheckResult :=
  '(res, _) ← checkOperations m history false timeout fuel kills evs; Ret res.

Definition CheckOperationsVerbose m history timeout fuel kills evs
    : go (CheckResult * linearizationInfo V) :=
  checkOperations m history true timeout fuel kills evs.

Definition CheckEvents m history fuel kills evs : go bool :=
  '(res, _) ← checkEvents m history false 0 fuel kills evs; Ret (bool_decide (res = Ok)).

Definition CheckEventsTimeout m history timeout fuel kills evs : go CheckResult :=
  '(res, _) ← checkEvents m history false timeout fuel kills evs; Ret res.

Definition CheckEventsVerbose m history timeout fuel kills evs
    : go (CheckResult * linearizationInfo V) :=
  checkEvents m history true timeout fuel kills evs.
End parallel.
