(* ===== verification/PorcList.v ===== *)
(** * Package porcupine: the doubly linked list

    The nodes reached from the head form a doubly linked list; [lift] takes a call and
    its return out of it, and [unlift] restores the heap exactly, because a node that
    was taken out keeps its own pointers. *)

From S2P Require Import Prelude PorcBitset PorcChecker.

Section dll.
Context {V : Type}.
Implicit Types (h : list (node V)) (nd : node V) (ps X Y : list nat) (es : list (entry V)).

(** the first of the nodes [ps], or what comes after them *)
Definition first ps (nx : ptr) : ptr := default nx (Some <$> head ps).

(** the nodes [ps] are linked one after the other, between [pv] and [nx] *)
Fixpoint seg h (pv : ptr) ps (nx : ptr) : Prop :=
  match ps with
  | [] => True
  | p :: ps =>
      ∃ nd, h !! p = Some nd ∧ n_prev nd = pv ∧ n_next nd = first ps nx
            ∧ seg h (Some p) ps nx
  end.

Definition dll h ps : Prop := NoDup ps ∧ seg h None ps None.

(** what never changes in a node *)
Definition core nd : any V * ptr * Z := (n_value nd, n_match nd, n_id nd).
Definition frozen h h' : Prop := core <$> h' = core <$> h.

#[export] Instance frozen_preorder : PreOrder frozen.
Proof. split; unfold frozen; [by intros ?|intros ??? H1 H2; by rewrite H2, H1]. Qed.

Lemma frozen_lookup h h' p nd :
  frozen h h' → h !! p = Some nd → ∃ nd', h' !! p = Some nd' ∧ core nd' = core nd.
Proof.
  intros Hf Hp. apply (f_equal (lookup p)) in Hf. rewrite !list_lookup_fmap, Hp in Hf.
  destruct (h' !! p) as [nd'|]; [|done]. exists nd'. by apply (inj Some) in Hf.
Qed.

Lemma frozen_alter h p (f : node V → node V) :
  (∀ nd, core (f nd) = core nd) → frozen h (alter f p h).
Proof.
  intros Hf. unfold frozen. apply list_eq. intros i. rewrite !list_lookup_fmap.
  destruct (decide (p = i)) as [->|]; [rewrite list_lookup_alter_eq|by rewrite list_lookup_alter_ne].
  destruct (h !! i); simpl; [by rewrite Hf|done].
Qed.

Lemma seg_frame h h' pv ps nx :
  (∀ p, p ∈ ps → h' !! p = h !! p) → seg h pv ps nx → seg h' pv ps nx.
Proof.
  revert pv. induction ps as [|p ps IH]; intros pv Hs; [done|].
  intros (nd & Hp & ? & ? & Hr). exists nd. split_and!; try done.
  - rewrite Hs by (constructor). done.
  - apply IH; [|done]. intros q Hq. apply Hs. by constructor.
Qed.

Lemma seg_app h pv X Y nx :
  seg h pv (X ++ Y) nx ↔
  seg h pv X (first Y nx) ∧ seg h (default pv (Some <$> last X)) Y nx.
Proof.
  revert pv. induction X as [|x X IH]; intros pv; simpl; [tauto|].
  rewrite last_cons. setoid_rewrite IH. split.
  - intros (nd & ? & ? & Hn & ? & Hy). split.
    + exists nd. split_and!; try done. by destruct X.
    + by destruct (last X).
  - intros ((nd & ? & ? & Hn & ?) & Hy). exists nd. split_and!; try done.
    + by destruct X.
    + by destruct (last X).
Qed.

Lemma load_Some h p nd : h !! p = Some nd → load h (Some p) = Ret nd.
Proof. intros E. unfold load. simpl. by rewrite E. Qed.

(** ** Taking one node out *)

Definition unlink (p : nat) h : go (list (node V)) :=
  h ← bypassNext (Some p) h;
  md ← load h (Some p);
  match n_next md with
  | Some _ => bypassPrev (Some p) h
  | None => Ret h
  end.

Definition relink (p : nat) h : go (list (node V)) :=
  h ← rejoinNext (Some p) h;
  md ← load h (Some p);
  match n_next md with
  | Some _ => rejoinPrev (Some p) h
  | None => Ret h
  end.

(** the heap without [p], which was between [a] and [nx] *)
Definition without (a : nat) (nx : ptr) h : list (node V) :=
  match nx with
  | Some b => alter (set_prev (Some a)) b (alter (set_next nx) a h)
  | None => alter (set_next nx) a h
  end.

Lemma without_other a nx h q : q ≠ a → Some q ≠ nx → without a nx h !! q = h !! q.
Proof.
  intros Ha Hb. unfold without. destruct nx as [b|].
  - by rewrite !list_lookup_alter_ne by congruence.
  - by rewrite list_lookup_alter_ne.
Qed.

Lemma without_frozen a nx h : frozen h (without a nx h).
Proof.
  unfold without. destruct nx as [b|]; [|by apply frozen_alter].
  etrans; by apply frozen_alter.
Qed.

Lemma unlink_eq h a p nx nd :
  h !! p = Some nd → n_prev nd = Some a → n_next nd = nx → a ≠ p → nx ≠ Some p →
  unlink p h = Ret (without a nx h).
Proof.
  intros Hp Hpv Hnx Hap Hnp. unfold unlink, bypassNext, bypassPrev, without.
  rewrite (load_Some _ _ _ Hp). simpl. rewrite Hpv. simpl.
  assert (alter (set_next (n_next nd)) a h !! p = Some nd) as Hp'
    by by rewrite list_lookup_alter_ne.
  rewrite (load_Some _ _ _ Hp'). simpl. subst nx. destruct (n_next nd) as [b|] eqn:E; [|done].
  simpl. by rewrite Hpv.
Qed.

(** [p] keeps its pointers, so it can be put back *)
Lemma relink_without h a p nx nd na :
  h !! p = Some nd → n_prev nd = Some a → n_next nd = nx → a ≠ p → nx ≠ Some p →
  nx ≠ Some a → h !! a = Some na → n_next na = Some p →
  (∀ b, nx = Some b → ∃ nb, h !! b = Some nb ∧ n_prev nb = Some p) →
  relink p (without a nx h) = Ret h.
Proof.
  intros Hp Hpv Hnx Hap Hnp Hna Ha Han Hb. unfold relink, rejoinNext, rejoinPrev.
  assert (without a nx h !! p = Some nd) as Hp1 by (rewrite without_other; congruence).
  rewrite (load_Some _ _ _ Hp1). simpl. rewrite Hpv. simpl.
  assert (alter (set_next (Some p)) a (without a nx h) !! p = Some nd) as Hp2
    by by rewrite list_lookup_alter_ne.
  rewrite (load_Some _ _ _ Hp2). simpl. rewrite Hnx. unfold without.
  destruct nx as [b|]; simpl.
  - f_equal.
    destruct (Hb b eq_refl) as (nb & Hb1 & Hb2).
    apply list_eq. intros i. destruct (decide (i = a)) as [->|]; [|destruct (decide (i = b)) as [->|]].
    + rewrite list_lookup_alter_ne by congruence. rewrite list_lookup_alter_eq.
      rewrite list_lookup_alter_ne by congruence. rewrite list_lookup_alter_eq, Ha. simpl.
      destruct na; simpl in *. by subst.
    + rewrite list_lookup_alter_eq, list_lookup_alter_ne, list_lookup_alter_eq by done.
      rewrite list_lookup_alter_ne, Hb1 by done. simpl. destruct nb; simpl in *. by subst.
    + by rewrite !list_lookup_alter_ne by done.
  - f_equal. apply list_eq. intros i. destruct (decide (i = a)) as [->|].
    + rewrite !list_lookup_alter_eq, Ha. simpl. destruct na; simpl in *. by subst.
    + by rewrite !list_lookup_alter_ne by done.
Qed.

Lemma dll_without h X a p Y :
  dll h (X ++ a :: p :: Y) → dll (without a (first Y None) h) (X ++ a :: Y).
Proof.
  intros [Hnd Hseg]. apply NoDup_app in Hnd as (HX & Hdis & Ha).
  apply NoDup_cons in Ha as [Ha Hp]. apply NoDup_cons in Hp as [Hp HY].
  apply not_elem_of_cons in Ha as [Hap HaY].
  apply seg_app in Hseg as [HsX (na & Hna & Hpa & Hxa & np & Hnp & Hpp & Hxp & HsY)].
  split.
  { apply NoDup_app. split_and!; [done| |by constructor].
    intros x Hx Hx'. apply (Hdis x Hx). rewrite !elem_of_cons in *. tauto. }
  apply seg_app. split.
  - eapply seg_frame; [|exact HsX]. intros q Hq. apply without_other.
    + intros ->. apply (Hdis a Hq). constructor.
    + intros E. apply (Hdis q Hq). destruct Y as [|b Y]; [done|]. injection E as ->.
      rewrite !elem_of_cons. tauto.
  - destruct Y as [|b Y]; simpl.
    + exists (set_next None na). rewrite list_lookup_alter_eq, Hna. done.
    + apply not_elem_of_cons in HaY as [Hab HaY]. apply NoDup_cons in HY as [HbY HY].
      destruct HsY as (nb & Hnb & Hpb & Hxb & HsY).
      exists (set_next (Some b) na). split_and!; try done.
      { by rewrite list_lookup_alter_ne, list_lookup_alter_eq, Hna by done. }
      exists (set_prev (Some a) nb). split_and!; try done.
      { by rewrite list_lookup_alter_eq, list_lookup_alter_ne, Hnb by done. }
      eapply seg_frame; [|exact HsY]. intros q Hq.
      rewrite !list_lookup_alter_ne; [done|intros ->; done..].
Qed.

Lemma dll_unlink h X a p Y :
  dll h (X ++ a :: p :: Y) →
  let h' := without a (first Y None) h in
  unlink p h = Ret h' ∧ dll h' (X ++ a :: Y) ∧ relink p h' = Ret h ∧ h' !! p = h !! p
  ∧ frozen h h'.
Proof.
  intros Hd. pose proof (dll_without _ _ _ _ _ Hd) as Hd'. destruct Hd as [Hnd Hseg].
  apply NoDup_app in Hnd as (_ & _ & Ha). apply NoDup_cons in Ha as [Ha Hp].
  apply NoDup_cons in Hp as [Hp HY]. apply not_elem_of_cons in Ha as [Hap HaY].
  apply seg_app in Hseg as [_ (na & Hna & Hpa & Hxa & np & Hnp & Hpp & Hxp & HsY)].
  assert (first Y None ≠ Some p ∧ first Y None ≠ Some a) as [Hfp Hfa].
  { destruct Y; simpl; [done|]. split; intros [= ->]; [apply Hp|apply HaY]; constructor. }
  cbv zeta. split_and!.
  - by eapply unlink_eq.
  - done.
  - eapply relink_without; try done. intros b Hb. destruct Y as [|b' Y]; [done|].
    injection Hb as ->. destruct HsY as (nb & ? & ? & _). by exists nb.
  - apply without_other; congruence.
  - apply without_frozen.
Qed.

(** ** Taking a call and its return out *)

Lemma lift_unlink h c nd a :
  h !! c = Some nd → n_next nd ≠ None → n_prev nd = Some a → a ≠ c →
  lift (Some c) h = (h ← unlink c h; nd ← load h (Some c);
                     match n_match nd with Some r => unlink r h | None => Panic end).
Proof.
  intros Hc Hn Hp Hac. unfold lift, unlink.
  assert (bypassNext (Some c) h = Ret (alter (set_next (n_next nd)) a h)) as ->
    by (unfold bypassNext; rewrite (load_Some _ _ _ Hc); simpl; by rewrite Hp).
  simpl. assert (alter (set_next (n_next nd)) a h !! c = Some nd) as Hc'
    by by rewrite list_lookup_alter_ne.
  rewrite (load_Some _ _ _ Hc'). simpl. destruct (n_next nd) as [b|] eqn:Eb; [|done].
  destruct (bypassPrev _ _) as [h'| |]; simpl; [|done..].
  destruct (load h' (Some c)) as [nd'| |]; simpl; [|done..]. by destruct (n_match nd').
Qed.

Lemma unlift_relink h c nd r h1 nd1 :
  h !! c = Some nd → n_match nd = Some r → relink r h = Ret h1 →
  h1 !! c = Some nd1 → n_next nd1 ≠ None → n_prev nd1 ≠ Some c →
  unlift (Some c) h = relink c h1.
Proof.
  intros Hc Hm Hr Hc1 Hn Hp. unfold unlift. rewrite (load_Some _ _ _ Hc). simpl. rewrite Hm.
  unfold relink in Hr. go_step Hr. rewrite E. simpl. go_step Hr. rewrite E0. simpl.
  rewrite Hr. simpl. unfold relink, rejoinNext, rejoinPrev.
  rewrite (load_Some _ _ _ Hc1). simpl. destruct (n_prev nd1) as [a1|] eqn:Ea; [|done]. simpl.
  assert (alter (set_next (Some c)) a1 h1 !! c = Some nd1) as Hc'
    by (rewrite list_lookup_alter_ne by congruence; done).
  rewrite (load_Some _ _ _ Hc'). simpl. by destruct (n_next nd1).
Qed.

Lemma first_cons (p : nat) ps nx : first (p :: ps) nx = Some p.
Proof. done. Qed.

(** the list [X, a, c, Y, r, Z] with the call [c] and its return [r] *)
Lemma lift_spec h X a c Y r Z nd :
  dll h (X ++ a :: c :: Y ++ r :: Z) → h !! c = Some nd → n_match nd = Some r →
  ∃ h', lift (Some c) h = Ret h' ∧ dll h' (X ++ a :: Y ++ Z) ∧ frozen h h'
    ∧ unlift (Some c) h' = Ret h.
Proof.
  intros Hd Hc Hm. destruct (dll_unlink _ _ _ _ _ Hd) as (E1 & Hd1 & R1 & L1 & F1).
  set (h1 := without a (first (Y ++ r :: Z) None) h) in *.
  assert (n_next nd ≠ None ∧ n_prev nd = Some a ∧ a ≠ c) as (Hn & Hp & Hac).
  { destruct Hd as [Hnd Hseg]. apply NoDup_app in Hnd as (_ & _ & Ha).
    apply NoDup_cons in Ha as [Ha _]. apply not_elem_of_cons in Ha as [Hac _].
    apply seg_app in Hseg as [_ (na & _ & _ & _ & np & Hnp & Hpp & Hxp & _)].
    rewrite Hc in Hnp. simplify_eq. split_and!; try done. rewrite Hxp. by destruct Y. }
  assert (∃ X' b, X ++ a :: Y = X' ++ [b]) as (X' & b & EX).
  { destruct (exists_last (l:=X ++ a :: Y)) as (X' & b & ->); [by destruct X|by eauto]. }
  assert (X ++ a :: Y ++ r :: Z = X' ++ b :: r :: Z) as EX1.
  { change (a :: Y ++ r :: Z) with ((a :: Y) ++ r :: Z). by rewrite app_assoc, EX, <-app_assoc. }
  assert (X ++ a :: Y ++ Z = X' ++ b :: Z) as EX2.
  { change (a :: Y ++ Z) with ((a :: Y) ++ Z). by rewrite app_assoc, EX, <-app_assoc. }
  rewrite EX1 in Hd1. destruct (dll_unlink _ _ _ _ _ Hd1) as (E2 & Hd2 & R2 & L2 & F2).
  set (h2 := without b (first Z None) h1) in *. exists h2.
  assert (h1 !! c = Some nd) as Hc1 by by rewrite L1.
  destruct (frozen_lookup h1 h2 c nd F2 Hc1) as (nd2 & Hc2 & Hcore). injection Hcore as _ Hm2 _.
  split_and!.
  - rewrite (lift_unlink _ _ _ a Hc) by congruence. rewrite E1. simpl.
    rewrite (load_Some _ _ _ Hc1). simpl. by rewrite Hm.
  - by rewrite EX2.
  - by etrans.
  - rewrite (unlift_relink h2 c nd2 r h1 nd) by congruence. done.
Qed.

(** ** The length *)

Lemma length_seg h pv ps l fuel :
  seg h pv ps None → (List.length ps ≤ fuel)%nat →
  length_loop fuel h (first ps None) l = Ret (l + len ps).
Proof.
  revert pv l fuel. induction ps as [|p ps IH]; intros pv l fuel Hs Hf.
  - unfold len. simpl. rewrite Z.add_0_r. by destruct fuel.
  - destruct Hs as (nd & Hp & _ & Hn & Hs). destruct fuel as [|fuel]; simpl in Hf; [lia|].
    rewrite first_cons. simpl. rewrite (load_Some _ _ _ Hp). simpl. rewrite Hn, (IH (Some p)) by (done || lia).
    f_equal. unfold len. simpl. lia.
Qed.

(** ** Building the list *)

Lemma insertBefore_spec h ps p nd :
  dll h ps → h !! p = Some nd → n_next nd = None → n_prev nd = None → p ∉ ps →
  ∃ h', insertBefore p (first ps None) h = Ret h' ∧ dll h' (p :: ps) ∧ frozen h h'.
Proof.
  intros [Hnd Hseg] Hp Hn Hpv Hin. destruct ps as [|q ps].
  { exists h. split_and!; [done| |done]. split; [by apply NoDup_singleton|]. by exists nd. }
  destruct Hseg as (nq & Hq & Hqp & Hqn & Hs). apply not_elem_of_cons in Hin as [Hpq Hin].
  apply NoDup_cons in Hnd as [Hqps Hnd].
  exists (alter (set_next (Some q)) p (alter (set_prev (Some p)) q h)). split_and!.
  - rewrite first_cons. unfold insertBefore. rewrite (load_Some _ _ _ Hq). simpl. by rewrite Hqp.
  - split; [apply NoDup_cons; split; [by apply not_elem_of_cons|by apply NoDup_cons]|].
    exists (set_next (Some q) nd). split_and!; try done.
    { by rewrite list_lookup_alter_eq, list_lookup_alter_ne, Hp by done. }
    exists (set_prev (Some p) nq). split_and!; try done.
    { by rewrite list_lookup_alter_ne, list_lookup_alter_eq, Hq by done. }
    eapply seg_frame; [|exact Hs]. intros r Hr.
    rewrite !list_lookup_alter_ne; [done|by intros ->..].
  - etrans; by apply frozen_alter.
Qed.

Lemma dll_extend h ps nd : dll h ps → dll (h ++ [nd]) ps.
Proof.
  intros [Hnd Hs]. split; [done|].
  assert (∀ p, p ∈ ps → is_Some (h !! p)) as Hdom.
  { clear Hnd. revert Hs. generalize (None : ptr) at 1. induction ps as [|q ps IH]; intros pv Hs p.
    - by intros ?%elem_of_nil.
    - destruct Hs as (nq & Hq & _ & _ & Hs). intros [->|Hp]%elem_of_cons; [by exists nq|].
      by eapply IH. }
  eapply seg_frame; [|exact Hs]. intros p [x Hx]%Hdom. rewrite Hx. by apply lookup_app_l_Some.
Qed.

(** the entries with the pointers of their nodes *)
Definition cells es : list (nat * entry V) := zip (rev (seq 0 (List.length es))) es.

Implicit Types cs : list (nat * entry V).

(** the node of an entry: a return has no match, the match of a call is a return of
    [cs] with its id *)
Definition cellOK h cs (p : nat) (e : entry V) : Prop :=
  ∃ nd, h !! p = Some nd ∧ n_value nd = e_value e ∧ n_id nd = e_id e
    ∧ match e_kind e with
      | returnKind => n_match nd = None
      | callKind => ∃ r f, n_match nd = Some r ∧ (r, f) ∈ cs ∧ e_kind f = returnKind
                           ∧ e_id f = e_id e
      end.

Definition represents h cs : Prop := ∀ p e, (p, e) ∈ cs → cellOK h cs p e.

(** every call is followed by a return with its id *)
Definition closed es : Prop :=
  ∀ i e, es !! i = Some e → e_kind e = callKind →
    ∃ j f, (i < j)%nat ∧ es !! j = Some f ∧ e_kind f = returnKind ∧ e_id f = e_id e.

Lemma cells_cons e es : cells (e :: es) = (List.length es, e) :: cells es.
Proof. unfold cells. rewrite length_cons, seq_S, rev_app_distr. done. Qed.

Lemma cells_fst es : (cells es).*1 = rev (seq 0 (List.length es)).
Proof. unfold cells. apply fst_zip. rewrite length_rev, length_seq. lia. Qed.

Lemma cells_snd es : (cells es).*2 = es.
Proof. unfold cells. apply snd_zip. rewrite length_rev, length_seq. lia. Qed.

Lemma cellOK_mono h h' cs cs' p e :
  (∀ nd, h !! p = Some nd → ∃ nd', h' !! p = Some nd' ∧ core nd' = core nd) →
  (∀ c, c ∈ cs → c ∈ cs') → cellOK h cs p e → cellOK h' cs' p e.
Proof.
  intros Hh Hcs (nd & Hp & Hv & Hi & Hk).
  destruct (Hh nd Hp) as (nd' & Hp' & Hc). injection Hc as Hv' Hm' Hi'. exists nd'.
  split_and!; [done|congruence..|]. rewrite Hm'. destruct (e_kind e); [|done].
  destruct Hk as (r & f & ? & ?%Hcs & ? & ?). by exists r, f.
Qed.

Lemma represents_frozen h h' cs : frozen h h' → represents h cs → represents h' cs.
Proof.
  intros Hf Hr p e Hin. eapply cellOK_mono; [intros nd; by apply frozen_lookup|done|by apply Hr].
Qed.

(** [match_] leads to the returns *)
Definition matchOK (match_ : gmap Z nat) cs : Prop :=
  ∀ p e, (p, e) ∈ cs → e_kind e = returnKind →
    ∃ r f, match_ !! e_id e = Some r ∧ (r, f) ∈ cs ∧ e_kind f = returnKind ∧ e_id f = e_id e.

Lemma cells_lookup_return es j f :
  es !! j = Some f → ∃ p, (p, f) ∈ cells es.
Proof.
  intros Hj. rewrite <-(cells_snd es) in Hj. apply list_lookup_fmap_Some in Hj as ([p f'] & -> & Hj).
  exists p. by eapply list_elem_of_lookup_2.
Qed.

(** a new first node *)
Lemma link_new h es e m root :
  List.length h = List.length es → dll h (cells es).*1 → represents h (cells es) →
  root = first (cells es).*1 None →
  (if e_kind e is callKind
   then ∃ r f, m = Some r ∧ (r, f) ∈ cells es ∧ e_kind f = returnKind ∧ e_id f = e_id e
   else m = None) →
  ∃ h', insertBefore (List.length h) root (h ++ [mkNode (e_value e) m (e_id e) None None]) = Ret h'
    ∧ List.length h' = S (List.length es) ∧ dll h' (cells (e :: es)).*1
    ∧ represents h' (cells (e :: es)).
Proof.
  intros Hlen Hd Hr -> Hm. set (nd := mkNode (e_value e) m (e_id e) None None).
  assert ((h ++ [nd]) !! List.length h = Some nd) as Hnew by by apply list_lookup_middle.
  destruct (insertBefore_spec (h ++ [nd]) (cells es).*1 (List.length h) nd) as (h' & E & Hd' & Hf);
    try done; [by apply dll_extend| |].
  { rewrite cells_fst, Hlen. intros Hin. apply list_elem_of_In in Hin. rewrite <-in_rev in Hin.
    apply list_elem_of_In, elem_of_seq in Hin. lia. }
  exists h'. split_and!; [done| |by rewrite cells_cons, <-Hlen|].
  - apply (f_equal List.length) in Hf. rewrite !length_fmap, length_app in Hf. simpl in Hf. lia.
  - apply (represents_frozen _ _ _ Hf). rewrite cells_cons.
    intros p e' [[= -> ->]|Hin]%elem_of_cons.
    + exists nd. rewrite <-Hlen. split_and!; try done. destruct (e_kind e); [|done].
      destruct Hm as (r & f & -> & ? & ? & ?). exists r, f. split_and!; try done. by right.
    + eapply cellOK_mono; [|by right|by apply Hr]. intros nd' Hp. exists nd'.
      split; [by apply lookup_app_l_Some|done].
Qed.

Lemma closed_tail e es : closed (e :: es) → closed es.
Proof.
  intros Hc i e' Hi Hk. destruct (Hc (S i) e' Hi Hk) as ([|j] & f & Hj & Hf & ?); [lia|].
  exists j, f. split; [lia|done].
Qed.

Lemma linkEntries_spec es :
  closed es →
  ∃ h match_, linkEntries es = Ret (h, match_, first (cells es).*1 None)
    ∧ List.length h = List.length es ∧ dll h (cells es).*1 ∧ represents h (cells es)
    ∧ matchOK match_ (cells es).
Proof.
  induction es as [|e es IH]; intros Hc.
  { exists [], ∅. split_and!; try done; [split; [constructor|done]|..]; by intros ?? ?%elem_of_nil. }
  destruct (IH (closed_tail _ _ Hc)) as (h & m & E & Hlen & Hd & Hr & Hm). simpl. rewrite E. simpl.
  assert (e_kind e = callKind →
    ∃ r f, m !! e_id e = Some r ∧ (r, f) ∈ cells es ∧ e_kind f = returnKind ∧ e_id f = e_id e) as Hcall.
  { intros Hk. destruct (Hc 0%nat e eq_refl Hk) as ([|j] & f & Hj & Hf & Hfk & Hfi); [lia|].
    destruct (cells_lookup_return es j f Hf) as [p Hp]. rewrite <-Hfi. by eapply Hm. }
  destruct (e_kind e) eqn:Hk.
  - destruct (link_new h es e (m !! e_id e) _ Hlen Hd Hr eq_refl) as (h' & E' & Hlen' & Hd' & Hr');
      [rewrite Hk; auto|].
    rewrite E'. simpl. exists h', m. rewrite Hlen. split_and!; try done; [by rewrite cells_cons|].
    intros p e'. rewrite cells_cons. intros [[= -> ->]|Hin]%elem_of_cons Hk'; [congruence|].
    destruct (Hm p e' Hin Hk') as (r & f & ? & ? & ? & ?). exists r, f. split_and!; try done. by right.
  - destruct (link_new h es e None _ Hlen Hd Hr eq_refl) as (h' & E' & Hlen' & Hd' & Hr');
      [by rewrite Hk|].
    rewrite E'. simpl. eexists h', _. rewrite Hlen. split_and!; try done; [by rewrite cells_cons|].
    intros p e'. rewrite cells_cons. intros Hin Hk'.
    destruct (decide (e_id e' = e_id e)) as [Hid|Hid].
    + exists (List.length es), e. rewrite Hid, lookup_insert_eq.
      split_and!; try done. by left.
    + apply elem_of_cons in Hin as [[= -> ->]|Hin]; [done|].
      destruct (Hm p e' Hin Hk') as (r & f & ? & ? & ? & ?). exists r, f.
      rewrite lookup_insert_ne by done. split_and!; try done. by right.
Qed.
End dll.
