(* ===== verification/PorcSpec.v ===== *)
(** * Package porcupine: linearizability

    What the checker decides: a history is linearizable when its operations can be put
    in an order that the model can execute with the recorded outputs and in which an
    operation that returned before another was called comes first.  [completion] is the
    same for the operations that are left when a set of them was executed. *)

From S2P Require Import Prelude PorcBitset PorcChecker PorcList.

Section spec.
Context {V St : Type} (m : Model V St) (es : list (entry V)).
Implicit Types (e f : entry V) (a b : Z) (l σ : list Z) (s : St) (L : bitset).

(** every operation has one call and one later return, and a small number *)
Record history_ok : Prop := {
  ho_id : ∀ e, e ∈ es → 0 ≤ e_id e < Z.quot (len es) 2;
  ho_unique : ∀ i j e f, es !! i = Some e → es !! j = Some f →
    e_kind e = e_kind f → e_id e = e_id f → i = j;
  ho_return : ∀ i e, es !! i = Some e → e_kind e = callKind →
    ∃ j f, (i < j)%nat ∧ es !! j = Some f ∧ e_kind f = returnKind ∧ e_id f = e_id e;
  ho_call : ∀ j f, es !! j = Some f → e_kind f = returnKind →
    ∃ i e, (i < j)%nat ∧ es !! i = Some e ∧ e_kind e = callKind ∧ e_id e = e_id f;
}.

(** the value of the entry of kind [k] of operation [a] *)
Definition valueOf (k : kind) a : any V :=
  head (filter (λ e, e_kind e = k ∧ e_id e = a) es) ≫= e_value.

Definition stepOf s a : bool * St := Step m s (valueOf callKind a) (valueOf returnKind a).

(** the model executes the operations in the order [σ] *)
Fixpoint legal s σ : Prop :=
  match σ with
  | [] => True
  | a :: σ => (stepOf s a).1 = true ∧ legal (stepOf s a).2 σ
  end.

(** operation [a] returned before [b] was called *)
Definition precedes a b : Prop :=
  ∃ i j e f, (i < j)%nat ∧ es !! i = Some e ∧ e_kind e = returnKind ∧ e_id e = a
    ∧ es !! j = Some f ∧ e_kind f = callKind ∧ e_id f = b.

Definition ordered σ : Prop :=
  ∀ i j a b, (i < j)%nat → σ !! i = Some a → σ !! j = Some b → ¬ precedes b a.

Definition operations : list Z := e_id <$> filter (λ e, e_kind e = callKind) es.

Definition linearization σ : Prop := σ ≡ₚ operations ∧ ordered σ ∧ legal (Init m) σ.

Definition linearizable : Prop := ∃ σ, linearization σ.

(** ** What is left *)

Definition left L : list Z :=
  e_id <$> filter (λ e, e_kind e = callKind ∧ member L (e_id e) = false) es.

Definition completion L s σ : Prop := σ ≡ₚ left L ∧ ordered σ ∧ legal s σ.

Definition dead L s : Prop := ∀ σ, ¬ completion L s σ.

(** the nodes of the operations that are left *)
Definition rem L : list (nat * entry V) :=
  filter (λ c, member L (e_id c.2) = false) (cells es).

Hypothesis Hok : history_ok.

Lemma cells_lookup i p e : cells es !! i = Some (p, e) → es !! i = Some e.
Proof. intros H. rewrite <-(cells_snd es), list_lookup_fmap, H. done. Qed.

Lemma cells_elem e : e ∈ es → ∃ p, (p, e) ∈ cells es.
Proof. intros [i Hi]%list_elem_of_lookup_1. by eapply cells_lookup_return. Qed.

Lemma elem_left L a :
  a ∈ left L ↔ member L a = false ∧ ∃ e, e ∈ es ∧ e_kind e = callKind ∧ e_id e = a.
Proof.
  unfold left. rewrite list_elem_of_fmap. setoid_rewrite list_elem_of_filter. naive_solver.
Qed.

Lemma elem_rem L p e : (p, e) ∈ rem L ↔ member L (e_id e) = false ∧ (p, e) ∈ cells es.
Proof. unfold rem. by rewrite list_elem_of_filter. Qed.

Lemma left_NoDup L : NoDup (left L).
Proof.
  unfold left. assert (∀ (l : list (entry V)) k, drop k es = l →
    NoDup (e_id <$> filter (λ e, e_kind e = callKind ∧ member L (e_id e) = false) l)) as H.
  { induction l as [|e l IH]; intros k Hk; [constructor|].
    assert (es !! k = Some e) as He by by rewrite <-(Nat.add_0_r k), <-lookup_drop, Hk.
    assert (drop (S k) es = l) as Hl by by rewrite <-Nat.add_1_r, <-drop_drop, Hk.
    rewrite filter_cons. destruct (decide _) as [[Hc _]|_]; [|by eapply IH].
    simpl. apply NoDup_cons. split; [|by eapply IH].
    intros (f & Hid & [[Hfc _] Hf]%list_elem_of_filter)%list_elem_of_fmap.
    apply list_elem_of_lookup_1 in Hf as [j Hj]. rewrite <-Hl, lookup_drop in Hj.
    assert (k = S k + j)%nat as Hkj by (eapply ho_unique; [done..|congruence|done]). lia. }
  by apply (H es 0%nat).
Qed.

Lemma operations_left L : (∀ q, member L q = false) → operations = left L.
Proof.
  intros HL. unfold operations, left. f_equal. apply filter_ext_in. intros e _. rewrite HL. tauto.
Qed.

Lemma operations_NoDup : NoDup operations.
Proof. rewrite (operations_left []); [apply left_NoDup|done]. Qed.

Lemma valueOf_eq i e : es !! i = Some e → valueOf (e_kind e) (e_id e) = e_value e.
Proof.
  intros Hi. unfold valueOf.
  destruct (filter _ es) as [|f l] eqn:E; simpl.
  - exfalso. apply (not_elem_of_nil (A:=entry V) e). rewrite <-E. apply list_elem_of_filter.
    split; [done|]. by eapply list_elem_of_lookup_2.
  - assert (f ∈ f :: l) as Hf by constructor. rewrite <-E in Hf.
    apply list_elem_of_filter in Hf as [[Hk Hid] Hf]. apply list_elem_of_lookup_1 in Hf as [j Hj].
    assert (i = j) as <- by by eapply ho_unique. congruence.
Qed.

(** where a node that is left stands in the history *)
Lemma rem_place L R1 p e R2 :
  rem L = R1 ++ (p, e) :: R2 →
  ∃ i, es !! i = Some e ∧ (∀ q f, (q, f) ∈ R1 → ∃ j, (j < i)%nat ∧ es !! j = Some f)
    ∧ ∀ j f, (j < i)%nat → es !! j = Some f → member L (e_id f) = false → ∃ q, (q, f) ∈ R1.
Proof.
  intros (L1 & L2 & Hl & -> & _)%filter_split. exists (List.length L1).
  assert (∀ j c, L1 !! j = Some c → es !! j = Some c.2) as Hpre.
  { intros j [q f] Hj. apply (cells_lookup _ q). rewrite Hl. by apply lookup_app_l_Some. }
  split_and!.
  - apply (cells_lookup _ p). rewrite Hl. by apply list_lookup_middle.
  - intros q f [_ Hin]%list_elem_of_filter. apply list_elem_of_lookup_1 in Hin as [j Hj].
    exists j. split; [by eapply lookup_lt_Some|]. by apply (Hpre j (q, f)).
  - intros j f Hj Hf Hm. destruct (lookup_lt_is_Some_2 L1 j Hj) as [[q f'] Hq].
    pose proof (Hpre j _ Hq) as Hf'. rewrite Hf in Hf'. simplify_eq/=. exists q.
    apply list_elem_of_filter. split; [done|]. by eapply list_elem_of_lookup_2.
Qed.

(** an operation whose call comes before every return that is left may go next *)
Lemma safe_choice L R1 p e R2 b :
  rem L = R1 ++ (p, e) :: R2 → e_kind e = callKind →
  (∀ q f, (q, f) ∈ R1 → e_kind f = callKind) →
  member L b = false → ¬ precedes b (e_id e).
Proof.
  intros Hr Hk Hall Hb (i & j & f & g & Hij & Hf & Hfk & <- & Hg & Hgk & Hgi).
  destruct (rem_place _ _ _ _ _ Hr) as (k & He & _ & Hbefore).
  assert (j = k) as -> by (eapply (ho_unique Hok); [done..|congruence|done]).
  destruct (Hbefore i f Hij Hf Hb) as [q Hq]. apply Hall in Hq. congruence.
Qed.

(** the first operation of a completion *)
Lemma candidate L s a σ :
  completion L s (a :: σ) →
  ∃ R1 p e R2, rem L = R1 ++ (p, e) :: R2 ∧ e_kind e = callKind ∧ e_id e = a
    ∧ ∀ q f, (q, f) ∈ R1 → e_kind f = callKind.
Proof.
  intros (Hperm & Hord & _).
  assert (a ∈ left L) as (Hm & e & He & Hk & Hid)%elem_left by (rewrite <-Hperm; constructor).
  destruct (cells_elem e He) as [p Hp].
  assert ((p, e) ∈ rem L) as Hin by (apply elem_rem; by rewrite Hid).
  apply list_elem_of_split in Hin as (R1 & R2 & Hr). exists R1, p, e, R2. split_and!; try done.
  intros q f Hq. destruct (e_kind f) eqn:Hfk; [done|exfalso].
  destruct (rem_place _ _ _ _ _ Hr) as (i & Hi & Hbefore & _).
  destruct (Hbefore q f Hq) as (j & Hji & Hj).
  destruct (ho_call Hok j f Hj Hfk) as (k & g & Hkj & Hg & Hgk & Hgi).
  assert (e_id f ∈ a :: σ) as Hin.
  { rewrite Hperm. apply elem_left. split; [|exists g; split; [by eapply list_elem_of_lookup_2|done]].
    assert ((q, f) ∈ rem L) as [? _]%elem_rem; [|done]. rewrite Hr. apply elem_of_app. by left. }
  assert (precedes (e_id f) a) as Hprec by (exists j, i, f, e; by rewrite Hid).
  apply elem_of_cons in Hin as [Ha|Hin].
  - assert (k = i) as -> by (eapply (ho_unique Hok); [done..|congruence|congruence]). lia.
  - apply list_elem_of_lookup_1 in Hin as [x Hx]. by eapply (Hord 0%nat (S x) a (e_id f)); [lia|..].
Qed.

Lemma left_add L L' a x :
  (∀ q, 0 ≤ q → member L' q = if q =? a then true else member L q) →
  x ∈ left L' ↔ x ∈ left L ∧ x ≠ a.
Proof.
  intros Hset. rewrite !elem_left. split.
  - intros (Hm & e & He & Hk & <-). pose proof (ho_id Hok e He). rewrite Hset in Hm by lia.
    destruct (Z.eqb_spec (e_id e) a); [done|]. split; [|done]. split; [done|by exists e].
  - intros ((Hm & e & He & Hk & <-) & Hne). pose proof (ho_id Hok e He).
    rewrite Hset by lia. destruct (Z.eqb_spec (e_id e) a); [done|]. split; [done|by exists e].
Qed.

Lemma completion_tail L L' s a σ :
  (∀ q, 0 ≤ q → member L' q = if q =? a then true else member L q) →
  completion L s (a :: σ) → (stepOf s a).1 = true ∧ completion L' (stepOf s a).2 σ.
Proof.
  intros Hset (Hperm & Hord & Hstep & Hleg). split; [done|].
  pose proof (left_NoDup L) as Hnd. rewrite <-Hperm in Hnd. apply NoDup_cons in Hnd as [Ha Hnd].
  split_and!; [|intros i j x y Hij Hx Hy; by eapply (Hord (S i) (S j)); [lia|..]|done].
  apply NoDup_Permutation; [done|apply left_NoDup|]. intros x.
  rewrite (left_add L L' a x Hset), <-Hperm, elem_of_cons. split.
  - intros Hx. split; [by right|]. by intros ->.
  - by intros [[->|?] ?].
Qed.

(** [a] was tried next and leads nowhere *)
Definition refuted L s a : Prop :=
  ∀ L', bitset_set a L = Ret L' → (stepOf s a).1 = true → dead L' (stepOf s a).2.

Definition tried L s (c : nat * entry V) : Prop :=
  e_kind c.2 = callKind ∧ refuted L s (e_id c.2).

(** every call before the first return was tried *)
Lemma exhausted L s R1 q f R2 :
  rem L = R1 ++ (q, f) :: R2 → e_kind f = returnKind → Forall (tried L s) R1 →
  (∀ e, e ∈ es → inRange L (e_id e)) → dead L s.
Proof.
  intros Hr Hf Hall Hrange σ Hcomp. rewrite Forall_forall in Hall.
  assert (member L (e_id f) = false ∧ f ∈ es) as [Hfm Hfin].
  { assert ((q, f) ∈ rem L) as [Hm Hc]%elem_rem.
    { rewrite Hr. apply elem_of_app. right. constructor. }
    split; [done|]. apply list_elem_of_lookup_1 in Hc as [i ?%cells_lookup].
    by eapply list_elem_of_lookup_2. }
  destruct σ as [|a σ].
  - destruct Hcomp as (Hperm & _). apply list_elem_of_lookup_1 in Hfin as [j Hj].
    destruct (ho_call Hok j f Hj Hf) as (k & g & _ & Hg & Hgk & Hgi).
    apply (not_elem_of_nil (e_id f)). rewrite Hperm. apply elem_left. split; [done|].
    exists g. split; [by eapply list_elem_of_lookup_2|done].
  - destruct (candidate _ _ _ _ Hcomp) as (R1' & p & e & R2' & Hr' & Hk & <- & Hcalls).
    assert ((p, e) ∈ R1) as Hin.
    { rewrite Hr in Hr'. apply app_eq_inv in Hr' as [(k & -> & Hk')|(k & -> & Hk')].
      - destruct k as [|x k]; simplify_eq/=; [congruence|]. apply elem_of_app. right. constructor.
      - destruct k as [|x k]; simplify_eq/=; [congruence|].
        assert (e_kind f = callKind); [|congruence]. apply (Hcalls q).
        apply elem_of_app. right. constructor. }
    destruct (Hall _ Hin) as [_ Href]. simpl in Href.
    destruct (set_spec L (e_id e)) as (L' & Hset & _ & Hmem).
    { apply Hrange. assert ((p, e) ∈ rem L) as [_ Hc]%elem_rem
        by (rewrite Hr; apply elem_of_app; by left).
      apply list_elem_of_lookup_1 in Hc as [i ?%cells_lookup]. by eapply list_elem_of_lookup_2. }
    destruct (completion_tail L L' s (e_id e) σ Hmem Hcomp) as [Hst Hc'].
    by apply (Href L' Hset Hst σ).
Qed.
End spec.
