(* ===== verification/PorcSearch.v ===== *)
(** * Package porcupine: the search decides linearizability

    [checkSingle] is a depth-first search with a cache.  The invariant: the nodes in the
    list are those of the operations that are not linearized; the calls on the stack are
    a legal prefix; every call to the left of the current entry, on every level of the
    stack, was tried and leads nowhere; every configuration in the cache leads nowhere
    or is on the stack.  A number that grows with every turn bounds their number. *)

From S2P Require Import Prelude PorcBitset PorcChecker PorcList PorcSpec.

Section search.
Context {V St : Type} (m : Model V St) (es : list (entry V)).
Context (eqv : St → St → bool).
Hypothesis Heq : Equal m = Some eqv.
(** equal states allow the same steps, to equal states *)
Hypothesis Hcong : ∀ s s' i o, eqv s s' = true →
  (Step m s i o).1 = (Step m s' i o).1 ∧ eqv (Step m s i o).2 (Step m s' i o).2 = true.
Hypothesis Hok : history_ok es.
Implicit Types (s : St) (L : bitset) (h : list (node V)) (st : Search V St).
Implicit Types (cs : list (callsEntry St)) (cfgs : list (bitset * St)).

Abbreviation rem := (rem es).
Abbreviation dead := (dead m es).
Abbreviation tried := (tried m es).
Abbreviation hd := (List.length es).

Lemma legal_equal s s' σ : eqv s s' = true → legal m es s σ → legal m es s' σ.
Proof.
  revert s s'. induction σ as [|a σ IH]; intros s s' E; [done|]. simpl. unfold stepOf.
  destruct (Hcong s s' (valueOf es callKind a) (valueOf es returnKind a) E) as [E1 E2].
  intros [Hst Hl]. split; [congruence|]. by eapply IH.
Qed.

Lemma dead_equal L s s' : eqv s s' = true → dead L s' → dead L s.
Proof. intros E Hd σ (? & ? & ?). apply (Hd σ). split_and!; try done. by eapply legal_equal. Qed.

(** ** Lifting *)

(** the list of the operations that are left *)
Definition heapOK L h : Prop := dll h (hd :: (rem L).*1) ∧ represents h (cells es).

Lemma cells_unique p e q f :
  (p, e) ∈ cells es → (q, f) ∈ cells es → e_kind e = e_kind f → e_id e = e_id f →
  (p, e) = (q, f).
Proof.
  intros [i Hi]%list_elem_of_lookup_1 [j Hj]%list_elem_of_lookup_1 Hk Hid.
  assert (i = j) as ->; [|congruence].
  eapply (ho_unique _ Hok); [by eapply cells_lookup..|done|done].
Qed.

Lemma cells_NoDup : NoDup (cells es).
Proof.
  apply (NoDup_fmap_1 fst). rewrite cells_fst. apply NoDup_ListNoDup, NoDup_rev, NoDup_ListNoDup, NoDup_seq.
Qed.

Lemma rem_NoDup L : NoDup (rem L).
Proof. apply NoDup_filter, cells_NoDup. Qed.

(** the match of a call is behind it, and both leave the list *)
Lemma rem_lift L L' R1 p e R2 r f :
  rem L = R1 ++ (p, e) :: R2 → e_kind e = callKind →
  (∀ q g, (q, g) ∈ R1 → e_kind g = callKind) →
  (r, f) ∈ cells es → e_kind f = returnKind → e_id f = e_id e →
  (∀ q, 0 ≤ q → member L' q = if q =? e_id e then true else member L q) →
  ∃ Y Z, R2 = Y ++ (r, f) :: Z ∧ rem L' = R1 ++ Y ++ Z.
Proof.
  intros Hr Hk Hcalls Hf Hfk Hfi Hset.
  assert ((p, e) ∈ rem L) as [Hm Hpe]%elem_rem
    by (rewrite Hr; apply elem_of_app; right; constructor).
  assert ((r, f) ∈ rem L) as Hin by (apply elem_rem; by rewrite Hfi).
  rewrite Hr in Hin. apply elem_of_app in Hin as [Hin|Hin]; [apply Hcalls in Hin; congruence|].
  apply elem_of_cons in Hin as [[= -> ->]|Hin]; [congruence|].
  apply list_elem_of_split in Hin as (Y & Z & ->). exists Y, Z. split; [done|].
  assert (rem L' = filter (λ c, e_id c.2 ≠ e_id e) (rem L)) as ->.
  { unfold PorcSpec.rem. rewrite list_filter_filter. apply filter_ext_in. intros [q g] Hq. simpl.
    assert (0 ≤ e_id g) as Hg.
    { apply list_elem_of_lookup_1 in Hq as [i Hi%cells_lookup].
      apply (ho_id _ Hok), (list_elem_of_lookup_2 _ _ _ Hi). }
    rewrite Hset by done. destruct (Z.eqb_spec (e_id g) (e_id e)); naive_solver. }
  pose proof (rem_NoDup L) as Hnd. rewrite Hr in Hnd. rewrite Hr.
  apply filter_two; [done|simpl; by intros []..|].
  intros [q g] Hin H1 H2 Hid. rewrite <-Hr in Hin. apply elem_rem in Hin as [_ Hc]. simpl in Hid.
  destruct (e_kind g) eqn:Hgk.
  - apply H1. eapply cells_unique; [done..|congruence|done].
  - apply H2. eapply cells_unique; [done..|congruence|congruence].
Qed.

(** the node of a call that is left, and the node of its return *)
Lemma call_node L h p e :
  heapOK L h → (p, e) ∈ cells es → e_kind e = callKind →
  ∃ nd r f md, h !! p = Some nd ∧ n_id nd = e_id e ∧ n_value nd = valueOf es callKind (e_id e)
    ∧ n_match nd = Some r ∧ (r, f) ∈ cells es ∧ e_kind f = returnKind ∧ e_id f = e_id e
    ∧ h !! r = Some md ∧ n_value md = valueOf es returnKind (e_id e).
Proof.
  intros [_ Hr] Hin Hk. destruct (Hr p e Hin) as (nd & Hp & Hv & Hi & Hm). rewrite Hk in Hm.
  destruct Hm as (r & f & Hm & Hf & Hfk & Hfi). destruct (Hr r f Hf) as (md & Hmd & Hfv & _).
  exists nd, r, f, md. split_and!; try done.
  - apply list_elem_of_lookup_1 in Hin as [i Hi'%cells_lookup].
    rewrite <-Hk, (valueOf_eq es Hok i) by done. done.
  - apply list_elem_of_lookup_1 in Hf as [i Hi'%cells_lookup].
    rewrite <-Hfi, <-Hfk, (valueOf_eq es Hok i) by done. done.
Qed.

Lemma lift_rem L L' h R1 p e R2 :
  heapOK L h → rem L = R1 ++ (p, e) :: R2 → e_kind e = callKind →
  (∀ q g, (q, g) ∈ R1 → e_kind g = callKind) →
  (∀ q, 0 ≤ q → member L' q = if q =? e_id e then true else member L q) →
  ∃ h', lift (Some p) h = Ret h' ∧ heapOK L' h' ∧ unlift (Some p) h' = Ret h ∧ frozen h h'.
Proof.
  intros Hh Hr Hk Hcalls Hset.
  assert ((p, e) ∈ rem L) as [_ Hpe]%elem_rem
    by (rewrite Hr; apply elem_of_app; right; constructor).
  destruct (call_node L h p e Hh Hpe Hk) as (nd & r & f & _ & Hp & _ & _ & Hm & Hf & Hfk & Hfi & _).
  destruct (rem_lift L L' R1 p e R2 r f) as (Y & Z & -> & Hr'); try done.
  destruct Hh as [Hd Hrep].
  destruct (exists_last (l:=hd :: R1.*1)) as (X & a & Ea); [done|].
  assert (∀ l, hd :: (R1.*1 ++ l) = X ++ a :: l) as EX.
  { intros l. change (hd :: R1.*1 ++ l) with ((hd :: R1.*1) ++ l). by rewrite Ea, <-app_assoc. }
  rewrite Hr in Hd. rewrite fmap_app, fmap_cons, fmap_app, fmap_cons in Hd. simpl in Hd. rewrite EX in Hd.
  destruct (lift_spec h X a p Y.*1 r Z.*1 nd Hd Hp Hm) as (h' & E & Hd' & Hfr & Hun).
  exists h'. split_and!; try done. split; [|by eapply represents_frozen].
  rewrite Hr', !fmap_app, EX. done.
Qed.

(** ** The stack *)

(** more than the number of nodes *)
Definition base : Z := len es + 2.

(** [stack cs cfgs path L s h w]: the calls [cs] of the operations [path] lead from the
    start to the linearized set [L], the state [s] and the heap [h], through the
    configurations [cfgs]; [w] is the progress of the search on the levels below *)
Inductive stack (L0 : bitset) (h0 : list (node V)) :
    list (callsEntry St) → list (bitset * St) → list Z → bitset → St → list (node V) → Z → Prop :=
| stack_nil : stack L0 h0 [] [] [] L0 (Init m) h0 0
| stack_push cs cfgs path L s h w R1 p e R2 L' s' h' :
    stack L0 h0 cs cfgs path L s h w →
    rem L = R1 ++ (p, e) :: R2 → e_kind e = callKind → Forall (tried L s) R1 →
    bitset_set (e_id e) L = Ret L' → stepOf m es s (e_id e) = (true, s') →
    lift (Some p) h = Ret h' →
    stack L0 h0 (cs ++ [mkCallsEntry p s]) (cfgs ++ [(L', s')]) (path ++ [e_id e]) L' s' h'
      (w + (len R1 + 1) * base ^ (Z.of_nat (List.length es) - len path)).

Context (L0 : bitset) (h0 : list (node V)).
Hypothesis HL0 : ∀ q, member L0 q = false.
Hypothesis Hrange0 : ∀ e, e ∈ es → inRange L0 (e_id e).
Hypothesis Hh0 : heapOK L0 h0.

Lemma rem_elem L R1 p e R2 :
  rem L = R1 ++ (p, e) :: R2 → member L (e_id e) = false ∧ (p, e) ∈ cells es ∧ e ∈ es.
Proof.
  intros Hr. assert ((p, e) ∈ rem L) as [Hm Hc]%elem_rem
    by (rewrite Hr; apply elem_of_app; right; constructor).
  split_and!; try done. apply list_elem_of_lookup_1 in Hc as [i ?%cells_lookup].
  by eapply list_elem_of_lookup_2.
Qed.

Lemma tried_calls L s R1 : Forall (tried L s) R1 → ∀ q g, (q, g) ∈ R1 → e_kind g = callKind.
Proof. intros Hall q g Hq. rewrite Forall_forall in Hall. by destruct (Hall _ Hq). Qed.

(** the set and the heap of a stack *)
Lemma stack_rep cs cfgs path L s h w :
  stack L0 h0 cs cfgs path L s h w →
  len L = len L0 ∧ (∀ q, 0 ≤ q → member L q = bool_decide (q ∈ path)) ∧ heapOK L h
  ∧ len cs = len path.
Proof.
  induction 1 as [|cs cfgs path L s h w R1 p e R2 L' s' h' _ (Hl & Hm & Hh & Hc) Hr Hk Hall Hset Hst Hlift].
  - split_and!; try done.
  - destruct (rem_elem _ _ _ _ _ Hr) as (Hme & _ & Hin).
    destruct (set_spec L (e_id e)) as (L'' & Hset' & Hlen & Hmem).
    { unfold inRange. rewrite Hl. by apply Hrange0. }
    rewrite Hset in Hset'. simplify_eq.
    destruct (lift_rem L L'' h R1 p e R2) as (h'' & Hlift' & Hh' & _); try done; [by eapply tried_calls|].
    rewrite Hlift in Hlift'. simplify_eq. split_and!; [congruence| |done|rewrite !len_app; unfold len in *; simpl; lia].
    intros q Hq. rewrite Hmem, Hm by done. destruct (Z.eqb_spec q (e_id e)) as [->|Hne].
    + rewrite bool_decide_true; [done|]. rewrite elem_of_app, list_elem_of_singleton. by right.
    + apply bool_decide_ext. rewrite elem_of_app, list_elem_of_singleton. naive_solver.
Qed.

(** the state after the operations [σ] *)
Definition runs s (σ : list Z) : St := fold_left (λ s a, (stepOf m es s a).2) σ s.

Lemma legal_snoc s σ a :
  legal m es s (σ ++ [a]) ↔ legal m es s σ ∧ (stepOf m es (runs s σ) a).1 = true.
Proof. revert s. induction σ as [|b σ IH]; intros s; simpl; [tauto|]. rewrite IH. tauto. Qed.

Lemma runs_snoc s σ a : runs s (σ ++ [a]) = (stepOf m es (runs s σ) a).2.
Proof. unfold runs. by rewrite fold_left_app. Qed.

Lemma ordered_snoc σ a :
  ordered es σ → (∀ x, x ∈ σ → ¬ precedes es a x) → ordered es (σ ++ [a]).
Proof.
  intros Ho Ha i j x y Hij Hx Hy. apply lookup_lt_Some in Hy as Hlt. rewrite length_app in Hlt.
  simpl in Hlt. rewrite lookup_app_l in Hx by lia.
  destruct (decide (j < List.length σ)%nat) as [Hj|Hj].
  - rewrite lookup_app_l in Hy by done. by apply (Ho i j x y).
  - rewrite lookup_app_r in Hy by lia. apply list_lookup_singleton_Some in Hy as [_ <-].
    apply Ha. by eapply list_elem_of_lookup_2.
Qed.

(** the operations on the stack are a legal prefix *)
Lemma stack_path cs cfgs path L s h w :
  stack L0 h0 cs cfgs path L s h w →
  NoDup path ∧ (∀ a, a ∈ path → a ∈ operations es) ∧ ordered es path
  ∧ (∀ a b, a ∈ path → b ∉ path → ¬ precedes es b a)
  ∧ legal m es (Init m) path ∧ s = runs (Init m) path.
Proof.
  induction 1 as [|cs cfgs path L s h w R1 p e R2 L' s' h' Hst (Hnd & Hops & Hord & Hpre & Hleg & Hs)
    Hr Hk Hall Hset Hstep Hlift].
  - split_and!; try done; first [constructor|by intros a ?%elem_of_nil|by intros a b ?%elem_of_nil].
  - destruct (stack_rep _ _ _ _ _ _ _ Hst) as (_ & Hm & _ & _).
    destruct (rem_elem _ _ _ _ _ Hr) as (Hme & _ & Hin).
    pose proof (ho_id _ Hok e Hin) as He.
    assert (e_id e ∉ path) as Hnew by (rewrite Hm in Hme by lia; by apply bool_decide_eq_false in Hme).
    split_and!.
    + apply NoDup_app. split_and!; [done| |apply NoDup_singleton].
      intros x Hx. rewrite list_elem_of_singleton. by intros ->.
    + intros a [?|Ha]%elem_of_app; [by apply Hops|]. apply list_elem_of_singleton in Ha as ->.
      apply list_elem_of_fmap. exists e. split; [done|]. by apply list_elem_of_filter.
    + apply ordered_snoc; [done|]. intros x Hx. by apply Hpre.
    + intros a b [Ha|Ha]%elem_of_app Hb; rewrite elem_of_app, list_elem_of_singleton in Hb.
      { apply Hpre; [done|tauto]. }
      apply list_elem_of_singleton in Ha as ->. intros Hprec.
      assert (0 ≤ b) as Hb0.
      { destruct Hprec as (i & _ & f & _ & _ & Hf & _ & <- & _).
        apply (ho_id _ Hok), (list_elem_of_lookup_2 _ _ _ Hf). }
      eapply safe_choice; [exact Hok|exact Hr|done|by eapply tried_calls| |exact Hprec].
      rewrite Hm by done. apply bool_decide_eq_false. tauto.
    + apply legal_snoc. rewrite <-Hs, Hstep. done.
    + by rewrite runs_snoc, <-Hs, Hstep.
Qed.

Lemma stack_length cs cfgs path L s h w :
  stack L0 h0 cs cfgs path L s h w → len path ≤ len es.
Proof.
  intros (Hnd & Hops & _)%stack_path. apply (NoDup_submseteq path (operations es)) in Hnd; [|done].
  apply submseteq_length in Hnd. unfold operations in Hnd. rewrite length_fmap in Hnd.
  pose proof (length_filter (λ e, e_kind e = callKind) es). unfold len. lia.
Qed.

Lemma rem_length L : len (rem L) ≤ len es.
Proof.
  unfold len, PorcSpec.rem. pose proof (length_filter (λ c, member L (e_id c.2) = false) (cells es)).
  rewrite <-(cells_snd es) at 2. rewrite length_fmap. lia.
Qed.

(** the progress is bounded *)
Lemma stack_weight cs cfgs path L s h w :
  stack L0 h0 cs cfgs path L s h w →
  0 ≤ w ≤ base ^ (len es + 1) - base ^ (len es + 1 - len path).
Proof.
  induction 1 as [|cs cfgs path L s h w R1 p e R2 L' s' h' Hst IH Hr Hk Hall Hset Hstep Hlift].
  - unfold len at 3. simpl. rewrite Z.sub_0_r. lia.
  - assert (stack L0 h0 (cs ++ [mkCallsEntry p s]) (cfgs ++ [(L', s')]) (path ++ [e_id e]) L' s' h'
      (w + (len R1 + 1) * base ^ (Z.of_nat (List.length es) - len path))) as Hst' by by eapply stack_push.
    apply stack_length in Hst'. rewrite len_app in *. change (len [e_id e]) with 1 in *.
    change (Z.of_nat (List.length es)) with (len es).
    pose proof (rem_length L) as Hrl. rewrite Hr in Hrl. rewrite len_app in Hrl.
    assert (0 < base) as Hb by (unfold base; pose proof (len_nonneg es); lia).
    assert (len R1 + 1 ≤ base - 1) as Hd
      by (unfold base, len in *; simpl in Hrl; lia).
    replace (len es + 1 - len path) with (Z.succ (len es - len path)) in IH by lia.
    rewrite Z.pow_succ_r in IH by lia.
    replace (len es + 1 - (len path + 1)) with (len es - len path) by lia.
    assert (0 < base ^ (len es - len path)) by (apply Z.pow_pos_nonneg; lia).
    pose proof (len_nonneg R1). nia.
Qed.

(** the configurations on the stack are part of the present one *)
Lemma stack_configs cs cfgs path L s h w L' s' q :
  stack L0 h0 cs cfgs path L s h w → (L', s') ∈ cfgs → 0 ≤ q →
  member L' q = true → member L q = true.
Proof.
  intros Hst. revert L' s' q.
  induction Hst as [|cs cfgs path L s h w R1 p e R2 L' s' h' Hst IH Hr Hk Hall Hset Hstep Hlift];
    intros L1 s1 q; [by intros ?%elem_of_nil|].
  intros [Hin|Hin]%elem_of_app Hq Hm.
  - destruct (stack_rep _ _ _ _ _ _ _ Hst) as (Hl & _).
    destruct (rem_elem _ _ _ _ _ Hr) as (_ & _ & He).
    destruct (set_spec L (e_id e)) as (L'' & Hset' & _ & Hmem).
    { unfold inRange. rewrite Hl. by apply Hrange0. }
    rewrite Hset in Hset'. simplify_eq. rewrite Hmem by done.
    case_match; [done|]. by eapply IH.
  - apply list_elem_of_singleton in Hin. by simplify_eq.
Qed.

(** the ids of the calls on the stack *)
Lemma callIds_snoc h cs c ids nd :
  callIds h cs = Ret ids → h !! cl_entry c = Some nd →
  callIds h (cs ++ [c]) = Ret (ids ++ [n_id nd]).
Proof.
  revert ids. induction cs as [|c' cs IH]; intros ids E Hc; simpl in *.
  - injection E as <-. by rewrite (load_Some _ _ _ Hc).
  - go_step E. rewrite E0. simpl. go_step E. rewrite (IH _ E1 Hc). injection E as <-. done.
Qed.

Lemma stack_ids cs cfgs path L s h w h1 :
  stack L0 h0 cs cfgs path L s h w → represents h1 (cells es) → callIds h1 cs = Ret path.
Proof.
  intros Hst Hrep.
  induction Hst as [|cs cfgs path L s h w R1 p e R2 L' s' h' Hst IH Hr Hk Hall Hset Hstep Hlift]; [done|].
  destruct (rem_elem _ _ _ _ _ Hr) as (_ & Hc & _). destruct (Hrep p e Hc) as (nd & Hp & _ & Hid & _).
  rewrite <-Hid. by apply callIds_snoc.
Qed.

(** ** The cache *)

Definition cacheOK (c : gmap Z (list (cacheEntry St))) cfgs : Prop :=
  ∀ k ce, ce ∈ bucket c k →
    dead (c_linearized ce) (c_state ce) ∨ (c_linearized ce, c_state ce) ∈ cfgs.

Lemma contains_loop_spec e l :
  ∃ b, contains_loop m e l = Ret b
    ∧ (b = true → ∃ x, x ∈ l ∧ c_linearized e = c_linearized x
                       ∧ eqv (c_state e) (c_state x) = true).
Proof.
  induction l as [|x l IH]; simpl; [by exists false|].
  destruct IH as (b & E & Hb).
  assert (∃ b0, contains_loop m e l = Ret b0 ∧ (b0 = true → ∃ y, y ∈ x :: l
    ∧ c_linearized e = c_linearized y ∧ eqv (c_state e) (c_state y) = true)) as Hrest.
  { exists b. split; [done|]. intros (y & ? & ?)%Hb. exists y. split; [by right|done]. }
  destruct (equals _ _) eqn:Hq; [|done]. unfold call. rewrite Heq. simpl.
  destruct (eqv _ _) eqn:Hs; [|done]. exists true. split; [done|]. intros _. exists x.
  split_and!; [by left|by apply equals_spec|done].
Qed.

Lemma cache_add c cfgs k ce :
  cacheOK c cfgs →
  cacheOK (<[k := bucket c k ++ [ce]]> c) (cfgs ++ [(c_linearized ce, c_state ce)]).
Proof.
  intros Hc k' ce' Hin. unfold bucket in Hin. rewrite elem_of_app, list_elem_of_singleton.
  destruct (decide (k = k')) as [->|Hk].
  - rewrite lookup_insert_eq in Hin. simpl in Hin.
    apply elem_of_app in Hin as [Hin|Hin]; [destruct (Hc k' ce' Hin); auto|].
    apply list_elem_of_singleton in Hin as ->. auto.
  - rewrite lookup_insert_ne in Hin by done. destruct (Hc k' ce' Hin); auto.
Qed.

Lemma cache_pop c cfgs L s :
  dead L s → cacheOK c (cfgs ++ [(L, s)]) → cacheOK c cfgs.
Proof.
  intros Hd Hc k ce Hin. destruct (Hc k ce Hin) as [?|Hcfg]; [by left|].
  apply elem_of_app in Hcfg as [?|Hcfg]; [by right|]. apply list_elem_of_singleton in Hcfg.
  injection Hcfg as -> ->. by left.
Qed.

(** a configuration that the cache holds and that [a] completes leads nowhere *)
Lemma cached_dead c cfgs cs path L s h w a L' x s' :
  stack L0 h0 cs cfgs path L s h w → cacheOK c cfgs → 0 ≤ a →
  member L a = false → member L' a = true →
  x ∈ bucket c (hash L') → L' = c_linearized x → eqv s' (c_state x) = true → dead L' s'.
Proof.
  intros Hst Hc Ha Hm Hm' Hin -> He. eapply dead_equal; [exact He|].
  destruct (Hc _ _ Hin) as [?|Hcfg]; [done|].
  pose proof (stack_configs _ _ _ _ _ _ _ _ _ a Hst Hcfg Ha Hm'). congruence.
Qed.

(** ** The partial linearizations *)

(** a legal order of some operations with all that precede them *)
Definition partial (σ : list Z) : Prop :=
  NoDup σ ∧ (∀ a, a ∈ σ → a ∈ operations es) ∧ ordered es σ
  ∧ (∀ a b, a ∈ σ → b ∉ σ → ¬ precedes es b a) ∧ legal m es (Init m) σ.

Definition longestOK (lg : list ptr) (sq : list (list Z)) : Prop :=
  len lg = Z.quot (len es) 2
  ∧ ∀ i p, lg !! i = Some (Some p) → ∃ σ, sq !! p = Some σ ∧ partial σ ∧ Z.of_nat i ∈ σ.

Lemma longestOK_extend lg sq x : longestOK lg sq → longestOK lg (sq ++ [x]).
Proof.
  intros [Hl Hp]. split; [done|]. intros i p Hi. destruct (Hp i p Hi) as (σ & Hs & ?).
  exists σ. split; [by apply lookup_app_l_Some|done].
Qed.

Lemma longest_loop_spec h sq σ p cl cs lg ids :
  callIds h cs = Ret ids → (∀ a, a ∈ ids → a ∈ σ ∧ 0 ≤ a < Z.quot (len es) 2) →
  sq !! p = Some σ → partial σ → longestOK lg sq →
  ∃ lg', longest_loop h sq p cl cs lg = Ret lg' ∧ longestOK lg' sq.
Proof.
  intros E Hids Hp Hpart. revert lg ids E Hids.
  induction cs as [|c cs IH]; intros lg ids E Hids Hlg; simpl in *; [by exists lg|].
  go_step E. go_step E. injection E as <-. rewrite E0. simpl.
  destruct (Hids (n_id a)) as [Hin Hr]; [by left|]. pose proof Hlg as [Hlen Hlg'].
  destruct (idx_total lg (n_id a)) as [old Hold]; [lia|]. rewrite Hold. simpl.
  assert (∀ lg1, longestOK lg1 sq → ∃ lg', longest_loop h sq p cl cs lg1 = Ret lg' ∧ longestOK lg' sq)
    as Hnext.
  { intros lg1 Hlg1. eapply IH; [exact E1| |done]. intros b Hb. apply Hids. by right. }
  destruct (match old ≫= _ with Some _ => _ | None => _ end); [|by apply Hnext].
  rewrite upd_Ret by lia. simpl. apply Hnext. split; [unfold len in *; by rewrite length_insert|].
  intros i q [(<- & [= <-] & _)|[_ Hi]]%list_lookup_insert_Some; [|by apply Hlg'].
  exists σ. split_and!; try done. by rewrite Z2Nat.id by lia.
Qed.

(** ** The invariant of the loop *)

(** [searchOK st n]: [n] is the progress made *)
Definition searchOK st (n : Z) : Prop :=
  ∃ cfgs path w R1 R2,
    stack L0 h0 (calls st) cfgs path (linearized st) (state st) (heap st) w
    ∧ rem (linearized st) = R1 ++ R2 ∧ cur st = first R2.*1 None
    ∧ Forall (tried (linearized st) (state st)) R1
    ∧ cacheOK (cache st) cfgs ∧ longestOK (longest st) (seqs st)
    ∧ n = w + (len R1 + 1) * base ^ (len es - len path).

Lemma base_pos : 2 ≤ base.
Proof. unfold base. pose proof (len_nonneg es). lia. Qed.

Lemma pow_pos k : 0 ≤ k → 0 < base ^ k.
Proof. intros. pose proof base_pos. apply Z.pow_pos_nonneg; lia. Qed.

Lemma searchOK_bound st n : searchOK st n → 0 ≤ n < base ^ (len es + 1).
Proof.
  intros (cfgs & path & w & R1 & R2 & Hst & Hr & _ & _ & _ & _ & ->).
  pose proof (stack_weight _ _ _ _ _ _ _ Hst) as Hw. pose proof (stack_length _ _ _ _ _ _ _ Hst) as Hl.
  pose proof (rem_length (linearized st)) as Hrl. rewrite Hr, len_app in Hrl.
  replace (len es + 1 - len path) with (Z.succ (len es - len path)) in Hw by lia.
  rewrite Z.pow_succ_r in Hw by lia. pose proof (pow_pos (len es - len path)).
  pose proof (len_nonneg R1). pose proof (len_nonneg R2). pose proof (len_nonneg path).
  unfold base in *. nia.
Qed.

Lemma dll_next h l1 p l2 nd :
  dll h (l1 ++ p :: l2) → h !! p = Some nd → n_next nd = first l2 None.
Proof. intros [_ [_ (nd' & Hp & _ & Hn & _)]%seg_app] Hp'. congruence. Qed.

(** the node of a cell that is left *)
Lemma rem_next L h R1 p e R2 nd :
  heapOK L h → rem L = R1 ++ (p, e) :: R2 → h !! p = Some nd → n_next nd = first R2.*1 None.
Proof.
  intros [Hd _] Hr Hp. rewrite Hr, fmap_app, fmap_cons in Hd. simpl in Hd.
  by apply (dll_next h (hd :: R1.*1) p _ nd) in Hd.
Qed.

(** to the next entry *)
Lemma advance_ok st n R1 p e R2 cfgs path w :
  stack L0 h0 (calls st) cfgs path (linearized st) (state st) (heap st) w →
  rem (linearized st) = R1 ++ (p, e) :: R2 → cur st = Some p →
  Forall (tried (linearized st) (state st)) R1 → tried (linearized st) (state st) (p, e) →
  cacheOK (cache st) cfgs → longestOK (longest st) (seqs st) →
  n = w + (len R1 + 1) * base ^ (len es - len path) →
  ∃ st' n', advance st = Ret st' ∧ searchOK st' n' ∧ n < n'.
Proof.
  intros Hst Hr Hcur Hall Htr Hc Hlg ->.
  destruct (stack_rep _ _ _ _ _ _ _ Hst) as (_ & _ & Hh & _).
  destruct (rem_elem _ _ _ _ _ Hr) as (_ & Hpe & _).
  destruct Hh as [Hd Hrep]. destruct (Hrep p e Hpe) as (nd & Hp & _).
  unfold advance. rewrite Hcur, (load_Some _ _ _ Hp). simpl.
  eexists _, _. split; [done|]. split.
  - exists cfgs, path, w, (R1 ++ [(p, e)]), R2. simpl. split_and!; try done.
    + by rewrite Hr, <-app_assoc.
    + eapply rem_next; [by split|exact Hr|done].
    + apply Forall_app. split; [done|by apply Forall_singleton].
  - rewrite len_app. change (len [(p, e)]) with 1.
    pose proof (stack_length _ _ _ _ _ _ _ Hst). pose proof (pow_pos (len es - len path)). nia.
Qed.

(** the next operation *)
Lemma push_ok st n R1 p e R2 cfgs path w L' s' :
  stack L0 h0 (calls st) cfgs path (linearized st) (state st) (heap st) w →
  rem (linearized st) = R1 ++ (p, e) :: R2 → e_kind e = callKind →
  Forall (tried (linearized st) (state st)) R1 →
  bitset_set (e_id e) (linearized st) = Ret L' → stepOf m es (state st) (e_id e) = (true, s') →
  cacheOK (cache st) cfgs → longestOK (longest st) (seqs st) →
  n = w + (len R1 + 1) * base ^ (len es - len path) →
  ∃ h' hdn, lift (Some p) (heap st) = Ret h' ∧ h' !! hd = Some hdn ∧
    ∃ n', n < n' ∧ searchOK (mkSearch h' (n_next hdn) L'
      (<[hash L' := bucket (cache st) (hash L') ++ [mkCacheEntry L' s']]> (cache st))
      (calls st ++ [mkCallsEntry p (state st)]) s' (longest st) (seqs st)) n'.
Proof.
  intros Hst Hr Hk Hall Hset Hstep Hc Hlg ->.
  destruct (stack_rep _ _ _ _ _ _ _ Hst) as (Hl & _ & Hh & _).
  destruct (rem_elem _ _ _ _ _ Hr) as (_ & _ & Hin).
  destruct (set_spec (linearized st) (e_id e)) as (L'' & Hset' & _ & Hmem).
  { unfold inRange. rewrite Hl. by apply Hrange0. }
  rewrite Hset in Hset'. simplify_eq.
  destruct (lift_rem _ L'' (heap st) R1 p e R2 Hh Hr Hk) as (h' & Hlift & Hh' & _);
    [by eapply tried_calls|done|].
  pose proof (stack_push _ _ _ _ _ _ _ _ _ R1 p e R2 L'' s' h' Hst Hr Hk Hall Hset Hstep Hlift) as Hst'.
  destruct Hh' as [Hd' Hrep'].
  assert (∃ hdn, h' !! hd = Some hdn ∧ n_next hdn = first (rem L'').*1 None) as (hdn & Hhd & Hnx)
    by (destruct Hd' as [_ (nd & ? & _ & ? & _)]; by exists nd).
  exists h', hdn. split_and!; [done..|].
  set (w' := w + (len R1 + 1) * base ^ (Z.of_nat (List.length es) - len path)) in *.
  exists (w' + (len (@nil (nat * entry V)) + 1) * base ^ (len es - len (path ++ [e_id e]))). split.
  - pose proof (stack_length _ _ _ _ _ _ _ Hst') as Hb.
    pose proof (pow_pos (len es - len (path ++ [e_id e]))). subst w'. unfold len in *. simpl. lia.
  - exists (cfgs ++ [(L'', s')]), (path ++ [e_id e]), w', [], (rem L''). simpl.
    split_and!; try done. by apply cache_add.
Qed.

Lemma recordLongest_ok (cp : bool) st cfgs path w :
  stack L0 h0 (calls st) cfgs path (linearized st) (state st) (heap st) w →
  longestOK (longest st) (seqs st) →
  ∃ lg sq, (if cp then recordLongest st else Ret (longest st, seqs st)) = Ret (lg, sq)
    ∧ longestOK lg sq.
Proof.
  intros Hst Hlg. destruct cp; [|by exists (longest st), (seqs st)]. unfold recordLongest.
  pose proof (stack_rep _ _ _ _ _ _ _ Hst) as (_ & _ & [_ Hrep] & _).
  pose proof (stack_path _ _ _ _ _ _ _ Hst) as (Hnd & Hops & Hord & Hpre & Hleg & _).
  rewrite (stack_ids _ _ _ _ _ _ _ (heap st) Hst Hrep). simpl.
  destruct (longest_loop_spec (heap st) (seqs st ++ [path]) path (List.length (seqs st))
    (len (calls st)) (calls st) (longest st) path) as (lg & -> & Hlg').
  - by eapply stack_ids.
  - intros a Ha. split; [done|]. apply Hops, list_elem_of_fmap in Ha as (e & -> & He).
    apply (ho_id _ Hok). by apply list_elem_of_filter in He as [_ ?].
  - by apply list_lookup_middle.
  - by split_and!.
  - by apply longestOK_extend.
  - by exists lg, (seqs st ++ [path]).
Qed.

(** what the top of the stack gives back *)
Lemma pop_spec cs cfgs path L s h w R1 p e R2 L' s' h' :
  stack L0 h0 cs cfgs path L s h w →
  rem L = R1 ++ (p, e) :: R2 → e_kind e = callKind → Forall (tried L s) R1 →
  bitset_set (e_id e) L = Ret L' → stepOf m es s (e_id e) = (true, s') →
  lift (Some p) h = Ret h' → dead L' s' →
  bitset_clear (e_id e) L' = Ret L ∧ unlift (Some p) h' = Ret h
  ∧ Forall (tried L s) (R1 ++ [(p, e)])
  ∧ (∃ nd, h' !! p = Some nd ∧ n_id nd = e_id e)
  ∧ ∃ nd, h !! p = Some nd ∧ n_next nd = first R2.*1 None.
Proof.
  intros Hst Hr Hk Hall Hset Hstep Hlift Hdead.
  pose proof (stack_rep _ _ _ _ _ _ _ Hst) as (Hl & _ & Hh & _).
  destruct (rem_elem _ _ _ _ _ Hr) as (Hm & Hpe & Hin).
  assert (inRange L (e_id e)) as Hrange by (unfold inRange; rewrite Hl; by apply Hrange0).
  destruct (set_spec L (e_id e) Hrange) as (L'' & Hset' & _ & Hmem).
  rewrite Hset in Hset'. simplify_eq.
  destruct (lift_rem _ L'' h R1 p e R2 Hh Hr Hk) as (h'' & Hlift' & Hh' & Hun & _);
    [by eapply tried_calls|done|].
  rewrite Hlift in Hlift'. simplify_eq. split_and!.
  - by eapply clear_set.
  - done.
  - apply Forall_app. split; [done|]. apply Forall_singleton. split; [done|].
    intros L1 Hset1 _. simpl in *. rewrite Hstep. rewrite Hset in Hset1. by simplify_eq.
  - destruct Hh' as [_ Hrep]. destruct (Hrep p e Hpe) as (nd & ? & _ & ? & _). by exists nd.
  - destruct Hh as [Hd Hrep]. destruct (Hrep p e Hpe) as (nd & Hp & _). exists nd. split; [done|].
    eapply rem_next; [by split|exact Hr|done].
Qed.

(** back to the last operation, which leads nowhere *)
Lemma backtrack_ok cp st n R1 q f R2 cfgs path w :
  stack L0 h0 (calls st) cfgs path (linearized st) (state st) (heap st) w →
  rem (linearized st) = R1 ++ (q, f) :: R2 → e_kind f = returnKind →
  Forall (tried (linearized st) (state st)) R1 →
  cacheOK (cache st) cfgs → longestOK (longest st) (seqs st) →
  n = w + (len R1 + 1) * base ^ (len es - len path) →
  (backtrack cp st = Ret None ∧ dead L0 (Init m))
  ∨ ∃ st' n', backtrack cp st = Ret (Some st') ∧ searchOK st' n' ∧ n < n'.
Proof.
  intros Hst Hr Hf Hall Hc Hlg ->.
  pose proof (stack_rep _ _ _ _ _ _ _ Hst) as (Hl & _ & Hh & Hcs).
  assert (dead (linearized st) (state st)) as Hdead.
  { eapply exhausted; [done..|]. intros e He. unfold inRange. rewrite Hl. by apply Hrange0. }
  destruct (recordLongest_ok cp st _ _ _ Hst Hlg) as (lg & sq & Elg & Hlg').
  unfold backtrack. rewrite Elg. clear Elg Hlg. simpl.
  inversion Hst as [H1 H2 H3 H4 H5 H6 H7|cs cfgs0 path0 L s h w0 R1' p e R2' L' s' h' Hst0 Hr0 Hk0 Hall0
    Hset0 Hstep0 Hlift0 H1 H2 H3 H4 H5 H6 H7]; [left|right].
  { split; [done|]. by rewrite H5. }
  destruct (pop_spec _ _ _ _ _ _ _ _ _ _ _ _ _ _ Hst0 Hr0 Hk0 Hall0 Hset0 Hstep0 Hlift0 Hdead)
    as (Hclear & Hun & Htried & (nd & Hnd & Hid) & nd0 & Hnd0 & Hnext).
  rewrite len_app. change (len [mkCallsEntry p s]) with 1.
  pose proof (len_nonneg cs). destruct (Z.eqb_spec (len cs + 1) 0); [lia|].
  replace (len cs + 1 - 1) with (len cs) by lia.
  rewrite (proj2 (idx_Ret _ _ (mkCallsEntry p s)))
    by (unfold len; rewrite Nat2Z.id; split; [lia|by apply list_lookup_middle]).
  simpl. rewrite (load_Some _ _ _ Hnd). simpl. rewrite Hid, Hclear. simpl.
  rewrite slice_to_Ret by (rewrite len_app; change (len [mkCallsEntry p s]) with 1; lia). simpl.
  rewrite Hun. simpl. rewrite (load_Some _ _ _ Hnd0). simpl.
  replace (Z.to_nat (len cs)) with (List.length cs) by (unfold len; lia). rewrite take_app_length.
  eexists _, _. split; [done|]. split.
  - exists cfgs0, path0, w0, (R1' ++ [(p, e)]), R2'. simpl. split_and!; try done.
    + by rewrite Hr0, <-app_assoc.
    + eapply cache_pop; [exact Hdead|by rewrite <-H4, <-H5, H2].
  - pose proof (rem_length (linearized st)) as Hrl. rewrite Hr, len_app in Hrl.
    pose proof (stack_length _ _ _ _ _ _ _ Hst) as Hb. rewrite <-H3, !len_app in *.
    change (len [e_id e]) with 1 in *. change (len [(p, e)]) with 1.
    change (Z.of_nat (List.length es)) with (len es).
    replace (len es - len path0) with (Z.succ (len es - (len path0 + 1))) by lia.
    rewrite Z.pow_succ_r by lia. pose proof (pow_pos (len es - (len path0 + 1))).
    assert (len R1 + 1 ≤ base - 1) by (unfold base, len in *; simpl in Hrl; lia). nia.
Qed.

(** ** The loop *)

Lemma tryCall_ok st n R1 p e R2 cfgs path w nd :
  stack L0 h0 (calls st) cfgs path (linearized st) (state st) (heap st) w →
  rem (linearized st) = R1 ++ (p, e) :: R2 → e_kind e = callKind → cur st = Some p →
  Forall (tried (linearized st) (state st)) R1 →
  cacheOK (cache st) cfgs → longestOK (longest st) (seqs st) →
  n = w + (len R1 + 1) * base ^ (len es - len path) → heap st !! p = Some nd →
  ∃ st' n', tryCall m hd p nd st = Ret st' ∧ searchOK st' n' ∧ n < n'.
Proof.
  intros Hst Hr Hk Hcur Hall Hc Hlg Hn Hp.
  pose proof (stack_rep _ _ _ _ _ _ _ Hst) as (Hl & _ & Hh & _).
  destruct (rem_elem _ _ _ _ _ Hr) as (Hm & Hpe & Hin).
  pose proof (ho_id _ Hok e Hin) as Hid0.
  destruct (call_node _ _ _ _ Hh Hpe Hk) as (nd' & r & f & md & Hp' & Hid & Hv & Hmatch & _ & _ & _ & Hmd & Hmv).
  rewrite Hp in Hp'. injection Hp' as <-.
  unfold tryCall. rewrite Hmatch, (load_Some _ _ _ Hmd). simpl. rewrite Hv, Hmv, Hid.
  change (Step m (state st) _ _) with (stepOf m es (state st) (e_id e)).
  destruct (stepOf m es (state st) (e_id e)) as [ok s'] eqn:Hstep.
  destruct ok; [|eapply advance_ok; try done; split; [done|]; intros L1 _; simpl; by rewrite Hstep].
  unfold clone. destruct (set_spec (linearized st) (e_id e)) as (L' & Hset & _ & Hmem).
  { unfold inRange. rewrite Hl. by apply Hrange0. }
  rewrite Hset. simpl. unfold cacheContains. simpl.
  destruct (contains_loop_spec (mkCacheEntry L' s') (bucket (cache st) (hash L'))) as (b & -> & Hb).
  simpl. destruct b; simpl.
  - destruct Hb as (x & Hx & HL & He); [done|]. simpl in *.
    eapply advance_ok; try done. split; [done|]. intros L1 Hset1 _. simpl in *.
    rewrite Hstep. rewrite Hset in Hset1. injection Hset1 as <-. simpl.
    eapply (cached_dead _ _ _ _ _ _ _ _ (e_id e)); try done; [lia|]. rewrite Hmem by lia. by rewrite Z.eqb_refl.
  - destruct (push_ok st n R1 p e R2 cfgs path w L' s') as (h' & hdn & -> & Hhd & n' & Hlt & Hok');
      try done.
    simpl. rewrite (load_Some _ _ _ Hhd). simpl. by eexists _, n'.
Qed.

Lemma step_ok cp st n :
  searchOK st n → rem (linearized st) ≠ [] →
  (searchStep m cp hd st = Ret None ∧ dead L0 (Init m))
  ∨ ∃ st' n', searchStep m cp hd st = Ret (Some st') ∧ searchOK st' n' ∧ n < n'.
Proof.
  intros (cfgs & path & w & R1 & R2 & Hst & Hr & Hcur & Hall & Hc & Hlg & Hn) Hne.
  pose proof (stack_rep _ _ _ _ _ _ _ Hst) as (_ & _ & Hh & _).
  destruct R2 as [|[p e] R2].
  - exfalso. rewrite app_nil_r in Hr. destruct R1 as [|[p e] R1]; [done|].
    destruct (rem_elem _ [] _ _ _ Hr) as (Hm & Hpe & _).
    pose proof (tried_calls _ _ _ Hall) as Hcalls.
    destruct (call_node _ _ _ _ Hh Hpe) as (_ & r & f & _ & _ & _ & _ & _ & Hf & Hfk & Hfi & _).
    { apply (Hcalls p). constructor. }
    assert ((r, f) ∈ rem (linearized st)) as Hrf by (apply elem_rem; by rewrite Hfi).
    rewrite Hr in Hrf. apply Hcalls in Hrf. congruence.
  - destruct (rem_elem _ _ _ _ _ Hr) as (_ & Hpe & _).
    pose proof Hh as [_ Hrep]. destruct (Hrep p e Hpe) as (nd & Hp & _ & _ & Hm).
    unfold searchStep. simpl in Hcur. rewrite first_cons in Hcur.
    rewrite Hcur, (load_Some _ _ _ Hp). simpl. destruct (e_kind e) eqn:Hk.
    + destruct Hm as (r & f & -> & _). right.
      destruct (tryCall_ok st n R1 p e R2 cfgs path w nd) as (st' & n' & -> & ? & ?); try done.
      simpl. by exists st', n'.
    + rewrite Hm. by eapply backtrack_ok.
Qed.

Lemma rem_head L h : heapOK L h →
  ∃ hdn, h !! hd = Some hdn ∧ n_next hdn = first (rem L).*1 None.
Proof. intros [[_ (nd & ? & _ & ? & _)] _]. by exists nd. Qed.

(** the verdict, and what the search leaves *)
Definition verdict (r : bool * Search V St) : Prop :=
  (r.1 = true ↔ linearizable m es)
  ∧ longestOK (longest r.2) (seqs r.2)
  ∧ (r.1 = true → ∃ σ, callIds (heap r.2) (calls r.2) = Ret σ ∧ linearization m es σ).

Lemma stack_complete cs cfgs path L s h w :
  stack L0 h0 cs cfgs path L s h w → rem L = [] → linearization m es path.
Proof.
  intros Hst Hr. pose proof (stack_path _ _ _ _ _ _ _ Hst) as (Hnd & Hops & Hord & _ & Hleg & _).
  pose proof (stack_rep _ _ _ _ _ _ _ Hst) as (_ & Hm & _).
  split_and!; try done. apply NoDup_Permutation; [done|by apply operations_NoDup|].
  intros a. split; [apply Hops|].
  intros (e & -> & [Hk He]%list_elem_of_filter)%list_elem_of_fmap.
  destruct (cells_elem es e He) as [p Hp]. pose proof (ho_id _ Hok e He).
  destruct (decide (e_id e ∈ path)) as [|Hnot]; [done|]. exfalso.
  apply (not_elem_of_nil (p, e)). rewrite <-Hr. apply elem_rem. split; [|done].
  rewrite Hm by lia. by apply bool_decide_eq_false.
Qed.

Lemma dead_not_linearizable : dead L0 (Init m) → ¬ linearizable m es.
Proof.
  intros Hd (σ & Hperm & Hord & Hleg). apply (Hd σ). split_and!; try done.
  by rewrite <-(operations_left es L0 HL0).
Qed.

Lemma loop_ok cp st n fuel i :
  searchOK st n → base ^ (len es + 1) - n ≤ Z.of_nat fuel →
  ∃ r, searchLoop m cp (λ _, false) hd fuel i st = Ret r ∧ verdict r.
Proof.
  revert st n i. induction fuel as [|fuel IH]; intros st n i Hok' Hf;
    pose proof (searchOK_bound _ _ Hok'); [lia|].
  pose proof Hok' as (cfgs & path & w & R1 & R2 & Hst & _ & _ & _ & _ & Hlg & _).
  pose proof (stack_rep _ _ _ _ _ _ _ Hst) as (_ & _ & Hh & _).
  destruct (rem_head _ _ Hh) as (hdn & Hhd & Hnext). simpl. rewrite (load_Some _ _ _ Hhd). simpl.
  destruct (rem (linearized st)) as [|c R] eqn:Hr.
  - rewrite Hnext. exists (true, st). split; [done|].
    pose proof (stack_complete _ _ _ _ _ _ _ Hst Hr) as Hlin.
    split_and!; [split; [by exists path|done]|done|]. intros _. exists path. split; [|done].
    eapply stack_ids; [done|apply Hh].
  - rewrite Hnext. rewrite fmap_cons, first_cons.
    destruct (step_ok cp st n Hok') as [[-> Hdead]|(st' & n' & -> & Hok1 & Hlt)]; [by rewrite Hr|..]; simpl.
    + exists (false, st). split; [done|]. split_and!; [|done|done].
      split; [done|]. intros ?. by apply dead_not_linearizable in Hdead.
    + eapply IH; [done|lia].
Qed.

(** also when the search is stopped *)
Lemma loop_sound cp kill st n fuel i b st' :
  searchOK st n → searchLoop m cp kill hd fuel i st = Ret (b, st') →
  longestOK (longest st') (seqs st')
  ∧ (b = true → ∃ σ, callIds (heap st') (calls st') = Ret σ ∧ linearization m es σ).
Proof.
  revert st n i. induction fuel as [|fuel IH]; intros st n i Hok' H;
    pose proof Hok' as (cfgs & path & w & R1 & R2 & Hst & _ & _ & _ & _ & Hlg & _);
    pose proof (stack_rep _ _ _ _ _ _ _ Hst) as (_ & _ & Hh & _);
    destruct (rem_head _ _ Hh) as (hdn & Hhd & Hnext);
    simpl in H; rewrite (load_Some _ _ _ Hhd) in H; simpl in H; rewrite Hnext in H;
    (destruct (rem (linearized st)) as [|c R] eqn:Hr;
      [injection H as <- <-; split; [done|]; intros _; exists path;
       split; [eapply stack_ids; [done|apply Hh]|by eapply stack_complete]|]);
    rewrite fmap_cons, first_cons in H; [done|].
  destruct (kill i); [by injection H as <- <-|].
  destruct (step_ok cp st n Hok') as [[E _]|(st1 & n1 & E & Hok1 & _)]; [by rewrite Hr|..];
    rewrite E in H; simpl in H; [by injection H as <- <-|by eapply IH].
Qed.
End search.

Section check.
Context {V St : Type}.
Implicit Types (m : Model V St) (es : list (entry V)).

(** what the checker relies on of [Model.Equal] ("equality on states") *)
Definition equal_ok m : Prop :=
  ∃ eqv, Equal m = Some eqv ∧ ∀ s s' i o, eqv s s' = true →
    (Step m s i o).1 = (Step m s' i o).1 ∧ eqv (Step m s i o).2 (Step m s' i o).2 = true.

(** turns that are enough *)
Definition turns es : nat := Z.to_nat ((len es + 2) ^ (len es + 1)).

Lemma rem_all es L : (∀ q, member L q = false) → rem es L = cells es.
Proof. intros HL. unfold rem. apply filter_all, Forall_forall. intros c _. apply HL. Qed.

Lemma searchInit_ok m es :
  history_ok es →
  ∃ h0 st, searchInit m es = Ret (List.length es, Z.quot (len es) 2, st)
    ∧ heapOK es (newBitset (Z.quot (len es) 2)) h0
    ∧ searchOK m es (newBitset (Z.quot (len es) 2)) h0 st (base es ^ len es).
Proof.
  intros Hok. unfold searchInit, makeLinkedEntries.
  destruct (linkEntries_spec es) as (h & ma & -> & Hlen & Hd & Hr & _); [exact (ho_return _ Hok)|].
  simpl. unfold length. rewrite (length_seg h None (cells es).*1 0).
  2: apply Hd. 2: by rewrite cells_fst, length_rev, length_seq, Hlen.
  simpl. replace (0 + len (cells es).*1) with (len es)
    by (unfold len; rewrite cells_fst, length_rev, length_seq; lia).
  set (hn := mkNode None None (-1) None None : node V). set (n := Z.quot (len es) 2).
  assert (0 ≤ n) as Hn by (subst n; apply Z.quot_pos; [apply len_nonneg|lia]).
  destruct (newBitset_spec n Hn) as [_ HL0].
  destruct (insertBefore_spec (h ++ [hn]) (cells es).*1 (List.length h) hn) as (h0 & E & Hd0 & Hf);
    [by apply dll_extend|by apply list_lookup_middle|done|done| |].
  { rewrite cells_fst, Hlen. intros Hin. apply list_elem_of_In in Hin. rewrite <-in_rev in Hin.
    apply list_elem_of_In, elem_of_seq in Hin. lia. }
  rewrite E. simpl. rewrite Hlen in *. exists h0. eexists. split; [done|].
  assert (heapOK es (newBitset n) h0) as Hh0.
  { split; [by rewrite (rem_all _ _ HL0)|]. eapply represents_frozen; [exact Hf|].
    intros p e Hin. eapply cellOK_mono; [|done|by apply Hr].
    intros nd Hp. exists nd. split; [by apply lookup_app_l_Some|done]. }
  split; [done|]. exists [], [], 0, [], (cells es). simpl. split_and!; try done.
  - constructor.
  - apply (rem_all _ _ HL0).
  - by intros k ce ?%elem_of_nil.
  - split; [unfold len at 1; rewrite length_replicate; fold n; lia|].
    intros i p Hi. by apply lookup_replicate in Hi as [? _].
  - change (len []) with 0. rewrite Z.sub_0_r. lia.
Qed.

Lemma checkSingle_ok m es cp fuel :
  history_ok es → equal_ok m → (turns es ≤ fuel)%nat →
  ∃ b lg sq, checkSingle m es cp (λ _, false) fuel = Ret (b, (lg, sq))
    ∧ (b = true ↔ linearizable m es)
    ∧ ∀ i p, lg !! i = Some (Some p) → ∃ σ, sq !! p = Some σ
        ∧ (b = true → linearization m es σ)
        ∧ (b = false → partial m es σ ∧ Z.of_nat i ∈ σ).
Proof.
  intros Hok (eqv & Heq & Hcong) Hfuel. unfold checkSingle.
  destruct (searchInit_ok m es Hok) as (h0 & st & -> & Hh0 & Hst). simpl.
  assert (0 ≤ Z.quot (len es) 2) as Hn by (apply Z.quot_pos; [apply len_nonneg|lia]).
  destruct (newBitset_spec _ Hn) as [Hrange HL0].
  destruct (loop_ok m es eqv Heq Hcong Hok (newBitset (Z.quot (len es) 2)) h0 HL0
    ltac:(intros e He; apply Hrange, (ho_id _ Hok), He) Hh0 cp st (base es ^ len es) fuel 0 Hst)
    as ([b st'] & -> & Hb & [_ Hlg] & Hfin).
  { unfold turns, base in *. pose proof (len_nonneg es).
    assert (0 ≤ (len es + 2) ^ len es) by (apply Z.pow_nonneg; lia).
    assert (0 ≤ (len es + 2) ^ (len es + 1)) by (apply Z.pow_nonneg; lia). lia. }
  simpl in *. destruct b.
  - destruct (Hfin eq_refl) as (σ & -> & Hσ). simpl. eexists true, _, _. split_and!; [done|done|].
    intros i p Hi. apply lookup_replicate in Hi as [[= ->] _]. exists σ.
    split_and!; [by apply list_lookup_middle|done|done].
  - eexists false, _, _. split_and!; [done|done|]. intros i p Hi.
    destruct (Hlg i p Hi) as (σ & ? & ? & ?). by exists σ.
Qed.

(** what the search reports is legal, also when it is stopped *)
Lemma checkSingle_partials m es cp kill fuel b lg sq :
  history_ok es → equal_ok m → checkSingle m es cp kill fuel = Ret (b, (lg, sq)) →
  ∀ i p, lg !! i = Some (Some p) → ∃ σ, sq !! p = Some σ
    ∧ legal m es (Init m) σ ∧ ∀ a, a ∈ σ → a ∈ operations es.
Proof.
  intros Hok (eqv & Heq & Hcong) H. unfold checkSingle in H.
  destruct (searchInit_ok m es Hok) as (h0 & st & E & Hh0 & Hst). rewrite E in H. simpl in H.
  assert (0 ≤ Z.quot (len es) 2) as Hn by (apply Z.quot_pos; [apply len_nonneg|lia]).
  destruct (newBitset_spec _ Hn) as [Hrange HL0]. go_step H. destruct a as [ok st'].
  destruct (loop_sound m es eqv Heq Hcong Hok (newBitset (Z.quot (len es) 2)) h0 HL0
    ltac:(intros e He; apply Hrange, (ho_id _ Hok), He) Hh0 cp kill st _ fuel 0 ok st' Hst E0)
    as [[_ Hlg] Hfin].
  destruct ok.
  - destruct (Hfin eq_refl) as (σ & Eσ & Hperm & _ & Hleg). rewrite Eσ in H. simpl in H.
    simplify_eq. intros i p Hi. apply lookup_replicate in Hi as [[= ->] _]. exists σ.
    split_and!; [by apply list_lookup_middle|done|]. intros a. by rewrite Hperm.
  - simplify_eq. intros i p Hi. destruct (Hlg i p Hi) as (σ & ? & (_ & ? & _ & _ & ?) & _).
    by exists σ.
Qed.

(** C30: The checker decides linearizability.  On a history in which every operation is
    called once and returns later, [checkSingle] ends within [turns] turns of its loop
    without a panic, and answers true exactly when the operations have an order that
    respects real time and that the model can execute with the recorded outputs. *)
Theorem checkSingle_decides m es cp fuel :
  history_ok es → equal_ok m → (turns es ≤ fuel)%nat →
  ∃ b r, checkSingle m es cp (λ _, false) fuel = Ret (b, r) ∧ (b = true ↔ linearizable m es).
Proof.
  intros Hok Heq Hf. destruct (checkSingle_ok m es cp fuel Hok Heq Hf) as (b & lg & sq & E & Hb & _).
  by exists b, (lg, sq).
Qed.

(** C31: The linearizations that [checkSingle] reports are what it says they are: for a
    linearizable history a complete one, otherwise for an operation a legal order of
    some operations that respects real time, includes the operation, and includes every
    operation that precedes one of them. *)
Theorem checkSingle_reports m es cp fuel b lg sq i p :
  history_ok es → equal_ok m → (turns es ≤ fuel)%nat →
  checkSingle m es cp (λ _, false) fuel = Ret (b, (lg, sq)) → lg !! i = Some (Some p) →
  ∃ σ, sq !! p = Some σ ∧ (b = true → linearization m es σ)
    ∧ (b = false → partial m es σ ∧ Z.of_nat i ∈ σ).
Proof.
  intros Hok Heq Hf E Hi. destruct (checkSingle_ok m es cp fuel Hok Heq Hf) as (b' & lg' & sq' & E' & _ & Hr).
  rewrite E in E'. injection E' as <- <- <-. by apply Hr.
Qed.
End check.
