(* ===== verification/PorcOps.v ===== *)
(** * Package porcupine: histories of timed operations

    The specification in terms of the operations and their times, and the history of
    calls and returns that [makeEntries] makes of them. *)

From stdpp Require Import sorting.
From S2P Require Import Prelude PorcBitset PorcChecker PorcList PorcSpec PorcSearch.

Lemma StronglySorted_lookup_iff {A} (R : A → A → Prop) l :
  StronglySorted R l ↔
  ∀ i j x y, (i < j)%nat → l !! i = Some x → l !! j = Some y → R x y.
Proof.
  induction l as [|a l IH].
  - split; [by intros _ i j x y|constructor].
  - rewrite StronglySorted_cons, Forall_forall, IH. split.
    + intros [Ha Hl] [|i] [|j] x y Hij Hx Hy; simplify_eq/=; [lia| |lia|].
      * apply Ha. by eapply list_elem_of_lookup_2.
      * eapply (Hl i j); done || lia.
    + intros H. split.
      * intros x [j Hj]%list_elem_of_lookup_1. by apply (H 0%nat (S j)); [lia|..].
      * intros i j x y Hij Hx Hy. by apply (H (S i) (S j)); [lia|..].
Qed.

Section ops.
Context {V St : Type} `{!SortByTime V}.
Implicit Types (m : Model V St) (ops l : list (Operation V)) (o : Operation V) (s : St).

(** ** Linearizability of operations *)

Fixpoint legalOps m s l : Prop :=
  match l with
  | [] => True
  | o :: l =>
      (Step m s (op_Input o) (op_Output o)).1 = true
      ∧ legalOps m (Step m s (op_Input o) (op_Output o)).2 l
  end.

(** [a] may come before [b]: [b] did not return before [a] was called *)
Definition mayPrecede (a b : Operation V) : Prop := op_Call a ≤ op_Return b.

Definition linearizableOps m ops : Prop :=
  ∃ l, l ≡ₚ ops ∧ StronglySorted mayPrecede l ∧ legalOps m (Init m) l.

(** an operation takes time *)
Definition timed ops : Prop := ∀ o, o ∈ ops → op_Call o < op_Return o.

(** no operation returns at the moment at which another is called *)
Definition noTies ops : Prop := ∀ o o', o ∈ ops → o' ∈ ops → op_Return o ≠ op_Call o'.

(** ** The entries *)

Definition callOf (i : nat) o : entry V :=
  mkEntry callKind (op_Input o) (Z.of_nat i) (op_Call o) (op_ClientId o).
Definition returnOf (i : nat) o : entry V :=
  mkEntry returnKind (op_Output o) (Z.of_nat i) (op_Return o) (op_ClientId o).

Lemma operationEntries_eq k ops :
  operationEntries (Z.of_nat k) ops
  = mjoin (imap (λ i o, [callOf (k + i) o; returnOf (k + i) o]) ops).
Proof.
  revert k. induction ops as [|o ops IH]; intros k; simpl; [done|].
  unfold callOf at 1, returnOf at 1. rewrite Nat.add_0_r. do 2 f_equal.
  replace (Z.of_nat k + 1) with (Z.of_nat (S k)) by lia. rewrite IH. f_equal.
  apply imap_ext. intros i x _. simpl. by replace (k + S i)%nat with (S k + i)%nat by lia.
Qed.

Lemma elem_entries ops e :
  e ∈ makeEntries ops ↔ ∃ i o, ops !! i = Some o ∧ (e = callOf i o ∨ e = returnOf i o).
Proof.
  unfold makeEntries. rewrite sortByTime_perm, (operationEntries_eq 0). simpl.
  rewrite list_elem_of_join. split.
  - intros (x & He & (i & o & -> & Hi)%elem_of_lookup_imap_1). exists i, o. split; [done|].
    by rewrite elem_of_cons, list_elem_of_singleton in He.
  - intros (i & o & Hi & He). eexists. split; [|by eapply (elem_of_lookup_imap_2 _ _ o i)].
    by rewrite elem_of_cons, list_elem_of_singleton.
Qed.

Lemma entries_length ops : len (makeEntries ops) = 2 * len ops.
Proof.
  unfold makeEntries, len. rewrite sortByTime_perm. generalize 0 at 1.
  induction ops as [|o ops IH]; intros k; simpl; [done|]. specialize (IH (k + 1)). lia.
Qed.

(** a kind and an id occur once *)
Lemma entries_NoDup ops : NoDup ((λ e, (e_kind e, e_id e)) <$> makeEntries ops).
Proof.
  unfold makeEntries. rewrite sortByTime_perm. change 0 with (Z.of_nat 0). generalize 0%nat.
  induction ops as [|o ops IH]; intros k; [constructor|]. simpl.
  replace (Z.of_nat k + 1) with (Z.of_nat (S k)) by lia.
  assert (∀ kd, (kd, Z.of_nat k) ∉ (λ e, (e_kind e, e_id e)) <$> operationEntries (Z.of_nat (S k)) ops)
    as Hnew.
  { intros kd (e & [= _ Hid] & He)%list_elem_of_fmap. rewrite operationEntries_eq in He.
    apply list_elem_of_join in He as (x & Hx & (i & o' & -> & _)%elem_of_lookup_imap_1).
    rewrite elem_of_cons, list_elem_of_singleton in Hx. destruct Hx as [-> | ->]; simpl in Hid; lia. }
  apply NoDup_cons. split; [|apply NoDup_cons; split; [done|apply IH]].
  rewrite elem_of_cons. intros [[=]|?]. by eapply Hnew.
Qed.

Lemma entries_sorted ops i j e f :
  (i < j)%nat → makeEntries ops !! i = Some e → makeEntries ops !! j = Some f →
  e_time e ≤ e_time f.
Proof.
  intros Hij He Hf. pose proof (sortByTime_sorted (operationEntries 0 ops)) as Hs.
  by eapply StronglySorted_lookup_iff in Hs.
Qed.

(** an entry with an earlier time comes first *)
Lemma entries_order ops i j e f :
  makeEntries ops !! i = Some e → makeEntries ops !! j = Some f → e_time e < e_time f →
  (i < j)%nat.
Proof.
  intros He Hf Ht. destruct (Nat.lt_trichotomy i j) as [?|[->|Hji]]; [done| |].
  - rewrite He in Hf. simplify_eq. lia.
  - pose proof (entries_sorted _ _ _ _ _ Hji Hf He). lia.
Qed.

Lemma entries_unique ops i j e f :
  makeEntries ops !! i = Some e → makeEntries ops !! j = Some f →
  e_kind e = e_kind f → e_id e = e_id f → i = j.
Proof.
  intros He Hf Hk Hi. eapply (NoDup_lookup _ i j (e_kind e, e_id e)); [apply (entries_NoDup ops)|..].
  - by rewrite list_lookup_fmap, He.
  - by rewrite list_lookup_fmap, Hf, Hk, Hi.
Qed.

Lemma makeEntries_ok ops : timed ops → history_ok (makeEntries ops).
Proof.
  intros Ht. split.
  - intros e (i & o & Hi & He)%elem_entries. rewrite entries_length.
    rewrite Z.mul_comm, Z.quot_mul by lia. apply lookup_lt_Some in Hi. unfold len.
    destruct He as [-> | ->]; simpl; lia.
  - apply entries_unique.
  - intros i e He Hk. assert (e ∈ makeEntries ops) as Hin by by eapply list_elem_of_lookup_2.
    apply elem_entries in Hin as (k & o & Ho & [-> | ->]); [|done].
    assert (returnOf k o ∈ makeEntries ops) as [j Hj]%list_elem_of_lookup_1 by (apply elem_entries; eauto).
    exists j, (returnOf k o). split_and!; try done. eapply entries_order; [done..|].
    apply Ht. by eapply list_elem_of_lookup_2.
  - intros j f Hf Hk. assert (f ∈ makeEntries ops) as Hin by by eapply list_elem_of_lookup_2.
    apply elem_entries in Hin as (k & o & Ho & [-> | ->]); [done|].
    assert (callOf k o ∈ makeEntries ops) as [i Hi]%list_elem_of_lookup_1 by (apply elem_entries; eauto).
    exists i, (callOf k o). split_and!; try done. eapply entries_order; [done..|].
    apply Ht. by eapply list_elem_of_lookup_2.
Qed.

(** ** The two views agree *)

(** the operations with the indices [τ] are [l] *)
Definition indices ops (τ : list nat) l : Prop := (ops !!.) <$> τ = Some <$> l.

Lemma indices_lookup ops τ l k :
  indices ops τ l → l !! k = τ !! k ≫= (ops !!.).
Proof.
  intros H. apply (f_equal (lookup k)) in H. rewrite !list_lookup_fmap in H.
  destruct (τ !! k), (l !! k); simpl in *; congruence.
Qed.

Lemma ops_seq ops : (ops !!.) <$> seq 0 (List.length ops) = Some <$> ops.
Proof.
  apply list_eq. intros i. rewrite !list_lookup_fmap.
  destruct (decide (i < List.length ops)%nat) as [Hi|Hi].
  - rewrite lookup_seq_lt by done. simpl. by destruct (lookup_lt_is_Some_2 ops i Hi) as [o ->].
  - rewrite lookup_seq_ge, (lookup_ge_None_2 ops i) by lia. done.
Qed.

Lemma operations_seq ops :
  timed ops → operations (makeEntries ops) ≡ₚ Z.of_nat <$> seq 0 (List.length ops).
Proof.
  intros Ht. apply NoDup_Permutation.
  - apply operations_NoDup, makeEntries_ok, Ht.
  - apply NoDup_fmap_2; [apply _|apply NoDup_seq].
  - intros a. unfold operations. rewrite !list_elem_of_fmap. split.
    + intros (e & -> & [Hk (i & o & Hi & [-> | ->])%elem_entries]%list_elem_of_filter); [|done].
      exists i. split; [done|]. apply elem_of_seq. apply lookup_lt_Some in Hi. lia.
    + intros (i & -> & Hi%elem_of_seq). destruct (lookup_lt_is_Some_2 ops i) as [o Ho]; [lia|].
      exists (callOf i o). split; [done|]. apply list_elem_of_filter. split; [done|].
      apply elem_entries. eauto.
Qed.

Lemma stepOf_ops m ops s i o :
  timed ops → ops !! i = Some o →
  stepOf m (makeEntries ops) s (Z.of_nat i) = Step m s (op_Input o) (op_Output o).
Proof.
  intros Ht Hi. unfold stepOf. pose proof (makeEntries_ok ops Ht) as Hok.
  assert (callOf i o ∈ makeEntries ops) as [j Hj]%list_elem_of_lookup_1 by (apply elem_entries; eauto).
  assert (returnOf i o ∈ makeEntries ops) as [k Hk]%list_elem_of_lookup_1 by (apply elem_entries; eauto).
  pose proof (valueOf_eq _ Hok j (callOf i o) Hj) as Ec.
  pose proof (valueOf_eq _ Hok k (returnOf i o) Hk) as Er. simpl in Ec, Er. by rewrite Ec, Er.
Qed.

Lemma legal_ops m ops s τ l :
  timed ops → indices ops τ l →
  legal m (makeEntries ops) s (Z.of_nat <$> τ) ↔ legalOps m s l.
Proof.
  intros Ht. revert s l. induction τ as [|i τ IH]; intros s [|o l] Hidx; try done.
  injection Hidx as Hi Hidx. simpl. rewrite (stepOf_ops m ops s i o Ht Hi). by rewrite (IH _ l).
Qed.

Lemma precedes_times ops i j a b :
  ops !! i = Some a → ops !! j = Some b →
  (precedes (makeEntries ops) (Z.of_nat i) (Z.of_nat j) → op_Return a ≤ op_Call b)
  ∧ (op_Return a < op_Call b → precedes (makeEntries ops) (Z.of_nat i) (Z.of_nat j)).
Proof.
  intros Ha Hb. split.
  - intros (p & q & e & f & Hpq & He & Hek & Hei & Hf & Hfk & Hfi).
    pose proof (entries_sorted _ _ _ _ _ Hpq He Hf) as Hle.
    assert (e ∈ makeEntries ops) as (i' & a' & Hi & [-> | ->])%elem_entries
      by by eapply list_elem_of_lookup_2; [].
    all: try done.
    assert (f ∈ makeEntries ops) as (j' & b' & Hj & [-> | ->])%elem_entries
      by by eapply list_elem_of_lookup_2; [].
    all: try done. simpl in *. assert (i' = i) as -> by lia. assert (j' = j) as -> by lia.
    by simplify_eq.
  - intros Hlt.
    assert (returnOf i a ∈ makeEntries ops) as [p Hp]%list_elem_of_lookup_1 by (apply elem_entries; eauto).
    assert (callOf j b ∈ makeEntries ops) as [q Hq]%list_elem_of_lookup_1 by (apply elem_entries; eauto).
    exists p, q, (returnOf i a), (callOf j b). split_and!; try done. by eapply entries_order.
Qed.

Lemma ordered_ops ops τ l :
  indices ops τ l →
  (ordered (makeEntries ops) (Z.of_nat <$> τ) → StronglySorted mayPrecede l)
  ∧ (noTies ops → StronglySorted mayPrecede l → ordered (makeEntries ops) (Z.of_nat <$> τ)).
Proof.
  intros Hidx. rewrite StronglySorted_lookup_iff. unfold ordered. split.
  - intros Ho i j a b Hij Ha Hb. unfold mayPrecede.
    rewrite (indices_lookup _ _ _ _ Hidx) in Ha. rewrite (indices_lookup _ _ _ _ Hidx) in Hb.
    destruct (τ !! i) as [p|] eqn:Hp, (τ !! j) as [q|] eqn:Hq; try done. simpl in *.
    destruct (Z_lt_le_dec (op_Return b) (op_Call a)) as [Hlt|]; [|done]. exfalso.
    eapply (Ho i j (Z.of_nat p) (Z.of_nat q)); [done|by rewrite list_lookup_fmap, Hp
      |by rewrite list_lookup_fmap, Hq|]. by eapply precedes_times.
  - intros Htie Hs i j x y Hij Hx Hy Hprec.
    apply list_lookup_fmap_Some in Hx as (p & -> & Hp). apply list_lookup_fmap_Some in Hy as (q & -> & Hq).
    pose proof (indices_lookup _ _ _ i Hidx) as Hi. pose proof (indices_lookup _ _ _ j Hidx) as Hj.
    apply lookup_lt_Some in Hp as Hpl. apply lookup_lt_Some in Hq as Hql.
    assert (List.length τ = List.length l) as Hlen
      by (apply (f_equal List.length) in Hidx; by rewrite !length_fmap in Hidx).
    destruct (lookup_lt_is_Some_2 l i) as [a Ha]; [lia|].
    destruct (lookup_lt_is_Some_2 l j) as [b Hb]; [lia|].
    rewrite Hp, Ha in Hi. rewrite Hq, Hb in Hj. simpl in *.
    pose proof (proj1 (precedes_times ops q p b a (eq_sym Hj) (eq_sym Hi)) Hprec) as Hle.
    specialize (Hs i j a b Hij Ha Hb). unfold mayPrecede in Hs.
    assert (op_Return b ≠ op_Call a); [|lia]. apply Htie; by eapply list_elem_of_lookup_2.
Qed.

Lemma linearizable_ops m ops :
  timed ops →
  (linearizable m (makeEntries ops) → linearizableOps m ops)
  ∧ (noTies ops → linearizableOps m ops → linearizable m (makeEntries ops)).
Proof.
  intros Ht. split.
  - intros (σ & Hperm & Hord & Hleg). rewrite (operations_seq ops Ht) in Hperm.
    apply Permutation_map_inv in Hperm as (τ & -> & Hτ).
    assert ((ops !!.) <$> τ ≡ₚ Some <$> ops) as (l & Hidx & Hl)%Permutation_map_inv
      by by rewrite <-ops_seq, Hτ.
    exists l. split_and!; [done|by eapply ordered_ops|by eapply legal_ops].
  - intros Htie (l & Hl & Hs & Hleg).
    assert (Some <$> l ≡ₚ (ops !!.) <$> seq 0 (List.length ops)) as (τ & Hidx & Hτ)%Permutation_map_inv
      by by rewrite ops_seq, Hl.
    symmetry in Hidx. exists (Z.of_nat <$> τ). split_and!.
    + by rewrite (operations_seq ops Ht), Hτ.
    + by eapply ordered_ops.
    + by eapply legal_ops.
Qed.
End ops.
