(* ===== verification/PorcParallel.v ===== *)
(** * Package porcupine: the partitions of a history

    [checkParallel] puts together the results of the partitions, whatever the order in
    which they arrive; [CheckOperations] therefore decides whether every partition is
    linearizable. *)

From stdpp Require Import sorting.
From S2P Require Import Prelude PorcBitset PorcChecker PorcList PorcSpec PorcSearch PorcOps.

(** what the loop has when every result arrives *)
Lemma selectLoop_all ci t result b js ok count :
  js ≠ [] → (∀ j, j ∈ js → result j = Ret (b j)) →
  ∃ c, selectLoop ci (count + len js) t result (GotResult <$> js) ok count
       = Ret (ok && forallb b js, false, c).
Proof.
  revert ok count. induction js as [|j js IH]; intros ok count Hne Hres; [done|]. simpl.
  rewrite (Hres j) by constructor. simpl.
  destruct (negb (ok && b j) && negb ci) eqn:E.
  { apply andb_true_iff in E as [E _]. apply negb_true_iff in E.
    eexists. rewrite andb_assoc, E. done. }
  destruct js as [|j' js].
  - exists (count + 1). unfold len. simpl. rewrite (proj2 (Z.leb_le _ _)) by lia.
    by rewrite andb_true_r.
  - rewrite (proj2 (Z.leb_gt _ _)) by (unfold len; simpl; lia).
    replace (count + len (j :: j' :: js)) with (count + 1 + len (j' :: js)) by (unfold len; simpl; lia).
    destruct (IH (ok && b j) (count + 1)) as [c E']; [done|intros i Hi; apply Hres; by right|].
    exists c. etrans; [exact E'|]. by rewrite andb_assoc.
Qed.

(** what it has when the timeout may come first *)
Lemma selectLoop_sound ci n t result b evs ok count ok' timedOut c :
  (∀ j, GotResult j ∈ evs → result j = Ret (b j)) →
  selectLoop ci n t result evs ok count = Ret (ok', timedOut, c) →
  ∃ js, (∀ j, j ∈ js → GotResult j ∈ evs) ∧ sublist (GotResult <$> js) evs
    ∧ ok' = ok && forallb b js
    ∧ (ok' = true → timedOut = false → n ≤ count + len js).
Proof.
  revert ok count. induction evs as [|[j|] evs IH]; intros ok count Hres E; [done|..]; simpl in E.
  - rewrite (Hres j) in E by constructor. simpl in E.
    assert (∀ js, (∀ i, i ∈ js → GotResult i ∈ evs) → ∀ i, i ∈ j :: js → GotResult i ∈ GotResult j :: evs)
      as Hin by (intros js H i [->|Hi]%elem_of_cons; [constructor|right; auto]).
    go_step E; [|go_step E].
    + injection E as <- <- <-. exists [j]. split_and!; [apply Hin; by intros i ?%elem_of_nil| |
        simpl; by rewrite andb_true_r|].
      { constructor. apply sublist_nil_l. }
      apply andb_true_iff in E0 as [E0 _]. by rewrite negb_true_iff in E0; rewrite E0.
    + injection E as <- <- <-. exists [j]. split_and!; [apply Hin; by intros i ?%elem_of_nil| |
        simpl; by rewrite andb_true_r|].
      { constructor. apply sublist_nil_l. }
      intros _ _. unfold len. simpl. lia.
    + destruct (IH _ _ (λ i Hi, Hres i (list_elem_of_further _ _ _ Hi)) E) as (js & Hjs & Hsub & -> & Hc).
      exists (j :: js). split_and!; [by apply Hin|by constructor|simpl; by rewrite andb_assoc|].
      intros H1 H2. specialize (Hc H1 H2). unfold len in *. simpl. lia.
  - destruct (0 <? t); [|done]. injection E as <- <- <-. exists []. split_and!; try done.
    + by intros j ?%elem_of_nil.
    + apply sublist_nil_l.
    + by rewrite andb_true_r.
Qed.

Lemma selectLoop_timeout ci n t result evs ok count ok' c :
  selectLoop ci n t result evs ok count = Ret (ok', true, c) → 0 < t ∧ GotTimeout ∈ evs.
Proof.
  revert ok count. induction evs as [|[j|] evs IH]; intros ok count E; [done|..]; simpl in E.
  - go_steps E; [done..|]. destruct (IH _ _ E). split; [done|by right].
  - destruct (Z.ltb_spec 0 t); [|done]. split; [done|by left].
Qed.

Lemma searchLoop_ext {V St} (m : Model V St) cp kill kill' h fuel i st :
  (∀ k, kill k = kill' k) →
  searchLoop m cp kill h fuel i st = searchLoop m cp kill' h fuel i st.
Proof.
  intros Hk. revert i st. induction fuel as [|fuel IH]; intros i st; simpl; [done|].
  destruct (load _ _); simpl; [|done..]. destruct (n_next _); [|done]. rewrite Hk.
  destruct (kill' i); [done|]. destruct (searchStep _ _ _ _) as [[st'|]| |]; simpl; try done.
Qed.

Lemma checkSingle_ext {V St} (m : Model V St) es cp kill kill' fuel :
  (∀ k, kill k = kill' k) → checkSingle m es cp kill fuel = checkSingle m es cp kill' fuel.
Proof.
  intros Hk. unfold checkSingle. destruct (searchInit _ _) as [[[h n] st]| |]; simpl; try done.
  by rewrite (searchLoop_ext m cp kill kill').
Qed.

Section parallel.
Context {V St : Type} `{!EqDecision St} `{!SortByTime V}.
Implicit Types (m : Model V St) (ops part : list (Operation V)).

(** with no [Equal] of its own a model gets [ShallowEqual] *)
Lemma shallow_equal_ok m : Equal m = None → equal_ok (fillDefault m).
Proof.
  intros E. exists ShallowEqual. simpl. rewrite E. split; [done|].
  intros s s' i o ->%bool_decide_eq_true. split; [done|]. by apply bool_decide_eq_true.
Qed.

Lemma legalOps_fill m s l : legalOps (fillDefault m) s l ↔ legalOps m s l.
Proof. revert s. induction l as [|o l IH]; intros s; [done|]. simpl. by rewrite IH. Qed.

Lemma linearizableOps_fill m ops : linearizableOps (fillDefault m) ops ↔ linearizableOps m ops.
Proof. unfold linearizableOps. by setoid_rewrite legalOps_fill. Qed.

Definition partitionsOf m ops : list (list (Operation V)) :=
  default NoPartition (Partition m) ops.

Lemma checkOperations_eq m ops verbose timeout fuel kills evs :
  checkOperations m ops verbose timeout fuel kills evs
  = checkParallel (fillDefault m) (makeEntries <$> partitionsOf m ops) verbose timeout fuel kills evs.
Proof. done. Qed.

(** the partitions are histories that [checkSingle] can decide *)
Definition checkable m (fuel : nat) (parts : list (list (Operation V))) : Prop :=
  equal_ok (fillDefault m)
  ∧ ∀ part, part ∈ parts → timed part ∧ (turns (makeEntries part) ≤ fuel)%nat.

(** what the goroutine of partition [i] computes *)
Lemma partition_verdict m fuel parts ci kill (i : nat) part :
  checkable m fuel parts → parts !! i = Some part → (∀ k, kill k = false) →
  ∃ b, fst <$> (sub ← idx (makeEntries <$> parts) (Z.of_nat i);
                checkSingle (fillDefault m) sub ci kill fuel) = Ret b
    ∧ (b = true → linearizableOps m part)
    ∧ (noTies part → linearizableOps m part → b = true).
Proof.
  intros [Heq Hparts] Hi Hk. destruct (Hparts part) as [Ht Hf]; [by eapply list_elem_of_lookup_2|].
  rewrite (proj2 (idx_Ret _ _ (makeEntries part)))
    by (split; [lia|]; by rewrite Nat2Z.id, list_lookup_fmap, Hi).
  simpl. rewrite (checkSingle_ext _ _ _ kill (λ _, false)) by done.
  destruct (checkSingle_ok (fillDefault m) (makeEntries part) ci fuel (makeEntries_ok part Ht) Heq Hf)
    as (b & lg & sq & -> & Hb & _).
  destruct (linearizable_ops (fillDefault m) part Ht) as [H1 H2].
  rewrite linearizableOps_fill in H1, H2.
  exists b. split; [done|]. split; [intros ?; apply H1; by apply Hb|].
  intros Hn Hl. apply Hb. by apply H2.
Qed.

(** all of them *)
Lemma verdicts m fuel parts ci (kills : nat → nat → bool) :
  checkable m fuel parts →
  ∃ b : nat → bool, (∀ i, (i < List.length parts)%nat → (∀ k, kills i k = false) →
      fst <$> (sub ← idx (makeEntries <$> parts) (Z.of_nat i);
               checkSingle (fillDefault m) sub ci (kills i) fuel) = Ret (b i))
    ∧ ∀ i part, parts !! i = Some part →
        (b i = true → linearizableOps m part)
        ∧ (noTies part → linearizableOps m part → b i = true).
Proof.
  intros Hc.
  exists (λ i, if fst <$> (sub ← idx (makeEntries <$> parts) (Z.of_nat i);
                checkSingle (fillDefault m) sub ci (λ _, false) fuel) is Ret b then b else false).
  split.
  - intros i Hi Hk. destruct (lookup_lt_is_Some_2 parts i Hi) as [part Hpart].
    destruct (partition_verdict m fuel parts ci (λ _, false) i part Hc Hpart) as (b & E & _); [done|].
    rewrite E, <-E. destruct (idx _ _); simpl; [|done..].
    by rewrite (checkSingle_ext _ _ _ (kills i) (λ _, false)).
  - intros i part Hpart.
    destruct (partition_verdict m fuel parts ci (λ _, false) i part Hc Hpart) as (b & -> & ?); done.
Qed.

Lemma forallb_seq (b : nat → bool) js n :
  js ≡ₚ seq 0 n → forallb b js = true ↔ ∀ i, (i < n)%nat → b i = true.
Proof.
  intros Hjs. rewrite forallb_forall. split.
  - intros H i Hi. apply H, list_elem_of_In. rewrite Hjs. apply elem_of_seq. lia.
  - intros H i Hi%list_elem_of_In. rewrite Hjs in Hi. apply elem_of_seq in Hi. apply H. lia.
Qed.

Lemma checkOperations_ok m ops fuel kills js :
  checkable m fuel (partitionsOf m ops) → partitionsOf m ops ≠ [] →
  js ≡ₚ seq 0 (List.length (partitionsOf m ops)) → (∀ i k, kills i k = false) →
  ∃ b, CheckOperations m ops fuel kills (GotResult <$> js) = Ret b
    ∧ (b = true → Forall (linearizableOps m) (partitionsOf m ops))
    ∧ (Forall noTies (partitionsOf m ops) → Forall (linearizableOps m) (partitionsOf m ops) →
       b = true).
Proof.
  intros Hc Hne Hjs Hk. destruct (verdicts m fuel _ false kills Hc) as (b & Hrun & Hb).
  set (parts := partitionsOf m ops) in *.
  assert (len (makeEntries <$> parts) = 0 + len js) as Hlen
    by (unfold len; rewrite length_fmap, Hjs, length_seq; lia).
  destruct (selectLoop_all false 0 (λ i, fst <$> (sub ← idx (makeEntries <$> parts) (Z.of_nat i);
               checkSingle (fillDefault m) sub false (kills i) fuel)) b js true 0) as [c E].
  { intros ->. apply Permutation_length in Hjs. rewrite length_seq in Hjs. by destruct parts. }
  { intros j Hj. apply Hrun; [|done]. rewrite Hjs in Hj. apply elem_of_seq in Hj. lia. }
  rewrite <-Hlen in E. unfold CheckOperations. rewrite checkOperations_eq. fold parts.
  unfold checkParallel. cbv zeta. rewrite E. simpl. eexists. split; [done|].
  pose proof (forallb_seq b js _ Hjs) as Hall. split.
  - intros Hres. apply Forall_lookup_2. intros i part Hi. apply (Hb i part Hi), Hall.
    + destruct (forallb b js); [done|]. by rewrite bool_decide_eq_true in Hres.
    + by eapply lookup_lt_Some.
  - intros Hn Hl. rewrite Forall_lookup in Hn, Hl. rewrite (proj2 Hall); [done|]. intros i Hi.
    destruct (lookup_lt_is_Some_2 parts i Hi) as [part Hpart].
    by apply (Hb i part Hpart); eauto.
Qed.

(** C32: [CheckOperations] decides whether every partition of a history is
    linearizable: when the goroutines have all delivered their results, in whatever
    order, it has returned; true only if all partitions are linearizable, and true if
    they are and no operation of a partition returns at the very moment at which
    another is called. *)
Theorem CheckOperations_decides m ops fuel kills js :
  checkable m fuel (partitionsOf m ops) → partitionsOf m ops ≠ [] →
  js ≡ₚ seq 0 (List.length (partitionsOf m ops)) → (∀ i k, kills i k = false) →
  ∃ b, CheckOperations m ops fuel kills (GotResult <$> js) = Ret b
    ∧ (b = true → Forall (linearizableOps m) (partitionsOf m ops))
    ∧ (Forall noTies (partitionsOf m ops) → Forall (linearizableOps m) (partitionsOf m ops) →
       b = true).
Proof. apply checkOperations_ok. Qed.

(** a schedule in which the goroutines deliver once, and undisturbed *)
Definition fairly (n : nat) (kills : nat → nat → bool) (evs : list Received) : Prop :=
  NoDup evs ∧ ∀ i, GotResult i ∈ evs → (i < n)%nat ∧ ∀ k, kills i k = false.

Lemma sublist_results js evs n kills :
  fairly n kills evs → sublist (GotResult <$> js) evs → Z.of_nat n ≤ len js → js ≡ₚ seq 0 n.
Proof.
  intros [Hnd Hin] Hsub Hlen. pose proof (sublist_NoDup _ _ Hnd Hsub) as Hjs.
  apply NoDup_fmap_1 in Hjs. apply submseteq_length_Permutation.
  - apply NoDup_submseteq; [done|]. intros i Hi. apply elem_of_seq.
    assert (GotResult i ∈ evs) as Hi' by (eapply elem_of_sublist; [by apply list_elem_of_fmap_2|done]).
    apply Hin in Hi' as [? _]. lia.
  - rewrite length_seq. unfold len in Hlen. lia.
Qed.

(** C33: With a timeout, the answers of [CheckOperationsTimeout] are right whatever the
    order in which results and the timeout come: Ok means that every partition is
    linearizable, Illegal means (for histories without ties) that one is not, and
    Unknown is answered only when the timeout is positive and has come.  A timeout
    therefore never turns into a false positive. *)
Theorem CheckOperationsTimeout_sound m ops timeout fuel kills evs r :
  checkable m fuel (partitionsOf m ops) →
  fairly (List.length (partitionsOf m ops)) kills evs →
  CheckOperationsTimeout m ops timeout fuel kills evs = Ret r →
  (r = Ok → Forall (linearizableOps m) (partitionsOf m ops))
  ∧ (r = Illegal → Forall noTies (partitionsOf m ops) →
     ¬ Forall (linearizableOps m) (partitionsOf m ops))
  ∧ (r = Unknown → 0 < timeout ∧ GotTimeout ∈ evs).
Proof.
  intros Hc Hfair E. destruct (verdicts m fuel _ false kills Hc) as (b & Hrun & Hb).
  unfold CheckOperationsTimeout in E. rewrite checkOperations_eq in E.
  set (parts := partitionsOf m ops) in *. unfold checkParallel in E. cbv zeta in E. go_step E.
  destruct a as [res info]. injection E as <-. go_step E0. destruct a as [[ok timedOut] c].
  injection E0 as <- _. destruct (selectLoop_sound false _ _ _ b _ _ _ _ _ _
    (λ i Hi, Hrun i (proj1 (proj2 Hfair i Hi)) (proj2 (proj2 Hfair i Hi))) E) as (js & Hjs & Hsub & Hok & Hn).
  simpl in Hok. split_and!.
  - intros Hr. destruct ok, timedOut; try done. specialize (Hn eq_refl eq_refl).
    unfold len at 1 in Hn. rewrite length_fmap in Hn. simpl in Hn.
    pose proof (sublist_results js evs _ kills Hfair Hsub Hn) as Hperm.
    apply Forall_lookup_2. intros i part Hi. apply (Hb i part Hi).
    apply (proj1 (forallb_seq b js _ Hperm)); [done|by eapply lookup_lt_Some].
  - intros Hr Hties Hlin. destruct ok; [by destruct timedOut|]. symmetry in Hok.
    apply not_true_iff_false in Hok. apply Hok, forallb_forall. intros i Hi%list_elem_of_In.
    destruct (proj2 Hfair i (Hjs i Hi)) as [Hlt _].
    destruct (lookup_lt_is_Some_2 parts i Hlt) as [part Hpart].
    rewrite Forall_lookup in Hties, Hlin. by apply (Hb i part Hpart); eauto.
  - destruct ok; [|done]. destruct timedOut; [|done]. intros _. by eapply selectLoop_timeout.
Qed.

(** without a partition there is nothing to wait for, and the loop waits *)
Lemma no_partition_blocks m ops ci fuel kills evs :
  partitionsOf m ops = [] → fairly 0 kills evs →
  checkOperations m ops ci 0 fuel kills evs = Block.
Proof.
  intros Hp [_ Hin]. rewrite checkOperations_eq, Hp. unfold checkParallel. cbv zeta.
  destruct evs as [|[i|] evs]; simpl; [done| |done].
  destruct (Hin i) as [Hi _]; [by constructor|lia].
Qed.
End parallel.
