(* ===== verification/PorcKv.v ===== *)
(** * Package models: the key/value store, and its partition by key

    [models/kv.go]: the model the tests of kvraft check their histories with.  It
    describes one key and splits a history by key.  The reference is a store with all
    keys; a history is linearizable for the store exactly when every part of the split
    is linearizable for its key. *)

From stdpp Require Import sorting.
From S2P Require Import Prelude PorcBitset PorcChecker PorcList PorcSpec PorcSearch PorcOps PorcParallel.

Record KvInput := mkKvInput { ki_Op : Z; ki_Key : string; ki_Value : string }.
Record KvOutput := mkKvOutput { ko_Value : string }.

(** the dynamic types of the values *)
Inductive KvValue :=
| Inp (i : KvInput)
| Out (o : KvOutput).

Abbreviation KvOperation := (Operation KvValue).

(** [v.Input.(KvInput).Key]; the assertion panics on a value of another type, which
    [kvTyped] below excludes *)
Definition keyOf (v : KvOperation) : string :=
  match op_Input v with
  | Some (Inp i) => ki_Key i
  | _ => EmptyString
  end.

(** [m[key] = append(m[key], v)] for every operation *)
Fixpoint groupByKey (m : gmap string (list KvOperation)) (history : list KvOperation)
    : gmap string (list KvOperation) :=
  match history with
  | [] => m
  | v :: history =>
      let key := keyOf v in
      groupByKey (<[key := default [] (m !! key) ++ [v]]> m) history
  end.

Definition KvModel_Partition (history : list KvOperation) : list (list KvOperation) :=
  let m := groupByKey ∅ history in
  let keys := merge_sort strLe (elements (dom m)) in
  (λ k, default [] (m !! k)) <$> keys.

(** the type assertions panic on values of other types, which [kvTyped] excludes *)
Definition KvModel_Step (state : string) (input output : any KvValue) : bool * string :=
  match input, output with
  | Some (Inp inp), Some (Out out) =>
      if ki_Op inp =? 0 then (String.eqb (ko_Value out) state, state)
      else if ki_Op inp =? 1 then (true, ki_Value inp)
      else (true, String.append state (ki_Value inp))
  | _, _ => (false, state)
  end.

(** a history on which no type assertion fails *)
Definition kvTyped (history : list KvOperation) : Prop :=
  ∀ v, v ∈ history → ∃ i o, op_Input v = Some (Inp i) ∧ op_Output v = Some (Out o).

Definition KvModel : Model KvValue string :=
  mkModel (Some KvModel_Partition) None EmptyString KvModel_Step None.

(** ** The reference: a store with all keys *)

(** the value of a key that was never written is the empty string *)
Definition valueAt (st : gmap string string) (k : string) : string := default EmptyString (st !! k).

Lemma valueAt_empty k : valueAt ∅ k = EmptyString.
Proof. unfold valueAt. by rewrite lookup_empty. Qed.

Definition storeStep (st : gmap string string) (input output : any KvValue)
    : bool * gmap string string :=
  match input, output with
  | Some (Inp inp), Some (Out out) =>
      let v := valueAt st (ki_Key inp) in
      if ki_Op inp =? 0 then (String.eqb (ko_Value out) v, st)
      else if ki_Op inp =? 1 then (true, <[ki_Key inp := ki_Value inp]> st)
      else (true, <[ki_Key inp := String.append v (ki_Value inp)]> st)
  | _, _ => (false, st)
  end.

Definition StoreModel : Model KvValue (gmap string string) :=
  mkModel None None ∅ storeStep None.

(** one step of the store is one step of the model of its key *)
Lemma storeStep_key st o :
  let r := storeStep st (op_Input o) (op_Output o) in
  let r' := KvModel_Step (valueAt st (keyOf o)) (op_Input o) (op_Output o) in
  r.1 = r'.1 ∧ (r'.1 = true → valueAt r.2 (keyOf o) = r'.2)
  ∧ ∀ k, k ≠ keyOf o → valueAt r.2 k = valueAt st k.
Proof.
  unfold storeStep, KvModel_Step, keyOf.
  destruct (op_Input o) as [[inp|]|], (op_Output o) as [[|out]|]; simpl; try done.
  repeat case_match; simpl; split_and!; try done; unfold valueAt;
    try (intros _; by rewrite lookup_insert_eq); intros k Hk; by rewrite lookup_insert_ne.
Qed.

(** ** The split *)

Lemma groupByKey_lookup m history k :
  groupByKey m history !! k
  = (if decide (k ∈ dom m ∨ k ∈ keyOf <$> history)
     then Some (default [] (m !! k) ++ filter (λ v, keyOf v = k) history) else None).
Proof.
  revert m. induction history as [|v history IH]; intros m; simpl.
  - rewrite filter_nil, app_nil_r. destruct (m !! k) eqn:E.
    + rewrite decide_True; [done|]. left. by eapply elem_of_dom_2.
    + rewrite decide_False; [done|]. intros [H|H]; [|by apply elem_of_nil in H].
      apply elem_of_dom in H as [? ?]. congruence.
  - rewrite IH, filter_cons.
    rewrite (decide_ext _ (k ∈ dom m ∨ k ∈ keyOf v :: (keyOf <$> history)))
      by (rewrite dom_insert, elem_of_union, elem_of_singleton, elem_of_cons; tauto).
    destruct (decide (_ ∨ _)); [|done]. destruct (decide (keyOf v = k)) as [<-|Hne].
    + rewrite lookup_insert_eq. simpl. by rewrite <-app_assoc.
    + by rewrite lookup_insert_ne.
Qed.

(** the keys of the parts, in order *)
Definition keysOf (history : list KvOperation) : list string :=
  merge_sort strLe (elements (dom (groupByKey ∅ history))).

Lemma elem_keysOf history k : k ∈ keysOf history ↔ k ∈ keyOf <$> history.
Proof.
  unfold keysOf. rewrite merge_sort_Permutation, elem_of_elements, elem_of_dom, groupByKey_lookup.
  destruct (decide _) as [H|H]; (split; [intros Hk|intros Hk]).
  - destruct H as [H|H]; [by rewrite dom_empty in H|done].
  - by eexists.
  - by destruct Hk.
  - destruct H. by right.
Qed.

Lemma keysOf_NoDup history : NoDup (keysOf history).
Proof. unfold keysOf. rewrite merge_sort_Permutation. apply NoDup_elements. Qed.

Lemma Partition_spec history :
  KvModel_Partition history = (λ k, filter (λ v, keyOf v = k) history) <$> keysOf history.
Proof.
  unfold KvModel_Partition. fold (keysOf history). apply list_fmap_ext. intros i k Hk.
  apply list_elem_of_lookup_2, elem_keysOf in Hk. rewrite groupByKey_lookup, decide_True by by right.
  by rewrite lookup_empty.
Qed.

(** ** Locality *)

(** a linearization of the whole gives one of each key *)
Lemma legal_project st l k :
  legalOps StoreModel st l → legalOps KvModel (valueAt st k) (filter (λ v, keyOf v = k) l).
Proof.
  revert st. induction l as [|o l IH]; intros st; [done|]. simpl. intros [Hs Hl].
  destruct (storeStep_key st o) as (E1 & E2 & E3). cbv zeta in *.
  rewrite filter_cons. destruct (decide (keyOf o = k)) as [<-|Hne]; simpl.
  - rewrite <-E1. split; [done|]. rewrite <-E2 by congruence. by apply IH.
  - rewrite <-(E3 k) by done. by apply IH.
Qed.

Lemma sorted_filter {A} (R : A → A → Prop) (P : A → Prop) `{!∀ x, Decision (P x)} l :
  StronglySorted R l → StronglySorted R (filter P l).
Proof.
  induction 1 as [|x l _ IH Hx]; [constructor|]. rewrite filter_cons. case_decide; [|done].
  constructor; [done|]. rewrite Forall_forall in *. intros y [_ Hy]%list_elem_of_filter. by apply Hx.
Qed.

(** [l] is made of the lists [ls], in the order of each *)
Inductive interleaves {A} : list (list A) → list A → Prop :=
| il_nil ls : Forall (eq []) ls → interleaves ls []
| il_cons ls i x l' l :
    ls !! i = Some (x :: l') → interleaves (<[i := l']> ls) l → interleaves ls (x :: l).

Lemma join_insert {A} (ls : list (list A)) i x l' :
  ls !! i = Some (x :: l') → mjoin ls ≡ₚ x :: mjoin (<[i := l']> ls).
Proof.
  intros Hi. apply lookup_lt_Some in Hi as Hlt. rewrite insert_take_drop by done.
  rewrite <-(take_drop_middle ls i _ Hi) at 1. rewrite !join_app. simpl.
  by rewrite <-Permutation_middle.
Qed.

Lemma interleaves_perm {A} (ls : list (list A)) l : interleaves ls l → l ≡ₚ mjoin ls.
Proof.
  induction 1 as [ls Hall|ls i x l' l Hi _ IH].
  - induction Hall as [|x ls <- _ IH]; [done|]. exact IH.
  - by rewrite IH, <-join_insert.
Qed.

(** the first operations of the lists that are not empty *)
Lemma min_head (ls : list (list KvOperation)) :
  Forall (eq []) ls
  ∨ ∃ i x l', ls !! i = Some (x :: l')
      ∧ ∀ j y l'', ls !! j = Some (y :: l'') → op_Call x ≤ op_Call y.
Proof.
  induction ls as [|[|x l'] ls IH]; [by left|..].
  - destruct IH as [IH|(i & x & l' & Hi & Hmin)]; [left; by constructor|right].
    exists (S i), x, l'. split; [done|]. intros [|j] y l'' Hj; [done|]. by eapply Hmin.
  - right. destruct IH as [IH|(i & z & l1 & Hi & Hmin)].
    + exists 0%nat, x, l'. split; [done|]. intros [|j] y l'' Hj; simplify_eq/=; [lia|].
      rewrite Forall_lookup in IH. by apply IH in Hj.
    + destruct (Z_le_gt_dec (op_Call x) (op_Call z)) as [Hle|Hgt].
      * exists 0%nat, x, l'. split; [done|]. intros [|j] y l'' Hj; simplify_eq/=; [lia|].
        apply Hmin in Hj. lia.
      * exists (S i), z, l1. split; [done|]. intros [|j] y l'' Hj; simplify_eq/=; [lia|].
        by eapply Hmin.
Qed.

(** linearizations of the keys merge, always taking the operation called first *)
Lemma merge_exists n (ls : list (list KvOperation)) :
  List.length (mjoin ls) = n → timed (mjoin ls) →
  Forall (StronglySorted mayPrecede) ls →
  ∃ l, interleaves ls l ∧ StronglySorted mayPrecede l.
Proof.
  revert ls. induction n as [|n IH]; intros ls Hn Ht Hs;
    destruct (min_head ls) as [Hnil|(i & x & l' & Hi & Hmin)];
    try (exists []; split; [by constructor|constructor]).
  all: pose proof (join_insert ls i x l' Hi) as Hperm; rewrite Hperm in Hn; simpl in Hn; try lia.
  assert (StronglySorted mayPrecede (x :: l')) as [Hsl' Hx]%StronglySorted_inv
    by (rewrite Forall_lookup in Hs; by eapply Hs).
  destruct (IH (<[i := l']> ls)) as (l & Hl & Hsl).
  - lia.
  - intros o Ho. apply Ht. rewrite Hperm. by right.
  - by apply Forall_insert.
  - exists (x :: l). split; [by econstructor|]. constructor; [done|].
    apply Forall_forall. intros b Hb. rewrite (interleaves_perm _ _ Hl) in Hb.
    apply list_elem_of_join in Hb as (lj & Hb & Hlj). apply list_elem_of_lookup_1 in Hlj as [j Hj].
    apply list_lookup_insert_Some in Hj as [(<- & <- & _)|[Hij Hj]].
    { rewrite Forall_forall in Hx. by apply Hx. }
    destruct lj as [|y lj]; [by apply elem_of_nil in Hb|]. specialize (Hmin j y lj Hj).
    unfold mayPrecede. apply elem_of_cons in Hb as [->|Hb].
    + assert (op_Call y < op_Return y); [|lia]. apply Ht, list_elem_of_join.
      exists (y :: lj). split; [constructor|by eapply list_elem_of_lookup_2].
    + rewrite Forall_lookup in Hs. specialize (Hs j _ Hj).
      apply StronglySorted_inv in Hs as [_ Hy]. rewrite Forall_forall in Hy.
      specialize (Hy b Hb). unfold mayPrecede in Hy. lia.
Qed.

(** the operations of one key do not disturb the other keys *)
Lemma legal_merge ks ls l st :
  NoDup ks → Forall2 (λ k l, Forall (λ o, keyOf o = k) l) ks ls →
  (∀ i k li, ks !! i = Some k → ls !! i = Some li → legalOps KvModel (valueAt st k) li) →
  interleaves ls l → legalOps StoreModel st l.
Proof.
  intros Hnd Hks Hleg Hil. revert st Hks Hleg.
  induction Hil as [ls _|ls i x l' l Hi _ IH]; intros st Hks Hleg; [done|]. simpl.
  destruct (Forall2_lookup_r _ _ _ _ _ Hks Hi) as (k & Hk & Hall).
  apply Forall_cons in Hall as [Hx Hl'].
  destruct (Hleg i k _ Hk Hi) as [Hstep Hrest]. simpl in Hstep, Hrest.
  destruct (storeStep_key st x) as (E1 & E2 & E3). cbv zeta in *. subst k.
  split; [by rewrite E1|]. apply IH.
  - rewrite <-(list_insert_id ks i (keyOf x)) by done. by apply Forall2_insert.
  - intros j k lj Hkj Hj. apply list_lookup_insert_Some in Hj as [(<- & <- & _)|[Hij Hj]].
    + rewrite Hk in Hkj. injection Hkj as <-. rewrite E2 by done. done.
    + rewrite E3; [by eapply Hleg|]. intros ->. apply Hij. by eapply NoDup_lookup.
Qed.

(** the parts are the whole *)
Lemma filter_partition (ks : list string) history :
  NoDup ks → (∀ v, v ∈ history → keyOf v ∈ ks) →
  mjoin ((λ k, filter (λ v, keyOf v = k) history) <$> ks) ≡ₚ history.
Proof.
  intros Hnd. revert history. induction Hnd as [|k ks Hk Hnd IH]; intros history Hin; simpl.
  - destruct history as [|v history]; [done|]. exfalso.
    by apply (not_elem_of_nil (keyOf v)), Hin; constructor.
  - etrans; [|apply (filter_app_complement (λ v, keyOf v = k) history)]. f_equiv.
    rewrite <-(IH (filter (λ v, ¬ keyOf v = k) history)) at 1.
    + apply Permutation_refl'. f_equal. apply list_fmap_ext. intros i k' Hk'.
      rewrite list_filter_filter. apply filter_ext_in. intros v _. split; [|tauto].
      intros Hv. split; [done|]. intros E. apply Hk. rewrite <-E, Hv.
      by eapply list_elem_of_lookup_2.
    + intros v [Hne Hv]%list_elem_of_filter. apply Hin in Hv.
      by apply elem_of_cons in Hv as [?|?].
Qed.

Lemma kv_split history :
  linearizableOps StoreModel history →
  Forall (linearizableOps KvModel) (KvModel_Partition history).
Proof.
  intros (l & Hl & Hs & Hleg). rewrite Partition_spec. apply Forall_fmap, Forall_forall.
  intros k _. simpl. exists (filter (λ v, keyOf v = k) l). split_and!.
  - by rewrite Hl.
  - by apply sorted_filter.
  - pose proof (legal_project ∅ l k Hleg) as H. by rewrite valueAt_empty in H.
Qed.

Lemma kv_merge history :
  timed history → Forall (linearizableOps KvModel) (KvModel_Partition history) →
  linearizableOps StoreModel history.
Proof.
  intros Ht Hall. rewrite Partition_spec, Forall_fmap in Hall.
  assert (∃ ls, Forall2 (λ k l, l ≡ₚ filter (λ v, keyOf v = k) history
    ∧ StronglySorted mayPrecede l ∧ legalOps KvModel EmptyString l) (keysOf history) ls) as [ls Hls].
  { induction Hall as [|k ks (l & Hl) _ [ls IH]]; [by exists []|]. exists (l :: ls). by constructor. }
  assert (mjoin ls ≡ₚ history) as Hjoin.
  { etrans; [|apply (filter_partition (keysOf history) history); [apply keysOf_NoDup|]].
    - clear Hall. induction Hls as [|k l ks ls (Hl & _) _ IH]; [done|]. simpl. by rewrite Hl, IH.
    - intros v Hv. apply elem_keysOf, list_elem_of_fmap. by exists v. }
  destruct (merge_exists _ ls eq_refl) as (l & Hil & Hs).
  - intros o Ho. apply Ht. by rewrite <-Hjoin.
  - clear -Hls. induction Hls as [|k l ks ls (_ & ? & _) _ IH]; by constructor.
  - exists l. split_and!; [by rewrite (interleaves_perm _ _ Hil)|done|].
    eapply (legal_merge (keysOf history) ls); [apply keysOf_NoDup| | |done].
    + eapply Forall2_impl; [exact Hls|]. intros k li (Hli & _). apply Forall_forall.
      intros o Ho. rewrite Hli in Ho. by apply list_elem_of_filter in Ho as [? _].
    + intros i k li Hk Hli. simpl. rewrite valueAt_empty.
      by destruct (Forall2_lookup_lr _ _ _ _ _ _ Hls Hk Hli) as (_ & _ & ?).
Qed.

(** C34: The split by key is right ("a history is linearizable if and only if each
    partition is linearizable"): a history of Gets, Puts and Appends is linearizable for
    the whole store exactly when the history of every key is linearizable for the model
    of one key. *)
Theorem kv_partition_local history :
  kvTyped history → timed history →
  linearizableOps StoreModel history ↔
  Forall (linearizableOps KvModel) (KvModel_Partition history).
Proof. intros _ Ht. split; [apply kv_split|by apply kv_merge]. Qed.

Lemma Partition_elem history part v :
  part ∈ KvModel_Partition history → v ∈ part → v ∈ history.
Proof.
  rewrite Partition_spec. intros (k & -> & _)%list_elem_of_fmap.
  by intros [_ ?]%list_elem_of_filter.
Qed.

Lemma kv_checkable `{!SortByTime KvValue} history fuel :
  timed history →
  Forall (λ part, turns (makeEntries part) ≤ fuel)%nat (KvModel_Partition history) →
  checkable KvModel fuel (partitionsOf KvModel history).
Proof.
  intros Ht Hf. rewrite Forall_forall in Hf. split; [by apply shallow_equal_ok|].
  intros part Hpart. split; [|by apply Hf]. intros v Hv. by eapply Ht, Partition_elem.
Qed.

Lemma kv_no_partition history : KvModel_Partition history = [] ↔ history = [].
Proof.
  rewrite Partition_spec. split; [|by intros ->]. intros Hnil%fmap_nil_inv.
  destruct history as [|v history]; [done|].
  exfalso. apply (not_elem_of_nil (keyOf v)). rewrite <-Hnil. apply elem_keysOf. constructor.
Qed.

(** C35: When every goroutine that was started delivers its result undisturbed (and the
    operations carry the types of the model, and return after they are called), a check
    without a timeout waits for ever exactly when the history is empty: [KvModel] splits
    the empty history into no part, no goroutine is started, and [checkParallel] waits
    for a result all the same.  With a timeout the empty history is Unknown. *)
Theorem empty_history_blocks `{!SortByTime KvValue} history fuel kills js :
  kvTyped history → timed history →
  Forall (λ part, turns (makeEntries part) ≤ fuel)%nat (KvModel_Partition history) →
  js ≡ₚ seq 0 (List.length (KvModel_Partition history)) → (∀ i k, kills i k = false) →
  (CheckOperations KvModel history fuel kills (GotResult <$> js) = Block ↔ history = [])
  ∧ (history = [] → ∀ timeout, 0 < timeout →
     CheckOperationsTimeout KvModel history timeout fuel kills
       ((GotResult <$> js) ++ [GotTimeout]) = Ret Unknown).
Proof.
  intros _ Ht Hf Hjs Hk.
  assert (history = [] → js = []) as Hnil.
  { intros ->. symmetry in Hjs. by apply Permutation_nil in Hjs. }
  split; [split|].
  - intros E. destruct (decide (history = [])) as [|Hne]; [done|].
    destruct (checkOperations_ok KvModel history fuel kills js) as (b & E' & _);
      [by apply kv_checkable|simpl; by rewrite kv_no_partition|done..|].
    congruence.
  - intros ->. rewrite (Hnil eq_refl). unfold CheckOperations.
    rewrite (no_partition_blocks KvModel []); [done..|].
    split; [constructor|]. by intros i ?%elem_of_nil.
  - intros -> timeout Hpos. rewrite (Hnil eq_refl). unfold CheckOperationsTimeout.
    rewrite checkOperations_eq. simpl. unfold checkParallel. simpl.
    by rewrite (proj2 (Z.ltb_lt _ _)).
Qed.

(** C36: The check of the kvraft tests is exact: for a non-empty history of operations
    that take time and never return at the moment of another's call, [CheckOperations]
    with [KvModel] returns once all parts are checked, and returns true exactly when the
    history is linearizable for a key/value store. *)
Theorem kv_check_exact `{!SortByTime KvValue} history fuel kills js :
  kvTyped history → timed history → noTies history → history ≠ [] →
  Forall (λ part, turns (makeEntries part) ≤ fuel)%nat (KvModel_Partition history) →
  js ≡ₚ seq 0 (List.length (KvModel_Partition history)) → (∀ i k, kills i k = false) →
  ∃ b, CheckOperations KvModel history fuel kills (GotResult <$> js) = Ret b
    ∧ (b = true ↔ linearizableOps StoreModel history).
Proof.
  intros _ Ht Hn Hne Hf Hjs Hk.
  destruct (checkOperations_ok KvModel history fuel kills js) as (b & E & H1 & H2); try done.
  - by apply kv_checkable.
  - simpl. by rewrite kv_no_partition.
  - exists b. split; [done|]. split.
    + intros Hb. by apply kv_merge, H1.
    + intros Hl. apply H2; [|by apply kv_split]. apply Forall_forall. intros part Hpart v v' Hv Hv'.
      apply Hn; by eapply Partition_elem.
Qed.
