(* ===== verification/PorcEvents.v ===== *)
(** * Package porcupine: histories of events

    [renumber] replaces the ids of a history of events by 0, 1, 2, ... in the order of
    their first appearance; [convertEntries] makes the history that the search takes. *)

From S2P Require Import Prelude PorcBitset PorcChecker PorcList PorcSpec PorcSearch PorcParallel.

Section events.
Context {V : Type}.
Implicit Types (evs : list (Event V)) (v : Event V) (m : gmap Z Z).

(** every id has one call event and one later return event *)
Record events_ok evs : Prop := {
  eo_unique : ∀ i j v w, evs !! i = Some v → evs !! j = Some w →
    ev_Kind v = ev_Kind w → ev_Id v = ev_Id w → i = j;
  eo_return : ∀ i v, evs !! i = Some v → ev_Kind v = callKind →
    ∃ j w, (i < j)%nat ∧ evs !! j = Some w ∧ ev_Kind w = returnKind ∧ ev_Id w = ev_Id v;
  eo_call : ∀ j w, evs !! j = Some w → ev_Kind w = returnKind →
    ∃ i v, (i < j)%nat ∧ evs !! i = Some v ∧ ev_Kind v = callKind ∧ ev_Id v = ev_Id w;
}.

Definition withId v (id : Z) : Event V := mkEvent (ev_ClientId v) (ev_Kind v) (ev_Value v) id.

Definition callCount evs : Z := len (filter (λ v, ev_Kind v = callKind) evs).

(** the renumbering so far: distinct numbers below [id] *)
Definition numbering m (id : Z) : Prop :=
  0 ≤ id ∧ (∀ a b n, m !! a = Some n → m !! b = Some n → a = b)
  ∧ ∀ a n, m !! a = Some n → 0 ≤ n < id.

Lemma numbering_insert m id a : numbering m id → m !! a = None → numbering (<[a := id]> m) (id + 1).
Proof.
  intros (H0 & Hinj & Hr) Ha. split_and!; [lia|..].
  - intros b c n [[-> <-]|[Hb Hb']]%lookup_insert_Some [[-> Hn]|[Hc Hc']]%lookup_insert_Some; try done.
    + apply Hr in Hc'. lia.
    + subst. apply Hr in Hb'. lia.
    + by eapply Hinj.
  - intros b n [[-> <-]|[Hb Hb']]%lookup_insert_Some; [lia|]. apply Hr in Hb'. lia.
Qed.

(** an id that appears for the first time belongs to a call *)
Definition callsFirst m evs : Prop :=
  ∀ j w, evs !! j = Some w → ev_Kind w = returnKind →
    is_Some (m !! ev_Id w) ∨ ∃ i v, (i < j)%nat ∧ evs !! i = Some v ∧ ev_Kind v = callKind
                                    ∧ ev_Id v = ev_Id w.

Lemma renumber_loop_spec m id evs :
  numbering m id → callsFirst m evs →
  ∃ m' id', m ⊆ m' ∧ numbering m' id' ∧ id' ≤ id + callCount evs
    ∧ (∀ v, v ∈ evs → is_Some (m' !! ev_Id v))
    ∧ renumber_loop m id evs = (λ v, withId v (default 0 (m' !! ev_Id v))) <$> evs.
Proof.
  revert m id. induction evs as [|v evs IH]; intros m id Hm Hc.
  { exists m, id. split_and!; try done; [unfold callCount, len; simpl; lia|by intros v ?%elem_of_nil]. }
  assert (∀ m1, m ⊆ m1 → is_Some (m1 !! ev_Id v) → callsFirst m1 evs) as Htail.
  { intros m1 Hsub Hv j w Hj Hk. destruct (Hc (S j) w Hj Hk) as [[n Hn]|(i & u & Hij & Hi & Hu & Hid)].
    - left. exists n. by eapply lookup_weaken.
    - destruct i as [|i]; simplify_eq/=; [left; by rewrite <-Hid|]. right. exists i, u.
      split_and!; [lia|done..]. }
  assert (callCount (v :: evs) = callCount evs + (if decide (ev_Kind v = callKind) then 1 else 0)) as Hcc.
  { unfold callCount. rewrite filter_cons. case_decide; unfold len; simpl; lia. }
  simpl. destruct (m !! ev_Id v) as [r|] eqn:E.
  - destruct (IH m id Hm) as (m' & id' & Hsub & Hm' & Hid & Hall & ->); [by apply Htail|].
    exists m', id'. split_and!; try done.
    + case_decide; lia.
    + intros w [->|Hw]%elem_of_cons; [|by apply Hall]. exists r. by eapply lookup_weaken.
    + simpl. by rewrite (lookup_weaken _ _ _ _ E Hsub).
  - assert (ev_Kind v = callKind) as Hv.
    { destruct (ev_Kind v) eqn:Hk; [done|].
      destruct (Hc 0%nat v eq_refl Hk) as [[n Hn]|(i & _ & Hi & _)]; [congruence|lia]. }
    destruct (IH (<[ev_Id v := id]> m) (id + 1)) as (m' & id' & Hsub & Hm' & Hid & Hall & ->).
    + by apply numbering_insert.
    + apply Htail; [by apply insert_subseteq|]. rewrite lookup_insert_eq. by eexists.
    + assert (m' !! ev_Id v = Some id) as Hnew by (eapply lookup_weaken; [apply lookup_insert_eq|done]).
      exists m', id'. split_and!; try done.
      * etrans; [|exact Hsub]. by apply insert_subseteq.
      * rewrite decide_True in Hcc by done. lia.
      * intros w [->|Hw]%elem_of_cons; [by exists id|by apply Hall].
      * simpl. by rewrite Hnew.
Qed.

(** as many calls as returns *)
Lemma call_count evs : events_ok evs → 2 * callCount evs = len evs.
Proof.
  intros Hok.
  assert (∀ k, NoDup (ev_Id <$> filter (λ v, ev_Kind v = k) evs)) as Hnd.
  { intros k. apply NoDup_alt. intros i j a Hi Hj.
    apply list_lookup_fmap_Some in Hi as (v & -> & Hi). apply list_lookup_fmap_Some in Hj as (w & Hvw & Hj).
    assert (NoDup (filter (λ v, ev_Kind v = k) evs)) as Hf.
    { apply NoDup_filter, NoDup_alt. intros p q x Hp Hq. by eapply (eo_unique _ Hok). }
    assert (v = w) as <-; [|by eapply NoDup_lookup].
    apply list_elem_of_lookup_2, list_elem_of_filter in Hi as [Hk [p Hp]%list_elem_of_lookup_1].
    apply list_elem_of_lookup_2, list_elem_of_filter in Hj as [Hk' [q Hq]%list_elem_of_lookup_1].
    assert (p = q) as -> by (eapply (eo_unique _ Hok); [done..|congruence|done]). congruence. }
  assert ((ev_Id <$> filter (λ v, ev_Kind v = callKind) evs)
    ≡ₚ (ev_Id <$> filter (λ v, ev_Kind v = returnKind) evs)) as Hperm.
  { apply NoDup_Permutation; [done..|]. intros a. rewrite !list_elem_of_fmap. split.
    - intros (v & -> & [Hk [i Hi]%list_elem_of_lookup_1]%list_elem_of_filter).
      destruct (eo_return _ Hok i v Hi Hk) as (j & w & _ & Hj & Hw & Hid). exists w. split; [done|].
      apply list_elem_of_filter. split; [done|by eapply list_elem_of_lookup_2].
    - intros (v & -> & [Hk [i Hi]%list_elem_of_lookup_1]%list_elem_of_filter).
      destruct (eo_call _ Hok i v Hi Hk) as (j & w & _ & Hj & Hw & Hid). exists w. split; [done|].
      apply list_elem_of_filter. split; [done|by eapply list_elem_of_lookup_2]. }
  apply Permutation_length in Hperm. rewrite !length_fmap in Hperm.
  pose proof (Permutation_length (filter_app_complement (λ v, ev_Kind v = callKind) evs)) as Hl.
  rewrite length_app in Hl. unfold callCount, len.
  rewrite (filter_ext_in (λ v, ¬ ev_Kind v = callKind) (λ v, ev_Kind v = returnKind)) in Hl
    by (intros v _; by destruct (ev_Kind v)).
  lia.
Qed.

Lemma convert_lookup k evs i :
  convert_loop k evs !! i
  = (λ v, mkEntry (ev_Kind v) (ev_Value v) (ev_Id v) (wrap64 (k + Z.of_nat i)) (ev_ClientId v)) <$> evs !! i.
Proof.
  revert k i. induction evs as [|v evs IH]; intros k [|i]; simpl; try done.
  - by rewrite Z.add_0_r.
  - rewrite IH. by replace (k + 1 + Z.of_nat i) with (k + Z.of_nat (S i)) by lia.
Qed.

Lemma convert_length k evs : List.length (convert_loop k evs) = List.length evs.
Proof. revert k. induction evs as [|v evs IH]; intros k; simpl; [done|]. by rewrite IH. Qed.

(** position by position, the same kind and value, under a number that stands for the id *)
Lemma converted evs :
  events_ok evs →
  ∃ f : Z → Z, (∀ v, v ∈ evs → 0 ≤ f (ev_Id v) < callCount evs)
    ∧ (∀ v w, v ∈ evs → w ∈ evs → f (ev_Id v) = f (ev_Id w) → ev_Id v = ev_Id w)
    ∧ ∀ i, convertEntries (renumber evs) !! i
           = (λ v, mkEntry (ev_Kind v) (ev_Value v) (f (ev_Id v)) (wrap64 (Z.of_nat i)) (ev_ClientId v))
             <$> evs !! i.
Proof.
  intros Hok. destruct (renumber_loop_spec ∅ 0 evs) as (m & id & _ & (H0 & Hinj & Hr) & Hid & Hall & E).
  { split_and!; [lia|intros a b n; by rewrite lookup_empty|intros a n; by rewrite lookup_empty]. }
  { intros j w Hj Hk. right. by apply (eo_call _ Hok). }
  exists (λ a, default 0 (m !! a)). split_and!.
  - intros v Hv. destruct (Hall v Hv) as [n Hn]. rewrite Hn. simpl. apply Hr in Hn. lia.
  - intros v w Hv Hw. destruct (Hall v Hv) as [n Hn], (Hall w Hw) as [n' Hn']. rewrite Hn, Hn'.
    simpl. intros ->. by eapply Hinj.
  - intros i. unfold convertEntries, renumber. rewrite E, convert_lookup, list_lookup_fmap.
    by destruct (evs !! i).
Qed.

(** C37: [renumber] and [convertEntries] keep what the check is about: when every id of
    a history of events has one call and one later return, then so has every number of
    the result, and numbers are below the number of operations (the size of the bit
    sets of the search). *)
Theorem converted_ok evs : events_ok evs → history_ok (convertEntries (renumber evs)).
Proof.
  intros Hok. destruct (converted evs Hok) as (f & Hf & Hinj & Hlk).
  assert (∀ i e, convertEntries (renumber evs) !! i = Some e → ∃ v, evs !! i = Some v ∧ v ∈ evs
    ∧ e_kind e = ev_Kind v ∧ e_id e = f (ev_Id v)) as Hinv.
  { intros i e He. rewrite Hlk in He. apply fmap_Some in He as (v & Hv & ->).
    exists v. split_and!; try done. by eapply list_elem_of_lookup_2. }
  assert (len (convertEntries (renumber evs)) = len evs) as Hlen.
  { unfold convertEntries, renumber, len. rewrite convert_length. f_equal.
    destruct (renumber_loop_spec ∅ 0 evs) as (m & id & _ & _ & _ & _ & ->); [| |by rewrite length_fmap].
    - split_and!; [lia|intros a b n; by rewrite lookup_empty|intros a n; by rewrite lookup_empty].
    - intros j w Hj Hk. right. by apply (eo_call _ Hok). }
  split.
  - intros e [i He]%list_elem_of_lookup_1. destruct (Hinv i e He) as (v & _ & Hv & _ & ->).
    rewrite Hlen, <-(call_count evs Hok), Z.mul_comm, Z.quot_mul by lia. by apply Hf.
  - intros i j e e' He He' Hk Hid. destruct (Hinv i e He) as (v & Hi & Hv & Hkv & Hiv).
    destruct (Hinv j e' He') as (w & Hj & Hw & Hkw & Hiw).
    eapply (eo_unique _ Hok); [done..|congruence|]. apply Hinj; congruence.
  - intros i e He Hk. destruct (Hinv i e He) as (v & Hi & Hv & Hkv & Hiv).
    destruct (eo_return _ Hok i v Hi) as (j & w & Hij & Hj & Hw & Hid); [congruence|].
    exists j. eexists. split_and!; [done|by rewrite Hlk, Hj|done|]. simpl. congruence.
  - intros j e He Hk. destruct (Hinv j e He) as (w & Hj & Hw & Hkw & Hiw).
    destruct (eo_call _ Hok j w Hj) as (i & v & Hij & Hi & Hv & Hid); [congruence|].
    exists i. eexists. split_and!; [done|by rewrite Hlk, Hi|done|]. simpl. congruence.
Qed.
End events.
