(* ===== verification/PorcVisual.v ===== *)
(** * Package porcupine: the data of the visualization

    [src/porcupine/visualization.go] up to the page it fills in, and the description of
    operations of [src/models/kv.go].  [DescribeOperation] and [DescribeState] are the
    functions of the model after [fillDefault]; describing an operation may panic on a
    value of another type.  The page itself is a constant. *)

From Stdlib Require Import Sorting.Sorted.
From S2P Require Import Prelude PorcBitset PorcChecker PorcList PorcSpec PorcSearch PorcOps PorcParallel PorcKv.

(** ** Data *)

Record historyElement := mkHistoryElement {
  he_ClientId : Z; he_Start : Z; he_End : Z; he_Description : string }.

Record linearizationStep := mkLinearizationStep { ls_Index : Z; ls_StateDescription : string }.

Record partitionVisualizationData := mkPartitionVisualizationData {
  History : list historyElement;
  PartialLinearizations : list (list linearizationStep);
  Largest : gmap Z Z;
}.

(** [sort.Slice] with [len(partials[i]) > len(partials[j])]: a permutation, long ones
    first *)
Class SortBySize := {
  sort_Slice : list (list Z) → list (list Z);
  sort_Slice_perm l : sort_Slice l ≡ₚ l;
  sort_Slice_sorted l : StronglySorted (λ a b : list Z, len b ≤ len a) (sort_Slice l);
}.

(** ** Operations *)

(** a key that is not in a Go map has the zero value *)
Definition anyGet {V} (mp : gmap Z (any V)) (k : Z) : any V := default None (mp !! k).
Definition intGet (mp : gmap Z Z) (k : Z) : Z := default 0 (mp !! k).

Section visualization.
Context {V St : Type} `{!EqDecision St} `{!SortByTime V} `{!SortBySize}.
Context (DescribeOperation : any V → any V → go string) (DescribeState : St → string).
Implicit Types (m : Model V St) (es : list (entry V)).

(** the loop over the entries of a partition *)
Fixpoint historyLoop es (history : list historyElement) (callValue returnValue : gmap Z (any V))
    : go (list historyElement * gmap Z (any V) * gmap Z (any V)) :=
  match es with
  | [] => Ret (history, callValue, returnValue)
  | elem :: es =>
      let id := e_id elem in
      h ← idx history id;
      match e_kind elem with
      | callKind =>
          history ← upd history id
            (mkHistoryElement (e_clientId elem) (e_time elem) (he_End h) (he_Description h));
          historyLoop es history (<[id := e_value elem]> callValue) returnValue
      | returnKind =>
          desc ← DescribeOperation (anyGet callValue id) (e_value elem);
          history ← upd history id
            (mkHistoryElement (he_ClientId h) (he_Start h) (e_time elem) desc);
          historyLoop es history callValue (<[id := e_value elem]> returnValue)
      end
  end.

(** the loop over partial linearization [i] of length [size]: its steps, [largestSize]
    and [largestIndex] *)
Fixpoint stepLoop m (callValue returnValue : gmap Z (any V)) (i size : Z) (partial : list Z)
    (state : St) (largestSize largestIndex : gmap Z Z)
    : go (list linearizationStep * gmap Z Z * gmap Z Z) :=
  match partial with
  | [] => Ret ([], largestSize, largestIndex)
  | histId :: partial =>
      let '(ok, state) := Step m state (anyGet callValue histId) (anyGet returnValue histId) in
      if (ok : bool) then
        let stateDesc := DescribeState state in
        let '(largestSize, largestIndex) :=
          if intGet largestSize histId <? size
          then (<[histId := size]> largestSize, <[histId := i]> largestIndex)
          else (largestSize, largestIndex) in
        '(steps, largestSize, largestIndex) ←
          stepLoop m callValue returnValue i size partial state largestSize largestIndex;
        Ret (mkLinearizationStep histId stateDesc :: steps, largestSize, largestIndex)
      else Panic
  end.

(** the loop over the partial linearizations *)
Fixpoint partialLoop m (callValue returnValue : gmap Z (any V)) (i : Z) (partials : list (list Z))
    (largestSize largestIndex : gmap Z Z) : go (list (list linearizationStep) * gmap Z Z) :=
  match partials with
  | [] => Ret ([], largestIndex)
  | partial :: partials =>
      '(linearization, largestSize, largestIndex) ←
        stepLoop m callValue returnValue i (len partial) partial (Init m) largestSize largestIndex;
      '(linearizations, largestIndex) ←
        partialLoop m callValue returnValue (i + 1) partials largestSize largestIndex;
      Ret (linearization :: linearizations, largestIndex)
  end.

(** one partition *)
Definition visualizePartition m es (partials : list (list Z)) : go partitionVisualizationData :=
  let n := Z.quot (len es) 2 in
  '(history, callValue, returnValue) ←
    historyLoop es (replicate (Z.to_nat n) (mkHistoryElement 0 0 0 "")) ∅ ∅;
  '(linearizations, largestIndex) ←
    partialLoop m callValue returnValue 0 (sort_Slice partials) ∅ ∅;
  Ret (mkPartitionVisualizationData history linearizations largestIndex).

(** the partitions from number [partition] on *)
Fixpoint visualizeFrom m (partition : Z) (histories : list (list (entry V)))
    (partials : list (list (list Z))) : go (list partitionVisualizationData) :=
  match histories with
  | [] => Ret []
  | es :: histories =>
      ps ← idx partials partition;
      d ← visualizePartition m es ps;
      data ← visualizeFrom m (partition + 1) histories partials;
      Ret (d :: data)
  end.

Definition computeVisualizationData m (info : linearizationInfo V)
    : go (list partitionVisualizationData) :=
  visualizeFrom (fillDefault m) 0 (li_history info) (li_partialLinearizations info).

(** [Visualize]: [page] prints the data into the page, [write] says whether the writer
    took it *)
Definition Visualize (page : list partitionVisualizationData → string) (write : string → bool) m
    (info : linearizationInfo V) : go bool :=
  data ← computeVisualizationData m info;
  Ret (write (page data)).

(** [VisualizePath]: [create] says whether the file could be created *)
Definition VisualizePath (page : list partitionVisualizationData → string) (create : bool)
    (write : string → bool) m (info : linearizationInfo V) : go bool :=
  if create then Visualize page write m info else Ret false.
End visualization.

(** [KvModel.DescribeOperation] *)
Definition KvModel_DescribeOperation (input output : any KvValue) : go string :=
  match input, output with
  | Some (Inp inp), Some (Out out) =>
      Ret (if ki_Op inp =? 0 then "get('" +:+ ki_Key inp +:+ "') -> '" +:+ ko_Value out +:+ "'"
           else if ki_Op inp =? 1 then
             "put('" +:+ ki_Key inp +:+ "', '" +:+ ki_Value inp +:+ "')"
           else if ki_Op inp =? 2 then
             "append('" +:+ ki_Key inp +:+ "', '" +:+ ki_Value inp +:+ "')"
           else "<invalid>")
  | _, _ => Panic
  end.
