(* ===== verification/PorcVisualSpec.v ===== *)
(** * Package porcupine: what the visualization shows

    The data computed from the result of a check: no panic (the model can take every
    step of the linearizations the checker reports, also when the check was stopped by
    its timeout), every operation with its times, and for every operation the longest
    linearization that includes it. *)

From Stdlib Require Import Sorting.Sorted.
From S2P Require Import Prelude PorcBitset PorcChecker PorcList PorcSpec PorcSearch PorcOps PorcParallel PorcKv PorcVisual.

Section spec.
Context {V St : Type} `{!EqDecision St} `{!SortByTime V} `{SZ : !SortBySize}.
Context (DescribeOperation : any V → any V → go string) (DescribeState : St → string).
Implicit Types (m : Model V St) (es : list (entry V)).

Abbreviation historyLoop := (historyLoop DescribeOperation).
Abbreviation stepLoop := (stepLoop DescribeState).
Abbreviation partialLoop := (partialLoop DescribeState).

(** ** The history *)

(** describing the operations does not panic *)
Definition describable es : Prop :=
  ∀ e f, e ∈ es → f ∈ es → e_kind e = callKind → e_kind f = returnKind → e_id e = e_id f →
    ∃ s, DescribeOperation (e_value e) (e_value f) = Ret s.

(** [h] shows the operation of call [e] and return [f] *)
Definition shows (e f : entry V) (h : historyElement) : Prop :=
  he_ClientId h = e_clientId e ∧ he_Start h = e_time e ∧ he_End h = e_time f
  ∧ DescribeOperation (e_value e) (e_value f) = Ret (he_Description h).

(** what the loop has built when it has seen [pre] *)
Record seen (n : Z) (pre : list (entry V)) (hs : list historyElement)
    (cv rv : gmap Z (any V)) : Prop := {
  se_len : len hs = n;
  se_call : ∀ e, e ∈ pre → e_kind e = callKind → cv !! e_id e = Some (e_value e)
    ∧ ∃ h, hs !! Z.to_nat (e_id e) = Some h ∧ he_ClientId h = e_clientId e ∧ he_Start h = e_time e;
  se_return : ∀ f, f ∈ pre → e_kind f = returnKind → rv !! e_id f = Some (e_value f);
  se_shows : ∀ e f, e ∈ pre → f ∈ pre → e_kind e = callKind → e_kind f = returnKind →
    e_id e = e_id f → ∃ h, hs !! Z.to_nat (e_id e) = Some h ∧ shows e f h;
}.

(** the entries of an operation in a good history: nothing of it before its call, and
    its call before its return *)
Lemma before_entry es pre elem suf e :
  history_ok es → es = pre ++ elem :: suf → e ∈ pre → e_id e = e_id elem →
  e_kind e = callKind ∧ e_kind elem = returnKind.
Proof.
  intros Hok Hes [i Hi]%list_elem_of_lookup_1 Hid.
  assert (es !! List.length pre = Some elem) as Helem by (rewrite Hes; by apply list_lookup_middle).
  assert (es !! i = Some e) as He by (rewrite Hes; by apply lookup_app_l_Some).
  apply lookup_lt_Some in Hi.
  destruct (e_kind e) eqn:Ke, (e_kind elem) eqn:Kl; try done; exfalso.
  - assert (i = List.length pre) by (eapply (ho_unique _ Hok); [done..|congruence|done]). lia.
  - destruct (ho_call _ Hok i e He Ke) as (j & f & Hj & Hf & Kf & Hfid).
    assert (j = List.length pre) by (eapply (ho_unique _ Hok); [done..|congruence|congruence]). lia.
  - assert (i = List.length pre) by (eapply (ho_unique _ Hok); [done..|congruence|done]). lia.
Qed.

Lemma call_before es pre elem suf :
  history_ok es → es = pre ++ elem :: suf → e_kind elem = returnKind →
  ∃ e, e ∈ pre ∧ e_kind e = callKind ∧ e_id e = e_id elem.
Proof.
  intros Hok Hes Hk.
  destruct (ho_call _ Hok (List.length pre) elem) as (i & e & Hi & He & Ke & Hid);
    [rewrite Hes; by apply list_lookup_middle|done|].
  exists e. split_and!; try done. rewrite Hes, lookup_app_l in He by done.
  by eapply list_elem_of_lookup_2.
Qed.

Lemma other_slot {A} (l : list A) (a b : Z) x :
  0 ≤ a → 0 ≤ b → a ≠ b → <[Z.to_nat b := x]> l !! Z.to_nat a = l !! Z.to_nat a.
Proof. intros. apply list_lookup_insert_ne. lia. Qed.

Lemma seen_call es pre elem suf hs cv rv :
  history_ok es → es = pre ++ elem :: suf → e_kind elem = callKind →
  seen (Z.quot (len es) 2) pre hs cv rv →
  ∃ hs' cv', historyLoop (elem :: suf) hs cv rv = historyLoop suf hs' cv' rv
    ∧ seen (Z.quot (len es) 2) (pre ++ [elem]) hs' cv' rv.
Proof.
  intros Hok Hes Hk [S1 S2 S3 S4].
  assert (∀ e, e ∈ es → 0 ≤ e_id e < Z.quot (len es) 2) as Hid by apply (ho_id _ Hok).
  assert (elem ∈ es) as Hin by (rewrite Hes; apply elem_of_app; right; by left).
  assert (∀ e, e ∈ pre → 0 ≤ e_id e ∧ e_id e ≠ e_id elem) as Hpre.
  { intros e He. split; [apply Hid; rewrite Hes; apply elem_of_app; by left|].
    intros Heq. destruct (before_entry es pre elem suf e) as [_ ?]; congruence. }
  specialize (Hid _ Hin). rewrite <-S1 in Hid. destruct (idx_total hs (e_id elem)) as [h Hh]; [lia|].
  eexists _, _. split; [cbn [PorcVisual.historyLoop]; rewrite Hh; simpl; rewrite Hk, upd_Ret by lia; done|].
  set (h' := mkHistoryElement _ _ _ _).
  assert (∀ e, e ∈ pre ++ [elem] → e ∈ pre ∨ e = elem) as Hcase.
  { intros e [?|?%list_elem_of_singleton]%elem_of_app; auto. }
  split.
  - unfold len in *. by rewrite length_insert.
  - intros e [He| ->]%Hcase Ke.
    + destruct (Hpre e He). destruct (S2 e He Ke) as [? ?].
      rewrite lookup_insert_ne, other_slot by (done || lia). done.
    + rewrite lookup_insert_eq. split; [done|]. exists h'. split; [|done].
      apply list_lookup_insert_eq. unfold len in Hid. lia.
  - intros f [Hf| ->]%Hcase Kf; [by apply S3|congruence].
  - intros e f [He| ->]%Hcase [Hf| ->]%Hcase Ke Kf Hef; try congruence.
    + destruct (Hpre e He). rewrite other_slot by lia. by apply S4.
    + by destruct (Hpre f Hf) as [_ []].
Qed.

Lemma seen_return es pre elem suf hs cv rv :
  history_ok es → describable es → es = pre ++ elem :: suf → e_kind elem = returnKind →
  seen (Z.quot (len es) 2) pre hs cv rv →
  ∃ hs' rv', historyLoop (elem :: suf) hs cv rv = historyLoop suf hs' cv rv'
    ∧ seen (Z.quot (len es) 2) (pre ++ [elem]) hs' cv rv'.
Proof.
  intros Hok Hdesc Hes Hk [S1 S2 S3 S4].
  assert (∀ e, e ∈ es → 0 ≤ e_id e < Z.quot (len es) 2) as Hid by apply (ho_id _ Hok).
  assert (elem ∈ es) as Hin by (rewrite Hes; apply elem_of_app; right; by left).
  assert (∀ e, e ∈ pre → e ∈ es) as Hsub by (intros e He; rewrite Hes; apply elem_of_app; by left).
  destruct (call_before es pre elem suf Hok Hes Hk) as (c & Hc & Kc & Hcid).
  destruct (S2 c Hc Kc) as (Hcv & h & Hh & Hcl & Hst). destruct (Hdesc c elem) as [d Hd]; auto.
  pose proof (Hid _ Hin) as Hid'. rewrite <-S1 in Hid'. rewrite Hcid in Hcv, Hh.
  eexists _, _. split.
  { cbn [PorcVisual.historyLoop]. rewrite (proj2 (idx_Ret hs (e_id elem) h)) by (split; [lia|done]).
    simpl. unfold anyGet. rewrite Hk, Hcv. simpl. rewrite Hd. simpl. rewrite upd_Ret by lia. done. }
  set (h' := mkHistoryElement _ _ _ _).
  assert (∀ e, e ∈ pre ++ [elem] → e ∈ pre ∨ e = elem) as Hcase.
  { intros e [?|?%list_elem_of_singleton]%elem_of_app; auto. }
  assert (∀ e, e ∈ pre → e_kind e = callKind → e_id e = e_id elem → e = c) as Huniq.
  { intros e He Ke Heq. pose proof (Hsub e He) as [i Hi]%list_elem_of_lookup_1.
    pose proof (Hsub c Hc) as [j Hj]%list_elem_of_lookup_1.
    assert (i = j) as -> by (eapply (ho_unique _ Hok); [done..|congruence|congruence]). congruence. }
  assert (<[Z.to_nat (e_id elem) := h']> hs !! Z.to_nat (e_id elem) = Some h') as Hnew
    by (apply list_lookup_insert_eq; unfold len in Hid'; lia).
  split.
  - unfold len in *. by rewrite length_insert.
  - intros e [He| ->]%Hcase Ke; [|congruence]. destruct (S2 e He Ke) as [? (h1 & ? & ? & ?)].
    split; [done|]. destruct (decide (e_id e = e_id elem)) as [Heq|Hne].
    + rewrite Heq. exists h'. rewrite (Huniq e He Ke Heq). done.
    + pose proof (Hid e (Hsub e He)). rewrite other_slot by lia. eauto.
  - intros f [Hf| ->]%Hcase Kf; [|by rewrite lookup_insert_eq].
    rewrite lookup_insert_ne; [by apply S3|]. intros Heq.
    destruct (before_entry es pre elem suf f) as [? _]; congruence.
  - intros e f [He| ->]%Hcase [Hf| ->]%Hcase Ke Kf Hef; try congruence.
    + assert (e_id e ≠ e_id elem).
      { intros Heq. destruct (before_entry es pre elem suf f) as [? _]; congruence. }
      pose proof (Hid e (Hsub e He)). rewrite other_slot by lia. by apply S4.
    + rewrite (Huniq e He Ke Hef), Hcid. exists h'. split; [done|]. by split_and!.
Qed.

Lemma history_seen es :
  history_ok es → describable es →
  ∃ hs cv rv, historyLoop es (replicate (Z.to_nat (Z.quot (len es) 2)) (mkHistoryElement 0 0 0 "")) ∅ ∅
      = Ret (hs, cv, rv) ∧ seen (Z.quot (len es) 2) es hs cv rv.
Proof.
  intros Hok Hdesc.
  enough (∀ suf pre hs cv rv, es = pre ++ suf → seen (Z.quot (len es) 2) pre hs cv rv →
    ∃ hs' cv' rv', historyLoop suf hs cv rv = Ret (hs', cv', rv')
      ∧ seen (Z.quot (len es) 2) es hs' cv' rv') as Hgo.
  { apply (Hgo es []); [done|]. assert (0 ≤ Z.quot (len es) 2) by (apply Z.quot_pos; [apply len_nonneg|lia]).
    split; [unfold len at 1; rewrite length_replicate; lia|..];
      [by intros ? ?%elem_of_nil..|by intros ? ? ?%elem_of_nil]. }
  induction suf as [|elem suf IH]; intros pre hs cv rv Hes Hs.
  { rewrite app_nil_r in Hes. subst pre. simpl. eauto. }
  destruct (e_kind elem) eqn:Hk.
  - destruct (seen_call es pre elem suf hs cv rv) as (hs' & cv' & -> & Hs'); try done.
    apply (IH (pre ++ [elem])); [by rewrite <-app_assoc|done].
  - destruct (seen_return es pre elem suf hs cv rv) as (hs' & rv' & -> & Hs'); try done.
    apply (IH (pre ++ [elem])); [by rewrite <-app_assoc|done].
Qed.

(** the maps of values are those of the history *)
Lemma seen_values es n hs cv rv a :
  history_ok es → seen n es hs cv rv → a ∈ operations es →
  anyGet cv a = valueOf es callKind a ∧ anyGet rv a = valueOf es returnKind a.
Proof.
  intros Hok [_ S2 S3 _] (e & -> & [Ke He]%list_elem_of_filter)%list_elem_of_fmap.
  apply list_elem_of_lookup_1 in He as [i Hi].
  destruct (ho_return _ Hok i e Hi Ke) as (j & f & _ & Hj & Kf & Hid).
  unfold anyGet. split.
  - rewrite (proj1 (S2 e ltac:(by eapply list_elem_of_lookup_2) Ke)). simpl.
    by rewrite <-(valueOf_eq es Hok i e Hi), Ke.
  - rewrite <-Hid, (S3 f ltac:(by eapply list_elem_of_lookup_2) Kf). simpl.
    by rewrite <-(valueOf_eq es Hok j f Hj), Kf.
Qed.

(** ** The linearizations *)

(** the steps of [σ] from state [s] *)
Fixpoint drawSteps m es (s : St) (σ : list Z) : list linearizationStep :=
  match σ with
  | [] => []
  | a :: σ =>
      let s' := (stepOf m es s a).2 in
      mkLinearizationStep a (DescribeState s') :: drawSteps m es s' σ
  end.

(** [largestSize] and [largestIndex] after operation [a] of linearization [i] *)
Definition note (i size : Z) (p : gmap Z Z * gmap Z Z) (a : Z) : gmap Z Z * gmap Z Z :=
  if intGet p.1 a <? size then (<[a := size]> p.1, <[a := i]> p.2) else p.

Lemma stepLoop_ok m es cv rv i size σ : ∀ s ls li,
  (∀ a, a ∈ σ → anyGet cv a = valueOf es callKind a ∧ anyGet rv a = valueOf es returnKind a) →
  legal m es s σ →
  stepLoop m cv rv i size σ s ls li
  = Ret (drawSteps m es s σ, (foldl (note i size) (ls, li) σ).1, (foldl (note i size) (ls, li) σ).2).
Proof.
  induction σ as [|a σ IH]; intros s ls li Hv Hleg; simpl; [done|].
  destruct (Hv a) as [-> ->]; [by left|]. destruct Hleg as [Hok Hleg]. unfold stepOf in *.
  destruct (Step m s _ _) as [ok s']. simpl in *. subst ok.
  unfold note at 2 4. simpl.
  destruct (intGet ls a <? size); rewrite IH; try done; intros b Hb; apply Hv; by right.
Qed.

Lemma note_spec i size σ : ∀ ls li a,
  let r := foldl (note i size) (ls, li) σ in
  intGet r.1 a = (if decide (a ∈ σ) then Z.max (intGet ls a) size else intGet ls a)
  ∧ r.2 !! a = (if decide (a ∈ σ ∧ intGet ls a < size) then Some i else li !! a).
Proof.
  induction σ as [|b σ IH]; intros ls li a; cbn [foldl].
  { split; destruct (decide _) as [Hd|]; try done; [|destruct Hd as [Hd _]]; by apply elem_of_nil in Hd. }
  assert (a ∈ b :: σ ↔ a = b ∨ a ∈ σ) as Hcons by apply elem_of_cons.
  unfold note at 2 4. cbn [fst snd]. destruct (Z.ltb_spec (intGet ls b) size) as [Hlt|Hge].
  - destruct (IH (<[b := size]> ls) (<[b := i]> li) a) as [-> ->].
    destruct (decide (a = b)) as [->|Hne].
    + assert (intGet (<[b := size]> ls) b = size) as ->
        by (unfold intGet; by rewrite lookup_insert_eq).
      rewrite lookup_insert_eq. split; repeat case_decide; try done; try lia; naive_solver lia.
    + assert (intGet (<[b := size]> ls) a = intGet ls a) as ->
        by (unfold intGet; by rewrite lookup_insert_ne).
      rewrite lookup_insert_ne by done. split; repeat case_decide; try done; naive_solver.
  - destruct (IH ls li a) as [-> ->].
    split; repeat case_decide; try done; try lia; naive_solver lia.
Qed.

(** [ls] and [li] after the first [k] linearizations of [ps] *)
Record largest_ok (ps : list (list Z)) (k : nat) (ls li : gmap Z Z) : Prop := {
  lo_max : ∀ a j σ, (j < k)%nat → ps !! j = Some σ → a ∈ σ → len σ ≤ intGet ls a;
  lo_index : ∀ a, (intGet ls a = 0 ∧ li !! a = None)
    ∨ ∃ j σ, (j < k)%nat ∧ ps !! j = Some σ ∧ a ∈ σ ∧ li !! a = Some (Z.of_nat j)
             ∧ intGet ls a = len σ;
}.

Lemma largest_next ps k ls li σ :
  ps !! k = Some σ → largest_ok ps k ls li →
  let r := foldl (note (Z.of_nat k) (len σ)) (ls, li) σ in largest_ok ps (S k) r.1 r.2.
Proof.
  intros Hk [L1 L2]. cbn zeta.
  pose proof (λ a, note_spec (Z.of_nat k) (len σ) σ ls li a) as Hn. cbn zeta in Hn.
  generalize dependent (foldl (note (Z.of_nat k) (len σ)) (ls, li) σ). intros [ls' li'] Hn. simpl in *.
  split.
  - intros a j τ Hj Hτ Ha. rewrite (proj1 (Hn a)).
    destruct (decide (j = k)) as [->|Hne].
    + simplify_eq. rewrite decide_True by done. lia.
    + specialize (L1 a j τ ltac:(lia) Hτ Ha). case_decide; lia.
  - intros a. destruct (Hn a) as [-> ->].
    destruct (decide (a ∈ σ)) as [Ha|Ha].
    + assert (0 < len σ) by (destruct σ; [by apply elem_of_nil in Ha|unfold len; simpl; lia]).
      destruct (decide (intGet ls a < len σ)) as [Hlt|Hge].
      * rewrite decide_True by done. right. exists k, σ. split_and!; [lia|done..|lia].
      * rewrite decide_False by tauto.
        destruct (L2 a) as [[? ?]|(j & τ & ? & ? & ? & ? & ?)]; [lia|].
        right. exists j, τ. split_and!; [lia|done..|lia].
    + rewrite decide_False by tauto.
      destruct (L2 a) as [?|(j & τ & ? & ? & ? & ? & ?)]; [by left|].
      right. exists j, τ. split_and!; [lia|done..].
Qed.

Lemma partialLoop_ok m es cv rv ps :
  (∀ σ, σ ∈ ps → legal m es (Init m) σ
     ∧ ∀ a, a ∈ σ → anyGet cv a = valueOf es callKind a ∧ anyGet rv a = valueOf es returnKind a) →
  ∃ ls li, partialLoop m cv rv 0 ps ∅ ∅ = Ret (drawSteps m es (Init m) <$> ps, li)
    ∧ largest_ok ps (List.length ps) ls li.
Proof.
  intros Hps.
  enough (∀ rest pre ls li, ps = pre ++ rest → largest_ok ps (List.length pre) ls li →
    ∃ ls' li', partialLoop m cv rv (Z.of_nat (List.length pre)) rest ls li
        = Ret (drawSteps m es (Init m) <$> rest, li')
      ∧ largest_ok ps (List.length ps) ls' li') as Hgo.
  { apply (Hgo ps [] ∅ ∅ eq_refl). split; [intros; simpl in *; lia|]. intros a. left. done. }
  induction rest as [|σ rest IH]; intros pre ls li Hpre Hl.
  { rewrite app_nil_r in Hpre. subst. exists ls, li. done. }
  assert (ps !! List.length pre = Some σ) as Hk by (rewrite Hpre; by apply list_lookup_middle).
  destruct (Hps σ) as [Hleg Hv]; [by eapply list_elem_of_lookup_2|].
  cbn [PorcVisual.partialLoop]. rewrite (stepLoop_ok m es) by done. simpl.
  pose proof (largest_next _ _ _ _ _ Hk Hl) as Hl'. simpl in Hl'.
  destruct (IH (pre ++ [σ]) _ _ ltac:(by rewrite <-app_assoc)
    ltac:(rewrite length_app, Nat.add_1_r; exact Hl')) as (ls' & li' & E & ?).
  rewrite length_app, Nat2Z.inj_add in E. change (Z.of_nat (List.length [σ])) with 1 in E.
  rewrite E. simpl. eauto.
Qed.

(** ** A partition *)

(** [d] shows the history [es] with the linearizations [ps] *)
Record drawn m es (ps : list (list Z)) (d : partitionVisualizationData) : Prop := {
  dr_length : len (History d) = Z.quot (len es) 2;
  dr_history : ∀ e f, e ∈ es → f ∈ es → e_kind e = callKind → e_kind f = returnKind →
    e_id e = e_id f → ∃ h, History d !! Z.to_nat (e_id e) = Some h ∧ shows e f h;
  dr_partials : ∃ ps', ps' ≡ₚ ps ∧ StronglySorted (λ a b : list Z, len b ≤ len a) ps'
    ∧ PartialLinearizations d = drawSteps m es (Init m) <$> ps'
    (* the longest linearization with an operation *)
    ∧ (∀ a i, Largest d !! a = Some i → ∃ σ, 0 ≤ i ∧ ps' !! Z.to_nat i = Some σ ∧ a ∈ σ
         ∧ ∀ τ, τ ∈ ps → a ∈ τ → len τ ≤ len σ)
    ∧ (∀ a σ, σ ∈ ps → a ∈ σ → is_Some (Largest d !! a));
}.

Lemma visualizePartition_ok m es ps :
  history_ok es → describable es →
  (∀ σ, σ ∈ ps → legal m es (Init m) σ ∧ ∀ a, a ∈ σ → a ∈ operations es) →
  ∃ d, visualizePartition DescribeOperation DescribeState m es ps = Ret d ∧ drawn m es ps d.
Proof.
  intros Hok Hdesc Hps. destruct (history_seen es Hok Hdesc) as (hs & cv & rv & E & Hs).
  pose proof (sort_Slice_perm ps) as Hperm.
  destruct (partialLoop_ok m es cv rv (sort_Slice ps)) as (ls & li & E' & [L1 L2]).
  { intros σ Hσ. rewrite Hperm in Hσ. destruct (Hps σ Hσ) as [? Hops]. split; [done|].
    intros a Ha. by eapply seen_values; [done|exact Hs|apply Hops]. }
  eexists. split; [unfold visualizePartition; rewrite E; simpl; by rewrite E'|].
  split; simpl; [apply Hs|apply Hs|]. exists (sort_Slice ps).
  split_and!; [done|apply sort_Slice_sorted|done|..].
  - intros a i Hi. destruct (L2 a) as [[_ ?]|(j & σ & Hj & Hσ & Ha & Hli & Hls)]; [congruence|].
    rewrite Hli in Hi. injection Hi as <-. exists σ. rewrite Nat2Z.id. split_and!; [lia|done|done|].
    intros τ Hτ Haτ. rewrite <-Hperm in Hτ. apply list_elem_of_lookup_1 in Hτ as [j' Hj'].
    rewrite <-Hls. eapply L1; [|done|done]. by eapply lookup_lt_Some.
  - intros a σ Hσ Ha. rewrite <-Hperm in Hσ. apply list_elem_of_lookup_1 in Hσ as [j Hj].
    assert (0 < len σ) by (destruct σ; [by apply elem_of_nil in Ha|unfold len; simpl; lia]).
    pose proof (L1 a j σ (lookup_lt_Some _ _ _ Hj) Hj Ha).
    destruct (L2 a) as [[? _]|(? & ? & _ & _ & _ & -> & _)]; [lia|eauto].
Qed.

(** ** The whole result of a check *)

Lemma visualizeFrom_ok m ps : ∀ hists k,
  (∀ i es, hists !! i = Some es → history_ok es ∧ describable es
     ∧ ∃ p, ps !! (k + i)%nat = Some p
       ∧ ∀ σ, σ ∈ p → legal m es (Init m) σ ∧ ∀ a, a ∈ σ → a ∈ operations es) →
  ∃ data, visualizeFrom DescribeOperation DescribeState m (Z.of_nat k) hists ps = Ret data
    ∧ List.length data = List.length hists
    ∧ ∀ i es, hists !! i = Some es → ∃ p d, ps !! (k + i)%nat = Some p
        ∧ data !! i = Some d ∧ drawn m es p d.
Proof.
  induction hists as [|es hists IH]; intros k Hall; cbn [visualizeFrom]; [by exists []|].
  destruct (Hall 0%nat es eq_refl) as (Hok & Hdesc & p & Hp & Hleg). rewrite Nat.add_0_r in Hp.
  rewrite (proj2 (idx_Ret ps (Z.of_nat k) p)) by (by rewrite Nat2Z.id; split; [lia|]). simpl.
  destruct (visualizePartition_ok m es p Hok Hdesc Hleg) as (d & -> & Hd). simpl.
  destruct (IH (S k)) as (data & E & Hlen & Hdata).
  { intros i es' Hi. destruct (Hall (S i) es' Hi) as (? & ? & ?).
    by rewrite Nat.add_succ_r in *. }
  replace (Z.of_nat k + 1) with (Z.of_nat (S k)) by lia. rewrite E. simpl.
  exists (d :: data). split_and!; [done|simpl; by rewrite Hlen|].
  intros [|i] es' Hi; simpl in *.
  - simplify_eq. exists p, d. by rewrite Nat.add_0_r.
  - rewrite Nat.add_succ_r. by apply Hdata.
Qed.

Lemma allPartials_lookup run js ps i j :
  allPartials run js = Ret ps → js !! i = Some j →
  ∃ r, run j = Ret r ∧ ps !! i = Some (partials r.2).
Proof.
  revert ps i. induction js as [|j' js IH]; intros ps i H Hi; [done|]. simpl in H.
  go_step H. go_step H. injection H as <-. destruct i as [|i]; simpl in *.
  - simplify_eq. eauto.
  - by apply IH.
Qed.

Lemma elem_partials lg sq σ : σ ∈ partials (lg, sq) → ∃ i p, lg !! i = Some (Some p) ∧ sq !! p = Some σ.
Proof.
  unfold partials. intros (p & Hp & Hσ)%list_elem_of_omap. simpl in *.
  apply elem_of_remove_dups, list_elem_of_omap in Hp as (q & Hq & Hqp).
  apply list_elem_of_lookup_1 in Hq as [i Hi]. simpl in Hqp. subst q. eauto.
Qed.

Lemma legal_fill m es s σ : legal (fillDefault m) es s σ ↔ legal m es s σ.
Proof. revert s. induction σ as [|a σ IH]; intros s; [done|]. simpl. by rewrite IH. Qed.

Lemma drawSteps_fill m es s σ : drawSteps (fillDefault m) es s σ = drawSteps m es s σ.
Proof. revert s. induction σ as [|a σ IH]; intros s; [done|]. simpl. by rewrite IH. Qed.

(** [d] shows the operations of [part] and the linearizations [ps], which the model can
    execute *)
Record drawnOps m (part : list (Operation V)) (ps : list (list Z)) (d : partitionVisualizationData)
    : Prop := {
  do_length : len (History d) = len part;
  do_history : ∀ i o, part !! i = Some o → ∃ s,
    DescribeOperation (op_Input o) (op_Output o) = Ret s
    ∧ History d !! i = Some (mkHistoryElement (op_ClientId o) (op_Call o) (op_Return o) s);
  do_legal : Forall (legal m (makeEntries part) (Init m)) ps;
  do_partials : ∃ ps', ps' ≡ₚ ps ∧ StronglySorted (λ a b : list Z, len b ≤ len a) ps'
    ∧ PartialLinearizations d = drawSteps m (makeEntries part) (Init m) <$> ps'
    ∧ (∀ a i, Largest d !! a = Some i → ∃ σ, 0 ≤ i ∧ ps' !! Z.to_nat i = Some σ ∧ a ∈ σ
         ∧ ∀ τ, τ ∈ ps → a ∈ τ → len τ ≤ len σ)
    ∧ (∀ a σ, σ ∈ ps → a ∈ σ → is_Some (Largest d !! a));
}.

Lemma drawn_ops m part ps d :
  Forall (legal m (makeEntries part) (Init m)) ps →
  drawn (fillDefault m) (makeEntries part) ps d → drawnOps m part ps d.
Proof.
  intros Hleg [D1 D2 D3]. split; [| |done|].
  - rewrite D1, entries_length, Z.mul_comm, Z.quot_mul by lia. done.
  - intros i o Ho. destruct (D2 (callOf i o) (returnOf i o)) as ([c st en ds] & Hh & H1 & H2 & H3 & H4);
      try done; [by apply elem_entries; eauto..|].
    simpl in *. rewrite Nat2Z.id in Hh. subst. eauto.
  - destruct D3 as (ps' & ? & ? & Hd & ? & ?). exists ps'. split_and!; try done.
    rewrite Hd. apply list_fmap_ext. intros. apply drawSteps_fill.
Qed.

(** C22: The page for a check can always be drawn: whatever order the results and the
    timeout of [checkOperations] came in, and wherever the timeout stopped a search, the
    data for the page is computed without a panic ("valid partial linearization returned
    non-ok result from model step" does not happen), one part per partition.  It shows
    every operation with its client, its times and its description, the reported
    linearizations, longest first, each with the model's states along it; and for every
    operation in one of them a longest one with it. *)
Theorem visualization_of_check m ops timeout fuel kills evs res info :
  equal_ok (fillDefault m) →
  (∀ part, part ∈ partitionsOf m ops → timed part) →
  (∀ part o, part ∈ partitionsOf m ops → o ∈ part →
     ∃ s, DescribeOperation (op_Input o) (op_Output o) = Ret s) →
  checkOperations m ops true timeout fuel kills evs = Ret (res, info) →
  ∃ data, computeVisualizationData DescribeOperation DescribeState m info = Ret data
    ∧ List.length data = List.length (partitionsOf m ops)
    ∧ ∀ i part, partitionsOf m ops !! i = Some part →
        ∃ ps d, li_partialLinearizations info !! i = Some ps ∧ data !! i = Some d
          ∧ drawnOps m part ps d.
Proof.
  intros Heq Ht Hdesc H. rewrite checkOperations_eq in H.
  set (parts := partitionsOf m ops) in *. unfold checkParallel in H. cbv zeta in H.
  go_step H. destruct a as [[ok timedOut] c]. go_step H. injection H as _ <-.
  cbn iota in E0. go_step E0. injection E0 as <-. rename a0 into pss.
  unfold computeVisualizationData. simpl.
  assert (∀ i part, parts !! i = Some part → ∃ ps, pss !! i = Some ps
    ∧ ∀ σ, σ ∈ ps → legal (fillDefault m) (makeEntries part) (Init m) σ
        ∧ ∀ a, a ∈ σ → a ∈ operations (makeEntries part)) as Hps.
  { intros i part Hi.
    assert (seq 0 (List.length (makeEntries <$> parts)) !! i = Some i) as Hseq.
    { apply lookup_seq. rewrite length_fmap. split; [done|by eapply lookup_lt_Some]. }
    destruct (allPartials_lookup _ _ _ _ _ E1 Hseq) as ([b [lg sq]] & Er & Hps).
    rewrite (proj2 (idx_Ret _ _ (makeEntries part))) in Er
      by (split; [lia|]; by rewrite Nat2Z.id, list_lookup_fmap, Hi).
    exists (partials (lg, sq)). split; [done|].
    intros σ (k & p & Hk & Hp)%elem_partials.
    destruct (checkSingle_partials _ _ _ _ _ _ _ _
      (makeEntries_ok part (Ht part ltac:(by eapply list_elem_of_lookup_2))) Heq Er k p Hk)
      as (σ' & Hσ' & ? & ?).
    rewrite Hp in Hσ'. by simplify_eq. }
  destruct (visualizeFrom_ok (fillDefault m) pss (makeEntries <$> parts) 0) as (data & E' & Hlen & Hdata).
  { intros i es Hi. rewrite list_lookup_fmap in Hi. apply fmap_Some in Hi as (part & Hi & ->).
    assert (part ∈ parts) as Hin by (by eapply list_elem_of_lookup_2).
    split_and!; [by apply makeEntries_ok, Ht| |by apply Hps].
    intros e f (k & o & Ho & [-> | ->])%elem_entries (k' & o' & Ho' & [-> | ->])%elem_entries; try done.
    intros _ _ Hid. simpl in Hid. assert (k = k') as <- by lia. rewrite Ho in Ho'.
    injection Ho' as <-. simpl. eapply Hdesc; [done|]. by eapply list_elem_of_lookup_2. }
  exists data. split_and!; [done|by rewrite Hlen, length_fmap|].
  intros i part Hi. destruct (Hdata i (makeEntries part)) as (ps & d & Hp & Hd & Hdr);
    [by rewrite list_lookup_fmap, Hi|].
  exists ps, d. split_and!; [done|done|]. apply drawn_ops; [|done]. apply Forall_forall.
  intros σ Hσ. destruct (Hps i part Hi) as (ps1 & Hp1 & Hleg). simpl in Hp. rewrite Hp in Hp1.
  injection Hp1 as <-. apply legal_fill. by apply Hleg.
Qed.
End spec.
