(* ===== verification/PorcWitness.v ===== *)
(** * Package porcupine: examples

    A put and a get of one key that overlap, a get of another key, and a get that
    returned before the put was called but has seen its value. *)

From stdpp Require Import sorting.
From S2P Require Import Prelude PorcBitset PorcChecker PorcList PorcSpec PorcSearch PorcOps PorcParallel PorcKv PorcEvents PorcVisual PorcVisualSpec.

(** ** A sorting routine *)

Definition timeLe {V} (a b : entry V) : Prop := e_time a ≤ e_time b.

#[export] Instance timeLe_dec {V} (a b : entry V) : Decision (timeLe a b).
Proof. unfold timeLe. apply _. Defined.

#[export] Instance timeLe_total {V} : Total (@timeLe V).
Proof. intros a b. unfold timeLe. lia. Qed.

#[export] Instance timeLe_trans {V} : Transitive (@timeLe V).
Proof. intros a b c. unfold timeLe. lia. Qed.

#[export] Instance sortByTime_merge {V} : SortByTime V := {|
  sortByTime := merge_sort timeLe;
  sortByTime_perm l := merge_sort_Permutation timeLe l;
  sortByTime_sorted l := StronglySorted_merge_sort timeLe l;
|}.

Definition sizeLe (a b : list Z) : Prop := len b ≤ len a.

#[export] Instance sizeLe_dec a b : Decision (sizeLe a b).
Proof. unfold sizeLe. apply _. Defined.

#[export] Instance sizeLe_total : Total sizeLe.
Proof. intros a b. unfold sizeLe. lia. Qed.

#[export] Instance sizeLe_trans : Transitive sizeLe.
Proof. intros a b c. unfold sizeLe. lia. Qed.

#[export] Instance sortBySize_merge : SortBySize := {|
  sort_Slice := merge_sort sizeLe;
  sort_Slice_perm l := merge_sort_Permutation sizeLe l;
  sort_Slice_sorted l := StronglySorted_merge_sort sizeLe l;
|}.

(** ** Histories *)

Definition putOp (c : Z) (k v : string) (t t' : Z) : KvOperation :=
  mkOperation c (Some (Inp (mkKvInput 1 k v))) t (Some (Out (mkKvOutput EmptyString))) t'.
Definition getOp (c : Z) (k v : string) (t t' : Z) : KvOperation :=
  mkOperation c (Some (Inp (mkKvInput 0 k EmptyString))) t (Some (Out (mkKvOutput v))) t'.

Definition goodHistory : list KvOperation :=
  [putOp 0 "x" "1" 1 5; getOp 1 "x" "1" 2 4; getOp 2 "y" EmptyString 3 6].
Definition badHistory : list KvOperation :=
  [getOp 1 "x" "1" 1 2; putOp 0 "x" "1" 3 4].

Definition overlap : list (entry KvValue) :=
  makeEntries [putOp 0 "x" "1" 1 5; getOp 1 "x" "1" 2 4].
Definition backwards : list (entry KvValue) := makeEntries badHistory.

(** the answers, computed *)
Example check_good :
  CheckOperations KvModel goodHistory 1000 (λ _ _, false) [GotResult 1; GotResult 0] = Ret true.
Proof. vm_compute. reflexivity. Qed.

Example check_bad :
  CheckOperations KvModel badHistory 1000 (λ _ _, false) [GotResult 0] = Ret false.
Proof. vm_compute. reflexivity. Qed.

(** ** The hypotheses at these histories *)

Ltac elems :=
  unfold goodHistory, badHistory in *;
  repeat match goal with
  | H : _ ∈ [] |- _ => by apply elem_of_nil in H
  | H : _ ∈ _ :: _ |- _ => apply elem_of_cons in H as [->|H]
  end.

Lemma overlap_ok : history_ok overlap.
Proof. apply makeEntries_ok. intros o Ho. elems; simpl; lia. Defined.

Lemma good_timed : timed goodHistory.
Proof. intros o Ho. elems; simpl; lia. Defined.

Lemma good_typed : kvTyped goodHistory.
Proof. intros o Ho. elems; by eexists _, _. Defined.

Lemma good_ties : noTies goodHistory.
Proof. intros o o' Ho Ho'. elems; simpl; lia. Defined.

Lemma bad_timed : timed badHistory.
Proof. intros o Ho. elems; simpl; lia. Defined.

Lemma backwards_ok : history_ok backwards.
Proof. apply makeEntries_ok, bad_timed. Defined.

Lemma kv_equal_ok : equal_ok (fillDefault KvModel).
Proof. by apply shallow_equal_ok. Defined.

Lemma good_parts :
  KvModel_Partition goodHistory
  = [[putOp 0 "x" "1" 1 5; getOp 1 "x" "1" 2 4]; [getOp 2 "y" EmptyString 3 6]].
Proof. vm_compute. reflexivity. Defined.

Lemma good_fuel :
  Forall (λ part, turns (makeEntries part) ≤ turns overlap)%nat (KvModel_Partition goodHistory).
Proof.
  rewrite good_parts. apply Forall_cons. split; [reflexivity|]. apply Forall_singleton.
  apply Z2Nat.inj_le; vm_compute; congruence.
Defined.

Lemma good_checkable : checkable KvModel (turns overlap) (partitionsOf KvModel goodHistory).
Proof.
  split; [apply kv_equal_ok|]. intros part Hp. split.
  - intros v Hv. apply good_timed. by eapply Partition_elem.
  - pose proof good_fuel as H. rewrite Forall_forall in H. by apply H.
Defined.

(** ** The theorems at these histories *)

Lemma checkSingle_decides_witness :
  ∃ b r, checkSingle (fillDefault KvModel) backwards true (λ _, false) (turns backwards) = Ret (b, r)
    ∧ (b = true ↔ linearizable (fillDefault KvModel) backwards).
Proof.
  apply (checkSingle_decides (fillDefault KvModel) backwards true);
    [exact backwards_ok|exact kv_equal_ok|reflexivity].
Defined.

Lemma checkSingle_reports_witness :
  ∃ σ, [[0; 1]] !! 0%nat = Some σ ∧ (true = true → linearization (fillDefault KvModel) overlap σ)
    ∧ (true = false → partial (fillDefault KvModel) overlap σ ∧ 0 ∈ σ).
Proof.
  apply (checkSingle_reports (fillDefault KvModel) overlap true (turns overlap) true
    [Some 0%nat; Some 0%nat] [[0; 1]] 0 0);
    [exact overlap_ok|exact kv_equal_ok|reflexivity|vm_compute; reflexivity|reflexivity].
Defined.

Lemma CheckOperations_decides_witness :
  ∃ b, CheckOperations KvModel goodHistory (turns overlap) (λ _ _, false)
         (GotResult <$> [1%nat; 0%nat]) = Ret b
    ∧ (b = true → Forall (linearizableOps KvModel) (partitionsOf KvModel goodHistory))
    ∧ (Forall noTies (partitionsOf KvModel goodHistory) →
       Forall (linearizableOps KvModel) (partitionsOf KvModel goodHistory) → b = true).
Proof.
  apply (CheckOperations_decides KvModel goodHistory (turns overlap) (λ _ _, false) [1%nat; 0%nat]).
  - exact good_checkable.
  - vm_compute. discriminate.
  - apply Permutation_swap.
  - reflexivity.
Defined.

Lemma fair_two evs :
  evs = [GotResult 1; GotResult 0; GotTimeout] ∨ evs = [GotResult 1; GotTimeout; GotResult 0] →
  fairly 2 (λ _ _, false) evs.
Proof.
  intros Hevs. split.
  - destruct Hevs as [->| ->]; rewrite !NoDup_cons, !elem_of_cons, !elem_of_nil;
      split_and!; try apply NoDup_nil_2; naive_solver.
  - intros i Hi. split; [|reflexivity].
    destruct Hevs as [->| ->]; rewrite !elem_of_cons, elem_of_nil in Hi; naive_solver lia.
Qed.

Lemma bad_checkable : checkable KvModel (turns backwards) (partitionsOf KvModel badHistory).
Proof.
  split; [apply kv_equal_ok|]. intros part Hp. split.
  - intros v Hv. apply bad_timed. by eapply Partition_elem.
  - apply list_elem_of_singleton in Hp as ->. reflexivity.
Qed.

(** Ok, Illegal and Unknown are all answered *)
Lemma CheckOperationsTimeout_sound_witness :
  Forall (linearizableOps KvModel) (partitionsOf KvModel goodHistory)
  ∧ ¬ Forall (linearizableOps KvModel) (partitionsOf KvModel badHistory)
  ∧ GotTimeout ∈ [GotResult 1; GotTimeout; GotResult 0].
Proof.
  split; [|split].
  - refine (proj1 (CheckOperationsTimeout_sound KvModel goodHistory 10 (turns overlap)
      (λ _ _, false) [GotResult 1; GotResult 0; GotTimeout] Ok good_checkable _ _) eq_refl).
    + apply (fair_two [GotResult 1; GotResult 0; GotTimeout]). by left.
    + vm_compute. reflexivity.
  - refine (proj1 (proj2 (CheckOperationsTimeout_sound KvModel badHistory 10 (turns backwards)
      (λ _ _, false) [GotResult 0; GotTimeout] Illegal bad_checkable _ _)) eq_refl _).
    + split; [rewrite !NoDup_cons, !elem_of_cons, !elem_of_nil; split_and!; try apply NoDup_nil_2;
        naive_solver|].
      intros i Hi. split; [|reflexivity]. rewrite !elem_of_cons, elem_of_nil in Hi.
      replace (List.length _) with 1%nat by (vm_compute; reflexivity). naive_solver lia.
    + vm_compute. reflexivity.
    + replace (partitionsOf KvModel badHistory) with [badHistory] by (vm_compute; reflexivity).
      apply Forall_singleton. intros o o' Ho Ho'. elems; simpl; lia.
  - refine (proj2 (proj2 (proj2 (CheckOperationsTimeout_sound KvModel goodHistory 10
      (turns overlap) (λ _ _, false) [GotResult 1; GotTimeout; GotResult 0] Unknown
      good_checkable _ _)) eq_refl)).
    + apply (fair_two [GotResult 1; GotTimeout; GotResult 0]). by right.
    + vm_compute. reflexivity.
Defined.

Lemma kv_partition_local_witness :
  linearizableOps StoreModel goodHistory ↔
  Forall (linearizableOps KvModel) (KvModel_Partition goodHistory).
Proof. apply (kv_partition_local goodHistory good_typed good_timed). Defined.

(** the empty history blocks, [goodHistory] does not *)
Lemma empty_history_blocks_witness :
  CheckOperations KvModel [] 1000 (λ _ _, false) [] = Block
  ∧ CheckOperations KvModel goodHistory (turns overlap) (λ _ _, false)
      (GotResult <$> [1%nat; 0%nat]) ≠ Block.
Proof.
  split.
  - refine (proj2 (proj1 (empty_history_blocks [] 1000 (λ _ _, false) [] _ _ _ _ _)) eq_refl).
    + by intros o ?%elem_of_nil.
    + by intros o ?%elem_of_nil.
    + constructor.
    + constructor.
    + reflexivity.
  - intros E. assert (goodHistory = []) as H; [|discriminate H].
    refine (proj1 (proj1 (empty_history_blocks goodHistory (turns overlap) (λ _ _, false)
      [1%nat; 0%nat] good_typed good_timed good_fuel _ _)) E).
    + apply Permutation_swap.
    + reflexivity.
Defined.

Lemma kv_check_exact_witness :
  ∃ b, CheckOperations KvModel goodHistory (turns overlap) (λ _ _, false)
         (GotResult <$> [1%nat; 0%nat]) = Ret b
    ∧ (b = true ↔ linearizableOps StoreModel goodHistory).
Proof.
  apply (kv_check_exact goodHistory (turns overlap) (λ _ _, false) [1%nat; 0%nat]).
  - exact good_typed.
  - exact good_timed.
  - exact good_ties.
  - discriminate.
  - exact good_fuel.
  - apply Permutation_swap.
  - reflexivity.
Defined.

(** two clients, ids 7 and 3 *)
Definition someEvents : list (Event KvValue) :=
  [mkEvent 0 callKind None 7; mkEvent 1 callKind None 3;
   mkEvent 1 returnKind None 3; mkEvent 0 returnKind None 7].

Lemma converted_ok_witness : history_ok (convertEntries (renumber someEvents)).
Proof.
  apply (converted_ok someEvents). split.
  - intros [|[|[|[|i]]]] [|[|[|[|j]]]] v w Hv Hw Hk Hid; simplify_eq/=; reflexivity.
  - intros [|[|[|[|i]]]] v Hv Hk; simplify_eq/=;
      [exists 3%nat|exists 2%nat]; eexists; split_and!; try reflexivity; lia.
  - intros [|[|[|[|i]]]] v Hv Hk; simplify_eq/=;
      [exists 1%nat|exists 0%nat]; eexists; split_and!; try reflexivity; lia.
Defined.

(** ** The page *)

(** the search of [badHistory] is stopped after five turns *)
Definition stoppedCheck : go (CheckResult * linearizationInfo KvValue) :=
  checkOperations KvModel (badHistory ++ goodHistory) true 10 1000
    (λ i k, Nat.leb 5 k) [GotResult 1; GotTimeout].

Definition stoppedInfo : linearizationInfo KvValue :=
  match stoppedCheck with Ret (_, info) => info | _ => mkInfo [] [] end.

Lemma all_timed : timed (badHistory ++ goodHistory).
Proof.
  intros o [Ho|Ho]%elem_of_app; [by apply bad_timed|by apply good_timed].
Defined.

Lemma visualization_of_check_witness :
  ∃ data, computeVisualizationData KvModel_DescribeOperation id KvModel stoppedInfo = Ret data
    ∧ List.length data = List.length (partitionsOf KvModel (badHistory ++ goodHistory))
    ∧ ∀ i part, partitionsOf KvModel (badHistory ++ goodHistory) !! i = Some part →
        ∃ ps d, li_partialLinearizations stoppedInfo !! i = Some ps ∧ data !! i = Some d
          ∧ drawnOps KvModel_DescribeOperation id KvModel part ps d.
Proof.
  apply (visualization_of_check KvModel_DescribeOperation id KvModel (badHistory ++ goodHistory)
           10 1000 (λ i k, Nat.leb 5 k) [GotResult 1; GotTimeout] Unknown).
  - exact kv_equal_ok.
  - intros part Hp v Hv. apply all_timed. by eapply Partition_elem.
  - intros part o Hp Ho. pose proof (Partition_elem _ _ _ Hp Ho) as Hin.
    apply elem_of_app in Hin as [Hin|Hin]; elems; by eexists.
  - vm_compute. reflexivity.
Defined.

Example stopped_page :
  ∃ d1 d2, computeVisualizationData KvModel_DescribeOperation id KvModel stoppedInfo = Ret [d1; d2]
    ∧ he_Description <$> History d1
      = ["get('x') -> '1'"; "put('x', '1')"; "put('x', '1')"; "get('x') -> '1'"]
    ∧ Largest d2 = {[0 := 0]}.
Proof. eexists _, _. split; [vm_compute; reflexivity|]. split; vm_compute; reflexivity. Qed.
