(* ===== verification/HarnessKV.v ===== *)
(** * The test harness of package kvraft

    [kvraft/config.go]: a network, the servers of a cluster with the ends through which
    they call each other, and the operations by which the tests disconnect, partition,
    stop and restart them.  End names are strings and server names are integers.  A
    [*raft.Persister] is a position in a store of persisters: an old instance of a server
    still holds the one it was started with.  [randstring] and the shuffles are arguments;
    time and printing are left out. *)

From S2P Require Import Prelude Gob Labgob Labrpc Raft KVServer.

(** the names of the network: of an end, of a server *)
Abbreviation netName := (string + Z)%type.

(** ** The servers of the tests

    What the harness does with a server: start it on a persister, kill it, ask for its
    term and whether it leads; and what the server has in its persister. *)
Class TestServer (I : Type) := {
  ts_start : Z → Z → Persister → go I; (* number of servers, own number *)
  ts_kill : I → I;
  ts_state : I → Z * bool;
  ts_persister : I → Persister;
}.

#[export] Instance kvTestServer `{!GobCodec Z} `{!GobCodec (list (LogEntry nat))}
    `{!GobCodec (gmap string string)} `{!GobCodec (gmap Z Z)} (maxraft : Z)
    : TestServer (KVServer (Raft nat)) := {|
  ts_start n i ps := StartKVServer n i ps maxraft;
  ts_kill := kv_Kill;
  ts_state kv := GetState (kv_rf kv);
  ts_persister kv := persister (kv_rf kv);
|}.

(** ** Connections *)

Abbreviation endTable := (list (option (list string))).

Section connections.
Implicit Types (en : endTable) (rn : Network netName) (i j : Z) (to from : list Z).

(** [cfg.endnames[i][j]]; indexing a nil slice panics *)
Definition endnameAt en i j : go string :=
  row ← idx en i;
  match row with
  | Some row => idx row j
  | None => Panic
  end.

(** the first and the second loop of [connectUnlocked] *)
Fixpoint connectOut en i to rn : go (Network netName) :=
  match to with
  | [] => Ret rn
  | t :: to => e ← endnameAt en i t; connectOut en i to (Enable (inl e) true rn)
  end.
Fixpoint connectIn en i to rn : go (Network netName) :=
  match to with
  | [] => Ret rn
  | t :: to => e ← endnameAt en t i; connectIn en i to (Enable (inl e) true rn)
  end.

Definition connectUnlocked en i to rn : go (Network netName) :=
  rn ← connectOut en i to rn; connectIn en i to rn.

(** [if cfg.endnames[i] != nil { ... }] *)
Definition ifNames en i (k : go (Network netName)) rn : go (Network netName) :=
  row ← idx en i;
  match row with
  | Some _ => k
  | None => Ret rn
  end.

(** the first and the second loop of [disconnectUnlocked]; the test in the second is of
    [endnames[j]], where [j] counts the turns *)
Fixpoint disconnectOut en i from rn : go (Network netName) :=
  match from with
  | [] => Ret rn
  | f :: from =>
      rn ← ifNames en i (e ← endnameAt en i f; Ret (Enable (inl e) false rn)) rn;
      disconnectOut en i from rn
  end.
Fixpoint disconnectIn en i j from rn : go (Network netName) :=
  match from with
  | [] => Ret rn
  | f :: from =>
      rn ← ifNames en j (e ← endnameAt en f i; Ret (Enable (inl e) false rn)) rn;
      disconnectIn en i (j + 1) from rn
  end.

Definition disconnectUnlocked en i from rn : go (Network netName) :=
  rn ← disconnectOut en i from rn; disconnectIn en i 0 from rn.

Definition All (n : Z) : list Z := seqZ 0 n.

(** the loop of [ConnectAll] *)
Fixpoint connectEach en (all servers : list Z) rn : go (Network netName) :=
  match servers with
  | [] => Ret rn
  | i :: servers => rn ← connectUnlocked en i all rn; connectEach en all servers rn
  end.
Definition ConnectAll en (n : Z) rn : go (Network netName) := connectEach en (All n) (All n) rn.

(** one loop of [partition]: every server of [q] leaves [other] and joins [own] *)
Fixpoint partitionLoop en (q own other : list Z) rn : go (Network netName) :=
  match q with
  | [] => Ret rn
  | i :: q =>
      rn ← disconnectUnlocked en i other rn;
      rn ← connectUnlocked en i own rn;
      partitionLoop en q own other rn
  end.

Definition partition en (p1 p2 : list Z) rn : go (Network netName) :=
  rn ← partitionLoop en p1 p1 p2 rn; partitionLoop en p2 p2 p1 rn.

(** [makeClient]'s and [StartServer]'s loop: a fresh end for every server *)
Fixpoint makeEnds (names : list string) j rn : go (list (ClientEnd netName) * Network netName) :=
  match names with
  | [] => Ret ([], rn)
  | e :: names =>
      '(ce, rn) ← MakeEnd (inl e) rn;
      '(ces, rn) ← makeEnds names (j + 1) (Connect (inl e) (inr j) rn);
      Ret (ce :: ces, rn)
  end.

(** [ConnectClientUnlocked] and [DisconnectClientUnlocked] *)
Fixpoint enableClient (endnames : list string) (yes : bool) to rn : go (Network netName) :=
  match to with
  | [] => Ret rn
  | t :: to => e ← idx endnames t; enableClient endnames yes to (Enable (inl e) yes rn)
  end.
End connections.

(** ** make_partition *)

(** the body of the loop: [l] is the leader *)
Definition placeServer (l : Z) (s : list Z * list Z * Z) (i : Z) : go (list Z * list Z * Z) :=
  let '(p1, p2, j) := s in
  if negb (i =? l) then
    if j <? len p1 then p1 ← upd p1 j i; Ret (p1, p2, j + 1)
    else p2 ← upd p2 (j - len p1) i; Ret (p1, p2, j + 1)
  else Ret (p1, p2, j).

Fixpoint placeServers (l : Z) (s : list Z * list Z * Z) (ids : list Z)
    : go (list Z * list Z * Z) :=
  match ids with
  | [] => Ret s
  | i :: ids => s ← placeServer l s i; placeServers l s ids
  end.

Definition make_partition (n l : Z) : go (list Z * list Z) :=
  let p1 := replicate (Z.to_nat (Z.quot n 2 + 1)) 0 in
  let p2 := replicate (Z.to_nat (Z.quot n 2)) 0 in
  '(p1, p2, _) ← placeServers l (p1, p2, 0) (All n);
  p2 ← upd p2 (len p2 - 1) l;
  Ret (p1, p2).

(** ** random_handles *)

Definition swap {A} (l : list A) (i j : Z) : go (list A) :=
  x ← idx l i; y ← idx l j; l ← upd l i y; upd l j x.

(** [rs]: what [rand.Intn(i + 1)] gives in turn [i] *)
Fixpoint shuffleLoop {A} (i : Z) (rs : list Z) (sa : list A) : go (list A) :=
  match rs with
  | [] => Ret sa
  | j :: rs => sa ← swap sa i j; shuffleLoop (i + 1) rs sa
  end.

Definition random_handles {A} (kvh : list A) (rs : list Z) : go (list A) := shuffleLoop 0 rs kvh.

(** ** The configuration *)

Section config.
Context {I : Type} `{!TestServer I}.

(** [instances]: every server ever started, with its persister; [kvservers] and [saved]
    point to instances and persisters *)
Record config := mkConfig {
  cfg_net : Network netName;
  cfg_store : list Server;
  cfg_n : Z;
  instances : list (I * nat);
  kvservers : list (option nat);
  persisters : list Persister;
  saved : list (option nat);
  endnames : endTable;
  clerks : gmap nat (list string);
  nextClientId : Z;
  cfg_ops : Z; (* int32 *)
  rpcs0 : Z;
}.
Implicit Types (cfg : config) (i : Z).

Definition set_net (rn : Network netName) cfg : config :=
  mkConfig rn (cfg_store cfg) (cfg_n cfg) (instances cfg) (kvservers cfg) (persisters cfg)
    (saved cfg) (endnames cfg) (clerks cfg) (nextClientId cfg) (cfg_ops cfg) (rpcs0 cfg).
Definition set_instances (l : list (I * nat)) cfg : config :=
  mkConfig (cfg_net cfg) (cfg_store cfg) (cfg_n cfg) l (kvservers cfg) (persisters cfg)
    (saved cfg) (endnames cfg) (clerks cfg) (nextClientId cfg) (cfg_ops cfg) (rpcs0 cfg).
Definition set_kvservers (l : list (option nat)) cfg : config :=
  mkConfig (cfg_net cfg) (cfg_store cfg) (cfg_n cfg) (instances cfg) l (persisters cfg)
    (saved cfg) (endnames cfg) (clerks cfg) (nextClientId cfg) (cfg_ops cfg) (rpcs0 cfg).
Definition set_saved (pers : list Persister) (sv : list (option nat)) cfg : config :=
  mkConfig (cfg_net cfg) (cfg_store cfg) (cfg_n cfg) (instances cfg) (kvservers cfg) pers
    sv (endnames cfg) (clerks cfg) (nextClientId cfg) (cfg_ops cfg) (rpcs0 cfg).
Definition set_endnames (en : endTable) cfg : config :=
  mkConfig (cfg_net cfg) (cfg_store cfg) (cfg_n cfg) (instances cfg) (kvservers cfg) (persisters cfg)
    (saved cfg) en (clerks cfg) (nextClientId cfg) (cfg_ops cfg) (rpcs0 cfg).
Definition set_clerks (m : gmap nat (list string)) (next : Z) cfg : config :=
  mkConfig (cfg_net cfg) (cfg_store cfg) (cfg_n cfg) (instances cfg) (kvservers cfg) (persisters cfg)
    (saved cfg) (endnames cfg) m next (cfg_ops cfg) (rpcs0 cfg).
Definition set_store (st : list Server) cfg : config :=
  mkConfig (cfg_net cfg) st (cfg_n cfg) (instances cfg) (kvservers cfg) (persisters cfg)
    (saved cfg) (endnames cfg) (clerks cfg) (nextClientId cfg) (cfg_ops cfg) (rpcs0 cfg).
Definition set_ops (ops rpcs : Z) cfg : config :=
  mkConfig (cfg_net cfg) (cfg_store cfg) (cfg_n cfg) (instances cfg) (kvservers cfg) (persisters cfg)
    (saved cfg) (endnames cfg) (clerks cfg) (nextClientId cfg) ops rpcs.

(** [cfg.saved[i] = cfg.saved[i].Copy()] if it is not nil *)
Definition freshPersister i cfg : go config :=
  sv ← idx (saved cfg) i;
  match sv with
  | None => Ret cfg
  | Some q =>
      ps ← idx (persisters cfg) (Z.of_nat q);
      svs ← upd (saved cfg) i (Some (length (persisters cfg)));
      Ret (set_saved (persisters cfg ++ [Copy ps]) svs cfg)
  end.

(** [kv.Kill(); cfg.kvservers[i] = nil] if it is not nil *)
Definition killServer i cfg : go config :=
  kv ← idx (kvservers cfg) i;
  match kv with
  | None => Ret cfg
  | Some k =>
      inst ← idx (instances cfg) (Z.of_nat k);
      insts ← upd (instances cfg) (Z.of_nat k) (ts_kill inst.1, inst.2);
      kvs ← upd (kvservers cfg) i None;
      Ret (set_kvservers kvs (set_instances insts cfg))
  end.

Definition ShutdownServer i cfg : go config :=
  rn ← disconnectUnlocked (endnames cfg) i (All (cfg_n cfg)) (cfg_net cfg);
  cfg ← freshPersister i (set_net (DeleteServer (inr i) rn) cfg);
  killServer i cfg.

(** [StartServer] up to [Unlock]: the names are [randstring]s *)
Definition StartServer_prepare i (names : list string) cfg : go config :=
  en ← upd (endnames cfg) i (Some names);
  '(_, rn) ← makeEnds names 0 (cfg_net cfg);
  let cfg := set_net rn (set_endnames en cfg) in
  sv ← idx (saved cfg) i;
  match sv with
  | Some _ => freshPersister i cfg
  | None =>
      svs ← upd (saved cfg) i (Some (length (persisters cfg)));
      Ret (set_saved (persisters cfg ++ [MakePersister]) svs cfg)
  end.

(** a server is started on its persister and registered with its services *)
Definition launch i (srv : Server) cfg : go config :=
  sv ← idx (saved cfg) i;
  match sv with
  | None => Panic
  | Some q =>
      ps ← idx (persisters cfg) (Z.of_nat q);
      inst ← ts_start (cfg_n cfg) i ps;
      kvs ← upd (kvservers cfg) i (Some (length (instances cfg)));
      pers ← upd (persisters cfg) (Z.of_nat q) (ts_persister inst);
      let cfg := set_kvservers kvs (set_instances (instances cfg ++ [(inst, q)]) cfg) in
      let cfg := set_saved pers (saved cfg) cfg in
      let rn := AddServer (inr i) (length (cfg_store cfg)) (cfg_net cfg) in
      Ret (set_net rn (set_store (cfg_store cfg ++ [srv]) cfg))
  end.

(** the rest of [StartServer] *)
Definition StartServer_run i (kvsvc rfsvc : Service) cfg : go config :=
  launch i (AddService rfsvc (AddService kvsvc MakeServer)) cfg.

Definition StartServer i (names : list string) (kvsvc rfsvc : Service) cfg : go config :=
  cfg ← StartServer_prepare i names cfg; StartServer_run i kvsvc rfsvc cfg.

(** a step of instance [k], dead or alive: it becomes [inst], and its persister gets
    what [inst] has saved *)
Definition instanceStep (k : nat) (inst : I) cfg : go config :=
  old ← idx (instances cfg) (Z.of_nat k);
  insts ← upd (instances cfg) (Z.of_nat k) (inst, old.2);
  pers ← upd (persisters cfg) (Z.of_nat old.2) (ts_persister inst);
  Ret (set_saved pers (saved cfg) (set_instances insts cfg)).

(** [cfg.saved[i].RaftStateSize()], largest; a nil persister panics *)
Fixpoint maxSize (size : Persister → Z) (l : list (option nat)) (pers : list Persister) (m : Z) : go Z :=
  match l with
  | [] => Ret m
  | None :: _ => Panic
  | Some q :: l =>
      ps ← idx pers (Z.of_nat q);
      let n := size ps in
      maxSize size l pers (if m <? n then n else m)
  end.
Definition cfg_LogSize cfg : go Z :=
  l ← slice_to (saved cfg) (cfg_n cfg); maxSize RaftStateSize l (persisters cfg) 0.
Definition cfg_SnapshotSize cfg : go Z :=
  l ← slice_to (saved cfg) (cfg_n cfg); maxSize SnapshotSize l (persisters cfg) 0.

(** a nil server panics *)
Fixpoint leaderLoop (i : Z) (kvs : list (option nat)) (insts : list (I * nat)) : go (bool * Z) :=
  match kvs with
  | [] => Ret (false, 0)
  | None :: _ => Panic
  | Some k :: kvs =>
      inst ← idx insts (Z.of_nat k);
      if (ts_state inst.1).2 then Ret (true, i) else leaderLoop (i + 1) kvs insts
  end.
Definition cfg_Leader cfg : go (bool * Z) :=
  kvs ← slice_to (kvservers cfg) (cfg_n cfg); leaderLoop 0 kvs (instances cfg).

(** the ends that the clerk [ck] is made with, and the configuration *)
Definition makeClient (ck : nat) (names : list string) (rs : list Z) (to : list Z) cfg
    : go (list (ClientEnd netName) * config) :=
  '(ends, rn) ← makeEnds names 0 (cfg_net cfg);
  handles ← random_handles ends rs;
  rn ← enableClient names true to rn;
  Ret (handles, set_net rn (set_clerks (<[ck := names]> (clerks cfg)) (nextClientId cfg + 1) cfg)).

Definition deleteClient (ck : nat) cfg : config :=
  set_clerks (delete ck (clerks cfg)) (nextClientId cfg) cfg.

Definition ConnectClient (ck : nat) (to : list Z) cfg : go config :=
  rn ← enableClient (default [] (clerks cfg !! ck)) true to (cfg_net cfg); Ret (set_net rn cfg).
Definition DisconnectClient (ck : nat) (from : list Z) cfg : go config :=
  rn ← enableClient (default [] (clerks cfg !! ck)) false from (cfg_net cfg); Ret (set_net rn cfg).

(** the loop of [make_config], with the names of every server *)
Fixpoint startAll i (names : list (list string)) (kvsvc rfsvc : Service) cfg : go config :=
  match names with
  | [] => Ret cfg
  | ns :: names => cfg ← StartServer i ns kvsvc rfsvc cfg; startAll (i + 1) names kvsvc rfsvc cfg
  end.

Definition make_config (n : Z) (names : list (list string)) (kvsvc rfsvc : Service) (unreliable : bool)
    : go config :=
  let k := Z.to_nat n in
  let cfg := mkConfig MakeNetwork [] n [] (replicate k None) [] (replicate k None)
               (replicate k None) ∅ (n + 1000) 0 0 in
  cfg ← startAll 0 names kvsvc rfsvc cfg;
  rn ← ConnectAll (endnames cfg) (cfg_n cfg) (cfg_net cfg);
  Ret (set_net (Reliable (negb unreliable) rn) cfg).

Definition rpcTotal cfg : Z := GetTotalCount (cfg_net cfg).
Definition cfg_begin cfg : config := set_ops 0 (rpcTotal cfg) cfg.
Definition cfg_op cfg : config := set_ops (wrap32 (cfg_ops cfg + 1)) (rpcs0 cfg) cfg.
(** the numbers that [end] prints: peers, RPCs, operations *)
Definition cfg_end cfg : Z * Z * Z := (cfg_n cfg, rpcTotal cfg - rpcs0 cfg, cfg_ops cfg).

(** the loop of [cleanup] *)
Fixpoint killAll (kvs : list (option nat)) (insts : list (I * nat)) : go (list (I * nat)) :=
  match kvs with
  | [] => Ret insts
  | None :: kvs => killAll kvs insts
  | Some k :: kvs =>
      inst ← idx insts (Z.of_nat k);
      insts ← upd insts (Z.of_nat k) (ts_kill inst.1, inst.2);
      killAll kvs insts
  end.
Definition cfg_cleanup cfg : go config :=
  insts ← killAll (kvservers cfg) (instances cfg);
  rn ← Cleanup (cfg_net cfg);
  Ret (set_net rn (set_instances insts cfg)).
End config.

Arguments config : clear implicits.
