(* ===== verification/HarnessKVSpec.v ===== *)
(** * The test harness of package kvraft: partitions

    Which servers can call each other after the operations of the harness. *)

From S2P Require Import Prelude Gob Labgob Labrpc Raft KVServer HarnessKV.

Section partitions.
Implicit Types (en : endTable) (rn : Network netName) (i j a b n : Z) (to from q own other : list Z).

(** every server has an end for every server, and no two ends have the same name *)
Record meshed en n : Prop := {
  me_total : ∀ i j, 0 ≤ i < n → 0 ≤ j < n → ∃ e, endnameAt en i j = Ret e;
  me_rows : ∀ i, 0 ≤ i < n → ∃ row, idx en i = Ret (Some row);
  me_inj : ∀ i j i' j' e, endnameAt en i j = Ret e → endnameAt en i' j' = Ret e → i = i' ∧ j = j';
}.

(** may server [i] call server [j]? *)
Definition link en rn i j : bool :=
  match endnameAt en i j with
  | Ret e => enabledAt rn (inl e)
  | _ => false
  end.

(** everything but [enabled] is the same *)
Definition sameWiring rn rn' : Prop :=
  servers rn' = servers rn ∧ connections rn' = connections rn ∧ reliable rn' = reliable rn
  ∧ longReordering rn' = longReordering rn ∧ longDelays rn' = longDelays rn.

Lemma sameWiring_trans rn1 rn2 rn3 : sameWiring rn1 rn2 → sameWiring rn2 rn3 → sameWiring rn1 rn3.
Proof. unfold sameWiring. intros H1 H2. destruct_and!. split_and!; congruence. Qed.

(** the four loops enable or disable the ends of some pairs *)
Fixpoint writeLinks en (v : bool) (l : list (Z * Z)) rn : go (Network netName) :=
  match l with
  | [] => Ret rn
  | (i, j) :: l => e ← endnameAt en i j; writeLinks en v l (Enable (inl e) v rn)
  end.

Lemma writeLinks_app en v l1 l2 rn :
  writeLinks en v (l1 ++ l2) rn = rn' ← writeLinks en v l1 rn; writeLinks en v l2 rn'.
Proof.
  revert rn. induction l1 as [|[i j] l1 IH]; intros rn; simpl; [done|].
  destruct (endnameAt en i j); simpl; [apply IH|done..].
Qed.

Section mesh.
Context (en : endTable) (n : Z) (Hmesh : meshed en n).

Definition inRange i : Prop := 0 ≤ i < n.

Lemma link_Enable rn v i j e a b :
  endnameAt en i j = Ret e →
  link en (Enable (inl e) v rn) a b = if decide ((a, b) = (i, j)) then v else link en rn a b.
Proof.
  intros He. unfold link, enabledAt. simpl. case_decide as Hab.
  - simplify_eq. by rewrite He, lookup_insert_eq.
  - destruct (endnameAt en a b) as [e'| |] eqn:He'; [|done..]. rewrite lookup_insert_ne; [done|].
    intros [= ->]. destruct (me_inj _ _ Hmesh _ _ _ _ _ He He') as [-> ->]. done.
Qed.

Lemma writeLinks_spec v l rn :
  (∀ i j, (i, j) ∈ l → inRange i ∧ inRange j) →
  ∃ rn', writeLinks en v l rn = Ret rn' ∧ sameWiring rn rn'
    ∧ ∀ a b, link en rn' a b = if decide ((a, b) ∈ l) then v else link en rn a b.
Proof.
  revert rn. induction l as [|[i j] l IH]; intros rn Hl; simpl.
  { exists rn. split_and!; try done. }
  destruct (Hl i j) as [Hi Hj]; [by left|]. destruct (me_total _ _ Hmesh i j Hi Hj) as [e He].
  rewrite He. simpl. destruct (IH (Enable (inl e) v rn)) as (rn' & -> & Hw & Hlk).
  { intros a b Hab. apply Hl. by right. }
  exists rn'. split_and!; [done..|]. intros a b. rewrite Hlk, (link_Enable rn v i j e) by done.
  rewrite (decide_ext ((a, b) ∈ (i, j) :: l) ((a, b) = (i, j) ∨ (a, b) ∈ l)) by by rewrite elem_of_cons.
  destruct (decide ((a, b) ∈ l)), (decide ((a, b) = (i, j))), (decide (_ ∨ _)); naive_solver.
Qed.

(** the pairs of [i] with [to], in both directions *)
Definition pairs i to : list (Z * Z) := ((λ t, (i, t)) <$> to) ++ ((λ t, (t, i)) <$> to).

Lemma elem_pairs i to a b : (a, b) ∈ pairs i to ↔ (a = i ∧ b ∈ to) ∨ (b = i ∧ a ∈ to).
Proof. unfold pairs. rewrite elem_of_app, !list_elem_of_fmap. naive_solver. Qed.

Lemma connect_writes i to rn : connectUnlocked en i to rn = writeLinks en true (pairs i to) rn.
Proof.
  unfold connectUnlocked, pairs. rewrite writeLinks_app.
  assert (∀ to rn, connectOut en i to rn = writeLinks en true ((λ t, (i, t)) <$> to) rn) as ->.
  { clear. intros to. induction to as [|t to IH]; intros rn; simpl; [done|].
    destruct (endnameAt en i t); simpl; [apply IH|done..]. }
  destruct (writeLinks _ _ _ _) as [rn'| |]; simpl; [|done..].
  clear. revert rn'. induction to as [|t to IH]; intros rn; simpl; [done|].
  destruct (endnameAt en t i); simpl; [apply IH|done..].
Qed.

Lemma disconnect_writes i from rn :
  inRange i → len from ≤ n →
  disconnectUnlocked en i from rn = writeLinks en false (pairs i from) rn.
Proof.
  intros Hi Hlen. unfold disconnectUnlocked, pairs. rewrite writeLinks_app.
  destruct (me_rows _ _ Hmesh i Hi) as [row Hrow].
  assert (∀ from rn, disconnectOut en i from rn = writeLinks en false ((λ t, (i, t)) <$> from) rn) as ->.
  { clear Hlen. intros from'. induction from' as [|t from' IH]; intros rn'; simpl; [done|].
    unfold ifNames. rewrite Hrow. simpl. destruct (endnameAt en i t); simpl; [apply IH|done..]. }
  destruct (writeLinks _ _ _ _) as [rn'| |]; simpl; [|done..].
  assert (∀ from j rn, 0 ≤ j → j + len from ≤ n →
    disconnectIn en i j from rn = writeLinks en false ((λ t, (t, i)) <$> from) rn) as H.
  { clear -Hmesh. intros from. induction from as [|t from IH]; intros j rn Hj Hl; simpl; [done|].
    unfold len in *. simpl in Hl. destruct (me_rows _ _ Hmesh j) as [row Hrow]; [lia|].
    unfold ifNames. rewrite Hrow. simpl. destruct (endnameAt en t i); simpl; [|done..].
    apply IH; lia. }
  apply H; lia.
Qed.

Lemma partitionLoop_spec q own other rn :
  (∀ i, i ∈ q → i ∈ own) → (∀ i, i ∈ own → i ∉ other) →
  (∀ i, i ∈ own ++ other → inRange i) → len other ≤ n →
  ∃ rn', partitionLoop en q own other rn = Ret rn' ∧ sameWiring rn rn'
    ∧ ∀ a b, link en rn' a b =
        if decide ((a ∈ q ∧ b ∈ own) ∨ (b ∈ q ∧ a ∈ own)) then true
        else if decide ((a ∈ q ∧ b ∈ other) ∨ (b ∈ q ∧ a ∈ other)) then false
        else link en rn a b.
Proof.
  intros Hq Hdis Hr Hlen. revert rn. induction q as [|i q IH]; intros rn; simpl.
  { exists rn. split_and!; done. }
  assert (i ∈ own) as Hi by (apply Hq; by left).
  assert (∀ t, t ∈ own → inRange t) as Hr1 by (intros t Ht; apply Hr, elem_of_app; by left).
  assert (∀ t, t ∈ other → inRange t) as Hr2 by (intros t Ht; apply Hr, elem_of_app; by right).
  rewrite disconnect_writes by auto.
  destruct (writeLinks_spec false (pairs i other) rn) as (rn1 & -> & Hw1 & Hl1).
  { intros a b [[-> ?]|[-> ?]]%elem_pairs; auto. }
  simpl. rewrite connect_writes.
  destruct (writeLinks_spec true (pairs i own) rn1) as (rn2 & -> & Hw2 & Hl2).
  { intros a b [[-> ?]|[-> ?]]%elem_pairs; auto. }
  simpl. destruct (IH (λ t Ht, Hq t (list_elem_of_further _ _ _ Ht)) rn2) as (rn3 & -> & Hw3 & Hl3).
  exists rn3. split; [done|]. split; [by eapply sameWiring_trans, sameWiring_trans|].
  intros a b. rewrite Hl3, Hl2, Hl1.
  pose proof (Hdis a) as Ha. pose proof (Hdis b) as Hb. pose proof (Hq a) as Hqa. pose proof (Hq b) as Hqb.
  repeat case_decide; try done; exfalso;
    rewrite ?elem_pairs, ?elem_of_cons in *; naive_solver.
Qed.

Lemma partition_spec p1 p2 rn :
  (∀ i, i ∈ p1 → i ∉ p2) → (∀ i, i ∈ p1 ++ p2 → inRange i) → len p1 ≤ n → len p2 ≤ n →
  ∃ rn', partition en p1 p2 rn = Ret rn' ∧ sameWiring rn rn'
    ∧ ∀ a b, a ∈ p1 ++ p2 → b ∈ p1 ++ p2 → link en rn' a b = bool_decide (a ∈ p1 ↔ b ∈ p1).
Proof.
  intros Hdis Hr H1 H2. unfold partition.
  destruct (partitionLoop_spec p1 p1 p2 rn) as (rn1 & -> & Hw1 & Hl1); [done|done|done|done|]. simpl.
  destruct (partitionLoop_spec p2 p2 p1 rn1) as (rn2 & -> & Hw2 & Hl2); [done| | |done|].
  { intros i Hi Hi'. by apply (Hdis i). }
  { intros i Hi. apply Hr. rewrite elem_of_app in *. tauto. }
  exists rn2. split; [done|]. split; [by eapply sameWiring_trans|].
  intros a b Ha Hb. rewrite Hl2, Hl1. rewrite elem_of_app in Ha, Hb.
  pose proof (Hdis a). pose proof (Hdis b). symmetry.
  repeat case_decide; first [apply bool_decide_eq_true|apply bool_decide_eq_false|exfalso]; tauto.
Qed.
End mesh.

(** ** make_partition *)

(** the servers placed so far are [placed]: the first fill [p1] *)
Definition filled (m k : Z) (placed p1 p2 : list Z) : Prop :=
  len p1 = m ∧ len p2 = k
  ∧ (∀ (i : nat) x, placed !! i = Some x → (i < Z.to_nat m)%nat → p1 !! i = Some x)
  ∧ (∀ (i : nat) x, placed !! i = Some x → (Z.to_nat m ≤ i)%nat → p2 !! (i - Z.to_nat m)%nat = Some x).

Lemma filled_p1 m k placed p1 p2 x :
  filled m k placed p1 p2 → len placed < m → filled m k (placed ++ [x]) (<[length placed := x]> p1) p2.
Proof.
  intros (H1 & H2 & Hp1 & Hp2) Hlt. unfold filled, len in *. split_and!.
  - by rewrite length_insert.
  - done.
  - intros i y [Hi|[Hge Hi]]%lookup_app_Some Him.
    + apply lookup_lt_Some in Hi as Hil. rewrite list_lookup_insert_ne by lia. by apply Hp1.
    + apply list_lookup_singleton_Some in Hi as [Hi <-].
      replace i with (length placed) by lia. apply list_lookup_insert_eq. lia.
  - intros i y [Hi|[Hge Hi]]%lookup_app_Some Him; [by apply Hp2|].
    apply list_lookup_singleton_Some in Hi as [Hi <-]. lia.
Qed.

Lemma filled_p2 m k placed p1 p2 x :
  filled m k placed p1 p2 → 0 ≤ m ≤ len placed → len placed < m + k →
  filled m k (placed ++ [x]) p1 (<[(length placed - Z.to_nat m)%nat := x]> p2).
Proof.
  intros (H1 & H2 & Hp1 & Hp2) Hge Hlt. unfold filled, len in *. split_and!.
  - done.
  - by rewrite length_insert.
  - intros i y [Hi|[Hge' Hi]]%lookup_app_Some Him; [by apply Hp1|].
    apply list_lookup_singleton_Some in Hi as [Hi <-]. lia.
  - intros i y [Hi|[Hge' Hi]]%lookup_app_Some Him.
    + apply lookup_lt_Some in Hi as Hil. rewrite list_lookup_insert_ne by lia. by apply Hp2.
    + apply list_lookup_singleton_Some in Hi as [Hi <-].
      replace i with (length placed) by lia. apply list_lookup_insert_eq. lia.
Qed.

Lemma placeServers_spec l m k ids placed p1 p2 :
  filled m k placed p1 p2 → 0 ≤ m → len placed + len (filter (.≠ l) ids) ≤ m + k →
  ∃ p1' p2', placeServers l (p1, p2, len placed) ids
      = Ret (p1', p2', len (placed ++ filter (.≠ l) ids))
    ∧ filled m k (placed ++ filter (.≠ l) ids) p1' p2'.
Proof.
  revert placed p1 p2. induction ids as [|i ids IH]; intros placed p1 p2 Hf Hm Hlen; simpl.
  { exists p1, p2. rewrite filter_nil, app_nil_r. done. }
  rewrite filter_cons in *. unfold placeServer. destruct (decide (i ≠ l)) as [Hne|He].
  2: { assert (i = l) as -> by (by apply dec_stable). rewrite Z.eqb_refl. simpl. by apply IH. }
  rewrite (proj2 (Z.eqb_neq i l)) by done. simpl.
  destruct Hf as (H1 & H2 & Hf). rewrite H1.
  assert (len (placed ++ [i]) = len placed + 1) as Hl1 by (rewrite len_app; done).
  assert (∀ p1 p2, filled m k (placed ++ [i]) p1 p2 → ∃ p1' p2',
    placeServers l (p1, p2, len placed + 1) ids = Ret (p1', p2', len (placed ++ i :: filter (.≠ l) ids))
    ∧ filled m k (placed ++ i :: filter (.≠ l) ids) p1' p2') as Hgo.
  { intros q1 q2 Hq. rewrite <-Hl1. destruct (IH (placed ++ [i]) q1 q2 Hq Hm) as (q1' & q2' & Hq').
    - rewrite Hl1. unfold len in *. simpl in Hlen. lia.
    - exists q1', q2'. rewrite <-app_assoc in Hq'. exact Hq'. }
  pose proof (len_nonneg placed). destruct (Z.ltb_spec (len placed) m).
  - rewrite upd_Ret by lia. simpl. apply Hgo. unfold len. rewrite Nat2Z.id. by apply filled_p1.
  - rewrite upd_Ret by (unfold len in *; simpl in Hlen; lia). simpl. apply Hgo.
    replace (Z.to_nat (len placed - m)) with (length placed - Z.to_nat m)%nat by (unfold len; lia).
    apply filled_p2; [done|lia|]. unfold len in *. simpl in Hlen. lia.
Qed.

Lemma others_perm n l : inRange n l → filter (.≠ l) (All n) ++ [l] ≡ₚ All n.
Proof.
  intros Hl. apply NoDup_Permutation.
  - apply NoDup_app. split_and!; [apply NoDup_filter, NoDup_seqZ| |apply NoDup_singleton].
    intros x [Hx _]%list_elem_of_filter ->%list_elem_of_singleton. done.
  - apply NoDup_seqZ.
  - intros x. rewrite elem_of_app, list_elem_of_filter, list_elem_of_singleton. unfold All.
    rewrite elem_of_seqZ. unfold inRange in Hl. destruct (decide (x = l)); naive_solver lia.
Qed.

Lemma make_partition_spec n l :
  Z.odd n = true → 3 ≤ n → inRange n l →
  ∃ p1 p2, make_partition n l = Ret (p1, p2) ∧ p1 ++ p2 ≡ₚ All n ∧ l ∈ p2 ∧ len p1 = Z.quot n 2 + 1.
Proof.
  intros Hodd Hn Hl. set (m := Z.quot n 2 + 1). set (k := Z.quot n 2). set (ot := filter (.≠ l) (All n)).
  assert (n = 2 * k + 1) as Hnk.
  { unfold k. apply Zodd_bool_iff, Zodd_ex in Hodd as [x ->].
    rewrite Z.quot_div_nonneg by lia. replace (2 * x + 1) with (1 + x * 2) by lia.
    rewrite Z.div_add by lia. change (1 `div` 2) with 0. lia. }
  assert (len ot = m + k - 1) as Hot.
  { pose proof (Permutation_length (others_perm n l Hl)) as Hp. fold ot in Hp.
    rewrite length_app in Hp. unfold All in Hp. rewrite length_seqZ in Hp. unfold len. simpl in Hp. lia. }
  destruct (placeServers_spec l m k (All n) [] (replicate (Z.to_nat m) 0) (replicate (Z.to_nat k) 0))
    as (p1 & p2 & E & H1 & H2 & Hp1 & Hp2).
  { split_and!; try (unfold len; rewrite length_replicate; lia); intros i x Hi; done. }
  { lia. } { fold ot. unfold len at 1. simpl. lia. }
  unfold make_partition. change (len []) with 0 in E. fold m k. rewrite E. simpl. simpl in *. fold ot in Hp1, Hp2.
  rewrite upd_Ret by lia. simpl. exists p1, (<[Z.to_nat (len p2 - 1) := l]> p2).
  assert (p1 = take (Z.to_nat m) ot) as Ep1.
  { apply list_eq_same_length with (n := Z.to_nat m); [rewrite length_take; unfold len in *; lia|unfold len in *; lia|].
    intros i x y Hi Hx Hy. apply lookup_take_Some in Hy as [Hy _]. apply Hp1 in Hy; [congruence|lia]. }
  assert (<[Z.to_nat (len p2 - 1) := l]> p2 = drop (Z.to_nat m) ot ++ [l]) as Ep2.
  { apply list_eq_same_length with (n := Z.to_nat k).
    { rewrite length_app, length_drop. simpl. unfold len in *. lia. }
    { rewrite length_insert. unfold len in *. lia. }
    intros i x y Hi Hx Hy. unfold len in *.
    apply lookup_app_Some in Hy as [Hy|[Hge Hy]].
    - apply lookup_lt_Some in Hy as Hlt. rewrite length_drop in Hlt. rewrite lookup_drop in Hy.
      apply Hp2 in Hy; [|lia]. replace (Z.to_nat m + i - Z.to_nat m)%nat with i in Hy by lia.
      rewrite list_lookup_insert_ne in Hx by lia. congruence.
    - rewrite length_drop in Hge, Hy. apply list_lookup_singleton_Some in Hy as [Hy <-].
      replace i with (Z.to_nat (Z.of_nat (length p2) - 1)) in Hx by lia.
      rewrite list_lookup_insert_eq in Hx by lia. congruence. }
  rewrite Ep2. split_and!; [done| | |done].
  - rewrite Ep1, app_assoc, take_drop. by apply others_perm.
  - apply elem_of_app. right. by left.
Qed.
End partitions.

(** The partition that the kvraft tests make isolates the leader with a minority: for
    an odd number of servers [make_partition] splits them into a majority and a minority
    with the leader, and after [partition] the network routes a request from server [a]
    to server [b] if both are on the same side and to nobody if they are not. *)
Theorem partition_isolates (en : endTable) (n l : Z) (rn : Network netName) :
  Z.odd n = true → 3 ≤ n → 0 ≤ l < n → meshed en n →
  ∃ p1 p2 rn', make_partition n l = Ret (p1, p2)
    ∧ p1 ++ p2 ≡ₚ All n ∧ l ∈ p2 ∧ len p1 = Z.quot n 2 + 1
    ∧ partition en p1 p2 rn = Ret rn'
    ∧ ∀ a b e, 0 ≤ a < n → 0 ≤ b < n → endnameAt en a b = Ret e →
        connectionAt rn (inl e) = Some (inr b) →
        deliverTo (readEndnameInfo rn' (inl e))
        = if decide (a ∈ p1 ↔ b ∈ p1) then pair (inr b) <$> serverAt rn (inr b) else None.
Proof.
  intros Hodd Hn Hl Hmesh. destruct (make_partition_spec n l Hodd Hn Hl) as (p1 & p2 & E & Hp & Hlp & Hlen).
  assert (∀ i, i ∈ p1 ++ p2 ↔ 0 ≤ i < n) as Hall.
  { intros i. rewrite Hp. unfold All. rewrite elem_of_seqZ. lia. }
  assert (NoDup (p1 ++ p2)) as Hnd by (rewrite Hp; apply NoDup_seqZ).
  assert (len p1 + len p2 = n) as Hlens.
  { apply Permutation_length in Hp. rewrite length_app in Hp. unfold All in Hp.
    rewrite length_seqZ in Hp. unfold len. lia. }
  pose proof (len_nonneg p1). pose proof (len_nonneg p2).
  destruct (partition_spec en n Hmesh p1 p2 rn) as (rn' & Er & (Hs & Hc & _) & Hlk).
  { intros i Hi Hi'. apply NoDup_app in Hnd as (_ & Hd & _). by apply (Hd i). }
  { intros i Hi. by apply Hall. } { lia. } { lia. }
  exists p1, p2, rn'. split_and!; try done. intros a b e Ha Hb He Hconn.
  specialize (Hlk a b (proj2 (Hall a) Ha) (proj2 (Hall b) Hb)). unfold link in Hlk. rewrite He in Hlk.
  unfold deliverTo, readEndnameInfo, connectionAt, serverAt in *. simpl. rewrite Hlk, Hc, Hconn, Hs.
  destruct (decide (a ∈ p1 ↔ b ∈ p1)).
  - rewrite bool_decide_eq_true_2 by done. by destruct (default _ _).
  - by rewrite bool_decide_eq_false_2.
Qed.
