(* ===== verification/HarnessRestart.v ===== *)
(** * The test harness of package kvraft: restarts

    A stopped server's goroutines go on running, and write to the persister they hold.
    The harness gives a restarted server another one. *)

From S2P Require Import Prelude Gob Labgob Labrpc Raft KVServer HarnessKV.

Section restarts.
Context {I : Type} `{!TestServer I}.
Implicit Types (cfg : config I) (i : Z).

(** instances hold persisters that exist *)
Definition pointersOK cfg : Prop :=
  ∀ k inst q, instances cfg !! k = Some (inst, q) → (q < length (persisters cfg))%nat.

(** any steps of any instances *)
Fixpoint instanceSteps (l : list (nat * I)) cfg : go (config I) :=
  match l with
  | [] => Ret cfg
  | (k, inst) :: l => cfg ← instanceStep k inst cfg; instanceSteps l cfg
  end.

(** persister [q] is nobody's *)
Definition unowned q cfg : Prop :=
  pointersOK cfg ∧ (q < length (persisters cfg))%nat
  ∧ ∀ k inst q', instances cfg !! k = Some (inst, q') → q' ≠ q.

Lemma instanceStep_keeps k inst cfg cfg' q :
  instanceStep k inst cfg = Ret cfg' → unowned q cfg →
  unowned q cfg' ∧ persisters cfg' !! q = persisters cfg !! q ∧ saved cfg' = saved cfg
  ∧ endnames cfg' = endnames cfg ∧ cfg_n cfg' = cfg_n cfg.
Proof.
  intros E (Hp & Hq & Hun). unfold instanceStep in E. go_step E. destruct a as [old p]. simpl in E.
  apply go_bind_Ret_inv in E as (insts & Ei & E). apply go_bind_Ret_inv in E as (pers & Epe & E).
  injection E as <-. apply idx_Ret in E0 as [_ E0]. rewrite Nat2Z.id in E0.
  apply upd_inv in Ei as [_ ->]. apply upd_inv in Epe as [_ ->]. rewrite !Nat2Z.id.
  assert (∀ k' inst' q', <[k := (inst, p)]> (instances cfg) !! k' = Some (inst', q') →
    ∃ k'' inst'', instances cfg !! k'' = Some (inst'', q')) as Hold.
  { intros k' inst' q' [(-> & ? & _)|[_ ?]]%list_lookup_insert_Some; simplify_eq; by eauto. }
  split_and!; simpl; try done.
  - split_and!; simpl.
    + intros k' inst' q' (k2 & i2 & ?)%Hold. simpl. rewrite length_insert. by eapply Hp.
    + by rewrite length_insert.
    + intros k' inst' q' (k2 & i2 & ?)%Hold. by eapply Hun.
  - apply list_lookup_insert_ne. by eapply Hun.
Qed.

Lemma instanceSteps_keep l cfg cfg' q :
  instanceSteps l cfg = Ret cfg' → unowned q cfg →
  unowned q cfg' ∧ persisters cfg' !! q = persisters cfg !! q ∧ saved cfg' = saved cfg
  ∧ endnames cfg' = endnames cfg ∧ cfg_n cfg' = cfg_n cfg.
Proof.
  revert cfg. induction l as [|[k inst] l IH]; intros cfg E Hun; simpl in E; [by simplify_eq|].
  go_step E. destruct (instanceStep_keeps _ _ _ _ _ E0 Hun) as (Hun' & H1 & H2 & H3 & H4).
  destruct (IH _ E Hun') as (? & ? & ? & ? & ?). split_and!; try done; congruence.
Qed.

Lemma Copy_id ps : Copy ps = ps.
Proof. by destruct ps. Qed.

(** the copy is nobody's *)
Lemma freshPersister_spec i cfg cfg' q ps :
  pointersOK cfg → idx (saved cfg) i = Ret (Some q) → persisters cfg !! q = Some ps →
  freshPersister i cfg = Ret cfg' →
  ∃ q', idx (saved cfg') i = Ret (Some q') ∧ persisters cfg' !! q' = Some ps ∧ unowned q' cfg'
    ∧ q' = length (persisters cfg) ∧ instances cfg' = instances cfg ∧ cfg_n cfg' = cfg_n cfg
    ∧ cfg_net cfg' = cfg_net cfg ∧ kvservers cfg' = kvservers cfg.
Proof.
  intros Hp Hs Hq E. unfold freshPersister in E. rewrite Hs in E. simpl in E.
  rewrite (proj2 (idx_Ret _ _ ps)) in E by (rewrite Nat2Z.id; split; [lia|done]). simpl in E. go_step E.
  injection E as <-. apply upd_inv in E0 as [Hi ->]. exists (length (persisters cfg)).
  split_and!; simpl; try done.
  - apply idx_Ret. split; [lia|]. apply list_lookup_insert_eq. unfold len in Hi. lia.
  - by rewrite Copy_id, list_lookup_middle.
  - split_and!; simpl.
    + intros k inst q' Hk. simpl. rewrite length_app. simpl. specialize (Hp k inst q' Hk). lia.
    + rewrite length_app. simpl. lia.
    + intros k inst q' Hk. specialize (Hp k inst q' Hk). lia.
Qed.

Lemma killServer_spec i cfg cfg' q :
  killServer i cfg = Ret cfg' → unowned q cfg →
  unowned q cfg' ∧ persisters cfg' = persisters cfg ∧ saved cfg' = saved cfg
  ∧ cfg_n cfg' = cfg_n cfg ∧ cfg_net cfg' = cfg_net cfg.
Proof.
  intros E (Hp & Hq & Hun). unfold killServer in E. go_step E. destruct a as [k|]; [|by simplify_eq].
  apply go_bind_Ret_inv in E as ([old p] & Eo & E). apply go_bind_Ret_inv in E as (insts & Ei & E).
  apply go_bind_Ret_inv in E as (kvs & Ek & E). injection E as <-.
  apply idx_Ret in Eo as [_ Eo]. rewrite Nat2Z.id in Eo. apply upd_inv in Ei as [_ ->]. rewrite Nat2Z.id.
  assert (∀ k' inst' q', <[k := (ts_kill old, p)]> (instances cfg) !! k' = Some (inst', q') →
    ∃ k'' inst'', instances cfg !! k'' = Some (inst'', q')) as Hold.
  { intros k' inst' q' [(-> & ? & _)|[_ ?]]%list_lookup_insert_Some; simplify_eq; by eauto. }
  split_and!; simpl; try done. split_and!; simpl; [|done|].
  - intros k' inst' q' (k2 & i2 & ?)%Hold. by eapply Hp.
  - intros k' inst' q' (k2 & i2 & ?)%Hold. by eapply Hun.
Qed.

Lemma ShutdownServer_spec i cfg cfg' q ps :
  pointersOK cfg → idx (saved cfg) i = Ret (Some q) → persisters cfg !! q = Some ps →
  ShutdownServer i cfg = Ret cfg' →
  ∃ q', idx (saved cfg') i = Ret (Some q') ∧ persisters cfg' !! q' = Some ps ∧ unowned q' cfg'
    ∧ cfg_n cfg' = cfg_n cfg.
Proof.
  intros Hp Hs Hq E. unfold ShutdownServer in E. apply go_bind_Ret_inv in E as (rn & _ & E).
  apply go_bind_Ret_inv in E as (cfg1 & E1 & E).
  apply (freshPersister_spec i _ _ q ps) in E1 as (q' & Hs' & Hq' & Hun & _ & _ & Hn & _); [|done..].
  destruct (killServer_spec _ _ _ _ E Hun) as (Hun' & Hpe & Hsv & Hn' & _).
  exists q'. rewrite Hpe, Hsv, Hn', Hn. done.
Qed.

Lemma StartServer_prepare_spec i names cfg cfg' q ps :
  pointersOK cfg → idx (saved cfg) i = Ret (Some q) → persisters cfg !! q = Some ps →
  StartServer_prepare i names cfg = Ret cfg' →
  ∃ q', idx (saved cfg') i = Ret (Some q') ∧ persisters cfg' !! q' = Some ps ∧ unowned q' cfg'
    ∧ cfg_n cfg' = cfg_n cfg.
Proof.
  intros Hp Hs Hq E. unfold StartServer_prepare in E. apply go_bind_Ret_inv in E as (en & _ & E).
  apply go_bind_Ret_inv in E as ([ends rn] & _ & E). cbv zeta in E. simpl in E. rewrite Hs in E. simpl in E.
  apply (freshPersister_spec i _ _ q ps) in E as (q' & Hs' & Hq' & Hun & _ & _ & Hn & _); [|done..].
  by exists q'.
Qed.

Lemma StartServer_run_spec i kvsvc rfsvc cfg cfg' q ps :
  unowned q cfg → idx (saved cfg) i = Ret (Some q) → persisters cfg !! q = Some ps →
  StartServer_run i kvsvc rfsvc cfg = Ret cfg' →
  ∃ inst k q', ts_start (cfg_n cfg) i ps = Ret inst
    ∧ idx (kvservers cfg') i = Ret (Some k) ∧ instances cfg' !! k = Some (inst, q')
    ∧ idx (saved cfg') i = Ret (Some q') ∧ persisters cfg' !! q' = Some (ts_persister inst)
    ∧ (∀ k' inst' q'', instances cfg' !! k' = Some (inst', q'') → k' ≠ k → q'' ≠ q')
    ∧ pointersOK cfg'.
Proof.
  intros (Hp & Hlt & Hun) Hs Hq E. unfold StartServer_run, launch in E. rewrite Hs in E. simpl in E.
  rewrite (proj2 (idx_Ret _ _ ps)) in E by (rewrite Nat2Z.id; split; [lia|done]). simpl in E.
  apply go_bind_Ret_inv in E as (inst & Est & E). apply go_bind_Ret_inv in E as (kvs & Ek & E).
  apply go_bind_Ret_inv in E as (pers & Epe & E). simpl in E. injection E as <-.
  apply upd_inv in Ek as [Hi ->]. apply upd_inv in Epe as [_ ->]. rewrite Nat2Z.id.
  exists inst, (length (instances cfg)), q. split_and!; simpl; try done.
  - apply idx_Ret. split; [lia|]. apply list_lookup_insert_eq. unfold len in Hi. lia.
  - by apply list_lookup_middle.
  - by apply list_lookup_insert_eq.
  - intros k' inst' q'' [Hk|[Hge Hk]]%lookup_app_Some Hne; [by eapply Hun|].
    apply list_lookup_singleton_Some in Hk as [? _]. lia.
  - intros k' inst' q''. simpl. rewrite length_insert. intros [Hk|[Hge Hk]]%lookup_app_Some; [by eapply Hp|].
    apply list_lookup_singleton_Some in Hk as [_ Hk]. by simplify_eq.
Qed.

(** C17: A restarted server gets the last state that was saved before it was stopped:
    whatever the instances (the stopped one too) do between [ShutdownServer] and
    [StartServer], the new instance starts on what server [i]'s persister held at the
    shutdown; and it holds a persister that no other instance has, so the old instance
    cannot write to it later. *)
Theorem restart_gets_last_state i names kvsvc rfsvc steps cfg cfg1 cfg2 cfg3 q ps :
  pointersOK cfg → idx (saved cfg) i = Ret (Some q) → persisters cfg !! q = Some ps →
  ShutdownServer i cfg = Ret cfg1 → instanceSteps steps cfg1 = Ret cfg2 →
  StartServer i names kvsvc rfsvc cfg2 = Ret cfg3 →
  ∃ inst k q', ts_start (cfg_n cfg) i ps = Ret inst
    ∧ idx (kvservers cfg3) i = Ret (Some k) ∧ instances cfg3 !! k = Some (inst, q')
    ∧ idx (saved cfg3) i = Ret (Some q') ∧ persisters cfg3 !! q' = Some (ts_persister inst)
    ∧ (∀ k' inst' q'', instances cfg3 !! k' = Some (inst', q'') → k' ≠ k → q'' ≠ q')
    ∧ pointersOK cfg3.
Proof.
  intros Hp Hs Hq E1 E2 E3.
  destruct (ShutdownServer_spec i cfg cfg1 q ps Hp Hs Hq E1) as (q1 & Hs1 & Hq1 & Hun1 & Hn1).
  destruct (instanceSteps_keep _ _ _ _ E2 Hun1) as (Hun2 & Hq2 & Hs2 & _ & Hn2).
  rewrite Hq1 in Hq2. rewrite <-Hs2 in Hs1. unfold StartServer in E3. go_step E3.
  destruct (StartServer_prepare_spec i names cfg2 a q1 ps (proj1 Hun2) Hs1 Hq2 E)
    as (q3 & Hs3 & Hq3 & Hun3 & Hn3).
  replace (cfg_n cfg) with (cfg_n a) by congruence.
  by apply (StartServer_run_spec i kvsvc rfsvc a cfg3 q3 ps).
Qed.
End restarts.
