(* ===== verification/HarnessRaft.v ===== *)
(** * The test harness of package raft

    [raft/config.go]: as in [HarnessKV.v], with a table of the servers that are on the
    net, a copy of what every server has delivered, and the checks that the tests make.
    [t.Fatalf] and [log.Fatalf] end the test, as a panic does.  What the servers answer
    to [GetState] while a check runs is an argument; time and printing are left out. *)

From S2P Require Import Prelude Gob Labgob Labrpc Raft HarnessKV.

#[export] Instance raftTestServer {Cmd} `{!GobCodec Z} `{!GobCodec (list (LogEntry Cmd))}
    : TestServer (Raft Cmd) := {|
  ts_start n i ps := Ret (Make n i ps);
  ts_kill := Kill;
  ts_state := GetState;
  ts_persister := persister;
|}.

(** ** On and off the net *)

Section net.
Implicit Types (en : endTable) (rn : Network netName) (i : Z) (connected : list bool) (js : list Z).

(** the two loops of [connect] *)
Fixpoint attachOut en connected i js rn : go (Network netName) :=
  match js with
  | [] => Ret rn
  | j :: js =>
      c ← idx connected j;
      if c : bool then
        e ← endnameAt en i j; attachOut en connected i js (Enable (inl e) true rn)
      else attachOut en connected i js rn
  end.
Fixpoint attachIn en connected i js rn : go (Network netName) :=
  match js with
  | [] => Ret rn
  | j :: js =>
      c ← idx connected j;
      if c : bool then
        e ← endnameAt en j i; attachIn en connected i js (Enable (inl e) true rn)
      else attachIn en connected i js rn
  end.

(** and of [disconnect] *)
Fixpoint detachOut en i js rn : go (Network netName) :=
  match js with
  | [] => Ret rn
  | j :: js =>
      rn ← ifNames en i (e ← endnameAt en i j; Ret (Enable (inl e) false rn)) rn;
      detachOut en i js rn
  end.
Fixpoint detachIn en i js rn : go (Network netName) :=
  match js with
  | [] => Ret rn
  | j :: js =>
      rn ← ifNames en j (e ← endnameAt en j i; Ret (Enable (inl e) false rn)) rn;
      detachIn en i js rn
  end.

Definition rf_connect en (n : Z) i (s : list bool * Network netName) : go (list bool * Network netName) :=
  let '(connected, rn) := s in
  connected ← upd connected i true;
  rn ← attachOut en connected i (All n) rn;
  rn ← attachIn en connected i (All n) rn;
  Ret (connected, rn).

Definition rf_disconnect en (n : Z) i (s : list bool * Network netName) : go (list bool * Network netName) :=
  let '(connected, rn) := s in
  connected ← upd connected i false;
  rn ← detachOut en i (All n) rn;
  rn ← detachIn en i (All n) rn;
  Ret (connected, rn).
End net.

(** ** What the servers deliver *)

Section delivered.
Context {Cmd : Type} `{!EqDecision Cmd}.
Implicit Types (logs : list (gmap Z (option Cmd))) (m : ApplyMsg Cmd).

(** some server has committed a different value *)
Fixpoint conflict (index : Z) (v : option Cmd) logs : bool :=
  match logs with
  | [] => false
  | l :: logs =>
      match l !! index with
      | Some old => bool_decide (old ≠ v) || conflict index v logs
      | None => conflict index v logs
      end
  end.

(** the body of the goroutine that [start1] starts for server [i]: [logs] and [maxIndex] *)
Definition applierStep (i : Z) m (s : list (gmap Z (option Cmd)) * Z)
    : go (list (gmap Z (option Cmd)) * Z) :=
  let '(logs, maxIndex) := s in
  if negb (am_CommandValid m) then Ret s
  else
    let v := am_Command m in
    let err := conflict (am_CommandIndex m) v logs in
    li ← idx logs i;
    let prevok := bool_decide (is_Some (li !! (am_CommandIndex m - 1))) in
    logs ← upd logs i (<[am_CommandIndex m := v]> li);
    let maxIndex := if maxIndex <? am_CommandIndex m then am_CommandIndex m else maxIndex in
    if err || ((1 <? am_CommandIndex m) && negb prevok) then Panic else Ret (logs, maxIndex).

(** how many servers have committed at [index], and what *)
Fixpoint nCommitted_loop (index : Z) logs (count : Z) (cmd : option Cmd) : go (Z * option Cmd) :=
  match logs with
  | [] => Ret (count, cmd)
  | l :: logs =>
      match l !! index with
      | Some cmd1 =>
          if (0 <? count) && bool_decide (cmd ≠ cmd1) then Panic
          else nCommitted_loop index logs (count + 1) cmd1
      | None => nCommitted_loop index logs count cmd
      end
  end.
Definition nCommitted (index : Z) logs : go (Z * option Cmd) := nCommitted_loop index logs 0 None.

(** the loop of [wait]: in every turn the logs and the terms of the servers are read
    (a server that is down, a nil pointer, makes the test panic); [None]: the call
    returns -1 *)
Fixpoint wait_loop (index n startTerm : Z)
    (turns : list (list (gmap Z (option Cmd)) * list Z)) : go (option unit) :=
  match turns with
  | [] => Ret (Some ())
  | (logs, terms) :: turns =>
      '(nd, _) ← nCommitted index logs;
      if n <=? nd then Ret (Some ())
      else if (-1 <? startTerm) && existsb (λ t, startTerm <? t) terms then Ret None
      else wait_loop index n startTerm turns
  end.
Definition wait (index n startTerm : Z) (turns : list (list (gmap Z (option Cmd)) * list Z))
    (final : list (gmap Z (option Cmd))) : go (option (option Cmd)) :=
  r ← wait_loop index n startTerm (take 30 turns);
  match r with
  | None => Ret None
  | Some _ =>
      '(nd, cmd) ← nCommitted index final;
      if nd <? n then Panic else Ret (Some cmd)
  end.

(** [one], inner loop: the servers in turn, beginning after [starts]; [start i] is what
    [Start] returns on server [i] ([None]: it is not on the net or down).  The index is
    -1 when nobody says it is the leader. *)
Fixpoint one_submit (si : nat) (n starts : Z) (start : Z → option (Z * bool)) : Z * Z :=
  match si with
  | O => (-1, starts)
  | S si =>
      let starts := Z.rem (starts + 1) n in
      match start starts with
      | Some (index1, true) => (index1, starts)
      | _ => one_submit si n starts start
      end
  end.

(** the loop that waits for agreement, with the logs at every look *)
Fixpoint one_await (cmd : option Cmd) (index expectedServers : Z)
    (looks : list (list (gmap Z (option Cmd)))) : go bool :=
  match looks with
  | [] => Ret false
  | logs :: looks =>
      '(nd, cmd1) ← nCommitted index logs;
      if (0 <? nd) && (expectedServers <=? nd) && bool_decide (cmd1 = cmd) then Ret true
      else one_await cmd index expectedServers looks
  end.

(** the attempts of ten seconds: the answers of [Start], and the looks that follow *)
Fixpoint one (cmd : option Cmd) (n expectedServers : Z) (retry : bool) (starts : Z)
    (attempts : list ((Z → option (Z * bool)) * list (list (gmap Z (option Cmd))))) : go Z :=
  match attempts with
  | [] => Panic
  | (start, looks) :: attempts =>
      let '(index, starts) := one_submit (Z.to_nat n) n starts start in
      if negb (index =? -1) then
        ok ← one_await cmd index expectedServers looks;
        if ok : bool then Ret index
        else if retry then one cmd n expectedServers retry starts attempts else Panic
      else one cmd n expectedServers retry starts attempts
  end.
End delivered.

(** ** Leaders and terms *)

Section states.
(** the numbers of the servers that are on the net, with their term and whether they
    say that they lead *)
Implicit Types (states : list (Z * (Z * bool))).

(** [leaders[term] = append(leaders[term], i)] *)
Fixpoint collectLeaders states (leaders : gmap Z (list Z)) : gmap Z (list Z) :=
  match states with
  | [] => leaders
  | (i, (term, leader)) :: states =>
      collectLeaders states
        (if leader : bool then <[term := default [] (leaders !! term) ++ [i]]> leaders else leaders)
  end.

(** the loop over the map; its order does not matter *)
Fixpoint lastTerm (l : list (Z * list Z)) (last : Z) : go Z :=
  match l with
  | [] => Ret last
  | (term, leaders) :: l =>
      if 1 <? len leaders then Panic else lastTerm l (if last <? term then term else last)
  end.

(** one turn of [checkOneLeader]: [None]: there is no leader *)
Definition findLeader states : go (option Z) :=
  let leaders := collectLeaders states ∅ in
  last ← lastTerm (map_to_list leaders) (-1);
  if bool_decide (leaders = ∅) then Ret None
  else i ← idx (default [] (leaders !! last)) 0; Ret (Some i).

Fixpoint checkOneLeader_loop (turns : list (list (Z * (Z * bool)))) : go Z :=
  match turns with
  | [] => Panic
  | states :: turns =>
      r ← findLeader states;
      match r with
      | Some i => Ret i
      | None => checkOneLeader_loop turns
      end
  end.
Definition checkOneLeader (turns : list (list (Z * (Z * bool)))) : go Z :=
  checkOneLeader_loop (take 10 turns).

Fixpoint checkTerms_loop states (term : Z) : go Z :=
  match states with
  | [] => Ret term
  | (_, (xterm, _)) :: states =>
      if term =? -1 then checkTerms_loop states xterm
      else if negb (term =? xterm) then Panic else checkTerms_loop states term
  end.
Definition checkTerms states : go Z := checkTerms_loop states (-1).

Fixpoint checkNoLeader states : go unit :=
  match states with
  | [] => Ret ()
  | (_, (_, is_leader)) :: states => if is_leader : bool then Panic else checkNoLeader states
  end.
End states.

(** ** The configuration *)

Section config.
Context {Cmd : Type} {I : Type} `{!TestServer I}.

(** [rc_base]: the fields that the configuration shares with kvraft's, where [kvservers]
    are the [rafts] *)
Record rconfig := mkRConfig {
  rc_base : config I;
  connected : list bool;
  cfg_logs : list (gmap Z (option Cmd));
  maxIndex : Z;
  bytes0 : Z;
  maxIndex0 : Z;
}.
Implicit Types (rc : rconfig) (i : Z).

Definition set_base (b : config I) rc : rconfig :=
  mkRConfig b (connected rc) (cfg_logs rc) (maxIndex rc) (bytes0 rc) (maxIndex0 rc).
Definition set_connected (c : list bool) rc : rconfig :=
  mkRConfig (rc_base rc) c (cfg_logs rc) (maxIndex rc) (bytes0 rc) (maxIndex0 rc).

(** the end of [crash1]: an empty persister that gets the state, and no snapshot *)
Definition keepRaftState i (b : config I) : go (config I) :=
  sv ← idx (saved b) i;
  match sv with
  | None => Ret b
  | Some q =>
      ps ← idx (persisters b) (Z.of_nat q);
      let raftlog := ReadRaftState ps in
      svs ← upd (saved b) i (Some (length (persisters b)));
      Ret (set_saved (persisters b ++ [SaveRaftState raftlog (mkPersister [] [])]) svs b)
  end.

Definition crash1 i rc : go rconfig :=
  let b := rc_base rc in
  '(conn, rn) ← rf_disconnect (endnames b) (cfg_n b) i (connected rc, cfg_net b);
  b ← freshPersister i (set_net (DeleteServer (inr i) rn) b);
  b ← killServer i b;
  b ← keepRaftState i b;
  Ret (set_connected conn (set_base b rc)).

Definition start1 i (names : list string) (svc : Service) rc : go rconfig :=
  rc ← crash1 i rc;
  b ← StartServer_prepare i names (rc_base rc);
  b ← launch i (AddService svc MakeServer) b;
  Ret (set_base b rc).

Fixpoint start1All i (names : list (list string)) (svc : Service) rc : go rconfig :=
  match names with
  | [] => Ret rc
  | ns :: names => rc ← start1 i ns svc rc; start1All (i + 1) names svc rc
  end.

Definition connect1 i rc : go rconfig :=
  let b := rc_base rc in
  '(conn, rn) ← rf_connect (endnames b) (cfg_n b) i (connected rc, cfg_net b);
  Ret (set_connected conn (set_base (set_net rn b) rc)).
Definition disconnect1 i rc : go rconfig :=
  let b := rc_base rc in
  '(conn, rn) ← rf_disconnect (endnames b) (cfg_n b) i (connected rc, cfg_net b);
  Ret (set_connected conn (set_base (set_net rn b) rc)).

Fixpoint connectServers (js : list Z) rc : go rconfig :=
  match js with
  | [] => Ret rc
  | i :: js => rc ← connect1 i rc; connectServers js rc
  end.

Definition rf_make_config (n : Z) (names : list (list string)) (svc : Service) (unreliable : bool)
    : go rconfig :=
  let k := Z.to_nat n in
  let rn := LongDelays true (Reliable (negb unreliable) MakeNetwork) in
  let b := mkConfig rn [] n [] (replicate k None) [] (replicate k None) (replicate k None) ∅ 0 0 0 in
  rc ← start1All 0 names svc (mkRConfig b (replicate k false) (replicate k ∅) 0 0 0);
  connectServers (All n) rc.

(** server [i] delivers [m] *)
Definition deliver `{!EqDecision Cmd} i (m : ApplyMsg Cmd) rc : go rconfig :=
  '(logs, mx) ← applierStep i m (cfg_logs rc, maxIndex rc);
  Ret (mkRConfig (rc_base rc) (connected rc) logs mx (bytes0 rc) (maxIndex0 rc)).

Definition rpcCount i rc : go Z := GetCount (inr i) (cfg_store (rc_base rc)) (cfg_net (rc_base rc)).
Definition bytesTotal rc : Z := GetTotalBytes (cfg_net (rc_base rc)).
Definition setunreliable (unrel : bool) rc : rconfig :=
  set_base (set_net (Reliable (negb unrel) (cfg_net (rc_base rc))) (rc_base rc)) rc.
Definition setlongreordering (longrel : bool) rc : rconfig :=
  set_base (set_net (LongReordering longrel (cfg_net (rc_base rc))) (rc_base rc)) rc.

Definition rf_begin rc : rconfig :=
  mkRConfig (cfg_begin (rc_base rc)) (connected rc) (cfg_logs rc) (maxIndex rc) (bytesTotal rc) (maxIndex rc).
(** the numbers that [end] prints: peers, RPCs, bytes, agreements *)
Definition rf_end rc : Z * Z * Z * Z :=
  (cfg_n (rc_base rc), rpcTotal (rc_base rc) - rpcs0 (rc_base rc), bytesTotal rc - bytes0 rc,
   maxIndex rc - maxIndex0 rc).
Definition rf_cleanup rc : go rconfig := b ← cfg_cleanup (rc_base rc); Ret (set_base b rc).
End config.

Arguments rconfig : clear implicits.
