(* ===== verification/HarnessRaftSpec.v ===== *)
(** * The test harness of package raft: what its checks check

    The goroutines that read what the servers deliver stop the test exactly when two
    servers deliver different commands at an index, or a server skips one. *)

From S2P Require Import Prelude Gob Labgob Labrpc Raft HarnessKV HarnessRaft.

Section delivery.
Context {Cmd : Type} `{!EqDecision Cmd}.
Implicit Types (logs : list (gmap Z (option Cmd))) (m : ApplyMsg Cmd) (msgs : list (Z * ApplyMsg Cmd))
  (i j k : Z) (v : option Cmd).

(** deliveries of all servers, in the order in which the harness takes [cfg.mu] *)
Fixpoint applierRun msgs (s : list (gmap Z (option Cmd)) * Z)
    : go (list (gmap Z (option Cmd)) * Z) :=
  match msgs with
  | [] => Ret s
  | (i, m) :: msgs => s ← applierStep i m s; applierRun msgs s
  end.

Lemma applierRun_snoc msgs i m s :
  applierRun (msgs ++ [(i, m)]) s = s' ← applierRun msgs s; applierStep i m s'.
Proof.
  revert s. induction msgs as [|[i' m'] msgs IH]; intros s; simpl.
  - by destruct (applierStep i m s).
  - destruct (applierStep i' m' s); simpl; [apply IH|done..].
Qed.

(** server [i] delivers command [v] with index [k] *)
Definition delivers msgs i k v : Prop :=
  ∃ m, (i, m) ∈ msgs ∧ am_CommandValid m = true ∧ am_CommandIndex m = k ∧ am_Command m = v.

Definition agree msgs : Prop := ∀ i j k v w, delivers msgs i k v → delivers msgs j k w → v = w.

(** the command before is delivered first *)
Definition inOrder msgs : Prop :=
  ∀ p i m q, msgs = p ++ (i, m) :: q → am_CommandValid m = true → 1 < am_CommandIndex m →
    ∃ v, delivers p i (am_CommandIndex m - 1) v.

Definition fromServers (n : nat) msgs : Prop :=
  ∀ i m, (i, m) ∈ msgs → am_CommandValid m = true → 0 ≤ i < Z.of_nat n.

(** the logs hold what was delivered *)
Definition recorded (n : nat) msgs logs : Prop :=
  length logs = n
  ∧ ∀ i li, idx logs i = Ret li → ∀ k v, li !! k = Some v ↔ delivers msgs i k v.

Lemma delivers_snoc msgs i m j k v :
  delivers (msgs ++ [(i, m)]) j k v ↔
  delivers msgs j k v ∨ (j = i ∧ am_CommandValid m = true ∧ am_CommandIndex m = k ∧ am_Command m = v).
Proof.
  unfold delivers. setoid_rewrite elem_of_app. setoid_rewrite list_elem_of_singleton. naive_solver.
Qed.

Lemma conflict_false k v logs :
  conflict k v logs = false ↔ ∀ l w, l ∈ logs → l !! k = Some w → w = v.
Proof.
  induction logs as [|l logs IH]; simpl.
  - split; [|done]. intros _ l w Hl. by apply elem_of_nil in Hl.
  - setoid_rewrite elem_of_cons. destruct (l !! k) as [old|] eqn:E.
    + rewrite orb_false_iff, IH, bool_decide_eq_false. split.
      * intros [Hold Hl] l' w [->|Hl'] Hw; [|by eapply Hl].
        apply dec_stable. intros Hne. apply Hold. congruence.
      * intros H. split; [|naive_solver]. intros Hne. apply Hne. by eapply H; [left|].
    + rewrite IH. split; naive_solver congruence.
Qed.

Lemma elem_logs logs l : l ∈ logs ↔ ∃ i, idx logs i = Ret l.
Proof.
  split.
  - intros [p Hp]%list_elem_of_lookup_1. exists (Z.of_nat p). apply idx_Ret. rewrite Nat2Z.id. split; [lia|done].
  - intros [i [_ Hi]%idx_Ret]. by eapply list_elem_of_lookup_2.
Qed.

(** the test of a conflict, in terms of what was delivered *)
Lemma conflict_delivers n msgs logs k v :
  recorded n msgs logs → fromServers n msgs →
  conflict k v logs = false ↔ ∀ j w, delivers msgs j k w → w = v.
Proof.
  intros [Hn Hrec] Hfrom. rewrite conflict_false. split.
  - intros Hc j w Hd. assert (0 ≤ j < len logs) as Hj.
    { destruct Hd as (m & Hin & Hv & _). unfold len. rewrite Hn. by eapply Hfrom. }
    destruct (idx_total logs j Hj) as [lj Hlj]. eapply Hc; [apply elem_logs; by exists j|].
    by eapply Hrec.
  - intros Hd l w [i Hi]%elem_logs Hw. eapply Hd. by apply (Hrec i l Hi).
Qed.

Lemma agree_snoc msgs i m :
  agree (msgs ++ [(i, m)]) ↔
  agree msgs ∧ (am_CommandValid m = true → ∀ j w, delivers msgs j (am_CommandIndex m) w → w = am_Command m).
Proof.
  unfold agree. split.
  - intros H. split.
    + intros i' j k v w H1 H2. apply (H i' j k v w); apply delivers_snoc; by left.
    + intros Hv j w Hw. apply (H j i (am_CommandIndex m)); apply delivers_snoc; [by left|by right].
  - intros [H Hm] i' j k v w [H1|(-> & Hv & <- & <-)]%delivers_snoc [H2|(-> & Hv' & Hk & <-)]%delivers_snoc.
    + by eapply H.
    + subst k. by eapply Hm.
    + symmetry. by eapply Hm.
    + done.
Qed.

Lemma inOrder_snoc msgs i m :
  inOrder (msgs ++ [(i, m)]) ↔
  inOrder msgs ∧ (am_CommandValid m = true → 1 < am_CommandIndex m →
                  ∃ v, delivers msgs i (am_CommandIndex m - 1) v).
Proof.
  split.
  - intros H. split.
    + intros p i' m' q -> Hv Hk. apply (H p i' m' (q ++ [(i, m)])); [|done..]. by rewrite <-app_assoc.
    + intros Hv Hk. by apply (H msgs i m []).
  - intros [H Hm] p i' m' q E Hv Hk. destruct q as [|x q] using rev_ind.
    + apply app_inj_tail in E as [-> [= -> ->]]. by apply Hm.
    + rewrite app_comm_cons, app_assoc in E. apply app_inj_tail in E as [-> _]. by eapply H.
Qed.

Lemma fromServers_snoc n msgs i m :
  fromServers n (msgs ++ [(i, m)]) ↔
  fromServers n msgs ∧ (am_CommandValid m = true → 0 ≤ i < Z.of_nat n).
Proof.
  unfold fromServers. setoid_rewrite elem_of_app. setoid_rewrite list_elem_of_singleton. naive_solver.
Qed.

(** what one delivery does, when the logs are right so far *)
Lemma applierStep_spec n msgs i m logs mx :
  recorded n msgs logs → fromServers n msgs → am_CommandValid m = true →
  (∀ s, applierStep i m (logs, mx) = Ret s →
     0 ≤ i < Z.of_nat n
     ∧ (∀ j w, delivers msgs j (am_CommandIndex m) w → w = am_Command m)
     ∧ (1 < am_CommandIndex m → ∃ v, delivers msgs i (am_CommandIndex m - 1) v)
     ∧ recorded n (msgs ++ [(i, m)]) s.1)
  ∧ (0 ≤ i < Z.of_nat n → (∀ j w, delivers msgs j (am_CommandIndex m) w → w = am_Command m) →
     (1 < am_CommandIndex m → ∃ v, delivers msgs i (am_CommandIndex m - 1) v) →
     ∃ s, applierStep i m (logs, mx) = Ret s).
Proof.
  intros Hrec Hfrom Hval. pose proof Hrec as [Hn Hlogs]. unfold applierStep. rewrite Hval. simpl.
  assert (∀ li, idx logs i = Ret li →
    bool_decide (is_Some (li !! (am_CommandIndex m - 1))) = true
    ↔ ∃ v, delivers msgs i (am_CommandIndex m - 1) v) as Hprev.
  { intros li Hli. rewrite bool_decide_eq_true. unfold is_Some. by setoid_rewrite (Hlogs i li Hli). }
  pose proof (conflict_delivers n msgs logs (am_CommandIndex m) (am_Command m) Hrec Hfrom) as Hconf.
  split.
  - intros s E. apply go_bind_Ret_inv in E as (li & Hli & E). apply go_bind_Ret_inv in E as (logs' & Hup & E).
    case_match eqn:Hbad; [done|]. injection E as <-. apply orb_false_iff in Hbad as [Hc Ho].
    pose proof (proj1 Hconf Hc) as Hsame.
    apply upd_inv in Hup as [Hr ->]. unfold len in Hr. rewrite Hn in Hr. split_and!; try lia; try done.
    + intros Hk. apply (Hprev li Hli). rewrite (proj2 (Z.ltb_lt _ _) Hk) in Ho. simpl in Ho.
      by apply negb_false_iff in Ho.
    + split; [simpl; by rewrite length_insert|]. simpl. intros j lj Hlj k v. rewrite delivers_snoc.
      apply idx_Ret in Hlj as [Hj Hlj]. apply list_lookup_insert_Some in Hlj as [(Hij & <- & _)|[Hij Hlj]].
      * assert (j = i) as -> by lia. rewrite lookup_insert_Some, (Hlogs i li Hli). split.
        -- intros [[<- <-]|[_ ?]]; [by right|by left].
        -- intros [Hd|(_ & _ & <- & <-)]; [|by left].
           destruct (decide (am_CommandIndex m = k)) as [<-|Hne]; [left|by right].
           split; [done|]. symmetry. by eapply Hsame.
      * rewrite (Hlogs j lj) by (by apply idx_Ret). split; [by left|].
        intros [?|(-> & _)]; [done|lia].
  - intros Hi Hsame Hk. destruct (idx_total logs i) as [li Hli]; [unfold len; lia|]. rewrite Hli. simpl.
    rewrite upd_Ret by (unfold len; lia). simpl. rewrite (proj2 Hconf Hsame). simpl.
    destruct (Z.ltb_spec 1 (am_CommandIndex m)) as [Hlt|]; [|by eexists].
    rewrite (proj2 (Hprev li Hli)) by auto. by eexists.
Qed.

Lemma replicate_recorded n : recorded n [] (replicate n ∅).
Proof.
  split; [by rewrite length_replicate|]. intros i li [_ Hi]%idx_Ret k v.
  apply lookup_replicate in Hi as [-> _]. rewrite lookup_empty. split; [done|].
  intros (m & Hin & _). by apply elem_of_nil in Hin.
Qed.

Lemma applierRun_spec n msgs :
  (∀ s, applierRun msgs (replicate n ∅, 0) = Ret s →
     agree msgs ∧ inOrder msgs ∧ fromServers n msgs ∧ recorded n msgs s.1)
  ∧ (agree msgs → inOrder msgs → fromServers n msgs →
     ∃ s, applierRun msgs (replicate n ∅, 0) = Ret s).
Proof.
  induction msgs as [|[i m] msgs [IH1 IH2]] using rev_ind.
  { split; [|by eexists]. intros s [= <-]. split_and!.
    - intros i j k v w (m & Hin & _). by apply elem_of_nil in Hin.
    - intros p i m q E. by destruct p.
    - intros i m Hin. by apply elem_of_nil in Hin.
    - apply replicate_recorded. }
  rewrite applierRun_snoc. setoid_rewrite agree_snoc. setoid_rewrite inOrder_snoc.
  setoid_rewrite fromServers_snoc.
  destruct (am_CommandValid m) eqn:Hval.
  2: { assert (∀ s, applierStep i m s = Ret s) as Hskip by (intros [logs mx]; unfold applierStep; by rewrite Hval).
    split.
    - intros s E. apply go_bind_Ret_inv in E as ([logs mx] & E & Es). rewrite Hskip in Es. simplify_eq.
      destruct (IH1 _ E) as (? & ? & ? & Hn & Hrec). split_and!; try done. split; [done|].
      intros j lj Hlj k v. rewrite delivers_snoc, (Hrec j lj Hlj), Hval. naive_solver.
    - intros [Ha _] [Ho _] [Hf _]. destruct (IH2 Ha Ho Hf) as [s ->]. exists s. apply Hskip. }
  split.
  - intros s E. apply go_bind_Ret_inv in E as ([logs mx] & E & Es).
    destruct (IH1 _ E) as (Ha & Ho & Hf & Hrec).
    destruct (proj1 (applierStep_spec n msgs i m logs mx Hrec Hf Hval) s Es) as (? & ? & ? & ?).
    split_and!; done.
  - intros [Ha Ha'] [Ho Ho'] [Hf Hf']. destruct (IH2 Ha Ho Hf) as [[logs mx] E]. rewrite E. simpl.
    destruct (IH1 _ E) as (_ & _ & _ & Hrec).
    apply (applierStep_spec n msgs i m logs mx Hrec Hf Hval).
    + by apply Hf'.
    + by apply Ha'.
    + by apply Ho'.
Qed.

Lemma nCommitted_loop_ok k logs count cmd :
  0 ≤ count →
  (∀ l l' v w, l ∈ logs → l' ∈ logs → l !! k = Some v → l' !! k = Some w → v = w) →
  (0 < count → ∀ l v, l ∈ logs → l !! k = Some v → v = cmd) →
  ∃ cmd', nCommitted_loop k logs count cmd
          = Ret (count + len (filter (λ l, is_Some (l !! k)) logs), cmd')
    ∧ (0 < count → cmd' = cmd) ∧ (∀ l v, l ∈ logs → l !! k = Some v → cmd' = v).
Proof.
  revert count cmd. induction logs as [|l logs IH]; intros count cmd Hc Hall Hcmd; simpl.
  { exists cmd. rewrite Z.add_0_r. split_and!; [done|done|]. intros l v Hl. by apply elem_of_nil in Hl. }
  assert (∀ x y v w, x ∈ logs → y ∈ logs → x !! k = Some v → y !! k = Some w → v = w) as Hall'.
  { intros x y v w Hx Hy. apply Hall; by right. }
  rewrite filter_cons. destruct (l !! k) as [cmd1|] eqn:E.
  - assert ((0 <? count) && bool_decide (cmd ≠ cmd1) = false) as ->.
    { destruct (Z.ltb_spec 0 count); [|done]. apply bool_decide_eq_false. intros Hne. apply Hne.
      symmetry. apply (Hcmd ltac:(lia) l); [by left|done]. }
    assert (∀ x v, x ∈ logs → x !! k = Some v → v = cmd1) as Hcmd1.
    { intros x v Hx Hv. apply (Hall x l); [by right|by left|done..]. }
    destruct (IH (count + 1) cmd1 ltac:(lia) Hall' (λ _, Hcmd1)) as (cmd' & Eq & Hlast & Hcmd').
    rewrite decide_True by by eexists. exists cmd'. rewrite Eq. split_and!.
    + unfold len. simpl. do 2 f_equal. lia.
    + intros Hpos. rewrite Hlast by lia. apply (Hcmd Hpos l); [by left|done].
    + intros x v [->|Hx]%elem_of_cons Hv; [|by eapply Hcmd']. rewrite Hlast by lia. congruence.
  - rewrite decide_False by (intros [? ?]; done).
    destruct (IH count cmd Hc Hall') as (cmd' & -> & Hlast & Hcmd').
    { intros Hpos x v Hx. apply (Hcmd Hpos). by right. }
    exists cmd'. split_and!; [done|done|]. intros x v [->|Hx]%elem_of_cons Hv; [congruence|by eapply Hcmd'].
Qed.

(** the positions of the elements that a filter keeps *)
Lemma filter_positions {A} (P : A → Prop) `{!∀ x, Decision (P x)} (l : list A) :
  ∃ S : list nat, NoDup S ∧ length S = length (filter P l)
    ∧ ∀ p, p ∈ S ↔ ∃ x, l !! p = Some x ∧ P x.
Proof.
  induction l as [|x l (S & Hnd & Hlen & HS)] using rev_ind.
  { exists []. split_and!; [constructor|done|]. intros p. rewrite elem_of_nil. naive_solver. }
  assert (∀ p, (∃ y, (l ++ [x]) !! p = Some y ∧ P y) ↔ p ∈ S ∨ (p = length l ∧ P x)) as Hp.
  { intros p. rewrite HS. split.
    - intros (y & [Hy|[Hge Hy]]%lookup_app_Some & HPy); [left; by exists y|].
      apply list_lookup_singleton_Some in Hy as [? <-]. right. split; [lia|done].
    - intros [(y & Hy & HPy)|[-> HPx]].
      + exists y. split; [by apply lookup_app_l_Some|done].
      + exists x. split; [by apply list_lookup_middle|done]. }
  rewrite filter_app, filter_cons, filter_nil, length_app. destruct (decide (P x)) as [HPx|HPx].
  - exists (S ++ [length l]). split_and!.
    + apply NoDup_app. split_and!; [done| |apply NoDup_singleton].
      intros p Hin ->%list_elem_of_singleton. apply HS in Hin as (y & Hy & _).
      apply lookup_lt_Some in Hy. lia.
    + rewrite length_app, Hlen. done.
    + intros p. rewrite Hp, elem_of_app, list_elem_of_singleton. tauto.
  - exists S. split_and!; [done|simpl; lia|]. intros p. rewrite Hp. tauto.
Qed.

(** C19: The harness of the Raft tests checks agreement and order, no more and no less:
    the goroutines that read the deliveries of [n] servers accept a sequence of messages
    exactly when all servers deliver the same command at an index and every server
    delivers a command only after the one before it; and then [nCommitted] does not fail
    at any index and gives the number of servers that have delivered a command there,
    and that command. *)
Theorem delivery_checked n msgs :
  ((∃ s, applierRun msgs (replicate n ∅, 0) = Ret s)
   ↔ agree msgs ∧ inOrder msgs ∧ fromServers n msgs)
  ∧ ∀ logs mx k, applierRun msgs (replicate n ∅, 0) = Ret (logs, mx) →
      ∃ S cmd, nCommitted k logs = Ret (len S, cmd)
        ∧ NoDup S ∧ (∀ i, i ∈ S ↔ ∃ v, delivers msgs i k v)
        ∧ ∀ i v, delivers msgs i k v → cmd = v.
Proof.
  destruct (applierRun_spec n msgs) as [H1 H2]. split.
  { split; [|intros (? & ? & ?); auto]. intros [s Hs]. destruct (H1 s Hs) as (? & ? & ? & _). done. }
  intros logs mx k E. destruct (H1 _ E) as (Ha & _ & Hf & Hn & Hrec). simpl in Hn, Hrec.
  assert (∀ i v, delivers msgs i k v ↔ ∃ l, idx logs i = Ret l ∧ l !! k = Some v) as Hd.
  { intros i v. split.
    - intros Hd. destruct (idx_total logs i) as [l Hl].
      { destruct Hd as (m & Hin & Hval & _). unfold len. rewrite Hn. by eapply Hf. }
      exists l. split; [done|]. by apply (Hrec i l Hl).
    - intros (l & Hl & Hv). by apply (Hrec i l Hl). }
  destruct (nCommitted_loop_ok k logs 0 None) as (cmd & Ec & _ & Hcmd); [lia| |lia|].
  { intros l l' v w [i Hi]%elem_logs [j Hj]%elem_logs Hv Hw. apply (Ha i j k); apply Hd; eauto. }
  destruct (filter_positions (λ l, is_Some (l !! k)) logs) as (S & Hnd & Hlen & HS).
  exists (Z.of_nat <$> S), cmd. split_and!.
  - unfold nCommitted. rewrite Ec. unfold len. by rewrite length_fmap, Hlen.
  - apply NoDup_fmap_2; [apply _|done].
  - intros i. setoid_rewrite Hd. rewrite list_elem_of_fmap. setoid_rewrite HS. split.
    + intros (p & -> & l & Hl & [v Hv]). exists v, l. split; [|done]. apply idx_Ret. rewrite Nat2Z.id.
      split; [lia|done].
    + intros (v & l & [Hi Hl]%idx_Ret & Hv). exists (Z.to_nat i). split; [lia|]. exists l.
      split; [done|by eexists].
  - intros i v (l & Hl & Hv)%Hd. eapply Hcmd; [apply elem_logs; by exists i|done].
Qed.
End delivery.
