(* ===== verification/RaftDelivery.v ===== *)
(** * Package raft: the order of the messages for the service

    A peer of a cluster ([RaftCluster.v]) delivers, from its start or from a snapshot on,
    the commands with consecutive command indices, up to its commit index ([delivered]),
    and every step keeps that as long as it does not take away the entry at the commit
    index ([commitKept], which [RaftAgreement.v] shows of a cluster).  Without snapshots
    that is what the readers of the Raft tests accept ([HarnessRaftSpec.v]). *)

From S2P Require Import Prelude Gob Labgob Labrpc Raft RaftStep RaftPersist RaftLog RaftSafety.
From S2P Require Import RaftElection RaftCommit RaftCluster HarnessKV HarnessRaft HarnessRaftSpec.

Section delivery.
Context {Cmd : Type} `{!EqDecision Cmd} `{!GobCodec Z} `{!GobCodec (list (LogEntry Cmd))}.
Implicit Types (rf : Raft Cmd) (c : Cluster Cmd) (F : Forest Cmd) (el : gmap Z nat).
Implicit Types msgs : list (ApplyMsg Cmd).

(** ** What a service may expect of the messages *)

(** the command index after the messages: a command is the next one, a snapshot says
    where it ends; [None]: a command is missing or comes twice *)
Fixpoint follow (b : Z) msgs : option Z :=
  match msgs with
  | [] => Some b
  | m :: msgs =>
      if am_CommandValid m then
        if am_CommandIndex m =? b + 1 then follow (b + 1) msgs else None
      else follow (am_LastIncludedCmdIndex m) msgs
  end.

Lemma follow_app b msgs1 msgs2 : follow b (msgs1 ++ msgs2) = b' ← follow b msgs1; follow b' msgs2.
Proof.
  revert b. induction msgs1 as [|m msgs1 IH]; intros b; simpl; [done|].
  destruct (am_CommandValid m); [|apply IH]. case_match; [apply IH|done].
Qed.

(** everything up to the commit index is delivered, and the end of what is delivered is
    what the log holds between the snapshot and the commit index *)
Definition delivered rf : Prop :=
  ∃ e, entryAt rf (commitIndex rf) = Some e ∧ follow 0 (applyChan rf) = Some (CommandIndex e)
    ∧ commandMsgs (entriesBetween rf (lastIncludedIndex rf) (commitIndex rf))
        `suffix_of` applyChan rf.

Lemma entriesBetween_split rf lo mid hi :
  lastIncludedIndex rf ≤ lo → lo ≤ mid ≤ hi →
  entriesBetween rf lo hi = entriesBetween rf lo mid ++ entriesBetween rf mid hi.
Proof.
  intros Hlo Hm. unfold entriesBetween.
  replace (Z.to_nat (hi - lo)) with (Z.to_nat (mid - lo) + Z.to_nat (hi - mid))%nat by lia.
  rewrite <-take_take_drop, drop_drop. do 3 f_equal. lia.
Qed.

Lemma entryAt_lo rf k e : entryAt rf k = Some e → lastIncludedIndex rf ≤ k.
Proof. unfold entryAt. case_match; [lia|done]. Qed.

(** the messages of a stretch of the log *)
Lemma follow_between F el i rf lo d : ∀ e e',
  peer_ok F el i rf → entryAt rf lo = Some e → entryAt rf (lo + Z.of_nat d) = Some e' →
  follow (CommandIndex e) (commandMsgs (entriesBetween rf lo (lo + Z.of_nat d)))
  = Some (CommandIndex e').
Proof.
  induction d as [|d IH]; intros e e' Hok He He'.
  { rewrite Z.add_0_r in *. rewrite entriesBetween_nil by lia. simpl. congruence. }
  apply entryAt_lo in He as Hlo.
  destruct (entry_link _ _ _ _ _ _ Hok He') as (p & Hp & _ & Hci & _); [lia|].
  replace (lo + Z.of_nat (S d) - 1) with (lo + Z.of_nat d) in Hp by lia.
  rewrite (entriesBetween_snoc rf lo _ e'), commandMsgs_app, follow_app by (done || lia).
  replace (lo + Z.of_nat (S d) - 1) with (lo + Z.of_nat d) by lia.
  rewrite (IH e p Hok He Hp). simpl. unfold commandMsgs. rewrite filter_cons, filter_nil.
  destruct (IsInternalLog e'); simpl; [congruence|]. by rewrite Hci, Z.eqb_refl.
Qed.

(** [rf'] is [rf] after committing some more entries *)
Definition commits rf rf' : Prop :=
  logs rf' = logs rf ∧ lastIncludedIndex rf' = lastIncludedIndex rf
  ∧ commitIndex rf ≤ commitIndex rf'
  ∧ applyChan rf'
    = applyChan rf ++ commandMsgs (entriesBetween rf (commitIndex rf) (commitIndex rf'))
  ∧ (commitIndex rf < commitIndex rf' → is_Some (entryAt rf (commitIndex rf'))).

Lemma entryAt_ext rf rf' k :
  logs rf' = logs rf → lastIncludedIndex rf' = lastIncludedIndex rf → entryAt rf' k = entryAt rf k.
Proof. unfold entryAt. by intros -> ->. Qed.

Lemma commits_delivered F el i rf rf' :
  peer_ok F el i rf' → commits rf rf' → delivered rf → delivered rf'.
Proof.
  intros Hok (El & Ei & Hle & Ha & He') (e & He & Hf & Hs). apply entryAt_lo in He as Hlo.
  assert (is_Some (entryAt rf (commitIndex rf'))) as [e' Hc].
  { destruct (decide (commitIndex rf = commitIndex rf')) as [<-|]; [eauto|]. apply He'. lia. }
  rewrite <-(entryAt_ext rf rf') in He, Hc by done.
  assert (∀ lo hi, entriesBetween rf lo hi = entriesBetween rf' lo hi) as Hb
    by (intros; unfold entriesBetween; by rewrite El, Ei).
  rewrite Hb in Hs, Ha. exists e'. split_and!; [done| |].
  - rewrite Ha, follow_app, Hf. simpl.
    replace (commitIndex rf') with (commitIndex rf + Z.of_nat (Z.to_nat (commitIndex rf' - commitIndex rf)))
      in Hc |- * by lia.
    by eapply follow_between.
  - rewrite (entriesBetween_split rf' _ (commitIndex rf)), commandMsgs_app, Ha by lia.
    apply suffix_app. by rewrite Ei.
Qed.

(** nothing is committed or sent *)
Definition mute rf rf' : Prop :=
  commitIndex rf' = commitIndex rf ∧ applyChan rf' = applyChan rf.

#[export] Instance mute_preorder : PreOrder mute.
Proof. unfold mute. split; [by intros ?|]. intros ??? [] []. split; congruence. Qed.

Lemma mute_commits rf rf' :
  logs rf' = logs rf → lastIncludedIndex rf' = lastIncludedIndex rf → mute rf rf' → commits rf rf'.
Proof.
  intros El Ei [Ec Ea]. unfold commits. rewrite Ec, Ea, entriesBetween_nil by lia.
  rewrite app_nil_r. split_and!; try done; lia.
Qed.

(** ** The commit rules *)

Lemma applyEntry_inv k rf rf' :
  applyEntry k rf = Ret rf' →
  ∃ e, entryAt rf k = Some e ∧ rf' = set_applyChan (applyChan rf ++ commandMsgs [e]) rf.
Proof.
  unfold applyEntry, logIndex2LogPos. intros H. go_step H. injection H as <-.
  apply idx_Ret in E as [Hk He]. exists a. unfold entryAt.
  rewrite (proj2 (Z.leb_le _ _)) by lia. split; [done|].
  unfold commandMsgs. rewrite filter_cons, filter_nil. simpl.
  destruct (IsInternalLog a); simpl; [|done]. rewrite app_nil_r. by destruct rf.
Qed.

Lemma leaderApply_inv n : ∀ k rf rf',
  leaderApply n k rf = Ret rf' → lastIncludedIndex rf < k →
  rf' = set_applyChan (applyChan rf ++ commandMsgs (entriesBetween rf (k - 1) (k - 1 + Z.of_nat n))) rf
  ∧ ((0 < n)%nat → is_Some (entryAt rf (k - 1 + Z.of_nat n))).
Proof.
  induction n as [|n IH]; intros k rf rf' H Hk; simpl in H.
  { injection H as <-. rewrite entriesBetween_nil by lia. simpl. rewrite app_nil_r.
    split; [by destruct rf|lia]. }
  go_step H. apply applyEntry_inv in E as (e & He & ->).
  apply IH in H as [-> Hsome]; [|simpl; lia]. simpl in *.
  replace (k - 1 + Z.of_nat (S n)) with (k + Z.of_nat n) by lia.
  replace (k + 1 - 1 + Z.of_nat n) with (k + Z.of_nat n) in * by lia.
  unfold entryAt in He. rewrite (proj2 (Z.leb_le _ _)) in He by lia. split.
  - rewrite (entriesBetween_cons rf (k - 1) _ e); [|lia|lia|].
    + rewrite (commandMsgs_cons e (entriesBetween _ _ _)), app_assoc. unfold set_applyChan. simpl.
      do 2 f_equal. by apply commandMsgs_between; simpl; try lia.
    + by replace (k - 1 + 1 - _) with (k - lastIncludedIndex rf) by lia.
  - intros _. destruct n as [|n]; [|by apply Hsome; lia]. rewrite Z.add_0_r.
    unfold entryAt. rewrite (proj2 (Z.leb_le _ _)) by lia. eauto.
Qed.

Lemma commits_refl rf : commits rf rf.
Proof. by apply mute_commits. Qed.

Lemma leaderCommit_inv peer n : ∀ i rf rf',
  leaderCommit peer n i rf = Ret rf' → n = Z.to_nat (i - commitIndex rf) →
  lastIncludedIndex rf ≤ commitIndex rf → commits rf rf'.
Proof.
  induction n as [|n IH]; intros i rf rf' H Hn Hli; simpl in H.
  { injection H as <-. apply commits_refl. }
  go_steps H.
  - apply leaderApply_inv in E4 as [-> Hs]; [|lia]. unfold commits. simpl.
    replace (commitIndex rf + 1 - 1) with (commitIndex rf) in * by lia.
    replace (commitIndex rf + Z.of_nat (Z.to_nat (i - commitIndex rf))) with i in * by lia.
    split_and!; try done; [lia|]. intros _. apply Hs. lia.
  - eapply IH; [done|lia|done].
  - apply commits_refl.
Qed.

Lemma followerCommit_inv lc n : ∀ i rf rf',
  followerCommit lc n i rf = Ret rf' → commitIndex rf = i - 1 →
  lastIncludedIndex rf ≤ commitIndex rf → commits rf rf'.
Proof.
  induction n as [|n IH]; intros i rf rf' H Hc Hli; simpl in H.
  { injection H as <-. apply commits_refl. }
  go_steps H; [|apply commits_refl].
  apply applyEntry_inv in E1 as (e & He & ->).
  apply IH in H as (El & Ei & Hle & Ha & Hs); simpl in *; [|lia..].
  unfold commits. split_and!; try done; [lia| |].
  - rewrite Ha. unfold entryAt in He. rewrite (proj2 (Z.leb_le _ _)) in He by lia.
    rewrite (entriesBetween_cons rf (commitIndex rf) _ e); [|lia|lia|].
    + rewrite (commandMsgs_cons e (entriesBetween _ _ _)), <-app_assoc.
      do 2 f_equal. by apply commandMsgs_between; simpl; try lia.
    + by replace (commitIndex rf + 1) with i by lia.
  - intros _. destruct (decide (i < commitIndex rf')) as [Hlt|Hge].
    + destruct (Hs Hlt) as [e' He']. exists e'. by rewrite <-He'.
    + replace (commitIndex rf') with i by lia. eauto.
Qed.

Lemma AppendEntries_commit_inv args rf rf' :
  AppendEntries_commit args rf = Ret rf' → lastIncludedIndex rf ≤ commitIndex rf → commits rf rf'.
Proof.
  unfold AppendEntries_commit. intros H Hli. case_match; simplify_eq; [|apply commits_refl].
  eapply followerCommit_inv; [done|lia|done].
Qed.

(** ** The steps of a peer *)

Lemma mute_becomeFollower t rf : mute rf (becomeFollower t rf).
Proof.
  destruct (becomeFollower_fields t rf) as (?&?&?&?&?&?&?&?&?&?&?&_). by split.
Qed.

Lemma mute_sendHeartBeat rf rf' : sendHeartBeat rf = Ret rf' → mute rf rf'.
Proof. unfold sendHeartBeat. intros H. by go_steps H. Qed.

Lemma mute_recvHeartBeat rf rf' : recvHeartBeat rf = Ret rf' → mute rf rf'.
Proof. unfold recvHeartBeat. intros H. by go_steps H. Qed.

Lemma mute_setNextIndex peer v rf rf' : setNextIndex peer v rf = Ret rf' → mute rf rf'.
Proof. unfold setNextIndex. intros H. by go_steps H. Qed.

Lemma mute_setMatchIndex peer v rf rf' : setMatchIndex peer v rf = Ret rf' → mute rf rf'.
Proof. unfold setMatchIndex. intros H. by go_steps H. Qed.

Lemma mute_backUp peer reply rf rf' : backUp peer reply rf = Ret rf' → mute rf rf'.
Proof.
  unfold backUp. intros H. go_steps H; try done; by eapply mute_setNextIndex.
Qed.

Lemma mute_startHeartBeats rf : mute rf (startHeartBeats rf).
Proof.
  unfold startHeartBeats. generalize (seq 0 (Z.to_nat (peers rf))) as ps.
  intros ps. revert rf. induction ps as [|i ps IH]; simpl; intros rf; [done|].
  etrans; [|apply IH]. by case_match.
Qed.

Lemma replicationSucceeded_commits peer es rf rf' :
  replicationSucceeded peer es rf = Ret rf' → lastIncludedIndex rf ≤ commitIndex rf → commits rf rf'.
Proof.
  unfold replicationSucceeded. intros H Hli. go_step H. go_step H. go_step H.
  pose proof (frame_setNextIndex _ _ _ _ E0) as F0. pose proof (frame_setMatchIndex _ _ _ _ E1) as F1.
  apply mute_setNextIndex in E0. apply mute_setMatchIndex in E1.
  assert (mute rf a1) as [Ec Ea] by by etrans.
  assert (frame rf a1) as Hfr by by etrans.
  apply proj1, pstate_inv in Hfr as (_ & _ & El & Ei & _).
  assert (commits a1 rf') as (El' & Ei' & Hle & Ha & Hs).
  { case_match; simplify_eq; [|apply commits_refl]. eapply leaderCommit_inv; [done|done|].
    by rewrite Ei, Ec. }
  unfold commits. rewrite Ec in *. split_and!; [congruence|congruence|done| |].
  - rewrite Ha, Ea. f_equal. by apply commandMsgs_between.
  - intros Hlt. rewrite <-(entryAt_ext rf a1) by done. auto.
Qed.

(** the steps that leave the log alone commit, or do nothing *)
Lemma quiet_commits op rf rf' :
  quiet op = true → exec op rf = Ret rf' → lastIncludedIndex rf ≤ commitIndex rf → commits rf rf'.
Proof.
  intros Hq H Hli. destruct (exec_quiet _ _ _ Hq H) as [Hc _]. injection Hc as El Ei _ _.
  assert (mute rf rf' ∨ commits rf rf') as [Hm|?]; [|by apply mute_commits|done].
  destruct op; simpl in *; try done; try go_step H; subst; try (left; done).
  - left. unfold RequestVote_read in E. go_steps E. case_match; [apply mute_becomeFollower|done].
  - left. unfold RequestVote_grant in E. go_steps E; try done.
    fwd mute_sendHeartBeat. etrans; [|by split]. by etrans; [|eassumption].
  - left. unfold StartElection_begin in E. go_steps E; done.
  - left. destruct d; simpl in *; go_steps H; try done; apply mute_becomeFollower.
  - left. by apply mute_recvHeartBeat.
  - left. destruct ev; simpl in *; go_steps E; try done. fwd mute_recvHeartBeat. by etrans.
  - unfold doAppendEntriesRPC_reply in E. go_steps E; try (left; done).
    + right. by eapply replicationSucceeded_commits.
    + left. apply mute_becomeFollower.
    + left. by eapply mute_backUp.
  - left. unfold doInstallSnapshotRPC_reply in E. go_steps E; try done; [apply mute_becomeFollower|].
    fwd mute_setNextIndex. fwd mute_setMatchIndex. by etrans.
Qed.
(** ** The entry at the commit index *)

(** a peer's log in a bigger forest; only a leader promises more *)
Lemma peer_mono F F' el el' i rf :
  F ⊆ F' → peer_ok F el i rf → peer_ok F' el' i (set_role FOLLOWER rf).
Proof. intros Hs [Hc Hh Hd _]. split; [by eapply chain_mono|done|exact Hd|done]. Qed.

(** below an entry of the same index and term, two logs are the same *)
Lemma entriesBetween_same F el i j rf rf' d : ∀ lo e e',
  peer_ok F el i rf → peer_ok F el j rf' →
  entryAt rf (lo + Z.of_nat d) = Some e → entryAt rf' (lo + Z.of_nat d) = Some e' →
  LogTerm e = LogTerm e' → lastIncludedIndex rf ≤ lo → lastIncludedIndex rf' ≤ lo →
  entriesBetween rf lo (lo + Z.of_nat d) = entriesBetween rf' lo (lo + Z.of_nat d).
Proof.
  induction d as [|d IH]; intros lo e e' Hok Hok' He He' Ht Hlo Hlo'.
  { by rewrite !entriesBetween_nil by lia. }
  destruct (entry_same _ _ _ _ _ _ _ _ _ Hok Hok' He He' Ht)
    as (-> & p & p' & Hp & Hp' & Htp); [lia..|].
  rewrite (entriesBetween_snoc rf lo _ e'), (entriesBetween_snoc rf' lo _ e') by (done || lia).
  f_equal.
  replace (lo + Z.of_nat (S d) - 1) with (lo + Z.of_nat d) in * by lia. by eapply IH.
Qed.

(** the entry at the commit index is still there after a step, unless the step restarts
    from a snapshot; and a snapshot holds committed entries only *)
Definition commitKept rf rf' : Prop :=
  lastIncludedIndex rf' ≤ commitIndex rf'
  ∧ (lastIncludedIndex rf' ≤ commitIndex rf ≤ commitIndex rf' →
     ∀ e, entryAt rf (commitIndex rf) = Some e →
     ∃ e', entryAt rf' (commitIndex rf) = Some e' ∧ LogTerm e' = LogTerm e).

(** the log changes, but not the entry at the commit index *)
Lemma kept_delivered F F' el el' i rf rf' :
  forest_ok F' el' → F ⊆ F' → peer_ok F el i rf → peer_ok F' el' i rf' →
  mute rf rf' → lastIncludedIndex rf ≤ lastIncludedIndex rf' ≤ commitIndex rf →
  (∀ e, entryAt rf (commitIndex rf) = Some e →
     ∃ e', entryAt rf' (commitIndex rf) = Some e' ∧ LogTerm e' = LogTerm e) →
  delivered rf → delivered rf'.
Proof.
  intros Hf Hs Hok Hok' [Ec Ea] Hli Hk (e & He & Hfo & Hsuf).
  destruct (Hk e He) as (e' & He' & Ht).
  apply (peer_mono _ F' _ el' _ _ Hs) in Hok.
  exists e'. rewrite Ec, Ea. split_and!; [done| |].
  - rewrite Hfo. f_equal.
    destruct (entry_place _ _ _ _ _ _ Hok He) as [Hi Hn].
    destruct (entry_place _ _ _ _ _ _ Hok' He') as [Hi' Hn'].
    eapply node_fun; [done..|congruence|done].
  - rewrite (entriesBetween_split rf _ (lastIncludedIndex rf')), commandMsgs_app in Hsuf by lia.
    apply suffix_app_l in Hsuf.
    replace (commitIndex rf) with (lastIncludedIndex rf'
      + Z.of_nat (Z.to_nat (commitIndex rf - lastIncludedIndex rf'))) in Hsuf, He, He' |- * by lia.
    rewrite <-(entriesBetween_same F' el' i i (set_role FOLLOWER rf) rf' _ _ e e'); try done. simpl. lia.
Qed.

(** [rf'] with what [rf] has committed and delivered *)
Definition rewind rf rf' : Raft Cmd :=
  set_commitIndex (commitIndex rf) (set_applyChan (applyChan rf) rf').

(** a snapshot is taken, or the log changes and entries of the new log are committed *)
Definition relogged rf rf' : Prop :=
  (mute rf rf' ∧ lastIncludedIndex rf ≤ lastIncludedIndex rf')
  ∨ (lastIncludedIndex rf' = lastIncludedIndex rf ∧ commits (rewind rf rf') rf').

Lemma relogged_via rf rf1 rf' :
  mute rf rf1 → lastIncludedIndex rf1 = lastIncludedIndex rf → commits rf1 rf' → relogged rf rf'.
Proof.
  intros [Ec Ea] Hli (El & Ei & Hle & Ha & Hs). right. split; [congruence|].
  rewrite Ec in *. unfold commits. simpl. split_and!; [done..| |].
  - rewrite Ha, Ea. f_equal. by apply commandMsgs_between.
  - intros Hlt. rewrite (entryAt_ext rf1 (rewind rf rf')) by done. auto.
Qed.

Lemma relogged_delivered F F' el el' i rf rf' :
  forest_ok F' el' → F ⊆ F' → peer_ok F el i rf → peer_ok F' el' i rf' →
  relogged rf rf' → commitKept rf rf' → delivered rf → delivered rf'.
Proof.
  intros Hf Hs Hok Hok' Hre [Hk1 Hk2] Hd. pose proof Hd as (e & He%entryAt_lo & _).
  destruct Hre as [[Hm Hli]|[Hli Hc]].
  - pose proof Hm as [Ec _]. rewrite Ec in *.
    eapply (kept_delivered F F'); [done..|by apply Hk2|done].
  - eapply commits_delivered; [done..|].
    eapply (kept_delivered F F' el el' i rf (rewind rf rf')); [done..| |by split|simpl; lia| |done].
    + destruct Hok' as [H1 H2 H3 H4]. by split.
    + simpl. apply Hk2. destruct Hc as (_ & _ & Hle & _). simpl in Hle. lia.
Qed.

(** the service starts again from a snapshot, of a new process or of the one that was *)
Definition fromSnapshot rf rf' : Prop :=
  commitIndex rf' = lastIncludedIndex rf'
  ∧ ∃ msgs, (msgs = [] ∨ msgs = applyChan rf) ∧ applyChan rf' = msgs ++ [snapshotMsg rf'].

Lemma fromSnapshot_delivered F el i rf rf' :
  peer_ok F el i rf' → fromSnapshot rf rf' → is_Some (follow 0 (applyChan rf)) → delivered rf'.
Proof.
  intros Hok (Ec & msgs & Hm & Ea) Hf. destruct (po_head _ _ _ _ Hok) as (s & Hs & _ & _ & Hci).
  assert (is_Some (follow 0 msgs)) as [b Hb] by (destruct Hm as [->| ->]; [by eexists|done]).
  exists s. rewrite Ec, Ea, entriesBetween_nil by lia. split_and!.
  - unfold entryAt. by rewrite Z.leb_refl, Z.sub_diag, <-head_lookup.
  - rewrite follow_app, Hb. simpl. congruence.
  - apply suffix_nil.
Qed.

Lemma Make_fromSnapshot n self ps rf : fromSnapshot rf (Make n self ps).
Proof.
  split; [done|]. exists []. split; [by left|]. unfold Make. cbv zeta.
  set (r := readPersist _ _).
  assert (applyChan r = []) as Hr by (unfold r, readPersist; by repeat case_match).
  clearbody r. assert (∀ r : Raft Cmd, applyChan r = [] →
    applyChan (installSnapshotToApplication r) = [snapshotMsg r]) as H
    by (intros r0 Hr0; simpl; by rewrite Hr0).
  by case_match; apply H.
Qed.

Lemma boot_delivered n self : delivered (Make n self MakePersister).
Proof.
  set (rf0 := set_applyChan [] (Make n self MakePersister)).
  eapply (fromSnapshot_delivered ∅ ∅ 0 rf0); [apply boot_ok|apply Make_fromSnapshot|by eexists].
Qed.

Lemma InstallSnapshot_progress args rf rf' reply :
  InstallSnapshot args rf = Ret (rf', reply) → relogged rf rf' ∨ fromSnapshot rf rf'.
Proof.
  unfold InstallSnapshot. intros H. cbv zeta in H. go_step H; [by go_steps H; left; left|].
  set (rf1 := if currentTerm rf <? is_Term args then becomeFollower _ _ else rf) in *.
  assert (mute rf rf1 ∧ lastIncludedIndex rf1 = lastIncludedIndex rf) as [Hm Ei].
  { unfold rf1. destruct (currentTerm rf <? is_Term args); [|by repeat split]. split; [apply mute_becomeFollower|].
    by destruct (becomeFollower_fields (is_Term args) rf) as (_&_&_&_&_&?&_). }
  clearbody rf1. go_step H.
  - left. go_steps H. left. split; [done|lia].
  - right. destruct Hm as [_ Ea]. go_steps H. split; [done|]. exists (applyChan rf). rewrite <-Ea.
    split; [by right|done].
Qed.

Lemma TakeSnapshot_relogged snap li rf rf' : TakeSnapshot snap li rf = Ret rf' → relogged rf rf'.
Proof. unfold TakeSnapshot. intros H. left. go_steps H; (split; [done|simpl; lia]). Qed.

Lemma Start_relogged cmd rf r : Start cmd rf = Ret r → relogged rf r.1.
Proof. unfold Start. intros H. left. by go_steps H. Qed.

Lemma becomeLeader_relogged rf rf' : becomeLeader rf = Ret rf' → relogged rf rf'.
Proof.
  intros H. destruct (becomeLeader_append _ _ H) as (p & e & _ & _ & _ & Hp & _).
  apply pstate_inv in Hp as (_ & _ & _ & Ei & _). simpl in Ei. unfold becomeLeader in H. go_steps H.
  left. split; [|lia]. etrans; [|apply mute_startHeartBeats]. done.
Qed.

(** the part of AppendEntries before the entries *)
Lemma AppendEntries_head t role0 rf rf1 :
  match role0 with
  | FOLLOWER | CANDICATE => sendHeartBeat (becomeFollower t rf)
  | LEADER => Ret (becomeFollower t rf)
  end = Ret rf1 →
  mute rf rf1 ∧ lastIncludedIndex rf1 = lastIncludedIndex rf.
Proof.
  intros H. destruct (becomeFollower_fields t rf) as (_&_&_&_&_&Hi&_). cbv zeta in Hi.
  assert (sendHeartBeat (becomeFollower t rf) = Ret rf1 ∨ rf1 = becomeFollower t rf) as [Hs| ->]
    by (destruct role0; [by left..|right; congruence]).
  - pose proof (frame_sendHeartBeat _ _ Hs) as [(_ & _ & _ & Ei & _)%pstate_inv _].
    apply mute_sendHeartBeat in Hs. split; [|congruence].
    etrans; [apply mute_becomeFollower|done].
  - split; [apply mute_becomeFollower|done].
Qed.

Lemma AppendEntries_relogged args rf rf' reply :
  AppendEntries args rf = Ret (rf', reply) → lastIncludedIndex rf ≤ commitIndex rf → relogged rf rf'.
Proof.
  unfold AppendEntries. intros H Hli. cbv zeta in H. go_step H; [by go_steps H; left|]. go_step H.
  apply AppendEntries_head in E0 as [Hm Ei]. pose proof Hm as [Ec _].
  destruct (Entries args) as [es|].
  - unfold AppendEntries_entries in H. go_steps H; try (left; split; [done|simpl; lia]).
    fwd AppendEntries_commit_inv; [|simpl; lia].
    eapply relogged_via; [..|eassumption]; [|done]. etrans; [exact Hm|done].
  - go_steps H. fwd AppendEntries_commit_inv; [|lia]. by eapply relogged_via.
Qed.

(** ** The cluster *)

(** a step of the cluster that keeps every peer's entry at the commit index *)
Definition kstep c c' : Prop :=
  cstep c c'
  ∧ ∀ i rf rf', nodes c !! i = Some rf → nodes c' !! i = Some rf' → commitKept rf rf'.

(** what a step does to the peers *)
Lemma cstep_progress F c c' i rf rf' :
  cluster_ok F c → cstep c c' → nodes c !! i = Some rf → nodes c' !! i = Some rf' →
  delivered rf → relogged rf rf' ∨ fromSnapshot rf rf'.
Proof.
  intros Hok Hst Hi Hi' Hd. pose proof Hd as (e & Hlo%entryAt_lo & _).
  assert (∀ j (r r' : Raft Cmd), nodes c !! j = Some r → <[j := r']> (nodes c) !! i = Some rf' →
    (i = j ∧ r = rf ∧ r' = rf') ∨ rf' = rf) as Hset.
  { intros j r r' Hj [(-> & -> & _)|[_ H]]%list_lookup_insert_Some; [left; split_and!; congruence|].
    right. congruence. }
  assert (relogged rf rf) as Hrefl by by left.
  destruct Hst as [j r op r' Hr Hown H|j r r' Hr Hel H|j r peer args Hr H
    |j r args r' reply Hr Hin Hpre H|j r Hr Hl|j from r args r' reply Hr Hin Hne H|j r Hr];
    simpl in Hi'; try (destruct (Hset _ _ _ Hr Hi') as [(<- & -> & ->)| ->]; [|by left]).
  - left. destruct (quiet op) eqn:Hq.
    + eapply relogged_via; [done..|by eapply quiet_commits].
    + destruct op as [| | | |snap li|cmd| | |d| | | | | |]; try done; simpl in H.
      * by eapply TakeSnapshot_relogged.
      * go_step H. subst. by eapply Start_relogged.
      * by destruct d.
  - left. by apply becomeLeader_relogged.
  - left. congruence.
  - left. by eapply AppendEntries_relogged.
  - left. congruence.
  - by eapply InstallSnapshot_progress.
  - destruct (Hset _ _ _ Hr Hi') as [(_ & _ & <-)| ->]; [|by left]. right. apply Make_fromSnapshot.
Qed.

Lemma kstep_delivered F c c' :
  cluster_ok F c → kstep c c' → (∀ i rf, nodes c !! i = Some rf → delivered rf) →
  ∀ i rf', nodes c' !! i = Some rf' → delivered rf'.
Proof.
  intros Hok [Hst Hk] Hd i rf' Hi'. destruct (cstep_ok _ _ _ Hok Hst) as (F' & Hs & Hok').
  assert (is_Some (nodes c !! i)) as [rf Hi].
  { apply lookup_lt_is_Some. apply lookup_lt_Some in Hi'.
    by destruct Hst; simpl in Hi'; rewrite ?length_insert in Hi'. }
  pose proof (co_nodes _ _ Hok' _ _ Hi') as Hp'.
  destruct (cstep_progress _ _ _ _ _ _ Hok Hst Hi Hi' (Hd i rf Hi)) as [Hre|Hsn].
  - eapply (relogged_delivered F F'); try done; [apply Hok'|by apply Hok|by eapply Hk|by eapply Hd].
  - destruct (Hd i rf Hi) as (e & _ & Hf & _). eapply fromSnapshot_delivered; [done..|by eexists].
Qed.

(** without snapshots, every command comes, and after the one before it *)
Lemma follow_inOrder z msgs : ∀ b,
  follow 0 msgs = Some b →
  (∀ m, m ∈ msgs → am_CommandValid m = false → am_LastIncludedCmdIndex m = 0) →
  inOrder ((z,.) <$> msgs) ∧ ∀ k, 1 ≤ k ≤ b → ∃ v, delivers ((z,.) <$> msgs) z k v.
Proof.
  induction msgs as [|m msgs IH] using rev_ind; intros b Hb Hs.
  { injection Hb as <-. split; [|lia]. intros p i m q E. by destruct p. }
  rewrite follow_app in Hb. destruct (follow 0 msgs) as [b0|]; [|done]. simpl in Hb.
  destruct (IH b0 eq_refl) as [Ho Hd]; [intros; apply Hs; set_solver|].
  rewrite fmap_app. simpl. rewrite inOrder_snoc. setoid_rewrite delivers_snoc.
  destruct (am_CommandValid m) eqn:Hv.
  - destruct (Z.eqb_spec (am_CommandIndex m) (b0 + 1)) as [Hm|]; [|done]. injection Hb as <-.
    split; [split; [done|]; intros _ Hlt; apply Hd; lia|]. intros k Hk.
    destruct (decide (k = b0 + 1)) as [->|]; [by eexists; right|].
    destruct (Hd k) as [v Hkv]; [lia|]. exists v. by left.
  - injection Hb as <-. rewrite (Hs m) by set_solver. split; [done|]. intros k Hk. lia.
Qed.
End delivery.
