(* ===== verification/RaftProtocol.v ===== *)
(** * Package raft: the protocol behind the program

    An abstract Raft: the entries ever created are the nodes of a tree, a peer is a term
    and the last node of its log (the log is the path to it), and the votes, the wins and
    the acknowledgements are a record of what happened.  [Rstep] keeps [protocol_ok], and
    the invariant gives Leader Completeness and that two committed nodes are on one path.
    [RaftNetwork.v] shows that the program takes these steps. *)

From S2P Require Import Prelude.

(** a log index and a term *)
Abbreviation node := (Z * Z)%type.
(** the predecessor of a node *)
Abbreviation Tree := (gmap node node).

Definition root : node := (0, 0).

(** ** Paths *)

Section tree.
Implicit Types (P : Tree) (a b c n : node) (d : nat).

(** [d] steps towards the root *)
Fixpoint up P d n : option node :=
  match d with
  | O => Some n
  | S d => p ← P !! n; up P d p
  end.

(** [a] is on the path to [b] *)
Definition below P a b : Prop := up P (Z.to_nat (b.1 - a.1)) b = Some a.

#[export] Instance below_dec P a b : Decision (below P a b).
Proof. unfold below. apply _. Defined.

Definition known P n : Prop := n = root ∨ is_Some (P !! n).

Record tree_ok P : Prop := {
  t_index : ∀ n p, P !! n = Some p → p.1 = n.1 - 1 ∧ 0 ≤ p.1;
  t_term : ∀ n p, P !! n = Some p → 0 ≤ p.2 ≤ n.2;
  t_known : ∀ n p, P !! n = Some p → known P p;
}.

Lemma up_add P d d' n : up P (d + d') n = m ← up P d n; up P d' m.
Proof.
  revert n. induction d as [|d IH]; intros n; simpl; [done|]. destruct (P !! n); simpl; [apply IH|done].
Qed.

Section ok.
Context {P : Tree} (Hok : tree_ok P).

Lemma up_index d n m : up P d n = Some m → m.1 = n.1 - Z.of_nat d.
Proof using Hok.
  revert n. induction d as [|d IH]; intros n; simpl; [intros [= ->]; lia|].
  destruct (P !! n) as [p|] eqn:E; [|done]. intros ->%IH. apply (t_index _ Hok) in E. lia.
Qed.

Lemma up_below d a b : up P d b = Some a → below P a b.
Proof using Hok.
  intros H. pose proof (up_index _ _ _ H) as Hi. unfold below.
  by replace (Z.to_nat (b.1 - a.1)) with d by lia.
Qed.

Lemma below_index a b : below P a b → a.1 ≤ b.1.
Proof using Hok. intros H%up_index. lia. Qed.

Lemma below_refl a : below P a a.
Proof using. unfold below. by rewrite Z.sub_diag. Qed.

Lemma below_trans a b c : below P a b → below P b c → below P a c.
Proof using Hok.
  intros H1 H2. eapply (up_below (Z.to_nat (c.1 - b.1) + Z.to_nat (b.1 - a.1))).
  rewrite up_add, H2. exact H1.
Qed.

Lemma below_same a b : below P a b → a.1 = b.1 → a = b.
Proof using. unfold below. intros H E. rewrite E, Z.sub_diag in H. simpl in H. congruence. Qed.

(** the nodes of a path are ordered *)
Lemma below_linear a b c : below P a c → below P b c → a.1 ≤ b.1 → below P a b.
Proof using Hok.
  intros Ha Hb Hle. pose proof (below_index _ _ Hb).
  unfold below in Ha. replace (Z.to_nat (c.1 - a.1))
    with (Z.to_nat (c.1 - b.1) + Z.to_nat (b.1 - a.1))%nat in Ha by lia.
  rewrite up_add, Hb in Ha. exact Ha.
Qed.

Lemma below_parent n p : P !! n = Some p → below P p n.
Proof using Hok. intros H. apply (up_below 1). simpl. by rewrite H. Qed.

Lemma below_step a n p : P !! n = Some p → below P a n → a = n ∨ below P a p.
Proof using Hok.
  intros H Ha. destruct (decide (a.1 = n.1)) as [E|E]; [left; by apply below_same|right].
  apply below_index in Ha as Hi. eapply below_linear; [done|by apply below_parent|].
  apply (t_index _ Hok) in H. lia.
Qed.

Lemma known_index n : known P n → 0 ≤ n.1 ∧ 0 ≤ n.2.
Proof using Hok.
  intros [->|[p H]]; [simpl; lia|]. pose proof (t_index _ Hok _ _ H). pose proof (t_term _ Hok _ _ H). lia.
Qed.

Lemma root_free : P !! root = None.
Proof using Hok.
  apply eq_None_not_Some. intros [p H]. apply (t_index _ Hok) in H. simpl in H. lia.
Qed.

(** induction along the path to a node *)
Lemma path_ind (Q : node → Prop) :
  Q root → (∀ n p, P !! n = Some p → Q p → Q n) → ∀ n, known P n → Q n.
Proof using Hok.
  intros H0 HS n Hn. remember (Z.to_nat n.1) as k eqn:Ek. revert n Hn Ek.
  induction k as [|k IH]; intros n [->|[p Hp]] Ek; try done.
  - pose proof (t_index _ Hok _ _ Hp). lia.
  - eapply HS; [done|]. apply IH; [by eapply (t_known _ Hok)|].
    pose proof (t_index _ Hok _ _ Hp). lia.
Qed.

Lemma below_root n : known P n → below P root n.
Proof using Hok.
  apply path_ind; [apply below_refl|]. intros m p Hp IH.
  eapply below_trans; [done|by apply below_parent].
Qed.

Lemma below_known a n : known P n → below P a n → known P a.
Proof using Hok.
  intros Hn. revert a. pattern n. revert n Hn. apply path_ind.
  - intros a Ha. apply below_index in Ha as Hi. unfold below in Ha.
    destruct (Z.to_nat (root.1 - a.1)) as [|d] eqn:E; simpl in Ha; [injection Ha as <-; by left|].
    by rewrite root_free in Ha.
  - intros m p Hp IH a Ha. destruct (below_step _ _ _ Hp Ha) as [->|]; [|auto]. right. by eexists.
Qed.

(** terms grow along a path *)
Lemma below_term a n : known P n → below P a n → a.2 ≤ n.2.
Proof using Hok.
  intros Hn. revert a. pattern n. revert n Hn. apply path_ind.
  - intros a Ha. pose proof (below_root _ (below_known _ _ (or_introl eq_refl) Ha)) as Hr.
    assert (a = root) as ->; [|done]. apply below_same; [done|].
    apply below_index in Ha, Hr. lia.
  - intros m p Hp IH a Ha. destruct (below_step _ _ _ Hp Ha) as [->|H]; [done|].
    apply IH in H. apply (t_term _ Hok) in Hp. lia.
Qed.
End ok.

(** *** Growth *)

Lemma up_mono P P' d a b : P ⊆ P' → up P d b = Some a → up P' d b = Some a.
Proof.
  intros Hs. revert b. induction d as [|d IH]; intros b; simpl; [done|].
  destruct (P !! b) as [p|] eqn:E; [|done]. by rewrite (lookup_weaken _ _ _ _ E Hs); simpl; auto.
Qed.

Lemma below_mono P P' a b : P ⊆ P' → below P a b → below P' a b.
Proof. apply up_mono. Qed.

Lemma known_mono P P' n : P ⊆ P' → known P n → known P' n.
Proof. intros Hs [?|[p H]]; [by left|right]. exists p. by eapply lookup_weaken. Qed.

(** the path to a node that was there does not change *)
Lemma below_old P P' a b :
  tree_ok P → tree_ok P' → P ⊆ P' → known P b → below P' a b → below P a b.
Proof.
  intros Hok Hok' Hs Hb. revert a. pattern b. revert b Hb. apply (path_ind Hok).
  - intros a Ha. pose proof (below_index Hok' _ _ Ha) as Hi. unfold below in *.
    destruct (Z.to_nat (root.1 - a.1)) as [|d]; simpl in Ha |- *; [done|].
    by rewrite (root_free Hok') in Ha.
  - intros m p Hp IH a Ha.
    destruct (below_step Hok' _ _ _ (lookup_weaken _ _ _ _ Hp Hs) Ha) as [->|H];
      [by apply below_refl|].
    eapply (below_trans Hok); [by apply IH|by apply (below_parent Hok)].
Qed.

Lemma tree_grow P n p :
  tree_ok P → P !! n = None → known P p → n.1 = p.1 + 1 → p.2 ≤ n.2 → tree_ok (<[n := p]> P).
Proof.
  intros Hok Hf Hp Hi Ht. pose proof (known_index Hok _ Hp) as [H1 H2].
  assert (P ⊆ <[n := p]> P) as Hs by by apply insert_subseteq.
  split; intros m q [[<- <-]|[_ Hm]]%lookup_insert_Some; try lia.
  - by apply (t_index _ Hok).
  - by apply (t_term _ Hok).
  - by eapply known_mono.
  - eapply known_mono; [done|]. by eapply (t_known _ Hok).
Qed.
End tree.

(** ** Quorums *)

Definition quorum (N : nat) (Q : nat → Prop) : Prop :=
  ∃ l, NoDup l ∧ (N < 2 * length l)%nat ∧ ∀ j, j ∈ l → (j < N)%nat ∧ Q j.

Lemma quorum_meet N Q R : quorum N Q → quorum N R → ∃ j, Q j ∧ R j.
Proof.
  intros (l & Hl & Hll & HQ) (k & Hk & Hlk & HR).
  destruct (decide (Exists (.∈ k) l)) as [(j & Hjl & Hjk)%Exists_exists|Hno].
  { exists j. split; [by apply HQ|by apply HR]. }
  assert (NoDup (l ++ k)) as Hnd.
  { apply NoDup_app. split_and!; [done| |done]. intros j Hj Hjk. apply Hno, Exists_exists. eauto. }
  assert (l ++ k ⊆+ seq 0 N) as Hs%submseteq_length.
  { apply NoDup_submseteq; [done|]. intros j [Hj|Hj]%elem_of_app; apply elem_of_seq;
      [apply HQ in Hj|apply HR in Hj]; lia. }
  rewrite length_app, length_seq in Hs. lia.
Qed.

Lemma quorum_mono N (Q R : nat → Prop) : (∀ j, Q j → R j) → quorum N Q → quorum N R.
Proof. intros H (l & ? & ? & HQ). exists l. split_and!; [done..|]. intros j Hj. destruct (HQ j Hj). auto. Qed.

(** ** The protocol *)

Record Proto := mkProto {
  tree : Tree;
  peerAt : list (Z * node); (* the term of a peer and the last node of its log *)
  won : gmap Z (nat * node); (* who won a term, and the last node of its log before *)
  stood : gmap (Z * nat) node; (* the last node of a candidate's log *)
  ballot : gmap (nat * Z) (nat * node); (* a vote, and the last node of the voter's log *)
  acked : list (nat * Z * node); (* the peer had the node in its log, in the term *)
}.

Section protocol.
Implicit Types (s : Proto) (i j v : nat) (T U t : Z) (n m x b : node).

(** on the path of the leader of [T] *)
Definition onPath s T n : Prop :=
  ∃ i b, won s !! T = Some (i, b) ∧ (below (tree s) n b ∨ (n.2 = T ∧ is_Some (tree s !! n))).

(** a log that ends in [c] is at least as up to date as one that ends in [v] *)
Definition upTo (v c : node) : Prop := v.2 < c.2 ∨ (v.2 = c.2 ∧ v.1 ≤ c.1).

Definition setPeer i t n s : Proto :=
  mkProto (tree s) (<[i := (t, n)]> (peerAt s)) (won s) (stood s) (ballot s) (acked s).

Definition addNode n p s : Proto :=
  mkProto (<[n := p]> (tree s)) (peerAt s) (won s) (stood s) (ballot s) (acked s).

Definition addWin T i b s : Proto :=
  mkProto (tree s) (peerAt s) (<[T := (i, b)]> (won s)) (stood s) (ballot s) (acked s).

Inductive Rstep s : Proto → Prop :=
| r_raise i t n T : (* a peer enters a term *)
    peerAt s !! i = Some (t, n) → t ≤ T → Rstep s (setPeer i T n s)
| r_stand i t n T :
    peerAt s !! i = Some (t, n) → t < T →
    Rstep s (mkProto (tree s) (<[i := (T, n)]> (peerAt s)) (won s)
                     (<[(T, i) := n]> (stood s)) (ballot s) (acked s))
| r_vote v T n c ct : (* before the term is won, or not for its winner *)
    peerAt s !! v = Some (T, n) → (∀ i b, won s !! T = Some (i, b) → i ≠ c) → ballot s !! (v, T) = None →
    stood s !! (T, c) = Some ct → upTo n ct →
    Rstep s (mkProto (tree s) (peerAt s) (won s) (stood s)
                     (<[(v, T) := (c, n)]> (ballot s)) (acked s))
| r_win i T n :
    peerAt s !! i = Some (T, n) → won s !! T = None →
    quorum (length (peerAt s)) (λ v, ∃ vt, ballot s !! (v, T) = Some (i, vt)) →
    Rstep s (setPeer i T (n.1 + 1, T) (addNode (n.1 + 1, T) n (addWin T i n s)))
| r_append i T n b : (* the leader appends *)
    won s !! T = Some (i, b) → peerAt s !! i = Some (T, n) → n.2 = T →
    tree s !! (n.1 + 1, T) = None →
    Rstep s (setPeer i T (n.1 + 1, T) (addNode (n.1 + 1, T) n s))
| r_take j t n T m : (* take over a node of the leader, but never only cut the log off *)
    peerAt s !! j = Some (t, n) → t ≤ T → onPath s T m →
    (below (tree s) m n → m = n) → Rstep s (setPeer j T m s)
| r_cut j t n T q p p' : (* the log contradicts the leader's at [p]; cut it before *)
    peerAt s !! j = Some (t, n) → t ≤ T → onPath s T q →
    below (tree s) p n → p.1 = q.1 → p ≠ q → tree s !! p = Some p' →
    Rstep s (setPeer j T p' s)
| r_ack j T n m :
    peerAt s !! j = Some (T, n) → onPath s T m → below (tree s) m n →
    Rstep s (mkProto (tree s) (peerAt s) (won s) (stood s) (ballot s) ((j, T, m) :: acked s)).

Definition Rinit (N : nat) : Proto := mkProto ∅ (replicate N (0, root)) ∅ ∅ ∅ [].

(** a later leader, of a term up to [U], does not have [x] *)
Definition lost s T U x : Prop :=
  ∃ T' i b, T < T' ≤ U ∧ won s !! T' = Some (i, b) ∧ ¬ below (tree s) x b.

(** a quorum has acknowledged the node in its own term *)
Definition chosen s T n : Prop :=
  n.2 = T ∧ quorum (length (peerAt s)) (λ j, ∃ m, (j, T, m) ∈ acked s ∧ below (tree s) n m).

(** known to be committed in term [U] *)
Definition safeBy s U n : Prop :=
  n = root ∨ ∃ T c, T ≤ U ∧ chosen s T c ∧ below (tree s) n c.

Record protocol_ok s : Prop := {
  p_tree : tree_ok (tree s);
  p_nodes : ∀ n p, tree s !! n = Some p →
    ∃ i b, won s !! n.2 = Some (i, b) ∧ b.1 < n.1 ∧ (p = b ∨ p.2 = n.2);
  p_won : ∀ T i b, won s !! T = Some (i, b) →
    known (tree s) b ∧ b.2 < T ∧ stood s !! (T, i) = Some b
    ∧ quorum (length (peerAt s)) (λ v, ∃ vt, ballot s !! (v, T) = Some (i, vt));
  p_peer : ∀ i t n, peerAt s !! i = Some (t, n) → known (tree s) n ∧ n.2 ≤ t;
  p_stood : ∀ T i ct, stood s !! (T, i) = Some ct →
    known (tree s) ct ∧ ct.2 < T
    ∧ ∃ t n, peerAt s !! i = Some (t, n) ∧ T ≤ t ∧ (t = T → won s !! T = None → n = ct);
  p_ballot : ∀ v T c vt, ballot s !! (v, T) = Some (c, vt) →
    known (tree s) vt ∧ (∃ t n, peerAt s !! v = Some (t, n) ∧ T ≤ t)
    ∧ ∃ ct, stood s !! (T, c) = Some ct ∧ upTo vt ct;
  p_ack : ∀ j T m, (j, T, m) ∈ acked s →
    onPath s T m ∧ ∃ t n, peerAt s !! j = Some (t, n) ∧ T ≤ t
    ∧ ∀ x, below (tree s) x m → below (tree s) x n ∨ lost s T t x;
  p_vote : ∀ v T' c vt T m x, (∀ i b, won s !! T' = Some (i, b) → i = c) →
    ballot s !! (v, T') = Some (c, vt) → (v, T, m) ∈ acked s → T < T' →
    below (tree s) x m → below (tree s) x vt ∨ lost s T (T' - 1) x;
}.

(** *** The path of a leader *)

Section paths.
Context {s : Proto} (Hok : protocol_ok s).

Lemma onPath_known T n : onPath s T n → known (tree s) n.
Proof using Hok.
  intros (i & b & Hw & [Hb|[_ Hn]]); [|by right].
  eapply (below_known (p_tree _ Hok)); [|done]. by apply (p_won _ Hok) in Hw as (? & _).
Qed.

Lemma node_base n i b : is_Some (tree s !! n) → won s !! n.2 = Some (i, b) →
  b.1 < n.1 ∧ below (tree s) b n.
Proof using Hok.
  intros Hn Hw. assert (known (tree s) n) as Hk by by right. revert Hn Hw. pattern n. revert n Hk.
  apply (path_ind (p_tree _ Hok)).
  { intros Hn. rewrite (root_free (p_tree _ Hok)) in Hn. by destruct Hn. }
  intros n p Hp IH _ Hw. destruct (p_nodes _ Hok _ _ Hp) as (i' & b' & Hw' & Hlt & Hc).
  rewrite Hw in Hw'. simplify_eq. split; [done|].
  destruct Hc as [->|Ht]; [by apply (below_parent (p_tree _ Hok))|].
  eapply (below_trans (p_tree _ Hok)); [|by apply (below_parent (p_tree _ Hok))].
  destruct (t_known _ (p_tree _ Hok) _ _ Hp) as [->|Hsp].
  - apply (p_won _ Hok) in Hw as (Hkb & Hbt & _). simpl in Ht.
    pose proof (known_index (p_tree _ Hok) _ Hkb). lia.
  - apply IH; [done|]. by rewrite Ht.
Qed.

(** the nodes of a term are on one path *)
Lemma same_term n m :
  is_Some (tree s !! n) → is_Some (tree s !! m) → n.2 = m.2 → n.1 ≤ m.1 → below (tree s) n m.
Proof using Hok.
  intros Hn Hm. assert (known (tree s) m) as Hk by by right. revert Hm. pattern m. revert m Hk.
  apply (path_ind (p_tree _ Hok)).
  { intros Hm. rewrite (root_free (p_tree _ Hok)) in Hm. by destruct Hm. }
  intros m p Hp IH _ Ht Hi. destruct (decide (n.1 = m.1)) as [E|E].
  { destruct n, m; simpl in *; subst. apply below_refl. }
  destruct (p_nodes _ Hok _ _ Hp) as (i & b & Hw & Hlt & Hc).
  pose proof (t_index _ (p_tree _ Hok) _ _ Hp) as [Hpi _]. rewrite <-Ht in Hw.
  destruct (node_base _ _ _ Hn Hw) as [Hbn _].
  destruct Hc as [->|Htp]; [lia|].
  eapply (below_trans (p_tree _ Hok)); [|by apply (below_parent (p_tree _ Hok))].
  apply IH; [|congruence|lia].
  destruct (t_known _ (p_tree _ Hok) _ _ Hp) as [->|]; [|done]. simpl in *.
  apply (p_won _ Hok) in Hw as (Hkb & Hbt & _). pose proof (known_index (p_tree _ Hok) _ Hkb). lia.
Qed.

(** the path of a leader is a path *)
Lemma onPath_linear T n m : onPath s T n → onPath s T m → n.1 ≤ m.1 → below (tree s) n m.
Proof using Hok.
  intros (i & b & Hw & Hn) (i' & b' & Hw' & Hm) Hle. rewrite Hw in Hw'. simplify_eq.
  destruct Hn as [Hn|[Htn Hn]], Hm as [Hm|[Htm Hm]].
  - by eapply (below_linear (p_tree _ Hok)).
  - rewrite <-Htm in Hw. destruct (node_base _ _ _ Hm Hw) as [_ ?].
    by eapply (below_trans (p_tree _ Hok)).
  - rewrite <-Htn in Hw. destruct (node_base _ _ _ Hn Hw) as [? _].
    apply (below_index (p_tree _ Hok)) in Hm. lia.
  - apply same_term; [done..|congruence|done].
Qed.

Lemma onPath_eq T n m : onPath s T n → onPath s T m → n.1 = m.1 → n = m.
Proof using Hok.
  intros Hn Hm E. apply (below_same (P:=tree s)); [|done]. apply (onPath_linear T); [done..|lia].
Qed.

Lemma above_base n m i b :
  is_Some (tree s !! n) → won s !! n.2 = Some (i, b) → below (tree s) m n → b.1 < m.1 →
  m.2 = n.2 ∧ is_Some (tree s !! m).
Proof using Hok.
  intros Hn. assert (known (tree s) n) as Hk by by right. revert Hn. pattern n. revert n Hk.
  apply (path_ind (p_tree _ Hok)).
  { intros Hn. rewrite (root_free (p_tree _ Hok)) in Hn. by destruct Hn. }
  intros n p Hp IH Hn Hw Hm Hlt.
  destruct (below_step (p_tree _ Hok) _ _ _ Hp Hm) as [->|Hmp]; [done|].
  destruct (p_nodes _ Hok _ _ Hp) as (i' & b' & Hw' & _ & Hc). rewrite Hw in Hw'. simplify_eq.
  destruct Hc as [->|Ht]; [apply (below_index (p_tree _ Hok)) in Hmp; lia|].
  rewrite <-Ht in *. apply IH; [|done..].
  destruct (t_known _ (p_tree _ Hok) _ _ Hp) as [->|]; [|done]. simpl in *.
  apply (p_won _ Hok) in Hw as (Hkb & Hbt & _). pose proof (known_index (p_tree _ Hok) _ Hkb). lia.
Qed.

Lemma onPath_below T n m : onPath s T n → below (tree s) m n → onPath s T m.
Proof using Hok.
  intros (i & b & Hw & Hn) Hm. exists i, b. split; [done|].
  destruct Hn as [Hn|[Ht Hn]]; [left; by eapply (below_trans (p_tree _ Hok))|].
  rewrite <-Ht in *. destruct (decide (m.1 ≤ b.1)) as [Hle|Hgt].
  - left. destruct (node_base _ _ _ Hn Hw) as [_ ?]. by eapply (below_linear (p_tree _ Hok)).
  - right. eapply above_base; [done..|lia].
Qed.

Lemma node_term n : is_Some (tree s !! n) → 0 < n.2.
Proof using Hok.
  intros [p Hp]. destruct (p_nodes _ Hok _ _ Hp) as (i & b & Hw & _).
  apply (p_won _ Hok) in Hw as (Hb & Hlt & _). apply (known_index (p_tree _ Hok)) in Hb. lia.
Qed.

Lemma upTo_same n m :
  known (tree s) n → known (tree s) m → n.2 = m.2 → n.1 ≤ m.1 → below (tree s) n m.
Proof using Hok.
  intros [->|Hn] Hm; [intros; by apply (below_root (p_tree _ Hok))|].
  destruct Hm as [->|Hm]; [|by apply same_term]. apply node_term in Hn. simpl. lia.
Qed.

(** ** Leader Completeness *)

(** the leaders of later terms have what was chosen *)
Lemma leader_completeness T n T' i b :
  chosen s T n → T < T' → won s !! T' = Some (i, b) → below (tree s) n b.
Proof using Hok.
  intros [Ht Hq] Hlt. revert i b. pattern T'. apply (Zlt_lower_bound_ind _ (T + 1)); [|lia].
  clear T' Hlt. intros T' IH Hlt i b Hw.
  destruct (p_won _ Hok _ _ _ Hw) as (Hkb & Hbt & Hst & Hqv).
  destruct (quorum_meet _ _ _ Hq Hqv) as (v & (m & Hack & Hnm) & (vt & Hv)).
  destruct (p_ballot _ Hok _ _ _ _ Hv) as (Hkv & _ & ct & Hst' & Hup).
  assert (ct = b) as -> by congruence.
  assert (∀ i0 b0, won s !! T' = Some (i0, b0) → i0 = i) as Hwi by congruence.
  destruct (p_vote _ Hok _ _ _ _ _ _ n Hwi Hv Hack) as [Hnv|(U & i' & b' & HU & Hw' & Hno)];
    [lia|done| |exfalso; eapply Hno, (IH U); [lia|done]].
  pose proof (below_term (p_tree _ Hok) _ _ Hkv Hnv) as Htv.
  destruct Hup as [Hup|[Hup Hi]].
  - destruct Hkb as [->|Hb].
    { pose proof (known_index (p_tree _ Hok) _ Hkv). simpl in Hup. lia. }
    pose proof Hb as [p Hp]. destruct (p_nodes _ Hok _ _ Hp) as (i' & b' & Hw' & _).
    eapply (below_trans (p_tree _ Hok)); [|by eapply node_base].
    eapply (IH b.2); [lia|done].
  - eapply (below_trans (p_tree _ Hok)); [done|]. by apply upTo_same.
Qed.

(** ** Committed nodes *)

Lemma quorum_inhabited N Q : quorum N Q → ∃ j, Q j.
Proof using. intros H. destruct (quorum_meet _ _ _ H H) as (j & ? & _). eauto. Qed.

Lemma chosen_onPath T n : chosen s T n → onPath s T n.
Proof using Hok.
  intros [_ (j & m & Hack & Hn)%quorum_inhabited]. apply (p_ack _ Hok) in Hack as (Hm & _).
  by eapply onPath_below.
Qed.

Lemma root_onPath T i b : won s !! T = Some (i, b) → onPath s T root.
Proof using Hok.
  intros Hw. exists i, b. split; [done|]. left. apply (below_root (p_tree _ Hok)).
  by apply (p_won _ Hok) in Hw as (? & _).
Qed.

(** the leader of [U] has what is known to be committed in [U] *)
Lemma safeBy_onPath U n i b : safeBy s U n → won s !! U = Some (i, b) → onPath s U n.
Proof using Hok.
  intros [->|(T & c & Hle & Hc & Hn)] Hw; [by eapply root_onPath|].
  eapply onPath_below; [|done]. destruct (decide (T = U)) as [->|]; [by apply chosen_onPath|].
  exists i, b. split; [done|left]. eapply (leader_completeness T c U); [done|lia|done].
Qed.

Lemma safeBy_mono U U' n : safeBy s U n → U ≤ U' → safeBy s U' n.
Proof using. intros [?|(T & c & ? & ? & ?)] ?; [by left|right]. exists T, c. split_and!; [lia|done..]. Qed.

Lemma safeBy_below U n m : safeBy s U n → below (tree s) m n → safeBy s U m.
Proof using Hok.
  intros [->|(T & c & ? & ? & Hn)] Hm.
  - left. assert (known (tree s) m) as Hk
      by (eapply (below_known (p_tree _ Hok)); [by left|done]).
    apply (below_same (P:=tree s)); [done|]. apply (below_index (p_tree _ Hok)) in Hm.
    apply (known_index (p_tree _ Hok)) in Hk. simpl in *. lia.
  - right. exists T, c. split_and!; [done..|]. by eapply (below_trans (p_tree _ Hok)).
Qed.

Lemma safeBy_known U n : safeBy s U n → known (tree s) n.
Proof using Hok.
  intros [->|(T & c & _ & Hc & Hn)]; [by left|].
  eapply (below_known (p_tree _ Hok)); [|done]. by eapply onPath_known, chosen_onPath.
Qed.

(** State Machine Safety: committed nodes are on one path *)
Lemma safe_linear U U' n m : safeBy s U n → safeBy s U' m → n.1 ≤ m.1 → below (tree s) n m.
Proof using Hok.
  intros Hn Hm Hle. pose proof (safeBy_known _ _ Hn) as Hkn. pose proof (safeBy_known _ _ Hm) as Hkm.
  destruct Hn as [->|(T & c & _ & Hc & Hnc)]; [by apply (below_root (p_tree _ Hok))|].
  destruct Hm as [->|(T' & c' & _ & Hc' & Hmc)].
  { pose proof (below_root (p_tree _ Hok) _ Hkn) as Hr.
    apply (known_index (p_tree _ Hok)) in Hkn. simpl in Hle.
    rewrite (below_same (P:=tree s) root n) by (done || (simpl; lia)). apply below_refl. }
  assert (∃ V, onPath s V n ∧ onPath s V m) as (V & HVn & HVm); [|by eapply onPath_linear].
  assert (∀ T1 T2 c1 c2 x, T1 ≤ T2 → chosen s T1 c1 → chosen s T2 c2 → below (tree s) x c1 →
    onPath s T2 x) as Hup.
  { intros T1 T2 c1 c2 x Hle' H1 H2 Hx. destruct (chosen_onPath _ _ H2) as (i & b & Hw & _).
    eapply (safeBy_onPath T2); [|done]. right. exists T1, c1. done. }
  destruct (Z.le_ge_cases T T').
  - exists T'. split; [by eapply (Hup T T')|by eapply (Hup T' T')].
  - exists T. split; [by eapply (Hup T T)|by eapply (Hup T' T)].
Qed.
End paths.

(** ** The steps keep the invariant *)

Lemma lost_mono s T U U' x : lost s T U x → U ≤ U' → lost s T U' x.
Proof. intros (T' & i & b & ? & ?) ?. exists T', i, b. split; [lia|done]. Qed.

(** a peer changes its log *)
Lemma move_ok s j t n t' n' :
  protocol_ok s → peerAt s !! j = Some (t, n) → t ≤ t' → known (tree s) n' → n'.2 ≤ t' →
  (∀ ct, stood s !! (t', j) = Some ct → won s !! t' = None → n' = ct) →
  (∀ T m x, (j, T, m) ∈ acked s → below (tree s) x m → below (tree s) x n →
     below (tree s) x n' ∨ lost s T t' x) →
  protocol_ok (setPeer j t' n' s).
Proof.
  intros [Ht Hn Hw Hp Hs Hb Ha Hv] Hj Hle Hk Htm Hst Hkeep.
  assert (∀ i t0 n0, peerAt s !! i = Some (t0, n0) → ∃ t1 n1,
    <[j := (t', n')]> (peerAt s) !! i = Some (t1, n1) ∧ t0 ≤ t1
    ∧ (i ≠ j → t1 = t0 ∧ n1 = n0) ∧ (i = j → t1 = t' ∧ n1 = n')) as Hpeer.
  { intros i t0 n0 Hi. destruct (decide (i = j)) as [->|Hne].
    - exists t', n'. rewrite list_lookup_insert_eq by by eapply lookup_lt_Some.
      split_and!; [done| |done|done]. rewrite Hj in Hi. simplify_eq. done.
    - exists t0, n0. rewrite list_lookup_insert_ne by done. split_and!; done. }
  split; simpl; try done.
  - intros T i b. rewrite length_insert. apply Hw.
  - intros i t0 n0 [(-> & [= -> ->] & _)|[_ H]]%list_lookup_insert_Some; [done|by eapply Hp].
  - intros T i ct H. destruct (Hs _ _ _ H) as (? & ? & t0 & n0 & Hi & HT & Heq). split_and!; [done..|].
    destruct (Hpeer _ _ _ Hi) as (t1 & n1 & Hi1 & Hle1 & Hne & Hjj). exists t1, n1. split_and!; [done|lia|].
    intros -> Hnone. destruct (decide (i = j)) as [->|Hij].
    + destruct (Hjj eq_refl) as [-> ->]. by apply Hst.
    + destruct (Hne Hij) as [-> ->]. by apply Heq.
  - intros v T c vt H. destruct (Hb _ _ _ _ H) as (? & (t0 & n0 & Hi & HT) & ?). split_and!; [done| |done].
    destruct (Hpeer _ _ _ Hi) as (t1 & n1 & Hi1 & Hle1 & _). exists t1, n1. split; [done|lia].
  - intros i T m H. destruct (Ha _ _ _ H) as (Hm & t0 & n0 & Hi & HT & Hx). split; [done|].
    destruct (Hpeer _ _ _ Hi) as (t1 & n1 & Hi1 & Hle1 & Hne & Hjj). exists t1, n1. split_and!; [done|lia|].
    intros x Hxm. destruct (decide (i = j)) as [->|Hij].
    + destruct (Hjj eq_refl) as [-> ->]. rewrite Hj in Hi. simplify_eq.
      destruct (Hx x Hxm) as [Hxn|Hl]; [by eapply Hkeep|right; by eapply lost_mono].
    + destruct (Hne Hij) as [-> ->]. by apply Hx.
Qed.

(** a peer enters a term with its log *)
Lemma raise_ok s j t n t' :
  protocol_ok s → peerAt s !! j = Some (t, n) → t ≤ t' → protocol_ok (setPeer j t' n s).
Proof.
  intros Hok Hj Hle. destruct (p_peer _ Hok _ _ _ Hj) as [Hk Ht].
  eapply move_ok; try done; [lia| |by left]. intros ct Hst Hw.
  destruct (p_stood _ Hok _ _ _ Hst) as (_ & _ & t0 & n0 & Hj' & HT & Heq).
  rewrite Hj in Hj'. simplify_eq. apply Heq; [lia|done].
Qed.

(** what a peer has acknowledged is on the path of a leader, or the leader does not have it *)
Lemma acked_onPath s j T0 m0 x T m :
  protocol_ok s → (j, T0, m0) ∈ acked s → below (tree s) x m0 → T0 ≤ T → onPath s T m →
  onPath s T x ∨ lost s T0 T x.
Proof.
  intros Hok Hack Hx Hle (i & b & Hw & _). destruct (p_ack _ Hok _ _ _ Hack) as (Hm0 & _).
  destruct (decide (T0 = T)) as [->|Hne]; [left; by eapply onPath_below|].
  destruct (decide (below (tree s) x b)) as [Hb|Hb].
  - left. exists i, b. auto.
  - right. exists T, i, b. split_and!; [lia..|done|done].
Qed.

(** nodes of the leader's path that a log has stay when the log moves to a node of that
    path and is not only cut off *)
Lemma take_keeps s j t n T m T0 m0 x :
  protocol_ok s → peerAt s !! j = Some (t, n) → t ≤ T → onPath s T m →
  (below (tree s) m n → m = n) → (j, T0, m0) ∈ acked s → below (tree s) x m0 →
  below (tree s) x n → below (tree s) x m ∨ lost s T0 T x.
Proof.
  intros Hok Hj Hle Hm Hcut Hack Hx Hxn.
  destruct (p_ack _ Hok _ _ _ Hack) as (Hm0 & t0 & n0 & Hj' & HT0 & _).
  rewrite Hj in Hj'. simplify_eq.
  destruct (acked_onPath s j T0 m0 x T m) as [HxT|Hl]; [done..|lia|done|left|by right].
  destruct (decide (x.1 ≤ m.1)) as [Hxm|Hxm]; [by eapply onPath_linear|].
  assert (below (tree s) m x) as Hmx by (eapply onPath_linear; [done..|lia]).
  rewrite Hcut; [done|]. by eapply (below_trans (p_tree _ Hok)).
Qed.

(** nothing of the leader's path is lost where the log contradicts the leader *)
Lemma cut_keeps s j t n T q p p' T0 m0 x :
  protocol_ok s → peerAt s !! j = Some (t, n) → t ≤ T → onPath s T q →
  below (tree s) p n → p.1 = q.1 → p ≠ q → tree s !! p = Some p' →
  (j, T0, m0) ∈ acked s → below (tree s) x m0 →
  below (tree s) x n → below (tree s) x p' ∨ lost s T0 T x.
Proof.
  intros Hok Hj Hle Hq Hp Hi Hne Hp' Hack Hx Hxn.
  destruct (p_ack _ Hok _ _ _ Hack) as (Hm0 & t0 & n0 & Hj' & HT0 & _).
  rewrite Hj in Hj'. simplify_eq. pose proof (t_index _ (p_tree _ Hok) _ _ Hp') as [Hp1 _].
  pose proof (below_parent (p_tree _ Hok) _ _ Hp') as Hpp.
  destruct (decide (x.1 ≤ p'.1)) as [Hxp|Hxp].
  { left. eapply (below_linear (p_tree _ Hok)); [done| |done].
    by eapply (below_trans (p_tree _ Hok)). }
  destruct (acked_onPath s j T0 m0 x T q) as [HxT|Hl]; [done..|lia|done|exfalso|by right].
  assert (below (tree s) q x) as Hqx by (eapply onPath_linear; [done..|lia]).
  assert (below (tree s) p x) as Hpx by (eapply (below_linear (p_tree _ Hok)); [done..|lia]).
  apply Hne. apply (below_same (P:=tree s)); [|done].
  eapply (below_linear (p_tree _ Hok)); [done..|lia].
Qed.

(** a new node behind [p] in the term of a leader *)
Lemma addNode_ok s n p i b :
  protocol_ok s → tree s !! n = None → known (tree s) p → n.1 = p.1 + 1 → p.2 ≤ n.2 →
  won s !! n.2 = Some (i, b) → b.1 < n.1 → p = b ∨ p.2 = n.2 → protocol_ok (addNode n p s).
Proof.
  intros [Ht Hn Hw Hp Hs Hb Ha Hv] Hf Hkp Hi Hle Hwon Hbn Hpb.
  pose proof (tree_grow _ _ _ Ht Hf Hkp Hi Hle) as Ht'.
  assert (tree s ⊆ <[n := p]> (tree s)) as Hsub by by apply insert_subseteq.
  assert (∀ a, known (tree s) a → known (<[n := p]> (tree s)) a) as Hk
    by (intros a; by apply known_mono).
  assert (∀ x y, known (tree s) y → below (<[n := p]> (tree s)) x y ↔ below (tree s) x y) as Hbel.
  { intros x y Hy. split; [by apply below_old|by apply below_mono]. }
  assert (∀ T U x, lost s T U x → lost (addNode n p s) T U x) as Hlost.
  { intros T U x (T' & i' & b' & ? & Hw' & Hno). exists T', i', b'. simpl. split_and!; try lia; [done|].
    rewrite Hbel; [done|]. by apply Hw in Hw' as (? & _). }
  assert (∀ T m, onPath s T m → onPath (addNode n p s) T m) as Hon.
  { intros T m (i' & b' & Hw' & Hm). exists i', b'. split; [done|]. simpl.
    destruct Hm as [?|[? [q ?]]]; [left; by eapply below_mono|right]. split; [done|].
    exists q. by eapply lookup_weaken. }
  split; simpl; try done.
  - intros m q [[<- <-]|[_ Hm]]%lookup_insert_Some; [by exists i, b|by apply Hn].
  - intros T i' b' (? & ? & ? & ?)%Hw. auto.
  - intros j t m (? & ?)%Hp. auto.
  - intros T j ct (? & ? & ?)%Hs. auto.
  - intros v T c vt (? & ? & ?)%Hb. auto.
  - intros j T m Hack. pose proof (onPath_known (Build_protocol_ok s Ht Hn Hw Hp Hs Hb Ha Hv)) as Hok.
    destruct (Ha _ _ _ Hack) as (Hm & t & n0 & Hj & HT & Hx).
    split; [by apply Hon|]. exists t, n0. split_and!; [done..|]. intros x Hxm%Hbel; [|by eapply Hok].
    destruct (Hx x Hxm); [left; apply Hbel; [by eapply Hp|done]|auto].
  - intros v T' c vt T m x Hwc Hvt Hack HT Hxm.
    pose proof (onPath_known (Build_protocol_ok s Ht Hn Hw Hp Hs Hb Ha Hv)) as Hok.
    destruct (Ha _ _ _ Hack) as (Hm & _). destruct (Hb _ _ _ _ Hvt) as (Hkv & _).
    apply Hbel in Hxm; [|by eapply Hok].
    destruct (Hv _ _ _ _ _ _ _ Hwc Hvt Hack HT Hxm); [left; by apply Hbel|auto].
Qed.

Lemma addWin_ok s T i b :
  protocol_ok s → won s !! T = None → known (tree s) b → b.2 < T → stood s !! (T, i) = Some b →
  quorum (length (peerAt s)) (λ v, ∃ vt, ballot s !! (v, T) = Some (i, vt)) →
  protocol_ok (addWin T i b s).
Proof.
  intros [Ht Hn Hw Hp Hs Hb Ha Hv] Hf Hkb HbT Hst Hq.
  assert (won s ⊆ <[T := (i, b)]> (won s)) as Hsub by by apply insert_subseteq.
  assert (∀ T0 U x, lost s T0 U x → lost (addWin T i b s) T0 U x) as Hlost.
  { intros T0 U x (T' & i' & b' & ? & Hw' & Hno). exists T', i', b'. simpl. split_and!; try lia; [|done].
    by eapply lookup_weaken. }
  split; simpl; try done.
  - intros n p (i' & b' & Hw' & ?)%Hn. exists i', b'. split; [by eapply lookup_weaken|done].
  - intros T' i' b' [[<- [= <- <-]]|[_ H]]%lookup_insert_Some; [done|by apply Hw].
  - intros T' j ct H. destruct (Hs _ _ _ H) as (? & ? & t & n & Hj & Hle & Heq).
    split_and!; [done..|]. exists t, n. split_and!; [done..|]. intros -> [Hnone _]%lookup_insert_None. auto.
  - intros j T' m Hack. destruct (Ha _ _ _ Hack) as ((i' & b' & Hw' & Hm) & t & n & Hj & HT & Hx).
    split.
    + exists i', b'. split; [by eapply lookup_weaken|done].
    + exists t, n. split_and!; [done..|]. intros x [?|?]%Hx; auto.
  - intros v T' c vt T0 m x Hwc Hvt Hack HT Hx.
    destruct (Hv v T' c vt T0 m x) as [?|?]; auto.
    intros i' b' H. apply (Hwc i' b'). by eapply lookup_weaken.
Qed.

(** the leader's node becomes the last of its log *)
Lemma top_ok s i T n p :
  protocol_ok s → peerAt s !! i = Some (T, p) → tree s !! n = Some p → n.2 = T →
  is_Some (won s !! T) → protocol_ok (setPeer i T n s).
Proof.
  intros Hok Hi Hn Ht [w Hw]. eapply move_ok; try done; [by right; eexists|lia| |].
  - intros ct _ Hnone. congruence.
  - intros T0 m x _ _ Hx. left. eapply (below_trans (p_tree _ Hok)); [done|].
    by apply (below_parent (p_tree _ Hok)).
Qed.

(** *** The steps *)

Lemma stand_ok s i t n T :
  protocol_ok s → peerAt s !! i = Some (t, n) → t < T →
  protocol_ok (mkProto (tree s) (<[i := (T, n)]> (peerAt s)) (won s)
                       (<[(T, i) := n]> (stood s)) (ballot s) (acked s)).
Proof.
  intros Hok Hi Hlt. destruct (p_peer _ Hok _ _ _ Hi) as [Hk Ht].
  assert (stood s !! (T, i) = None) as Hnew.
  { apply eq_None_not_Some. intros [ct Hct].
    destruct (p_stood _ Hok _ _ _ Hct) as (_ & _ & t0 & n0 & Hi' & ? & _). rewrite Hi in Hi'. simplify_eq. lia. }
  assert (protocol_ok (setPeer i T n s)) as Hok' by (eapply raise_ok; [done..|lia]).
  destruct Hok' as [Ht1 Hn1 Hw1 Hp1 Hs1 Hb1 Ha1 Hv1]. simpl in *.
  assert (stood s ⊆ <[(T, i) := n]> (stood s)) as Hsub by by apply insert_subseteq.
  split; simpl; try done.
  - intros T' i' b (? & ? & ? & ?)%Hw1. split_and!; try done. by eapply lookup_weaken.
  - intros T' i' ct [[[= <- <-] <-]|[_ H]]%lookup_insert_Some; [|by apply Hs1].
    split_and!; [done|lia|]. exists T, n.
    rewrite list_lookup_insert_eq by by eapply lookup_lt_Some. done.
  - intros v T' c vt (? & ? & ct & ? & ?)%Hb1. split_and!; try done. exists ct.
    split; [by eapply lookup_weaken|done].
Qed.

Lemma vote_ok s v T n c ct :
  protocol_ok s → peerAt s !! v = Some (T, n) → (∀ i b, won s !! T = Some (i, b) → i ≠ c) →
  ballot s !! (v, T) = None → stood s !! (T, c) = Some ct → upTo n ct →
  protocol_ok (mkProto (tree s) (peerAt s) (won s) (stood s)
                       (<[(v, T) := (c, n)]> (ballot s)) (acked s)).
Proof.
  intros [Ht1 Hn1 Hw1 Hp1 Hs1 Hb1 Ha1 Hv1] Hv Hw Hno Hst Hup.
  assert (ballot s ⊆ <[(v, T) := (c, n)]> (ballot s)) as Hsub by by apply insert_subseteq.
  split; simpl; try done.
  - intros T' i' b (? & ? & ? & Hq)%Hw1. split_and!; try done.
    eapply quorum_mono; [|exact Hq]. intros j [vt Hj]. exists vt. by eapply lookup_weaken.
  - intros v' T' c' vt [[[= <- <-] [= <- <-]]|[_ H]]%lookup_insert_Some; [|by apply Hb1].
    split_and!; [by eapply Hp1|by exists T, n|by exists ct].
  - intros v' T' c' vt T0 m x Hc [[[= <- <-] [= <- <-]]|[_ H]]%lookup_insert_Some Hack HT Hx;
      [|by eapply Hv1].
    destruct (Ha1 _ _ _ Hack) as (_ & t0 & n0 & Hv' & _ & Hxn). rewrite Hv in Hv'.
    injection Hv' as <- <-.
    destruct (Hxn x Hx) as [?|(T' & i & b & HT' & Hw' & Hnb)]; [by left|right].
    exists T', i, b. split_and!; try done; [lia|].
    destruct (decide (T' = T)) as [->|]; [|lia]. by destruct (Hw _ _ Hw'); apply (Hc _ b).
Qed.

(** the votes are for the log that the winner has *)
Lemma win_ok s i T n :
  protocol_ok s → peerAt s !! i = Some (T, n) → won s !! T = None →
  quorum (length (peerAt s)) (λ v, ∃ vt, ballot s !! (v, T) = Some (i, vt)) →
  protocol_ok (setPeer i T (n.1 + 1, T) (addNode (n.1 + 1, T) n (addWin T i n s))).
Proof.
  intros Hok Hi Hw Hq. destruct (quorum_inhabited _ _ Hq) as (v & vt & Hv).
  destruct (p_ballot _ Hok _ _ _ _ Hv) as (_ & _ & ct & Hst & _).
  destruct (p_stood _ Hok _ _ _ Hst) as (Hk & Hlt & t0 & n0 & Hi' & _ & Heq).
  rewrite Hi in Hi'. injection Hi' as <- <-. rewrite <-(Heq eq_refl Hw) in *. clear ct Heq.
  assert (protocol_ok (addWin T i n s)) as Hok1 by by apply addWin_ok.
  assert (tree s !! (n.1 + 1, T) = None) as Hf.
  { apply eq_None_not_Some. intros [p Hp]. destruct (p_nodes _ Hok _ _ Hp) as (? & ? & ? & _).
    simpl in *. congruence. }
  eapply (top_ok _ _ _ _ n); simpl; try done; [|apply lookup_insert_eq|by rewrite lookup_insert_eq].
  eapply (addNode_ok _ _ _ i n); simpl; try done; try lia; [apply lookup_insert_eq|by left].
Qed.

Lemma extend_ok s i T n b :
  protocol_ok s → won s !! T = Some (i, b) → peerAt s !! i = Some (T, n) → n.2 = T →
  tree s !! (n.1 + 1, T) = None → protocol_ok (setPeer i T (n.1 + 1, T) (addNode (n.1 + 1, T) n s)).
Proof.
  intros Hok Hw Hi Ht Hf. destruct (p_peer _ Hok _ _ _ Hi) as [Hk _].
  eapply (top_ok _ _ _ _ n); simpl; try done; [|apply lookup_insert_eq].
  eapply (addNode_ok _ _ _ i b); simpl; try done; try lia.
  destruct Hk as [->|Hn]; [|rewrite <-Ht in Hw; destruct (node_base Hok _ _ _ Hn Hw); lia].
  apply (p_won _ Hok) in Hw as (Hkb & Hbt & _). apply (known_index (p_tree _ Hok)) in Hkb. simpl in *. lia.
Qed.

Lemma take_ok s j t n T m :
  protocol_ok s → peerAt s !! j = Some (t, n) → t ≤ T → onPath s T m →
  (below (tree s) m n → m = n) → protocol_ok (setPeer j T m s).
Proof.
  intros Hok Hj Hle HmT Hcut. pose proof HmT as (i & b & Hw & Hm). eapply move_ok; [done..| | | |].
  - by eapply onPath_known.
  - destruct Hm as [Hm|[? _]]; [|lia]. destruct (p_won _ Hok _ _ _ Hw) as (Hkb & ? & _).
    apply (below_term (p_tree _ Hok)) in Hm; [lia|done].
  - intros ct _ ?. congruence.
  - intros T0 m0 x Hack Hx Hxn. by eapply take_keeps.
Qed.

Lemma cut_ok s j t n T q p p' :
  protocol_ok s → peerAt s !! j = Some (t, n) → t ≤ T → onPath s T q →
  below (tree s) p n → p.1 = q.1 → p ≠ q → tree s !! p = Some p' → protocol_ok (setPeer j T p' s).
Proof.
  intros Hok Hj Hle HqT Hp Hpq Hne Hp'. pose proof HqT as (i & b & Hw & Hq).
  destruct (p_peer _ Hok _ _ _ Hj) as [Hk Htn]. eapply move_ok; [done..| | | |].
  - by eapply (t_known _ (p_tree _ Hok)).
  - apply (below_term (p_tree _ Hok)) in Hp; [|done]. apply (t_term _ (p_tree _ Hok)) in Hp'. lia.
  - intros ct _ ?. congruence.
  - intros T0 m0 x Hack Hx Hxn. by eapply (cut_keeps s j t n T q p).
Qed.

Lemma ack_ok s j T n m :
  protocol_ok s → peerAt s !! j = Some (T, n) → onPath s T m → below (tree s) m n →
  protocol_ok (mkProto (tree s) (peerAt s) (won s) (stood s) (ballot s) ((j, T, m) :: acked s)).
Proof.
  intros [Ht1 Hn1 Hw1 Hp1 Hs1 Hb1 Ha1 Hv1] Hj Hm Hmn. split; simpl; try done.
  - intros j' T' m' [[= -> -> ->]|H]%elem_of_cons; [|by apply Ha1].
    split; [done|]. exists T, n. split_and!; [done..|]. intros x Hx. left.
    by eapply (below_trans Ht1).
  - intros v T' c vt T0 m0 x Hwc Hv [[= -> -> ->]|H]%elem_of_cons HT Hx; [|by eapply Hv1].
    destruct (Hb1 _ _ _ _ Hv) as (_ & (t0 & n0 & Hj' & ?) & _). rewrite Hj in Hj'. simplify_eq. lia.
Qed.

Create HintDb protocol.
#[local] Hint Resolve raise_ok stand_ok vote_ok win_ok extend_ok take_ok cut_ok ack_ok : protocol.

Lemma Rstep_ok s s' : protocol_ok s → Rstep s s' → protocol_ok s'.
Proof. intros Hok []; eauto with protocol. Qed.

Lemma Rinit_ok N : protocol_ok (Rinit N).
Proof.
  split; simpl; try by intros *; rewrite lookup_empty.
  - split; by intros ???; rewrite lookup_empty in *.
  - intros i t n [[= -> ->] _]%lookup_replicate. split; [by left|done].
  - by intros j T m ?%elem_of_nil.
Qed.

(** ** What only grows *)

Definition extends s s' : Prop :=
  tree s ⊆ tree s' ∧ won s ⊆ won s' ∧ stood s ⊆ stood s'
  ∧ (∀ a, a ∈ acked s → a ∈ acked s') ∧ length (peerAt s') = length (peerAt s).

#[export] Instance extends_preorder : PreOrder extends.
Proof.
  split.
  - intros s. unfold extends. auto.
  - intros s1 s2 s3 (?&?&?&?&?) (?&?&?&?&?). split_and!; [by etrans..|auto|congruence].
Qed.

Lemma Rstep_extends s s' : protocol_ok s → Rstep s s' → extends s s'.
Proof.
  intros Hok Hst. unfold extends. destruct Hst as [| | | i T n Hi Hw Hq| | | |]; simpl;
    rewrite ?length_insert; split_and!; try done; try (intros; by right); try by apply insert_subseteq.
  - apply insert_subseteq, eq_None_not_Some. intros [ct Hct].
    destruct (p_stood _ Hok _ _ _ Hct) as (_ & _ & t0 & n0 & Hi' & ? & _). simplify_eq. lia.
  - apply insert_subseteq, eq_None_not_Some. intros [p Hp].
    destruct (p_nodes _ Hok _ _ Hp) as (? & ? & ? & _). simpl in *. congruence.
Qed.

Lemma Rsteps_ok s s' : protocol_ok s → rtc Rstep s s' → protocol_ok s' ∧ extends s s'.
Proof.
  intros Hok Hst. revert Hok. induction Hst as [s|s s1 s2 H _ IH]; intros Hok; [done|].
  destruct IH as [? ?]; [by eapply Rstep_ok|]. split; [done|].
  etrans; [by apply Rstep_extends|done].
Qed.

Section extends.
Context {s s' : Proto} (He : extends s s').

Lemma below_extends a b : below (tree s) a b → below (tree s') a b.
Proof using He. apply below_mono, He. Qed.

Lemma won_extends T w : won s !! T = Some w → won s' !! T = Some w.
Proof using He. intros H. eapply lookup_weaken; [done|apply He]. Qed.

Lemma onPath_extends T n : onPath s T n → onPath s' T n.
Proof using He.
  intros (i & b & Hw & Hn). exists i, b. split; [by apply won_extends|].
  destruct Hn as [?|[? [p ?]]]; [left; by apply below_extends|right]. split; [done|].
  exists p. eapply lookup_weaken; [done|apply He].
Qed.

Lemma safeBy_extends U n : safeBy s U n → safeBy s' U n.
Proof using He.
  intros [?|(T & c & ? & [? Hq] & ?)]; [by left|right]. exists T, c.
  split_and!; [done| |by apply below_extends]. split; [done|]. destruct He as (_ & _ & _ & Ha & ->).
  eapply quorum_mono; [|exact Hq]. intros j (m & ? & ?). exists m. split; [auto|by apply below_extends].
Qed.
End extends.
End protocol.
