(* ===== verification/RaftSystem.v ===== *)
(** * Package raft: a cluster

    The peers, the messages between them and the goroutines that wait for answers.
    [sysExec] takes one step of the cluster: a critical section of a peer with what it
    sends, or a crash and restart.  The scheduler is free: requests and replies may be
    lost (never handled), handled more than once, late, and in any order; the sections
    of [RequestVote] and the counting and the decision of [StartElection] are steps of
    their own, with anything in between.  Nothing is asked of a step but that its
    section returns.

    Some of these steps are what the safety of Raft rests on not happening, and the
    program does not exclude them.  A step that is one of these notes an [Incident]; the
    theorems about executions say which incidents they exclude.  [wins] lists every
    election that was won. *)

From S2P Require Import Prelude Gob Raft RaftStep RaftPersist RaftLog RaftSafety.
From S2P Require Import RaftElection RaftCommit RaftCluster RaftProtocol.

(** the peers, what they have sent, and who voted for whom in which term *)
Record RaftNet (Cmd : Type) := mkNetwork {
  servers : list (Raft Cmd);
  requests : list RequestVoteArgs;
  sent : list (nat * AppendEntriesArgs Cmd); (* receiver and request *)
  answers : list (nat * AppendEntriesArgs Cmd * AppendEntriesReply);
  snaps : list (nat * nat * InstallSnapshotArgs); (* sender, receiver, request *)
  snapAnswers : list (nat * InstallSnapshotArgs * InstallSnapshotReply);
  votes : gmap (nat * Z) nat; (* voter and term: the candidate, for the votes that count *)
  leaders : gmap Z nat; (* the last winner of a term *)
}.
Arguments mkNetwork {Cmd}.
Arguments servers {Cmd}.
Arguments requests {Cmd}.
Arguments sent {Cmd}.
Arguments answers {Cmd}.
Arguments snaps {Cmd}.
Arguments snapAnswers {Cmd}.
Arguments votes {Cmd}.
Arguments leaders {Cmd}.

(** a round of [StartElection]: the candidate, its request, the peers whose replies came
    through [voteCh], those among them (and the candidate) that vote for it, the counter
    [getVote], and the decision that is not carried out yet *)
Record ElectionRound := mkRound {
  cand : nat;
  ask : RequestVoteArgs;
  heard : list nat;
  backers : list nat;
  getVote : Z;
  verdict : option VoteDecision;
}.

(** Steps that the program takes and that break an argument of Raft:
    - [UncommittedSnapshot]: [TakeSnapshot] beyond the commit index;
    - [VoidVote]: an election is won with a granted vote that does not count: the voter's
      term or log had changed since it read the request, it was not in the candidate's
      term, or the term had been won and the voter had voted for another candidate in it
      ([counted]; in a term that is not won, a peer votes once);
    - [WonTwice]: the peer wins a term that it has won already;
    - [LateReply]: a reply takes the term back, or leaves it and forgets the vote;
    - [OvertakenRequest]: an AppendEntries request is accepted by a peer that has its last
      entry already and more, which is cut off;
    - [UnledSnapshot]: a snapshot is sent by a peer that has stopped leading;
    - [ContradictedSnapshot]: an AppendEntries request disagrees with the receiver's
      snapshot about the term of the last entry in it. *)
Inductive Incident :=
| UncommittedSnapshot (i : nat)
| VoidVote (i voter : nat)
| WonTwice (i : nat)
| LateReply (i : nat)
| OvertakenRequest (i : nat)
| UnledSnapshot (i : nat)
| ContradictedSnapshot (i : nat).

Record System (Cmd : Type) := mkSystem {
  net : RaftNet Cmd;
  reads : list (nat * RequestVoteArgs * VoteView); (* handlers between their sections *)
  ballots : list (nat * RequestVoteArgs * RequestVoteReply); (* replies of the voters *)
  rounds : list ElectionRound;
  wins : list (Z * nat); (* term and winner *)
  incidents : list Incident;
}.
Arguments mkSystem {Cmd}.
Arguments net {Cmd}.
Arguments reads {Cmd}.
Arguments ballots {Cmd}.
Arguments rounds {Cmd}.
Arguments wins {Cmd}.
Arguments incidents {Cmd}.

(** messages, handlers and rounds are named by their position in their list, the
    newest is number 0 *)
Inductive SysEvent (Cmd : Type) :=
| Alone (i : nat) (op : RaftOp Cmd)
| Stand (i : nat) (* a round of [StartElection] begins *)
| VoteRead (i k : nat) (* request [k] reaches peer [i]: the first section *)
| VoteGrant (k : nat) (* handler [k] runs its second section *)
| CountVote (r k : nat) (* round [r] takes reply [k] from [voteCh] *)
| Decide (r : nat) (* round [r] has the lock for its decision *)
| RoundTicks (r : nat)
| RoundHeartBeat (r : nat)
| Send (i j : nat)
| Recv (k : nat)
| Reply (k : nat)
| SendSnap (i j : nat)
| RecvSnap (k : nat)
| SnapReply (k : nat)
| Restart (i : nat).
Arguments Alone {Cmd}.
Arguments Stand {Cmd}.
Arguments VoteRead {Cmd}.
Arguments VoteGrant {Cmd}.
Arguments CountVote {Cmd}.
Arguments Decide {Cmd}.
Arguments RoundTicks {Cmd}.
Arguments RoundHeartBeat {Cmd}.
Arguments Send {Cmd}.
Arguments Recv {Cmd}.
Arguments Reply {Cmd}.
Arguments SendSnap {Cmd}.
Arguments RecvSnap {Cmd}.
Arguments SnapReply {Cmd}.
Arguments Restart {Cmd}.

#[export] Instance RequestVoteArgs_eq_dec : EqDecision RequestVoteArgs.
Proof. solve_decision. Defined.

#[export] Instance VoteDecision_eq_dec : EqDecision VoteDecision.
Proof. solve_decision. Defined.

Definition ret {A} (m : go A) : option A := if m is Ret a then Some a else None.

Lemma ret_Some {A} (m : go A) a : ret m = Some a → m = Ret a.
Proof. destruct m; simpl; congruence. Qed.

(** take a step apart *)
Ltac sys_inv H :=
  simpl in H; simplify_option_eq;
  repeat (match goal with
  | H : _ * _ |- _ => destruct H
  | H : context [match ?x with _ => _ end] |- _ => is_var x; destruct x
  end; simplify_option_eq);
  repeat match goal with H : ret _ = Some _ |- _ => apply ret_Some in H end.

Section system.
Context {Cmd : Type} `{!GobCodec Z} `{!GobCodec (list (LogEntry Cmd))}.
Implicit Types (rf : Raft Cmd) (w : RaftNet Cmd) (s : System Cmd) (i j : nat).

Definition setRaft i rf w : RaftNet Cmd :=
  mkNetwork (<[i := rf]> (servers w)) (requests w) (sent w) (answers w) (snaps w)
            (snapAnswers w) (votes w) (leaders w).

(** the last entry of a log *)
Definition lastNode rf : node :=
  match last (logs rf) with Some e => (LogIndex e, LogTerm e) | None => root end.

(** the receiver has the last entry of the request, and more *)
Definition overtaken (args : AppendEntriesArgs Cmd) rf : bool :=
  match Entries args ≫= last with
  | Some e => (LogIndex e <? lastLogIndex rf)
              && bool_decide (LogTerm <$> entryAt rf (LogIndex e) = Some (LogTerm e))
  | None => false
  end.

(** the request continues from the end of the receiver's snapshot, in another term *)
Definition contradicted (args : AppendEntriesArgs Cmd) rf : bool :=
  match Entries args with
  | Some _ => (PrevLogIndex args =? lastIncludedIndex rf)
              && negb (PrevLogTerm args =? lastIncludedTerm rf)
  | None => false
  end.

(** [i] may vote for [c] in the term [T]: it is not won yet, or [i] has not voted for
    another candidate than [c] (and [c] does not need the vote any more if it is the winner) *)
Definition freeVote i (T : Z) (c : nat) w : bool :=
  match leaders w !! T with
  | None => true
  | Some l =>
      bool_decide (l ≠ c)
      && bool_decide (votes w !! (i, T) = None ∨ votes w !! (i, T) = Some c)
  end.

(** a vote of [i] that counts: given in the term of the request, on the log that was read,
    and not the second one in the term *)
Definition counted i (args : RequestVoteArgs) (v : VoteView) (granted : bool) rf w : bool :=
  granted && (vv_curTerm v =? currentTerm rf) && (CandicateTerm args =? currentTerm rf)
  && bool_decide ((vv_lastLogIdx v, vv_lastLogTerm v) = lastNode rf)
  && freeVote i (currentTerm rf) (Z.to_nat (CandicateId args)) w.

(** [Some c]: a vote for [c] *)
Definition vote i (T : Z) (c : option nat) w : gmap (nat * Z) nat :=
  match c with Some c => <[(i, T) := c]> (votes w) | None => votes w end.

Definition ninit (n : nat) : RaftNet Cmd :=
  mkNetwork ((λ i, Make (Z.of_nat n) (Z.of_nat i) MakePersister) <$> seq 0 n) [] [] [] [] [] ∅ ∅.

Definition sysInit (n : nat) : System Cmd := mkSystem (ninit n) [] [] [] [] [].

(** *** Incidents *)

Definition noteIf (b : bool) (x : Incident) : list Incident := if b then [x] else [].

Definition aloneIncidents i (op : RaftOp Cmd) rf : list Incident :=
  match op with
  | OpTakeSnapshot _ li => noteIf (commitIndex rf <? li) (UncommittedSnapshot i)
  | _ => []
  end.

(** the votes of the round that are not votes for [i] in the term it is about to lead *)
Definition voidVotes i (T : Z) (voters : list nat) w : list nat :=
  filter (λ v, votes w !! (v, T) ≠ Some i) voters.

Definition decideIncidents (r : ElectionRound) (d : VoteDecision) rf w : list Incident :=
  match d with
  | KeepWaiting _ => []
  | Win =>
      (VoidVote (cand r) <$> voidVotes (cand r) (currentTerm rf) (backers r) w)
      ++ noteIf (bool_decide (leaders w !! currentTerm rf = Some (cand r))) (WonTwice (cand r))
  | StepDown t => noteIf (t <=? currentTerm rf) (LateReply (cand r))
  end.

Definition recvIncidents i (args : AppendEntriesArgs Cmd) (reply : AppendEntriesReply) rf
    : list Incident :=
  noteIf (Success reply && overtaken args rf) (OvertakenRequest i)
  ++ noteIf (contradicted args rf) (ContradictedSnapshot i).

(** *** Steps *)

(** what a peer does on its own; an RPC without an answer is here, too *)
Definition isAlone (op : RaftOp Cmd) : bool :=
  match op with
  | OpStart _ | OpKill | OpTimer _ | OpHeartBeat _ | OpAppendArgs _ | OpTakeSnapshot _ _
  | OpAppendReply _ _ TimedOut | OpAppendReply _ _ Lost
  | OpSnapshotReply _ _ TimedOut | OpSnapshotReply _ _ Lost => true
  | _ => false
  end.

Definition onNet w (new : list Incident) s : System Cmd :=
  mkSystem w (reads s) (ballots s) (rounds s) (wins s) (new ++ incidents s).

Definition setRounds (rs : list ElectionRound) s : System Cmd :=
  mkSystem (net s) (reads s) (ballots s) rs (wins s) (incidents s).

(** a reply taken from [voteCh] *)
Definition countReply (r : ElectionRound) j (reply : RequestVoteReply) rf : ElectionRound :=
  mkRound (cand r) (ask r) (j :: heard r)
    (if VoteGranted reply then j :: backers r else backers r)
    (if VoteGranted reply then getVote r + 1 else getVote r)
    (match StartElection_count (getVote r) reply rf with KeepWaiting _ => None | d => Some d end).

Definition sysExec (ev : SysEvent Cmd) s : option (System Cmd) :=
  let w := net s in
  match ev with
  | Alone i op =>
      rf ← servers w !! i; guard (isAlone op = true);;
      rf' ← ret (exec op rf); Some (onNet (setRaft i rf' w) (aloneIncidents i op rf) s)
  | Stand i =>
      rf ← servers w !! i; o ← ret (StartElection_begin rf); '(rf', args) ← o;
      let w' := mkNetwork (<[i := rf']> (servers w)) (args :: requests w) (sent w) (answers w)
        (snaps w) (snapAnswers w)
        (vote i (currentTerm rf')
           (if freeVote i (currentTerm rf') i w then Some i else None) w)
        (leaders w) in
      Some (mkSystem w' (reads s) (ballots s) (mkRound i args [] [i] 1 None :: rounds s)
              (wins s) (incidents s))
  | VoteRead i k =>
      rf ← servers w !! i; args ← requests w !! k; guard (CandicateId args ≠ Z.of_nat i);;
      '(rf', v) ← ret (RequestVote_read args rf);
      Some (mkSystem (setRaft i rf' w) ((i, args, v) :: reads s) (ballots s) (rounds s)
              (wins s) (incidents s))
  | VoteGrant k =>
      '(i, args, v) ← reads s !! k; rf ← servers w !! i;
      '(rf', reply) ← ret (RequestVote_grant args v rf);
      let w' := mkNetwork (<[i := rf']> (servers w)) (requests w) (sent w) (answers w)
        (snaps w) (snapAnswers w)
        (vote i (currentTerm rf)
           (if counted i args v (VoteGranted reply) rf w then Some (Z.to_nat (CandicateId args))
            else None) w)
        (leaders w) in
      Some (mkSystem w' (delete k (reads s)) ((i, args, reply) :: ballots s) (rounds s)
              (wins s) (incidents s))
  | CountVote x k =>
      r ← rounds s !! x; '(j, args, reply) ← ballots s !! k; rf ← servers w !! cand r;
      guard (args = ask r);; guard (verdict r = None);; guard (j ∉ heard r);; guard (j ≠ cand r);;
      Some (setRounds (<[x := countReply r j reply rf]> (rounds s)) s)
  | Decide x =>
      r ← rounds s !! x; rf ← servers w !! cand r; d ← verdict r;
      rf' ← ret (StartElection_decide d rf);
      let won := bool_decide (d = Win) in
      let w' := mkNetwork (<[cand r := rf']> (servers w)) (requests w) (sent w) (answers w)
        (snaps w) (snapAnswers w) (votes w)
        (if won then <[currentTerm rf := cand r]> (leaders w) else leaders w) in
      Some (mkSystem w' (reads s) (ballots s) (delete x (rounds s))
              (if won then (currentTerm rf, cand r) :: wins s else wins s)
              (decideIncidents r d rf w ++ incidents s))
  | RoundTicks x => Some (setRounds (delete x (rounds s)) s)
  | RoundHeartBeat x =>
      r ← rounds s !! x; rf ← servers w !! cand r; rf' ← ret (recvHeartBeat rf);
      Some (setRounds (delete x (rounds s)) (onNet (setRaft (cand r) rf' w) [] s))
  | Send i j =>
      rf ← servers w !! i; guard (i ≠ j);;
      o ← ret (doAppendEntriesRPC_args (Z.of_nat j) rf); args ← o;
      Some (onNet (mkNetwork (servers w) (requests w) ((j, args) :: sent w) (answers w)
        (snaps w) (snapAnswers w) (votes w) (leaders w)) [] s)
  | Recv k =>
      '(j, args) ← sent w !! k; rf ← servers w !! j;
      '(rf', reply) ← ret (AppendEntries args rf);
      Some (onNet (mkNetwork (<[j := rf']> (servers w)) (requests w) (sent w)
        ((j, args, reply) :: answers w) (snaps w) (snapAnswers w) (votes w) (leaders w))
        (recvIncidents j args reply rf) s)
  | Reply k =>
      '(j, args, reply) ← answers w !! k;
      let i := Z.to_nat (LeaderId args) in
      rf ← servers w !! i; guard (i ≠ j);;
      let op := OpAppendReply (Z.of_nat j) args (Replied reply) in
      rf' ← ret (exec op rf);
      Some (onNet (setRaft i rf' w) (noteIf (bool_decide (takesBack op rf)) (LateReply i)) s)
  | SendSnap i j =>
      rf ← servers w !! i; guard (i ≠ j);;
      Some (onNet (mkNetwork (servers w) (requests w) (sent w) (answers w)
        ((i, j, doInstallSnapshotRPC_args rf) :: snaps w) (snapAnswers w) (votes w) (leaders w))
        (noteIf (bool_decide (role rf ≠ LEADER)) (UnledSnapshot i)) s)
  | RecvSnap k =>
      '(_, j, args) ← snaps w !! k; rf ← servers w !! j;
      '(rf', reply) ← ret (InstallSnapshot args rf);
      Some (onNet (mkNetwork (<[j := rf']> (servers w)) (requests w) (sent w) (answers w)
        (snaps w) ((j, args, reply) :: snapAnswers w) (votes w) (leaders w)) [] s)
  | SnapReply k =>
      '(j, args, reply) ← snapAnswers w !! k;
      let i := Z.to_nat (is_LeaderId args) in
      rf ← servers w !! i;
      rf' ← ret (exec (OpSnapshotReply (Z.of_nat j) args (Replied reply)) rf);
      Some (onNet (setRaft i rf' w) [] s)
  | Restart i =>
      rf ← servers w !! i;
      let rf' := Make (len (servers w)) (Z.of_nat i) (Copy (persister rf)) in
      Some (mkSystem (setRaft i rf' w) (filter (λ x, x.1.1 ≠ i) (reads s)) (ballots s)
              (filter (λ r, cand r ≠ i) (rounds s)) (wins s) (incidents s))
  end.

(** a schedule, as long as the sections return *)
Fixpoint sysRun (evs : list (SysEvent Cmd)) s : option (System Cmd) :=
  match evs with
  | [] => Some s
  | ev :: evs => s ← sysExec ev s; sysRun evs s
  end.

Lemma sysRun_app evs evs' s s' s'' :
  sysRun evs s = Some s' → sysRun evs' s' = Some s'' → sysRun (evs ++ evs') s = Some s''.
Proof.
  revert s. induction evs as [|ev evs IH]; simpl; intros s H H'; simplify_option_eq; [done|]. eauto.
Qed.

Lemma Decide_inv x s s' :
  sysExec (Decide x) s = Some s' → let w := net s in
  ∃ r rf d rf', rounds s !! x = Some r ∧ servers w !! cand r = Some rf ∧ verdict r = Some d
    ∧ StartElection_decide d rf = Ret rf' ∧ incidents s' = decideIncidents r d rf w ++ incidents s
    ∧ reads s' = reads s ∧ rounds s' = delete x (rounds s)
    ∧ wins s' = (if bool_decide (d = Win) then (currentTerm rf, cand r) :: wins s else wins s)
    ∧ net s' = mkNetwork (<[cand r := rf']> (servers w)) (requests w) (sent w) (answers w)
        (snaps w) (snapAnswers w) (votes w)
        (if bool_decide (d = Win) then <[currentTerm rf := cand r]> (leaders w) else leaders w).
Proof.
  intros H. cbn in H.
  apply bind_Some in H as (r & Hr & H). apply bind_Some in H as (rf & Hi & H).
  apply bind_Some in H as (d & Hd & H). apply bind_Some in H as (rf' & H' & H).
  apply ret_Some in H'. injection H as <-. by exists r, rf, d, rf'.
Qed.

Lemma Reply_inv k s s' :
  sysExec (Reply k) s = Some s' → let w := net s in
  ∃ i j args reply rf rf', let op := OpAppendReply (Z.of_nat j) args (Replied reply) in
    (j, args, reply) ∈ answers w ∧ servers w !! i = Some rf ∧ i ≠ j ∧ exec op rf = Ret rf'
    ∧ s' = onNet (setRaft i rf' w) (noteIf (bool_decide (takesBack op rf)) (LateReply i)) s.
Proof.
  intros H. unfold sysExec in H. cbv zeta in H.
  apply bind_Some in H as ([[j args] reply] & Hk & H). apply bind_Some in H as (rf & Hi & H).
  apply bind_Some in H as (Hne & _ & H). apply bind_Some in H as (rf' & H' & H).
  apply ret_Some in H'. injection H as <-. apply list_elem_of_lookup_2 in Hk.
  by exists (Z.to_nat (LeaderId args)), j, args, reply, rf, rf'.
Qed.

(** what was noted stays noted *)
Lemma sysExec_notes ev s s' :
  sysExec ev s = Some s' →
  incidents s `suffix_of` incidents s' ∧ wins s `suffix_of` wins s'.
Proof.
  intros H. assert (∀ A (l l' : list A), l `suffix_of` l' ++ l) as Ha by (intros; by eexists).
  destruct ev; sys_inv H; simpl; split; first [done | apply Ha | apply (Ha _ _ [_])].
Qed.

Lemma sysRun_notes evs s s' :
  sysRun evs s = Some s' →
  incidents s `suffix_of` incidents s' ∧ wins s `suffix_of` wins s'.
Proof.
  revert s. induction evs as [|ev evs IH]; simpl; intros s H; simplify_option_eq; [done|].
  destruct (IH _ H). edestruct (sysExec_notes ev s); [done|]. split; by etrans.
Qed.

Lemma sysRun_calm evs s s' : sysRun evs s = Some s' → incidents s' = [] → incidents s = [].
Proof. intros [[l Hl] _]%sysRun_notes E. rewrite E in Hl. by destruct l, (incidents s). Qed.
End system.
