(* ===== verification/RaftNetwork.v ===== *)
(** * Package raft: the executions without incidents

    [nstep] has the steps of the cluster of [RaftSystem.v] that note no incident (that
    every such step is one of these is proved in [RaftAgreement.v]), over the state that
    matters for the logs.  The votes of a winner are the ones that count, and a reply may
    reach any peer.  [connected] relates such a state to one of [RaftProtocol.v]: the
    theorems about executions are proved through it. *)

From S2P Require Import Prelude Gob Raft RaftStep RaftPersist RaftLog RaftSafety.
From S2P Require Import RaftElection RaftCommit RaftCluster RaftProtocol RaftSystem.

Section network.
Context {Cmd : Type} `{!GobCodec Z} `{!GobCodec (list (LogEntry Cmd))}.
Implicit Types (rf : Raft Cmd) (w : RaftNet Cmd) (i j : nat) (F : Forest Cmd).

(** what a peer does on its own *)
Definition alone (op : RaftOp Cmd) rf : Prop :=
  match op with
  | OpStart _ | OpKill | OpElectionHeartBeat | OpTimer _ | OpHeartBeat _ | OpAppendArgs _
  | OpElectionDecide (KeepWaiting _) => True
  | OpElectionDecide (StepDown _) => ¬ takesBack op rf
  | OpTakeSnapshot _ li => li ≤ commitIndex rf
  | _ => False
  end.

Inductive nstep w : RaftNet Cmd → Prop :=
| n_alone i rf op rf' :
    servers w !! i = Some rf → alone op rf → exec op rf = Ret rf' →
    nstep w (setRaft i rf' w)
| n_stand i rf rf' args :
    servers w !! i = Some rf → StartElection_begin rf = Ret (Some (rf', args)) →
    nstep w (mkNetwork (<[i := rf']> (servers w)) (args :: requests w) (sent w) (answers w)
      (snaps w) (snapAnswers w)
      (vote i (currentTerm rf')
         (if freeVote i (currentTerm rf') i w then Some i else None) w)
      (leaders w))
| n_voteRead i rf args rf' v :
    servers w !! i = Some rf → args ∈ requests w → RequestVote_read args rf = Ret (rf', v) →
    nstep w (setRaft i rf' w)
| n_voteGrant i rf args v rf' reply :
    servers w !! i = Some rf → args ∈ requests w → RequestVote_grant args v rf = Ret (rf', reply) →
    nstep w (mkNetwork (<[i := rf']> (servers w)) (requests w) (sent w) (answers w)
      (snaps w) (snapAnswers w)
      (vote i (currentTerm rf)
         (if counted i args v (VoteGranted reply) rf w then Some (Z.to_nat (CandicateId args))
          else None) w)
      (leaders w))
| n_win i rf rf' voters :
    servers w !! i = Some rf → leaders w !! currentTerm rf ≠ Some i →
    NoDup voters → majority rf ≤ len voters →
    (∀ v, v ∈ voters → votes w !! (v, currentTerm rf) = Some i) →
    exec (OpElectionDecide Win) rf = Ret rf' →
    nstep w (mkNetwork (<[i := rf']> (servers w)) (requests w) (sent w) (answers w)
      (snaps w) (snapAnswers w) (votes w) (<[currentTerm rf := i]> (leaders w)))
| n_send i rf j args :
    servers w !! i = Some rf → i ≠ j →
    doAppendEntriesRPC_args (Z.of_nat j) rf = Ret (Some args) →
    nstep w (mkNetwork (servers w) (requests w) ((j, args) :: sent w) (answers w)
      (snaps w) (snapAnswers w) (votes w) (leaders w))
| n_recv i rf args rf' reply :
    servers w !! i = Some rf → (i, args) ∈ sent w → AppendEntries args rf = Ret (rf', reply) →
    (Success reply = true → overtaken args rf = false) →
    nstep w (mkNetwork (<[i := rf']> (servers w)) (requests w) (sent w)
      ((i, args, reply) :: answers w) (snaps w) (snapAnswers w) (votes w) (leaders w))
| n_answer i rf j args reply rf' :
    servers w !! i = Some rf → i ≠ j → (j, args, reply) ∈ answers w →
    ¬ takesBack (OpAppendReply (Z.of_nat j) args (Replied reply)) rf →
    exec (OpAppendReply (Z.of_nat j) args (Replied reply)) rf = Ret rf' →
    nstep w (setRaft i rf' w)
| n_sendSnap i rf j :
    servers w !! i = Some rf → i ≠ j → role rf = LEADER →
    nstep w (mkNetwork (servers w) (requests w) (sent w) (answers w)
      ((i, j, doInstallSnapshotRPC_args rf) :: snaps w) (snapAnswers w) (votes w) (leaders w))
| n_recvSnap i from rf args rf' reply :
    servers w !! i = Some rf → (from, i, args) ∈ snaps w → InstallSnapshot args rf = Ret (rf', reply) →
    nstep w (mkNetwork (<[i := rf']> (servers w)) (requests w) (sent w) (answers w) (snaps w)
      ((i, args, reply) :: snapAnswers w) (votes w) (leaders w))
| n_snapAnswer i rf j args reply rf' :
    servers w !! i = Some rf → (j, args, reply) ∈ snapAnswers w →
    exec (OpSnapshotReply (Z.of_nat j) args (Replied reply)) rf = Ret rf' →
    nstep w (setRaft i rf' w)
| n_restart i rf :
    servers w !! i = Some rf →
    nstep w (setRaft i (Make (len (servers w)) (Z.of_nat i) (Copy (persister rf))) w).

(** ** The connection to the protocol *)

Definition toCluster w : Cluster Cmd :=
  mkCluster (servers w) (sent w).*2 ((λ m, (m.1.1, m.2)) <$> snaps w) (leaders w).

(** the tree of a forest: every entry's predecessor *)
Definition treeOf F (P : Tree) : Prop :=
  ∀ k t, P !! (k, t) = (λ x, (k - 1, x.2)) <$> F !! (k, t).

Definition nodeOf (e : LogEntry Cmd) : node := (LogIndex e, LogTerm e).

(** a step adds at most one entry, behind one that is there *)
Definition grows F F' : Prop :=
  F' = F ∨ ∃ p e, nodeOK F p ∧ follows p e ∧ F !! nodeOf e = None ∧ F' = grow F p e.

(** [v] entries of peer [j] are accounted for: they are in the winner's log from before,
    or [j] has acknowledged them *)
Definition reached (s : Proto) (j : nat) (T : Z) (b : node) (v : Z) : Prop :=
  v ≤ b.1 ∨ ∃ m, (j, T, m) ∈ acked s ∧ v ≤ m.1.

Record server_ok (s : Proto) (vs : gmap (nat * Z) nat) i rf : Prop := {
  so_wf : raft_wf rf;
  so_id : me rf = Z.of_nat i ∧ peers rf = Z.of_nat (length (peerAt s));
  so_at : peerAt s !! i = Some (currentTerm rf, lastNode rf);
  so_commit : ∃ n, n.1 = commitIndex rf ∧ below (tree s) n (lastNode rf)
    ∧ safeBy s (currentTerm rf) n;
  so_leader : role rf = LEADER → ∃ b l,
    won s !! currentTerm rf = Some (i, b) ∧ (lastNode rf).2 = currentTerm rf
    ∧ (i, currentTerm rf, lastNode rf) ∈ acked s ∧ leaderPtr rf = Some l
    ∧ (∀ j v, nextIndexs l !! j = Some v → reached s j (currentTerm rf) b (v - 1))
    ∧ (∀ j v, matchIndexs l !! j = Some v → v ≤ 0 ∨ ∃ m, (j, currentTerm rf, m) ∈ acked s ∧ v ≤ m.1);
  so_vote : won s !! currentTerm rf = None → ∀ c, vs !! (i, currentTerm rf) = Some c →
    votedFor rf = Z.of_nat c;
}.

Definition request_ok (s : Proto) (args : RequestVoteArgs) : Prop :=
  ∃ c, CandicateId args = Z.of_nat c
    ∧ stood s !! (CandicateTerm args, c) = Some (LastLogIndex args, LastLogTerm args).

Definition sent_ok (s : Proto) (m : nat * AppendEntriesArgs Cmd) : Prop :=
  let '(j, args) := m in let T := LeaderTerm args in
  ∃ i b, won s !! T = Some (i, b) ∧ i ≠ j
    ∧ (∃ n, n.1 = LeaderCommit args ∧ safeBy s T n)
    ∧ match Entries args with
      | Some es => ∃ e, last es = Some e ∧ onPath s T (nodeOf e)
          ∧ below (tree s) (PrevLogIndex args, PrevLogTerm args) (nodeOf e)
          ∧ PrevLogIndex args < LogIndex e ∧ reached s j T b (PrevLogIndex args)
      | None => ∃ m, (j, T, m) ∈ acked s ∧ LeaderCommit args ≤ m.1
      end.

Definition answer_ok (s : Proto) (m : nat * AppendEntriesArgs Cmd * AppendEntriesReply) : Prop :=
  let '(j, args, reply) := m in
  if Success reply then
    ∀ es e, Entries args = Some es → last es = Some e → (j, LeaderTerm args, nodeOf e) ∈ acked s
  else ae_FollowerTerm reply ≤ LeaderTerm args → is_Some (Entries args) ∧
    ((Xterm reply = -1 ∧ Xlen reply < Z.max 1 (PrevLogIndex args))
     ∨ (Xterm reply ≠ -1 ∧ Xterm reply ≠ LeaderTerm args ∧ Xindex reply ≤ PrevLogIndex args)).

Definition snap_ok (s : Proto) (m : nat * nat * InstallSnapshotArgs) : Prop :=
  let '(i, j, args) := m in
  ∃ b, won s !! is_Term args = Some (i, b) ∧ i ≠ j
    ∧ safeBy s (is_Term args) (is_LastIncludedIndex args, is_LastIncludedTerm args).

Definition snapAnswer_ok (s : Proto) (m : nat * InstallSnapshotArgs * InstallSnapshotReply) : Prop :=
  let '(j, args, reply) := m in
  isr_Term reply ≤ is_Term args →
  (j, is_Term args, (is_LastIncludedIndex args, is_LastIncludedTerm args)) ∈ acked s.

Record connected F (s : Proto) w : Prop := {
  nc_proto : protocol_ok s;
  nc_tree : treeOf F (tree s);
  nc_cluster : cluster_ok F (toCluster w);
  nc_length : length (peerAt s) = length (servers w);
  nc_odd : Z.odd (len (servers w)) = true;
  nc_servers : ∀ i rf, servers w !! i = Some rf → server_ok s (votes w) i rf;
  nc_votes : votes w = fst <$> ballot s;
  nc_leaders : leaders w = fst <$> won s;
  nc_requests : ∀ args, args ∈ requests w → request_ok s args;
  nc_sent : ∀ m, m ∈ sent w → sent_ok s m;
  nc_answers : ∀ m, m ∈ answers w → (m.1 ∈ sent w) ∧ answer_ok s m;
  nc_snaps : ∀ m, m ∈ snaps w → snap_ok s m;
  nc_snapAnswers : ∀ m, m ∈ snapAnswers w →
    (∃ i, (i, m.1.1, m.1.2) ∈ snaps w) ∧ snapAnswer_ok s m;
}.
End network.
