(* ===== verification/RaftLogMatching.v ===== *)
(** * Package raft: Log Matching in the running cluster

    The executions of [RaftSystem.v] in which each term is won at most once, snapshots are
    sent by leaders, and no request contradicts the receiver's snapshot ([soundLogs]) take
    the steps of [RaftCluster.v].  All else may happen: votes that do not count, late
    replies, overtaken requests, snapshots of entries that are not committed. *)

From S2P Require Import Prelude Gob Raft RaftStep RaftPersist RaftLog RaftSafety.
From S2P Require Import RaftElection RaftCommit RaftCluster RaftProtocol RaftSystem RaftNetwork.

Section logmatching.
Context {Cmd : Type} `{!GobCodec Z} `{!GobCodec (list (LogEntry Cmd))}.
Implicit Types (rf : Raft Cmd) (s : System Cmd) (i j : nat) (F : Forest Cmd).

(** no term is won twice, no snapshot is sent by a peer that does not lead, and no
    request contradicts a snapshot *)
Definition soundLogs s : Prop :=
  NoDup (wins s).*1
  ∧ (∀ i, ¬ (UnledSnapshot i ∈ incidents s) ∧ ¬ (ContradictedSnapshot i ∈ incidents s)).

Lemma soundLogs_before evs s s' : sysRun evs s = Some s' → soundLogs s' → soundLogs s.
Proof.
  intros [[l Hl] [l' Hl']]%sysRun_notes [Hd Hi]. rewrite Hl in Hi. rewrite Hl', fmap_app in Hd.
  split; [by apply NoDup_app in Hd as (_ & _ & ?)|]. intros i. specialize (Hi i).
  rewrite !elem_of_app in Hi. naive_solver.
Qed.

Record traced (n : nat) s : Prop := {
  tr_steps : rtc cstep (cinit n) (toCluster (net s));
  tr_wins : ∀ T i, leaders (net s) !! T = Some i → T ∈ (wins s).*1;
  tr_snaps : ∀ i j args, (i, j, args) ∈ snaps (net s) → i ≠ j;
}.

Lemma traced_init n : traced n (sysInit n).
Proof. split; [done| |]; simpl; [intros T i; by rewrite lookup_empty|by intros ? ? ? ?%elem_of_nil]. Qed.

(** a request that was sent fits its receiver, unless it contradicts its snapshot *)
Lemma traced_pre F s j args rf :
  cluster_ok F (toCluster (net s)) → (j, args) ∈ sent (net s) → contradicted args rf = false →
  op_pre (OpAppendEntries args) rf.
Proof.
  intros Hok Hin Hc es Hes. unfold contradicted in Hc. rewrite Hes in Hc. split; [|lia].
  destruct (co_appends _ _ Hok args) with (es := es) as (p & Hp & _ & Hch); [|done|].
  { simpl. apply list_elem_of_fmap. by exists (j, args). }
  intros k e He. destruct (chain_lookup F p es (S k) e Hch He) as (Hi & _). lia.
Qed.

Lemma exec_begin rf rf' args :
  StartElection_begin rf = Ret (Some (rf', args)) → exec OpElectionBegin rf = Ret rf'.
Proof. intros H. unfold exec. by rewrite H. Qed.

Lemma exec_read args rf rf' v :
  RequestVote_read args rf = Ret (rf', v) → exec (OpRequestVote_read args) rf = Ret rf'.
Proof. intros H. unfold exec. by rewrite H. Qed.

Lemma exec_grant args v rf rf' reply :
  RequestVote_grant args v rf = Ret (rf', reply) → exec (OpRequestVote_grant args v) rf = Ret rf'.
Proof. intros H. unfold exec. by rewrite H. Qed.

Lemma alone_own (op : RaftOp Cmd) : isAlone op = true → ownStep op = true.
Proof. by destruct op. Qed.

#[local] Arguments exec : simpl never.
#[local] Hint Resolve exec_begin exec_read exec_grant alone_own : core.

(** a win, if the term is new *)
Lemma win_cstep n s i rf rf' :
  traced n s → servers (net s) !! i = Some rf → NoDup (currentTerm rf :: (wins s).*1) →
  becomeLeader rf = Ret rf' →
  cstep (toCluster (net s)) (mkCluster (<[i := rf']> (servers (net s))) (appends (toCluster (net s)))
    (installs (toCluster (net s))) (<[currentTerm rf := i]> (leaders (net s)))).
Proof.
  intros Ht Hi [Hnew _]%NoDup_cons H. apply (cs_win (toCluster (net s)) i rf); [done| |done]. simpl.
  apply eq_None_not_Some. intros [j Hj]. by apply Hnew, (tr_wins _ _ Ht _ j).
Qed.

Lemma recv_cstep n s j args rf rf' reply :
  traced n s → (j, args) ∈ sent (net s) → servers (net s) !! j = Some rf →
  contradicted args rf = false → AppendEntries args rf = Ret (rf', reply) →
  cstep (toCluster (net s)) (setNode j rf' (toCluster (net s))).
Proof.
  intros Ht Hin Hj Hc H. destruct (csteps_ok _ _ _ (cinit_ok n) (tr_steps _ _ Ht)) as (F & _ & Hok).
  apply (cs_recvEntries (toCluster (net s)) j rf args rf' reply); [done| |by eapply traced_pre|done].
  simpl. apply list_elem_of_fmap. by exists (j, args).
Qed.

Lemma recvSnap_cstep n s i j args rf rf' reply :
  traced n s → (i, j, args) ∈ snaps (net s) → servers (net s) !! j = Some rf →
  InstallSnapshot args rf = Ret (rf', reply) →
  cstep (toCluster (net s)) (setNode j rf' (toCluster (net s))).
Proof.
  intros Ht Hin Hj H. apply (cs_recvSnapshot (toCluster (net s)) j i rf args rf' reply); [done| | |done].
  - simpl. apply list_elem_of_fmap. by exists (i, j, args).
  - intros <-. by apply (tr_snaps _ _ Ht j j args).
Qed.

Lemma sysExec_csteps n ev s s' :
  traced n s → sysExec ev s = Some s' → soundLogs s' →
  rtc cstep (toCluster (net s)) (toCluster (net s')).
Proof.
  intros Ht H [Hnd Hinc].
  assert (∀ i rf op rf', servers (net s) !! i = Some rf → ownStep op = true → exec op rf = Ret rf' →
    rtc cstep (toCluster (net s)) (setNode i rf' (toCluster (net s)))) as Hown
    by (intros; apply rtc_once; by eapply (cs_own (toCluster (net s)))).
  destruct ev as [| | | | |x| |x|i j|k|k|i j|k|k|i]; sys_inv H; try done;
    try (by eapply Hown; eauto); try (by eapply rtc_once, win_cstep; eauto).
  - match goal with H : StartElection_decide ?d ?rf = Ret _ |- _ =>
      eapply (Hown _ rf (OpElectionDecide d)) end; [done| |done].
    match goal with H : ?d ≠ Win |- _ => by destruct d end.
  - by eapply (Hown _ _ OpElectionHeartBeat).
  - by eapply rtc_once, (cs_sendEntries (toCluster (net s))).
  - eapply rtc_once, recv_cstep; eauto using list_elem_of_lookup_2.
    destruct (contradicted _ _) eqn:E; [|done]. edestruct Hinc as [_ []]. simpl.
    unfold recvIncidents. rewrite E, !elem_of_app. left; right. by left.
  - by eapply rtc_once, (cs_sendSnapshot (toCluster (net s))).
  - edestruct Hinc as [[] _]. by left.
  - eapply rtc_once, recvSnap_cstep; eauto using list_elem_of_lookup_2.
  - by eapply rtc_once, (cs_restart (toCluster (net s))).
Qed.

Lemma sysExec_traced n ev s s' :
  traced n s → sysExec ev s = Some s' → soundLogs s' → traced n s'.
Proof.
  intros Ht H Hsd. split.
  - etrans; [apply Ht|by eapply sysExec_csteps].
  - pose proof (tr_wins _ _ Ht) as Hw. clear Hsd. destruct ev; sys_inv H; simpl; try exact Hw.
    all: intros T j [[-> _]|[_ ?]]%lookup_insert_Some; [by left|right; by eapply Hw].
  - pose proof (tr_snaps _ _ Ht) as Hsn. clear Hsd. destruct ev; sys_inv H; simpl; try exact Hsn.
    all: by intros ? ? ? [[= -> -> _]|?]%elem_of_cons; [|by eapply Hsn].
Qed.

Lemma sysRun_traced n evs s s' :
  traced n s → sysRun evs s = Some s' → soundLogs s' →
  traced n s' ∧ rtc cstep (toCluster (net s)) (toCluster (net s')).
Proof.
  revert s. induction evs as [|ev evs IH]; cbn [sysRun]; intros s Ht H Hsd; [by injection H as <-|].
  destruct (sysExec ev s) as [s1|] eqn:Hev; [|done]. simpl in H.
  pose proof (soundLogs_before _ _ _ H Hsd) as Hsd1.
  destruct (IH s1) as [Ht' Hst]; [by eapply sysExec_traced|done..|]. split; [done|].
  etrans; [by eapply sysExec_csteps|done].
Qed.

(** C27: Log Matching.  In every execution of a cluster (elections, messages lost,
    duplicated, delayed and reordered, snapshots, crashes and restarts; see [sysExec]) in
    which each term is won at most once, no snapshot is sent by a peer that has stopped
    leading, and no AppendEntries request contradicts the receiver's snapshot: when two
    peers' logs have an entry with the same index and term, then at every earlier index
    that both logs still have they have an entry of the same term and command index, and
    the same entry (the command included) after both snapshots. *)
Theorem cluster_log_matching n evs s i j rf rf' k m e e' :
  sysRun evs (sysInit n) = Some s →
  NoDup (wins s).*1 →
  (∀ x, ¬ (UnledSnapshot x ∈ incidents s) ∧ ¬ (ContradictedSnapshot x ∈ incidents s)) →
  servers (net s) !! i = Some rf → servers (net s) !! j = Some rf' →
  entryAt rf k = Some e → entryAt rf' k = Some e' → LogTerm e = LogTerm e' →
  m ≤ k → lastIncludedIndex rf ≤ m → lastIncludedIndex rf' ≤ m →
  ∃ a a', entryAt rf m = Some a ∧ entryAt rf' m = Some a'
    ∧ LogTerm a = LogTerm a' ∧ CommandIndex a = CommandIndex a'
    ∧ (lastIncludedIndex rf < m → lastIncludedIndex rf' < m → a = a').
Proof.
  intros H Hnd Hinc Hi Hj. destruct (sysRun_traced n evs _ s (traced_init n) H (conj Hnd Hinc)) as [Ht _].
  exact (logs_match n (toCluster (net s)) i j rf rf' k m e e' (tr_steps _ _ Ht) Hi Hj).
Qed.

(** C28: The index and term that [Start] returns name one entry for ever.  In the same
    executions (each term is won at most once, snapshots are sent by leaders, no request
    contradicts a snapshot), whatever happens after a call of [Start]: an entry of any
    peer's log that carries a command under the returned command index and term carries
    the command given to [Start].  (On a killed peer and on a peer that does not lead,
    [Start] returns the index -1, which no entry has.) *)
Theorem Start_names_entry n evs s evs' s' i j rf rf1 rf2 cmd ci t ld k e :
  sysRun evs (sysInit n) = Some s → servers (net s) !! i = Some rf →
  Start cmd rf = Ret (rf1, (ci, t, ld)) →
  sysRun (Alone i (OpStart cmd) :: evs') s = Some s' →
  NoDup (wins s').*1 →
  (∀ x, ¬ (UnledSnapshot x ∈ incidents s') ∧ ¬ (ContradictedSnapshot x ∈ incidents s')) →
  servers (net s') !! j = Some rf2 → entryAt rf2 k = Some e → lastIncludedIndex rf2 < k →
  IsInternalLog e = false → CommandIndex e = ci → LogTerm e = t →
  Command e = Some cmd.
Proof.
  intros H Hi HS H' Hnd Hinc Hj He. pose proof (conj Hnd Hinc : soundLogs s') as Hsd.
  destruct (sysRun_traced n evs _ s (traced_init n) H) as [Ht _]; [by eapply soundLogs_before|].
  cbn [sysRun] in H'. destruct (sysExec (Alone i (OpStart cmd)) s) as [s1|] eqn:E; [|done]. simpl in H'.
  pose proof (soundLogs_before _ _ _ H' Hsd) as Hsd1.
  destruct (sysRun_traced n evs' s1 s') as [_ Hst]; [by eapply sysExec_traced|done..|].
  assert (net s1 = setRaft i rf1 (net s)) as E1.
  { simpl in E. rewrite Hi in E. simpl in E. unfold exec in E. rewrite HS in E. simpl in E. by injection E as <-. }
  rewrite E1 in Hst.
  exact (started_entry n (toCluster (net s)) (toCluster (net s')) i j rf rf1 rf2 cmd ci t ld k e
    (tr_steps _ _ Ht) Hi HS Hst Hj He).
Qed.
End logmatching.
