(* ===== verification/RaftClusterWitness.v ===== *)
(** * Package raft: executions of a cluster of three

    Peer 0 wins term 1 with the vote of peer 1, takes a command and sends it to peer 1,
    which restarts; peer 0 takes a snapshot of an entry that is not committed yet.  In a
    second execution two peers lead in term 3. *)

From S2P Require Import Prelude Gob Raft RaftStep RaftPersist RaftLog RaftCommit RaftElection RaftCluster.
From S2P Require Import RaftProtocol RaftSystem RaftNetwork RaftLogMatching.
Import CountableCodec.

(** peer [i] stands, peer [j] votes for it, and it wins *)
Definition electionOf {Cmd} (i j : nat) : list (SysEvent Cmd) :=
  [Stand i; VoteRead j 0; VoteGrant 0; CountVote 0 0; Decide 0].

(** the last message that [i] has sent to another peer arrives, and so does the answer *)
Definition exchange {Cmd} (i j : nat) : list (SysEvent Cmd) := [Send i j; Recv 0; Reply 0].

(** where a schedule leads *)
Definition reach {Cmd} `{!GobCodec Z} `{!GobCodec (list (LogEntry Cmd))}
    (evs : list (SysEvent Cmd)) (s : System Cmd) : System Cmd := default s (sysRun evs s).

Definition elect0 : list (SysEvent Z) := electionOf 0 1.
Definition replicate1 : list (SysEvent Z) :=
  [Send 0 1; Recv 0; Restart 1; Alone 0 (OpTakeSnapshot [] 1)].

(** peer 0 leads term 1 *)
Definition led : System Z := reach elect0 (sysInit 3).
(** its command is on peer 1 too, which restarted *)
Definition replicated : System Z := reach (Alone 0 (OpStart 7) :: replicate1) led.

Lemma led_run : sysRun elect0 (sysInit 3) = Some led.
Proof. vm_compute. reflexivity. Qed.

Lemma replicated_run : sysRun (Alone 0 (OpStart 7) :: replicate1) led = Some replicated.
Proof. vm_compute. reflexivity. Qed.

(** peer [i], or a new one *)
Definition member {Cmd} `{!GobCodec Z} `{!GobCodec (list (LogEntry Cmd))} (i : nat) (s : System Cmd)
    : Raft Cmd := nth i (servers (net s)) (Make 3 0 MakePersister).

Definition command7 : LogEntry Z := mkLogEntry 1 2 (Some 7) 1 false.

#[local] Opaque Make.

(** one incident, that does not matter here *)
Lemma replicated_notes :
  wins replicated = [(1, 0%nat)] ∧ incidents replicated = [UncommittedSnapshot 0].
Proof. split; vm_compute; reflexivity. Qed.

Lemma replicated_sound :
  NoDup (wins replicated).*1 ∧ ∀ x, ¬ (UnledSnapshot x ∈ incidents replicated)
    ∧ ¬ (ContradictedSnapshot x ∈ incidents replicated).
Proof.
  destruct replicated_notes as [-> ->]. split; [by apply NoDup_singleton|].
  intros x. split; by intros ?%list_elem_of_singleton.
Qed.

(** peer 0 has compressed index 1, peer 1 has not *)
Lemma cluster_log_matching_witness :
  ∃ a a', entryAt (member 0 replicated) 1 = Some a ∧ entryAt (member 1 replicated) 1 = Some a'
    ∧ LogTerm a = LogTerm a' ∧ lastIncludedIndex (member 0 replicated) = 1
    ∧ lastIncludedIndex (member 1 replicated) = 0.
Proof.
  destruct (cluster_log_matching 3 (elect0 ++ Alone 0 (OpStart 7) :: replicate1) replicated 0 1
    (member 0 replicated) (member 1 replicated) 2 1 command7 command7) as (a & a' & H1 & H2 & H3 & _).
  - exact (sysRun_app _ _ _ _ _ led_run replicated_run).
  - apply replicated_sound.
  - apply replicated_sound.
  - vm_compute. reflexivity.
  - vm_compute. reflexivity.
  - vm_compute. reflexivity.
  - vm_compute. reflexivity.
  - reflexivity.
  - lia.
  - vm_compute. discriminate.
  - vm_compute. discriminate.
  - exists a, a'. split; [exact H1|]. split; [exact H2|]. split; [exact H3|].
    split; vm_compute; reflexivity.
Defined.

Definition started : Raft Z := default (member 0 led) (ret (exec (OpStart 7) (member 0 led))).

Lemma Start_names_entry_witness :
  ∃ e, entryAt (member 1 replicated) 2 = Some e ∧ Command e = Some 7.
Proof.
  exists command7. split; [vm_compute; reflexivity|].
  apply (Start_names_entry 3 elect0 led replicate1 replicated 0 1 (member 0 led) started
    (member 1 replicated) 7 1 1 true 2 command7).
  - exact led_run.
  - vm_compute. reflexivity.
  - vm_compute. reflexivity.
  - exact replicated_run.
  - apply replicated_sound.
  - apply replicated_sound.
  - vm_compute. reflexivity.
  - vm_compute. reflexivity.
  - vm_compute. reflexivity.
  - reflexivity.
  - reflexivity.
  - reflexivity.
Defined.

(** ** Two leaders in one term

    Peer 2 votes for peer 0 in term 3; an AppendEntries request of peer 0 clears its vote,
    and it votes for peer 1 in the same term. *)

Definition twoWinners : list (SysEvent Z) :=
  electionOf 0 2 ++ [Stand 1; RoundTicks 0; Stand 1; RoundTicks 0; VoteRead 0 0; Stand 0; Stand 1]
  ++ [VoteRead 2 1; VoteGrant 0; CountVote 1 0; Decide 1; Send 0 2; Recv 0]
  ++ [VoteRead 2 0; VoteGrant 0; CountVote 0 0; Decide 0; Alone 1 (OpStart 9)].

(** The cluster runs into it, the vote that does not count is noted, and without the
    conditions of Log Matching two logs have different entries with one index and term. *)
Theorem void_vote_breaks_matching :
  ∃ s e e', sysRun twoWinners (sysInit 3) = Some s
    ∧ incidents s = [VoidVote 1 2] ∧ wins s = [(3, 1%nat); (3, 0%nat); (1, 0%nat)]
    ∧ entryAt (member 0 s) 2 = Some e ∧ entryAt (member 1 s) 2 = Some e'
    ∧ LogTerm e = LogTerm e' ∧ Command e ≠ Command e'.
Proof.
  eexists _, _, _. split; [vm_compute; reflexivity|].
  repeat (split; [vm_compute; reflexivity|]). vm_compute. discriminate.
Qed.
