(* ===== verification/RaftNetworkStep.v ===== *)
(** * Package raft: the program takes the steps of the protocol

    Every step of a network ([RaftNetwork.v]) is a sequence of steps of the protocol
    ([RaftProtocol.v]), and the two stay connected. *)

From S2P Require Import Prelude Gob Raft RaftStep RaftPersist RaftLog RaftSafety.
From S2P Require Import RaftElection RaftCommit RaftCluster RaftDelivery RaftProtocol RaftSystem RaftNetwork.

Section logs.
Context {Cmd : Type} `{!GobCodec Z} `{!GobCodec (list (LogEntry Cmd))}.
Implicit Types (rf : Raft Cmd) (w : RaftNet Cmd) (i j : nat) (F : Forest Cmd) (P : Tree).
Implicit Types (s : Proto) (e : LogEntry Cmd) (ls : list (LogEntry Cmd)).

(** ** Logs are paths *)

Lemma link_tree F P e e' : treeOf F P → link F e e' → P !! nodeOf e' = Some (nodeOf e).
Proof.
  intros Ht (Hi & _ & HF). unfold nodeOf. rewrite Ht, HF. simpl. do 2 f_equal. lia.
Qed.

Lemma node_known F P e : treeOf F P → nodeOK F e → known P (nodeOf e).
Proof.
  intros Ht [(Hi & Hte & _)|(e' & tp & HF & _)].
  - left. unfold nodeOf. by rewrite Hi, Hte.
  - right. unfold nodeOf. rewrite Ht, HF. by eexists.
Qed.

Lemma chain_below F P ls k d : ∀ e e',
  tree_ok P → treeOf F P → chain F ls → ls !! k = Some e → ls !! (k + d)%nat = Some e' →
  below P (nodeOf e) (nodeOf e').
Proof.
  induction d as [|d IH]; intros e e' Hok Ht Hc He He'.
  { rewrite Nat.add_0_r in He'. simplify_eq. apply below_refl. }
  destruct (lookup_lt_is_Some_2 ls (k + d)%nat) as [p Hp]; [apply lookup_lt_Some in He'; lia|].
  rewrite Nat.add_succ_r in He'.
  eapply (below_trans Hok); [by eapply IH|]. apply (below_parent Hok).
  eapply link_tree; [done|]. by eapply (proj2 Hc).
Qed.

Lemma lastNode_wf rf : raft_wf rf → ∃ e, last (logs rf) = Some e ∧ lastNode rf = nodeOf e
  ∧ LogIndex e = lastLogIndex rf ∧ entryAt rf (lastLogIndex rf) = Some e.
Proof.
  intros Hwf. destruct (indexed_last _ _ (wf_indexed _ Hwf) (wf_nonempty _ Hwf)) as (e & Hl & _ & Hi).
  exists e. unfold lastNode. rewrite Hl. split_and!; [done..|].
  assert (0 < length (logs rf))%nat by (pose proof (wf_nonempty _ Hwf); destruct (logs rf); simpl; [done|lia]).
  unfold entryAt, lastLogIndex, len. rewrite (proj2 (Z.leb_le _ _)) by lia.
  rewrite last_lookup in Hl. rewrite <-Hl. f_equal. lia.
Qed.

Lemma lastNode_index rf : raft_wf rf → (lastNode rf).1 = lastLogIndex rf.
Proof. intros (e & _ & -> & ? & _)%lastNode_wf. done. Qed.

Lemma lastNode_ext rf rf' : logs rf' = logs rf → lastNode rf' = lastNode rf.
Proof. unfold lastNode. by intros ->. Qed.

Lemma entry_in_log rf k :
  raft_wf rf → lastIncludedIndex rf ≤ k ≤ lastLogIndex rf → ∃ e, entryAt rf k = Some e ∧ LogIndex e = k.
Proof.
  intros Hwf Hk. unfold lastLogIndex, len in Hk.
  destruct (lookup_lt_is_Some_2 (logs rf) (Z.to_nat (k - lastIncludedIndex rf))) as [e He]; [lia|].
  exists e. unfold entryAt. rewrite (proj2 (Z.leb_le _ _)) by lia. split; [done|].
  apply (wf_indexed _ Hwf) in He. lia.
Qed.

Section log.
Context {F : Forest Cmd} {P : Tree} {el : gmap Z nat} {i : nat} {rf : Raft Cmd}.
Context (Hok : tree_ok P) (Ht : treeOf F P) (Hp : peer_ok F el i rf) (Hwf : raft_wf rf).

Lemma entry_below k e : entryAt rf k = Some e → below P (nodeOf e) (lastNode rf) ∧ nodeOf e = (k, LogTerm e).
Proof using All.
  intros He. destruct (entry_place _ _ _ _ _ _ Hp He) as [Hi _].
  destruct (lastNode_wf rf Hwf) as (el' & _ & -> & Hil & Hel). split; [|unfold nodeOf; congruence].
  pose proof Hel as Hel'. pose proof He as He'. apply entryAt_lo in He as Hlo.
  unfold entryAt in He', Hel'. rewrite (proj2 (Z.leb_le _ _)) in He' by lia.
  assert (k ≤ lastLogIndex rf) as Hk.
  { apply lookup_lt_Some in He'. unfold lastLogIndex, len. lia. }
  rewrite (proj2 (Z.leb_le _ _)) in Hel' by lia.
  eapply (chain_below F P (logs rf) (Z.to_nat (k - lastIncludedIndex rf))
    (Z.to_nat (lastLogIndex rf - k))); [done..|apply Hp|done|].
  rewrite <-Hel'. f_equal. lia.
Qed.

Lemma entry_range k e : entryAt rf k = Some e → lastIncludedIndex rf ≤ k ≤ lastLogIndex rf.
Proof using Hwf.
  clear -Hwf. intros He. apply entryAt_lo in He as Hlo. split; [done|].
  unfold entryAt in He. rewrite (proj2 (Z.leb_le _ _)) in He by lia. apply lookup_lt_Some in He.
  unfold lastLogIndex, len. lia.
Qed.

Lemma below_entry n :
  below P n (lastNode rf) → lastIncludedIndex rf ≤ n.1 → ∃ e, entryAt rf n.1 = Some e ∧ nodeOf e = n.
Proof using All.
  intros Hn Hlo. pose proof (below_index Hok _ _ Hn) as Hhi. rewrite (lastNode_index rf Hwf) in Hhi.
  destruct (entry_in_log rf n.1 Hwf) as (e & He & Hi); [lia|]. exists e. split; [done|].
  destruct (entry_below _ _ He) as [Hb Hnode]. apply (below_same (P:=P)).
  - eapply (below_linear Hok); [done..|]. rewrite Hnode. simpl. lia.
  - by rewrite Hnode.
Qed.

Lemma snapshot_entry : ∃ e, entryAt rf (lastIncludedIndex rf) = Some e
  ∧ nodeOf e = (lastIncludedIndex rf, lastIncludedTerm rf).
Proof using Hp.
  clear -Hp. destruct (po_head _ _ _ _ Hp) as (e & He & Hi & Hte & _). exists e. unfold entryAt, nodeOf.
  rewrite Z.leb_refl, Z.sub_diag, <-head_lookup, Hi, Hte. done.
Qed.

Lemma lastNode_known : known P (lastNode rf).
Proof using Ht Hp Hwf.
  clear Hok. destruct (lastNode_wf rf Hwf) as (e & Hl & -> & _ & He).
  destruct (entry_place _ _ _ _ _ _ Hp He) as [_ Hn]. by eapply node_known.
Qed.
End log.

(** a new entry *)
Lemma treeOf_grow F P p e :
  treeOf F P → follows p e → treeOf (grow F p e) (<[nodeOf e := nodeOf p]> P).
Proof.
  intros Ht [Hi _] k t. unfold grow, nodeOf.
  destruct (decide ((LogIndex e, LogTerm e) = (k, t))) as [[= <- <-]|Hne].
  - rewrite !lookup_insert_eq. simpl. do 2 f_equal. lia.
  - rewrite !lookup_insert_ne by done. apply Ht.
Qed.

Lemma same_forest F s w' :
  (∃ s', rtc Rstep s s' ∧ connected F s' w') →
  ∃ F' s', grows F F' ∧ rtc Rstep s s' ∧ connected F' s' w'.
Proof. intros (s' & ? & ?). exists F, s'. split_and!; [by left|done..]. Qed.

Lemma grows_append F el i rf p e :
  peer_ok F el i rf → last (logs rf) = Some p → follows p e → topOf F (LogTerm e) p →
  grows F (grow F p e).
Proof.
  intros Hp Hl Hfo Htop. right. exists p, e. split_and!; try done.
  - rewrite last_lookup in Hl. by apply (peer_lookup _ _ _ _ _ _ Hp) in Hl as (_ & ? & _).
  - unfold nodeOf. destruct (F !! (LogIndex e, LogTerm e)) as [[a tp]|] eqn:EF; [|done].
    apply Htop in EF. destruct Hfo. lia.
Qed.

(** ** What a step of another peer leaves *)

Section mono.
Context {s s' : Proto} (He : extends s s').

Lemma reached_mono j T b v : reached s j T b v → reached s' j T b v.
Proof using He. intros [?|(m & ? & ?)]; [by left|right]. exists m. split; [by apply He|done]. Qed.

Lemma server_ok_mono vs vs' j rf :
  peerAt s' !! j = peerAt s !! j → (∀ T, vs' !! (j, T) = vs !! (j, T)) →
  server_ok s vs j rf → server_ok s' vs' j rf.
Proof using He.
  intros Hj Hvs [Hwf [Hid Hn] Hat (n & Hc & Hb & Hsafe) Hl Hv]. split; [done| | | | |].
  - split; [done|]. destruct He as (_ & _ & _ & _ & ->). done.
  - by rewrite Hj.
  - exists n. split_and!; [done|by apply (below_extends He)|by apply (safeBy_extends He)].
  - intros Hr. destruct (Hl Hr) as (b & l & ? & ? & ? & ? & Hnx & Hm). exists b, l.
    split_and!; [by apply (won_extends He)|done|by apply He|done| |].
    + intros k v Hk. by apply reached_mono, Hnx.
    + intros k v Hk. destruct (Hm k v Hk) as [?|(m & ? & ?)]; [by left|right]. exists m.
      split; [by apply He|done].
  - intros Hw c. rewrite Hvs. apply Hv. apply eq_None_not_Some. intros [x Hx].
    apply (won_extends He) in Hx. congruence.
Qed.

Lemma request_ok_mono args : request_ok s args → request_ok s' args.
Proof using He. intros (c & ? & ?). exists c. split; [done|]. eapply lookup_weaken; [done|apply He]. Qed.

Lemma sent_ok_mono (m : nat * AppendEntriesArgs Cmd) : sent_ok s m → sent_ok s' m.
Proof using He.
  destruct m as [j args]. intros (i & b & Hw & Hij & (n & ? & ?) & Hm). exists i, b.
  split_and!; [by apply (won_extends He)|done| |].
  - exists n. split; [done|by apply (safeBy_extends He)].
  - destruct (Entries args) as [es|].
    + destruct Hm as (e & ? & ? & ? & ? & ?). exists e.
      split_and!; [done|by apply (onPath_extends He)|by apply (below_extends He)|done|by apply reached_mono].
    + destruct Hm as (m & ? & ?). exists m. split; [by apply He|done].
Qed.

Lemma answer_ok_mono (m : nat * AppendEntriesArgs Cmd * AppendEntriesReply) :
  answer_ok s m → answer_ok s' m.
Proof using He.
  destruct m as [[j args] reply]. unfold answer_ok. destruct (Success reply); [|done].
  intros H es e Hes Hl. by eapply He, H.
Qed.

Lemma snap_ok_mono m : snap_ok s m → snap_ok s' m.
Proof using He.
  destruct m as [[i j] args]. intros (b & ? & ? & ?). exists b.
  split_and!; [by apply (won_extends He)|done|by apply (safeBy_extends He)].
Qed.

Lemma snapAnswer_ok_mono m : snapAnswer_ok s m → snapAnswer_ok s' m.
Proof using He. destruct m as [[j args] reply]. unfold snapAnswer_ok. intros H ?. by apply He, H. Qed.
End mono.

(** one server changes, and messages are added *)
Lemma update_connected F F' s s' w i rf rf' rs se an sn sa vs ld :
  connected F s w → rtc Rstep s s' → servers w !! i = Some rf →
  treeOf F' (tree s') →
  cluster_ok F' (mkCluster (<[i := rf']> (servers w)) se.*2 ((λ m, (m.1.1, m.2)) <$> sn) ld) →
  (∀ j, j ≠ i → peerAt s' !! j = peerAt s !! j ∧ ∀ T, vs !! (j, T) = votes w !! (j, T)) →
  server_ok s' vs i rf' → vs = fst <$> ballot s' → ld = fst <$> won s' →
  (∀ m, m ∈ rs → m ∈ requests w ∨ request_ok s' m) →
  (∀ m, m ∈ se → m ∈ sent w ∨ sent_ok s' m) → (∀ m, m ∈ sent w → m ∈ se) →
  (∀ m, m ∈ an → m ∈ answers w ∨ (m.1 ∈ se ∧ answer_ok s' m)) →
  (∀ m, m ∈ sn → m ∈ snaps w ∨ snap_ok s' m) → (∀ m, m ∈ snaps w → m ∈ sn) →
  (∀ m, m ∈ sa → m ∈ snapAnswers w
     ∨ ((∃ k, (k, m.1.1, m.1.2) ∈ sn) ∧ snapAnswer_ok s' m)) →
  connected F' s' (mkNetwork (<[i := rf']> (servers w)) rs se an sn sa vs ld).
Proof.
  intros [Hok Htr Hcl Hlen Hodd Hsv Hvt Hld Hrq Hse Han Hsn Hsa] Hst Hi Htr' Hcl' Hoth Hsi Hvs Hlds
    Hr1 Hs1 Hs1' Ha1 Hn1 Hn1' Hsa1.
  destruct (Rsteps_ok _ _ Hok Hst) as [Hok' He]. pose proof He as (_ & _ & _ & _ & Hl').
  split; simpl; try done.
  - rewrite length_insert. congruence.
  - unfold len in *. by rewrite length_insert.
  - intros j rfj [(-> & -> & _)|[Hne Hj]]%list_lookup_insert_Some; [done|].
    destruct (Hoth j) as [? ?]; [done|]. eapply (server_ok_mono He); [done..|by apply Hsv].
  - intros m [H|?]%Hr1; [|done]. eapply (request_ok_mono He), Hrq, H.
  - intros m [H|?]%Hs1; [|done]. eapply (sent_ok_mono He), Hse, H.
  - intros m [H|[? ?]]%Ha1; [|done]. destruct (Han m H) as [? ?].
    split; [by apply Hs1'|by apply (answer_ok_mono He)].
  - intros m [H|?]%Hn1; [|done]. by apply (snap_ok_mono He), Hsn.
  - intros m [H|[? ?]]%Hsa1; [|done]. destruct (Hsa m H) as [(k & ?) ?].
    split; [exists k; by apply Hn1'|by apply (snapAnswer_ok_mono He)].
Qed.

(** one server changes *)
Lemma server_connected F F' s s' w i rf rf' :
  connected F s w → rtc Rstep s s' → servers w !! i = Some rf → treeOf F' (tree s') →
  cluster_ok F' (setNode i rf' (toCluster w)) → (∀ j, j ≠ i → peerAt s' !! j = peerAt s !! j) →
  server_ok s' (votes w) i rf' → ballot s' = ballot s → won s' = won s →
  connected F' s' (setRaft i rf' w).
Proof.
  intros Hc Hst Hi Ht Hcl Hoth Hsi Hb Hw. eapply update_connected; try done; try (intros; by left).
  - intros j Hj. split; [by apply Hoth|done].
  - rewrite Hb. apply Hc.
  - rewrite Hw. apply Hc.
Qed.
End logs.

(** ** The identity of a peer *)

Section ident.
Context {Cmd : Type} `{!GobCodec Z} `{!GobCodec (list (LogEntry Cmd))}.
Implicit Types rf : Raft Cmd.

Definition ident rf rf' : Prop := me rf' = me rf ∧ peers rf' = peers rf.

#[export] Instance ident_preorder : PreOrder ident.
Proof. unfold ident. split; [by intros ?|]. intros ??? [] []. split; congruence. Qed.

Lemma ident_becomeFollower t rf : ident rf (becomeFollower t rf).
Proof. destruct (becomeFollower_fields t rf) as (?&?&?&?&?&?&?&?&?&?&?&?&?&_). done. Qed.

Lemma ident_sendHeartBeat rf rf' : sendHeartBeat rf = Ret rf' → ident rf rf'.
Proof. unfold sendHeartBeat. intros H. by go_steps H. Qed.

Lemma ident_recvHeartBeat rf rf' : recvHeartBeat rf = Ret rf' → ident rf rf'.
Proof. unfold recvHeartBeat. intros H. by go_steps H. Qed.

Lemma ident_setNextIndex peer v rf rf' : setNextIndex peer v rf = Ret rf' → ident rf rf'.
Proof. unfold setNextIndex. intros H. by go_steps H. Qed.

Lemma ident_setMatchIndex peer v rf rf' : setMatchIndex peer v rf = Ret rf' → ident rf rf'.
Proof. unfold setMatchIndex. intros H. by go_steps H. Qed.

Lemma ident_applyEntry k rf rf' : applyEntry k rf = Ret rf' → ident rf rf'.
Proof. unfold applyEntry. intros H. go_steps H. by case_match. Qed.

Lemma ident_leaderApply n k rf rf' : leaderApply n k rf = Ret rf' → ident rf rf'.
Proof.
  revert k rf. induction n as [|n IH]; intros k rf H; simpl in H; [by go_steps H|].
  go_step H. apply ident_applyEntry in E. apply IH in H. by etrans.
Qed.

Lemma ident_leaderCommit peer n k rf rf' : leaderCommit peer n k rf = Ret rf' → ident rf rf'.
Proof.
  revert k. induction n as [|n IH]; intros k H; simpl in H; [by go_steps H|].
  go_steps H; try done; [|by eapply IH]. fwd ident_leaderApply.
  match goal with H : ident _ _ |- _ => exact H end.
Qed.

Lemma ident_followerCommit lc n k rf rf' : followerCommit lc n k rf = Ret rf' → ident rf rf'.
Proof.
  revert k rf. induction n as [|n IH]; intros k rf H; simpl in H; [by go_steps H|].
  go_steps H; try done. fwd ident_applyEntry. apply IH in H. etrans; [eassumption|done].
Qed.

Lemma ident_AppendEntries_commit args rf rf' : AppendEntries_commit args rf = Ret rf' → ident rf rf'.
Proof.
  unfold AppendEntries_commit. intros H. go_steps H; [by eapply ident_followerCommit|done].
Qed.

Lemma ident_startHeartBeats rf : ident rf (startHeartBeats rf).
Proof.
  unfold startHeartBeats. generalize (seq 0 (Z.to_nat (peers rf))) as ps.
  intros ps. revert rf. induction ps as [|k ps IH]; simpl; intros rf; [done|].
  etrans; [|apply IH]. by case_match.
Qed.

Lemma ident_replicationSucceeded peer es rf rf' :
  replicationSucceeded peer es rf = Ret rf' → ident rf rf'.
Proof.
  unfold replicationSucceeded. intros H. go_step H. go_step H. go_step H.
  apply ident_setNextIndex in E0. apply ident_setMatchIndex in E1.
  etrans; [done|]. etrans; [done|]. go_steps H; [by eapply ident_leaderCommit|done].
Qed.

Lemma ident_backUp peer reply rf rf' : backUp peer reply rf = Ret rf' → ident rf rf'.
Proof. unfold backUp. intros H. go_steps H; try done; by eapply ident_setNextIndex. Qed.

#[local] Ltac ident := first [done | by apply ident_becomeFollower | by eapply ident_sendHeartBeat
  | by eapply ident_recvHeartBeat | by eapply ident_replicationSucceeded | by eapply ident_backUp
  | by eapply ident_AppendEntries_commit ].

Lemma exec_ident op rf rf' : exec op rf = Ret rf' → ident rf rf'.
Proof.
  destruct op; simpl; intros H; try go_step H; subst; try done.
  - unfold RequestVote_read in *. go_steps E. case_match; ident.
  - unfold RequestVote_grant in *. go_steps E; try ident. fwd ident_sendHeartBeat.
    etrans; [eassumption|done].
  - unfold AppendEntries, AppendEntries_entries in *. cbv zeta in E. go_step E; [by go_steps E|].
    go_step E. assert (ident rf a0) as Ha.
    { etrans; [apply ident_becomeFollower|].
      destruct (role rf); [by eapply ident_sendHeartBeat..|by go_steps E1]. }
    clear E1. etrans; [exact Ha|]. go_steps E; try ident.
    fwd ident_AppendEntries_commit. etrans; [|eassumption]. done.
  - unfold InstallSnapshot in *. go_steps E; try done; case_match; try done; ident.
  - unfold TakeSnapshot in *. go_steps H; done.
  - unfold Start in *. go_steps E; done.
  - unfold StartElection_begin in *. go_steps E; done.
  - destruct d; simpl in *; [by go_steps H| |go_steps H; ident].
    unfold becomeLeader in H. go_steps H. etrans; [|apply ident_startHeartBeats]. done.
  - by eapply ident_recvHeartBeat.
  - destruct ev; simpl in *; go_steps E; try done. fwd ident_recvHeartBeat. etrans; [eassumption|done].
  - unfold doAppendEntriesRPC_reply in *. go_steps E; ident.
  - unfold doInstallSnapshotRPC_reply in *. go_steps E; try ident.
    fwd ident_setNextIndex. fwd ident_setMatchIndex. by etrans.
Qed.
End ident.

(** ** The steps *)

Section steps.
Context {Cmd : Type} `{!GobCodec Z} `{!GobCodec (list (LogEntry Cmd))}.
Implicit Types (rf : Raft Cmd) (w : RaftNet Cmd) (i j : nat) (F : Forest Cmd) (s : Proto).
Implicit Types (e p : LogEntry Cmd).

Lemma at_server F s w i rf :
  connected F s w → servers w !! i = Some rf →
  server_ok s (votes w) i rf ∧ peer_ok F (leaders w) i rf ∧ durable rf.
Proof.
  intros Hc Hi. pose proof (co_nodes _ _ (nc_cluster _ _ _ Hc) i rf Hi) as Hp.
  split_and!; [by apply Hc|exact Hp|apply Hp].
Qed.

(** *** Nothing of the protocol changes *)

Definition steady rf rf' : Prop :=
  pstate rf' = pstate rf ∧ role rf' = role rf ∧ leaderPtr rf' = leaderPtr rf
  ∧ commitIndex rf' = commitIndex rf ∧ ident rf rf'.

#[export] Instance steady_preorder : PreOrder steady.
Proof.
  unfold steady. split; [by intros ?|].
  intros ??? (?&?&?&?&?) (?&?&?&?&?). split_and!; try congruence. by etrans.
Qed.

Lemma steady_ok s vs i rf rf' : steady rf rf' → server_ok s vs i rf → server_ok s vs i rf'.
Proof.
  intros (Hp & Hr & Hl & Hcm & Hme & Hn) [Hwf Hid Hat Hc Hld Hv].
  apply pstate_inv in Hp as (Et & Ev & El & Ei & Eit & _).
  pose proof (lastNode_ext rf rf' El) as En.
  split; rewrite ?Et, ?En, ?Hcm, ?Hr, ?Hl, ?Ev, ?Hme, ?Hn; try done. by eapply raft_wf_ext.
Qed.

Lemma steady_connected F s w i rf rf' op :
  connected F s w → servers w !! i = Some rf → exec op rf = Ret rf' → quiet op = true →
  steady rf rf' → connected F s (setRaft i rf' w).
Proof.
  intros Hc Hi H Hq Hs. destruct (at_server _ _ _ _ _ Hc Hi) as (Hso & Hp & Hd).
  eapply (server_connected F F s s); [done|done|done|apply Hc| |done| |done|done].
  - apply setNode_ok; [apply Hc|]. eapply calm_ok; [by eapply exec_quiet| |done].
    destruct (exec_saves _ _ _ H); [by eapply frame_durable|by left].
  - by eapply steady_ok.
Qed.

Lemma steady_sendHeartBeat rf rf' : sendHeartBeat rf = Ret rf' → steady rf rf'.
Proof. unfold sendHeartBeat. intros H. by go_steps H. Qed.

Lemma steady_recvHeartBeat rf rf' : recvHeartBeat rf = Ret rf' → steady rf rf'.
Proof. unfold recvHeartBeat. intros H. by go_steps H. Qed.

(** *** A peer steps down *)

(** the peer follows in term [t]; its log stays *)
Definition downTo (t : Z) rf rf' : Prop :=
  currentTerm rf' = t ∧ role rf' = FOLLOWER ∧ leaderPtr rf' = None
  ∧ logs rf' = logs rf ∧ lastIncludedIndex rf' = lastIncludedIndex rf
  ∧ lastIncludedTerm rf' = lastIncludedTerm rf ∧ commitIndex rf' = commitIndex rf ∧ ident rf rf'.

Lemma becomeFollower_downTo t rf : downTo t rf (becomeFollower t rf).
Proof.
  destruct (becomeFollower_fields t rf) as (?&?&?&?&?&?&?&?&?&?&?&?&?&_). by split_and!.
Qed.

Lemma downTo_steady t rf rf1 rf' : downTo t rf rf1 → steady rf1 rf' → downTo t rf rf'.
Proof.
  intros (?&?&?&?&?&?&?&?) ((?&?&?&?&?&_)%pstate_inv&?&?&?&?).
  split_and!; try congruence. by etrans.
Qed.

(** a term without a winner in which the peer has not been *)
Lemma no_vote s vs i t t0 n c :
  protocol_ok s → vs = fst <$> ballot s → peerAt s !! i = Some (t0, n) → t0 < t →
  vs !! (i, t) = Some c → False.
Proof.
  intros Hok -> Hi Hlt ([c' vt] & _ & Hb)%lookup_fmap_Some.
  destruct (p_ballot _ Hok _ _ _ _ Hb) as (_ & (t1 & n1 & Hi' & ?) & _).
  rewrite Hi in Hi'. simplify_eq. lia.
Qed.

Lemma downTo_ok s vs i t rf rf' :
  protocol_ok s → vs = fst <$> ballot s → server_ok s vs i rf → downTo t rf rf' →
  currentTerm rf < t ∨ (currentTerm rf = t ∧ is_Some (won s !! t)) →
  Rstep s (setPeer i t (lastNode rf) s) ∧ server_ok (setPeer i t (lastNode rf) s) vs i rf'.
Proof.
  intros Hok Hvs [Hwf Hid Hat (n & Hn & Hb & Hsafe) _ _] (Et & Er & El & Elg & Ei & Eit & Ec & Eme & Epe) Ht.
  assert (Rstep s (setPeer i t (lastNode rf) s)) as Hst by (eapply r_raise; [done|lia]).
  split; [done|]. pose proof (Rstep_extends _ _ Hok Hst) as He.
  split; rewrite ?Et, ?Ec, ?(lastNode_ext rf rf' Elg), ?Er; try done.
  - destruct Hwf as [H1 H2 H3 H4 H5 H6]. split; rewrite ?Elg, ?Ei, ?Eit, ?Ec, ?Epe, ?Er; done.
  - simpl. rewrite length_insert. rewrite Eme, Epe. done.
  - simpl. by rewrite list_lookup_insert_eq by by eapply lookup_lt_Some.
  - exists n. split_and!; [done..|]. eapply safeBy_mono; [by apply (safeBy_extends He)|lia].
  - simpl. intros Hw c Hc. destruct Ht as [Ht|[_ [x Hx]]]; [|congruence].
    exfalso. by eapply no_vote.
Qed.

(** *** A leader appends *)

(** the quorums of the program *)
Lemma majority_quorum rf (l : list nat) (Q : nat → Prop) (N : nat) :
  peers rf = Z.of_nat N → Z.odd (Z.of_nat N) = true → NoDup l → majority rf ≤ len l →
  (∀ j, j ∈ l → (j < N)%nat ∧ Q j) → quorum N Q.
Proof.
  intros HN Hodd Hnd Hm HQ. exists l. split_and!; [done| |done].
  unfold majority, len in Hm. rewrite HN in Hm. apply Zodd_bool_iff, Zodd_ex in Hodd as [m Hm'].
  rewrite Hm' in Hm. replace (2 * m + 1 + 1) with ((m + 1) * 2) in Hm by lia.
  rewrite Z.quot_mul in Hm by lia. lia.
Qed.

Lemma startHeartBeats_steady rf : steady rf (startHeartBeats rf).
Proof.
  unfold startHeartBeats. generalize (seq 0 (Z.to_nat (peers rf))) as ps.
  intros ps. revert rf. induction ps as [|k ps IH]; simpl; intros rf; [done|].
  etrans; [|apply IH]. by case_match.
Qed.

(** the last entry of a log to which an entry was appended *)
Lemma lastNode_snoc rf rf' e : logs rf' = logs rf ++ [e] → lastNode rf' = nodeOf e.
Proof. unfold lastNode. intros ->. by rewrite last_snoc. Qed.

Lemma lastNode_last rf p : last (logs rf) = Some p → lastNode rf = nodeOf p.
Proof. unfold lastNode. by intros ->. Qed.

(** the record of the protocol after a leader's append *)
Lemma append_server s s' vs i rf rf' e b l :
  extends s s' → server_ok s vs i rf → raft_wf rf' → ident rf rf' →
  currentTerm rf' = currentTerm rf → LogTerm e = currentTerm rf → lastNode rf' = nodeOf e →
  commitIndex rf' = commitIndex rf → tree_ok (tree s') → tree s' !! nodeOf e = Some (lastNode rf) →
  peerAt s' !! i = Some (currentTerm rf, nodeOf e) → won s' !! currentTerm rf = Some (i, b) →
  (i, currentTerm rf, nodeOf e) ∈ acked s' → leaderPtr rf' = Some l →
  (∀ j v, nextIndexs l !! j = Some v → reached s' j (currentTerm rf) b (v - 1)) →
  (∀ j v, matchIndexs l !! j = Some v → v ≤ 0 ∨ ∃ m, (j, currentTerm rf, m) ∈ acked s' ∧ v ≤ m.1) →
  server_ok s' vs i rf'.
Proof.
  intros He [Hwf [Hid Hn] Hat (n & Hc & Hb & Hsafe) _ _] Hwf' [Em Ep] Et Hte En Ec Htr Hnew Hat' Hw Hack Hl Hnx Hmt.
  split; rewrite ?Et, ?En, ?Ec; try done.
  - rewrite Em, Ep. split; [done|]. destruct He as (_ & _ & _ & _ & ->). done.
  - exists n. split_and!; [done| |by apply (safeBy_extends He)].
    eapply (below_trans Htr); [by apply (below_extends He)|]. by apply (below_parent Htr).
  - intros _. exists b, l. by split_and!.
  - congruence.
Qed.

Lemma Start_fields cmd rf r :
  Start cmd rf = Ret r → leaderPtr r.1 = leaderPtr rf ∧ commitIndex r.1 = commitIndex rf.
Proof. unfold Start. intros H. by go_steps H. Qed.

Lemma Start_connected F s w i cmd rf rf' :
  connected F s w → servers w !! i = Some rf → exec (OpStart cmd) rf = Ret rf' →
  ∃ F' s', grows F F' ∧ rtc Rstep s s' ∧ connected F' s' (setRaft i rf' w).
Proof.
  intros Hc Hi H. destruct (at_server _ _ _ _ _ Hc Hi) as (Hso & Hp & Hd).
  pose proof (proj2 (wp_elim _ _ (wp_exec (OpStart cmd) rf (so_wf _ _ _ _ Hso) I I)) _ H) as Hwf'.
  pose proof (exec_ident _ _ _ H) as Hid. simpl in H. go_step H. destruct a as [rf1 [[ci t] ld]].
  simpl in H. subst rf1. destruct (Start_append _ _ _ _ _ _ E) as
    [[-> _]|(Hr & _ & p & e & Hl & Hfo & Hte & _ & _ & _ & Hps & Hd')].
  { apply same_forest. exists s. split; [done|]. by eapply server_connected; try done; apply Hc || apply setNode_ok; [apply Hc|]. }
  destruct (so_leader _ _ _ _ Hso Hr) as (b & l & Hw & Hnt & Hack & Hlp & Hnx & Hmt).
  destruct (po_leader _ _ _ _ Hp Hr) as [Hel Htop].
  pose proof (lastNode_last _ _ Hl) as Hnp. pose proof Hfo as [Hix _].
  assert (nodeOf e = ((lastNode rf).1 + 1, currentTerm rf)) as Hne
    by (rewrite Hnp; unfold nodeOf; simpl; congruence).
  set (s1 := setPeer i (currentTerm rf) (nodeOf e) (addNode (nodeOf e) (lastNode rf) s)).
  assert (Rstep s s1) as Hst1.
  { unfold s1. rewrite Hne. eapply r_append; [done|apply Hso|done|].
    rewrite <-Hne. unfold nodeOf. rewrite (nc_tree _ _ _ Hc), Hte.
    destruct (F !! (LogIndex e, currentTerm rf)) as [[a tp]|] eqn:EF; [|done].
    apply (Htop p Hl) in EF. lia. }
  pose proof (nc_proto _ _ _ Hc) as Hok. pose proof (Rstep_ok _ _ Hok Hst1) as Hok1.
  pose proof (Rstep_extends _ _ Hok Hst1) as He1.
  assert (peerAt s1 !! i = Some (currentTerm rf, nodeOf e)) as Hat1.
  { simpl. apply list_lookup_insert_eq. eapply lookup_lt_Some, Hso. }
  assert (onPath s1 (currentTerm rf) (nodeOf e)) as Hon.
  { exists i, b. split; [done|]. right. simpl. rewrite lookup_insert_eq. by split. }
  pose proof (r_ack s1 i _ _ _ Hat1 Hon (below_refl _)) as Hst2.
  set (s2 := mkProto _ _ _ _ _ _) in Hst2.
  pose proof (Rstep_ok _ _ Hok1 Hst2) as Hok2. pose proof (Rstep_extends _ _ Hok1 Hst2) as He2.
  assert (extends s s2) as He by by etrans.
  exists (grow F p e), s2.
  split; [eapply grows_append; [done..|]; rewrite Hte; by apply Htop|]. split; [eapply rtc_l; [done|]; by apply rtc_once|].
  apply pstate_inv in Hps as Hps'. destruct Hps' as (Et & _ & El & _). simpl in El, Et.
  destruct (append_cluster F (toCluster w) i rf rf' (leaders w) p e) as [_ Hcl]; try done;
    [apply Hc|by apply Htop|].
  eapply (server_connected F (grow F p e) s s2); try done.
  - eapply rtc_l; [done|]. by apply rtc_once.
  - simpl. rewrite Hnp. apply treeOf_grow; [apply Hc|done].
  - intros j Hj. simpl. by rewrite list_lookup_insert_ne by done.
  - destruct (Start_fields _ _ _ E) as [Elp Ecm].
    eapply (append_server s s2 _ i rf _ e b l); try done.
    + by apply (lastNode_snoc rf).
    + apply Hok2.
    + simpl. apply lookup_insert_eq.
    + simpl. left.
    + by rewrite <-Hlp.
    + intros j v Hv. by apply (reached_mono He), Hnx.
    + intros j v Hv. destruct (Hmt j v Hv) as [?|(m & ? & ?)]; [by left|right].
      exists m. split; [by apply He|done].
Qed.

(** *** A peer wins *)

Lemma becomeLeader_fields rf rf' :
  becomeLeader rf = Ret rf' → ∃ p, last (logs rf) = Some p ∧ commitIndex rf' = commitIndex rf
    ∧ leaderPtr rf' = Some (mkLeader (replicate (Z.to_nat (peers rf)) (LogIndex p + 1))
                                     (replicate (Z.to_nat (peers rf)) 0)).
Proof.
  unfold becomeLeader. intros H. go_steps H. apply last_idx in E. exists a. split; [done|].
  match goal with |- context [startHeartBeats ?r] => destruct (startHeartBeats_steady r) as (_ & _ & -> & -> & _) end.
  done.
Qed.

(** a vote is given to one candidate *)
Lemma votes_ballot F s w v T c :
  connected F s w → votes w !! (v, T) = Some c →
  (v < length (peerAt s))%nat ∧ ∃ vt, ballot s !! (v, T) = Some (c, vt).
Proof.
  intros Hc Hv. rewrite (nc_votes _ _ _ Hc) in Hv.
  apply lookup_fmap_Some in Hv as ([c' vt] & <- & Hb). split; [|by exists vt].
  destruct (p_ballot _ (nc_proto _ _ _ Hc) _ _ _ _ Hb) as (_ & (t & n & Hi & _) & _).
  by eapply lookup_lt_Some.
Qed.

Lemma win_unwon F s w i T :
  connected F s w → leaders w !! T ≠ Some i →
  quorum (length (peerAt s)) (λ v, ∃ vt, ballot s !! (v, T) = Some (i, vt)) → won s !! T = None.
Proof.
  intros Hc Hld Hq. destruct (won s !! T) as [[i' b]|] eqn:Hw; [|done]. exfalso.
  destruct (p_won _ (nc_proto _ _ _ Hc) _ _ _ Hw) as (_ & _ & _ & Hq').
  destruct (quorum_meet _ _ _ Hq Hq') as (v & (vt & Hv) & (vt' & Hv')). rewrite Hv in Hv'.
  simplify_eq. apply Hld. by rewrite (nc_leaders _ _ _ Hc), lookup_fmap, Hw.
Qed.

Lemma winners_quorum F s w i rf voters :
  connected F s w → servers w !! i = Some rf → NoDup voters → majority rf ≤ len voters →
  (∀ v, v ∈ voters → votes w !! (v, currentTerm rf) = Some i) →
  quorum (length (peerAt s)) (λ v, ∃ vt, ballot s !! (v, currentTerm rf) = Some (i, vt)).
Proof.
  intros Hc Hi Hnd Hmaj Hvot. destruct (at_server _ _ _ _ _ Hc Hi) as (Hso & _).
  eapply (majority_quorum rf voters); [apply Hso| |done..|].
  - rewrite (nc_length _ _ _ Hc). apply Hc.
  - intros v Hv. eapply votes_ballot; [done|]. by apply Hvot.
Qed.

Lemma win_connected F s w i rf rf' voters :
  connected F s w → servers w !! i = Some rf → leaders w !! currentTerm rf ≠ Some i →
  NoDup voters → majority rf ≤ len voters →
  (∀ v, v ∈ voters → votes w !! (v, currentTerm rf) = Some i) →
  exec (OpElectionDecide Win) rf = Ret rf' →
  ∃ F' s', grows F F' ∧ rtc Rstep s s' ∧ connected F' s'
    (mkNetwork (<[i := rf']> (servers w)) (requests w) (sent w) (answers w)
      (snaps w) (snapAnswers w) (votes w) (<[currentTerm rf := i]> (leaders w))).
Proof.
  intros Hc Hi Hld Hnd Hmaj Hvot H. destruct (at_server _ _ _ _ _ Hc Hi) as (Hso & Hp & Hd).
  pose proof (proj2 (wp_elim _ _ (wp_exec (OpElectionDecide Win) rf (so_wf _ _ _ _ Hso) I I)) _ H) as Hwf'.
  pose proof (exec_ident _ _ _ H) as Hid. simpl in H.
  destruct (becomeLeader_append _ _ H) as (p & e & Hl & Hfo & Hte & Hps & Hd').
  destruct (becomeLeader_fields _ _ H) as (p' & Hl' & Hcm & Hlp). assert (p' = p) as -> by congruence.
  pose proof (nc_proto _ _ _ Hc) as Hok.
  pose proof (winners_quorum _ _ _ _ _ _ Hc Hi Hnd Hmaj Hvot) as Hq.
  pose proof (win_unwon _ _ _ _ _ Hc Hld Hq) as Hunw.
  pose proof (lastNode_last _ _ Hl) as Hnp. pose proof Hfo as [Hix _].
  assert (nodeOf e = ((lastNode rf).1 + 1, currentTerm rf)) as Hne
    by (rewrite Hnp; unfold nodeOf; simpl; congruence).
  set (s1 := setPeer i (currentTerm rf) (nodeOf e) (addNode (nodeOf e) (lastNode rf)
               (addWin (currentTerm rf) i (lastNode rf) s))).
  assert (Rstep s s1) as Hst1 by (unfold s1; rewrite Hne; apply r_win; [apply Hso|done|done]).
  pose proof (Rstep_ok _ _ Hok Hst1) as Hok1. pose proof (Rstep_extends _ _ Hok Hst1) as He1.
  assert (peerAt s1 !! i = Some (currentTerm rf, nodeOf e)) as Hat1.
  { simpl. apply list_lookup_insert_eq. eapply lookup_lt_Some, Hso. }
  assert (won s1 !! currentTerm rf = Some (i, lastNode rf)) as Hw1 by (simpl; apply lookup_insert_eq).
  assert (onPath s1 (currentTerm rf) (nodeOf e)) as Hon.
  { exists i, (lastNode rf). split; [done|]. right. simpl. rewrite lookup_insert_eq. by split. }
  pose proof (r_ack s1 i _ _ _ Hat1 Hon (below_refl _)) as Hst2.
  set (s2 := mkProto _ _ _ _ _ _) in Hst2.
  pose proof (Rstep_ok _ _ Hok1 Hst2) as Hok2. pose proof (Rstep_extends _ _ Hok1 Hst2) as He2.
  assert (extends s s2) as He by by etrans.
  assert (rtc Rstep s s2) as Hsts by (eapply rtc_l; [done|]; by apply rtc_once).
  assert (leaders w !! currentTerm rf = None) as Hlnone
    by by rewrite (nc_leaders _ _ _ Hc), lookup_fmap, Hunw.
  assert (topOf F (currentTerm rf) p) as Htop.
  { intros j a tp Ha. apply (fo_key _ _ (co_forest _ _ (nc_cluster _ _ _ Hc))) in Ha as (_ & _ & _ & _ & [x ?]).
    simpl in *. congruence. }
  exists (grow F p e), s2. split; [by eapply grows_append; [done..|]; rewrite Hte|]. split; [done|].
  apply pstate_inv in Hps as Hps'. destruct Hps' as (Et & _ & El & _). simpl in El, Et.
  destruct (append_cluster F (toCluster w) i rf rf' (<[currentTerm rf := i]> (leaders w)) p e)
    as [_ Hcl]; try done.
  { apply Hc. }
  { by apply insert_subseteq. }
  { apply lookup_insert_eq. }
  eapply (update_connected F (grow F p e) s s2); try done; try (intros; by left).
  - simpl. rewrite Hnp. apply treeOf_grow; [apply Hc|done].
  - intros j Hj. simpl. by rewrite list_lookup_insert_ne by done.
  - eapply (append_server s s2 _ i rf _ e (lastNode rf)); try done.
    + by apply (lastNode_snoc rf).
    + apply Hok2.
    + simpl. apply lookup_insert_eq.
    + simpl. left.
    + simpl. intros j v [-> _]%lookup_replicate. left. rewrite Hnp. simpl. lia.
    + simpl. intros j v [-> _]%lookup_replicate. left. done.
  - apply Hc.
  - simpl. rewrite fmap_insert. simpl. f_equal. apply Hc.
Qed.

(** *** What a peer does on its own *)

Lemma down_connected F s w i t rf rf' :
  connected F s w → servers w !! i = Some rf → downTo t rf rf' → peer_ok F (leaders w) i rf' →
  currentTerm rf < t ∨ (currentTerm rf = t ∧ is_Some (won s !! t)) →
  ∃ s', rtc Rstep s s' ∧ connected F s' (setRaft i rf' w).
Proof.
  intros Hc Hi Hdn Hp Ht. destruct (at_server _ _ _ _ _ Hc Hi) as (Hso & _ & _).
  destruct (downTo_ok s (votes w) i t rf rf') as [Hst Hso']; try done; try apply Hc.
  eexists. split; [by apply rtc_once|].
  eapply server_connected; try done; [by apply rtc_once|apply Hc|..].
  - apply setNode_ok; [apply Hc|done].
  - intros j Hj. simpl. by rewrite list_lookup_insert_ne by done.
Qed.

Lemma quiet_peer F s w i rf rf' op :
  connected F s w → servers w !! i = Some rf → exec op rf = Ret rf' → quiet op = true →
  peer_ok F (leaders w) i rf'.
Proof.
  intros Hc Hi H Hq. destruct (at_server _ _ _ _ _ Hc Hi) as (_ & Hp & Hd).
  eapply calm_ok; [by eapply exec_quiet| |done].
  destruct (exec_saves _ _ _ H); [by eapply frame_durable|by left].
Qed.

Lemma commit_in_log s vs i rf : tree_ok (tree s) → server_ok s vs i rf → commitIndex rf ≤ lastLogIndex rf.
Proof.
  intros Ht Hso. destruct (so_commit _ _ _ _ Hso) as (n & <- & Hb & _).
  apply (below_index Ht) in Hb. by rewrite (lastNode_index _ (so_wf _ _ _ _ Hso)) in Hb.
Qed.

(** a log whose first entries are dropped, up to one that becomes the sentinel, ends as before *)
Lemma lastNode_compact rf rf' k e e' :
  logs rf !! k = Some e → nodeOf e' = nodeOf e →
  logs rf' = <[0%nat := e']> (drop k (logs rf)) → lastNode rf' = lastNode rf.
Proof.
  intros He [= Hi Ht] Hl.
  assert (last (logs rf) = last (e :: drop (S k) (logs rf))) as Hlast.
  { rewrite <-(drop_head _ _ _ He), !last_lookup, lookup_drop, length_drop.
    apply lookup_lt_Some in He. f_equal. lia. }
  unfold lastNode. rewrite Hl, Hlast, (drop_head _ _ _ He). simpl.
  destruct (drop (S k) (logs rf)) as [|x l]; [simpl; congruence|]. by rewrite !last_cons_cons.
Qed.

Lemma TakeSnapshot_fields snap li rf rf' :
  TakeSnapshot snap li rf = Ret rf' →
  lastNode rf' = lastNode rf ∧ currentTerm rf' = currentTerm rf ∧ role rf' = role rf
  ∧ leaderPtr rf' = leaderPtr rf ∧ votedFor rf' = votedFor rf ∧ commitIndex rf' = commitIndex rf.
Proof.
  unfold TakeSnapshot. intros H. cbv zeta in H. go_step H; [by go_steps H|].
  go_step H. go_step H. go_step H. go_step H. injection H as <-. simpl in *. split; [|done].
  apply idx_Ret in E0 as [_ Hk]. apply slice_from_inv in E1 as [_ ->].
  apply idx_Ret in E2 as [_ H0]. apply upd_inv in E3 as [_ ->].
  change (Z.to_nat 0) with 0%nat in *. rewrite (drop_head _ _ _ Hk) in H0. injection H0 as ->.
  eapply lastNode_compact; [exact Hk| |reflexivity]. done.
Qed.

Lemma alone_connected F s w i op rf rf' :
  connected F s w → servers w !! i = Some rf → alone op rf → exec op rf = Ret rf' →
  ∃ F' s', grows F F' ∧ rtc Rstep s s' ∧ connected F' s' (setRaft i rf' w).
Proof.
  intros Hc Hi Ha H. destruct (at_server _ _ _ _ _ Hc Hi) as (Hso & Hp & Hd).
  assert (quiet op = true → steady rf rf' →
    ∃ F' s', grows F F' ∧ rtc Rstep s s' ∧ connected F' s' (setRaft i rf' w)) as Hst.
  { intros Hq Hs. apply same_forest. exists s. split; [done|]. by eapply steady_connected. }
  destruct op as [| | | |snap li|cmd| | |d| |ev| | | |]; try done.
  - simpl in Ha. assert (op_pre (OpTakeSnapshot snap li) rf) as Hpre.
    { split; [done|]. pose proof (commit_in_log _ _ _ _ (p_tree _ (nc_proto _ _ _ Hc)) Hso). lia. }
    pose proof (proj2 (wp_elim _ _ (wp_exec _ rf (so_wf _ _ _ _ Hso) Hpre I)) _ H) as Hwf'.
    pose proof (exec_ident _ _ _ H) as [Hme Hn]. simpl in H.
    destruct (TakeSnapshot_fields _ _ _ _ H) as (El & Et & Er & Elp & Ev & Ec).
    apply same_forest. exists s. split; [done|].
    eapply server_connected; try done; [apply Hc|apply setNode_ok; [apply Hc|by eapply TakeSnapshot_ok]|].
    destruct Hso. split; rewrite ?El, ?Et, ?Er, ?Elp, ?Ev, ?Ec, ?Hme, ?Hn; done.
  - by eapply Start_connected.
  - apply Hst; [done|]. simpl in H. injection H as <-. done.
  - destruct d as [g| |t]; try done; simpl in H; injection H as <-; [by apply Hst|].
    apply same_forest. eapply down_connected; try done; [apply becomeFollower_downTo| |left; simpl in Ha; lia].
    by eapply (quiet_peer F s w i rf _ (OpElectionDecide (StepDown t))).
  - apply Hst; [done|]. by apply steady_recvHeartBeat.
  - apply Hst; [done|]. simpl in H. go_step H. subst.
    destruct ev; simpl in *; go_steps E; try done. fwd steady_recvHeartBeat. etrans; [eassumption|done].
  - apply Hst; [done|]. simpl in H. go_step H. by subst.
  - apply Hst; [done|]. simpl in H. go_step H. by subst.
Qed.

(** *** Elections *)

Lemma unwon F s w T : connected F s w → leaders w !! T = None ↔ won s !! T = None.
Proof. intros Hc. rewrite (nc_leaders _ _ _ Hc), lookup_fmap. by destruct (won s !! T). Qed.

(** the votes that count, in the protocol *)
Lemma freeVote_won F s w i T c :
  connected F s w → freeVote i T c w = true →
  (∀ l b, won s !! T = Some (l, b) → l ≠ c)
  ∧ (is_Some (won s !! T) → ∀ c', votes w !! (i, T) = Some c' → c' = c).
Proof.
  intros Hc. unfold freeVote. rewrite (nc_leaders _ _ _ Hc), lookup_fmap.
  destruct (won s !! T) as [[l b]|]; simpl; [|by intros _; split; [|intros [? ?]]].
  intros [Hl Hv]%andb_true_iff. apply bool_decide_eq_true in Hl, Hv.
  split; [by intros ? ? [= <- <-]|]. intros _ c' Hc'. destruct Hv as [Hv|Hv]; congruence.
Qed.

(** a vote of a peer that has not voted in its term, or for the same candidate again *)
Lemma vote_step s i T n c ct :
  protocol_ok s → peerAt s !! i = Some (T, n) → (∀ l b, won s !! T = Some (l, b) → l ≠ c) →
  stood s !! (T, c) = Some ct → upTo n ct → (∀ c' vt, ballot s !! (i, T) = Some (c', vt) → c' = c) →
  ∃ s', rtc Rstep s s' ∧ fst <$> ballot s' = <[(i, T) := c]> (fst <$> ballot s)
    ∧ peerAt s' = peerAt s ∧ won s' = won s ∧ tree s' = tree s ∧ acked s' = acked s ∧ stood s' = stood s.
Proof.
  intros Hok Hi Hw Hst Hup Hc. destruct (ballot s !! (i, T)) as [[c' vt]|] eqn:Hb.
  - rewrite (Hc _ _ eq_refl) in Hb. exists s. split_and!; try done.
    symmetry. apply insert_id. by rewrite lookup_fmap, Hb.
  - eexists. split; [by apply rtc_once; eapply r_vote|]. simpl. split_and!; try done.
    by rewrite fmap_insert.
Qed.

(** the fields of the protocol a server is connected through *)
Lemma server_ok_ext s s' vs vs' i rf :
  tree s' = tree s → won s' = won s → acked s' = acked s → peerAt s' = peerAt s →
  vs' = vs → server_ok s vs i rf → server_ok s' vs' i rf.
Proof.
  intros Et Ew Ea Ep -> [H1 H2 H3 H4 H5 H6]. unfold safeBy, chosen, reached in *.
  split; unfold safeBy, chosen, reached; rewrite ?Et, ?Ew, ?Ea, ?Ep; done.
Qed.

Lemma stand_connected F s w i rf rf' args :
  connected F s w → servers w !! i = Some rf → StartElection_begin rf = Ret (Some (rf', args)) →
  ∃ F' s', grows F F' ∧ rtc Rstep s s' ∧ connected F' s'
    (mkNetwork (<[i := rf']> (servers w)) (args :: requests w) (sent w) (answers w)
      (snaps w) (snapAnswers w)
      (vote i (currentTerm rf')
         (if freeVote i (currentTerm rf') i w then Some i else None) w)
      (leaders w)).
Proof.
  intros Hc Hi H. destruct (at_server _ _ _ _ _ Hc Hi) as (Hso & Hp & Hd).
  pose proof (nc_proto _ _ _ Hc) as Hok.
  assert (exec OpElectionBegin rf = Ret rf') as Hex by (simpl; by rewrite H).
  pose proof (proj2 (wp_elim _ _ (wp_exec OpElectionBegin rf (so_wf _ _ _ _ Hso) I I)) _ Hex) as Hwf'.
  pose proof (exec_ident _ _ _ Hex) as [Hme Hn].
  pose proof (quiet_peer _ _ _ _ _ _ _ Hc Hi Hex eq_refl) as Hp'.
  unfold StartElection_begin in H. cbv zeta in H. go_step H; [done|]. go_step H.
  injection H as <- <-. apply last_idx in E. simpl in E. simpl in Hme, Hn.
  set (rf' := persist _) in *. set (T := currentTerm rf + 1).
  pose proof (lastNode_last rf a E) as Hna. pose proof (so_at _ _ _ _ Hso) as Hat.
  set (s1 := mkProto (tree s) (<[i := (T, lastNode rf)]> (peerAt s)) (won s)
               (<[(T, i) := lastNode rf]> (stood s)) (ballot s) (acked s)).
  assert (Rstep s s1) as Hst1 by (eapply r_stand; [done|unfold T; lia]).
  pose proof (Rstep_ok _ _ Hok Hst1) as Hok1. pose proof (Rstep_extends _ _ Hok Hst1) as He1.
  assert (peerAt s1 !! i = Some (T, lastNode rf)) as Hat1
    by (simpl; apply list_lookup_insert_eq; by eapply lookup_lt_Some).
  assert (∃ s2, rtc Rstep s1 s2 ∧ vote i T (if freeVote i T i w then Some i else None) w
      = fst <$> ballot s2 ∧ peerAt s2 = peerAt s1 ∧ won s2 = won s1 ∧ tree s2 = tree s1
      ∧ acked s2 = acked s1 ∧ stood s2 = stood s1) as (s2 & Hst2 & Hvs & Ep & Ew & Et & Ea & Es).
  { destruct (freeVote i T i w) eqn:Hun.
    - destruct (vote_step s1 i T (lastNode rf) i (lastNode rf)) as (s2 & Hst2 & Hb & Hrest); try done.
      { simpl. by apply (freeVote_won F s w i). }
      { simpl. apply lookup_insert_eq. }
      { right. lia. }
      { simpl. intros c' vt Hb. exfalso. eapply (no_vote s (votes w) i T); [done|apply Hc|done|unfold T; lia|].
        by rewrite (nc_votes _ _ _ Hc), lookup_fmap, Hb. }
      exists s2. split; [done|]. split; [|exact Hrest]. rewrite Hb. simpl. by rewrite (nc_votes _ _ _ Hc).
    - exists s1. split_and!; try done. apply Hc. }
  apply same_forest. exists s2. assert (rtc Rstep s s2) as Hsts by by eapply rtc_l.
  split; [done|]. change (currentTerm rf') with T.
  assert (server_ok s1 (vote i T (if freeVote i T i w then Some i else None) w) i rf') as Hso1.
  { destruct Hso as [Hwf [Hid Hlen] _ (k & Hcm & Hb & Hsafe) _ _].
    split; try done.
    - simpl. rewrite length_insert. done.
    - exists k. split_and!; [done..|]. eapply safeBy_mono; [by apply (safeBy_extends He1)|]. simpl. lia.
    - change (currentTerm rf') with T. simpl. intros Hw c. unfold freeVote.
      rewrite (proj2 (unwon _ _ _ _ Hc) Hw). simpl. rewrite lookup_insert_eq. intros [= <-]. done. }
  eapply (update_connected F F s s2); try done; try (intros; by left).
  - rewrite Et. apply Hc.
  - pose proof (setNode_ok F (toCluster w) i rf' (nc_cluster _ _ _ Hc) Hp') as Hcl. exact Hcl.
  - intros j Hj. rewrite Ep. simpl. rewrite list_lookup_insert_ne by done. split; [done|].
    intros T'. unfold vote. case_match; [|done]. simplify_option_eq. rewrite lookup_insert_ne; [done|congruence].
  - by apply (server_ok_ext s1 s2 _ _ i rf' Et Ew Ea Ep eq_refl).
  - rewrite Ew. apply Hc.
  - intros m [->|?]%elem_of_cons; [right|by left]. exists i. simpl. split; [apply Hso|].
    rewrite Es. simpl. change (currentTerm rf + 1) with T. rewrite Hna. apply lookup_insert_eq.
Qed.

Lemma voteRead_connected F s w i rf args rf' v :
  connected F s w → servers w !! i = Some rf → RequestVote_read args rf = Ret (rf', v) →
  ∃ F' s', grows F F' ∧ rtc Rstep s s' ∧ connected F' s' (setRaft i rf' w).
Proof.
  intros Hc Hi H. apply same_forest. assert (exec (OpRequestVote_read args) rf = Ret rf') as Hex by (simpl; by rewrite H).
  unfold RequestVote_read in H. cbv zeta in H. go_step H. injection H as Hrf _.
  destruct (Z.ltb_spec (currentTerm rf) (CandicateTerm args)) as [Hlt|Hge]; subst rf'.
  - eapply down_connected; [done..|apply becomeFollower_downTo| |by left]. by eapply quiet_peer.
  - exists s. split; [done|]. by eapply steady_connected.
Qed.

(** what [RequestVote_grant] does *)
Lemma RequestVote_grant_inv args v rf rf' reply :
  RequestVote_grant args v rf = Ret (rf', reply) →
  (VoteGranted reply = false ∧ rf' = rf)
  ∨ (VoteGranted reply = true ∧ logBehind args v = false
     ∧ (votedFor rf = -1 ∨ votedFor rf = CandicateId args) ∧ votedFor rf' = CandicateId args
     ∧ currentTerm rf' = currentTerm rf ∧ role rf' = role rf ∧ leaderPtr rf' = leaderPtr rf
     ∧ commitIndex rf' = commitIndex rf ∧ logs rf' = logs rf
     ∧ lastIncludedIndex rf' = lastIncludedIndex rf ∧ lastIncludedTerm rf' = lastIncludedTerm rf).
Proof.
  unfold RequestVote_grant. intros H. cbv zeta in H. repeat go_step H; try (left; by simplify_eq).
  right. simplify_eq. simpl.
  match goal with H : sendHeartBeat _ = _ |- _ => apply sendHeartBeat_inv in H as -> end.
  split_and!; try done. lia.
Qed.

Lemma logBehind_upTo args v n :
  logBehind args v = false → (vv_lastLogIdx v, vv_lastLogTerm v) = n →
  upTo n (LastLogIndex args, LastLogTerm args).
Proof. intros H <-. unfold logBehind in H. unfold upTo. simpl. lia. Qed.

Lemma voteGrant_connected F s w i rf args v rf' reply :
  connected F s w → servers w !! i = Some rf → args ∈ requests w →
  RequestVote_grant args v rf = Ret (rf', reply) →
  ∃ F' s', grows F F' ∧ rtc Rstep s s' ∧ connected F' s'
    (mkNetwork (<[i := rf']> (servers w)) (requests w) (sent w) (answers w)
      (snaps w) (snapAnswers w)
      (vote i (currentTerm rf)
         (if counted i args v (VoteGranted reply) rf w then Some (Z.to_nat (CandicateId args))
          else None) w)
      (leaders w)).
Proof.
  intros Hc Hi Hreq H. destruct (at_server _ _ _ _ _ Hc Hi) as (Hso & Hp & Hd).
  assert (exec (OpRequestVote_grant args v) rf = Ret rf') as Hex by (simpl; by rewrite H).
  pose proof (exec_ident _ _ _ Hex) as [Hme Hn].
  pose proof (quiet_peer _ _ _ _ _ _ _ Hc Hi Hex eq_refl) as Hp'.
  destruct (nc_requests _ _ _ Hc _ Hreq) as (c & Hcid & Hstood).
  pose proof (nc_proto _ _ _ Hc) as Hok.
  destruct (RequestVote_grant_inv _ _ _ _ _ H) as
    [[-> ->]|(Hgr & Hlb & Hfree & Hv' & Et & Er & Elp & Ecm & El & Ei & Eit)].
  { apply same_forest. exists s. split; [done|]. unfold counted. simpl.
    eapply update_connected; try done; try (intros; by left); try apply Hc.
    exact (setNode_ok F (toCluster w) i rf (nc_cluster _ _ _ Hc) Hp'). }
  assert (won s !! currentTerm rf = None → ∀ c', votes w !! (i, currentTerm rf) = Some c' → c' = c) as Hsame.
  { intros Hw c' Hvt. pose proof (so_vote _ _ _ _ Hso Hw c' Hvt). lia. }
  set (vs := vote i (currentTerm rf) _ w).
  assert (∃ s', rtc Rstep s s' ∧ vs = fst <$> ballot s' ∧ peerAt s' = peerAt s ∧ won s' = won s
      ∧ tree s' = tree s ∧ acked s' = acked s ∧ stood s' = stood s)
    as (s' & Hst & Hvs & Ep & Ew & Etr & Ea & Es).
  { unfold vs. destruct (counted i args v (VoteGranted reply) rf w) eqn:Hcnt; [|exists s; split_and!; try done; apply Hc].
    unfold counted in Hcnt. rewrite Hgr in Hcnt. simpl in Hcnt.
    apply andb_true_iff in Hcnt as [Hcnt Hun]. apply andb_true_iff in Hcnt as [Hcnt Hnode%bool_decide_eq_true].
    assert (CandicateTerm args = currentTerm rf) as HT by lia.
    rewrite HT in Hstood. rewrite Hcid, Nat2Z.id in *.
    destruct (freeVote_won _ _ _ _ _ _ Hc Hun) as [Hnw Hone].
    destruct (vote_step s i (currentTerm rf) (lastNode rf) c _ Hok (so_at _ _ _ _ Hso) Hnw Hstood)
      as (s' & Hst & Hb & Hrest).
    - by eapply logBehind_upTo.
    - intros c' vt Hbal.
      assert (votes w !! (i, currentTerm rf) = Some c') by by rewrite (nc_votes _ _ _ Hc), lookup_fmap, Hbal.
      destruct (won s !! currentTerm rf) eqn:Hw; [by apply Hone|by apply Hsame].
    - exists s'. split; [done|]. split; [|exact Hrest]. rewrite Hb. simpl. by rewrite (nc_votes _ _ _ Hc). }
  apply same_forest. exists s'. split; [done|].
  assert (server_ok s vs i rf') as Hso1.
  { destruct Hso as [Hwf Hid Hat Hcmt Hld Hvo].
    split; rewrite ?Et, ?Er, ?Elp, ?Ecm, ?(lastNode_ext rf rf' El), ?Hme, ?Hn, ?Hv'; try done.
    - by eapply raft_wf_ext.
    - intros Hw c' Hvt. rewrite Hcid. f_equal. unfold vs, vote in Hvt.
      destruct (counted _ _ _ _ _ _).
      + rewrite lookup_insert_eq, Hcid, Nat2Z.id in Hvt. congruence.
      + symmetry. by apply Hsame. }
  eapply (update_connected F F s s'); try done; try (intros; by left).
  - rewrite Etr. apply Hc.
  - exact (setNode_ok F (toCluster w) i rf' (nc_cluster _ _ _ Hc) Hp').
  - intros j Hj. rewrite Ep. split; [done|]. intros T'. unfold vs, vote. destruct (counted _ _ _ _ _ _); [|done].
    rewrite lookup_insert_ne; [done|congruence].
  - by apply (server_ok_ext s s' _ _ i rf' Etr Ew Ea Ep eq_refl).
  - rewrite Ew. apply Hc.
Qed.

(** *** Requests of a leader *)

(** requests are sent *)
Lemma messages_connected F s w i rf se sn :
  connected F s w → servers w !! i = Some rf →
  cluster_ok F (mkCluster (servers w) se.*2 ((λ m, (m.1.1, m.2)) <$> sn) (leaders w)) →
  (∀ m, m ∈ se → m ∈ sent w ∨ sent_ok s m) → (∀ m, m ∈ sent w → m ∈ se) →
  (∀ m, m ∈ sn → m ∈ snaps w ∨ snap_ok s m) → (∀ m, m ∈ snaps w → m ∈ sn) →
  connected F s (mkNetwork (servers w) (requests w) se (answers w) sn (snapAnswers w)
                           (votes w) (leaders w)).
Proof.
  intros Hc Hi Hcl H1 H2 H3 H4. rewrite <-(list_insert_id (servers w) i rf Hi).
  eapply (update_connected F F s s); try done; try (intros; by left); try apply Hc; try done.
  by rewrite (list_insert_id (servers w) i rf Hi).
Qed.

(** the last entry of a leader is of its term, past what it won with *)
Lemma leader_last s vs i rf b l :
  protocol_ok s → won s !! currentTerm rf = Some (i, b) → (lastNode rf).2 = currentTerm rf →
  (i, currentTerm rf, lastNode rf) ∈ acked s → server_ok s vs i rf → leaderPtr rf = Some l →
  onPath s (currentTerm rf) (lastNode rf) ∧ b.1 < lastLogIndex rf.
Proof.
  intros Hok Hw Hnt Hack Hso Hl. pose proof (p_ack _ Hok _ _ _ Hack) as (Hon & _). split; [done|].
  rewrite <-(lastNode_index rf) by apply Hso. destruct Hon as (i' & b' & Hw' & [Hb|[_ Hn]]).
  - rewrite Hw in Hw'. simplify_eq. destruct (p_won _ Hok _ _ _ Hw) as (Hkb & Hlt & _).
    apply (below_term (p_tree _ Hok)) in Hb; [|done]. lia.
  - rewrite <-Hnt in Hw. by destruct (node_base Hok _ _ _ Hn Hw).
Qed.

Lemma leader_role rf l : raft_wf rf → leader rf = Ret l → role rf = LEADER ∧ leaderPtr rf = Some l.
Proof.
  intros Hwf H. unfold leader in H. pose proof (wf_leader _ Hwf) as Hl.
  destruct (leaderPtr rf); simplify_eq. by destruct (role rf).
Qed.

Lemma entries_sent F s w i j rf args :
  connected F s w → servers w !! i = Some rf → i ≠ j →
  doAppendEntriesRPC_args (Z.of_nat j) rf = Ret (Some args) →
  sent_ok s (j, args) ∧ entries_ok F args.
Proof.
  intros Hc Hi Hij H. destruct (at_server _ _ _ _ _ Hc Hi) as (Hso & Hp & _).
  split; [|by eapply sent_entries_ok]. pose proof (nc_proto _ _ _ Hc) as Hok.
  pose proof (so_wf _ _ _ _ Hso) as Hwf. pose proof (commit_in_log _ _ _ _ (p_tree _ Hok) Hso) as Hcl.
  unfold doAppendEntriesRPC_args in H. go_step H. go_step H. go_step H.
  apply last_idx in E as Hlast. destruct (lastNode_wf rf Hwf) as (e & He & Hne & Hie & _).
  assert (a = e) as -> by congruence.
  destruct (leader_role _ _ Hwf E0) as [Hr Hlp].
  destruct (so_leader _ _ _ _ Hso Hr) as (b & l & Hw & Hnt & Hack & Hlp' & Hnx & _).
  assert (l = a0) as -> by congruence.
  destruct (leader_last _ _ _ _ _ _ Hok Hw Hnt Hack Hso Hlp) as [Hon Hbl].
  apply idx_Ret in E1 as [_ Hv]. rewrite Nat2Z.id in Hv. apply Hnx in Hv.
  destruct (so_commit _ _ _ _ Hso) as (n & Hn & _ & Hsafe).
  go_step H.
  - go_step H; [done|]. cbv zeta in H. go_step H. go_step H. injection H as <-.
    apply idx_Ret in E3 as [Hpos Hprev]. apply slice_from_inv in E4 as [_ ->]. unfold logIndex2LogPos in *.
    assert (entryAt rf (a1 - 1) = Some a) as Hpe.
    { unfold entryAt. rewrite (proj2 (Z.leb_le _ _)) by lia. rewrite <-Hprev. f_equal. lia. }
    destruct (entry_below (p_tree _ Hok) (nc_tree _ _ _ Hc) Hp Hwf _ _ Hpe) as [Hbel Hna].
    injection Hna as Hia. exists i, b. simpl. split_and!; [done..|by exists n|].
    exists e. split_and!.
    + rewrite last_lookup in He |- *. rewrite lookup_drop, length_drop, <-He. f_equal.
      apply lookup_lt_Some in He. unfold lastLogIndex, len in *. lia.
    + by rewrite <-Hne.
    + by rewrite <-Hne.
    + lia.
    + by rewrite Hia.
  - injection H as <-. exists i, b. simpl. split_and!; [done..|by exists n|].
    destruct Hv as [Hv|(m & Hm & Hvm)]; [lia|]. exists m. split; [done|]. lia.
Qed.

Lemma send_connected F s w i j rf args :
  connected F s w → servers w !! i = Some rf → i ≠ j →
  doAppendEntriesRPC_args (Z.of_nat j) rf = Ret (Some args) →
  connected F s (mkNetwork (servers w) (requests w) ((j, args) :: sent w) (answers w)
                           (snaps w) (snapAnswers w) (votes w) (leaders w)).
Proof.
  intros Hc Hi Hij H. destruct (entries_sent _ _ _ _ _ _ _ Hc Hi Hij H) as [Hs He].
  eapply messages_connected; try done; try (intros; by left); try (intros; by right).
  - destruct (nc_cluster _ _ _ Hc) as [H1 H2 H3 H4]. split; try done. simpl.
    intros args' [->|?]%elem_of_cons; [done|by apply H3].
  - intros m [->|?]%elem_of_cons; [by right|by left].
Qed.

Lemma snapshot_safe F s w i rf :
  connected F s w → servers w !! i = Some rf →
  safeBy s (currentTerm rf) (lastIncludedIndex rf, lastIncludedTerm rf).
Proof.
  intros Hc Hi. destruct (at_server _ _ _ _ _ Hc Hi) as (Hso & Hp & _).
  pose proof (p_tree _ (nc_proto _ _ _ Hc)) as Ht. pose proof (so_wf _ _ _ _ Hso) as Hwf.
  destruct (snapshot_entry Hp) as (e & He & Hne).
  destruct (entry_below Ht (nc_tree _ _ _ Hc) Hp Hwf _ _ He) as [Hb _]. rewrite Hne in Hb.
  destruct (so_commit _ _ _ _ Hso) as (n & Hn & Hbn & Hsafe).
  eapply (safeBy_below (nc_proto _ _ _ Hc)); [done|]. eapply (below_linear Ht); [done..|].
  rewrite Hn. simpl. apply Hwf.
Qed.

Lemma sendSnap_connected F s w i j rf :
  connected F s w → servers w !! i = Some rf → i ≠ j → role rf = LEADER →
  connected F s (mkNetwork (servers w) (requests w) (sent w) (answers w)
    ((i, j, doInstallSnapshotRPC_args rf) :: snaps w) (snapAnswers w) (votes w) (leaders w)).
Proof.
  intros Hc Hi Hij Hr. destruct (at_server _ _ _ _ _ Hc Hi) as (Hso & Hp & _).
  destruct (so_leader _ _ _ _ Hso Hr) as (b & l & Hw & _).
  eapply messages_connected; try done; try (intros; by left); try (intros; by right).
  - destruct (nc_cluster _ _ _ Hc) as [H1 H2 H3 H4]. split; try done. simpl.
    intros m [->|?]%elem_of_cons; [|by apply H4].
    destruct Hp as [Hch (e & He & E1 & E2 & E3) _ Hl]. split; [by apply Hl|].
    simpl. apply Hch in He. unfold nodeOK in *. simpl. by rewrite <-E1, <-E2, <-E3.
  - intros m [->|?]%elem_of_cons; [right|by left]. exists b. simpl. split_and!; [done..|].
    by eapply snapshot_safe.
Qed.

(** *** Restart *)

Lemma Make_me n self ps : me (Make n self ps : Raft Cmd) = self.
Proof.
  unfold Make. destruct (readPersist_frame (ReadRaftState ps) (zeroRaft n self ps : Raft Cmd)) as (_ & _ & H & _).
  cbv zeta in *. by case_match.
Qed.

Lemma restart_connected F s w i rf :
  connected F s w → servers w !! i = Some rf →
  connected F s (setRaft i (Make (len (servers w)) (Z.of_nat i) (Copy (persister rf))) w).
Proof.
  intros Hc Hi. destruct (at_server _ _ _ _ _ Hc Hi) as (Hso & Hp & Hd).
  pose proof (so_wf _ _ _ _ Hso) as Hwf.
  destruct (Make_volatile (len (servers w)) (Z.of_nat i) (Copy (persister rf)))
    as (Hr & Hl & Hn & _ & Hcm & _).
  destruct (Make_restart (len (servers w)) (Z.of_nat i) rf Hd (wf_nonempty _ Hwf)) as [Hps _].
  apply pstate_inv in Hps as (Et & Ev & El & Ei & Eit & _). cbv zeta in *.
  set (rf' := Make _ _ _) in *.
  eapply (server_connected F F s s); try done; [apply Hc|..].
  - apply setNode_ok; [apply Hc|by apply restart_ok].
  - split; rewrite ?Et, ?Ev, ?(lastNode_ext rf rf' El), ?Hcm, ?Hr, ?Ei; try done.
    + apply Make_restart_wf; [unfold len; lia|done..].
    + split; [apply Make_me|]. by rewrite (nc_length _ _ _ Hc).
    + apply Hso.
    + exists (lastIncludedIndex rf, lastIncludedTerm rf). split_and!; [done| |by eapply snapshot_safe].
      destruct (snapshot_entry Hp) as (e & He & <-).
      by destruct (entry_below (p_tree _ (nc_proto _ _ _ Hc)) (nc_tree _ _ _ Hc) Hp Hwf _ _ He).
    + apply Hso.
Qed.

(** *** Replies to a leader *)

(** the leader's record of the other peers changes *)
Lemma record_ok s vs i rf l l' :
  server_ok s vs i rf → role rf = LEADER → leaderPtr rf = Some l →
  length (nextIndexs l') = length (nextIndexs l) → length (matchIndexs l') = length (matchIndexs l) →
  (∀ b, won s !! currentTerm rf = Some (i, b) →
    (∀ j v, nextIndexs l !! j = Some v → reached s j (currentTerm rf) b (v - 1)) →
    ∀ j v, nextIndexs l' !! j = Some v → reached s j (currentTerm rf) b (v - 1)) →
  ((∀ j v, matchIndexs l !! j = Some v → v ≤ 0 ∨ ∃ m, (j, currentTerm rf, m) ∈ acked s ∧ v ≤ m.1) →
   ∀ j v, matchIndexs l' !! j = Some v → v ≤ 0 ∨ ∃ m, (j, currentTerm rf, m) ∈ acked s ∧ v ≤ m.1) →
  server_ok s vs i (set_leaderPtr (Some l') rf).
Proof.
  intros [Hwf Hid Hat Hcm Hld Hv] Hr Hl Hn Hm Hnx Hmt.
  destruct (Hld Hr) as (b & l0 & ? & ? & ? & Hl0 & Hnx0 & Hmt0). assert (l0 = l) as -> by congruence.
  split; simpl; try done.
  - pose proof (wf_leader _ Hwf) as Hlw. rewrite Hr in Hlw. destruct Hlw as (l0 & Hl1 & ? & ?).
    assert (l0 = l) as -> by congruence. apply wf_set_leader; try done; unfold len in *; congruence.
  - intros _. exists b, l'. split_and!; try done; [by apply Hnx|by apply Hmt].
Qed.

Lemma findXterm_inv reply n : ∀ k rf v,
  findXterm reply n k rf = Ret (Some v) →
  v = Xindex reply ∨ ∃ e, entryAt rf (v - 1) = Some e ∧ LogTerm e = Xterm reply.
Proof.
  induction n as [|n IH]; intros k rf v H; simpl in H; [done|]. go_step H. go_step H.
  - right. injection H as <-. apply idx_Ret in E as [Hp He]. unfold logIndex2LogPos in *.
    exists a. replace (k + 1 - 1) with k by lia. unfold entryAt.
    rewrite (proj2 (Z.leb_le _ _)) by lia. split; [done|lia].
  - go_step H; [left; congruence|by eapply IH].
Qed.

(** the conflict is backed up over *)
Lemma backUp_inv peer reply rf rf' :
  raft_wf rf → backUp peer reply rf = Ret rf' →
  rf' = rf ∨ ∃ l v, role rf = LEADER ∧ leaderPtr rf = Some l ∧ 0 ≤ peer < len (nextIndexs l)
    ∧ rf' = set_leaderPtr (Some (mkLeader (<[Z.to_nat peer := v]> (nextIndexs l)) (matchIndexs l))) rf
    ∧ ((Xterm reply = -1 ∧ v = Xlen reply + 1)
       ∨ (Xterm reply ≠ -1 ∧ (v = Xindex reply
            ∨ ∃ e, entryAt rf (v - 1) = Some e ∧ LogTerm e = Xterm reply))).
Proof.
  intros Hwf H. unfold backUp in H.
  assert (∀ v, setNextIndex peer v rf = Ret rf' → ∃ l, role rf = LEADER ∧ leaderPtr rf = Some l
    ∧ 0 ≤ peer < len (nextIndexs l)
    ∧ rf' = set_leaderPtr (Some (mkLeader (<[Z.to_nat peer := v]> (nextIndexs l)) (matchIndexs l))) rf) as Hset.
  { intros v Hv. unfold setNextIndex in Hv. go_step Hv. destruct (leader_role _ _ Hwf E) as [Hr Hl].
    go_step Hv. apply upd_inv in E0 as [? ->]. injection Hv as <-. exists a. done. }
  go_step H.
  - right. destruct (Hset _ H) as (l & ? & ? & ? & ->). exists l, (Xlen reply + 1). split_and!; try done; try lia.
  - go_step H. go_step H. go_step H. destruct a1 as [v|]; [|left; congruence].
    right. destruct (Hset _ H) as (l & ? & ? & ? & ->). exists l, v. split_and!; try done; try lia.
    right. split; [lia|]. by eapply findXterm_inv.
Qed.

(** an entry of the leader's term that a majority holds is chosen *)
Lemma holders_chosen s vs i rf ms c e :
  protocol_ok s → server_ok s vs i rf → role rf = LEADER →
  Z.odd (Z.of_nat (length (peerAt s))) = true →
  entryAt rf c = Some e → nodeOf e = (c, currentTerm rf) → below (tree s) (nodeOf e) (lastNode rf) →
  0 < c →
  (∀ j v, ms !! j = Some v → v ≤ 0 ∨ ∃ m, (j, currentTerm rf, m) ∈ acked s ∧ v ≤ m.1) →
  majority rf ≤ len (holders (me rf) ms (peers rf) c) →
  chosen s (currentTerm rf) (nodeOf e).
Proof.
  intros Hok Hso Hr Hodd He Hne Hb Hc Hms Hmaj. rewrite Hne in *. split; [done|].
  destruct (so_leader _ _ _ _ Hso Hr) as (b & l & Hw & Hnt & Hack & _).
  destruct (so_id _ _ _ _ Hso) as [Hme Hn].
  assert (onPath s (currentTerm rf) (c, currentTerm rf)) as Hon.
  { eapply (onPath_below Hok); [|done]. by apply (p_ack _ Hok) in Hack as (? & _). }
  eapply (majority_quorum rf (Z.to_nat <$> holders (me rf) ms (peers rf) c)); [done..| | |].
  - apply NoDup_fmap_2_strong.
    + intros x y [Hx _]%list_elem_of_In%filter_In [Hy _]%list_elem_of_In%filter_In.
      apply list_elem_of_In, elem_of_seqZ in Hx, Hy. lia.
    + apply NoDup_ListNoDup, List.NoDup_filter, NoDup_ListNoDup, NoDup_seqZ.
  - unfold len in *. by rewrite length_fmap.
  - intros j (k & -> & [Hk Hh]%list_elem_of_In%filter_In)%list_elem_of_fmap.
    apply list_elem_of_In, elem_of_seqZ in Hk. split; [lia|].
    apply orb_true_iff in Hh as [Hself|Hh].
    + exists (lastNode rf). replace (Z.to_nat k) with i by lia. done.
    + unfold holdsIndex in Hh. destruct (ms !! Z.to_nat k) as [v|] eqn:Hv; [|done].
      destruct (Hms _ _ Hv) as [?|(m & Hm & Hvm)]; [lia|]. exists m. split; [done|].
      apply (onPath_linear Hok (currentTerm rf)); [done| |simpl; lia].
      by apply (p_ack _ Hok) in Hm as (? & _).
Qed.

(** where the entries of a request of this leader end *)
Lemma own_entries F s w i rf m :
  connected F s w → servers w !! i = Some rf → role rf = LEADER →
  onPath s (currentTerm rf) m → m.1 ≤ lastLogIndex rf.
Proof.
  intros Hc Hi Hr (i' & b' & Hw' & Hm). destruct (at_server _ _ _ _ _ Hc Hi) as (Hso & Hp & _).
  pose proof (nc_proto _ _ _ Hc) as Hok. pose proof (so_wf _ _ _ _ Hso) as Hwf.
  destruct (so_leader _ _ _ _ Hso Hr) as (b & l & Hw & Hnt & Hack & Hlp & _).
  rewrite Hw in Hw'. simplify_eq.
  destruct (leader_last _ _ _ _ _ _ Hok Hw Hnt Hack Hso Hlp) as [_ Hbl].
  destruct Hm as [Hm|[Ht [q Hq]]]; [apply (below_index (p_tree _ Hok)) in Hm; lia|].
  destruct (lastNode_wf rf Hwf) as (e & He & _ & Hie & _).
  destruct (po_leader _ _ _ _ Hp Hr) as [_ Htop]. destruct m as [k t]. simpl in *. subst t.
  rewrite (nc_tree _ _ _ Hc) in Hq. destruct (F !! (k, currentTerm rf)) as [[a tp]|] eqn:EF; [|done].
  apply (Htop e He) in EF. lia.
Qed.

Lemma entries_indexed F (args : AppendEntriesArgs Cmd) es :
  entries_ok F args → Entries args = Some es → indexed (PrevLogIndex args + 1) es.
Proof.
  intros Hok Hes. destruct (Hok es Hes) as (p & <- & _ & Hch). intros k e He.
  apply (chain_lookup F p es (S k) e Hch) in He as (? & _). lia.
Qed.

(** the leader's record of an acknowledgement *)
Lemma acknowledged_ok s vs i j rf l m :
  server_ok s vs i rf → role rf = LEADER → leaderPtr rf = Some l →
  (j, currentTerm rf, m) ∈ acked s →
  server_ok s vs i (set_leaderPtr (Some (acknowledged (Z.of_nat j) m.1 l)) rf).
Proof.
  intros Hso Hr Hl Hm. unfold acknowledged. rewrite Nat2Z.id.
  eapply record_ok; [done..| | | |]; simpl; rewrite ?length_insert; try done.
  - intros b _ Hnx k v [(-> & <- & _)|[_ Hk]]%list_lookup_insert_Some; [|by apply Hnx].
    right. exists m. split; [done|lia].
  - intros Hmt k v [(-> & <- & _)|[_ Hk]]%list_lookup_insert_Some; [|by apply Hmt].
    right. exists m. split; [done|lia].
Qed.

Lemma set_commit_ok s vs i rf rf' c :
  server_ok s vs i rf → raft_wf rf' →
  pstate rf' = pstate rf → role rf' = role rf → leaderPtr rf' = leaderPtr rf → ident rf rf' →
  commitIndex rf' = c → (∃ n, n.1 = c ∧ below (tree s) n (lastNode rf) ∧ safeBy s (currentTerm rf) n) →
  server_ok s vs i rf'.
Proof.
  intros [Hwf Hid Hat Hcm Hld Hv] Hwf' Hps Er El [Em En] <- Hn.
  apply pstate_inv in Hps as (Et & Ev & Elg & _).
  split; rewrite ?Et, ?Ev, ?(lastNode_ext rf rf' Elg), ?Er, ?El, ?Em, ?En; done.
Qed.

Lemma replicationSucceeded_leader peer es rf rf' :
  raft_wf rf → replicationSucceeded peer es rf = Ret rf' →
  ∃ l, role rf = LEADER ∧ leaderPtr rf = Some l ∧ 0 ≤ peer < peers rf.
Proof.
  intros Hwf H. unfold replicationSucceeded in H. go_step H. go_step H. unfold setNextIndex in E0.
  go_step E0. destruct (leader_role _ _ Hwf E1) as [Hr Hl]. exists a1. go_step E0.
  apply upd_inv in E2 as [Hp _]. pose proof (wf_leader _ Hwf) as Hlw. rewrite Hr in Hlw.
  destruct Hlw as (l & Hl' & Hn & _). assert (l = a1) as -> by congruence. split_and!; [done..|lia|lia].
Qed.

Lemma success_ok F s w i j rf rf' args reply es :
  connected F s w → servers w !! i = Some rf → i ≠ j → (j, args, reply) ∈ answers w →
  Success reply = true → currentTerm rf = LeaderTerm args → Entries args = Some es →
  replicationSucceeded (Z.of_nat j) es rf = Ret rf' → server_ok s (votes w) i rf'.
Proof.
  intros Hc Hi Hij Hans Hsuc HT Hes H. destruct (at_server _ _ _ _ _ Hc Hi) as (Hso & Hp & _).
  pose proof (nc_proto _ _ _ Hc) as Hok. pose proof (so_wf _ _ _ _ Hso) as Hwf.
  destruct (so_id _ _ _ _ Hso) as [Hme Hn].
  destruct (nc_answers _ _ _ Hc _ Hans) as [Hsent Hao]. simpl in Hsent, Hao. rewrite Hsuc in Hao.
  destruct (nc_sent _ _ _ Hc _ Hsent) as (i' & b & Hw & _ & _ & Hm). rewrite Hes in Hm.
  destruct Hm as (e & Hle & Hon & _). rewrite <-HT in *. specialize (Hao es e Hes Hle).
  destruct (replicationSucceeded_leader _ _ _ _ Hwf H) as (l & Hr & Hlp & Hj).
  assert (entries_ok F args) as Hent.
  { apply (co_appends _ _ (nc_cluster _ _ _ Hc)). simpl. apply list_elem_of_fmap. by exists (j, args). }
  pose proof (entries_indexed _ _ _ Hent Hes) as Hix.
  assert (es ≠ []) as Hne by by intros ->.
  destruct (indexed_last _ _ Hix Hne) as (e' & Hle' & _ & Hie). assert (e' = e) as -> by congruence.
  pose proof (own_entries _ _ _ _ _ _ Hc Hi Hr Hon) as Hend. simpl in Hend.
  destruct (replicationSucceeded_eq (Z.of_nat j) (PrevLogIndex args) es rf l) as (Hwf2 & Hh & E); [done..|].
  cbv zeta in *. replace (PrevLogIndex args + len es) with (LogIndex e) in * by lia. rewrite E in H. clear E.
  pose proof (acknowledged_ok _ _ _ _ _ _ _ Hso Hr Hlp Hao) as Hso2. simpl in Hso2.
  set (rf2 := set_leaderPtr (Some (acknowledged (Z.of_nat j) (LogIndex e) l)) rf) in *.
  destruct (Z.ltb_spec (commitIndex rf) (LogIndex e)) as [Hlt|Hge]; [|injection H as <-; done].
  assert (0 ≤ me rf < peers rf) as Hmer.
  { rewrite Hme, Hn, (nc_length _ _ _ Hc). apply lookup_lt_Some in Hi. lia. }
  destruct (leaderCommit_spec (Z.of_nat j) (Z.to_nat (LogIndex e - commitIndex rf)) (LogIndex e) rf2 _
    Hwf2 eq_refl Hr) as (rf1 & c & E & (Ec & (Hps & _ & Er) & Elp & _) & Hci & Hq & _);
    try done; simpl; try lia.
  assert (rf1 = rf') as -> by congruence. simpl in *.
  pose proof (proj2 (wp_elim _ _ (wp_leaderCommit (Z.of_nat j) (Z.to_nat (LogIndex e - commitIndex rf)) (LogIndex e) rf2 Hwf2 Hr ltac:(simpl; lia) Hend)) _ H) as Hwf'.
  pose proof (ident_leaderCommit _ _ _ _ _ H) as Hid.
  eapply (set_commit_ok s (votes w) i rf2); [exact Hso2|done..|].
  destruct (decide (commitIndex rf < c)) as [Hcc|Hcc].
  2: { replace c with (commitIndex rf) by lia. exact (so_commit _ _ _ _ Hso). }
  destruct (Hq Hcc) as ((e1 & He1 & Hte1) & Hmaj).
  destruct (entry_below (rf:=rf) (p_tree _ Hok) (nc_tree _ _ _ Hc) Hp Hwf c e1 He1) as [Hb1 Hn1].
  rewrite Hte1 in Hn1. exists (nodeOf e1). split_and!; [by rewrite Hn1|exact Hb1|].
  right. exists (currentTerm rf), (nodeOf e1). split_and!; [done| |by apply below_refl].
  eapply (holders_chosen s (votes w) i rf2); try done.
  - rewrite (nc_length _ _ _ Hc). apply Hc.
  - pose proof (wf_commit _ Hwf). destruct (entry_range Hwf c e1 He1).
    destruct (so_commit _ _ _ _ Hso) as (n0 & Hn0 & Hbn0 & _).
    pose proof (known_index (p_tree _ Hok) n0) as Hk. rewrite Hn0 in Hk.
    assert (0 ≤ commitIndex rf); [|lia]. apply Hk.
    eapply (below_known (p_tree _ Hok)); [|done]. eapply (lastNode_known (nc_tree _ _ _ Hc) Hp Hwf).
  - destruct (so_leader _ _ _ _ Hso2 Hr) as (b2 & l2 & _ & _ & _ & Hl2 & _ & Hms). simpl in Hl2.
    injection Hl2 as <-. exact Hms.
Qed.

Lemma reached_le s j T b v v' : reached s j T b v → v' ≤ v → reached s j T b v'.
Proof. intros [?|(m & ? & ?)] ?; [left; lia|right]. exists m. split; [done|lia]. Qed.

(** after a rejection the leader goes back to entries that it has accounted for *)
Lemma conflict_ok F s w i j rf rf' args reply :
  connected F s w → servers w !! i = Some rf → (j, args, reply) ∈ answers w →
  Success reply = false → ae_FollowerTerm reply ≤ LeaderTerm args → currentTerm rf = LeaderTerm args →
  backUp (Z.of_nat j) reply rf = Ret rf' → server_ok s (votes w) i rf'.
Proof.
  intros Hc Hi Hans Hsuc Hft HT H. destruct (at_server _ _ _ _ _ Hc Hi) as (Hso & Hp & _).
  pose proof (nc_proto _ _ _ Hc) as Hok. pose proof (so_wf _ _ _ _ Hso) as Hwf.
  destruct (backUp_inv _ _ _ _ Hwf H) as [->|(l & v & Hr & Hl & Hj & -> & Hv)]; [done|].
  destruct (nc_answers _ _ _ Hc _ Hans) as [Hsent Hao]. simpl in Hsent, Hao. rewrite Hsuc in Hao.
  destruct (Hao Hft) as [[es Hes] Hx].
  destruct (nc_sent _ _ _ Hc _ Hsent) as (i' & b & Hw & _ & _ & Hm). rewrite Hes in Hm.
  destruct Hm as (e & _ & _ & _ & _ & Hrch). rewrite <-HT in *.
  eapply record_ok; [done..| | | |]; simpl; rewrite ?length_insert; try done.
  intros b' Hw' Hnx k v'. rewrite Hw in Hw'. simplify_eq. rewrite Nat2Z.id.
  intros [(-> & <- & _)|[_ Hk]]%list_lookup_insert_Some; [|by apply Hnx].
  destruct (p_won _ Hok _ _ _ Hw) as (Hkb & _). apply (known_index (p_tree _ Hok)) in Hkb.
  destruct Hv as [[Hx1 ->]|[Hx1 Hv]].
  - destruct Hx as [[_ Hlen]|[? _]]; [|done].
    destruct (decide (Xlen reply ≤ 0)); [left; lia|]. eapply reached_le; [done|lia].
  - destruct Hx as [[? _]|(_ & HxT & Hxi)]; [done|].
    destruct Hv as [->|(e1 & He1 & Hte1)]; [eapply reached_le; [done|lia]|].
    destruct (entry_below (p_tree _ Hok) (nc_tree _ _ _ Hc) Hp Hwf _ _ He1) as [Hb1 Hn1].
    destruct (so_leader _ _ _ _ Hso Hr) as (b2 & l' & Hwl & _ & Hack & _).
    apply (p_ack _ Hok) in Hack as (Hon & _). apply (onPath_below Hok _ _ _ Hon) in Hb1.
    destruct Hb1 as (i1 & b1 & Hw1 & [Hb1|[Ht1 _]]).
    + rewrite Hw in Hw1. simplify_eq. apply (below_index (p_tree _ Hok)) in Hb1. rewrite Hn1 in Hb1.
      simpl in Hb1. left. lia.
    + simpl in Ht1. congruence.
Qed.

Lemma answer_connected F s w i j rf rf' args reply :
  connected F s w → servers w !! i = Some rf → i ≠ j → (j, args, reply) ∈ answers w →
  ¬ takesBack (OpAppendReply (Z.of_nat j) args (Replied reply)) rf →
  exec (OpAppendReply (Z.of_nat j) args (Replied reply)) rf = Ret rf' →
  ∃ F' s', grows F F' ∧ rtc Rstep s s' ∧ connected F' s' (setRaft i rf' w).
Proof.
  intros Hc Hi Hij Hans Hra H. apply same_forest.
  pose proof (quiet_peer _ _ _ _ _ _ _ Hc Hi H eq_refl) as Hp'.
  assert (server_ok s (votes w) i rf' → ∃ s', rtc Rstep s s' ∧ connected F s' (setRaft i rf' w)) as Hsame.
  { intros Hso'. exists s. split; [done|]. eapply (server_connected F F s s); try done; [apply Hc|].
    apply setNode_ok; [apply Hc|done]. }
  destruct (at_server _ _ _ _ _ Hc Hi) as (Hso & _). simpl in H. go_step H. destruct a as [rf1 ms].
  simpl in H. subst rf1. unfold doAppendEntriesRPC_reply in E. simpl in Hra.
  destruct (Success reply) eqn:Hsuc.
  - destruct (decide (currentTerm rf = LeaderTerm args)) as [HT|HT]; [|injection E as <- _; by apply Hsame].
    destruct (Entries args) as [es|] eqn:Hes.
    + go_step E. injection E as <- _. apply Hsame. by eapply success_ok.
    + go_step E. go_step E. go_step E. injection E as <- _. by apply Hsame.
  - destruct (Z.ltb_spec (LeaderTerm args) (ae_FollowerTerm reply)) as [Hlt|Hge].
    + injection E as <- _. eapply down_connected; [done..|apply becomeFollower_downTo|done|left].
      apply Z.nle_gt. intros ?. apply Hra. split; [done|lia].
    + destruct (decide (currentTerm rf = LeaderTerm args)) as [HT|HT]; [|injection E as <- _; by apply Hsame].
      go_step E. injection E as <- _. apply Hsame. by eapply conflict_ok.
Qed.

Lemma snapAnswer_connected F s w i j rf rf' args reply :
  connected F s w → servers w !! i = Some rf → (j, args, reply) ∈ snapAnswers w →
  exec (OpSnapshotReply (Z.of_nat j) args (Replied reply)) rf = Ret rf' →
  ∃ F' s', grows F F' ∧ rtc Rstep s s' ∧ connected F' s' (setRaft i rf' w).
Proof.
  intros Hc Hi Hans H. apply same_forest.
  pose proof (quiet_peer _ _ _ _ _ _ _ Hc Hi H eq_refl) as Hp'.
  assert (server_ok s (votes w) i rf' → ∃ s', rtc Rstep s s' ∧ connected F s' (setRaft i rf' w)) as Hsame.
  { intros Hso'. exists s. split; [done|]. eapply (server_connected F F s s); try done; [apply Hc|].
    apply setNode_ok; [apply Hc|done]. }
  destruct (at_server _ _ _ _ _ Hc Hi) as (Hso & _). simpl in H. go_step H. destruct a as [rf1 ms].
  simpl in H. subst rf1. unfold doInstallSnapshotRPC_reply in E.
  destruct (decide (currentTerm rf = is_Term args)) as [HT|HT]; [|injection E as <- _; by apply Hsame].
  destruct (Z.ltb_spec (currentTerm rf) (isr_Term reply)) as [Hlt|Hge].
  { injection E as <- _. eapply down_connected; [done..|apply becomeFollower_downTo|done|by left]. }
  go_step E. go_step E. injection E as <- _. apply Hsame.
  destruct (nc_snapAnswers _ _ _ Hc _ Hans) as [_ Hack]. simpl in Hack.
  specialize (Hack ltac:(lia)). rewrite <-HT in Hack.
  unfold setNextIndex in E0. go_step E0. destruct (leader_role _ _ (so_wf _ _ _ _ Hso) E) as [Hr Hl].
  go_step E0. apply upd_inv in E2 as [_ ->]. injection E0 as <-.
  unfold setMatchIndex in E1. simpl in E1. go_step E1. apply upd_inv in E0 as [_ ->]. injection E1 as <-.
  exact (acknowledged_ok _ _ _ _ _ _ _ Hso Hr Hl Hack).
Qed.
End steps.
