(* ===== verification/RaftNetworkRecv.v ===== *)
(** * Package raft: the receivers of requests

    AppendEntries and InstallSnapshot as steps of the protocol, and the theorem that
    every step of a network keeps it connected to the protocol. *)

From S2P Require Import Prelude Gob Raft RaftStep RaftPersist RaftLog RaftSafety.
From S2P Require Import RaftElection RaftCommit RaftReplication RaftCluster RaftDelivery RaftProtocol.
From S2P Require Import RaftSystem RaftNetwork RaftNetworkStep.

Section recv.
Context {Cmd : Type} `{!GobCodec Z} `{!GobCodec (list (LogEntry Cmd))}.
Implicit Types (rf : Raft Cmd) (w : RaftNet Cmd) (i j : nat) (F : Forest Cmd) (s : Proto).
Implicit Types (e p : LogEntry Cmd) (args : AppendEntriesArgs Cmd).

(** the protocol after peer [i] has dealt with a request *)
Definition handled s (vs : gmap (nat * Z) nat) i rf' (P : Proto → Prop) : Prop :=
  ∃ s', rtc Rstep s s' ∧ tree s' = tree s ∧ ballot s' = ballot s ∧ won s' = won s
    ∧ (∀ j, j ≠ i → peerAt s' !! j = peerAt s !! j) ∧ server_ok s' vs i rf' ∧ P s'.

Lemma handled_here s vs i rf' (P : Proto → Prop) : server_ok s vs i rf' → P s → handled s vs i rf' P.
Proof. intros ? ?. exists s. by split_and!. Qed.

(** first a step that leaves the tree, the votes and the wins alone *)
Lemma handled_step s s1 vs i rf' (P : Proto → Prop) :
  Rstep s s1 → tree s1 = tree s → ballot s1 = ballot s → won s1 = won s →
  (∀ j, j ≠ i → peerAt s1 !! j = peerAt s !! j) → handled s1 vs i rf' P → handled s vs i rf' P.
Proof.
  intros Hst Et Eb Ew Ep (s' & Hsts & Et' & Eb' & Ew' & Ep' & H). exists s'.
  split_and!; try congruence; try apply H; [by eapply rtc_l|].
  intros j Hj. by rewrite Ep', Ep.
Qed.

Lemma setPeer_other s i j t n : j ≠ i → peerAt (setPeer i t n s) !! j = peerAt s !! j.
Proof. intros Hj. simpl. by rewrite list_lookup_insert_ne by done. Qed.

(** *** Committing *)

Lemma follower_commit_ok s vs i rf rf' args :
  server_ok s vs i rf → AppendEntries_commit args rf = Ret rf' →
  (commitIndex rf < Z.min (LeaderCommit args) (lastLogIndex rf) →
   ∃ n, n.1 = Z.min (LeaderCommit args) (lastLogIndex rf) ∧ below (tree s) n (lastNode rf)
        ∧ safeBy s (currentTerm rf) n) →
  server_ok s vs i rf'.
Proof.
  intros Hso H Hn. pose proof (so_wf _ _ _ _ Hso) as Hwf.
  destruct (follower_commit_committed args rf Hwf) as (rf1 & E & Ec & (Hps & _ & Er) & El & _).
  assert (rf1 = rf') as -> by congruence.
  eapply (set_commit_ok s vs i rf); try done.
  - exact (proj2 (wp_elim _ _ (wp_AppendEntries_commit args rf Hwf)) _ H).
  - by eapply ident_AppendEntries_commit.
  - destruct (decide (commitIndex rf < Z.min (LeaderCommit args) (lastLogIndex rf))) as [Hlt|Hge].
    + destruct (Hn Hlt) as (n & ? & ?). exists n. split; [lia|done].
    + rewrite Z.max_l by lia. exact (so_commit _ _ _ _ Hso).
Qed.

(** *** AppendEntries *)

Section append.
Context {F : Forest Cmd} {s : Proto} {w : RaftNet Cmd} {i : nat} {rf : Raft Cmd} {args : AppendEntriesArgs Cmd}.
Context (Hc : connected F s w) (Hi : servers w !! i = Some rf) (Hin : (i, args) ∈ sent w).

(** the request fits the receiver's snapshot *)
Lemma sent_pre :
  currentTerm rf ≤ LeaderTerm args → op_pre (OpAppendEntries args) rf.
Proof using All.
  intros Hle es Hes. pose proof (nc_proto _ _ _ Hc) as Hok.
  assert (entries_ok F args) as Hent.
  { apply (co_appends _ _ (nc_cluster _ _ _ Hc)). simpl. apply list_elem_of_fmap. by exists (i, args). }
  split; [by eapply entries_indexed|]. intros Hpi.
  destruct (nc_sent _ _ _ Hc _ Hin) as (i0 & b & Hw & _ & _ & Hm). rewrite Hes in Hm.
  destruct Hm as (e & _ & Hon & Hbel & _).
  pose proof (onPath_below Hok _ _ _ Hon Hbel) as Hq.
  pose proof (safeBy_mono _ _ _ (snapshot_safe _ _ _ _ _ Hc Hi) Hle) as Hsn.
  apply (safeBy_onPath Hok _ _ _ _ Hsn) in Hw as Hsp.
  pose proof (onPath_eq Hok _ _ _ Hq Hsp Hpi) as Heq. by injection Heq.
Qed.
End append.

(** the committed entries of a follower are on the leader's path *)
Lemma commit_onPath s vs i rf j b :
  protocol_ok s → server_ok s vs i rf → won s !! currentTerm rf = Some (j, b) →
  ∃ n, n.1 = commitIndex rf ∧ below (tree s) n (lastNode rf) ∧ safeBy s (currentTerm rf) n
    ∧ onPath s (currentTerm rf) n.
Proof.
  intros Hok Hso Hw. destruct (so_commit _ _ _ _ Hso) as (n & ? & ? & Hs). exists n.
  split_and!; try done. by eapply (safeBy_onPath Hok).
Qed.

(** a peer's state after its log has moved to the node [m] *)
Lemma moved_ok s s' vs i rf rf' m n :
  extends s s' → server_ok s vs i rf → role rf' ≠ LEADER → raft_wf rf' → ident rf rf' →
  currentTerm rf' = currentTerm rf → lastNode rf' = m →
  peerAt s' !! i = Some (currentTerm rf, m) → is_Some (won s' !! currentTerm rf) →
  n.1 = commitIndex rf' → below (tree s') n m → safeBy s (currentTerm rf) n →
  server_ok s' vs i rf'.
Proof.
  intros He [Hwf [Hid Hn] Hat _ _ _] Er Hwf' [Em Ep] Et En Hat' [x Hx] Hc Hb Hsafe.
  split; rewrite ?Et, ?En; try done.
  - rewrite Em, Ep. split; [done|]. destruct He as (_ & _ & _ & _ & ->). done.
  - exists n. split_and!; [done..|by apply (safeBy_extends He)].
  - congruence.
Qed.

(** the same when the commit index stays *)
Lemma kept_ok s s' vs i rf rf' m :
  extends s s' → server_ok s vs i rf → role rf' ≠ LEADER → raft_wf rf' → ident rf rf' →
  currentTerm rf' = currentTerm rf → commitIndex rf' = commitIndex rf → lastNode rf' = m →
  peerAt s' !! i = Some (currentTerm rf, m) → is_Some (won s' !! currentTerm rf) →
  (∀ n, n.1 = commitIndex rf → below (tree s) n (lastNode rf) → safeBy s (currentTerm rf) n →
     below (tree s') n m) →
  server_ok s' vs i rf'.
Proof.
  intros He Hso Er Hwf' Hid Et Ec En Hat' Hw Hkeep.
  destruct (so_commit _ _ _ _ Hso) as (n & Hn & Hb & Hs).
  eapply (moved_ok s s' vs i rf rf' m n); try done; [congruence|by apply Hkeep].
Qed.

(** the follower takes the entries *)
Lemma accept_handled F el s vs i rf rf' args es e e0 j b kept :
  protocol_ok s → treeOf F (tree s) → peer_ok F el i rf → server_ok s vs i rf →
  role rf = FOLLOWER → currentTerm rf = LeaderTerm args → won s !! LeaderTerm args = Some (j, b) →
  indexed (PrevLogIndex args + 1) es → last es = Some e → onPath s (LeaderTerm args) (nodeOf e) →
  Entries args = Some es → overtaken args rf = false →
  (∃ n, n.1 = LeaderCommit args ∧ safeBy s (LeaderTerm args) n) →
  entryAt rf (PrevLogIndex args) = Some e0 →
  slice_to (logs rf) (logIndex2LogPos rf (PrevLogIndex args) + 1) = Ret kept →
  AppendEntries_commit args (persist (set_logs (kept ++ es) rf)) = Ret rf' →
  handled s vs i rf' (λ s', (i, LeaderTerm args, nodeOf e) ∈ acked s').
Proof.
  intros Hok Ht Hp Hso Hr HT Hw Hix Hle Hon Hes Hov (cn & Hcn & Hcs) He0 Hk H.
  pose proof (so_wf _ _ _ _ Hso) as Hwf. apply slice_to_inv in Hk as [_ ->].
  pose proof (p_tree _ Hok) as Htree. rewrite <-HT in *.
  destruct (entry_range Hwf _ _ He0) as [Hlo Hhi].
  set (rf2 := persist _) in H.
  assert (raft_wf rf2) as Hwf2 by by apply wf_persist, wf_accept.
  assert (lastNode rf2 = nodeOf e) as Hn2.
  { unfold lastNode. simpl. rewrite last_app, Hle. done. }
  assert (PrevLogIndex args < LogIndex e) as Hpe.
  { rewrite last_lookup in Hle. apply Hix in Hle. lia. }
  (* the guard of the protocol *)
  assert (below (tree s) (nodeOf e) (lastNode rf) → nodeOf e = lastNode rf) as Hcut.
  { intros Hb. apply (below_same (P:=tree s)); [done|].
    pose proof (below_index Htree _ _ Hb) as Hbi. rewrite (lastNode_index _ Hwf) in *. simpl in *.
    destruct (below_entry Htree Ht Hp Hwf _ Hb) as (e1 & He1 & Hn1); [simpl; lia|]. simpl in He1.
    injection Hn1 as Hi1 Ht1. unfold overtaken in Hov. rewrite Hes in Hov. simpl in Hov.
    rewrite Hle, He1 in Hov. simpl in Hov. rewrite Ht1, bool_decide_true, andb_true_r in Hov by done. lia. }
  set (s1 := setPeer i (currentTerm rf) (nodeOf e) s).
  assert (Rstep s s1) as Hst1 by (eapply r_take; [apply Hso|done|done|done]).
  pose proof (Rstep_ok _ _ Hok Hst1) as Hok1. pose proof (Rstep_extends _ _ Hok Hst1) as He1.
  assert (peerAt s1 !! i = Some (currentTerm rf, nodeOf e)) as Hat1
    by (simpl; apply list_lookup_insert_eq; eapply lookup_lt_Some, Hso).
  pose proof (r_ack s1 i _ _ _ Hat1 (onPath_extends He1 _ _ Hon) (below_refl _)) as Hst2.
  set (s2 := mkProto _ _ _ _ _ _) in Hst2.
  pose proof (Rstep_extends _ _ Hok1 Hst2) as He2. assert (extends s s2) as He by by etrans.
  assert (server_ok s2 vs i rf2) as Hso2.
  { eapply (kept_ok s s2 vs i rf rf2 (nodeOf e)); try done; [simpl; congruence|].
    intros n Hn Hb Hsafe. simpl. pose proof (safeBy_onPath Hok _ _ _ _ Hsafe Hw) as Hnon.
    destruct (decide (n.1 ≤ (nodeOf e).1)) as [|Hgt]; [by eapply (onPath_linear Hok)|].
    assert (below (tree s) (nodeOf e) n) as Hen by (eapply (onPath_linear Hok); [done..|lia]).
    pose proof (Hcut (below_trans Htree _ _ _ Hen Hb)) as Heq. rewrite Heq in Hgt.
    apply (below_index Htree) in Hb. lia. }
  eapply (handled_step s s1); [done..|by intros; apply setPeer_other|].
  eapply (handled_step s1 s2); [done..|]. apply handled_here; [|simpl; left].
  eapply (follower_commit_ok s2 vs i rf2); [done..|]. intros _.
  rewrite Hn2, <-(lastNode_index rf2) by done. rewrite Hn2. simpl.
  pose proof (safeBy_onPath Hok _ _ _ _ Hcs Hw) as Hcon.
  destruct (decide (LeaderCommit args ≤ LogIndex e)) as [Hlc|Hlc].
  - exists cn. split_and!; [lia| |by apply (safeBy_extends He)].
    eapply (onPath_linear Hok); [done..|]. rewrite Hcn. done.
  - exists (nodeOf e). split_and!; [simpl; lia|by apply below_refl|].
    apply (safeBy_extends He). eapply (safeBy_below Hok); [done|].
    eapply (onPath_linear Hok); [done..|]. simpl. lia.
Qed.
(** the last entry that stays when the log is cut before [k] *)
Lemma cut_last F P el i rf k e :
  treeOf F P → peer_ok F el i rf → raft_wf rf → lastIncludedIndex rf < k → entryAt rf k = Some e →
  P !! nodeOf e
  = Some (lastNode (persist (set_logs (take (Z.to_nat (logIndex2LogPos rf k)) (logs rf)) rf))).
Proof.
  intros Ht Hp Hwf Hk He. destruct (entry_range Hwf _ _ He) as [_ Hhi].
  apply entryAt_Some in He as [_ He].
  destruct (entry_in_log rf (k - 1) Hwf) as (e' & [_ He']%entryAt_Some & _); [lia|].
  set (n := Z.to_nat (k - 1 - lastIncludedIndex rf)) in *.
  assert (Z.to_nat (k - lastIncludedIndex rf) = S n) as En by lia. rewrite En in He.
  unfold lastNode, logIndex2LogPos. simpl. rewrite En, last_lookup, length_take_le
    by (apply lookup_lt_Some in He; lia).
  simpl. rewrite lookup_take_lt, He' by lia.
  eapply link_tree; [done|]. by eapply (proj2 (po_chain _ _ _ _ Hp)).
Qed.

(** the follower's log contradicts the request *)
Lemma cut_handled F el s vs i rf args e q j b :
  protocol_ok s → treeOf F (tree s) → peer_ok F el i rf → server_ok s vs i rf →
  role rf = FOLLOWER → currentTerm rf = LeaderTerm args → won s !! LeaderTerm args = Some (j, b) →
  q = (PrevLogIndex args, PrevLogTerm args) → onPath s (LeaderTerm args) q →
  lastIncludedIndex rf < PrevLogIndex args → entryAt rf (PrevLogIndex args) = Some e →
  LogTerm e ≠ PrevLogTerm args →
  LogTerm e ≠ -1 ∧ LogTerm e ≠ LeaderTerm args ∧
  handled s vs i (persist (set_logs (take (Z.to_nat (logIndex2LogPos rf (PrevLogIndex args))) (logs rf)) rf))
    (λ _, True).
Proof.
  intros Hok Ht Hp Hso Hr HT Hw Hq Hqon Hlo He Hne.
  pose proof (so_wf _ _ _ _ Hso) as Hwf. pose proof (p_tree _ Hok) as Htree.
  destruct (entry_below Htree Ht Hp Hwf _ _ He) as [Hpb Hpn].
  pose proof (cut_last _ _ _ _ _ _ _ Ht Hp Hwf Hlo He) as Hpar.
  set (rf' := persist _) in *.
  assert (nodeOf e ≠ q) as Hpq by (rewrite Hpn, Hq; congruence).
  assert ((nodeOf e).1 = q.1) as Hix by by rewrite Hpn, Hq.
  split_and!.
  - pose proof (node_term Hok _ (mk_is_Some _ _ Hpar)) as H. simpl in H. lia.
  - intros HeT. apply Hpq, (onPath_eq Hok (LeaderTerm args)); [|done..].
    exists j, b. split; [done|]. right. split; [done|by eexists].
  - rewrite <-HT in *. set (s1 := setPeer i (currentTerm rf) (lastNode rf') s).
    assert (Rstep s s1) as Hst by (eapply (r_cut s i _ _ _ q (nodeOf e)); [apply Hso|done..]).
    eapply (handled_step s s1); [done..|by intros; apply setPeer_other|]. apply handled_here; [|done].
    eapply (kept_ok s s1 vs i rf rf' (lastNode rf')); try done; [|simpl; congruence|..].
    + by apply (Rstep_extends _ _ Hok).
    + apply wf_persist, wf_truncate; [done|]. unfold logIndex2LogPos. lia.
    + simpl. apply list_lookup_insert_eq. eapply lookup_lt_Some, Hso.
    + intros n _ Hb Hsafe. simpl. pose proof (safeBy_onPath Hok _ _ _ _ Hsafe Hw) as Hnon.
      pose proof (t_index _ Htree _ _ Hpar) as [Hi1 _].
      destruct (decide (n.1 ≤ (lastNode rf').1)) as [Hle|Hgt].
      { eapply (below_linear Htree); [done| |done].
        eapply (below_trans Htree); [by apply (below_parent Htree)|done]. }
      exfalso. apply Hpq, (below_same (P:=tree s)); [|done].
      eapply (below_linear Htree _ _ n); [eapply (below_linear Htree); [done..|lia]| |lia].
      eapply (onPath_linear Hok); [done..|lia].
Qed.
(** a request without entries: the follower has what it has acknowledged *)
Lemma heartbeat_ok s vs i rf rf' args :
  protocol_ok s → server_ok s vs i rf → currentTerm rf = LeaderTerm args →
  sent_ok s (i, args) → Entries args = None → AppendEntries_commit args rf = Ret rf' →
  server_ok s vs i rf'.
Proof.
  intros Hok Hso HT (j & b & Hw & _ & (cn & Hcn & Hcs) & Hm) Hes H. rewrite Hes in Hm.
  destruct Hm as (m & Hack & Hle). pose proof (p_tree _ Hok) as Htree. rewrite <-HT in *.
  destruct (p_ack _ Hok _ _ _ Hack) as (Hmon & t & n & Hat & _ & Hkeep).
  rewrite (so_at _ _ _ _ Hso) in Hat. simplify_eq.
  assert (below (tree s) cn m) as Hcm.
  { eapply (onPath_linear Hok); [by eapply (safeBy_onPath Hok)|done|lia]. }
  assert (below (tree s) cn (lastNode rf)) as Hcl.
  { destruct (Hkeep cn Hcm) as [?|(T' & ? & ? & ? & _)]; [done|lia]. }
  eapply follower_commit_ok; [done..|]. intros _. exists cn. split_and!; [|done..].
  apply (below_index Htree) in Hcl. rewrite (lastNode_index _ (so_wf _ _ _ _ Hso)) in Hcl. lia.
Qed.

(** a request with entries *)
Lemma entries_handled F el s vs i rf rf' args es reply :
  protocol_ok s → treeOf F (tree s) → peer_ok F el i rf → server_ok s vs i rf →
  role rf = FOLLOWER → currentTerm rf = LeaderTerm args → sent_ok s (i, args) →
  Entries args = Some es → op_pre (OpAppendEntries args) rf →
  (Success reply = true → overtaken args rf = false) →
  AppendEntries_entries (LeaderTerm args) args es rf = Ret (rf', reply) →
  handled s vs i rf' (λ s', answer_ok s' (i, args, reply)).
Proof.
  intros Hok Ht Hp Hso Hr HT (j & b & Hw & _ & Hcn & Hm) Hes Hpre Hov H. rewrite Hes in Hm.
  destruct Hm as (e & Hle & Hon & Hbel & _). destruct (Hpre es Hes) as [Hix Hsn].
  pose proof (so_wf _ _ _ _ Hso) as Hwf. pose proof (onPath_below Hok _ _ _ Hon Hbel) as Hq.
  destruct (Z.ltb_spec (PrevLogIndex args) (lastIncludedIndex rf)) as [Hlo|Hlo].
  { unfold AppendEntries_entries in H. rewrite (proj2 (Z.ltb_lt _ _)) in H by done.
    injection H as <- <-. apply handled_here; [done|]. intros _. split; [by eexists|left]. simpl. lia. }
  destruct (decide (lastLogIndex rf < PrevLogIndex args)) as [Hhi|Hhi].
  { rewrite follower_short in H by done. injection H as <- <-. apply handled_here; [done|].
    intros _. split; [by eexists|left]. simpl. lia. }
  destruct (entry_in_log rf (PrevLogIndex args) Hwf) as (e0 & He0 & _); [lia|].
  destruct (decide (LogTerm e0 = PrevLogTerm args)) as [Hte|Hte].
  - destruct (follower_accept (LeaderTerm args) args es rf e0) as (rf1 & E & _); [done..|].
    rewrite E in H. injection H as <- <-. unfold AppendEntries_entries in E. cbv zeta in E.
    rewrite (proj2 (Z.ltb_ge _ _)) in E by done. go_step E. go_step E; [|by go_steps E].
    go_step E. go_step E; [|by go_steps E]. go_step E. go_step E. injection E as <-.
    destruct (accept_handled F el s vs i rf a2 args es e e0 j b a1) as (s' & H & Hack); try done; [by apply Hov|].
    exists s'. split; [done|]. destruct Hack as (?&?&?&?&?&Hack). split_and!; try done.
    simpl. intros es' e' Hes' Hle'. congruence.
  - assert (lastIncludedIndex rf < PrevLogIndex args) as Hlt.
    { destruct (decide (PrevLogIndex args = lastIncludedIndex rf)) as [Heq|]; [|lia].
      destruct (snapshot_entry Hp) as (e1 & He1 & Hn1). rewrite Heq, He1 in He0.
      injection He0 as ->. injection Hn1 as _ Ht1. rewrite Hsn in Hte; done. }
    destruct (follower_conflict (LeaderTerm args) args es rf e0) as (x & Hx & E); [done..|].
    rewrite E in H. injection H as <- <-.
    destruct (cut_handled F el s vs i rf args e0 _ j b Hok Ht Hp Hso Hr HT Hw eq_refl Hq Hlt He0 Hte)
      as (Hx1 & Hx2 & s' & Hst & H).
    exists s'. destruct H as (?&?&?&?&?&_). split_and!; try done.
    intros _. split; [by eexists|right]. simpl. split_and!; [done..|lia].
Qed.
(** the network after a peer has dealt with a request *)
Lemma handled_connected F s w i rf rf' an sa P :
  connected F s w → servers w !! i = Some rf → peer_ok F (leaders w) i rf' →
  handled s (votes w) i rf' P →
  (∀ s' m, P s' → m ∈ an → m ∈ answers w ∨ (m.1 ∈ sent w ∧ answer_ok s' m)) →
  (∀ s' m, P s' → m ∈ sa → m ∈ snapAnswers w
     ∨ ((∃ k, (k, m.1.1, m.1.2) ∈ snaps w) ∧ snapAnswer_ok s' m)) →
  ∃ s', rtc Rstep s s' ∧ connected F s' (mkNetwork (<[i := rf']> (servers w)) (requests w) (sent w) an
    (snaps w) sa (votes w) (leaders w)).
Proof.
  intros Hc Hi Hp (s' & Hst & Et & Eb & Ew & Ep & Hso & HP) Han Hsa. exists s'. split; [done|].
  eapply (update_connected F F s s'); try done; try (intros; by left); try (intros; auto).
  - rewrite Et. apply Hc.
  - apply (setNode_ok F (toCluster w)); [apply Hc|done].
  - rewrite Eb. apply Hc.
  - rewrite Ew. apply Hc.
Qed.

(** a follower of the sender's term *)
Lemma follow_raise F s w i rf a T :
  connected F s w → servers w !! i = Some rf → downTo T rf a → currentTerm rf ≤ T →
  is_Some (won s !! T) → ∃ s1, Rstep s s1 ∧ tree s1 = tree s ∧ ballot s1 = ballot s ∧ won s1 = won s
    ∧ (∀ j, j ≠ i → peerAt s1 !! j = peerAt s !! j) ∧ server_ok s1 (votes w) i a.
Proof.
  intros Hc Hi Hdn Hle Hw. destruct (at_server _ _ _ _ _ Hc Hi) as (Hso & _).
  exists (setPeer i T (lastNode rf) s).
  destruct (downTo_ok s (votes w) i T rf a) as [Hst Hso1]; try done; try apply Hc.
  { destruct (decide (currentTerm rf = T)); [by right|left; lia]. }
  split_and!; try done. by intros; apply setPeer_other.
Qed.

Lemma recv_connected F s w i rf args rf' reply :
  connected F s w → servers w !! i = Some rf → (i, args) ∈ sent w →
  AppendEntries args rf = Ret (rf', reply) → (Success reply = true → overtaken args rf = false) →
  ∃ F' s', grows F F' ∧ rtc Rstep s s' ∧ connected F' s' (mkNetwork (<[i := rf']> (servers w)) (requests w) (sent w)
    ((i, args, reply) :: answers w) (snaps w) (snapAnswers w) (votes w) (leaders w)).
Proof.
  intros Hc Hi Hin H Hov. destruct (at_server _ _ _ _ _ Hc Hi) as (Hso & Hp & Hd). apply same_forest.
  pose proof (nc_proto _ _ _ Hc) as Hok. pose proof (nc_sent _ _ _ Hc _ Hin) as Hse.
  assert (peer_ok F (leaders w) i rf' ∧ handled s (votes w) i rf' (λ s', answer_ok s' (i, args, reply)))
    as [Hp' Hh].
  2: { eapply handled_connected; [done..| |intros; by left].
       intros s' m Ha [->|?]%elem_of_cons; [right|by left]. done. }
  destruct (Z.ltb_spec (LeaderTerm args) (currentTerm rf)) as [Hlt|Hge].
  { unfold AppendEntries in H. rewrite (proj2 (Z.ltb_lt _ _)) in H by done. injection H as <- <-.
    split; [done|]. apply handled_here; [done|]. simpl. lia. }
  pose proof (sent_pre Hc Hi Hin Hge) as Hpre.
  assert (entries_ok F args) as Hent.
  { apply (co_appends _ _ (nc_cluster _ _ _ Hc)). simpl. apply list_elem_of_fmap. by exists (i, args). }
  split; [eapply AppendEntries_ok; try done; apply Hc|].
  unfold AppendEntries in H. cbv zeta in H. rewrite (proj2 (Z.ltb_ge _ _)) in H by done. go_step H.
  assert (steady (becomeFollower (LeaderTerm args) rf) a) as Hst
    by (destruct (role rf); [by apply steady_sendHeartBeat..|by go_steps E]).
  assert (frame (becomeFollower (LeaderTerm args) rf) a) as Hfr
    by (destruct (role rf); [by apply frame_sendHeartBeat..|by go_steps E]). clear E.
  pose proof (downTo_steady _ _ _ _ (becomeFollower_downTo _ _) Hst) as Hdn.
  pose proof Hdn as (Et & Er & _ & El & Ei & Eit & _).
  destruct (becomeFollower_downTo (LeaderTerm args) rf) as (Etf & _). rewrite Etf in H.
  destruct Hse as (j & b & Hw & Hse). assert (sent_ok s (i, args)) as Hse' by by exists j, b.
  destruct (follow_raise F s w i rf a (LeaderTerm args)) as (s1 & Hst1 & Et1 & Eb1 & Ew1 & Ep1 & Hso1);
    [done..|by eexists|].
  pose proof (Rstep_ok _ _ Hok Hst1) as Hok1. pose proof (Rstep_extends _ _ Hok Hst1) as He1.
  pose proof (sent_ok_mono He1 _ Hse') as Hse1. eapply (handled_step s s1); [done..|].
  destruct (Entries args) as [es|] eqn:Ees.
  - eapply (entries_handled F (leaders w) s1 _ i a); try done.
    + rewrite Et1. exact (nc_tree _ _ _ Hc).
    + eapply calm_ok; [etrans; [apply becomeFollower_calm|by apply frame_calm]| |exact Hp].
      eapply frame_durable; [done|left; apply saved_becomeFollower].
    + intros es' Hes'. rewrite Ei, Eit. by apply Hpre.
    + intros Hs. rewrite <-(Hov Hs). unfold overtaken, lastLogIndex, entryAt. by rewrite El, Ei.
  - go_step H. injection H as <- <-. apply handled_here; [by eapply heartbeat_ok|]. simpl. congruence.
Qed.
(** *** InstallSnapshot *)

(** the log that is left: the rest behind the snapshot, or nothing *)
Lemma InstallSnapshot_last (args : InstallSnapshotArgs) rf rf' ls :
  raft_wf rf → InstallSnapshot_logs args rf = Ret ls → logs rf' = ls →
  lastIncludedIndex rf < is_LastIncludedIndex args →
  let m := (is_LastIncludedIndex args, is_LastIncludedTerm args) in
  (lastNode rf' = m ∧ (is_LastIncludedIndex args < lastLogIndex rf →
     ∀ e, entryAt rf (is_LastIncludedIndex args) = Some e → nodeOf e ≠ m))
  ∨ (lastNode rf' = lastNode rf ∧ ∃ e, entryAt rf (is_LastIncludedIndex args) = Some e ∧ nodeOf e = m).
Proof.
  intros Hwf H Hls Hlo. destruct (getLastLog_total rf Hwf) as (el & Hel & Hi & _).
  unfold InstallSnapshot_logs in H. rewrite Hel in H. simpl in H. rewrite Hi in H.
  assert (∀ r, r = sentinel (is_LastIncludedTerm args) (is_LastIncludedIndex args)
    (is_LastIncludedCmdIndex args) → logs rf' = [r] →
    lastNode rf' = (is_LastIncludedIndex args, is_LastIncludedTerm args)) as Hfresh.
  { intros r -> E. unfold lastNode. by rewrite E. }
  destruct (Z.ltb_spec (is_LastIncludedIndex args) (lastLogIndex rf)) as [Hlt|Hge].
  2: { injection H as <-. left. split; [by eapply Hfresh|]. lia. }
  go_step H. apply idx_Ret in E as [Hpos Hk].
  assert (entryAt rf (is_LastIncludedIndex args) = Some a) as He by (apply entryAt_Some; split; [lia|done]).
  assert (LogIndex a = is_LastIncludedIndex args) as Hia.
  { apply (wf_indexed _ Hwf) in Hk. unfold logIndex2LogPos in *. lia. }
  destruct (Z.eqb_spec (LogTerm a) (is_LastIncludedTerm args)) as [Hta|Hta].
  2: { injection H as <-. left. split; [by eapply Hfresh|]. intros _ e He'.
       assert (e = a) as -> by congruence. intros [= _ ?]. done. }
  go_step H. go_step H. go_step H. right. split; [|exists a; split; [done|]; unfold nodeOf; congruence].
  apply slice_from_inv in E as [_ ->].
  replace (lastLogIndex rf - is_LastIncludedIndex args + 1)
    with (len (drop (Z.to_nat (logIndex2LogPos rf (is_LastIncludedIndex args))) (logs rf))) in E0
    by (unfold lastLogIndex, logIndex2LogPos, len in *; rewrite length_drop; lia).
  rewrite make_copy_exact in E0. injection E0 as <-. apply upd_inv in H as [_ ->].
  apply idx_Ret in E1 as [_ H0]. change (Z.to_nat 0) with 0%nat in *.
  rewrite (drop_head _ _ _ Hk) in H0. injection H0 as <-.
  eapply lastNode_compact; [exact Hk| |exact Hls]. done.
Qed.

(** a request of a later term is handled after the step to that term *)
Lemma InstallSnapshot_raised (args : InstallSnapshotArgs) rf rf' reply :
  currentTerm rf < is_Term args → InstallSnapshot args rf = Ret (rf', reply) →
  InstallSnapshot args (becomeFollower (is_Term args) rf)
  = Ret (rf', mkInstallSnapshotReply (is_Term args)).
Proof.
  intros Hlt H. unfold InstallSnapshot in *. cbv zeta in *.
  destruct (becomeFollower_downTo (is_Term args) rf) as (-> & _). rewrite Z.ltb_irrefl.
  rewrite (proj2 (Z.ltb_ge _ _)), (proj2 (Z.ltb_lt _ _)) in H by lia.
  case_match; [injection H as <- _; done|]. go_step H. injection H as <- _. by rewrite E.
Qed.

Lemma snapshot_handled F el s vs i rf rf' (args : InstallSnapshotArgs) reply :
  protocol_ok s → treeOf F (tree s) → peer_ok F el i rf → server_ok s vs i rf →
  role rf ≠ LEADER → currentTerm rf = is_Term args → is_Some (won s !! is_Term args) →
  safeBy s (is_Term args) (lastIncludedIndex rf, lastIncludedTerm rf) →
  safeBy s (is_Term args) (is_LastIncludedIndex args, is_LastIncludedTerm args) →
  InstallSnapshot args rf = Ret (rf', reply) →
  handled s vs i rf' (λ s', (i, is_Term args, (is_LastIncludedIndex args, is_LastIncludedTerm args)) ∈ acked s').
Proof.
  intros Hok Ht Hp Hso Hr HT Hw Hsn Hs H. pose proof (so_wf _ _ _ _ Hso) as Hwf.
  pose proof (p_tree _ Hok) as Htree. rewrite <-HT in *. destruct Hw as [[j b] Hw].
  set (m := (is_LastIncludedIndex args, is_LastIncludedTerm args)) in *.
  pose proof (safeBy_onPath Hok _ _ _ _ Hs Hw) as Hm.
  (* the acknowledgement *)
  assert (∀ s1 rf1, protocol_ok s1 → extends s s1 → server_ok s1 vs i rf1 → currentTerm rf1 = currentTerm rf →
    below (tree s1) m (lastNode rf1) → handled s1 vs i rf1 (λ s', (i, currentTerm rf, m) ∈ acked s')) as Hack.
  { intros s1 rf1 Hok1 He1 Hso1 Et Hb. pose proof (so_at _ _ _ _ Hso1) as Hat1. rewrite Et in Hat1.
    pose proof (r_ack s1 i _ _ _ Hat1 (onPath_extends He1 _ _ Hm) Hb) as Hst.
    eapply handled_step; [exact Hst|done..|]. apply handled_here; [|simpl; left].
    by eapply (server_ok_mono (Rstep_extends _ _ Hok1 Hst)). }
  pose proof (proj2 (wp_elim _ _ (wp_InstallSnapshot args rf Hwf)) _ H) as Hwf'. simpl in Hwf'.
  assert (ident rf rf') as Hid.
  { apply (exec_ident (OpInstallSnapshot args)). simpl. by rewrite H. }
  unfold InstallSnapshot in H. cbv zeta in H. rewrite <-HT, Z.ltb_irrefl in H.
  destruct (Z.leb_spec (is_LastIncludedIndex args) (lastIncludedIndex rf)) as [Hle|Hgt].
  { injection H as <- _. apply Hack; [done..|]. destruct (snapshot_entry Hp) as (e & He & Hn).
    destruct (entry_below Htree Ht Hp Hwf _ _ He) as [Hb _]. rewrite Hn in Hb.
    eapply (below_trans Htree); [|done].
    eapply (onPath_linear Hok); [done|by eapply (safeBy_onPath Hok)|done]. }
  go_step H. injection H as Hrf' _.
  destruct (InstallSnapshot_last args rf rf' a) as [[Hl Hcut]|(Hl & e & He & Hn)]; [done..|by rewrite <-Hrf'|done| |].
  - assert (below (tree s) m (lastNode rf) → m = lastNode rf) as Hguard.
    { intros Hb. pose proof (below_index Htree _ _ Hb) as Hbi. rewrite (lastNode_index _ Hwf) in Hbi.
      apply (below_same (P:=tree s)); [done|]. rewrite (lastNode_index _ Hwf).
      destruct (below_entry Htree Ht Hp Hwf _ Hb) as (e & He & Hn); [simpl; lia|]. simpl in *.
      destruct (decide (is_LastIncludedIndex args < lastLogIndex rf)) as [Hlt|]; [|lia].
      by destruct (Hcut Hlt e He). }
    pose proof (r_take s i _ _ (currentTerm rf) m (so_at _ _ _ _ Hso) ltac:(lia) Hm Hguard) as Hst.
    set (s1 := setPeer i (currentTerm rf) m s) in Hst.
    pose proof (Rstep_extends _ _ Hok Hst) as He1.
    eapply handled_step; [exact Hst|done..|by intros; apply setPeer_other|].
    apply Hack; [by eapply Rstep_ok|done| |by subst rf'|by rewrite Hl; apply below_refl].
    eapply (moved_ok s s1 vs i rf rf' m m); try done; try (by subst rf').
    + simpl. apply list_lookup_insert_eq. eapply lookup_lt_Some, Hso.
    + by apply below_refl.
  - destruct (entry_below Htree Ht Hp Hwf _ _ He) as [Hb _]. rewrite Hn in Hb.
    apply Hack; [done..| |by subst rf'|by rewrite Hl].
    eapply (moved_ok s s vs i rf rf' (lastNode rf) m); try done; try (by subst rf').
    apply Hso.
Qed.
Lemma recvSnap_connected F s w i from rf (args : InstallSnapshotArgs) rf' reply :
  connected F s w → servers w !! i = Some rf → (from, i, args) ∈ snaps w →
  InstallSnapshot args rf = Ret (rf', reply) →
  ∃ F' s', grows F F' ∧ rtc Rstep s s' ∧ connected F' s' (mkNetwork (<[i := rf']> (servers w)) (requests w) (sent w)
    (answers w) (snaps w) ((i, args, reply) :: snapAnswers w) (votes w) (leaders w)).
Proof.
  intros Hc Hi Hin H. destruct (at_server _ _ _ _ _ Hc Hi) as (Hso & Hp & Hd). apply same_forest.
  pose proof (nc_proto _ _ _ Hc) as Hok.
  destruct (nc_snaps _ _ _ Hc _ Hin) as (b & Hw & Hne & Hs).
  assert (peer_ok F (leaders w) i rf') as Hp'.
  { eapply (InstallSnapshot_ok F (leaders w) i from args rf); try done; [apply Hc|].
    apply (co_installs _ _ (nc_cluster _ _ _ Hc)). simpl. apply list_elem_of_fmap. by exists (from, i, args). }
  assert (handled s (votes w) i rf' (λ s', snapAnswer_ok s' (i, args, reply))) as Hh.
  2: { eapply handled_connected; [done..|intros; by left|].
       intros s' m Ha [->|?]%elem_of_cons; [right|by left]. split; [by exists from|done]. }
  destruct (Z.ltb_spec (is_Term args) (currentTerm rf)) as [Hlt|Hge].
  { unfold InstallSnapshot in H. rewrite (proj2 (Z.ltb_lt _ _)) in H by done. injection H as <- <-.
    apply handled_here; [done|]. simpl. lia. }
  pose proof (safeBy_mono _ _ _ (snapshot_safe _ _ _ _ _ Hc Hi) Hge) as Hsn.
  assert (∀ s1 rf1, handled s1 (votes w) i rf1
      (λ s', (i, is_Term args, (is_LastIncludedIndex args, is_LastIncludedTerm args)) ∈ acked s') →
    handled s1 (votes w) i rf1 (λ s', snapAnswer_ok s' (i, args, reply))) as Hans.
  { intros s1 rf1 (s' & Hs' & Hs''). exists s'. destruct Hs'' as (?&?&?&?&?&?).
    split_and!; try done. by intros _. }
  destruct (decide (currentTerm rf = is_Term args)) as [HT|HT].
  - apply Hans. eapply (snapshot_handled F (leaders w) s _ i rf); try done; [apply Hc|].
    intros Hr. destruct (so_leader _ _ _ _ Hso Hr) as (b' & l & Hw' & _). congruence.
  - pose proof (becomeFollower_downTo (is_Term args) rf) as Hdn.
    pose proof Hdn as (Et & Er & _ & _ & Ei & Eit & _).
    destruct (follow_raise F s w i rf _ (is_Term args) Hc Hi Hdn Hge)
      as (s1 & Hst1 & Et1 & Eb1 & Ew1 & Ep1 & Hso1); [by eexists|].
    pose proof (Rstep_extends _ _ Hok Hst1) as He1.
    eapply (handled_step s s1); [done..|]. apply Hans.
    eapply (snapshot_handled F (leaders w) s1 _ i (becomeFollower (is_Term args) rf)).
    + by eapply Rstep_ok.
    + rewrite Et1. apply Hc.
    + eapply calm_ok; [apply becomeFollower_calm|left; apply saved_becomeFollower|done].
    + done.
    + by rewrite Er.
    + done.
    + rewrite Ew1. by eexists.
    + rewrite Ei, Eit. by apply (safeBy_extends He1).
    + by apply (safeBy_extends He1).
    + eapply InstallSnapshot_raised; [lia|done].
Qed.

(** ** Every step *)

Theorem nstep_connected F s w w' :
  connected F s w → nstep w w' → ∃ F' s', grows F F' ∧ rtc Rstep s s' ∧ connected F' s' w'.
Proof.
  intros Hc [i rf op rf' Hi Ha H|i rf rf' args Hi H|i rf args rf' v Hi _ H|i rf args v rf' reply Hi Hin H
    |i rf rf' voters Hi Hld Hnd Hmaj Hvt H|i rf j args Hi Hij H|i rf args rf' reply Hi Hin H Hov
    |i rf j args reply rf' Hi Hij Hin Hra H|i rf j Hi Hij Hr|i from rf args rf' reply Hi Hin H
    |i rf j args reply rf' Hi Hin H|i rf Hi].
  - by eapply alone_connected.
  - by eapply stand_connected.
  - by eapply voteRead_connected.
  - by eapply voteGrant_connected.
  - by eapply win_connected.
  - apply same_forest. exists s. split; [done|]. by eapply send_connected.
  - by eapply recv_connected.
  - by eapply answer_connected.
  - apply same_forest. exists s. split; [done|]. by apply sendSnap_connected.
  - by eapply recvSnap_connected.
  - by eapply snapAnswer_connected.
  - apply same_forest. exists s. split; [done|]. by apply restart_connected.
Qed.

(** the command indices of a forest count the commands *)
Definition counts F : Prop := ∀ k t e tp, F !! (k, t) = Some (e, tp) →
  ∃ p, nodeOK F p ∧ nodeOf p = (k - 1, tp) ∧ link F p e.

Lemma grows_counts F F' :
  grows F F' → counts F → F ⊆ F' ∧ counts F'.
Proof.
  intros [->|(p & e & Hp & [Hi Hci] & Hnew & ->)] Hc; [done|].
  assert (F ⊆ grow F p e) as Hs by by apply insert_subseteq. split; [done|].
  intros k t e' tp [(-> & -> & -> & ->)|H]%grow_lookup.
  - exists p. split_and!; [by eapply node_mono|unfold nodeOf; f_equal; lia|].
    split_and!; [done..|]. unfold grow. apply lookup_insert_eq.
  - destruct (Hc _ _ _ _ H) as (q & Hq & Hn & H1 & H2 & H3). exists q.
    split_and!; [by eapply node_mono|done|]. split_and!; [done..|]. by eapply lookup_weaken.
Qed.

Lemma ninit_connected (n : nat) :
  Z.odd (Z.of_nat n) = true → connected ∅ (Rinit n) (ninit n : RaftNet Cmd).
Proof.
  intros Hodd. assert (length (servers (ninit n : RaftNet Cmd)) = n) as Hlen
    by by simpl; rewrite length_fmap, length_seq.
  split; simpl; try by intros ? ?%elem_of_nil.
  - apply Rinit_ok.
  - intros k t. by rewrite !lookup_empty.
  - apply (cinit_ok n).
  - by rewrite length_replicate, length_fmap, length_seq.
  - unfold len. by rewrite length_fmap, length_seq.
  - intros i rf Hi. apply list_lookup_fmap_Some in Hi as (k & -> & [-> Hk]%lookup_seq).
    split; simpl; try done.
    + apply Make_wf. lia.
    + by rewrite length_replicate.
    + by apply lookup_replicate_2.
    + exists root. split_and!; [done|by apply below_refl|by left].
  - by rewrite fmap_empty.
  - by rewrite fmap_empty.
Qed.
End recv.
