(* ===== verification/RaftAgreement.v ===== *)
(** * Package raft: the safety of a cluster

    Every execution without incidents ([RaftNetwork.v]) stays connected to the protocol
    ([RaftProtocol.v]); here is what that means for the peers: one leader per term, the
    leaders have what is committed, and what two peers have committed, now or later, is
    the same. *)

From S2P Require Import Prelude Gob Labgob Labrpc Raft RaftStep RaftPersist RaftLog RaftSafety.
From S2P Require Import RaftElection RaftCommit RaftReplication RaftCluster HarnessKV HarnessRaft.
From S2P Require Import HarnessRaftSpec RaftDelivery RaftProtocol RaftSystem RaftNetwork RaftNetworkStep.
From S2P Require Import RaftNetworkRecv.

Section agreement.
Context {Cmd : Type} `{!GobCodec Z} `{!GobCodec (list (LogEntry Cmd))}.
Implicit Types (rf : Raft Cmd) (w : RaftNet Cmd) (i j : nat) (F : Forest Cmd) (s : Proto).
Implicit Types (e : LogEntry Cmd).

(** the peer has committed [e] at index [k] *)
Definition committedAt rf (k : Z) e : Prop := k ≤ commitIndex rf ∧ entryAt rf k = Some e.

(** an entry up to the commit index is safe *)
Lemma committed_safe F s w i rf k e :
  connected F s w → servers w !! i = Some rf → k ≤ commitIndex rf → entryAt rf k = Some e →
  nodeOf e = (k, LogTerm e) ∧ safeBy s (currentTerm rf) (nodeOf e).
Proof.
  intros Hc Hi Hk He. destruct (at_server _ _ _ _ _ Hc Hi) as (Hso & Hp & _).
  pose proof (p_tree _ (nc_proto _ _ _ Hc)) as Ht. pose proof (so_wf _ _ _ _ Hso) as Hwf.
  destruct (entry_below Ht (nc_tree _ _ _ Hc) Hp Hwf _ _ He) as [Hb Hne]. split; [done|].
  destruct (so_commit _ _ _ _ Hso) as (n & Hn & Hbn & Hsafe).
  eapply (safeBy_below (nc_proto _ _ _ Hc)); [done|]. eapply (below_linear Ht); [done..|].
  rewrite Hne. simpl. lia.
Qed.
(** safe entries with the same index have the same term *)
Lemma same_safe F s w U U' m m' :
  connected F s w → safeBy s U m → safeBy s U' m' → m.1 = m'.1 → m = m'.
Proof.
  intros Hc Hm Hm' Hi. apply (below_same (P:=tree s)); [|done].
  eapply (safe_linear (nc_proto _ _ _ Hc)); [done..|lia].
Qed.

Lemma safe_ordered F s w U U' m m' :
  connected F s w → safeBy s U m → safeBy s U' m' → below (tree s) m m' ∨ below (tree s) m' m.
Proof.
  intros Hc Hm Hm'. pose proof (safe_linear (nc_proto _ _ _ Hc)) as Hl.
  destruct (decide (m.1 ≤ m'.1)); [left; by eapply Hl|right; eapply Hl; [done..|lia]].
Qed.

(** *** Messages for the services *)

(** an entry as it was created *)
Definition stored F e : Prop := ∃ tp, F !! nodeOf e = Some (e, tp).

Lemma stored_node F e : stored F e → nodeOK F e.
Proof. intros [tp H]. right. by exists e, tp. Qed.

Lemma stored_mono F F' e : F ⊆ F' → stored F e → stored F' e.
Proof. intros Hs [tp H]. exists tp. by eapply lookup_weaken. Qed.

Lemma stored_entry F el i rf k e :
  peer_ok F el i rf → entryAt rf k = Some e → lastIncludedIndex rf < k → stored F e.
Proof. intros Hp He Hk. destruct (entry_link _ _ _ _ _ _ Hp He Hk) as (p & _ & _ & _ & H). by eexists. Qed.

(** command indices do not go down along a path *)
Lemma below_counts F (el : gmap Z nat) (P : Tree) (n : node) :
  forest_ok F el → counts F → treeOf F P → tree_ok P → known P n →
  ∀ x e, nodeOK F x → nodeOK F e → nodeOf e = n → below P (nodeOf x) n → CommandIndex x ≤ CommandIndex e.
Proof.
  intros Hf Hcn Ht Htr Hkn. pattern n. revert n Hkn. apply (path_ind Htr).
  - intros x e Hx He Hn Hb. assert (nodeOf x = root) as Hxr.
    { pose proof (below_known Htr _ _ (or_introl eq_refl) Hb) as Hk.
      apply (below_same (P:=P)); [done|]. apply (below_index Htr) in Hb.
      apply (known_index Htr) in Hk. unfold root in *. simpl in *. lia. }
    rewrite <-Hn in Hxr. injection Hxr as ? ?. by rewrite (node_fun F el x e).
  - intros [k t] p Hp IH x e Hx He Hn Hb. pose proof Hn as [= Hne1 Hne2].
    destruct (below_step Htr _ _ _ Hp Hb) as [Heq|Hxp].
    { rewrite <-Hn in Heq. injection Heq as ? ?. by rewrite (node_fun F el x e). }
    rewrite Ht in Hp. destruct (F !! (k, t)) as [[a tp]|] eqn:EF; [|done]. injection Hp as Hp. simpl in Hp.
    destruct (Hcn _ _ _ _ EF) as (q & Hq & Hqn & Hl). rewrite Hp in Hqn.
    pose proof (IH x q Hx Hq Hqn Hxp) as Hle.
    destruct (fo_key _ _ Hf _ _ _ _ EF) as (Hai & Hat & _).
    rewrite <-(node_fun F el a e) by (done || (by eapply link_node) || congruence).
    destruct Hl as (_ & Hci & _). destruct (IsInternalLog a); lia.
Qed.

(** a command further up has a greater command index *)
Lemma command_above F (el : gmap Z nat) (P : Tree) x e :
  forest_ok F el → counts F → treeOf F P → tree_ok P → nodeOK F x → stored F e →
  IsInternalLog e = false → below P (nodeOf x) (nodeOf e) → nodeOf x ≠ nodeOf e →
  CommandIndex x < CommandIndex e.
Proof.
  intros Hf Hcn Ht Htr Hx [tp He] Hint Hb Hne.
  destruct (Hcn _ _ _ _ He) as (q & Hq & Hqn & _ & Hcq & _).
  assert (P !! nodeOf e = Some (nodeOf q)) as Hp.
  { unfold nodeOf at 1. rewrite Ht. unfold nodeOf in He. rewrite He. simpl. by rewrite Hqn. }
  destruct (below_step Htr _ _ _ Hp Hb) as [?|Hbq]; [done|].
  pose proof (below_counts F el P (nodeOf q) Hf Hcn Ht Htr (t_known _ Htr _ _ Hp) x q Hx Hq eq_refl Hbq).
  rewrite Hint in Hcq. lia.
Qed.

(** on a path a command is known by its command index *)
Lemma same_command F (el : gmap Z nat) (P : Tree) e e' :
  forest_ok F el → counts F → treeOf F P → tree_ok P → stored F e → stored F e' →
  IsInternalLog e = false → IsInternalLog e' = false →
  below P (nodeOf e) (nodeOf e') ∨ below P (nodeOf e') (nodeOf e) →
  CommandIndex e = CommandIndex e' → e = e'.
Proof.
  intros Hf Hcn Ht Htr He He' Hi Hi' Hb Hci. destruct (decide (nodeOf e = nodeOf e')) as [Heq|Hne].
  { destruct He as [tp He], He' as [tp' He']. rewrite Heq in He. congruence. }
  exfalso. destruct Hb as [Hb|Hb].
  - apply (command_above F el) in Hb; try done; [lia|by apply stored_node].
  - apply (command_above F el) in Hb; try done; [lia|by apply stored_node].
Qed.

(** *** The network takes the steps of the cluster of [RaftCluster.v] *)

Lemma nstep_cstep F s w w' :
  connected F s w → nstep w w' → toCluster w' = toCluster w ∨ cstep (toCluster w) (toCluster w').
Proof.
  intros Hc Hst. pose proof Hst as Hst'.
  destruct Hst' as [i rf op rf' Hi Ha H|i rf rf' args Hi H|i rf args rf' v Hi _ H|i rf args v rf' reply Hi Hin H
    |i rf rf' voters Hi Hld Hnd Hmaj Hvt H|i rf j args Hi Hij H|i rf args rf' reply Hi Hin H Hov
    |i rf j args reply rf' Hi Hij Hin Hra H|i rf j Hi Hij Hr|i from rf args rf' reply Hi Hin H
    |i rf j args reply rf' Hi Hin H|i rf Hi].
  - right. eapply (cs_own (toCluster w)); [done| |done]. destruct op as [| | | | | | | |[]| | | | | |]; done.
  - right. eapply (cs_own (toCluster w) i rf OpElectionBegin); [done..|]. simpl. by rewrite H.
  - right. eapply (cs_own (toCluster w) i rf (OpRequestVote_read args)); [done..|]. simpl. by rewrite H.
  - right. eapply (cs_own (toCluster w) i rf (OpRequestVote_grant args v)); [done..|]. simpl. by rewrite H.
  - right. eapply (cs_win (toCluster w)); [done| |done]. simpl. apply (unwon _ _ _ _ Hc).
    eapply (win_unwon F s w i); [done..|]. by eapply winners_quorum.
  - right. by eapply (cs_sendEntries (toCluster w)).
  - destruct (Z.ltb_spec (LeaderTerm args) (currentTerm rf)) as [Hlt|Hge].
    + left. unfold AppendEntries in H. rewrite (proj2 (Z.ltb_lt _ _)) in H by done. injection H as <- _.
      unfold toCluster. simpl. by rewrite list_insert_id.
    + right. eapply (cs_recvEntries (toCluster w)); [done| |by eapply sent_pre|done].
      simpl. apply list_elem_of_fmap. by exists (i, args).
  - right. eapply (cs_own (toCluster w) i rf); [done| |exact H]. done.
  - right. by eapply (cs_sendSnapshot (toCluster w)).
  - right. eapply (cs_recvSnapshot (toCluster w)); [done| | |done].
    + simpl. apply list_elem_of_fmap. by exists (from, i, args).
    + destruct (nc_snaps _ _ _ Hc _ Hin) as (b & _ & Hne & _). done.
  - right. eapply (cs_own (toCluster w) i rf); [done| |exact H]. done.
  - right. by apply (cs_restart (toCluster w)).
Qed.

(** what is committed stays *)
Lemma commit_kept F s F' s' w w' i rf rf' :
  connected F s w → connected F' s' w' → extends s s' →
  servers w !! i = Some rf → servers w' !! i = Some rf' → commitKept rf rf'.
Proof.
  intros Hc Hc' He Hi Hi'. destruct (at_server _ _ _ _ _ Hc' Hi') as (Hso' & Hp' & _).
  pose proof (so_wf _ _ _ _ Hso') as Hwf'. pose proof (nc_proto _ _ _ Hc') as Hok'.
  split; [apply Hwf'|]. intros [Hlo Hle] e Hen.
  destruct (committed_safe _ _ _ _ _ _ _ Hc Hi (Z.le_refl _) Hen) as [Hn Hs].
  apply (safeBy_extends He) in Hs. destruct (so_commit _ _ _ _ Hso') as (n' & Hn' & Hb' & Hs').
  assert (below (tree s') (nodeOf e) (lastNode rf')) as Hb.
  { eapply (below_trans (p_tree _ Hok')); [|done]. eapply (safe_linear Hok'); [done..|].
    rewrite Hn. simpl. lia. }
  destruct (below_entry (p_tree _ Hok') (nc_tree _ _ _ Hc') Hp' Hwf' _ Hb) as (e' & He' & Hne');
    rewrite Hn in *; simpl in *; [done|].
  exists e'. split; [done|]. by injection Hne'.
Qed.

(** where a message for a service comes from: a safe command, or the end of a snapshot *)
Definition origin F s (m : ApplyMsg Cmd) e : Prop :=
  nodeOK F e ∧ (∃ U, safeBy s U (nodeOf e))
  ∧ if am_CommandValid m then stored F e ∧ IsInternalLog e = false ∧ m = commandMsg e
    else am_LastIncludedIndex m = LogIndex e ∧ am_LastIncludedCmdIndex m = CommandIndex e.

Definition issued F s rf : Prop := ∀ m, m ∈ applyChan rf → ∃ e, origin F s m e.

Lemma issued_mono F F' s s' rf : F ⊆ F' → extends s s' → issued F s rf → issued F' s' rf.
Proof.
  intros Hs He H m Hm. destruct (H m Hm) as (e & Hn & (U & Hu) & Ho). exists e.
  split_and!; [by eapply node_mono|exists U; by apply (safeBy_extends He)|].
  case_match; [|done]. destruct Ho as (? & ? & ?). split_and!; [by eapply stored_mono|done..].
Qed.

Lemma between_entry rf lo hi e :
  lastIncludedIndex rf ≤ lo → e ∈ entriesBetween rf lo hi → ∃ k, lo < k ≤ hi ∧ entryAt rf k = Some e.
Proof.
  intros Hlo [p Hp]%list_elem_of_lookup_1. unfold entriesBetween in Hp.
  apply lookup_take_Some in Hp as [Hp Hlt]. rewrite lookup_drop in Hp.
  exists (lo + 1 + Z.of_nat p). split; [lia|]. apply entryAt_Some. split; [lia|]. rewrite <-Hp. f_equal. lia.
Qed.

(** the messages that a step adds come from the log, or from the snapshot *)
Lemma new_messages rf rf' m :
  relogged rf rf' ∨ fromSnapshot rf rf' → lastIncludedIndex rf ≤ commitIndex rf →
  m ∈ applyChan rf' →
  m ∈ applyChan rf ∨ m = snapshotMsg rf'
  ∨ ∃ k e, lastIncludedIndex rf' < k ≤ commitIndex rf' ∧ entryAt rf' k = Some e
      ∧ IsInternalLog e = false ∧ m = commandMsg e.
Proof.
  intros H Hli Hm. destruct H as [[[[_ Ea] _]|[Ei (_ & _ & _ & Ha & _)]]|(_ & msgs & Hms & Ea)].
  - left. by rewrite Ea in Hm.
  - rewrite Ha in Hm. apply elem_of_app in Hm as [Hm|Hm]; [by left|right; right].
    apply list_elem_of_fmap in Hm as (e & -> & [Hin He]%list_elem_of_filter).
    apply (between_entry rf') in He as (k & Hk & He); [|simpl; lia]. simpl in Hk.
    exists k, e. split_and!; [lia..|done|done|done].
  - rewrite Ea in Hm. apply elem_of_app in Hm as [Hm|Hm%list_elem_of_singleton]; [left|by right; left].
    destruct Hms as [->| ->]; [by apply elem_of_nil in Hm|done].
Qed.

Lemma snapshot_origin F s w i rf :
  connected F s w → servers w !! i = Some rf → ∃ e, origin F s (snapshotMsg rf) e.
Proof.
  intros Hc Hi. destruct (at_server _ _ _ _ _ Hc Hi) as (_ & Hp & _).
  destruct (po_head _ _ _ _ Hp) as (e & He & Hie & Hte & Hce). exists e. split_and!.
  - by apply (po_chain _ _ _ _ Hp).
  - eexists. unfold nodeOf. rewrite Hie, Hte. by eapply snapshot_safe.
  - done.
Qed.

Lemma committed_origin F s w i rf k e :
  connected F s w → servers w !! i = Some rf → lastIncludedIndex rf < k ≤ commitIndex rf →
  entryAt rf k = Some e → IsInternalLog e = false → origin F s (commandMsg e) e.
Proof.
  intros Hc Hi [Hlo Hk] He Hint. destruct (committed_safe _ _ _ _ _ _ _ Hc Hi Hk He) as [_ Hsafe].
  assert (stored F e) as Hst by (eapply stored_entry; [|done..]; by eapply (at_server F s w)).
  split_and!; [by apply stored_node|by eexists|done..].
Qed.

Record delivering F s w : Prop := {
  dl_connected : connected F s w;
  dl_counts : counts F;
  dl_servers : ∀ i rf, servers w !! i = Some rf → delivered rf ∧ issued F s rf;
}.

Lemma nstep_delivering F s w w' :
  delivering F s w → nstep w w' → ∃ F' s', F ⊆ F' ∧ extends s s' ∧ delivering F' s' w'.
Proof.
  intros [Hc Hcn Hsv] Hst. destruct (nstep_connected _ _ _ _ Hc Hst) as (F' & s' & Hg & Hsts & Hc').
  destruct (grows_counts _ _ Hg Hcn) as [Hs Hcn'].
  pose proof (proj2 (Rsteps_ok _ _ (nc_proto _ _ _ Hc) Hsts)) as He.
  exists F', s'. split_and!; [done..|]. split; [done..|]. intros i rf' Hi'.
  destruct (nstep_cstep _ _ _ _ Hc Hst) as [Heq|Hcst].
  { assert (servers w !! i = Some rf') as Hi by (injection Heq as Hsw _ _ _; by rewrite <-Hsw).
    destruct (Hsv i rf' Hi). split; [done|by eapply issued_mono]. }
  assert (is_Some (servers w !! i)) as [rf Hi].
  { apply lookup_lt_is_Some. rewrite <-(nc_length _ _ _ Hc). destruct He as (_ & _ & _ & _ & <-).
    rewrite (nc_length _ _ _ Hc'). by eapply lookup_lt_Some. }
  destruct (Hsv i rf Hi) as [Hd Hiss].
  split.
  - eapply (kstep_delivered F (toCluster w) (toCluster w')); [apply Hc| |by intros; eapply Hsv|done].
    split; [done|]. intros j r r' Hj Hj'. exact (commit_kept _ _ _ _ _ _ _ _ _ Hc Hc' He Hj Hj').
  - intros m Hm.
    assert (lastIncludedIndex rf ≤ commitIndex rf) as Hli by apply (nc_servers _ _ _ Hc i rf Hi).
    destruct (new_messages rf rf' m) as [Hold|[->|(k & e & Hk & Hen & Hint & ->)]]; [|done..| | |].
    + eapply (cstep_progress F (toCluster w) (toCluster w')); [apply Hc|done..].
    + by eapply (issued_mono F F' s s').
    + by eapply snapshot_origin.
    + exists e. by eapply committed_origin.
Qed.

Lemma nsteps_delivering F s w w' :
  delivering F s w → rtc nstep w w' → ∃ F' s', F ⊆ F' ∧ extends s s' ∧ delivering F' s' w'.
Proof.
  intros Hd Hst. revert F s Hd. induction Hst as [w|w w1 w2 H _ IH]; intros F s Hd; [by exists F, s|].
  destruct (nstep_delivering _ _ _ _ Hd H) as (F1 & s1 & ? & ? & Hd1).
  destruct (IH _ _ Hd1) as (F2 & s2 & ? & ? & Hd2). exists F2, s2. split_and!; [by etrans..|done].
Qed.

Lemma ninit_delivering (n : nat) :
  Z.odd (Z.of_nat n) = true → delivering ∅ (Rinit n) (ninit n : RaftNet Cmd).
Proof.
  intros Hodd. split; [by apply ninit_connected|done|]. intros i rf Hi.
  apply list_lookup_fmap_Some in Hi as (k & -> & _). split; [apply boot_delivered|].
  intros m Hm. simpl in Hm. apply list_elem_of_singleton in Hm as ->.
  exists (sentinel 0 0 0). split_and!; [by left|exists 0; by left|done].
Qed.

(** two moments of an execution, the second after the first *)
Lemma two_moments n w w' :
  Z.odd (Z.of_nat n) = true → rtc nstep (ninit n) w → rtc nstep w w' →
  ∃ F s F' s', F ⊆ F' ∧ extends s s' ∧ delivering F s w ∧ delivering F' s' w'.
Proof.
  intros Hodd H1 H2.
  destruct (nsteps_delivering _ _ _ _ (ninit_delivering n Hodd) H1) as (F & s & _ & _ & Hd).
  destruct (nsteps_delivering _ _ _ _ Hd H2) as (F' & s' & ? & ? & Hd'). by exists F, s, F', s'.
Qed.
Lemma nsteps_size n w : rtc nstep (ninit n) w → length (servers w) = n.
Proof.
  intros Hr. assert (∀ w0, rtc nstep w0 w → length (servers w) = length (servers w0)) as H.
  { clear. induction 1 as [w|w w1 w2 Hst _ ->]; [done|]. destruct Hst; simpl; by rewrite ?length_insert. }
  rewrite (H _ Hr). simpl. by rewrite length_fmap, length_seq.
Qed.

(** ** The safety of Raft *)

(** what two peers have committed at one index, now and later *)
Lemma committed_agree n w w' i j rf rf' k e e' :
  Z.odd (Z.of_nat n) = true → rtc nstep (ninit n) w → rtc nstep w w' →
  servers w !! i = Some rf → servers w' !! j = Some rf' →
  committedAt rf k e → committedAt rf' k e' →
  LogTerm e = LogTerm e' ∧ CommandIndex e = CommandIndex e'
  ∧ (lastIncludedIndex rf < k → lastIncludedIndex rf' < k → e = e').
Proof.
  intros Hodd Hr Hr' Hi Hj [Hk He] [Hk' He'].
  destruct (two_moments n w w' Hodd Hr Hr') as (F & s & F' & s' & Hs & Hex & [Hc _ _] & [Hc' _ _]).
  destruct (committed_safe _ _ _ _ _ _ _ Hc Hi Hk He) as [Hn Hsafe].
  destruct (committed_safe _ _ _ _ _ _ _ Hc' Hj Hk' He') as [Hn' Hsafe'].
  pose proof (same_safe _ _ _ _ _ _ _ Hc' (safeBy_extends Hex _ _ Hsafe) Hsafe') as Hnode.
  rewrite Hn, Hn' in Hnode. specialize (Hnode eq_refl). injection Hnode as Ht.
  pose proof (peer_mono _ F' _ (leaders w') _ _ Hs (proj1 (proj2 (at_server _ _ _ _ _ Hc Hi)))) as Hp.
  destruct (at_server _ _ _ _ _ Hc' Hj) as (_ & Hp' & _). split_and!; [done| |].
  - destruct (entry_place _ _ _ _ _ _ Hp He), (entry_place _ _ _ _ _ _ Hp' He').
    eapply node_fun; [apply Hc'|done..|congruence|done].
  - intros Hlo Hlo'. by destruct (entry_same F' (leaders w') i j (set_role FOLLOWER rf) rf' k e e') as [? _].
Qed.

(** a leader has what was committed, and a term has one leader *)
Lemma leader_complete n w w' i j rf rf' k e :
  Z.odd (Z.of_nat n) = true → rtc nstep (ninit n) w → rtc nstep w w' →
  servers w !! i = Some rf → servers w' !! j = Some rf' →
  role rf' = LEADER → currentTerm rf ≤ currentTerm rf' →
  committedAt rf k e →
  k ≤ lastLogIndex rf'
  ∧ (lastIncludedIndex rf' ≤ k → ∃ e', entryAt rf' k = Some e' ∧ LogTerm e' = LogTerm e
       ∧ CommandIndex e' = CommandIndex e)
  ∧ (role rf = LEADER → currentTerm rf = currentTerm rf' → i = j).
Proof.
  intros Hodd Hr Hr' Hi Hj Hl Hle [Hk He].
  destruct (two_moments n w w' Hodd Hr Hr') as (F & s & F' & s' & Hs & Hex & [Hc _ _] & [Hc' _ _]).
  destruct (at_server _ _ _ _ _ Hc Hi) as (Hso & Hp & _).
  destruct (at_server _ _ _ _ _ Hc' Hj) as (Hso' & Hp' & _).
  pose proof (nc_proto _ _ _ Hc') as Hok'. pose proof (so_wf _ _ _ _ Hso') as Hwf'.
  destruct (committed_safe _ _ _ _ _ _ _ Hc Hi Hk He) as [Hn Hsafe].
  destruct (so_leader _ _ _ _ Hso' Hl) as (b & l & Hw & _ & Hack & _).
  pose proof (safeBy_mono _ _ _ (safeBy_extends Hex _ _ Hsafe) Hle) as Hsafe'.
  pose proof (safeBy_onPath Hok' _ _ _ _ Hsafe' Hw) as Hon. destruct (p_ack _ Hok' _ _ _ Hack) as (Htop & _).
  pose proof (own_entries _ _ _ _ _ _ Hc' Hj Hl Hon) as Hkl. rewrite Hn in Hkl. simpl in Hkl.
  split_and!; [done| |].
  - intros Hlo. assert (below (tree s') (nodeOf e) (lastNode rf')) as Hb.
    { eapply (onPath_linear Hok'); [done..|]. rewrite Hn, (lastNode_index _ Hwf'). done. }
    destruct (below_entry (p_tree _ Hok') (nc_tree _ _ _ Hc') Hp' Hwf' _ Hb) as (e' & He' & Hne');
      rewrite Hn in *; simpl in *; [done|].
    injection Hne' as Hie' Hte'. exists e'. split_and!; [done..|].
    pose proof (peer_mono _ F' _ (leaders w') _ _ Hs Hp) as Hpm.
    destruct (entry_place _ _ _ _ _ _ Hpm He), (entry_place _ _ _ _ _ _ Hp' He').
    eapply node_fun; [apply Hc'|done..|congruence|done].
  - intros Hr0 Ht. destruct (so_leader _ _ _ _ Hso Hr0) as (b0 & l0 & Hw0 & _).
    apply (won_extends Hex) in Hw0. congruence.
Qed.
(** *** What the services see *)

(** two messages for services, at any two moments, with the same command index *)
Lemma messages_agree n w w' i j rf rf' m m' :
  Z.odd (Z.of_nat n) = true → rtc nstep (ninit n) w → rtc nstep w w' →
  servers w !! i = Some rf → servers w' !! j = Some rf' → m ∈ applyChan rf → m' ∈ applyChan rf' →
  am_CommandValid m = true → am_CommandValid m' = true → am_CommandIndex m = am_CommandIndex m' → m = m'.
Proof.
  intros Hodd Hr Hr' Hi Hj Hm Hm' Hv Hv' Hci.
  destruct (two_moments n w w' Hodd Hr Hr') as (F & s & F' & s' & Hs & Hex & [_ _ Hsv] & [Hc' Hcn' Hsv']).
  destruct (issued_mono F F' s s' rf Hs Hex (proj2 (Hsv i rf Hi)) m Hm) as (e & _ & (U & Hsafe) & Ho).
  destruct (proj2 (Hsv' j rf' Hj) m' Hm') as (e' & _ & (U' & Hsafe') & Ho').
  rewrite Hv in Ho. rewrite Hv' in Ho'. destruct Ho as (Hst & Hint & ->), Ho' as (Hst' & Hint' & ->).
  f_equal. eapply (same_command F' (leaders w') (tree s')); try done;
    [apply (nc_cluster _ _ _ Hc')|apply Hc'|apply (nc_proto _ _ _ Hc')|].
  eapply (safe_ordered F' s' w'); [done|exact Hsafe|exact Hsafe'].
Qed.

Context `{!EqDecision Cmd}.
Implicit Types obs : list (Z * ApplyMsg Cmd).

(** the messages of one server *)
Definition ofServer (z : Z) obs : list (Z * ApplyMsg Cmd) := filter (λ x, x.1 = z) obs.

Lemma ofServer_pairs z obs : (z,.) <$> (ofServer z obs).*2 = ofServer z obs.
Proof.
  unfold ofServer. induction obs as [|[y m] obs IH]; [done|]. rewrite filter_cons. simpl.
  destruct (decide (y = z)) as [Heq|]; simpl; [|done]. subst y. f_equal. exact IH.
Qed.

(** order is a matter of each server *)
Lemma inOrder_servers obs :
  (∀ z m, (z, m) ∈ obs → inOrder (ofServer z obs)) → inOrder obs.
Proof.
  intros H p i m q -> Hv Hk. destruct (H i m ltac:(set_solver) (ofServer i p) i m (ofServer i q)) as [v Hd]; [|done..|].
  - unfold ofServer. rewrite filter_app, filter_cons_True; done.
  - exists v. destruct Hd as (m' & [_ Hin]%list_elem_of_filter & Hm'). by exists m'.
Qed.

(** the messages of a peer, of two peers, and what the readers of the tests make of them *)
Lemma messages_ok n w :
  Z.odd (Z.of_nat n) = true → rtc nstep (ninit n) w →
  (∀ i rf, servers w !! i = Some rf →
     ∃ e, entryAt rf (commitIndex rf) = Some e
       ∧ follow 0 (applyChan rf) = Some (CommandIndex e)
       ∧ commandMsgs (entriesBetween rf (lastIncludedIndex rf) (commitIndex rf)) `suffix_of` applyChan rf)
  ∧ (∀ w' i j rf rf' m m', rtc nstep w w' → servers w !! i = Some rf → servers w' !! j = Some rf' →
       m ∈ applyChan rf → m' ∈ applyChan rf' → am_CommandValid m = true → am_CommandValid m' = true →
       am_CommandIndex m = am_CommandIndex m' → m = m')
  ∧ ∀ obs, (∀ z m, (z, m) ∈ obs → (am_CommandValid m = false → am_LastIncludedCmdIndex m = 0)
              ∧ ∃ i rf, z = Z.of_nat i ∧ servers w !! i = Some rf
                  ∧ (ofServer z obs).*2 `prefix_of` applyChan rf) →
      ∃ logs, applierRun obs (replicate n ∅, 0) = Ret logs.
Proof.
  intros Hodd Hr. destruct (two_moments n w w Hodd Hr ltac:(done)) as (F & s & _ & _ & _ & _ & [Hc _ Hsv] & _).
  split_and!.
  - intros i rf Hi. apply (Hsv i rf Hi).
  - intros w' i j rf rf' m m' Hr'. by eapply messages_agree.
  - intros obs Hobs. assert (∀ z m, (z, m) ∈ obs → ∃ i rf, z = Z.of_nat i ∧ servers w !! i = Some rf
      ∧ m ∈ applyChan rf) as Hin.
    { intros z m Hm. destruct (Hobs z m Hm) as (_ & i & rf & ? & ? & [q Hq]). exists i, rf.
      split_and!; [done..|]. rewrite Hq. apply elem_of_app. left. apply list_elem_of_fmap.
      exists (z, m). split; [done|]. by apply list_elem_of_filter. }
    apply applierRun_spec.
    + intros z z' k v v' (m & Hm & Hv & Hk & <-) (m' & Hm' & Hv' & Hk' & <-).
      destruct (Hin z m Hm) as (i & rf & _ & Hi & Hmi), (Hin z' m' Hm') as (j & rf' & _ & Hj & Hmj).
      f_equal. eapply (messages_agree n w w i j); try done. congruence.
    + apply inOrder_servers. intros z m Hm. destruct (Hobs z m Hm) as (_ & i & rf & -> & Hi & [q Hq]).
      destruct (proj1 (Hsv i rf Hi)) as (e & _ & Hf & _). rewrite Hq, follow_app in Hf.
      destruct (follow 0 (ofServer (Z.of_nat i) obs).*2) as [b|] eqn:Eb; [|done].
      rewrite <-ofServer_pairs. apply (follow_inOrder _ _ b Eb).
      intros m' ([z' m''] & -> & [_ Hm']%list_elem_of_filter)%list_elem_of_fmap. by apply (Hobs z' m'').
    + intros z m Hm _. destruct (Hin z m Hm) as (i & rf & -> & Hi & _).
      apply lookup_lt_Some in Hi. rewrite <-(nc_length _ _ _ Hc) in Hi.
      enough (length (peerAt s) = n) by lia.
      by rewrite (nc_length _ _ _ Hc), (nsteps_size n w Hr).
Qed.
End agreement.
