(* ===== verification/RaftClusterSafety.v ===== *)
(** * Package raft: the safety of the running cluster

    The executions of [RaftSystem.v] that note no incident take the steps of
    [RaftNetwork.v], so [RaftAgreement.v] applies to them.  The incidents are excluded in
    the statements; [RaftAgreementWitness.v] and [RaftClusterWitness.v] have executions
    with one incident in which the conclusions fail. *)

From S2P Require Import Prelude Gob Labgob Labrpc Raft RaftStep RaftPersist RaftLog RaftSafety.
From S2P Require Import RaftElection RaftCommit RaftCluster HarnessKV HarnessRaft HarnessRaftSpec.
From S2P Require Import RaftDelivery RaftProtocol RaftSystem RaftNetwork RaftNetworkStep RaftAgreement.

Section safety.
Context {Cmd : Type} `{!GobCodec Z} `{!GobCodec (list (LogEntry Cmd))}.
Implicit Types (rf : Raft Cmd) (s : System Cmd) (w : RaftNet Cmd) (i j : nat) (e : LogEntry Cmd).

(** the counter counts the backers, each of which was heard once *)
Record round_ok (n : Z) (r : ElectionRound) : Prop := {
  ro_nodup : NoDup (backers r);
  ro_count : getVote r = len (backers r);
  ro_heard : ∀ v, v ∈ backers r → v = cand r ∨ v ∈ heard r;
  ro_win : verdict r = Some Win → Z.quot (n + 1) 2 ≤ len (backers r);
}.

(** an execution without incidents, through the steps of [RaftNetwork.v] *)
Record tracked (n : nat) s : Prop := {
  tk_steps : rtc nstep (ninit n) (net s);
  tk_reads : ∀ i args v, (i, args, v) ∈ reads s → args ∈ requests (net s);
  tk_rounds : ∀ r, r ∈ rounds s → round_ok (Z.of_nat n) r;
  tk_wins : NoDup (wins s).*1;
  tk_leaders : ∀ T, T ∈ (wins s).*1 → is_Some (leaders (net s) !! T);
}.

Lemma tracked_init n : tracked n (sysInit n).
Proof. split; simpl; try done; try (by intros ? ?%elem_of_nil); [|constructor]. by intros ? ? ? ?%elem_of_nil. Qed.

Context (n : nat) (Hodd : Z.odd (Z.of_nat n) = true).

Lemma tracked_connected s : tracked n s → ∃ F P, connected F P (net s).
Proof using Hodd.
  intros Ht. destruct (nsteps_delivering _ _ _ _ (ninit_delivering n Hodd) (tk_steps _ _ Ht))
    as (F & P & _ & _ & [Hc _ _]). by exists F, P.
Qed.

Lemma tracked_peers s i rf : tracked n s → servers (net s) !! i = Some rf → peers rf = Z.of_nat n.
Proof using Hodd.
  intros Ht Hi. destruct (tracked_connected s Ht) as (F & P & Hc).
  destruct (so_id _ _ _ _ (nc_servers _ _ _ Hc i rf Hi)) as [_ ->].
  by rewrite (nc_length _ _ _ Hc), (nsteps_size n _ (tk_steps _ _ Ht)).
Qed.

(** *** Rounds *)

Lemma begin_round i args : round_ok (Z.of_nat n) (mkRound i args [] [i] 1 None).
Proof.
  split; simpl; [by apply NoDup_singleton|done| |done].
  intros v ->%list_elem_of_singleton. by left.
Qed.

Lemma countReply_ok r j reply rf :
  peers rf = Z.of_nat n → round_ok (Z.of_nat n) r → j ∉ heard r → j ≠ cand r →
  round_ok (Z.of_nat n) (countReply r j reply rf).
Proof using Type.
  intros Hp [Hnd Hc Hh _] Hj Hjc. unfold countReply, StartElection_count, majority. rewrite Hp.
  assert (j ∉ backers r) as Hb by (intros ?%Hh; naive_solver).
  assert (len (j :: backers r) = len (backers r) + 1) as Hl by (unfold len; simpl; lia).
  assert (∀ v, v ∈ backers r → v = cand r ∨ v ∈ j :: heard r) as Hh'
    by (intros v [?|?]%Hh; [by left|right; by right]).
  assert (∀ v, v ∈ j :: backers r → v = cand r ∨ v ∈ j :: heard r) as Hh''
    by (intros v [->|?]%elem_of_cons; [right; by left|by apply Hh']).
  assert (NoDup (j :: backers r)) by by apply NoDup_cons.
  destruct (VoteGranted reply).
  - destruct (Z.leb_spec (Z.quot (Z.of_nat n + 1) 2) (getVote r + 1)); split; simpl; try done; try lia.
  - repeat case_match; split; done || by simplify_eq.
Qed.

(** *** A win *)

Lemma voidVotes_nil i T voters w :
  voidVotes i T voters w = [] → ∀ v, v ∈ voters → votes w !! (v, T) = Some i.
Proof.
  intros H v Hv. apply dec_stable. intros Hne. apply (not_elem_of_nil v). rewrite <-H.
  by apply list_elem_of_filter.
Qed.

Lemma win_nstep s r rf rf' :
  tracked n s → r ∈ rounds s → verdict r = Some Win → servers (net s) !! cand r = Some rf →
  becomeLeader rf = Ret rf' → decideIncidents r Win rf (net s) = [] →
  let w := net s in leaders w !! currentTerm rf = None
  ∧ nstep w (mkNetwork (<[cand r := rf']> (servers w)) (requests w) (sent w) (answers w)
      (snaps w) (snapAnswers w) (votes w) (<[currentTerm rf := cand r]> (leaders w))).
Proof using Hodd.
  intros Ht Hr Hv Hi H Hinc w. destruct (tk_rounds _ _ Ht r Hr) as [Hnd _ _ Hwin].
  apply app_eq_nil in Hinc as [Hvoid Htwice]. apply fmap_nil_inv in Hvoid.
  assert (leaders w !! currentTerm rf ≠ Some (cand r)) as Hl
    by (intros E; unfold noteIf in Htwice; by rewrite bool_decide_true in Htwice).
  assert (majority rf ≤ len (backers r)) as Hm
    by (unfold majority; rewrite (tracked_peers s _ _ Ht Hi); by apply Hwin).
  pose proof (voidVotes_nil _ _ _ _ Hvoid) as Hvotes.
  destruct (tracked_connected s Ht) as (F & P & Hc). split.
  - apply (unwon F P); [done|]. eapply (win_unwon F P w (cand r)); [done..|]. by eapply winners_quorum.
  - by eapply (n_win w (cand r) rf rf' (backers r)).
Qed.

(** *** A step *)

#[local] Arguments exec : simpl never.

Lemma alone_nsteps s i op rf rf' :
  servers (net s) !! i = Some rf → isAlone op = true → exec op rf = Ret rf' →
  aloneIncidents i op rf = [] → rtc nstep (net s) (setRaft i rf' (net s)).
Proof using Type.
  intros Hi Ho H Hinc.
  assert (rf' = rf → rtc nstep (net s) (setRaft i rf' (net s))) as Hid.
  { intros ->. unfold setRaft. rewrite list_insert_id by done. by destruct (net s). }
  assert (alone op rf → rtc nstep (net s) (setRaft i rf' (net s))) as Hal
    by (intros; apply rtc_once; by eapply (n_alone (net s))).
  destruct op as [| | | |snap li| | | | | | | | |peer args []|peer args []]; try done;
    try (by apply Hal); try (by apply Hid; unfold exec in H; simpl in H; injection H).
  apply Hal. simpl in *. unfold noteIf in Hinc. case_match; [done|lia].
Qed.

Lemma suffix_calm (l l' : list Incident) : l ++ l' = [] → l = [].
Proof. by intros [-> _]%app_eq_nil. Qed.

(** a decision is carried out *)
Lemma decide_nstep x s s' :
  tracked n s → sysExec (Decide x) s = Some s' → incidents s' = [] →
  nstep (net s) (net s')
  ∧ NoDup (wins s').*1 ∧ ∀ T, T ∈ (wins s').*1 → is_Some (leaders (net s') !! T).
Proof using Hodd.
  intros Ht H Hinc.
  destruct (Decide_inv _ _ _ H) as (r & rf & d & rf' & Hr & Hi & Hd & H' & Ei & _ & _ & -> & ->).
  rewrite Hinc in Ei. symmetry in Ei. apply suffix_calm in Ei. pose proof (tk_leaders _ _ Ht) as Hl.
  destruct (decide (d = Win)) as [->|Hne].
  - rewrite bool_decide_true by done. apply list_elem_of_lookup_2 in Hr.
    destruct (win_nstep s r rf rf') as [Hnew Hst]; try done. split_and!; [done| |]; simpl.
    + apply NoDup_cons. split; [|apply Ht]. intros [? ?]%Hl. congruence.
    + intros T [->|HT]%elem_of_cons; [by rewrite lookup_insert_eq|].
      destruct (decide (T = currentTerm rf)) as [->|]; [by rewrite lookup_insert_eq|].
      rewrite lookup_insert_ne by done. by apply Hl.
  - rewrite bool_decide_false by done. split_and!; [|apply Ht|done].
    apply (n_alone (net s) (cand r) rf (OpElectionDecide d)); [done| |done].
    destruct d as [| |t]; try done. simpl in *. unfold noteIf in Ei. case_match; [done|lia].
Qed.

Lemma sysExec_nsteps ev s s' :
  tracked n s → sysExec ev s = Some s' → incidents s' = [] → rtc nstep (net s) (net s').
Proof using Hodd.
  intros Ht H Hinc. destruct ev as [i op|i|i k|k|x k|x|x|x|i j|k|k|i j|k|k|i].
  6: { destruct (decide_nstep x s s' Ht H Hinc). by apply rtc_once. }
  10: { apply Reply_inv in H as (i & j & args & reply & rf & rf' & Hin & Hi & Hij & H & ->).
    simpl in Hinc. unfold noteIf in Hinc. case_bool_decide; [done|]. by eapply rtc_once, n_answer. }
  all: sys_inv H; try done; simpl in Hinc.
  { apply suffix_calm in Hinc. by eapply alone_nsteps. }
  all: eapply rtc_once.
  - by eapply n_stand.
  - eapply n_voteRead; eauto using list_elem_of_lookup_2.
  - eapply n_voteGrant; [done| |done].
    eapply (tk_reads _ _ Ht). by eapply list_elem_of_lookup_2.
  - by eapply (n_alone (net s) _ _ OpElectionHeartBeat).
  - by eapply n_send.
  - eapply n_recv; eauto using list_elem_of_lookup_2. apply suffix_calm, suffix_calm in Hinc.
    intros Hs. rewrite Hs in Hinc. unfold noteIf in Hinc. by destruct (overtaken _ _).
  - by eapply n_sendSnap.
  - eapply n_recvSnap; eauto using list_elem_of_lookup_2.
  - eapply n_snapAnswer; eauto using list_elem_of_lookup_2.
  - by eapply n_restart.
Qed.

Lemma reads_kept ev s s' :
  sysExec ev s = Some s' → (∀ i args v, (i, args, v) ∈ reads s → args ∈ requests (net s)) →
  ∀ i args v, (i, args, v) ∈ reads s' → args ∈ requests (net s').
Proof using Type.
  intros H Hr. destruct ev; sys_inv H; simpl; try exact Hr.
  - intros i1 args1 v1 Hin. right. by eapply Hr.
  - intros i1 args1 v1 [[= -> -> ->]|?]%elem_of_cons; [by eapply list_elem_of_lookup_2|by eapply Hr].
  - intros i1 args1 v1 Hin%list_elem_of_delete_inv. by eapply Hr.
  - intros i1 args1 v1 [_ Hin]%list_elem_of_filter. by eapply Hr.
Qed.

Lemma rounds_kept ev s s' :
  tracked n s → sysExec ev s = Some s' → ∀ r, r ∈ rounds s' → round_ok (Z.of_nat n) r.
Proof using Hodd.
  intros Ht H. pose proof (tk_rounds _ _ Ht) as Hr. destruct ev; sys_inv H; simpl; try exact Hr;
    try (by intros r1 ?%list_elem_of_delete_inv; apply Hr).
  - intros r1 [->|?]%elem_of_cons; [apply begin_round|by apply Hr].
  - intros r1 [y Hy]%list_elem_of_lookup_1.
    apply list_lookup_insert_Some in Hy as [(_ & <- & _)|[_ Hy]]; [|by eapply Hr, list_elem_of_lookup_2].
    apply countReply_ok; [by eapply tracked_peers|by eapply Hr, list_elem_of_lookup_2|done..].
  - intros r1 [_ ?]%list_elem_of_filter. by apply Hr.
Qed.

Lemma wins_kept ev s s' :
  tracked n s → sysExec ev s = Some s' → incidents s' = [] →
  NoDup (wins s').*1 ∧ ∀ T, T ∈ (wins s').*1 → is_Some (leaders (net s') !! T).
Proof using Hodd.
  intros Ht H Hinc. destruct ev as [| | | | |x| | | | | | | | |].
  6: by apply (decide_nstep x s s').
  all: pose proof (conj (tk_wins _ _ Ht) (tk_leaders _ _ Ht)) as Hw; clear Hinc; sys_inv H; exact Hw.
Qed.

Lemma sysExec_tracked ev s s' :
  tracked n s → sysExec ev s = Some s' → incidents s' = [] → tracked n s'.
Proof using Hodd.
  intros Ht H Hinc. destruct (wins_kept _ _ _ Ht H Hinc). split; try done.
  - etrans; [apply Ht|by eapply sysExec_nsteps].
  - eapply reads_kept; [done|apply Ht].
  - by eapply rounds_kept.
Qed.

Lemma sysRun_tracked evs s s' :
  tracked n s → sysRun evs s = Some s' → incidents s' = [] →
  tracked n s' ∧ rtc nstep (net s) (net s').
Proof using Hodd.
  revert s. induction evs as [|ev evs IH]; cbn [sysRun]; intros s Ht H Hinc; [by injection H as <-|].
  destruct (sysExec ev s) as [s1|] eqn:Hev; [|done]. simpl in H.
  pose proof (sysRun_calm _ _ _ H Hinc) as Hinc1.
  destruct (IH s1) as [Ht' Hst]; [by eapply sysExec_tracked|done..|]. split; [done|].
  etrans; [by eapply sysExec_nsteps|done].
Qed.

(** two moments of an execution without incidents *)
Lemma calm_moments evs s evs' s' :
  sysRun evs (sysInit n) = Some s → sysRun evs' s = Some s' → incidents s' = [] →
  tracked n s ∧ tracked n s' ∧ rtc nstep (ninit n) (net s) ∧ rtc nstep (net s) (net s').
Proof using Hodd.
  intros H H' Hinc. pose proof (sysRun_calm _ _ _ H' Hinc) as Hinc1.
  destruct (sysRun_tracked _ _ _ (tracked_init n) H Hinc1) as [Ht Hr].
  by destruct (sysRun_tracked _ _ _ Ht H' Hinc) as [Ht' Hr'].
Qed.
End safety.

Section claims.
Context {Cmd : Type} `{!GobCodec Z} `{!GobCodec (list (LogEntry Cmd))}.
Implicit Types (rf : Raft Cmd) (s : System Cmd) (i j : nat) (e : LogEntry Cmd).

(** C5: State Machine Safety.  Take any execution of a cluster with an odd number of peers
    ([sysExec]: elections, messages lost, duplicated, delayed and reordered, snapshots,
    crashes and restarts) in which no incident is noted, that is: no snapshot is taken of
    entries that are not committed; no election is won with a vote that does not count
    (given when the voter's term or log had changed since it read the request, or as a
    second vote in a term that had been won), nor twice by the same peer; no reply takes a
    peer's term back or leaves it and clears the vote; no AppendEntries request is accepted
    when the receiver already has its last entry and more; no snapshot is sent by a peer
    that has stopped leading, and none is contradicted by a request.  Then the entries that
    two peers have committed at the same log index, the one now and the other now or later,
    have the same term and the same command index, and are equal unless one is the end of a
    snapshot. *)
Theorem state_machine_safety n evs s evs' s' i j rf rf' k e e' :
  Z.odd (Z.of_nat n) = true →
  sysRun evs (sysInit n) = Some s → sysRun evs' s = Some s' → incidents s' = [] →
  servers (net s) !! i = Some rf → servers (net s') !! j = Some rf' →
  committedAt rf k e → committedAt rf' k e' →
  LogTerm e = LogTerm e' ∧ CommandIndex e = CommandIndex e'
  ∧ (lastIncludedIndex rf < k → lastIncludedIndex rf' < k → e = e').
Proof.
  intros Hodd H H' Hinc Hi Hj. destruct (calm_moments n Hodd _ _ _ _ H H' Hinc) as (_ & _ & Hr & Hr').
  exact (committed_agree n _ _ i j rf rf' k e e' Hodd Hr Hr' Hi Hj).
Qed.

(** C29: Election Safety and Leader Completeness, in the same executions (an odd number of
    peers, no incident): each term is won at most once and has one leader, and a leader has
    every entry that any peer of its term or an earlier one has committed, at that time or
    before, in its log or under its snapshot. *)
Theorem leader_has_committed n evs s evs' s' :
  Z.odd (Z.of_nat n) = true →
  sysRun evs (sysInit n) = Some s → sysRun evs' s = Some s' → incidents s' = [] →
  NoDup (wins s').*1
  ∧ ∀ i j rf rf' k e, servers (net s) !! i = Some rf → servers (net s') !! j = Some rf' →
      role rf' = LEADER → currentTerm rf ≤ currentTerm rf' → committedAt rf k e →
      k ≤ lastLogIndex rf'
      ∧ (lastIncludedIndex rf' ≤ k → ∃ e', entryAt rf' k = Some e' ∧ LogTerm e' = LogTerm e
           ∧ CommandIndex e' = CommandIndex e)
      ∧ (role rf = LEADER → currentTerm rf = currentTerm rf' → i = j).
Proof.
  intros Hodd H H' Hinc. destruct (calm_moments n Hodd _ _ _ _ H H' Hinc) as (_ & Ht & Hr & Hr').
  split; [apply Ht|]. intros i j rf rf' k e. exact (leader_complete n _ _ i j rf rf' k e Hodd Hr Hr').
Qed.

Context `{!EqDecision Cmd}.

(** C21: The services agree.  In the same executions (an odd number of peers, no incident),
    (1) a peer's messages for its service carry, from its start or the last snapshot
    message on, consecutive command indices up to the commit index, none missing and none
    twice, and end with the commands of the log from the peer's snapshot to the commit
    index; (2) two commands that any two peers deliver with the same command index, the one
    now and the other now or later, are the same; (3) in whatever order the goroutines of
    the Raft tests read the messages of the servers, as long as none is a snapshot with
    commands, they accept. *)
Theorem services_agree n evs s :
  Z.odd (Z.of_nat n) = true → sysRun evs (sysInit n) = Some s → incidents s = [] →
  (∀ i rf, servers (net s) !! i = Some rf →
     ∃ e, entryAt rf (commitIndex rf) = Some e
       ∧ follow 0 (applyChan rf) = Some (CommandIndex e)
       ∧ commandMsgs (entriesBetween rf (lastIncludedIndex rf) (commitIndex rf)) `suffix_of` applyChan rf)
  ∧ (∀ evs' s' i j rf rf' m m', sysRun evs' s = Some s' → incidents s' = [] →
       servers (net s) !! i = Some rf → servers (net s') !! j = Some rf' →
       m ∈ applyChan rf → m' ∈ applyChan rf' → am_CommandValid m = true → am_CommandValid m' = true →
       am_CommandIndex m = am_CommandIndex m' → m = m')
  ∧ ∀ obs : list (Z * ApplyMsg Cmd),
      (∀ z m, (z, m) ∈ obs → (am_CommandValid m = false → am_LastIncludedCmdIndex m = 0)
              ∧ ∃ i rf, z = Z.of_nat i ∧ servers (net s) !! i = Some rf
                  ∧ (ofServer z obs).*2 `prefix_of` applyChan rf) →
      ∃ logs, applierRun obs (replicate n ∅, 0) = Ret logs.
Proof.
  intros Hodd H Hinc.
  destruct (calm_moments n Hodd _ _ [] s H eq_refl Hinc) as (Ht & _ & Hr & _).
  destruct (messages_ok n (net s) Hodd Hr) as (H1 & H2 & H3). split_and!; [done| |done].
  intros evs' s' i j rf rf' m m' H' Hinc'. apply (H2 (net s')).
  by apply (sysRun_tracked n Hodd evs' s s').
Qed.
End claims.
