(* ===== verification/RaftService.v ===== *)
(** * What kvraft assumes of Raft

    [KVSpec.v] proves the key/value service against a committed log, and states what it
    needs of Raft: [log_ok] of the log, [ownEntry] of the answers of [Start], and
    [deliverable] of the messages.  Here a cluster of Raft peers ([RaftSystem.v]) whose
    commands are the service's requests meets these, as long as no incident is noted: the
    log is the path to the last entry that was delivered anywhere. *)

From S2P Require Import Prelude Gob Raft RaftStep RaftPersist RaftLog RaftCommit RaftCluster.
From S2P Require Import RaftDelivery RaftProtocol RaftSystem RaftNetwork RaftNetworkStep RaftNetworkRecv.
From S2P Require Import RaftReplication RaftAgreement RaftClusterSafety KVServer KVSpec.
From stdpp Require Import sorting.
From Stdlib Require Import Sorting.Sorted.
#[local] Open Scope Z_scope.

(** ** The entries of a path *)

Section path.
Context {Cmd : Type}.
Implicit Types (F : Forest Cmd) (e : LogEntry Cmd).

Fixpoint pathTo F (d : nat) (n : node) : list (LogEntry Cmd) :=
  match d with
  | O => []
  | S d => match F !! n with Some (e, tp) => pathTo F d (n.1 - 1, tp) ++ [e] | None => [] end
  end.

(** the entries from the start of the log to [n] *)
Definition entriesTo F (n : node) : list (LogEntry Cmd) := pathTo F (Z.to_nat n.1) n.

Context {F : Forest Cmd} {el : gmap Z nat} {P : Tree}.
Context (Hf : forest_ok F el) (Ht : treeOf F P) (Htr : tree_ok P).

Lemma entriesTo_snoc n p :
  P !! n = Some p → ∃ e tp, F !! n = Some (e, tp) ∧ nodeOf e = n ∧ entriesTo F n = entriesTo F p ++ [e].
Proof using All.
  destruct n as [k t]. intros Hp. pose proof (t_index _ Htr _ _ Hp) as [Hi Hi0].
  rewrite Ht in Hp. destruct (F !! (k, t)) as [[e tp]|] eqn:EF; [|done]. injection Hp as <-.
  exists e, tp. split_and!; [done| |].
  - apply (fo_key _ _ Hf) in EF as (<- & <- & _). done.
  - unfold entriesTo. simpl in *. replace (Z.to_nat k) with (S (Z.to_nat (k - 1))) by lia. simpl. by rewrite EF.
Qed.

Lemma entriesTo_elem n e : known P n → e ∈ entriesTo F n ↔ stored F e ∧ below P (nodeOf e) n.
Proof using All.
  intros Hk. revert e. pattern n. revert n Hk. apply (path_ind Htr).
  - intros e. split; [by intros ?%elem_of_nil|]. intros [[tp He] Hb].
    apply (fo_key _ _ Hf) in He as (_ & _ & ? & _). apply (below_index Htr) in Hb. simpl in Hb. lia.
  - intros n p Hp IH e. destruct (entriesTo_snoc n p Hp) as (a & tp & HF & Hn & ->).
    rewrite elem_of_app, list_elem_of_singleton, IH. split.
    + intros [[Hst Hb]| ->]; (split; [|]); try done.
      * eapply (below_trans Htr); [done|]. by apply (below_parent Htr).
      * exists tp. by rewrite Hn.
      * rewrite Hn. apply below_refl.
    + intros [Hst Hb]. destruct (below_step Htr _ _ _ Hp Hb) as [Heq|?]; [right|by left].
      destruct Hst as [tp' He]. rewrite Heq in He. congruence.
Qed.

Lemma entriesTo_sorted n : known P n → StronglySorted (λ e e', LogIndex e < LogIndex e') (entriesTo F n).
Proof using All.
  intros Hk. pattern n. revert n Hk. apply (path_ind Htr); [constructor|].
  intros n p Hp IH. pose proof (t_known _ Htr _ _ Hp) as Hkp. pose proof (t_index _ Htr _ _ Hp) as [Hi _].
  destruct (entriesTo_snoc n p Hp) as (a & tp & _ & Hn & ->).
  apply StronglySorted_app_2; [|done|by repeat constructor].
  intros x y [_ Hb]%(entriesTo_elem _ _ Hkp) ->%list_elem_of_singleton.
  apply (below_index Htr) in Hb. rewrite <-Hn in Hi. simpl in *. lia.
Qed.
End path.

(** ** Histories *)

Section service.
Context `{!GobCodec Z} `{!GobCodec (list (LogEntry Op))}.
Context `{!GobCodec (gmap string string)} `{!GobCodec (gmap Z Z)}.
Implicit Types (rf : Raft Op) (w : RaftNet Op) (F : Forest Op) (s : Proto) (e : LogEntry Op).
Implicit Types (seen : list (Raft Op)) (h : list (Op * Z * Z)) (m : ApplyMsg Op).

(** an execution with the states that its peers went through, and with the commands for
    which [Start] said that the peer leads, their command indices and terms *)
Inductive hist (n : nat) : RaftNet Op → list (Raft Op) → list (Op * Z * Z) → Prop :=
| h_init : hist n (ninit n) (servers (ninit n)) []
| h_step w w' seen h : hist n w seen h → nstep w w' → hist n w' (servers w' ++ seen) h
| h_start w seen h i rf cmd rf' ci t :
    hist n w seen h → servers w !! i = Some rf → Start cmd rf = Ret (rf', (ci, t, true)) →
    hist n (setRaft i rf' w) (rf' :: seen) ((cmd, ci, t) :: h).

(** what [Start] has answered names an entry *)
Definition named F (x : Op * Z * Z) : Prop :=
  x.2 = -1 ∧ x.1.2 = -1
  ∨ ∃ e, stored F e ∧ Command e = Some x.1.1 ∧ CommandIndex e = x.1.2 ∧ LogTerm e = x.2
      ∧ IsInternalLog e = false.

Record served F s w seen h : Prop := {
  sv_now : delivering F s w;
  sv_seen : ∀ rf, rf ∈ seen → delivered rf ∧ issued F s rf;
  sv_starts : ∀ x, x ∈ h → named F x;
}.

Lemma named_mono F F' x : F ⊆ F' → named F x → named F' x.
Proof. intros Hs [?|(e & ? & ?)]; [by left|right]. exists e. split; [by eapply stored_mono|done]. Qed.

Lemma served_mono F s w seen h F' s' w' :
  served F s w seen h → F ⊆ F' → extends s s' → delivering F' s' w' →
  served F' s' w' (servers w' ++ seen) h.
Proof.
  intros [_ Hse Hst] Hs He Hd. split; [done| |].
  - intros rf [[i Hi]%list_elem_of_lookup_1|Hin]%elem_of_app; [by apply (dl_servers _ _ _ Hd i)|].
    destruct (Hse rf Hin). split; [done|by eapply issued_mono].
  - intros x Hx. by eapply named_mono, Hst.
Qed.

Lemma hist_served n w seen h :
  Z.odd (Z.of_nat n) = true → hist n w seen h → ∃ F s, served F s w seen h.
Proof.
  intros Hodd. induction 1 as [|w w' seen h _ (F & s & Hv) Hst|w seen h i rf cmd rf' ci t _ (F & s & Hv) Hi H].
  - exists ∅, (Rinit n). pose proof (ninit_delivering (Cmd:=Op) n Hodd) as Hd. split; [done| |by intros ? ?%elem_of_nil].
    intros rf [i Hi]%list_elem_of_lookup_1. by apply (dl_servers _ _ _ Hd i).
  - destruct (nstep_delivering _ _ _ _ (sv_now _ _ _ _ _ Hv) Hst) as (F' & s' & Hs & He & Hd).
    exists F', s'. by eapply served_mono.
  - assert (nstep w (setRaft i rf' w)) as Hst
      by (eapply (n_alone w i rf (OpStart cmd)); [done..|simpl; by rewrite H]).
    destruct (nstep_delivering _ _ _ _ (sv_now _ _ _ _ _ Hv) Hst) as (F' & s' & Hs & He & Hd).
    exists F', s'. destruct (served_mono _ _ _ _ _ _ _ _ Hv Hs He Hd) as [_ Hse Hna].
    assert (servers (setRaft i rf' w) !! i = Some rf') as Hi'
      by (simpl; apply list_lookup_insert_eq; by eapply lookup_lt_Some).
    split; [done| |].
    + intros r [->|Hr]%elem_of_cons; [by apply (dl_servers _ _ _ Hd i)|]. apply Hse. apply elem_of_app. by right.
    + intros x [->|Hx]%elem_of_cons; [|by apply Hna].
      destruct (Start_append _ _ _ _ _ _ H) as
        [(_ & -> & ->)|(_ & -> & p & e & Hl & Hfo & Hte & Hci & Hcm & Hint & Hps & _)]; [by left|right].
      exists e. split_and!; try done. apply pstate_inv in Hps as (_ & _ & El & Ei & _). simpl in El, Ei.
      destruct (at_server _ _ _ _ _ (dl_connected _ _ _ Hd) Hi') as (_ & Hp' & _).
      eapply (stored_entry F' _ i rf' (lastLogIndex rf')); [exact Hp'| |].
      * apply entryAt_Some. unfold lastLogIndex, len. rewrite El, length_app. simpl. split; [lia|].
        rewrite lookup_app_r by lia. by replace (Z.to_nat _ - length (logs rf))%nat with 0%nat by lia.
      * unfold lastLogIndex, len. rewrite El, length_app.
        destruct (logs rf); [done|]. simpl. lia.
Qed.
(** ** The committed log *)

Definition zeroOp : Op := mkOp "" "" "" 0 0 0 0.

Definition centryOf e : centry :=
  mkCentry (LogIndex e) (CommandIndex e) (LogTerm e) (request (default zeroOp (Command e))).

(** the commands of the path to [n] *)
Definition commandLog F (n : node) : list centry :=
  centryOf <$> filter (λ e, IsInternalLog e = false) (entriesTo F n).

(** a node above everything that was delivered *)
Lemma top_node F s w (ms : list (ApplyMsg Op)) :
  connected F s w → (∀ m, m ∈ ms → ∃ e, origin F s m e) →
  ∃ n U, safeBy s U n ∧ ∀ m, m ∈ ms → ∃ e, origin F s m e ∧ below (tree s) (nodeOf e) n.
Proof.
  intros Hc. pose proof (p_tree _ (nc_proto _ _ _ Hc)) as Htr. induction ms as [|m ms IH]; intros Hms.
  { exists root, 0. split; [by left|]. by intros ? ?%elem_of_nil. }
  destruct IH as (n & U & Hn & Hall); [intros; apply Hms; by right|].
  destruct (Hms m) as (e & He); [by left|]. pose proof He as (_ & (U' & Hs) & _).
  assert (∃ n' V, safeBy s V n' ∧ below (tree s) n n' ∧ below (tree s) (nodeOf e) n')
    as (n' & V & Hn' & Hb & Hbe).
  { destruct (safe_ordered _ _ _ _ _ _ _ Hc Hn Hs).
    - exists (nodeOf e), U'. split_and!; [done..|by apply below_refl].
    - exists n, U. split_and!; [done|by apply below_refl|done]. }
  exists n', V. split; [done|]. intros x [->|Hx]%elem_of_cons; [by exists e|].
  destruct (Hall x Hx) as (e' & ? & ?). exists e'. split; [done|]. by eapply (below_trans Htr).
Qed.

Section log.
Context {F : Forest Op} {s : Proto} {w : RaftNet Op} (Hc : connected F s w) (Hcn : counts F).
Context {n : node} {U : Z} (Hn : safeBy s U n).

Lemma commandLog_elem f :
  f ∈ commandLog F n ↔ ∃ e, f = centryOf e ∧ IsInternalLog e = false ∧ stored F e ∧ below (tree s) (nodeOf e) n.
Proof using Hc Hn.
  unfold commandLog. rewrite list_elem_of_fmap. setoid_rewrite list_elem_of_filter.
  setoid_rewrite (entriesTo_elem (co_forest _ _ (nc_cluster _ _ _ Hc)) (nc_tree _ _ _ Hc)
    (p_tree _ (nc_proto _ _ _ Hc)) n _ (safeBy_known (nc_proto _ _ _ Hc) _ _ Hn)).
  naive_solver.
Qed.

(** two commands of the log *)
Lemma log_command e e' :
  stored F e → stored F e' → IsInternalLog e = false → IsInternalLog e' = false →
  below (tree s) (nodeOf e) n → below (tree s) (nodeOf e') n → CommandIndex e = CommandIndex e' → e = e'.
Proof using Hc Hcn.
  clear Hn. intros He He' Hi Hi' Hb Hb' Hci. pose proof (p_tree _ (nc_proto _ _ _ Hc)) as Htr.
  eapply (same_command F (leaders w) (tree s)); try done; [apply (nc_cluster _ _ _ Hc)|apply Hc|].
  destruct (decide ((nodeOf e).1 ≤ (nodeOf e').1)); [left|right]; eapply (below_linear Htr); try done; lia.
Qed.

Lemma commandLog_ok : log_ok (commandLog F n).
Proof using All.
  pose proof (co_forest _ _ (nc_cluster _ _ _ Hc)) as Hf. pose proof (nc_proto _ _ _ Hc) as Hok.
  split.
  - apply (StronglySorted_fmap centryOf (λ e e', LogIndex e < LogIndex e')); [done|].
    assert (∀ l : list (LogEntry Op), StronglySorted (λ e e', LogIndex e < LogIndex e') l →
      StronglySorted (λ e e', LogIndex e < LogIndex e') (filter (λ e, IsInternalLog e = false) l)) as Hfl.
    { induction 1 as [|e l _ IH Hall]; [constructor|]. rewrite filter_cons. case_decide; [|done].
      constructor; [done|]. rewrite Forall_forall in *. intros x [_ Hx]%list_elem_of_filter. auto. }
    apply Hfl. eapply (entriesTo_sorted Hf (nc_tree _ _ _ Hc) (p_tree _ Hok)). by eapply (safeBy_known Hok).
  - intros f f' (e & -> & Hi & He & Hb)%commandLog_elem (e' & -> & Hi' & He' & Hb')%commandLog_elem Hci.
    simpl in Hci. by rewrite (log_command e e').
  - intros f (e & -> & Hi & [tp He] & Hb)%commandLog_elem. simpl.
    destruct (fo_key _ _ Hf _ _ _ _ He) as (_ & _ & ? & _). split; [lia|].
    apply (node_term Hok (nodeOf e)). unfold nodeOf. rewrite (nc_tree _ _ _ Hc). unfold nodeOf in He.
    rewrite He. by eexists.
Qed.

(** what [Start] has answered names an entry of the log, if any *)
Lemma named_own c ci t : named F (c, ci, t) → ownEntry (commandLog F n) ci t c.
Proof using All.
  pose proof (co_forest _ _ (nc_cluster _ _ _ Hc)) as Hf. pose proof (nc_proto _ _ _ Hc) as Hok.
  unfold named. simpl. intros [[-> ->]|(e & [tp He] & Hcm & <- & <- & Hi)].
  - split; [done|]. intros f (e & -> & _ & [tp He] & _)%commandLog_elem. simpl. intros Hci _.
    destruct (fo_key _ _ Hf _ _ _ _ He) as (_ & _ & _ & ? & _). lia.
  - split.
    { assert (0 < LogTerm e); [|lia]. apply (node_term Hok (nodeOf e)). unfold nodeOf.
      rewrite (nc_tree _ _ _ Hc). unfold nodeOf in He. rewrite He. by eexists. }
    intros f (e' & -> & Hi' & [tp' He'] & _)%commandLog_elem. simpl. intros Hci Hte.
    assert (e' = e) as ->; [|by rewrite Hcm].
    unfold nodeOf in He, He'. rewrite Hte in He'.
    destruct (Z.lt_trichotomy (LogIndex e') (LogIndex e)) as [Hlt|[Heq|Hlt]].
    + destruct (fo_term _ _ Hf _ _ _ _ _ _ _ He' He Hlt) as [_ H]. specialize (H Hi). lia.
    + rewrite Heq in He'. congruence.
    + destruct (fo_term _ _ Hf _ _ _ _ _ _ _ He He' Hlt) as [_ H]. specialize (H Hi'). lia.
Qed.
End log.
(** ** The messages *)

(** the log index that a service has reached after the messages *)
Definition applied (ms : list (ApplyMsg Op)) : Z :=
  match last ms with
  | Some m => if am_CommandValid m then am_LogIndex m else am_LastIncludedIndex m
  | None => 0
  end.

(** the message with the command as an object of the server *)
Definition withCommand (p : nat) m : ApplyMsg nat :=
  mkApplyMsg (am_CommandValid m) (Some p) (am_CommandIndex m) (am_LogIndex m) (am_Snapshot m)
    (am_LastIncludedIndex m) (am_LastIncludedTerm m) (am_LastIncludedCmdIndex m).

(** the entry that a service has reached after the messages *)
Lemma applied_entry F s (pre : list (ApplyMsg Op)) b :
  (∀ m, m ∈ pre → ∃ e, origin F s m e) → follow 0 pre = Some b →
  ∃ x U, nodeOK F x ∧ safeBy s U (nodeOf x) ∧ LogIndex x = applied pre ∧ CommandIndex x = b.
Proof.
  intros Hpre Hb. destruct pre as [|m pre _] using rev_ind.
  { injection Hb as <-. exists (sentinel 0 0 0), 0. split_and!; [by left|by left|done..]. }
  destruct (Hpre m) as (e & Hok & (U & Hs) & Ho); [apply elem_of_app; right; by left|].
  exists e, U. unfold applied. rewrite last_snoc. rewrite follow_app in Hb.
  destruct (follow 0 pre) as [b0|]; [|done]. simpl in Hb. split; [done|]. split; [done|].
  destruct (am_CommandValid m).
  - destruct Ho as (_ & _ & ->). simpl in Hb. destruct (Z.eqb_spec (CommandIndex e) (b0 + 1)); [|done].
    injection Hb as <-. done.
  - destruct Ho as [-> <-]. by injection Hb as <-.
Qed.

(** no command of the log is skipped *)
Lemma next_command F s w n U pre e e' b :
  connected F s w → counts F → safeBy s U n →
  (∀ m, m ∈ pre → ∃ e, origin F s m e) → follow 0 pre = Some b → CommandIndex e = b + 1 →
  stored F e → IsInternalLog e = false → below (tree s) (nodeOf e) n →
  stored F e' → IsInternalLog e' = false → below (tree s) (nodeOf e') n →
  applied pre < LogIndex e' → LogIndex e ≤ LogIndex e'.
Proof.
  intros Hc Hcn Hn Hpre Hb Hci He Hi Hbe He' Hi' Hbe' Hlt.
  pose proof (co_forest _ _ (nc_cluster _ _ _ Hc)) as Hf. pose proof (nc_proto _ _ _ Hc) as Hok.
  pose proof (p_tree _ Hok) as Htr. pose proof (nc_tree _ _ _ Hc) as Ht.
  destruct (applied_entry F s pre b Hpre Hb) as (x & V & Hx & Hxs & Hxi & Hxc).
  destruct (decide (LogIndex e ≤ LogIndex e')) as [|Hgt]; [done|exfalso].
  assert (CommandIndex x < CommandIndex e').
  { eapply (command_above F (leaders w) (tree s)); try done.
    - eapply (safe_linear Hok); [done|exact (safeBy_below Hok _ _ _ Hn Hbe')|simpl; lia].
    - intros [= Heq _]. lia. }
  assert (CommandIndex e' < CommandIndex e); [|lia].
  eapply (command_above F (leaders w) (tree s)); try done; [by apply stored_node| |].
  - eapply (below_linear Htr); [done..|simpl; lia].
  - intros [= Heq _]. lia.
Qed.

Context {R : Type} `{!RaftAPI R}.

(** what a history gives the service *)
Lemma hist_serves n w seen h :
  Z.odd (Z.of_nat n) = true → hist n w seen h →
  ∃ log, log_ok log
    ∧ (∀ c ci t, (c, ci, t) ∈ h → ownEntry log ci t c)
    ∧ ∀ rf pre m post c p o (kv : KVServer R), rf ∈ seen → applyChan rf = pre ++ m :: post →
        am_CommandValid m = true → am_Command m = Some c →
        ops kv !! p = Some o → request o = request c →
        (∀ f, f ∈ log → ce_cmd f = am_CommandIndex m → op_Term o = 0 ∨ op_Term o = ce_term f) →
        applied pre ≤ lastAppliedIndex kv → deliverable log kv (withCommand p m).
Proof.
  intros Hodd Hh. destruct (hist_served n w seen h Hodd Hh) as (F & s & [[Hc Hcn _] Hse Hst]).
  destruct (top_node F s w (seen ≫= applyChan) Hc) as (nd & U & Hnd & Htop).
  { intros m (rf & Hm & Hin)%list_elem_of_bind. by apply (proj2 (Hse rf Hin)). }
  exists (commandLog F nd). split_and!; [by eapply commandLog_ok|by intros; eapply named_own; eauto|].
  intros rf pre m post c p o kv Hin Ha Hv Hcm Ho Hreq Hterm Happ.
  destruct (Htop m) as (e & (_ & _ & Hor) & Hb).
  { apply list_elem_of_bind. exists rf. split; [|done]. rewrite Ha. set_solver. }
  rewrite Hv in Hor. destruct Hor as (He & Hi & Hm).
  destruct (Hse rf Hin) as [(e0 & _ & Hf & _) Hiss]. rewrite Ha, follow_app in Hf.
  destruct (follow 0 pre) as [b|] eqn:Eb; [|done]. simpl in Hf. rewrite Hv in Hf.
  destruct (Z.eqb_spec (am_CommandIndex m) (b + 1)) as [Hci|]; [|done].
  assert (centryOf e ∈ commandLog F nd) as Hel by (eapply commandLog_elem; eauto).
  unfold deliverable. simpl. rewrite Hv. exists (centryOf e), p, o.
  subst m. simpl in *. split_and!; try done.
  - by rewrite Hreq, Hcm.
  - by apply (Hterm (centryOf e)).
  - intros f Hf'. eapply (commandLog_elem Hc Hnd) in Hf' as (e' & -> & Hi' & He' & Hb'). simpl. intros Hlt.
    eapply (next_command F s w nd U pre e e' b); try done; [|lia].
    intros m' Hm'. apply Hiss. rewrite Ha. set_solver.
Qed.

(** ** The executions of the cluster as histories *)

(** every state of every peer along a schedule *)
Fixpoint visited (evs : list (SysEvent Op)) (s : System Op) : list (Raft Op) :=
  servers (net s) ++
  match evs with
  | [] => []
  | ev :: evs => from_option (visited evs) [] (sysExec ev s)
  end.

(** the request, command index and term of a call of [Start] that said that the peer leads *)
Definition startOf (ev : SysEvent Op) (s : System Op) : list (Op * Z * Z) :=
  match ev with
  | Alone i (OpStart cmd) =>
      match Start cmd <$> servers (net s) !! i with
      | Some (Ret (_, (ci, t, true))) => [(cmd, ci, t)]
      | _ => []
      end
  | _ => []
  end.

Fixpoint starts (evs : list (SysEvent Op)) (s : System Op) : list (Op * Z * Z) :=
  match evs with
  | [] => []
  | ev :: evs => startOf ev s ++ from_option (starts evs) [] (sysExec ev s)
  end.

Lemma hist_steps n w w' seen h :
  hist n w seen h → rtc nstep w w' → servers w ⊆ seen →
  ∃ seen', hist n w' seen' h ∧ seen ⊆ seen' ∧ servers w' ⊆ seen'.
Proof.
  intros Hh Hst. revert seen Hh. induction Hst as [w|w w1 w2 H _ IH]; intros seen Hh Hs.
  { by exists seen. }
  destruct (IH (servers w1 ++ seen)) as (seen' & ? & ? & ?); [by eapply h_step|set_solver|].
  exists seen'. split_and!; [done|set_solver|done].
Qed.

Lemma start_net i cmd (s s' : System Op) rf rf' r :
  sysExec (Alone i (OpStart cmd)) s = Some s' → servers (net s) !! i = Some rf →
  Start cmd rf = Ret (rf', r) → net s' = setRaft i rf' (net s).
Proof. intros H Hi HS. simpl in H. rewrite Hi in H. simpl in H. rewrite HS in H. simpl in H. by injection H as <-. Qed.

Lemma insert_seen i rf (l seen : list (Raft Op)) : l ⊆ seen → <[i := rf]> l ⊆ rf :: seen.
Proof.
  intros Hs x [k Hk]%list_elem_of_lookup_1.
  apply list_lookup_insert_Some in Hk as [(_ & <- & _)|[_ Hk]]; [by left|right].
  by eapply Hs, list_elem_of_lookup_2.
Qed.

Lemma hist_exec n ev (s s' : System Op) seen h :
  Z.odd (Z.of_nat n) = true → tracked n s → hist n (net s) seen h → servers (net s) ⊆ seen →
  sysExec ev s = Some s' → incidents s' = [] →
  ∃ seen' h', hist n (net s') seen' h' ∧ seen ⊆ seen' ∧ servers (net s') ⊆ seen'
    ∧ h ⊆ h' ∧ startOf ev s ⊆ h'.
Proof.
  intros Hodd Ht Hh Hs H Hinc.
  assert (startOf ev s = [] ∨ ∃ i cmd rf rf' ci t, ev = Alone i (OpStart cmd)
    ∧ servers (net s) !! i = Some rf ∧ Start cmd rf = Ret (rf', (ci, t, true))
    ∧ startOf ev s = [(cmd, ci, t)]) as [->|(i & cmd & rf & rf' & ci & t & -> & Hi & HS & ->)].
  { unfold startOf. destruct ev as [i op| | | | | | | | | | | | | |]; auto. destruct op; auto.
    destruct (servers (net s) !! i) as [rf|] eqn:Hi; simpl; auto.
    destruct (Start command rf) as [[rf' [[ci t] []]]| |] eqn:HS; auto.
    right. by exists i, command, rf, rf', ci, t. }
  - destruct (hist_steps n (net s) (net s') seen h Hh) as (seen' & ? & ? & ?);
      [by eapply sysExec_nsteps|done|]. exists seen', h. split_and!; [done..|set_solver].
  - rewrite (start_net i cmd s s' rf rf' _ H Hi HS).
    exists (rf' :: seen), ((cmd, ci, t) :: h). split_and!; [by eapply h_start|set_solver| |set_solver..].
    by apply insert_seen.
Qed.

Lemma hist_run n evs (s s' : System Op) seen h :
  Z.odd (Z.of_nat n) = true → tracked n s → hist n (net s) seen h → servers (net s) ⊆ seen →
  sysRun evs s = Some s' → incidents s' = [] →
  ∃ seen' h', hist n (net s') seen' h' ∧ seen ⊆ seen' ∧ visited evs s ⊆ seen'
    ∧ h ⊆ h' ∧ starts evs s ⊆ h'.
Proof.
  intros Hodd. revert s seen h. induction evs as [|ev evs IH]; cbn [sysRun]; intros s seen h Ht Hh Hs H Hinc.
  { injection H as <-. exists seen, h. simpl. rewrite app_nil_r. split_and!; [done..|set_solver]. }
  destruct (sysExec ev s) as [s1|] eqn:Hev; [|done]. simpl in H.
  pose proof (sysRun_calm _ _ _ H Hinc) as Hinc1.
  destruct (hist_exec n ev s s1 seen h) as (seen1 & h1 & Hh1 & ? & ? & ? & ?); try done.
  destruct (IH s1 seen1 h1) as (seen2 & h2 & ? & ? & ? & ? & ?); try done; [by eapply sysExec_tracked|].
  exists seen2, h2. cbn [visited starts]. rewrite Hev. simpl. split_and!; [done|set_solver..].
Qed.

(** C39: Raft keeps the promises on which the key/value service relies.  Take any execution
    of a cluster with an odd number of peers, whose commands are requests of the service, in
    which no incident is noted (see C5 for what that excludes).  There is a committed log
    such that (1) its indices grow, a command index is used once, and indices and terms
    start at 1; (2) an entry with the command index and term that [Start] has answered for a
    request ([starts]) is that request; (3) every command message that a peer has sent at
    any time ([visited]: the states its peers went through) is [deliverable] to a server
    that has applied the messages before it, so the server's theorems of [KVSpec.v] apply. *)
Theorem raft_serves_kv n evs (s : System Op) :
  Z.odd (Z.of_nat n) = true → sysRun evs (sysInit n) = Some s → incidents s = [] →
  ∃ log, log_ok log
    ∧ (∀ c ci t, (c, ci, t) ∈ starts evs (sysInit n) → ownEntry log ci t c)
    ∧ ∀ rf pre m post c p o (kv : KVServer R),
        rf ∈ visited evs (sysInit n) → applyChan rf = pre ++ m :: post →
        am_CommandValid m = true → am_Command m = Some c →
        ops kv !! p = Some o → request o = request c →
        (∀ f, f ∈ log → ce_cmd f = am_CommandIndex m → op_Term o = 0 ∨ op_Term o = ce_term f) →
        applied pre ≤ lastAppliedIndex kv → deliverable log kv (withCommand p m).
Proof.
  intros Hodd H Hinc.
  destruct (hist_run n evs (sysInit n) s _ _ Hodd (tracked_init n) (h_init n) ltac:(done) H Hinc)
    as (seen & h & Hh & _ & Hv & _ & Hs).
  destruct (hist_serves n (net s) seen h Hodd Hh) as (log & H1 & H2 & H3).
  exists log. split_and!; [done|by intros; apply H2, Hs|]. intros. eapply H3; eauto.
Qed.
End service.
