(* ===== verification/RaftAgreementWitness.v ===== *)
(** * Package raft: an execution without incidents, and one with

    Peer 0 of three wins term 1 with the vote of peer 1, commits a command with it and
    sends peer 2 a snapshot; then peer 1 wins term 2 with the vote of peer 2 and commits
    another command.  In a second execution one overtaken request is accepted, and a
    committed command is lost. *)

From S2P Require Import Prelude Gob Labgob Labrpc Raft RaftStep RaftPersist RaftLog RaftElection RaftCommit.
From S2P Require Import RaftCluster HarnessKV HarnessRaft HarnessRaftSpec RaftDelivery RaftProtocol.
From S2P Require Import RaftSystem RaftNetwork RaftClusterWitness RaftAgreement RaftClusterSafety.
Import CountableCodec.

Definition term1 : list (SysEvent Z) :=
  electionOf 0 1 ++ Alone 0 (OpStart 7) :: exchange 0 1
  ++ [Send 0 1; Recv 0; Alone 0 (OpTakeSnapshot [] 2); SendSnap 0 2; RecvSnap 0; SnapReply 0].

Definition term2 : list (SysEvent Z) :=
  Restart 0 :: electionOf 1 2 ++ Alone 1 (OpStart 8) :: exchange 1 2
  ++ [Send 1 2; Recv 0] ++ exchange 1 0 ++ [Send 1 0; Recv 0].

Definition system1 : System Z := reach term1 (sysInit 3).
Definition system2 : System Z := reach term2 system1.

Lemma system1_run : sysRun term1 (sysInit 3) = Some system1.
Proof. vm_compute. reflexivity. Qed.

Lemma system2_run : sysRun term2 system1 = Some system2.
Proof. vm_compute. reflexivity. Qed.

Lemma system2_calm : incidents system2 = [].
Proof. vm_compute. reflexivity. Qed.

Definition command8 : LogEntry Z := mkLogEntry 2 4 (Some 8) 2 false.

#[local] Opaque Make.

(** the command of the second leader, on a peer that restarted and on one that started
    from a snapshot *)
Lemma state_machine_safety_witness :
  entryAt (member 0 system2) 4 = Some command8 ∧ commitIndex (member 2 system2) = 4
  ∧ LogTerm <$> entryAt (member 2 system2) 4 = Some 2.
Proof.
  split; [vm_compute; reflexivity|]. split; [vm_compute; reflexivity|].
  assert (∃ e, entryAt (member 2 system2) 4 = Some e) as [e He] by (vm_compute; eauto).
  destruct (state_machine_safety 3 (term1 ++ term2) system2 [] system2 0 2 (member 0 system2)
    (member 2 system2) 4 command8 e) as (Ht & _ & _).
  - reflexivity.
  - exact (sysRun_app _ _ _ _ _ system1_run system2_run).
  - reflexivity.
  - exact system2_calm.
  - vm_compute. reflexivity.
  - vm_compute. reflexivity.
  - split; [vm_compute; discriminate|vm_compute; reflexivity].
  - split; [vm_compute; discriminate|exact He].
  - rewrite He. simpl. rewrite <-Ht. reflexivity.
Defined.

(** two terms were won, and the leader of term 2 has what the leader of term 1 has
    committed and compressed *)
Lemma leader_has_committed_witness :
  wins system2 = [(2, 1%nat); (1, 0%nat)] ∧ NoDup (wins system2).*1
  ∧ role (member 1 system2) = LEADER ∧ lastIncludedIndex (member 0 system1) = 2
  ∧ ∃ e, entryAt (member 1 system2) 2 = Some e ∧ LogTerm e = 1 ∧ CommandIndex e = 1.
Proof.
  destruct (leader_has_committed 3 term1 system1 term2 system2 eq_refl system1_run system2_run
    system2_calm) as [Hnd Hl].
  split; [vm_compute; reflexivity|]. split; [exact Hnd|].
  split; [vm_compute; reflexivity|]. split; [vm_compute; reflexivity|].
  apply (Hl 0%nat 1%nat (member 0 system1) (member 1 system2) 2 (mkLogEntry 1 2 None 1 false)).
  - vm_compute. reflexivity.
  - vm_compute. reflexivity.
  - vm_compute. reflexivity.
  - vm_compute. discriminate.
  - split; [vm_compute; discriminate|vm_compute; reflexivity].
  - vm_compute. discriminate.
Defined.

(** what the services of peers 0 and 1 got in term 1 *)
Definition observed : list (Z * ApplyMsg Z) :=
  ((1,.) <$> applyChan (member 1 system1)) ++ ((0,.) <$> applyChan (member 0 system1)).

Lemma services_agree_witness :
  am_Command <$> applyChan (member 1 system2) = [None; Some 7; Some 8]
  ∧ (∃ e, entryAt (member 1 system2) 4 = Some e
       ∧ follow 0 (applyChan (member 1 system2)) = Some (CommandIndex e))
  ∧ (∀ m m', m ∈ applyChan (member 0 system1) → m' ∈ applyChan (member 1 system2) →
       am_CommandValid m = true → am_CommandValid m' = true → am_CommandIndex m = am_CommandIndex m' → m = m')
  ∧ am_CommandIndex <$> observed.*2 = [0; 1; 0; 1]
  ∧ ∃ logs, applierRun observed (replicate 3 ∅, 0) = Ret logs.
Proof.
  destruct (services_agree 3 (term1 ++ term2) system2 eq_refl
    (sysRun_app _ _ _ _ _ system1_run system2_run) system2_calm) as (H1 & _ & _).
  destruct (services_agree 3 term1 system1 eq_refl system1_run (sysRun_calm _ _ _ system2_run system2_calm))
    as (_ & H2 & H3).
  split; [vm_compute; reflexivity|]. split; [|split; [|split; [vm_compute; reflexivity|]]].
  - destruct (H1 1%nat (member 1 system2)) as (e & He & Hf & _); [vm_compute; reflexivity|].
    exists e. split; [exact He|exact Hf].
  - intros m m'. apply (H2 term2 system2 0%nat 1%nat); [exact system2_run|exact system2_calm
      |vm_compute; reflexivity..].
  - apply H3. intros z m Hm. split.
    + assert (Forall (λ x : Z * ApplyMsg Z,
        am_CommandValid x.2 = false → am_LastIncludedCmdIndex x.2 = 0) observed) as Hall
        by (vm_compute; repeat constructor; intros; reflexivity || discriminate).
      exact (proj1 (Forall_forall _ _) Hall (z, m) Hm).
    + assert (z = 1 ∨ z = 0) as [->| ->].
      { apply elem_of_app in Hm as [(? & [= -> _] & _)%list_elem_of_fmap|(? & [= -> _] & _)%list_elem_of_fmap]; auto. }
      * exists 1%nat, (member 1 system1). split; [reflexivity|]. split; [vm_compute; reflexivity|].
        exists []. vm_compute. reflexivity.
      * exists 0%nat, (member 0 system1). split; [reflexivity|]. split; [vm_compute; reflexivity|].
        exists []. vm_compute. reflexivity.
Defined.

(** ** An overtaken request

    Peer 0 leads term 1 and sends peer 1 its first entry (request A), then the first entry
    and a command (request B).  B arrives and the command is committed; then A arrives,
    and the handler cuts the command off.  Peer 1 wins term 2 without the command and
    commits another entry in its place. *)

Definition beforeA : list (SysEvent Z) :=
  electionOf 0 1 ++ [Send 0 1; Alone 0 (OpStart 7); Send 0 1; Recv 0; Reply 0].

Definition afterA : list (SysEvent Z) :=
  electionOf 1 2 ++ exchange 1 2 ++ exchange 1 2.

(** The only incident is that A is accepted; State Machine Safety fails. *)
Theorem delayed_request_loses_commit :
  ∃ s s', sysRun beforeA (sysInit 3) = Some s ∧ incidents s = []
    ∧ commitIndex (member 0 s) = 2 ∧ Command <$> entryAt (member 0 s) 2 = Some (Some 7)
    ∧ sysRun (Recv 1 :: afterA) s = Some s' ∧ incidents s' = [OvertakenRequest 1]
    ∧ commitIndex (member 1 s') = 2 ∧ LogTerm <$> entryAt (member 1 s') 2 = Some 2.
Proof.
  eexists _, _. split; [vm_compute; reflexivity|].
  repeat (split; [vm_compute; reflexivity|]). vm_compute. reflexivity.
Qed.
