(* ===== verification/RaftServiceWitness.v ===== *)
(** * Raft and kvraft together: an execution with requests

    Peer 0 of three wins term 1, takes a Put, commits it with peer 1, which delivers it;
    what the server of peer 1 receives is what [KVSpec.v] asks for. *)

From S2P Require Import Prelude Gob Raft RaftStep RaftPersist RaftLog RaftElection RaftCommit RaftCluster.
From S2P Require Import RaftDelivery RaftProtocol RaftSystem RaftNetwork RaftClusterWitness RaftAgreement.
From S2P Require Import KVServer KVSpec RaftService.
Import CountableCodec.

#[export] Instance Op_eq_dec : EqDecision Op.
Proof. solve_decision. Defined.

#[export] Instance Op_countable : Countable Op.
Proof.
  refine (inj_countable'
    (λ o, (op_Key o, op_Value o, op_Type o, op_CmdIndex o, op_Term o, op_ClientId o, op_SeqId o))
    (λ '(k, v, ty, ci, t, c, q), mkOp k v ty ci t c q) _).
  by intros [].
Defined.

Definition put : Op := mkOp "x" "1" OP_TYPE_PUT 0 0 5 1.

(** the election, the request, and its replication by the leader *)
Definition putRun : list (SysEvent Op) :=
  electionOf 0 1 ++ Alone 0 (OpStart put) :: exchange 0 1 ++ [Send 0 1; Recv 0].

Definition putSystem : System Op := reach putRun (sysInit 3).

Definition server0 : KVServer (Raft nat) := newKVServer 1 (Make 3 1 MakePersister) (-1).
Definition server1 : KVServer (Raft nat) := snd (newOp put server0).

(** the second message of peer 1 is the request *)
Definition putMsg : ApplyMsg Op := mkApplyMsg true (Some put) 1 2 [] 0 0 0.

Lemma raft_serves_kv_witness :
  starts putRun (sysInit 3) = [(put, 1, 1)] ∧ applyChan (member 1 putSystem) !! 1%nat = Some putMsg
  ∧ ∃ log, log_ok log ∧ ownEntry log 1 1 put ∧ deliverable log server1 (withCommand 0 putMsg).
Proof.
  assert (sysRun putRun (sysInit 3) = Some putSystem) as E by (vm_compute; reflexivity).
  destruct (raft_serves_kv (R:=Raft nat) 3 putRun putSystem eq_refl E ltac:(vm_compute; reflexivity))
    as (log & Hlog & Hown & Hdel).
  assert (starts putRun (sysInit 3) = [(put, 1, 1)]) as Hs by (vm_compute; reflexivity).
  split; [exact Hs|]. split; [vm_compute; reflexivity|].
  exists log. split; [exact Hlog|]. split; [apply Hown; rewrite Hs; left|].
  eapply (Hdel (member 1 putSystem) [snapshotMsg (Make 3 1 MakePersister)] putMsg [] put 0%nat put).
  - eapply (list_elem_of_lookup_2 _ (1 + length (visited putRun (sysInit 3)) - 3)). vm_compute. reflexivity.
  - vm_compute. reflexivity.
  - reflexivity.
  - reflexivity.
  - vm_compute. reflexivity.
  - reflexivity.
  - intros f _ _. left. reflexivity.
  - vm_compute. discriminate.
Defined.
