(* ===== verification/HarnessWitness.v ===== *)
(** * The test harnesses: examples with three servers *)

From S2P Require Import Prelude Gob Labgob Labrpc Raft KVServer HarnessKV HarnessKVSpec HarnessRestart HarnessRaft HarnessRaftSpec.
Import CountableCodec.

(** ** A configuration *)

Definition names3 : list (list string) :=
  [["00"; "01"; "02"]; ["10"; "11"; "12"]; ["20"; "21"; "22"]].
Definition mesh3 : endTable := Some <$> names3.

#[local] Instance theServer : TestServer (KVServer (Raft nat)) := kvTestServer 1000.

Definition kvsvc : Service := mkService "KVServer" ∅.
Definition rfsvc : Service := mkService "Raft" ∅.

Definition getConfig {I} (m : go (config I)) (d : config I) : config I :=
  match m with Ret cfg => cfg | _ => d end.

Definition noConfig : config (KVServer (Raft nat)) :=
  mkConfig MakeNetwork [] 0 [] [] [] [] [] ∅ 0 0 0.
Definition cfg3 : config (KVServer (Raft nat)) :=
  getConfig (make_config 3 names3 kvsvc rfsvc false) noConfig.
(** ** A partition *)

Lemma mesh3_meshed : meshed mesh3 3.
Proof.
  split.
  - intros i j Hi Hj. assert (i = 0 ∨ i = 1 ∨ i = 2) as Hi' by lia. assert (j = 0 ∨ j = 1 ∨ j = 2) as Hj' by lia.
    destruct_or?; subst; eexists; vm_compute; reflexivity.
  - intros i Hi. assert (i = 0 ∨ i = 1 ∨ i = 2) as Hi' by lia.
    destruct_or?; subst; eexists; vm_compute; reflexivity.
  - assert (∀ i j e, endnameAt mesh3 i j = Ret e → (i = 0 ∨ i = 1 ∨ i = 2) ∧ (j = 0 ∨ j = 1 ∨ j = 2)) as Hr.
    { intros i j e E. unfold endnameAt in E. apply go_bind_Ret_inv in E as ([row|] & Hi & E); [|done].
      apply idx_Ret in Hi as [Hi Hrow], E as [Hj Hcol].
      assert (length row = 3%nat) as Hl.
      { destruct (Z.to_nat i) as [|[|[|]]]; simpl in Hrow; simplify_eq; reflexivity. }
      apply lookup_lt_Some in Hrow, Hcol. simpl in Hrow. lia. }
    intros i j i' j' e E E'. destruct (Hr i j e E) as [Hi Hj]. destruct (Hr i' j' e E') as [Hi' Hj'].
    destruct_or?; subst; vm_compute in E, E'; simplify_eq; done.
Defined.

(** the network of a configuration whose servers run *)
Definition net0 : Network netName := cfg_net cfg3.

Lemma partition_isolates_witness :
  ∃ p1 p2 rn', make_partition 3 1 = Ret (p1, p2)
    ∧ p1 ++ p2 ≡ₚ All 3 ∧ 1 ∈ p2 ∧ len p1 = Z.quot 3 2 + 1
    ∧ partition mesh3 p1 p2 net0 = Ret rn'
    ∧ ∀ a b e, 0 ≤ a < 3 → 0 ≤ b < 3 → endnameAt mesh3 a b = Ret e →
        connectionAt net0 (inl e) = Some (inr b) →
        deliverTo (readEndnameInfo rn' (inl e))
        = if decide (a ∈ p1 ↔ b ∈ p1) then pair (inr b) <$> serverAt net0 (inr b) else None.
Proof.
  apply (partition_isolates mesh3 3 1 net0); [reflexivity|lia|lia|exact mesh3_meshed].
Defined.

(** before the partition server 1 is reached from server 0, after it no more *)
Example cut :
  deliverTo (readEndnameInfo net0 (inl "01")) = Some (inr 1, 1%nat)
  ∧ (λ rn, deliverTo (readEndnameInfo rn (inl "01"))) <$> partition mesh3 [0; 2] [1] net0 = Ret None
  ∧ (λ rn, deliverTo (readEndnameInfo rn (inl "02"))) <$> partition mesh3 [0; 2] [1] net0
    = Ret (Some (inr 2, 2%nat)).
Proof. vm_compute. repeat split; reflexivity. Qed.

(** for an even number of servers a server can be on both sides *)
Example even_partition : make_partition 4 3 = Ret ([0; 1; 2], [0; 3]).
Proof. vm_compute. reflexivity. Qed.

(** detaching from a server that was never started panics when the test looks at
    another row *)
Example disconnect_panics :
  disconnectUnlocked [Some ["00"; "01"]; None] 0 [1] MakeNetwork = Panic.
Proof. vm_compute. reflexivity. Qed.

(** ** A restart *)

Definition stopped : config (KVServer (Raft nat)) := getConfig (ShutdownServer 1 cfg3) noConfig.

(** the old instance saves once more *)
Definition ghost : KVServer (Raft nat) :=
  match instances stopped !! 1%nat with
  | Some (kv, _) => set_kv_rf (set_persister (mkPersister [x01] [x02]) (kv_rf kv)) kv
  | None => newKVServer 0 (Make 3 0 MakePersister) 0
  end.
Definition haunted : config (KVServer (Raft nat)) :=
  getConfig (instanceSteps [(1%nat, ghost)] stopped) noConfig.
Definition restarted : config (KVServer (Raft nat)) :=
  getConfig (StartServer 1 ["a0"; "a1"; "a2"] kvsvc rfsvc haunted) noConfig.

Lemma restart_gets_last_state_witness :
  ∃ inst k q', ts_start (cfg_n cfg3) 1 MakePersister = Ret inst
    ∧ idx (kvservers restarted) 1 = Ret (Some k) ∧ instances restarted !! k = Some (inst, q')
    ∧ idx (saved restarted) 1 = Ret (Some q') ∧ persisters restarted !! q' = Some (ts_persister inst)
    ∧ (∀ k' inst' q'', instances restarted !! k' = Some (inst', q'') → k' ≠ k → q'' ≠ q')
    ∧ pointersOK restarted.
Proof.
  apply (restart_gets_last_state 1 ["a0"; "a1"; "a2"] kvsvc rfsvc [(1%nat, ghost)]
    cfg3 stopped haunted restarted 1 MakePersister).
  - intros [|[|[|k]]] inst q Hk; vm_compute in Hk; simplify_eq; vm_compute; lia.
  - vm_compute. reflexivity.
  - vm_compute. reflexivity.
  - vm_compute. reflexivity.
  - vm_compute. reflexivity.
  - vm_compute. reflexivity.
Defined.

(** ** Deliveries *)

Definition delivery (i k v : Z) : Z * ApplyMsg Z := (i, mkApplyMsg true (Some v) k k [] 0 0 0).

Definition deliveries : list (Z * ApplyMsg Z) :=
  [delivery 0 1 7; delivery 1 1 7; delivery 0 2 8; delivery 1 1 7; delivery 1 2 8].

Lemma delivery_checked_witness :
  agree deliveries ∧ ∃ S cmd, NoDup S ∧ (∀ i, i ∈ S ↔ ∃ v, delivers deliveries i 2 v)
    ∧ ∀ i v, delivers deliveries i 2 v → cmd = v.
Proof.
  destruct (delivery_checked 3 deliveries) as [[H1 _] H2]. split.
  - apply H1. eexists. vm_compute. reflexivity.
  - edestruct H2 as (S & cmd & _ & H3 & H4 & H5); [vm_compute; reflexivity|]. by exists S, cmd.
Defined.

Example disagreement :
  applierRun [delivery 0 1 7; delivery 1 1 8] (replicate 3 ∅, 0) = Panic.
Proof. vm_compute. reflexivity. Qed.

Example one_leader :
  findLeader [(0, (4, true)); (1, (5, true)); (2, (5, false))] = Ret (Some 1).
Proof. vm_compute. reflexivity. Qed.
